(* ===== verification/_CoqProject ===== *)
-Q . S2P
Prelude.v
Exceptions.v
External.v
Flags.v
Instances.v
Envelope.v
EnvelopeWire.v
Serialization.v
SerializationProps.v
Glob.v
EventTypes.v
World.v
WorldLogic.v
WorldSafety.v
Hosts.v
Builder.v
Listener.v
Bus.v
BusTraces.v
BusSafety.v
BusRouting.v
BusListeners.v
Subscriber.v
BusLifecycle.v
BusTyping.v
Transport.v
Relay.v
LocalTransport.v
LocalTransportProps.v
LocalWakeups.v
LocalDestroy.v
Mount.v
Adapter.v
Resources.v
ToyClient.v
AdapterProps.v
Nats.v
Redis.v
Mqtt.v
Zmq.v
ZmqProps.v
Amqp.v
AmqpLedger.v
AmqpProps.v
AmqpAttach.v
AmqpTags.v
EndToEnd.v
Streams.v
Threads.v
BusThreads.v
BusInterleaved.v
BusRaces.v
Metrics.v
Examples.v
BrokerExamples.v
UnitTests.v
