(* ===== verification/Prelude.v ===== *)
(** * A verification development for the conduit event bus

    conduit ([include/conduit/], a header-only C++20 library) publishes typed events
    on a bus: an event becomes an envelope, passes the middleware, is offered to the
    attached transports and is fanned out to the listeners.  Local and relay
    transports stay in the process; the adapters under [transports/] carry envelopes
    to and from AMQP, NATS, Redis, MQTT and ZeroMQ.  The development models the
    library's and the adapters' own code as Rocq functions and state machines, and
    proves what they promise.

    ** Parts, files and sources

    - [Prelude]: machine integers (64-bit wrap-around written out, signed overflow
      as a range), tactics, hints, lemmas on lists, maps and strings.
    - [Exceptions] ([exception.hpp]): the exception classes, [catch] by inheritance,
      and [outcome], the result of fallible code: a value, an exception, or undefined
      behaviour ([ub] lists the kinds that occur).
    - [External], [Instances]: the third-party libraries of the core (json, ulid,
      metadata, flags, parcel) as classes of operations with classes of laws, and one
      concrete instance that satisfies them.
    - [Flags] ([flags.hpp], [event.hpp]), [Envelope] and [EnvelopeWire]
      ([envelope.hpp], [metadata.hpp]), [Serialization], [SerializationProps]
      ([serialization.hpp]), [Glob] ([glob.hpp]), [EventTypes]
      ([event_type_registry.hpp]), [Builder] ([builder.hpp]).
    - [World], [WorldLogic], [WorldSafety], [Hosts]: effects.  A computation is a
      function from a [world] (the heap of shared envelope cores, the component's
      mutex and members, the clock, everything outside) to an outcome, a world and a
      trace of calls and metric updates ([metrics.hpp], [middleware.hpp]).  User code
      is the field [run] of a [host]; it may throw, change the world and re-enter.
    - [Listener], [Subscriber] ([listener.hpp]); [Bus], [BusTraces], [BusSafety],
      [BusRouting], [BusListeners], [BusLifecycle], [BusTyping] ([bus.hpp]), one
      definition per member function.
    - [Threads], [BusThreads], [BusInterleaved], [BusRaces] ([bus.hpp]): the same
      member functions as programs of critical sections and atomic accesses, run by
      any number of threads between whose sections anything can happen.
    - [Metrics] ([metrics.hpp]): families, prefix and labels, and what an adapter shows
      after a trace of updates.
    - [Transport] ([transport.hpp], [filtered_transport.hpp]), [Relay]
      ([relay/transport.hpp]), [LocalTransport], [LocalTransportProps],
      [LocalWakeups] and [LocalDestroy] ([local/transport.hpp]), a step relation over
      interleaved threads; [LocalWakeups] refines it by the two condition variables,
      the threads that sleep on them and the notifications.
    - [Mount]: a bus whose calls of a transport run the transport's own definitions.
    - [Adapter], [AdapterProps], [Resources], [ToyClient]: what the five adapters
      share: their payloads and receive path, triples ([post]) and ownership ([owns])
      for operations on a client library, and a small client library for witnesses.
    - [Nats], [Redis], [Mqtt], [Zmq] with [ZmqProps], and [Amqp] with [AmqpLedger],
      [AmqpProps], [AmqpAttach] and [AmqpTags] ([transports/<name>/src/transport.cpp] and the header
      beside it).
    - [EndToEnd], [Streams]: the composition of a bus, an adapter mounted on it, and the
      bus of another process, for one event and for a sequence of events.
    - [Examples] ([examples/*.cpp]), [BrokerExamples]
      ([transports/*/examples/*.cpp], [transports/*/tests/*.cpp]): the twenty-five
      example programs and the adapters' smoke tests, run on the model; [UnitTests]
      ([tests/test_*.cpp]): what the core's unit tests assert.

    ** How the parts interact

    The bus calls transports, middleware and listeners through the environment's
    [run] (a [CallDispatch], a [CallHandler], ...), so its theorems hold of every
    transport.  A transport hands inbound envelopes to a sink; sinks are data
    ([InboundSink]) that [run_sink] interprets against the class [InboundTarget],
    which the bus implements by [deliver_to_listeners].  The adapters use the bus
    through the class [BusLink] (delivery, registries, error reports), which
    [bus_link] implements with the bus's definitions.  Subscriptions reach the bus
    through the class of [Listener].

    [mount] replaces the environment's answer to a [CallDispatch] by the dispatch of a
    transport of the development, with its members beside the bus ([hosted]), and
    [mount_transport] its answers to all five virtual methods; the
    composition of bus, adapter and remote bus needs of an adapter only the class
    [WireAdapter], which all five provide: AMQP's hands its messages to a queue, and what
    the IO thread makes of the queue is a theorem of its own.

    [BusThreads] cuts the definitions of [Bus] at the points where another thread can
    come in; [run_op_prog] shows that uncut they are the same operations, so the two
    descriptions of [bus.hpp] agree.  A protocol ([follows]) says in which phases a
    program performs an action; the invariants of interleaved runs are stated over the
    phases of all threads.  Metric updates are events of a trace; [Metrics] replays a
    trace into any adapter that satisfies the laws of [PromLaws].

    ** What the theorems show

    - Bus: [publish] never throws and is never undefined in a civil environment; it
      offers the envelope to exactly the admissible transports in order, with the
      middleware around it in the documented order; scope flags are respected; the
      fan-out calls exactly the matching listeners; drops are counted; every
      operation keeps the bus's invariant; listeners are registered and released
      once and the gauge balances; shutdown flushes and detaches every transport;
      a typed handler is called with payloads of its type only; a subscriber owns
      exactly what it registered; publishing through a transport that delivers inline
      is publishing without a transport.
    - Bus, with threads: the set of listeners is linearizable to a specification of
      two operations; a fan-out calls the listeners of one moment; the gauge is exact
      up to registrations under way, and the exported series are consistent; however
      many threads shut the bus down, each transport is detached once.  The races that
      the code has: the first registrations on [self_alias_], and a transport attached
      around a shutdown.
    - Wire format: encoding and decoding an envelope gives back its contents; which
      exceptions decoding raises; what unchecked timestamps do.
    - Globs: the matcher terminates within bounds, and agrees with the reference
      relation on the patterns for which one backtracking point is enough; a pattern
      for which it is not.
    - Transports: filters refine conjunctions of predicates; the relay calls the
      matching routes; the local transport loses no event, bounds its backlog, keeps
      FIFO order on the one worker that the constructor gives a queue, and wakes every
      sleeping producer and [flush]; the deadlock of a nested publish, and the
      destruction of a transport with work in progress.
    - Adapters: what is published on the bus of one process reaches the listeners of
      another, a sequence in its order, and over AMQP through the queue of the IO
      thread (without middleware on the publishing side, to a registry that decodes
      the payloads; the wire keeps whole milliseconds and the registered flags);
      nothing that arrives escapes the receive path; attaching either
      connects or gives every library object back, and no sequence of operations
      leaks one (for NATS, of operations that attach a released adapter only: attaching
      twice leaks); receive loops deliver every message in order, past errors.  AMQP:
      the ledger of publisher confirms, acknowledgements, errors that release
      waiters, what has been declared, bound and consumed from when attaching succeeds,
      the order of publications, the delivery tags against the broker's
      numbers, and the uses of a promise after its end.
    - Programs: the output or the traffic of every example program, for the schedules
      and the mail that are written down; the sum that the thread-pool example prints,
      for every schedule; the assertions of the unit tests.

    ** Environments, bounds and fuel

    [civil] is what theorems about the bus assume of user code: it leaves mutexes
    free and envelopes allocated, keeps the invariant it is given, and its calls are
    not undefined; it may throw anything.  A mutex that the same thread takes twice is
    undefined behaviour ([with_lock]).  The matcher runs on [glob_fuel], a product of
    the lengths of the pattern and the name that bounds the lexicographic measure of
    its loop; [glob_match_total] shows that it never runs out.  [catches] climbs five
    base classes, the depth of the hierarchy.  Loops of worker threads are run on a
    finite script of what the library answers; a script may be of any length.  The
    delivery counters are 64 bits wide and wrap.

    Client libraries are parameters: a class with the functions that the adapter
    calls, on an arbitrary library state, and for the theorems on resources a class
    of laws that says which calls create and destroy objects.  A throwing function
    raises exceptions under [std::exception], as those libraries document.  AMQP-CPP's
    calls also give the callbacks they make; the iterations of the IO thread while a
    caller waits are an argument of the operation, so a theorem for all arguments
    covers every interleaving of whole iterations with that caller.

    ** Not modelled

    Every function of the library and the adapters that has a body of its own is
    modelled, except for accessors that return a member and are read as that member
    here ([Bus::registry], [Transport::bus], [ListenerEntry::priority]), deleted and
    defaulted members, display information, which is opaque, and, in the AMQP adapter,
    [fcntl] and the retry of [write] on [EINTR].  What remains of the model's limits:

    - Memory order: sections and atomic accesses are sequentially consistent, and a data
      race is shown as two threads that stand before conflicting accesses.
    - What a call of user code does to the bus while other threads run ([bystander]: it
      uses the bus only as a thread of its own).
    - Destruction of members and closures.  [Bus.destroy] is the body of [~Bus]; the
      destruction of the bus's members after it, which gives up its references to
      transports and may run their destructors, is not part of it.  [Bus.release]
      drops the entry with its handler under the mutex; a handler that owns a
      subscription of the same bus would then take the mutex again.
    - A [flush] of the local transport from inside a delivery on one of its workers.
    - The prom adapter behind the metrics, the process-wide registry of flags, and a
      builder used again after [build].
    - The example programs run for the schedules and the servers given with them; their
      payloads are texts, standard output and error are one console, and the interrupt
      is a number of rounds.  The unit tests that concern third-party types alone are
      left out, and so are the build files and the documentation, which have no
      behaviour of the program's own. *)

From stdpp Require Export base option list gmap strings.
From Stdlib Require Export ZArith Lia.
From stdpp Require Import options.

(** ** Notation scope *)

Declare Scope conduit_scope.
Delimit Scope conduit_scope with conduit.

(** ** Machine integers *)

(** [std::size_t] and [std::uint64_t] are 64 bits wide; arithmetic on them wraps
    modulo [2^64].  They are kept as [Z] with the wrap-around written out. *)
Definition u64_modulus : Z := 18446744073709551616.
Definition u64_max : Z := u64_modulus - 1.
Definition u64_wrap (x : Z) : Z := x mod u64_modulus.
Definition u64_add (x y : Z) : Z := u64_wrap (x + y).
Definition u64_sub (x y : Z) : Z := u64_wrap (x - y).
Definition is_u64 (x : Z) : Prop := (0 ≤ x < u64_modulus)%Z.

(** [std::int64_t]: signed overflow is undefined, so there is no wrap-around
    function, only the range. *)
Definition i64_min : Z := -9223372036854775808.
Definition i64_max : Z := 9223372036854775807.
Definition is_i64 (x : Z) : Prop := (i64_min ≤ x ≤ i64_max)%Z.
Definition in_i64 (x : Z) : bool := ((i64_min <=? x) && (x <=? i64_max))%Z.

(** [static_cast<int>]: modulo [2^32], into the signed range. *)
Definition i32_wrap (x : Z) : Z := (x + 2147483648) mod 4294967296 - 2147483648.

Lemma i32_wrap_small x : (-2147483648 ≤ x < 2147483648)%Z → i32_wrap x = x.
Proof. intros Hx. unfold i32_wrap. rewrite Z.mod_small; lia. Qed.

Lemma in_i64_spec x : in_i64 x = true ↔ is_i64 x.
Proof. unfold in_i64, is_i64. rewrite andb_true_iff, !Z.leb_le. done. Qed.

Lemma u64_wrap_range x : is_u64 (u64_wrap x).
Proof. apply Z.mod_pos_bound. reflexivity. Qed.

Lemma u64_wrap_small x : is_u64 x → u64_wrap x = x.
Proof. apply Z.mod_small. Qed.

Lemma u64_add_small x y : is_u64 (x + y) → u64_add x y = (x + y)%Z.
Proof. apply u64_wrap_small. Qed.

Lemma u64_sub_small x y : is_u64 (x - y) → u64_sub x y = (x - y)%Z.
Proof. apply u64_wrap_small. Qed.

(** ** Tactics *)

(** Case on every [match]/[if] scrutinee of the goal, simplifying as it goes. *)
Ltac split_match := repeat (case_match; simplify_eq/=).

(** Take conjunctions and existentials of the context apart. *)
Ltac break_hyps :=
  repeat match goal with
  | H : _ ∧ _ |- _ => destruct H
  | H : ∃ _, _ |- _ => destruct H
  | p : _ * _ |- _ => destruct p
  end; simplify_eq/=.

(** ** Lists *)

(** The index of a suffix: [drop] at a valid index exposes the element there. *)
Lemma drop_lookup_cons {A} (l : list A) i x :
  l !! i = Some x → drop i l = x :: drop (S i) l.
Proof. intros Hi. by rewrite (drop_S l x i). Qed.

Lemma drop_past {A} (l : list A) i : length l ≤ i → drop i l = [].
Proof. apply drop_ge. Qed.

(** Remove the first element that satisfies [p]: the shape of the
    "find it, erase it, return" loops of the bus and the relay. *)
Section remove_first.
Context {A : Type} (p : A → bool).

Fixpoint remove_first (l : list A) : list A :=
  match l with
  | [] => []
  | x :: l' => if p x then l' else x :: remove_first l'
  end.

Lemma remove_first_sublist l : remove_first l `sublist_of` l.
Proof.
  induction l as [|x l IH]; simpl; [constructor|].
  destruct (p x); by constructor.
Qed.

Lemma remove_first_absent l :
  (∀ x, x ∈ l → p x = false) → remove_first l = l.
Proof.
  induction l as [|x l IH]; intros Hp; simpl; [done|].
  rewrite Hp by left. f_equal. apply IH. intros y Hy. apply Hp. by right.
Qed.

(** When at most one element satisfies [p], removing the first one is
    filtering it out. *)
Lemma remove_first_unique {K} (key : A → K) (k : K) l :
  (∀ x, p x = true ↔ key x = k) → NoDup (key <$> l) →
  remove_first l = List.filter (λ x, negb (p x)) l.
Proof.
  intros Hp. induction l as [|x l IH]; intros Hnd; simpl; [done|].
  apply NoDup_cons in Hnd as [Hx Hnd].
  destruct (p x) eqn:Hpx; simpl; [|by rewrite IH].
  symmetry. rewrite List.forallb_filter_id; [done|].
  apply forallb_forall. intros y Hy%list_elem_of_In.
  destruct (p y) eqn:Hpy; [|done].
  apply Hp in Hpx, Hpy. destruct Hx. apply list_elem_of_fmap. exists y.
  split; congruence.
Qed.
End remove_first.

(** ** Maps *)

(** The concatenation of [f] over the values of a map, for multiset accounting. *)
Section map_concat.
Context `{Countable K} {A B : Type} (f : A → list B).
Implicit Types m : gmap K A.

Definition map_concat m : list B := (map_to_list m).*2 ≫= f.

Lemma map_concat_empty : map_concat ∅ = [].
Proof. unfold map_concat. by rewrite map_to_list_empty. Qed.

Lemma map_concat_insert m k x : m !! k = None → map_concat (<[k:=x]> m) ≡ₚ f x ++ map_concat m.
Proof. intros Hk. unfold map_concat. by rewrite map_to_list_insert. Qed.

Lemma map_concat_delete m k x : m !! k = Some x → map_concat m ≡ₚ f x ++ map_concat (delete k m).
Proof.
  intros Hk. rewrite <- (insert_delete_id m k x) at 1 by done.
  apply map_concat_insert, lookup_delete_eq.
Qed.

Lemma map_concat_update m k x y :
  m !! k = Some x → f x ++ map_concat (<[k:=y]> m) ≡ₚ f y ++ map_concat m.
Proof.
  intros Hk. rewrite <- insert_delete_eq, map_concat_insert by apply lookup_delete_eq.
  rewrite (map_concat_delete m k x) by done. solve_Permutation.
Qed.
End map_concat.

(** ** Strings *)

(** [s.starts_with(p)] and, when it holds, [s.substr(p.size())]. *)
Fixpoint strip_prefix (p s : string) : option string :=
  match p, s with
  | EmptyString, _ => Some s
  | String a p, String b s => if Ascii.eqb a b then strip_prefix p s else None
  | String _ _, EmptyString => None
  end.

Definition starts_with (p s : string) : bool :=
  match strip_prefix p s with Some _ => true | None => false end.

Lemma strip_prefix_app p s : strip_prefix p (p +:+ s) = Some s.
Proof. induction p as [|a p IH]; simpl; [done|]. by rewrite Ascii.eqb_refl. Qed.

Lemma strip_prefix_Some p s r : strip_prefix p s = Some r ↔ s = p +:+ r.
Proof.
  split; [|intros ->; apply strip_prefix_app].
  revert s. induction p as [|a p IH]; intros s; simpl; [by intros [= ->]|].
  destruct s as [|b s]; [done|]. destruct (Ascii.eqb_spec a b) as [->|]; [|done].
  by intros ->%IH.
Qed.

Lemma starts_with_spec p s : starts_with p s = true ↔ ∃ r, s = p +:+ r.
Proof.
  unfold starts_with. setoid_rewrite <- strip_prefix_Some.
  destruct (strip_prefix p s) as [r|]; split; intros Hs; [by exists r|done|done|by destruct Hs as [? [=]]].
Qed.

(** ** Hint databases *)

Create HintDb conduit.
#[export] Hint Resolve u64_wrap_range : conduit.
#[export] Hint Resolve remove_first_sublist : conduit.
