(* ===== verification/Exceptions.v ===== *)
(** * Exceptions and outcomes

    The exception hierarchy of [include/conduit/exception.hpp] (with the error
    classes that the transport adapters add to it and the third-party classes
    that the code catches by name), and the result of running C++ code: a
    value, a thrown exception, or undefined behaviour. *)

From S2P Require Import Prelude.

(** ** The class hierarchy *)

Inductive exn_class :=
  | std_exception
  | std_runtime_error
  (* conduit/exception.hpp *)
  | Exception
  | ConfigError
  | TlsNotSupportedError
  | TransportError
  | SerializationError
  | UnknownEventTypeError
  (* transports/*/include/conduit/*/transport.hpp *)
  | AmqpError | MqttError | NatsError | RedisError | ZmqError
  (* classes of the libraries the code catches or lets through *)
  | ParcelException
  | InvalidJsonException
  | KindMismatchException
  | json_exception
  (* thrown by user callbacks: a subclass of std::exception, or any other value *)
  | user_exception
  | non_standard.

#[export] Instance exn_class_eq_dec : EqDecision exn_class.
Proof. solve_decision. Defined.

(** The direct base class. *)
Definition base_class (c : exn_class) : option exn_class :=
  match c with
  | std_exception | non_standard => None
  | std_runtime_error | ParcelException | json_exception | user_exception => Some std_exception
  | Exception => Some std_runtime_error
  | ConfigError | TransportError | SerializationError | UnknownEventTypeError => Some Exception
  | TlsNotSupportedError => Some ConfigError
  | AmqpError | MqttError | NatsError | RedisError | ZmqError => Some TransportError
  | InvalidJsonException | KindMismatchException => Some ParcelException
  end.

(** [catch (const h&)] catches a [c]: [h] is [c] or one of its bases.  The
    hierarchy is at most five deep. *)
Fixpoint derives_within (fuel : nat) (c h : exn_class) : bool :=
  if decide (c = h) then true
  else match fuel with
       | O => false
       | S fuel => match base_class c with
                   | Some b => derives_within fuel b h
                   | None => false
                   end
       end.

Definition catches (h c : exn_class) : bool := derives_within 5 c h.

(** The exceptions that conduit itself throws: everything under [conduit::Exception]. *)
Definition is_conduit_exception (c : exn_class) : bool := catches Exception c.

Record exn := Exn { exn_type : exn_class; what : string }.

#[export] Instance exn_eq_dec : EqDecision exn.
Proof. solve_decision. Defined.

(** ** Outcomes *)

(** The ways in which an execution has no outcome: the undefined behaviours that
    the code could run into, and the death of the process. *)
Inductive ub :=
  | NullDeref        (* dereference of an empty smart pointer *)
  | SelfDeadlock     (* locking a std::mutex that this thread already holds *)
  | UseAfterFree     (* access to an object whose lifetime has ended *)
  | SignedOverflow   (* arithmetic past the range of std::int64_t *)
  | Terminate.       (* std::terminate: an exception leaves a noexcept function *)

#[export] Instance ub_eq_dec : EqDecision ub.
Proof. solve_decision. Defined.

Inductive outcome (A : Type) :=
  | Ret (a : A)
  | Throw (e : exn)
  | Undef (u : ub).
Arguments Ret {_} _.
Arguments Throw {_} _.
Arguments Undef {_} _.

#[export] Instance outcome_ret : MRet outcome := λ A a, Ret a.
#[export] Instance outcome_bind : MBind outcome := λ A B f m,
  match m with
  | Ret a => f a
  | Throw e => Throw e
  | Undef u => Undef u
  end.
#[export] Instance outcome_fmap : FMap outcome := λ A B f m,
  match m with
  | Ret a => Ret (f a)
  | Throw e => Throw e
  | Undef u => Undef u
  end.

(** A [try] block with its catch clauses, tried in order; an exception that no
    clause catches propagates. *)
Definition handler_clause (A : Type) : Type := exn_class * (exn → outcome A).

Fixpoint run_clauses {A} (cs : list (handler_clause A)) (e : exn) : outcome A :=
  match cs with
  | [] => Throw e
  | (h, k) :: cs => if catches h (exn_type e) then k e else run_clauses cs e
  end.

Definition try_catch {A} (m : outcome A) (cs : list (handler_clause A)) : outcome A :=
  match m with
  | Throw e => run_clauses cs e
  | _ => m
  end.

(** A loop in the outcome monad. *)
Fixpoint fold_outcome {A B} (f : A → B → outcome A) (a : A) (l : list B) : outcome A :=
  match l with
  | [] => Ret a
  | b :: l => a' ← f a b; fold_outcome f a' l
  end.

(** ** Lemmas *)

Definition is_ret {A} (m : outcome A) : Prop := ∃ a, m = Ret a.
Definition is_undef {A} (m : outcome A) : Prop := ∃ u, m = Undef u.

(** [throws_only P m]: if [m] throws, the class satisfies [P]. *)
Definition throws_only {A} (P : exn_class → Prop) (m : outcome A) : Prop :=
  ∀ e, m = Throw e → P (exn_type e).

Lemma throws_only_ret {A} P (a : A) : throws_only P (Ret a).
Proof. by intros e. Qed.

Lemma throws_only_undef {A} P u : throws_only P (@Undef A u).
Proof. by intros e. Qed.

Lemma throws_only_throw {A} (P : exn_class → Prop) e : P (exn_type e) → throws_only P (@Throw A e).
Proof. by intros HP e' [= <-]. Qed.

Lemma throws_only_bind {A B} P (m : outcome A) (f : A → outcome B) :
  throws_only P m → (∀ a, m = Ret a → throws_only P (f a)) → throws_only P (m ≫= f).
Proof.
  intros Hm Hf e. destruct m as [a|e'|]; simpl; intros He; [by eapply (Hf a)| |done].
  simplify_eq. by apply Hm.
Qed.

Lemma throws_only_if {A} P (b : bool) (m1 m2 : outcome A) :
  throws_only P m1 → throws_only P m2 → throws_only P (if b then m1 else m2).
Proof. by destruct b. Qed.

Lemma throws_only_fold {A B} P (f : A → B → outcome A) l a :
  (∀ a b, throws_only P (f a b)) → throws_only P (fold_outcome f a l).
Proof.
  intros Hf. revert a. induction l as [|b l IH]; intros a; simpl; [apply throws_only_ret|].
  apply throws_only_bind; auto.
Qed.

Lemma fold_outcome_cons {A B} (f : A → B → outcome A) a a' b l :
  f a b = Ret a' → fold_outcome f a (b :: l) = fold_outcome f a' l.
Proof. intros Hf. simpl. by rewrite Hf. Qed.

Lemma throws_only_weaken {A} (P Q : exn_class → Prop) (m : outcome A) :
  (∀ c, P c → Q c) → throws_only P m → throws_only Q m.
Proof. intros HPQ Hm e He. by apply HPQ, Hm. Qed.

Lemma catches_refl h : catches h h = true.
Proof. by destruct h. Qed.

Lemma catches_trans h k c : catches h k = true → catches k c = true → catches h c = true.
Proof. by destruct h, k, c. Qed.

#[export] Hint Resolve throws_only_ret throws_only_undef throws_only_throw throws_only_if
  throws_only_fold catches_refl : conduit.
