(* ===== verification/External.v ===== *)
(** * Interfaces of the code that is not in the repository

    conduit is built on nlohmann::json, cpp-ulid, cpp-metadata, cpp-commons and
    cpp-parcel.  None of their sources is part of the repository, so each of them
    is a parameter of the model: a class of operations, and a class of laws that
    states the documented behaviour the code relies on.  [Instances.v] gives one
    concrete implementation of all of them, used by the witnesses. *)

From S2P Require Import Prelude Exceptions.

(** ** nlohmann::json *)

Class JsonLib := {
  json : Type;
  j_object : json;                        (* json_t::object() *)
  j_array : json;                         (* json_t::array() *)
  j_string : string → json;               (* conversion from std::string *)
  j_int64 : Z → json;                     (* conversion from std::int64_t *)
  j_set : json → string → json → json;    (* j[k] = v on an object *)
  j_push_back : json → json → json;       (* j.push_back(v) on an array *)
  j_is_object : json → bool;
  j_is_array : json → bool;
  j_is_string : json → bool;
  (* j.find(k), j.contains(k) and j.at(k) guarded by contains: [None] when [j]
     is not an object or has no such key *)
  j_find : json → string → option json;
  j_elements : json → list json;          (* range-for *)
  j_get_string : json → outcome string;   (* j.get<std::string>() *)
  j_get_int64 : json → outcome Z;         (* j.get<std::int64_t>() *)
  j_to_cbor : json → list Z;              (* json_t::to_cbor *)
  j_from_cbor : list Z → outcome json;    (* json_t::from_cbor *)
  j_dump : json → list Z;                 (* j.dump(), its bytes *)
  j_parse : list Z → outcome json;        (* json::parse *)
}.

Class JsonLaws `{JsonLib} := {
  j_is_object_object : j_is_object j_object = true;
  j_is_object_set j k v : j_is_object j = true → j_is_object (j_set j k v) = true;
  j_find_object k : j_find j_object k = None;
  j_find_set_eq j k v : j_is_object j = true → j_find (j_set j k v) k = Some v;
  j_find_set_ne j k k' v : j_is_object j = true → k ≠ k' →
    j_find (j_set j k v) k' = j_find j k';
  j_is_array_array : j_is_array j_array = true;
  j_is_array_push j v : j_is_array j = true → j_is_array (j_push_back j v) = true;
  j_elements_array : j_elements j_array = [];
  j_elements_push j v : j_is_array j = true →
    j_elements (j_push_back j v) = j_elements j ++ [v];
  j_is_string_string s : j_is_string (j_string s) = true;
  j_get_string_string s : j_get_string (j_string s) = Ret s;
  j_get_string_is_string j : j_is_string j = true → ∃ s, j_get_string j = Ret s;
  (* type_error *)
  j_get_string_not_string j : j_is_string j = false →
    ∃ w, j_get_string j = Throw (Exn json_exception w);
  j_get_int64_int64 z : is_i64 z → j_get_int64 (j_int64 z) = Ret z;
  j_get_int64_range j z : j_get_int64 j = Ret z → is_i64 z;
  j_get_int64_throws j : throws_only (λ c, c = json_exception) (j_get_int64 j);
  j_get_int64_defined j : ¬ is_undef (j_get_int64 j);
  j_from_to_cbor j : j_from_cbor (j_to_cbor j) = Ret j;
  j_from_cbor_throws bs : throws_only (λ c, c = json_exception) (j_from_cbor bs);
  j_from_cbor_defined bs : ¬ is_undef (j_from_cbor bs);
  j_parse_dump j : j_parse (j_dump j) = Ret j;
  j_parse_throws bs : throws_only (λ c, c = json_exception) (j_parse bs);
  j_parse_defined bs : ¬ is_undef (j_parse bs);
}.

(** ** cpp-ulid *)

Class UlidLib := {
  ulid : Type;
  ulid_zero : ulid;                          (* ulid::Ulid{} *)
  ulid_string : ulid → string;
  ulid_from_string : string → option ulid;
}.

Class UlidLaws `{UlidLib} := {
  ulid_from_to_string u : ulid_from_string (ulid_string u) = Some u;
}.

(** ** cpp-metadata *)

Class MetadataLib `{JsonLib} := {
  metadata : Type;
  md_value : Type;
  md_empty : metadata;
  md_insert_or_assign : string → md_value → metadata → metadata;
  md_find : string → metadata → option md_value;
  md_to_json : metadata → json;
  md_from_json : json → metadata → outcome metadata;   (* from_json(j, out) *)
}.

Class MetadataLaws `{MetadataLib} := {
  md_is_object m : j_is_object (md_to_json m) = true;
  md_from_to_json m : md_from_json (md_to_json m) md_empty = Ret m;
  md_from_json_throws j m : throws_only (λ c, catches std_exception c = true) (md_from_json j m);
  md_from_json_defined j m : ¬ is_undef (md_from_json j m);
  md_find_insert_eq k v m : md_find k (md_insert_or_assign k v m) = Some v;
  md_find_insert_ne k k' v m : k ≠ k' → md_find k' (md_insert_or_assign k v m) = md_find k' m;
}.

(** ** cpp-commons: flag sets

    A flag is identified by its name, "the flag's stable identity". *)

Class FlagLib := {
  flagset : Type;
  fs_empty : flagset;
  fs_insert : string → flagset → flagset;
  fs_contains : string → flagset → bool;
  fs_elements : flagset → list string;             (* iteration, as names *)
  (* GlobalFlagRegistry::instance().find(name) *)
  fs_registered : string → option string;
}.

Class FlagLaws `{FlagLib} := {
  fs_contains_empty f : fs_contains f fs_empty = false;
  fs_contains_insert f g s : fs_contains f (fs_insert g s) = bool_decide (f = g) || fs_contains f s;
  fs_elements_contains f s : f ∈ fs_elements s ↔ fs_contains f s = true;
  fs_registered_name f g : fs_registered f = Some g → g = f;
}.

(** ** cpp-commons: PrioritizedSet

    The set is seen as the sequence that [begin()]..[end()] iterates.  [insert]
    takes the priority of the element and its equality. *)

Class PrioritizedLib := {
  DEFAULT_PRIORITY : Z;
  ps_insert : ∀ {A : Type}, (A → Z) → (A → A → bool) → A → list A → list A;
}.

(** Stable insertion: after the elements of priority at most its own. *)
Fixpoint insert_by {A} (prio : A → Z) (x : A) (l : list A) : list A :=
  match l with
  | [] => [x]
  | y :: l => if (prio y <=? prio x)%Z then y :: insert_by prio x l else x :: y :: l
  end.

Fixpoint prio_sorted {A} (prio : A → Z) (l : list A) : Prop :=
  match l with
  | [] => True
  | x :: l => (∀ y, y ∈ l → (prio x ≤ prio y)%Z) ∧ prio_sorted prio l
  end.

Class PrioritizedLaws `{PrioritizedLib} := {
  (* ascending priority, insertion order among equal priorities, when no equal
     element is present *)
  ps_insert_fresh {A} (prio : A → Z) eqb x l :
    prio_sorted prio l → (∀ y, y ∈ l → eqb y x = false) →
    ps_insert prio eqb x l = insert_by prio x l;
  (* iteration is by ascending priority in any case, and no element appears from
     nowhere *)
  ps_insert_sorted {A} (prio : A → Z) eqb x l :
    prio_sorted prio l → prio_sorted prio (ps_insert prio eqb x l);
  ps_insert_elem {A} (prio : A → Z) eqb x l y :
    y ∈ ps_insert prio eqb x l → y = x ∨ y ∈ l;
}.

(** ** cpp-parcel *)

Class ParcelLib `{JsonLib} := {
  cell : Type;                                 (* parcel::ICell *)
  cell_kind : cell → string;
  cell_to_json : cell → outcome json;
  event_type : Type;                           (* the C++ types derived from Event *)
  et_name : event_type → string;               (* T::event_name_v *)
  cell_is : event_type → cell → bool;          (* dynamic_pointer_cast<const T> succeeds *)
  descriptor : Type;
  desc_kind : descriptor → string;
  desc_to_json : descriptor → json;
  et_descriptor : event_type → descriptor;     (* T::descriptor() *)
  envelope_descriptor : descriptor;            (* EventEnvelope::descriptor() *)
  registry : Type;                             (* parcel::ParcelRegistry *)
  reg_default : registry;                      (* default constructed: the builtins *)
  reg_register_kind : registry → descriptor → registry;
  reg_find : registry → string → option descriptor;
  reg_all : registry → list descriptor;
  reg_cell_from_json : registry → json → outcome cell;
  display_info : Type;
  no_display_info : display_info;
  inject_display_info : display_info → json → json;
  absorb_display_info : json → display_info;
  KEY_KIND : string;
  KEY_VALUE : string;
}.

Definition event_kind_prefix : string := "conduit:event:".

Class ParcelLaws `{ParcelLib} := {
  key_kind_value : KEY_KIND ≠ KEY_VALUE;
  et_desc_kind t : desc_kind (et_descriptor t) = event_kind_prefix +:+ et_name t;
  reg_find_register_eq r d : reg_find (reg_register_kind r d) (desc_kind d) = Some d;
  reg_find_register_ne r d k : k ≠ desc_kind d → reg_find (reg_register_kind r d) k = reg_find r k;
  reg_find_kind r k d : reg_find r k = Some d → desc_kind d = k;
  reg_all_find r d : d ∈ reg_all r ↔ reg_find r (desc_kind d) = Some d;
  reg_cell_throws r j : throws_only (λ c, catches std_exception c = true) (reg_cell_from_json r j);
  reg_cell_defined r j : ¬ is_undef (reg_cell_from_json r j);
  (* the display information is added next to the two keys of a cell *)
  absorb_inject d a b :
    absorb_display_info (inject_display_info d (j_set (j_set j_object KEY_KIND a) KEY_VALUE b)) = d;
  inject_is_object d j : j_is_object j = true → j_is_object (inject_display_info d j) = true;
  inject_find d j k : j_is_object j = true → k = KEY_KIND ∨ k = KEY_VALUE →
    j_find (inject_display_info d j) k = j_find j k;
}.

(** ** std::chrono::system_clock

    Its tick period is implementation-defined (nanoseconds in libstdc++,
    microseconds in libc++); the representation is [std::int64_t]. *)

Class ClockLib := {
  ticks_per_ms : Z;
}.

Class ClockLaws `{ClockLib} := {
  ticks_per_ms_pos : (0 < ticks_per_ms)%Z;
}.

(** ** All of them *)

Class Externals := {
  ext_json :: JsonLib;
  ext_ulid :: UlidLib;
  ext_metadata :: MetadataLib;
  ext_flags :: FlagLib;
  ext_prioritized :: PrioritizedLib;
  ext_parcel :: ParcelLib;
  ext_clock :: ClockLib;
}.

Class ExternalLaws `{Externals} := {
  ext_json_laws :: JsonLaws;
  ext_ulid_laws :: UlidLaws;
  ext_metadata_laws :: MetadataLaws;
  ext_flag_laws :: FlagLaws;
  ext_prioritized_laws :: PrioritizedLaws;
  ext_parcel_laws :: ParcelLaws;
  ext_clock_laws :: ClockLaws;
}.

(** ** Lemmas on the laws *)

Section laws.
Context `{FlagLaws}.

Lemma fs_contains_insert_eq f s : fs_contains f (fs_insert f s) = true.
Proof. rewrite fs_contains_insert, bool_decide_eq_true_2; done. Qed.

Lemma fs_contains_foldl f l s :
  fs_contains f (foldl (λ s g, fs_insert g s) s l) = bool_decide (f ∈ l) || fs_contains f s.
Proof.
  revert s. induction l as [|g l IH]; intros s; simpl.
  - done.
  - rewrite IH, fs_contains_insert.
    destruct (decide (f = g)) as [->|Hne].
    + rewrite (bool_decide_eq_true_2 (g = g)) by done.
      rewrite (bool_decide_eq_true_2 (g ∈ g :: l)) by (by left). by rewrite orb_true_r.
    + rewrite (bool_decide_eq_false_2 (f = g)) by done. simpl. f_equal.
      apply bool_decide_ext. rewrite elem_of_cons. naive_solver.
Qed.
End laws.

Section insert_by.
Context {A : Type} (prio : A → Z).

Lemma insert_by_elem x y l : y ∈ insert_by prio x l ↔ y = x ∨ y ∈ l.
Proof.
  induction l as [|z l IH]; simpl; [set_solver|]. case_match; set_solver.
Qed.

Lemma insert_by_perm x l : insert_by prio x l ≡ₚ x :: l.
Proof.
  induction l as [|z l IH]; simpl; [done|]. case_match; [|done].
  rewrite IH. apply Permutation_swap.
Qed.

Lemma insert_by_sorted x l : prio_sorted prio l → prio_sorted prio (insert_by prio x l).
Proof.
  induction l as [|z l IH]; simpl; [set_solver|]. intros [Hz Hl].
  destruct (Z.leb_spec (prio z) (prio x)); simpl.
  - split; [|auto]. intros y [->|Hy]%insert_by_elem; auto.
  - split_and!; [|done|done]. intros y [->|Hy]%elem_of_cons; [lia|].
    specialize (Hz y Hy). lia.
Qed.

(** Stability: the elements already there keep their order. *)
Lemma insert_by_sublist x l : l `sublist_of` insert_by prio x l.
Proof.
  induction l as [|z l IH]; simpl; [by apply sublist_cons|].
  destruct (prio z <=? prio x)%Z; [by apply sublist_skip|by apply sublist_cons].
Qed.

Lemma prio_sorted_sublist l k : l `sublist_of` k → prio_sorted prio k → prio_sorted prio l.
Proof.
  induction 1 as [|x l k Hsub IH|x l k Hsub IH]; simpl; [done| |by intros [_ ?]; auto].
  intros [Hx Hk]. split; [|auto]. intros y Hy. apply Hx.
  by eapply elem_of_sublist.
Qed.
End insert_by.

#[export] Hint Resolve insert_by_sorted insert_by_sublist prio_sorted_sublist : conduit.

(** The laws are class methods: their hints go through [apply], which resolves
    the instances. *)
#[export] Hint Extern 1 (j_is_object _ = true) => apply j_is_object_object : conduit.
#[export] Hint Extern 2 (j_is_object _ = true) => apply j_is_object_set : conduit.
#[export] Hint Extern 2 (j_is_object _ = true) => apply inject_is_object : conduit.
#[export] Hint Extern 1 (j_is_object _ = true) => apply md_is_object : conduit.
#[export] Hint Extern 1 (j_is_array _ = true) => apply j_is_array_array : conduit.
#[export] Hint Extern 2 (j_is_array _ = true) => apply j_is_array_push : conduit.
#[export] Hint Extern 1 (j_is_string _ = true) => apply j_is_string_string : conduit.
#[export] Hint Extern 1 (throws_only _ (md_from_json _ _)) => apply md_from_json_throws : conduit.
#[export] Hint Extern 1 (throws_only _ (reg_cell_from_json _ _)) => apply reg_cell_throws : conduit.
