(* ===== verification/Flags.v ===== *)
(** * Built-in flags and default flags of events
    ([include/conduit/flags.hpp], [include/conduit/event.hpp])

    A flag is identified by its name.  [builtin_flags] are the names of the flag
    types of [flags.hpp], in the order in which [COMMONS_REGISTER_FLAG] registers
    them. *)

From S2P Require Import Prelude Exceptions External.

Module flags.
Definition category : string := "conduit".

Definition Direct : string := "direct".
Definition Durable : string := "durable".
Definition Persistent : string := "persistent".
Definition NoMiddleware : string := "no_middleware".
Definition RequireAck : string := "require_ack".
Definition Broadcast : string := "broadcast".
Definition LocalOnly : string := "local_only".
Definition RemoteOnly : string := "remote_only".
End flags.

Definition builtin_flags : list string :=
  [flags.Direct; flags.Durable; flags.Persistent; flags.NoMiddleware;
   flags.RequireAck; flags.Broadcast; flags.LocalOnly; flags.RemoteOnly].

(** The static-initialisation registrations: every built-in flag is in the
    global registry. *)
Class BuiltinsRegistered `{FlagLib} : Prop :=
  builtins_registered : ∀ f, f ∈ builtin_flags → fs_registered f = Some f.

Section flagsets.
Context `{FlagLib}.

(** [FlagSet::of<Fs...>()] *)
Definition fs_of (fs : list string) : flagset := foldl (λ s f, fs_insert f s) fs_empty fs.

(** The flags that a C++ event type carries: the set of
    [event_traits<T>::default_flags()] and, when the type derives from
    [DefaultFlags<Fs...>], the pack [Fs...]. *)
Record default_flags := DefaultFlags {
  traits_flags : flagset;
  mixin_flags : option (list string);
}.

(** [default_flags_value()] of the mixin. *)
Definition default_flags_value (fs : list string) : flagset := fs_of fs.

(** [detail::collect_default_flags<T>()] *)
Definition collect_default_flags (d : default_flags) : flagset :=
  let s := traits_flags d in
  match mixin_flags d with
  | Some fs => foldl (λ s f, fs_insert f s) s (fs_elements (default_flags_value fs))
  | None => s
  end.
End flagsets.

Section lemmas.
Context `{FlagLaws}.

Lemma fs_contains_of f fs : fs_contains f (fs_of fs) = bool_decide (f ∈ fs).
Proof. unfold fs_of. by rewrite fs_contains_foldl, fs_contains_empty, orb_false_r. Qed.

(** The builder starts from the union of the trait's and the mixin's flags. *)
Lemma collect_default_flags_contains f d :
  fs_contains f (collect_default_flags d) =
  bool_decide (f ∈ default [] (mixin_flags d)) || fs_contains f (traits_flags d).
Proof.
  unfold collect_default_flags. destruct (mixin_flags d) as [fs|]; simpl; [|done].
  rewrite fs_contains_foldl. f_equal. apply bool_decide_ext.
  unfold default_flags_value.
  rewrite fs_elements_contains, fs_contains_of. apply bool_decide_eq_true.
Qed.
End lemmas.
