(* ===== verification/Instances.v ===== *)
(** * One implementation of the interfaces of [External.v]

    Every law of the third-party interfaces holds of the functions below, so the
    hypotheses under which the theorems are proved can be met; the witnesses of
    the theorems run on this instance. *)

From S2P Require Import Prelude Exceptions External Flags.

(** ** JSON *)

Inductive cjson :=
  | CNull
  | CInt (z : Z)
  | CStr (s : string)
  | CArr (l : list cjson)
  | CObj (m : list (string * cjson)).

Fixpoint assoc_find {V} (m : list (string * V)) (k : string) : option V :=
  match m with
  | [] => None
  | (k', v) :: m => if decide (k = k') then Some v else assoc_find m k
  end.

Fixpoint assoc_set {V} (m : list (string * V)) (k : string) (v : V) : list (string * V) :=
  match m with
  | [] => [(k, v)]
  | (k', v') :: m => if decide (k = k') then (k, v) :: m else (k', v') :: assoc_set m k v
  end.

Lemma assoc_find_set_eq {V} (m : list (string * V)) k v : assoc_find (assoc_set m k v) k = Some v.
Proof.
  induction m as [|[k' v'] m IH]; simpl; [by rewrite decide_True|].
  destruct (decide (k = k')); simpl; [by rewrite decide_True|by rewrite decide_False].
Qed.

Lemma assoc_find_set_ne {V} (m : list (string * V)) k k' v :
  k ≠ k' → assoc_find (assoc_set m k v) k' = assoc_find m k'.
Proof.
  intros Hne. induction m as [|[k2 v2] m IH]; simpl; [by rewrite decide_False|].
  destruct (decide (k = k2)) as [->|]; simpl; [by rewrite !decide_False by done|].
  by rewrite IH.
Qed.

(** A textual form from which the value can be read back: through the generic
    trees of stdpp. *)
Fixpoint cjson_to_tree (j : cjson) : gen_tree (Z + string) :=
  match j with
  | CNull => GenNode 0 []
  | CInt z => GenLeaf (inl z)
  | CStr s => GenLeaf (inr s)
  | CArr l => GenNode 1 (cjson_to_tree <$> l)
  | CObj m => GenNode 2 ((λ kv, GenNode 3 [GenLeaf (inr kv.1); cjson_to_tree kv.2]) <$> m)
  end.

Fixpoint tree_to_cjson (t : gen_tree (Z + string)) : cjson :=
  match t with
  | GenLeaf (inl z) => CInt z
  | GenLeaf (inr s) => CStr s
  | GenNode 1 l => CArr (tree_to_cjson <$> l)
  | GenNode 2 l => CObj ((λ t, match t with
                               | GenNode _ [GenLeaf (inr k); v] => (k, tree_to_cjson v)
                               | _ => (EmptyString, CNull)
                               end) <$> l)
  | _ => CNull
  end.

Lemma tree_cjson_roundtrip : ∀ j, tree_to_cjson (cjson_to_tree j) = j.
Proof.
  fix IH 1. intros [|z|s|l|m]; simpl; [done|done|done| |]; f_equal.
  - induction l as [|j l IHl]; simpl; f_equal; [apply IH|exact IHl].
  - induction m as [|[k j] m IHm]; simpl; f_equal; [f_equal; apply IH|exact IHm].
Qed.

Definition json_bytes (j : cjson) : list Z := [Z.pos (encode (cjson_to_tree j))].

Definition json_of_bytes (bs : list Z) : outcome cjson :=
  match bs with
  | [Z.pos p] => match decode p with
                 | Some t => Ret (tree_to_cjson t)
                 | None => Throw (Exn json_exception "parse error")
                 end
  | _ => Throw (Exn json_exception "parse error")
  end.

Lemma json_of_json_bytes j : json_of_bytes (json_bytes j) = Ret j.
Proof. unfold json_of_bytes, json_bytes. by rewrite decode_encode, tree_cjson_roundtrip. Qed.

Lemma json_of_bytes_throws bs : throws_only (λ c, c = json_exception) (json_of_bytes bs).
Proof. intros e. unfold json_of_bytes. repeat case_match; intros ?; by simplify_eq. Qed.

Lemma json_of_bytes_defined bs : ¬ is_undef (json_of_bytes bs).
Proof. intros [u Hu]. unfold json_of_bytes in Hu. repeat case_match; done. Qed.

#[local] Instance json_lib : JsonLib := {|
  json := cjson;
  j_object := CObj [];
  j_array := CArr [];
  j_string := CStr;
  j_int64 := CInt;
  j_set j k v := match j with CObj m => CObj (assoc_set m k v) | _ => j end;
  j_push_back j v := match j with CArr l => CArr (l ++ [v]) | _ => j end;
  j_is_object j := match j with CObj _ => true | _ => false end;
  j_is_array j := match j with CArr _ => true | _ => false end;
  j_is_string j := match j with CStr _ => true | _ => false end;
  j_find j k := match j with CObj m => assoc_find m k | _ => None end;
  j_elements j := match j with CArr l => l | CObj m => m.*2 | CNull => [] | _ => [j] end;
  j_get_string j := match j with
                    | CStr s => Ret s
                    | _ => Throw (Exn json_exception "type must be string")
                    end;
  j_get_int64 j := match j with
                   | CInt z => if in_i64 z then Ret z
                               else Throw (Exn json_exception "out of range")
                   | _ => Throw (Exn json_exception "type must be number")
                   end;
  j_to_cbor := json_bytes;
  j_from_cbor := json_of_bytes;
  j_dump := json_bytes;
  j_parse := json_of_bytes;
|}.

#[local] Instance json_laws : JsonLaws.
Proof.
  split; simpl; try done.
  - by intros [].
  - intros [] k v; try done. intros _. apply assoc_find_set_eq.
  - intros [] k k' v; try done. intros _. apply assoc_find_set_ne.
  - by intros [].
  - by intros [].
  - intros [|?|s|?|?]; try done. by exists s.
  - intros []; try done; intros _; by eexists.
  - intros z Hz. by apply in_i64_spec in Hz as ->.
  - intros [|z0|?|?|?] z; try done. case_match; [|done]. intros [= <-]. by apply in_i64_spec.
  - intros j e. repeat case_match; intros ?; by simplify_eq.
  - intros j [u Hu]. repeat case_match; done.
  - apply json_of_json_bytes.
  - apply json_of_bytes_throws.
  - apply json_of_bytes_defined.
  - apply json_of_json_bytes.
  - apply json_of_bytes_throws.
  - apply json_of_bytes_defined.
Qed.

(** ** The other libraries *)

#[local] Instance ulid_lib : UlidLib := {|
  ulid := string;
  ulid_zero := EmptyString;
  ulid_string u := "01H" +:+ u;
  ulid_from_string s := strip_prefix "01H" s;
|}.

#[local] Instance ulid_laws : UlidLaws.
Proof. split. intros u. apply strip_prefix_app. Qed.

Fixpoint strings_of_json (m : list (string * cjson)) : outcome (list (string * string)) :=
  match m with
  | [] => Ret []
  | (k, CStr s) :: m => r ← strings_of_json m; Ret ((k, s) :: r)
  | _ :: _ => Throw (Exn std_runtime_error "unsupported metadata value")
  end.

#[local] Instance metadata_lib : MetadataLib := {|
  metadata := list (string * string);
  md_value := string;
  md_empty := [];
  md_insert_or_assign k v m := assoc_set m k v;
  md_find k m := assoc_find m k;
  md_to_json m := CObj ((λ kv, (kv.1, CStr kv.2)) <$> m);
  md_from_json j _ := match j with
                      | CObj m => strings_of_json m
                      | _ => Throw (Exn std_runtime_error "not an object")
                      end;
|}.

Lemma strings_of_json_throws m :
  throws_only (λ c, catches std_exception c = true) (strings_of_json m).
Proof.
  induction m as [|[k j] m IH]; simpl; [apply throws_only_ret|].
  destruct j; try by apply throws_only_throw.
  apply throws_only_bind; [done|]. intros. apply throws_only_ret.
Qed.

Lemma strings_of_json_map m :
  strings_of_json ((λ kv, (kv.1, CStr kv.2)) <$> m) = Ret m.
Proof. induction m as [|[k v] m IH]; [done|]. rewrite fmap_cons. simpl. by rewrite IH. Qed.

Lemma strings_of_json_defined m : ¬ is_undef (strings_of_json m).
Proof.
  induction m as [|[k j] m IH]; simpl; [by intros [? ?]|].
  intros [u Hu]. destruct j; try done. apply IH. exists u.
  destruct (strings_of_json m); simpl in *; congruence.
Qed.

#[local] Instance metadata_laws : MetadataLaws.
Proof.
  split; simpl; try done.
  - apply strings_of_json_map.
  - intros [] _; try by apply throws_only_throw. apply strings_of_json_throws.
  - intros [] _; try by intros [? ?]. apply strings_of_json_defined.
  - intros k v m. apply assoc_find_set_eq.
  - intros k k' v m ?. by apply assoc_find_set_ne.
Qed.

#[local] Instance flag_lib : FlagLib := {|
  flagset := list string;
  fs_empty := [];
  fs_insert f s := if decide (f ∈ s) then s else s ++ [f];
  fs_contains f s := bool_decide (f ∈ s);
  fs_elements s := s;
  fs_registered f := if decide (f ∈ builtin_flags) then Some f else None;
|}.

#[local] Instance flag_laws : FlagLaws.
Proof.
  split; simpl.
  - done.
  - intros f g s. case_decide as Hg.
    + destruct (decide (f = g)) as [->|Hne]; [|by rewrite (bool_decide_eq_false_2 (f = g))].
      rewrite (bool_decide_eq_true_2 (g = g)), (bool_decide_eq_true_2 (g ∈ s)); done.
    + rewrite <- bool_decide_or. apply bool_decide_ext. set_solver.
  - intros f s. by rewrite bool_decide_eq_true.
  - intros f g. case_decide; congruence.
Qed.

#[local] Instance prioritized_lib : PrioritizedLib := {|
  DEFAULT_PRIORITY := 0;
  ps_insert A prio eqb x l := if existsb (λ y, eqb y x) l then l else insert_by prio x l;
|}.

#[local] Instance prioritized_laws : PrioritizedLaws.
Proof.
  split; simpl.
  - intros A prio eqb x l _ Hfresh.
    assert (existsb (λ y, eqb y x) l = false) as ->; [|done].
    apply not_true_iff_false. rewrite existsb_exists. intros (y & Hy & Heq).
    apply list_elem_of_In in Hy. by rewrite Hfresh in Heq.
  - intros A prio eqb x l Hl. case_match; [done|]. by apply insert_by_sorted.
  - intros A prio eqb x l y. case_match; [by right|]. apply insert_by_elem.
Qed.

(** Cells carry their kind and one integer. *)
Record ccell := CCell { cc_kind : string; cc_value : Z }.

Definition ccell_to_json (c : ccell) : cjson :=
  CObj [("k", CStr (cc_kind c)); ("v", CInt (cc_value c))].

Definition ccell_from_json (r : gset string) (j : cjson) : outcome ccell :=
  match j with
  | CObj m =>
      match assoc_find m "k", assoc_find m "v" with
      | Some (CStr k), Some (CInt z) =>
          if decide (k ∈ r) then Ret (CCell k z)
          else Throw (Exn ParcelException "unknown kind")
      | _, _ => Throw (Exn InvalidJsonException "malformed cell")
      end
  | _ => Throw (Exn InvalidJsonException "malformed cell")
  end.

#[local] Instance parcel_lib : ParcelLib := {|
  cell := ccell;
  cell_kind := cc_kind;
  cell_to_json c := Ret (ccell_to_json c);
  event_type := string;
  et_name n := n;
  cell_is n c := bool_decide (cc_kind c = event_kind_prefix +:+ n);
  descriptor := string;
  desc_kind d := d;
  desc_to_json d := CObj [("kind", CStr d)];
  et_descriptor n := event_kind_prefix +:+ n;
  envelope_descriptor := "conduit:envelope";
  registry := gset string;
  reg_default := {["i64"; "string"]};
  reg_register_kind r d := {[d]} ∪ r;
  reg_find r k := if decide (k ∈ r) then Some k else None;
  reg_all r := elements r;
  reg_cell_from_json := ccell_from_json;
  display_info := option string;
  no_display_info := None;
  inject_display_info d j :=
    match d, j with Some s, CObj m => CObj (assoc_set m "d" (CStr s)) | _, _ => j end;
  absorb_display_info j :=
    match j with
    | CObj m => match assoc_find m "d" with Some (CStr s) => Some s | _ => None end
    | _ => None
    end;
  KEY_KIND := "k";
  KEY_VALUE := "v";
|}.

#[local] Instance parcel_laws : ParcelLaws.
Proof.
  split; simpl.
  - done.
  - done.
  - intros r d. rewrite decide_True; [done|set_solver].
  - intros r d k Hne. destruct (decide (k ∈ r)).
    + rewrite decide_True; [done|set_solver].
    + rewrite decide_False; [done|set_solver].
  - intros r k d. case_decide; congruence.
  - intros r d. rewrite elem_of_elements. case_decide; naive_solver.
  - intros r j. unfold ccell_from_json.
    repeat case_match; (by apply throws_only_throw) || apply throws_only_ret.
  - intros r j [u Hu]. unfold ccell_from_json in Hu. repeat case_match; done.
  - by intros [s|] a b.
  - by intros [s|] [].
  - intros [s|] [] k Hj Hk; try done. apply assoc_find_set_ne. by destruct Hk as [-> | ->].
Qed.

#[local] Instance clock_lib : ClockLib := {| ticks_per_ms := 1000000 |}.

#[local] Instance clock_laws : ClockLaws.
Proof. by split. Qed.

#[export] Instance concrete_externals : Externals := {|
  ext_json := json_lib; ext_ulid := ulid_lib; ext_metadata := metadata_lib;
  ext_flags := flag_lib; ext_prioritized := prioritized_lib;
  ext_parcel := parcel_lib; ext_clock := clock_lib;
|}.

#[export] Instance concrete_laws : ExternalLaws.
Proof. split; apply _. Qed.

#[export] Instance builtins_registered_concrete : BuiltinsRegistered.
Proof. intros f Hf. simpl. by rewrite decide_True. Qed.

(** Typed samples for the witnesses. *)
Definition sample_desc (k : string) : @descriptor ext_json ext_parcel := k.
Definition sample_reg (ks : list string) : @registry ext_json ext_parcel :=
  list_to_set (C := gset string) ks.
Definition sample_type (n : string) : @event_type ext_json ext_parcel := n.
Definition sample_cell (k : string) (z : Z) : @cell ext_json ext_parcel := CCell k z.
