(* ===== verification/Envelope.v ===== *)
(** * Event envelopes ([include/conduit/envelope.hpp], [include/conduit/metadata.hpp])

    [EnvelopeCore] is the shared mutable core; [EventEnvelope] is a pointer to a
    core in the heap of cores (plus the display information of its parcel base
    class), so that copies of an envelope alias the same core.  [to_json] and
    [from_json] are the hand-written wire layout. *)

From S2P Require Import Prelude Exceptions External Flags.

(** A [system_clock::time_point]: ticks since the epoch. *)
Abbreviation time_point := Z.

Section data.
Context `{Externals}.

Record Timestamps := MkTimestamps {
  created_at : time_point;
  published_at : option time_point;
  received_at : option time_point;
  delivered_at : option time_point;
  failed_at : option time_point;
}.

(** [Timestamps timestamps{}] *)
Definition no_timestamps : Timestamps := MkTimestamps 0 None None None None.

Record EnvelopeCore := MkCore {
  id : ulid;
  flags : flagset;
  metadata_of : metadata;
  timestamps : Timestamps;
  correlation_id : option ulid;
  causation_id : option ulid;
  payload_cell : option cell;
}.

(** A default-constructed [detail::EnvelopeCore]. *)
Definition empty_core : EnvelopeCore :=
  MkCore ulid_zero fs_empty md_empty no_timestamps None None None.

(** ** Timestamps on the wire: milliseconds *)

(** [duration_cast<milliseconds>] truncates toward zero. *)
Definition to_ms_since_epoch (tp : time_point) : Z := Z.quot tp ticks_per_ms.

(** The implicit conversion from milliseconds to the clock's ticks multiplies in
    [std::int64_t]: a product out of range is undefined behaviour. *)
Definition from_ms_since_epoch (ms : Z) : outcome time_point :=
  let t := (ms * ticks_per_ms)%Z in
  if in_i64 t then Ret t else Undef SignedOverflow.

(** ** Accessors *)

Definition kind_id : string := "conduit:envelope".

(** [name()]: the payload's kind without the event prefix, and empty without a
    payload. *)
Definition core_name (c : EnvelopeCore) : string :=
  match payload_cell c with
  | None => ""
  | Some p =>
      let k := cell_kind p in
      match strip_prefix event_kind_prefix k with
      | Some n => n
      | None => k
      end
  end.

(** [payload_as<T>()] *)
Definition core_payload_as (T : event_type) (c : EnvelopeCore) : option cell :=
  match payload_cell c with
  | None => None
  | Some p => if cell_is T p then Some p else None
  end.

Definition contains (f : string) (c : EnvelopeCore) : bool := fs_contains f (flags c).

(** Field updates of a core and of its timestamps. *)
Definition set_timestamps (ts : Timestamps) (c : EnvelopeCore) : EnvelopeCore :=
  MkCore (id c) (flags c) (metadata_of c) ts (correlation_id c) (causation_id c) (payload_cell c).
Definition set_flags (fs : flagset) (c : EnvelopeCore) : EnvelopeCore :=
  MkCore (id c) fs (metadata_of c) (timestamps c) (correlation_id c) (causation_id c) (payload_cell c).
Definition set_metadata (m : metadata) (c : EnvelopeCore) : EnvelopeCore :=
  MkCore (id c) (flags c) m (timestamps c) (correlation_id c) (causation_id c) (payload_cell c).
Definition set_id (u : ulid) (c : EnvelopeCore) : EnvelopeCore :=
  MkCore u (flags c) (metadata_of c) (timestamps c) (correlation_id c) (causation_id c) (payload_cell c).
Definition set_correlation_id (o : option ulid) (c : EnvelopeCore) : EnvelopeCore :=
  MkCore (id c) (flags c) (metadata_of c) (timestamps c) o (causation_id c) (payload_cell c).
Definition set_causation_id (o : option ulid) (c : EnvelopeCore) : EnvelopeCore :=
  MkCore (id c) (flags c) (metadata_of c) (timestamps c) (correlation_id c) o (payload_cell c).
Definition set_payload_cell (o : option cell) (c : EnvelopeCore) : EnvelopeCore :=
  MkCore (id c) (flags c) (metadata_of c) (timestamps c) (correlation_id c) (causation_id c) o.
Definition set_published_at (t : time_point) (ts : Timestamps) : Timestamps :=
  MkTimestamps (created_at ts) (Some t) (received_at ts) (delivered_at ts) (failed_at ts).
Definition set_received_at (t : time_point) (ts : Timestamps) : Timestamps :=
  MkTimestamps (created_at ts) (published_at ts) (Some t) (delivered_at ts) (failed_at ts).
Definition set_created_at (t : time_point) (ts : Timestamps) : Timestamps :=
  MkTimestamps t (published_at ts) (received_at ts) (delivered_at ts) (failed_at ts).

(** ** The heap of cores *)

Definition loc : Type := positive.

Record EventEnvelope := MkEnvelope {
  value : option loc;       (* std::shared_ptr<detail::EnvelopeCore> *)
  display : display_info;   (* state of the parcel base class *)
}.

Definition core_of (heap : gmap loc EnvelopeCore) (v : EventEnvelope) : outcome EnvelopeCore :=
  match value v ≫= (λ l, heap !! l) with
  | Some c => Ret c
  | None => Undef NullDeref
  end.

(** [name()], [payload_as<T>()] and [valid()] test the pointer themselves. *)
Definition env_name (heap : gmap loc EnvelopeCore) (v : EventEnvelope) : outcome string :=
  match value v with
  | None => Ret ""
  | Some _ => c ← core_of heap v; Ret (core_name c)
  end.

Definition env_payload_as (T : event_type) (heap : gmap loc EnvelopeCore) (v : EventEnvelope)
    : outcome (option cell) :=
  match value v with
  | None => Ret None
  | Some _ => c ← core_of heap v; Ret (core_payload_as T c)
  end.

Definition env_valid (heap : gmap loc EnvelopeCore) (v : EventEnvelope) : outcome bool :=
  match value v with
  | None => Ret false
  | Some _ => c ← core_of heap v; Ret (bool_decide (is_Some (payload_cell c)))
  end.

(** [compare]: the order of the kinds, and unordered between envelopes. *)
Inductive partial_ordering := less | equivalent | greater | unordered.

Definition env_compare (other_kind : string) : partial_ordering :=
  match String.compare kind_id other_kind with
  | Lt => less
  | Gt => greater
  | Eq => unordered
  end.
End data.
