(* ===== verification/EnvelopeWire.v ===== *)
(** * The JSON layout of envelopes ([EventEnvelope::to_json], [from_json])

    Both directions of the wire layout, field by field in the order of the code,
    and the round trip between them. *)

From S2P Require Import Prelude Exceptions External Flags Envelope.

Section wire.
Context `{Externals}.

(** ** Encoding *)

Definition set_ms (key : string) (o : option time_point) (ts : json) : json :=
  match o with
  | Some t => j_set ts key (j_int64 (to_ms_since_epoch t))
  | None => ts
  end.

Definition timestamps_to_json (t : Timestamps) : json :=
  let ts := j_object in
  let ts := j_set ts "created_at" (j_int64 (to_ms_since_epoch (created_at t))) in
  let ts := set_ms "published_at" (published_at t) ts in
  let ts := set_ms "received_at" (received_at t) ts in
  let ts := set_ms "delivered_at" (delivered_at t) ts in
  set_ms "failed_at" (failed_at t) ts.

Definition flags_to_json (s : flagset) : json :=
  foldl (λ arr f, j_push_back arr (j_string f)) j_array (fs_elements s).

Definition set_ulid (key : string) (o : option ulid) (v : json) : json :=
  match o with
  | Some u => j_set v key (j_string (ulid_string u))
  | None => v
  end.

Definition to_json (d : display_info) (c : EnvelopeCore) : outcome json :=
  match payload_cell c with
  | None => Throw (Exn SerializationError "EventEnvelope::to_json: envelope has no payload")
  | Some p =>
      let v := j_object in
      let v := j_set v "id" (j_string (ulid_string (id c))) in
      let v := j_set v "name" (j_string (core_name c)) in
      let v := j_set v "flags" (flags_to_json (flags c)) in
      let v := set_ulid "correlation_id" (correlation_id c) v in
      let v := set_ulid "causation_id" (causation_id c) v in
      let v := j_set v "metadata" (md_to_json (metadata_of c)) in
      let v := j_set v "timestamps" (timestamps_to_json (timestamps c)) in
      pj ← cell_to_json p;
      let v := j_set v "payload" pj in
      let out := j_set (j_set j_object KEY_KIND (j_string kind_id)) KEY_VALUE v in
      Ret (inject_display_info d out)
  end.

(** The method on an envelope object: an empty pointer is an envelope without
    payload. *)
Definition env_to_json (heap : gmap loc EnvelopeCore) (e : EventEnvelope) : outcome json :=
  match value e with
  | None => Throw (Exn SerializationError "EventEnvelope::to_json: envelope has no payload")
  | Some _ => c ← core_of heap e; to_json (display e) c
  end.

(** ** Decoding *)

Definition invalid_json {A} (w : string) : outcome A := Throw (Exn InvalidJsonException w).

(** [v.contains(key)]: parse [v.at(key)], a string, as a ULID. *)
Definition read_ulid (v : json) (key : string) : outcome (option ulid) :=
  match j_find v key with
  | None => Ret None
  | Some j =>
      s ← j_get_string j;
      match ulid_from_string s with
      | Some u => Ret (Some u)
      | None => invalid_json ("EventEnvelope: invalid ULID for '" +:+ key +:+ "'")
      end
  end.

Definition read_id (v : json) : outcome ulid :=
  match j_find v "id" with
  | None => invalid_json "EventEnvelope: missing/invalid 'id'"
  | Some j =>
      if j_is_string j then
        s ← j_get_string j;
        match ulid_from_string s with
        | Some u => Ret u
        | None => invalid_json "EventEnvelope: invalid ULID for 'id'"
        end
      else invalid_json "EventEnvelope: missing/invalid 'id'"
  end.

(** A flag whose name the global registry does not know is skipped. *)
Definition read_flag (s : flagset) (fn : json) : outcome flagset :=
  name ← j_get_string fn;
  match fs_registered name with
  | Some f => Ret (fs_insert f s)
  | None => Ret s
  end.

Definition read_flags (v : json) : outcome flagset :=
  match j_find v "flags" with
  | None => Ret fs_empty
  | Some arr => fold_outcome read_flag fs_empty (j_elements arr)
  end.

Definition read_metadata (v : json) : outcome metadata :=
  match j_find v "metadata" with
  | None => Ret md_empty
  | Some j => if j_is_object j then md_from_json j md_empty else Ret md_empty
  end.

Definition read_ms (ts : json) (key : string) : outcome (option time_point) :=
  match j_find ts key with
  | None => Ret None
  | Some j => ms ← j_get_int64 j; t ← from_ms_since_epoch ms; Ret (Some t)
  end.

Definition read_timestamps (v : json) : outcome Timestamps :=
  match j_find v "timestamps" with
  | None => Ret no_timestamps
  | Some ts =>
      created ← read_ms ts "created_at";
      published ← read_ms ts "published_at";
      received ← read_ms ts "received_at";
      delivered ← read_ms ts "delivered_at";
      failed ← read_ms ts "failed_at";
      Ret (MkTimestamps (default 0%Z created) published received delivered failed)
  end.

(** The tests of [from_json] before the fields: they give the value object. *)
Definition read_header (j : json) : outcome json :=
  if negb (j_is_object j) then invalid_json "Expected JSON object for EventEnvelope"
  else
    match j_find j KEY_KIND with
    | None => invalid_json "EventEnvelope: missing/invalid 'k'"
    | Some k =>
        if negb (j_is_string k) then invalid_json "EventEnvelope: missing/invalid 'k'"
        else
          ks ← j_get_string k;
          if negb (String.eqb ks kind_id) then
            Throw (Exn KindMismatchException "EventEnvelope: kind mismatch")
          else
            match j_find j KEY_VALUE with
            | None => invalid_json "EventEnvelope: missing/invalid 'v' (expected object)"
            | Some v =>
                if negb (j_is_object v) then
                  invalid_json "EventEnvelope: missing/invalid 'v' (expected object)"
                else Ret v
            end
    end.

Definition from_json (j : json) (reg : registry) : outcome (display_info * EnvelopeCore) :=
  v ← read_header j;
  i ← read_id v;
  correlation ← read_ulid v "correlation_id";
  causation ← read_ulid v "causation_id";
  fs ← read_flags v;
  md ← read_metadata v;
  ts ← read_timestamps v;
  match j_find v "payload" with
  | None => invalid_json "EventEnvelope: missing 'payload'"
  | Some pj =>
      p ← reg_cell_from_json reg pj;
      Ret (absorb_display_info j, MkCore i fs md ts correlation causation (Some p))
  end.

(** ** What survives the wire *)

Definition truncate_ms (t : time_point) : time_point :=
  (Z.quot t ticks_per_ms * ticks_per_ms)%Z.

Definition truncate_timestamps (t : Timestamps) : Timestamps :=
  MkTimestamps (truncate_ms (created_at t)) (truncate_ms <$> published_at t)
    (truncate_ms <$> received_at t) (truncate_ms <$> delivered_at t) (truncate_ms <$> failed_at t).

Definition timestamps_in_range (t : Timestamps) : Prop :=
  is_i64 (created_at t) ∧
  (∀ u, published_at t = Some u → is_i64 u) ∧ (∀ u, received_at t = Some u → is_i64 u) ∧
  (∀ u, delivered_at t = Some u → is_i64 u) ∧ (∀ u, failed_at t = Some u → is_i64 u).

(** [c'] is what decoding makes of an encoded [c]: everything but the flags the
    registry does not know and the sub-millisecond part of the timestamps. *)
Record wire_image (c c' : EnvelopeCore) : Prop := {
  wi_id : id c' = id c;
  wi_correlation : correlation_id c' = correlation_id c;
  wi_causation : causation_id c' = causation_id c;
  wi_metadata : metadata_of c' = metadata_of c;
  wi_timestamps : timestamps c' = truncate_timestamps (timestamps c);
  wi_payload : payload_cell c' = payload_cell c;
  wi_flags f : contains f c' = contains f c && bool_decide (is_Some (fs_registered f));
}.
End wire.

(** ** Lemmas *)

Section lemmas.
Context `{ExternalLaws}.

Lemma quot_bounds t k : (0 < k)%Z →
  ((0 ≤ t → 0 ≤ Z.quot t k ≤ Z.quot t k * k ∧ Z.quot t k * k ≤ t) ∧
   (t ≤ 0 → t ≤ Z.quot t k * k ≤ Z.quot t k ∧ Z.quot t k ≤ 0))%Z.
Proof.
  intros Hk. assert (∀ u, (0 ≤ u → 0 ≤ Z.quot u k ≤ Z.quot u k * k ∧ Z.quot u k * k ≤ u)%Z) as Hpos.
  { intros u Hu. rewrite Z.quot_div_nonneg by lia.
    pose proof (Z.mul_div_le u k Hk). pose proof (Z.div_pos u k Hu Hk). nia. }
  split; [apply Hpos|]. intros Ht. destruct (Hpos (- t)%Z) as [? ?]; [lia|].
  rewrite Z.quot_opp_l in * by lia. lia.
Qed.

Lemma truncate_in_range t : is_i64 t → is_i64 (to_ms_since_epoch t) ∧ is_i64 (truncate_ms t).
Proof.
  unfold is_i64, to_ms_since_epoch, truncate_ms.
  destruct (quot_bounds t ticks_per_ms ticks_per_ms_pos) as [Hpos Hneg].
  pose proof (eq_refl : i64_min = -9223372036854775808)%Z.
  pose proof (eq_refl : i64_max = 9223372036854775807)%Z. intros Ht.
  destruct (Z.le_ge_cases 0 t) as [Hs|Hs]; [destruct (Hpos Hs)|destruct (Hneg Hs)]; lia.
Qed.

Lemma from_to_ms t : is_i64 t → from_ms_since_epoch (to_ms_since_epoch t) = Ret (truncate_ms t).
Proof.
  intros [_ Ht]%truncate_in_range. unfold from_ms_since_epoch.
  change (to_ms_since_epoch t * ticks_per_ms)%Z with (truncate_ms t).
  by apply in_i64_spec in Ht as ->.
Qed.

(** Milliseconds survive the conversion to ticks and back. *)
Lemma to_from_ms ms t : from_ms_since_epoch ms = Ret t → to_ms_since_epoch t = ms.
Proof.
  unfold from_ms_since_epoch, to_ms_since_epoch. case_match; [|done]. intros [= <-].
  apply Z.quot_mul. pose proof ticks_per_ms_pos. lia.
Qed.

(** *** Objects built field by field *)

Lemma set_ms_is_object k o j : j_is_object j = true → j_is_object (set_ms k o j) = true.
Proof. destruct o; simpl; auto with conduit. Qed.

Lemma set_ulid_is_object k o j : j_is_object j = true → j_is_object (set_ulid k o j) = true.
Proof. destruct o; simpl; auto with conduit. Qed.
#[local] Hint Extern 2 (j_is_object _ = true) => apply set_ms_is_object : conduit.
#[local] Hint Extern 2 (j_is_object _ = true) => apply set_ulid_is_object : conduit.

Lemma set_ms_find_ne k k' o j : j_is_object j = true → k ≠ k' →
  j_find (set_ms k o j) k' = j_find j k'.
Proof. destruct o; simpl; [|done]. apply j_find_set_ne. Qed.

Lemma set_ulid_find_ne k k' o j : j_is_object j = true → k ≠ k' →
  j_find (set_ulid k o j) k' = j_find j k'.
Proof. destruct o; simpl; [|done]. apply j_find_set_ne. Qed.

Lemma set_ms_find_eq k o j : j_is_object j = true → j_find j k = None →
  j_find (set_ms k o j) k = (j_int64 ∘ to_ms_since_epoch) <$> o.
Proof. destruct o; simpl; [|done]. intros. by apply j_find_set_eq. Qed.

Lemma set_ulid_find_eq k o j : j_is_object j = true → j_find j k = None →
  j_find (set_ulid k o j) k = (j_string ∘ ulid_string) <$> o.
Proof. destruct o; simpl; [|done]. intros. by apply j_find_set_eq. Qed.

(** Look a key up in a chain of [j_set], [set_ms] and [set_ulid]. *)
Ltac find_key :=
  repeat first
    [ rewrite j_find_set_eq by auto 20 with conduit
    | rewrite j_find_set_ne by (solve [auto 20 with conduit] || discriminate)
    | rewrite set_ms_find_ne by (solve [auto 20 with conduit] || discriminate)
    | rewrite set_ulid_find_ne by (solve [auto 20 with conduit] || discriminate)
    | rewrite set_ms_find_eq by (solve [auto 20 with conduit] || (find_key; reflexivity))
    | rewrite set_ulid_find_eq by (solve [auto 20 with conduit] || (find_key; reflexivity))
    | rewrite j_find_object ].

Lemma read_ms_found ts k o :
  j_find ts k = (j_int64 ∘ to_ms_since_epoch) <$> o → (∀ t, o = Some t → is_i64 t) →
  read_ms ts k = Ret (truncate_ms <$> o).
Proof.
  unfold read_ms. intros -> Ho. destruct o as [t|]; simpl; [|done].
  specialize (Ho t eq_refl). rewrite j_get_int64_int64 by by apply truncate_in_range.
  simpl. by rewrite from_to_ms.
Qed.

Lemma read_timestamps_found v t :
  j_find v "timestamps" = Some (timestamps_to_json t) → timestamps_in_range t →
  read_timestamps v = Ret (truncate_timestamps t).
Proof.
  unfold read_timestamps, timestamps_to_json. intros -> (Hc & Hp & Hr & Hd & Hf).
  rewrite (read_ms_found _ "created_at" (Some (created_at t))); [|find_key; done|by intros ? [= <-]].
  rewrite (read_ms_found _ "published_at" (published_at t)) by (done || by find_key).
  rewrite (read_ms_found _ "received_at" (received_at t)) by (done || by find_key).
  rewrite (read_ms_found _ "delivered_at" (delivered_at t)) by (done || by find_key).
  rewrite (read_ms_found _ "failed_at" (failed_at t)) by (done || by find_key).
  done.
Qed.

Lemma read_ulid_found v k o :
  j_find v k = (j_string ∘ ulid_string) <$> o → read_ulid v k = Ret o.
Proof.
  unfold read_ulid. intros ->. destruct o as [u|]; simpl; [|done].
  rewrite j_get_string_string. simpl. by rewrite ulid_from_to_string.
Qed.

Lemma flags_to_json_elements s :
  j_is_array (flags_to_json s) = true ∧ j_elements (flags_to_json s) = j_string <$> fs_elements s.
Proof.
  unfold flags_to_json.
  assert (∀ l arr, j_is_array arr = true →
    j_is_array (foldl (λ arr f, j_push_back arr (j_string f)) arr l) = true ∧
    j_elements (foldl (λ arr f, j_push_back arr (j_string f)) arr l)
      = j_elements arr ++ (j_string <$> l)) as Hfold.
  { induction l as [|f l IH]; intros arr Harr; simpl; [by rewrite app_nil_r|].
    destruct (IH (j_push_back arr (j_string f))) as [? ->]; [auto with conduit|].
    rewrite j_elements_push by done. by rewrite <- app_assoc. }
  destruct (Hfold (fs_elements s) j_array) as [? ->]; [auto with conduit|].
  by rewrite j_elements_array.
Qed.

Lemma read_flag_string s g :
  read_flag s (j_string g) =
  Ret (match fs_registered g with Some f => fs_insert f s | None => s end).
Proof. unfold read_flag. rewrite j_get_string_string. simpl. by case_match. Qed.

Lemma read_flags_list l s :
  ∃ s', fold_outcome read_flag s (j_string <$> l) = Ret s' ∧
        ∀ f, fs_contains f s' =
             fs_contains f s || (bool_decide (f ∈ l) && bool_decide (is_Some (fs_registered f))).
Proof.
  revert s. induction l as [|g l IH]; intros s.
  { exists s. split; [done|]. intros f. by rewrite orb_false_r. }
  rewrite fmap_cons, (fold_outcome_cons _ _ _ _ _ (read_flag_string s g)).
  destruct (fs_registered g) as [g'|] eqn:Hg.
  - destruct (IH (fs_insert g' s)) as (s' & -> & Hs'). exists s'. split; [done|]. intros f.
    apply fs_registered_name in Hg as Hgg. subst g'. rewrite Hs', fs_contains_insert.
    destruct (decide (f = g)) as [->|Hne].
    + rewrite Hg, (bool_decide_eq_true_2 (g = g)), (bool_decide_eq_true_2 (g ∈ g :: l)) by
        (done || by left). simpl. by rewrite orb_true_r.
    + rewrite (bool_decide_eq_false_2 (f = g)) by done. simpl. do 2 f_equal.
      apply bool_decide_ext. rewrite elem_of_cons. naive_solver.
  - destruct (IH s) as (s' & -> & Hs'). exists s'. split; [done|]. intros f. rewrite Hs'. f_equal.
    destruct (decide (f = g)) as [->|Hne].
    + rewrite Hg. by rewrite !andb_false_r.
    + f_equal. apply bool_decide_ext. rewrite elem_of_cons. naive_solver.
Qed.

Lemma read_flags_found v s :
  j_find v "flags" = Some (flags_to_json s) →
  ∃ s', read_flags v = Ret s' ∧
        ∀ f, fs_contains f s' = fs_contains f s && bool_decide (is_Some (fs_registered f)).
Proof.
  unfold read_flags. intros ->. destruct (flags_to_json_elements s) as [_ ->].
  destruct (read_flags_list (fs_elements s) fs_empty) as (s' & -> & Hs').
  exists s'. split; [done|]. intros f. rewrite Hs', fs_contains_empty. simpl. f_equal.
  destruct (fs_contains f s) eqn:Hf.
  - apply bool_decide_eq_true_2. by apply fs_elements_contains.
  - apply bool_decide_eq_false_2. rewrite fs_elements_contains. congruence.
Qed.

(** *** The value object *)

(** The object under [KEY_VALUE] that [to_json] builds around the payload [pj]. *)
Definition value_object (c : EnvelopeCore) (pj : json) : json :=
  let v := j_set j_object "id" (j_string (ulid_string (id c))) in
  let v := j_set v "name" (j_string (core_name c)) in
  let v := j_set v "flags" (flags_to_json (flags c)) in
  let v := set_ulid "correlation_id" (correlation_id c) v in
  let v := set_ulid "causation_id" (causation_id c) v in
  let v := j_set v "metadata" (md_to_json (metadata_of c)) in
  let v := j_set v "timestamps" (timestamps_to_json (timestamps c)) in
  j_set v "payload" pj.

Definition document (d : display_info) (v : json) : json :=
  inject_display_info d (j_set (j_set j_object KEY_KIND (j_string kind_id)) KEY_VALUE v).

Lemma to_json_document d c p pj :
  payload_cell c = Some p → cell_to_json p = Ret pj →
  to_json d c = Ret (document d (value_object c pj)).
Proof. unfold to_json. by intros -> ->. Qed.

Lemma value_object_is_object c pj : j_is_object (value_object c pj) = true.
Proof. unfold value_object. auto 20 with conduit. Qed.

Lemma read_header_document d v : j_is_object v = true → read_header (document d v) = Ret v.
Proof.
  intros Hv. unfold read_header, document.
  assert (j_is_object (j_set (j_set j_object KEY_KIND (j_string kind_id)) KEY_VALUE v) = true)
    by auto with conduit.
  rewrite inject_is_object by done. simpl.
  rewrite !inject_find by (done || by (left + right)).
  rewrite j_find_set_ne by (auto with conduit || apply not_eq_sym, key_kind_value).
  rewrite j_find_set_eq by auto with conduit. rewrite j_is_string_string, j_get_string_string.
  simpl. rewrite j_find_set_eq by auto with conduit. by rewrite Hv.
Qed.

Lemma absorb_document d v : absorb_display_info (document d v) = d.
Proof. apply absorb_inject. Qed.

Lemma from_json_document d c p pj reg :
  reg_cell_from_json reg pj = Ret p → timestamps_in_range (timestamps c) →
  ∃ c', from_json (document d (value_object c pj)) reg = Ret (d, c') ∧
        wire_image c (set_payload_cell (payload_cell c) c') ∧ payload_cell c' = Some p.
Proof.
  intros Hp Hts. unfold from_json.
  rewrite read_header_document by apply value_object_is_object. simpl.
  assert (read_id (value_object c pj) = Ret (id c)) as ->.
  { unfold read_id, value_object. find_key.
    rewrite j_is_string_string, j_get_string_string. simpl. by rewrite ulid_from_to_string. }
  simpl. rewrite (read_ulid_found _ "correlation_id" (correlation_id c)) by
    (unfold value_object; find_key; done).
  simpl. rewrite (read_ulid_found _ "causation_id" (causation_id c)) by
    (unfold value_object; find_key; done).
  simpl. destruct (read_flags_found (value_object c pj) (flags c)) as (fs & -> & Hfs).
  { unfold value_object. by find_key. }
  simpl. assert (read_metadata (value_object c pj) = Ret (metadata_of c)) as ->.
  { unfold read_metadata, value_object. find_key. by rewrite md_is_object, md_from_to_json. }
  simpl. rewrite (read_timestamps_found _ (timestamps c)) by
    (done || by (unfold value_object; find_key)).
  simpl. replace (j_find (value_object c pj) "payload") with (Some pj) by
    (unfold value_object; by find_key).
  rewrite Hp. simpl. rewrite absorb_document. eexists. split; [done|]. by split.
Qed.

(** *** Errors of [from_json] *)

Definition wire_error (c : exn_class) : Prop :=
  catches ParcelException c = true ∨ c = json_exception.

Lemma j_get_string_throws j : throws_only (λ c, c = json_exception) (j_get_string j).
Proof.
  intros e He. destruct (j_is_string j) eqn:Hj.
  - destruct (j_get_string_is_string j Hj) as [s Hs]. congruence.
  - destruct (j_get_string_not_string j Hj) as [w Hw]. rewrite Hw in He. by simplify_eq.
Qed.

Lemma j_get_string_defined j : ¬ is_undef (j_get_string j).
Proof.
  intros [u Hu]. destruct (j_is_string j) eqn:Hj.
  - destruct (j_get_string_is_string j Hj) as [s Hs]. congruence.
  - destruct (j_get_string_not_string j Hj) as [w Hw]. congruence.
Qed.
End lemmas.
