(* ===== verification/Serialization.v ===== *)
(** * The decode registry and the wire codecs ([include/conduit/serialization.hpp])

    [EventRegistry] holds a handle on an immutable parcel registry; encoding and
    decoding go through the JSON layout of [EnvelopeWire.v].  The second part
    models [add_descriptor] as two critical sections that threads interleave. *)

From stdpp Require Import relations.
From S2P Require Import Prelude Exceptions External Flags Envelope EnvelopeWire.

Section codecs.
Context `{Externals}.

Record EventRegistry := MkEventRegistry { registry_ : registry }.

(** [EventRegistry()] *)
Definition new_EventRegistry : EventRegistry :=
  MkEventRegistry (reg_register_kind reg_default envelope_descriptor).

(** The copy constructor copies the parcel registry. *)
Definition copy_EventRegistry (other : EventRegistry) : EventRegistry :=
  MkEventRegistry (registry_ other).

(** [snapshot()] *)
Definition snapshot (r : EventRegistry) : registry := registry_ r.

(** [parcel_registry_snapshot()] *)
Definition parcel_registry_snapshot (r : EventRegistry) : registry := snapshot r.

Definition add_descriptor (d : descriptor) (r : EventRegistry) : EventRegistry :=
  let current := snapshot r in
  let next := reg_register_kind current d in
  MkEventRegistry next.

(** [add<T>()] *)
Definition add (T : event_type) (r : EventRegistry) : EventRegistry :=
  add_descriptor (et_descriptor T) r.

Definition serialization_error {A} (e : exn) : outcome A :=
  Throw (Exn SerializationError (what e)).

Definition decode_json (r : EventRegistry) (j : json) : outcome (display_info * EnvelopeCore) :=
  let reg := snapshot r in
  try_catch (from_json j reg) [(ParcelException, serialization_error)].

Definition decode_cbor (r : EventRegistry) (bytes : list Z)
    : outcome (display_info * EnvelopeCore) :=
  try_catch (j ← j_from_cbor bytes; decode_json r j)
    [(ParcelException, serialization_error);
     (SerializationError, λ e, Throw e);
     (std_exception, serialization_error)].

Definition encode_json (d : display_info) (c : EnvelopeCore) : outcome json := to_json d c.

Definition encode_cbor (d : display_info) (c : EnvelopeCore) : outcome (list Z) :=
  j ← to_json d c; Ret (j_to_cbor j).

(** ** Concurrent registration

    A writer takes the snapshot (shared lock) and builds its private copy, then
    swaps the handle (unique lock).  Each is atomic; other threads may run
    between them. *)

Inductive writer :=
  | WStart (d : descriptor)
  | WBuilt (d : descriptor) (next : registry)
  | WDone (d : descriptor).

Definition writer_desc (w : writer) : descriptor :=
  match w with WStart d | WBuilt d _ | WDone d => d end.

Record shared_registry := SharedRegistry {
  handle : registry;
  writers : gmap nat writer;
}.

(** One critical section of thread [i]. *)
Definition writer_step (i : nat) (s : shared_registry) : option shared_registry :=
  match writers s !! i with
  | Some (WStart d) =>
      Some (SharedRegistry (handle s) (<[i := WBuilt d (reg_register_kind (handle s) d)]> (writers s)))
  | Some (WBuilt d next) => Some (SharedRegistry next (<[i := WDone d]> (writers s)))
  | _ => None
  end.

Definition registry_step (s s' : shared_registry) : Prop := ∃ i, writer_step i s = Some s'.

(** Running the threads in the order of a schedule. *)
Fixpoint run_schedule (sched : list nat) (s : shared_registry) : option shared_registry :=
  match sched with
  | [] => Some s
  | i :: sched => s' ← writer_step i s; run_schedule sched s'
  end.
End codecs.

Section lemmas.
Context `{ExternalLaws}.

Lemma run_schedule_reachable sched s s' : run_schedule sched s = Some s' → rtc registry_step s s'.
Proof.
  revert s. induction sched as [|i sched IH]; intros s; simpl; [by intros [= ->]|].
  destruct (writer_step i s) as [s1|] eqn:Hs; [|done]. intros Hr.
  eapply rtc_l; [by exists i|auto].
Qed.

(** What every thread's view of the registry satisfies: each kind resolves as it
    did at the start or to a descriptor that some writer registers. *)
Definition registry_view (s0 : shared_registry) (r : registry) : Prop :=
  ∀ k, reg_find r k = reg_find (handle s0) k ∨
       ∃ i w, writers s0 !! i = Some w ∧ desc_kind (writer_desc w) = k ∧
              reg_find r k = Some (writer_desc w).

Record registry_inv (s0 s : shared_registry) : Prop := {
  ri_handle : registry_view s0 (handle s);
  ri_built i d next : writers s !! i = Some (WBuilt d next) → registry_view s0 next;
  ri_descs i w : writers s !! i = Some w →
    ∃ w0, writers s0 !! i = Some w0 ∧ writer_desc w0 = writer_desc w;
}.

Lemma registry_view_register s0 r i w :
  writers s0 !! i = Some w → registry_view s0 r →
  registry_view s0 (reg_register_kind r (writer_desc w)).
Proof.
  intros Hw Hr k. destruct (decide (k = desc_kind (writer_desc w))) as [->|Hne].
  - right. exists i, w. split_and!; [done|done|apply reg_find_register_eq].
  - rewrite reg_find_register_ne by done. apply Hr.
Qed.

Lemma registry_inv_step s0 s s' :
  registry_inv s0 s → registry_step s s' → registry_inv s0 s'.
Proof.
  intros [Hh Hb Hd] [i Hstep]. unfold writer_step in Hstep.
  destruct (writers s !! i) as [[d|d next|d]|] eqn:Hi; simplify_eq.
  - destruct (Hd i _ Hi) as (w0 & Hw0 & Hw0d). simpl in Hw0d.
    split; simpl; [done| |].
    + intros j d' next'. rewrite lookup_insert. case_decide; intros Hj; simplify_eq; [|by eapply Hb].
      by eapply registry_view_register.
    + intros j w. rewrite lookup_insert. case_decide; intros Hj; simplify_eq; [|by eapply Hd].
      by exists w0.
  - destruct (Hd i _ Hi) as (w0 & Hw0 & Hw0d). simpl in Hw0d.
    split; simpl; [by eapply Hb| |].
    + intros j d' next'. rewrite lookup_insert. case_decide; intros Hj; simplify_eq. by eapply Hb.
    + intros j w. rewrite lookup_insert. case_decide; intros Hj; simplify_eq; [|by eapply Hd].
      by exists w0.
Qed.

Lemma registry_inv_init r0 ws :
  (∀ i w, ws !! i = Some w → ∃ d, w = WStart d) →
  registry_inv (SharedRegistry r0 ws) (SharedRegistry r0 ws).
Proof.
  intros Hws. split; simpl.
  - intros k. by left.
  - intros i d next Hi. by destruct (Hws i _ Hi).
  - intros i w Hi. by exists w.
Qed.

Lemma registry_inv_reachable s0 s :
  (∀ i w, writers s0 !! i = Some w → ∃ d, w = WStart d) →
  rtc registry_step s0 s → registry_inv s0 s.
Proof.
  intros Hws Hr.
  assert (∀ x y, rtc registry_step x y → registry_inv s0 x → registry_inv s0 y) as Hind.
  { induction 1 as [|x y z Hxy Hyz IH]; [done|]. intros. by eapply IH, registry_inv_step. }
  apply (Hind s0 s Hr). destruct s0. by apply registry_inv_init.
Qed.

(** Between its two critical sections only the thread itself changes its own state. *)
Lemma run_schedule_others sched s s' i :
  i ∉ sched → run_schedule sched s = Some s' → writers s' !! i = writers s !! i.
Proof.
  revert s. induction sched as [|j sched IH]; intros s Hi; simpl; [by intros [= <-]|].
  apply not_elem_of_cons in Hi as [Hne Hi].
  destruct (writer_step j s) as [s1|] eqn:Hs; simpl; [|done]. intros Hrun. rewrite (IH s1 Hi Hrun).
  unfold writer_step in Hs. by repeat case_match; simplify_eq/=; rewrite lookup_insert_ne.
Qed.

Lemma run_schedule_app l1 l2 s : run_schedule (l1 ++ l2) s = run_schedule l1 s ≫= run_schedule l2.
Proof.
  revert s. induction l1 as [|i l1 IH]; intros s; simpl; [done|].
  destruct (writer_step i s) as [s1|]; simpl; [apply IH|done].
Qed.

(** A thread that runs through, with others in between: what it publishes is what it read
    and its descriptor. *)
Lemma run_schedule_registers sched s1 s2 i d :
  writers s1 !! i = Some (WStart d) → i ∉ sched →
  run_schedule (i :: sched ++ [i]) s1 = Some s2 → handle s2 = reg_register_kind (handle s1) d.
Proof.
  intros Hi Hn Hrun. simpl in Hrun. unfold writer_step at 1 in Hrun. rewrite Hi in Hrun. simpl in Hrun.
  rewrite run_schedule_app in Hrun. destruct (run_schedule sched _) as [s|] eqn:Hs; simpl in Hrun; [|done].
  apply run_schedule_others with (i := i) in Hs; [|done]. simpl in Hs. rewrite lookup_insert_eq in Hs.
  unfold writer_step in Hrun. rewrite Hs in Hrun. by simplify_eq/=.
Qed.

Definition is_built (w : writer) : bool := match w with WBuilt _ _ => true | _ => false end.

(** A kind that resolves stays as it is while only threads run that have not read yet and
    register other kinds. *)
Record settled_kind (k : string) (d : descriptor) (run : list nat) (s : shared_registry) : Prop := {
  sk_handle : reg_find (handle s) k = Some d;
  sk_built j d' next : j ∈ run → writers s !! j = Some (WBuilt d' next) → reg_find next k = Some d;
  sk_kinds j w : j ∈ run → writers s !! j = Some w → desc_kind (writer_desc w) ≠ k;
}.

Lemma settled_kind_run k d run sched s s' :
  sched ⊆ run → settled_kind k d run s → run_schedule sched s = Some s' → settled_kind k d run s'.
Proof.
  revert s. induction sched as [|i sched IH]; intros s Hsub Hk; simpl; [by intros [= <-]|].
  destruct (writer_step i s) as [s1|] eqn:Hs; simpl; [|done]. apply IH; [set_solver|].
  destruct Hk as [Hh Hb Hkd]. assert (i ∈ run) as Hi by set_solver. unfold writer_step in Hs.
  destruct (writers s !! i) as [[d0|d0 next|d0]|] eqn:Hw; simplify_eq; split; simpl.
  - done.
  - intros j d' next Hj. rewrite lookup_insert_Some. intros [[<- [= <- <-]]|[_ ?]]; [|by eapply Hb].
    rewrite reg_find_register_ne; [done|]. apply not_eq_sym. by apply (Hkd i _ Hi Hw).
  - intros j w Hj. rewrite lookup_insert_Some. intros [[<- <-]|[_ ?]]; [by apply (Hkd i _ Hi Hw)|by eapply Hkd].
  - by eapply Hb.
  - intros j d' next' Hj. rewrite lookup_insert_Some. intros [[_ [=]]|[_ ?]]. by eapply Hb.
  - intros j w Hj. rewrite lookup_insert_Some. intros [[<- <-]|[_ ?]]; [by apply (Hkd i _ Hi Hw)|by eapply Hkd].
Qed.

(** ** Errors of the codecs *)

Lemma read_ms_throws ts k : throws_only wire_error (read_ms ts k).
Proof.
  unfold read_ms. destruct (j_find ts k) as [j|]; [|auto with conduit].
  apply throws_only_bind.
  - eapply throws_only_weaken, j_get_int64_throws. intros c ->. by right.
  - intros ms _. apply throws_only_bind; [|auto with conduit].
    unfold from_ms_since_epoch. case_match; auto with conduit.
Qed.

Lemma get_string_wire_error j : throws_only wire_error (j_get_string j).
Proof. eapply throws_only_weaken, j_get_string_throws. intros c ->. by right. Qed.

Lemma invalid_json_wire_error {A} w : throws_only wire_error (@invalid_json A w).
Proof. apply throws_only_throw. by left. Qed.

Lemma read_ulid_throws v k : throws_only wire_error (read_ulid v k).
Proof.
  unfold read_ulid. destruct (j_find v k) as [j|]; [|auto with conduit].
  apply throws_only_bind; [apply get_string_wire_error|]. intros s _.
  case_match; [auto with conduit|apply invalid_json_wire_error].
Qed.

Lemma read_id_throws v : throws_only wire_error (read_id v).
Proof.
  unfold read_id. destruct (j_find v "id") as [j|]; [|apply invalid_json_wire_error].
  case_match; [|apply invalid_json_wire_error].
  apply throws_only_bind; [apply get_string_wire_error|]. intros s _.
  case_match; [auto with conduit|apply invalid_json_wire_error].
Qed.

Lemma read_flags_throws v : throws_only wire_error (read_flags v).
Proof.
  unfold read_flags. destruct (j_find v "flags") as [j|]; [|auto with conduit].
  apply throws_only_fold. intros s fn. unfold read_flag.
  apply throws_only_bind; [apply get_string_wire_error|]. intros. case_match; auto with conduit.
Qed.

Lemma read_header_throws j : throws_only wire_error (read_header j).
Proof.
  unfold read_header. case_match; [apply invalid_json_wire_error|].
  case_match; [|apply invalid_json_wire_error]. case_match; [apply invalid_json_wire_error|].
  apply throws_only_bind; [apply get_string_wire_error|]. intros s _.
  case_match; [apply throws_only_throw; by left|].
  case_match; [|apply invalid_json_wire_error].
  case_match; [apply invalid_json_wire_error|auto with conduit].
Qed.

Lemma read_timestamps_throws v : throws_only wire_error (read_timestamps v).
Proof.
  unfold read_timestamps. case_match; [|auto with conduit].
  repeat (apply throws_only_bind; [apply read_ms_throws|intros ? _]). auto with conduit.
Qed.

Lemma wire_error_std c : wire_error c → catches std_exception c = true.
Proof. intros [Hc| ->]; [|done]. by apply (catches_trans _ ParcelException). Qed.

(** Everything that decoding a document throws derives from [std::exception]. *)
Lemma from_json_throws j reg :
  throws_only (λ c, catches std_exception c = true) (from_json j reg).
Proof.
  unfold from_json.
  apply throws_only_bind; [eapply throws_only_weaken, read_header_throws; apply wire_error_std|].
  intros v _.
  apply throws_only_bind; [eapply throws_only_weaken, read_id_throws; apply wire_error_std|].
  intros i _. do 2 (apply throws_only_bind;
    [eapply throws_only_weaken, read_ulid_throws; apply wire_error_std|intros ? _]).
  apply throws_only_bind; [eapply throws_only_weaken, read_flags_throws; apply wire_error_std|].
  intros fs _. apply throws_only_bind.
  { unfold read_metadata. repeat case_match; auto with conduit. }
  intros md _.
  apply throws_only_bind; [eapply throws_only_weaken, read_timestamps_throws; apply wire_error_std|].
  intros ts _. case_match; [|by apply throws_only_throw].
  apply throws_only_bind; auto with conduit.
Qed.

Lemma try_catch_throws {A} (P : exn_class → Prop) (m : outcome A) cs :
  (∀ e, m = Throw e → throws_only P (run_clauses cs e)) → throws_only P (try_catch m cs).
Proof. intros Hm e. destruct m as [a|e'|u]; simpl; [done| |done]. by apply Hm. Qed.

Lemma decode_json_throws r j :
  throws_only (λ c, catches std_exception c = true) (decode_json r j).
Proof.
  unfold decode_json. apply try_catch_throws. intros e He. simpl.
  pose proof (from_json_throws _ _ _ He). case_match; by apply throws_only_throw.
Qed.
End lemmas.
