(* ===== verification/SerializationProps.v ===== *)
(** * Properties of the wire codecs and of the decode registry

    The theorems about [EnvelopeWire.v] and [Serialization.v]: the round trip
    through CBOR, the errors that decoding can raise, what registration makes
    decodable, and what concurrent registrations can and cannot do. *)

From stdpp Require Import relations.
From S2P Require Import Prelude Exceptions External Flags Instances Envelope EnvelopeWire Serialization.

(** ** Theorems *)

Section theorems.
Context `{ExternalLaws}.

(** C8: encoding an envelope to CBOR and decoding the bytes gives the same
    envelope back, but for the sub-millisecond part of its timestamps and the
    flags that the flag registry does not know, whenever the payload itself
    survives parcel's JSON form in the registry used. *)
Theorem cbor_roundtrip (r : EventRegistry) (d : display_info) (c : EnvelopeCore) p pj :
  payload_cell c = Some p → cell_to_json p = Ret pj →
  reg_cell_from_json (snapshot r) pj = Ret p → timestamps_in_range (timestamps c) →
  ∃ bytes c', encode_cbor d c = Ret bytes ∧ decode_cbor r bytes = Ret (d, c') ∧ wire_image c c'.
Proof.
  intros Hp Hpj Hreg Hts. unfold encode_cbor, decode_cbor, decode_json.
  rewrite (to_json_document d c p pj) by done. simpl.
  destruct (from_json_document d c p pj (snapshot r)) as (c' & Hc' & Himg & Hpay); [done|done|].
  eexists _, c'. split; [done|]. rewrite j_from_to_cbor. simpl. rewrite Hc'. simpl.
  split; [done|]. destruct c'. simpl in Hpay. by rewrite Hp, <- Hpay in Himg.
Qed.

(** Encoding fails exactly when there is no payload (or parcel fails on the
    payload), with conduit's own error; nothing else of the envelope can make
    it fail. *)
Theorem encode_json_error (d : display_info) (c : EnvelopeCore) :
  (payload_cell c = None →
     encode_json d c =
       Throw (Exn SerializationError "EventEnvelope::to_json: envelope has no payload")) ∧
  (∀ p, payload_cell c = Some p →
     (is_ret (encode_json d c) ↔ is_ret (cell_to_json p)) ∧
     (∀ e, encode_json d c = Throw e ↔ cell_to_json p = Throw e)).
Proof.
  unfold encode_json, to_json. split; [by intros ->|]. intros p ->.
  destruct (cell_to_json p) as [pj|e|u]; simpl.
  - split; [by split; intros _; eexists|]. intros e; by split.
  - split; [split; by intros [? ?]|]. done.
  - split; [split; by intros [? ?]|]. intros e; by split.
Qed.

(** Whatever bytes arrive from the wire, the only exception that decoding CBOR
    lets out is conduit's SerializationError. *)
Theorem decode_cbor_throws_serialization (r : EventRegistry) (bytes : list Z) :
  throws_only (λ c, c = SerializationError) (decode_cbor r bytes).
Proof.
  assert (throws_only (λ c, catches std_exception c = true)
            (j ← j_from_cbor bytes; decode_json r j)) as Hall.
  { apply throws_only_bind; [|intros j _; apply decode_json_throws].
    eapply throws_only_weaken, j_from_cbor_throws. by intros c ->. }
  unfold decode_cbor. apply try_catch_throws. intros e He. simpl. specialize (Hall e He).
  case_match; [by apply throws_only_throw|].
  destruct (catches SerializationError (exn_type e)) eqn:Hs.
  - apply throws_only_throw. by destruct (exn_type e).
  - rewrite Hall. by apply throws_only_throw.
Qed.

(** Decoding JSON directly has no such guarantee: a document whose
    correlation id is not a string makes [nlohmann::json]'s own exception, which
    is outside conduit's hierarchy, leave [decode_json]. *)
Theorem decode_json_leaks_json_exception (r : EventRegistry) (j v x : json) i :
  read_header j = Ret v → read_id v = Ret i →
  j_find v "correlation_id" = Some x → j_is_string x = false →
  ∃ w, decode_json r j = Throw (Exn json_exception w) ∧
       is_conduit_exception json_exception = false.
Proof.
  intros Hv Hi Hx Hs. destruct (j_get_string_not_string x Hs) as [w Hw]. exists w.
  split; [|done]. unfold decode_json, from_json. rewrite Hv. simpl. rewrite Hi. simpl.
  unfold read_ulid. by rewrite Hx, Hw.
Qed.

(** A wire timestamp that does not fit the clock once scaled to its ticks is
    multiplied in signed arithmetic all the same: undefined behaviour reached
    from the bytes of a peer. *)
Theorem decode_json_timestamp_overflow (r : EventRegistry) (j v ts x : json) i co ca fs md ms :
  read_header j = Ret v → read_id v = Ret i →
  read_ulid v "correlation_id" = Ret co → read_ulid v "causation_id" = Ret ca →
  read_flags v = Ret fs → read_metadata v = Ret md →
  j_find v "timestamps" = Some ts → j_find ts "created_at" = Some x →
  j_get_int64 x = Ret ms → ¬ is_i64 (ms * ticks_per_ms) →
  decode_json r j = Undef SignedOverflow.
Proof.
  intros Hv Hi Hco Hca Hfs Hmd Hts Hx Hms Hbig.
  assert (read_ms ts "created_at" = Undef SignedOverflow) as Hread.
  { unfold read_ms, from_ms_since_epoch. rewrite Hx, Hms. simpl.
    destruct (in_i64 (ms * ticks_per_ms)) eqn:Hin; [|done]. by apply in_i64_spec in Hin. }
  unfold decode_json, from_json. rewrite Hv. simpl. rewrite Hi. simpl.
  rewrite Hco. simpl. rewrite Hca. simpl. rewrite Hfs. simpl. rewrite Hmd. simpl.
  unfold read_timestamps. by rewrite Hts, Hread.
Qed.

(** Registering event types one after the other leaves every one of them
    resolvable under its wire kind, and no other kind affected. *)
Theorem add_types_resolve (r : EventRegistry) (ts : list event_type) (k : string) :
  let r' := foldl (λ r T, add T r) r ts in
  (k ∉ (λ T, event_kind_prefix +:+ et_name T) <$> ts →
     reg_find (snapshot r') k = reg_find (snapshot r) k) ∧
  (k ∈ (λ T, event_kind_prefix +:+ et_name T) <$> ts →
     ∃ T, T ∈ ts ∧ reg_find (snapshot r') k = Some (et_descriptor T) ∧
          k = event_kind_prefix +:+ et_name T).
Proof.
  simpl. revert r. induction ts as [|T ts IH]; intros r; simpl; [set_solver|].
  destruct (IH (add T r)) as [IHout IHin].
  destruct (decide (k ∈ (λ T, event_kind_prefix +:+ et_name T) <$> ts)) as [Hin|Hout].
  - split; [set_solver|]. intros _. destruct (IHin Hin) as (T' & ? & ? & ?). exists T'.
    split_and!; [by right|done|done].
  - rewrite IHout by done. unfold add, add_descriptor, snapshot. simpl. split.
    + intros Hk. apply reg_find_register_ne. rewrite et_desc_kind. set_solver.
    + intros [->|Hk]%elem_of_cons; [|done]. exists T.
      split_and!; [by left| |done]. rewrite <- et_desc_kind. apply reg_find_register_eq.
Qed.

(** C39: registrations from several threads.  Thread [i] reads the registry in state
    [s1] and publishes its own version in [s2], with the others running in between: from
    then on its kind resolves to its descriptor, every other kind as it did when [i]
    read, and the kind keeps resolving through every schedule [q] of threads that had
    not read by then and register other kinds.  In every case what the published
    registry resolves a kind to was there at the start or is what one of the threads
    registers under that kind. *)
Theorem concurrent_registry_consistent (s0 s1 s2 s : shared_registry) (p1 p2 q : list nat) i (d : descriptor) :
  (∀ i w, writers s0 !! i = Some w → ∃ d, w = WStart d) →
  run_schedule p1 s0 = Some s1 → writers s1 !! i = Some (WStart d) → i ∉ p2 →
  run_schedule (i :: p2 ++ [i]) s1 = Some s2 → run_schedule q s2 = Some s →
  reg_find (handle s2) (desc_kind d) = Some d ∧
  (∀ k, k ≠ desc_kind d → reg_find (handle s2) k = reg_find (handle s1) k) ∧
  ((∀ j w, j ∈ q → writers s2 !! j = Some w →
           is_built w = false ∧ desc_kind (writer_desc w) ≠ desc_kind d) →
   reg_find (handle s) (desc_kind d) = Some d) ∧
  (∀ k d', reg_find (handle s) k = Some d' →
     reg_find (handle s0) k = Some d' ∨ ∃ j, writers s0 !! j = Some (WStart d') ∧ desc_kind d' = k).
Proof.
  intros Hws Hp1 Hi Hn Hp2 Hq. pose proof (run_schedule_registers _ _ _ _ _ Hi Hn Hp2) as Hs2.
  assert (reg_find (handle s2) (desc_kind d) = Some d) as Hfind by (rewrite Hs2; apply reg_find_register_eq).
  split_and!; [done|intros k Hk; by rewrite Hs2, reg_find_register_ne| |].
  - intros Hothers. destruct (settled_kind_run (desc_kind d) d q q s2 s) as [? _ _]; [done| |done|done].
    split; [done|..].
    + intros j d' next Hj Hw. by destruct (Hothers j _ Hj Hw) as [? _].
    + intros j w Hj Hw. by apply (Hothers j w Hj Hw).
  - intros k d' Hd.
    assert (rtc registry_step s0 s) as Hr.
    { etrans; [by eapply run_schedule_reachable|]. etrans; by eapply run_schedule_reachable. }
    destruct (registry_inv_reachable s0 s Hws Hr) as [Hview _ _].
    destruct (Hview k) as [Heq|(j & w & Hw & Hk & Heq)]; [left; congruence|].
    right. destruct (Hws j w Hw) as [dw ->]. simpl in *. exists j. split; congruence.
Qed.

(** But two registrations can overlap so that both finish and the first is
    lost: the copy is built from a snapshot taken before the swap of the other
    writer, so decoding the lost type fails afterwards. *)
Theorem concurrent_registration_lost (r0 : registry) (d1 d2 : descriptor) :
  reg_find r0 (desc_kind d1) = None → desc_kind d1 ≠ desc_kind d2 →
  ∃ s, rtc registry_step (SharedRegistry r0 {[0 := WStart d1; 1 := WStart d2]}) s ∧
       writers s = {[0 := WDone d1; 1 := WDone d2]} ∧
       reg_find (handle s) (desc_kind d1) = None ∧
       reg_find (handle s) (desc_kind d2) = Some d2.
Proof.
  intros Hnew Hne.
  exists (SharedRegistry (reg_register_kind r0 d2) {[0 := WDone d1; 1 := WDone d2]}).
  split; [|split_and!; [done| |apply reg_find_register_eq]].
  - by apply (run_schedule_reachable [0; 1; 0; 1]).
  - simpl. by rewrite reg_find_register_ne.
Qed.
End theorems.

(** ** Witnesses *)

Definition sample_core : EnvelopeCore :=
  MkCore "A" (fs_of [flags.Durable; "custom"]) [("tenant", "acme")]
    (MkTimestamps 1700000000123456789 (Some 5%Z) None None None) (Some "B") None
    (Some (CCell "i64" 7)).

Definition sample_registry : EventRegistry := new_EventRegistry.

Lemma cbor_roundtrip_witness :
  ∃ bytes c', encode_cbor None sample_core = Ret bytes ∧
              decode_cbor sample_registry bytes = Ret (None, c') ∧ wire_image sample_core c'.
Proof.
  apply (cbor_roundtrip sample_registry None sample_core (CCell "i64" 7)
           (ccell_to_json (CCell "i64" 7))).
  - reflexivity.
  - reflexivity.
  - vm_compute. reflexivity.
  - split_and!; intros; simplify_eq/=; vm_compute; split; discriminate.
Defined.

Definition bad_correlation : cjson :=
  CObj [("k", CStr "conduit:envelope");
        ("v", CObj [("id", CStr "01HA"); ("correlation_id", CInt 7)])].

Lemma decode_json_leaks_witness :
  ∃ w, decode_json sample_registry bad_correlation = Throw (Exn json_exception w) ∧
       is_conduit_exception json_exception = false.
Proof.
  apply (decode_json_leaks_json_exception sample_registry bad_correlation
           (CObj [("id", CStr "01HA"); ("correlation_id", CInt 7)]) (CInt 7) "A");
    vm_compute; reflexivity.
Defined.

Definition far_future : cjson :=
  CObj [("k", CStr "conduit:envelope");
        ("v", CObj [("id", CStr "01HA");
                    ("timestamps", CObj [("created_at", CInt 9223372036854775807)])])].

Lemma decode_json_timestamp_overflow_witness :
  decode_json sample_registry far_future = Undef SignedOverflow.
Proof.
  apply (decode_json_timestamp_overflow sample_registry far_future
           (CObj [("id", CStr "01HA");
                  ("timestamps", CObj [("created_at", CInt 9223372036854775807)])])
           (CObj [("created_at", CInt 9223372036854775807)]) (CInt 9223372036854775807)
           "A" None None [] [] 9223372036854775807); try (vm_compute; reflexivity).
  intros Hin%in_i64_spec. vm_compute in Hin. discriminate Hin.
Defined.

(** Two threads register one after the other. *)
Lemma concurrent_registry_consistent_witness :
  let s0 := SharedRegistry (sample_reg ["i64"]) {[0 := WStart (sample_desc "x"); 1 := WStart (sample_desc "y")]} in
  ∃ s2 s, run_schedule [0; 0] s0 = Some s2 ∧ run_schedule [1; 1] s2 = Some s ∧
    reg_find (handle s2) "x" = Some (sample_desc "x") ∧ reg_find (handle s) "x" = Some (sample_desc "x").
Proof.
  intros s0.
  set (s2 := SharedRegistry (reg_register_kind (sample_reg ["i64"]) (sample_desc "x"))
               {[0 := WDone (sample_desc "x"); 1 := WStart (sample_desc "y")]}).
  set (s := SharedRegistry (reg_register_kind (handle s2) (sample_desc "y"))
              {[0 := WDone (sample_desc "x"); 1 := WDone (sample_desc "y")]}).
  assert (run_schedule [0; 0] s0 = Some s2) as H2 by reflexivity.
  assert (run_schedule [1; 1] s2 = Some s) as H1 by reflexivity.
  exists s2, s. split; [exact H2|]. split; [exact H1|].
  destruct (concurrent_registry_consistent s0 s0 s2 s [] [] [1; 1] 0 (sample_desc "x")) as (Hx & _ & Hkeep & _).
  - intros i w. subst s0. simpl. rewrite lookup_insert_Some, lookup_singleton_Some.
    intros [[_ <-]|[_ [_ <-]]]; by eexists.
  - reflexivity.
  - reflexivity.
  - by intros ?%not_elem_of_nil.
  - exact H2.
  - exact H1.
  - split; [exact Hx|]. apply Hkeep. intros j w Hj Hw.
    assert (j = 1) as -> by (rewrite !elem_of_cons in Hj; destruct Hj as [?|[?|?%elem_of_nil]]; done).
    injection Hw as <-. split; [reflexivity|]. vm_compute. discriminate.
Defined.

Lemma concurrent_registration_lost_witness :
  ∃ s, rtc registry_step (SharedRegistry (sample_reg [])
             {[0 := WStart (sample_desc "a"); 1 := WStart (sample_desc "b")]}) s ∧
       writers s = {[0 := WDone (sample_desc "a"); 1 := WDone (sample_desc "b")]} ∧
       reg_find (handle s) "a" = None ∧ reg_find (handle s) "b" = Some (sample_desc "b").
Proof.
  apply (concurrent_registration_lost (sample_reg []) (sample_desc "a") (sample_desc "b")).
  - vm_compute. reflexivity.
  - vm_compute. discriminate.
Defined.

Lemma encode_json_error_witness :
  (payload_cell sample_core = None →
     encode_json no_display_info sample_core =
       Throw (Exn SerializationError "EventEnvelope::to_json: envelope has no payload")) ∧
  (∀ p, payload_cell sample_core = Some p →
     (is_ret (encode_json no_display_info sample_core) ↔ is_ret (cell_to_json p)) ∧
     (∀ e, encode_json no_display_info sample_core = Throw e ↔ cell_to_json p = Throw e)).
Proof. apply (encode_json_error no_display_info sample_core). Defined.

Lemma decode_cbor_throws_witness :
  SerializationError = SerializationError ∧
  throws_only (λ c, c = SerializationError) (decode_cbor sample_registry [1; 2; 3]%Z).
Proof. split; [done|]. apply decode_cbor_throws_serialization. Defined.

Lemma add_types_resolve_witness :
  let r' := foldl (λ r T, add T r) sample_registry [sample_type "a"; sample_type "b"] in
  ("conduit:event:c" ∉ ["conduit:event:a"; "conduit:event:b"] →
     reg_find (snapshot r') "conduit:event:c" = reg_find (snapshot sample_registry) "conduit:event:c") ∧
  ("conduit:event:c" ∈ ["conduit:event:a"; "conduit:event:b"] →
     ∃ T, T ∈ [sample_type "a"; sample_type "b"] ∧
          reg_find (snapshot r') "conduit:event:c" = Some (et_descriptor T) ∧
          "conduit:event:c" = event_kind_prefix +:+ et_name T).
Proof.
  apply (add_types_resolve sample_registry [sample_type "a"; sample_type "b"] "conduit:event:c").
Defined.
