(* ===== verification/Glob.v ===== *)
(** * Event-name glob matcher ([include/conduit/glob.hpp])

    [glob_match_impl] is the iterative matcher with one backtracking point:
    its local variables are the record [glob_state], one iteration of its main
    loop is [glob_step], the loop is [glob_loop] with fuel.  The reference is
    the relation [matches] on the tokens of the pattern, the reading that the
    comment at the top of the file gives of [*] and [**]. *)

From S2P Require Import Prelude.
From Stdlib Require Import Ascii.
From stdpp Require Import options.

(** A [std::string_view] is its sequence of characters. *)
Abbreviation chars := (list Ascii.ascii).
Definition to_chars (s : string) : chars := String.list_ascii_of_string s.

Definition c_star : Ascii.ascii := "*"%char.
Definition c_dot : Ascii.ascii := "."%char.

(** [s[i]]: [None] is a read out of bounds, undefined behaviour in the code. *)
Definition read (s : chars) (i : N) : option Ascii.ascii := s !! N.to_nat i.

Definition size (s : chars) : N := N.of_nat (length s).

(** [std::numeric_limits<std::size_t>::max()] *)
Definition k_no_star : N := 18446744073709551615.

Record glob_state := GlobState {
  gs_pi : N;
  gs_ni : N;
  gs_star_pi : N;
  gs_star_ni : N;
  gs_star_is_dd : bool;
}.

Definition glob_init : glob_state :=
  GlobState 0 0 k_no_star 0 false.

(** [i < s.size() && s[i] == c] *)
Definition in_range_and_is (s : chars) (i : N) (c : Ascii.ascii) : option bool :=
  if (i <? size s)%N then c' ← read s i; Some (Ascii.eqb c' c) else Some false.

(** [pi < plen && pattern[pi] == name[ni]] *)
Definition in_range_and_same (p : chars) (i : N) (s : chars) (j : N) : option bool :=
  if (i <? size p)%N then
    a ← read p i; b ← read s j; Some (Ascii.eqb a b)
  else Some false.

(** [!star_is_dd && name[i] == '.'] *)
Definition single_and_dot (star_is_dd : bool) (name : chars) (i : N) : option bool :=
  if star_is_dd then Some false else c ← read name i; Some (Ascii.eqb c c_dot).

(** What one iteration of the [while (ni < nlen)] loop does. *)
Inductive glob_next :=
  | GlobContinue (s : glob_state)
  | GlobReturn (b : bool).

Definition star_width (is_double : bool) : N := if is_double then 2 else 1.

Definition glob_step (pattern name : chars) (s : glob_state) : option glob_next :=
  let 'GlobState pi ni star_pi star_ni star_is_dd := s in
  let nlen := size name in
  at_star ← in_range_and_is pattern pi c_star;
  if (at_star : bool) then
    is_double ← in_range_and_is pattern (pi + 1) c_star;
    Some (GlobContinue (GlobState (pi + star_width is_double) ni pi ni is_double))
  else
    same ← in_range_and_same pattern pi name ni;
    if (same : bool) then
      Some (GlobContinue (GlobState (pi + 1) (ni + 1) star_pi star_ni star_is_dd))
    else if negb (star_pi =? k_no_star)%N then
      blocked ← single_and_dot star_is_dd name star_ni;
      if (blocked : bool) then Some (GlobReturn false)
      else
        let star_ni := (star_ni + 1)%N in
        crossed ← (if ((star_ni <=? nlen)%N && (0 <? star_ni)%N)%bool
                   then single_and_dot star_is_dd name (star_ni - 1) else Some false);
        if (crossed : bool) then Some (GlobReturn false)
        else Some (GlobContinue
                     (GlobState (star_pi + star_width star_is_dd) star_ni
                        star_pi star_ni star_is_dd))
    else Some (GlobReturn false).

(** The trailing loop: "Consume trailing '*' / '**' in pattern". *)
Fixpoint glob_trail (fuel : nat) (pattern : chars) (pi : N) : option N :=
  match fuel with
  | O => None
  | S fuel =>
      at_star ← in_range_and_is pattern pi c_star;
      if (at_star : bool) then
        is_double ← in_range_and_is pattern (pi + 1) c_star;
        glob_trail fuel pattern (pi + star_width is_double)
      else Some pi
  end.

(** The main loop, then the trailing one; [None] is running out of fuel or a
    read out of bounds, and [glob_loop_total] shows that neither happens. *)
Fixpoint glob_loop (fuel : nat) (pattern name : chars) (s : glob_state) : option bool :=
  if (gs_ni s <? size name)%N then
    match fuel with
    | O => None
    | S fuel =>
        next ← glob_step pattern name s;
        match next with
        | GlobContinue s' => glob_loop fuel pattern name s'
        | GlobReturn b => Some b
        end
    end
  else
    pi ← glob_trail (S (length pattern)) pattern (gs_pi s);
    Some (pi =? size pattern)%N.

(** Enough iterations for every pattern and name: see [glob_loop_total]. *)
Definition glob_fuel (pattern name : chars) : nat :=
  ((length pattern + 1) * (length name + 1) + length name + 1)
  * (length pattern + length name + 1).

Definition glob_match_impl (pattern name : chars) : option bool :=
  glob_loop (glob_fuel pattern name) pattern name glob_init.

(** The class [Glob] owns its pattern; [matches] and the static [match] both call
    the matcher. *)
Record Glob := MkGlob { storage : string }.

Definition Glob_matches (g : Glob) (name : string) : bool :=
  default false (glob_match_impl (to_chars (storage g)) (to_chars name)).

Definition Glob_pattern (g : Glob) : string := storage g.

Definition Glob_match (pattern name : string) : bool :=
  default false (glob_match_impl (to_chars pattern) (to_chars name)).

(** ** The reference: tokens and the relation [matches] *)

Inductive tok :=
  | TLit (c : Ascii.ascii)
  | TStar      (* [*] *)
  | TDStar.    (* [**] *)

Definition star_tok (is_double : bool) : tok := if is_double then TDStar else TStar.

Fixpoint tokenize (p : chars) : list tok :=
  match p with
  | [] => []
  | c :: p' =>
      if Ascii.eqb c c_star then
        match p' with
        | [] => [TStar]
        | c2 :: p'' => if Ascii.eqb c2 c_star then TDStar :: tokenize p'' else TStar :: tokenize p'
        end
      else TLit c :: tokenize p'
  end.

Definition dot_free (s : chars) : Prop := c_dot ∉ s.

(** "[*] matches any sequence of characters except [.]", "[**] matches any
    sequence including [.]", "anything else matches exactly". *)
Inductive matches : list tok → chars → Prop :=
  | matches_nil : matches [] []
  | matches_lit c ts s : matches ts s → matches (TLit c :: ts) (c :: s)
  | matches_star s1 ts s2 : dot_free s1 → matches ts s2 → matches (TStar :: ts) (s1 ++ s2)
  | matches_dstar s1 ts s2 : matches ts s2 → matches (TDStar :: ts) (s1 ++ s2).

(** No [*] to the right of a [**]. *)
Definition is_single (t : tok) : bool := match t with TStar => true | _ => false end.

Fixpoint ordered (ts : list tok) : bool :=
  match ts with
  | [] => true
  | TDStar :: ts => forallb (negb ∘ is_single) ts && ordered ts
  | _ :: ts => ordered ts
  end.

(** *** Lemmas on [matches] *)

Lemma matches_star_tok d ts s :
  matches (star_tok d :: ts) s ↔
  ∃ s1 s2, s = s1 ++ s2 ∧ (d = false → dot_free s1) ∧ matches ts s2.
Proof.
  split.
  - intros Hm. destruct d; inversion Hm as [| |s1 ? s2|s1 ? s2]; subst; exists s1, s2; by split_and!.
  - intros (s1 & s2 & -> & Hd & Hm). destruct d; constructor; auto.
Qed.

Lemma matches_star_skip d ts s : matches ts s → matches (star_tok d :: ts) s.
Proof.
  intros Hm. apply matches_star_tok. exists [], s.
  split_and!; [done|intros _; apply not_elem_of_nil|done].
Qed.

(** Widening a star to the left. *)
Lemma matches_star_absorb d ts v s :
  (d = false → dot_free v) →
  matches (star_tok d :: ts) s → matches (star_tok d :: ts) (v ++ s).
Proof.
  intros Hv (s1 & s2 & -> & Hs1 & Hm)%matches_star_tok. apply matches_star_tok.
  exists (v ++ s1), s2. split_and!; [by rewrite app_assoc| |done].
  intros Hd [?|?]%elem_of_app; [by eapply Hv|by eapply Hs1].
Qed.

Lemma matches_star_unfold d ts s :
  matches (star_tok d :: ts) s ↔
  matches ts s ∨ ∃ c s', s = c :: s' ∧ (d = true ∨ c ≠ c_dot) ∧ matches (star_tok d :: ts) s'.
Proof.
  split.
  - intros (s1 & s2 & -> & Hd & Hm)%matches_star_tok. destruct s1 as [|c s1]; [by left|].
    right. exists c, (s1 ++ s2). split_and!; [done| |].
    + destruct d; [by left|]. right. intros Hc. apply (Hd eq_refl).
      apply elem_of_cons. by left.
    + apply matches_star_tok. exists s1, s2. split_and!; [done| |done].
      intros Hf Hc. apply (Hd Hf). apply elem_of_cons. by right.
  - intros [Hm|(c & s' & -> & Hd & Hm)]; [by apply matches_star_skip|].
    apply (matches_star_absorb d ts [c]); [|done].
    intros -> [Hc|Hc]%elem_of_cons; [by destruct Hd|by apply not_elem_of_nil in Hc].
Qed.

Lemma matches_lits L ts s :
  matches ((TLit <$> L) ++ ts) s ↔ ∃ s', s = L ++ s' ∧ matches ts s'.
Proof.
  revert s. induction L as [|c L IH]; intros s; simpl.
  { split; [by exists s|by intros (? & -> & ?)]. }
  split.
  - intros Hm. inversion Hm as [|? ? ? Hm'| |]; subst.
    apply IH in Hm' as (s' & -> & ?). by exists s'.
  - intros (s' & -> & Hm). constructor. apply IH. eauto.
Qed.

Lemma matches_lits_only L s : matches (TLit <$> L) s ↔ s = L.
Proof.
  rewrite <- (app_nil_r (TLit <$> L)), matches_lits. split.
  - intros (s' & -> & Hm). inversion Hm. apply app_nil_r.
  - intros ->. exists []. split; [by rewrite app_nil_r|constructor].
Qed.

(** If shifting [L] to the right by the dot-free [y] uncovers [v], then [v] is
    dot-free: every character of [v] comes from [y]. *)
Lemma shift_dot_free (n : nat) y L v :
  length L ≤ n → y ≠ [] → dot_free y → y ++ L = L ++ v → dot_free v.
Proof.
  revert L. induction n as [|n IH]; intros L Hn Hy Hd Heq;
    apply app_eq_inv in Heq as [(k & -> & ->)|(k & HL & HL')].
  1,3: intros [Hv|Hv]%elem_of_app; apply Hd, elem_of_app; auto.
  - assert (length L = length y + length k) as Hlen by (subst; apply length_app).
    destruct y; simpl in *; [done|lia].
  - assert (length L = length y + length k) as Hlen by (by rewrite HL, length_app).
    apply (IH k); [|done|done|congruence]. destruct y; simpl in *; [done|lia].
Qed.

(** The step that makes one backtracking point enough: while an earlier star is
    followed by the literals [L], any later position of [L] can be exchanged for
    the current one when the next token is a star that absorbs the difference. *)
Lemma matches_exchange d1 d2 L ts x text' t :
  (d1 = true → d2 = true) →
  x :: text' = L ++ t →
  (d1 = true ∨ x ≠ c_dot) →
  matches (star_tok d1 :: (TLit <$> L) ++ star_tok d2 :: ts) text' →
  matches (star_tok d2 :: ts) t.
Proof.
  intros Hord Htext Hx (s1 & s2 & -> & Hs1 & (u & -> & Hu)%matches_lits)%matches_star_tok.
  assert (∃ v, t = v ++ u ∧ (x :: s1) ++ L = L ++ v) as (v & -> & Hv).
  { assert ((x :: s1) ++ L ++ u = L ++ t) as Heq by done.
    exists (drop (length L) ((x :: s1) ++ L)). 
    assert (t = drop (length L) ((x :: s1) ++ L ++ u)) as -> by (by rewrite Heq, drop_app_length).
    assert (take (length L) ((x :: s1) ++ L) = L) as HL.
    { apply (f_equal (take (length L))) in Heq. rewrite take_app_length in Heq.
      rewrite app_assoc, take_app_le in Heq; [done|]. rewrite length_app. simpl. lia. }
    split.
    - rewrite app_assoc, drop_app_le; [done|]. rewrite length_app. simpl. lia.
    - rewrite <- HL at 2. by rewrite take_drop. }
  apply matches_star_absorb; [|done]. intros ->.
  apply (shift_dot_free (length L) (x :: s1) L v); [lia|done| |done].
  destruct d1; [by discriminate Hord|].
  intros [Hc|Hc]%elem_of_cons; [by destruct Hx|by apply (Hs1 eq_refl)].
Qed.

(** *** Tokens and text left at an index *)

Definition toks_at (p : chars) (i : N) : list tok := tokenize (drop (N.to_nat i) p).
Definition text_at (s : chars) (i : N) : chars := drop (N.to_nat i) s.

Lemma text_at_read s i c :
  read s i = Some c → text_at s i = c :: text_at s (i + 1) ∧ (i + 1 ≤ size s)%N.
Proof.
  unfold read, text_at, size. intros Hc. split.
  - replace (N.to_nat (i + 1)) with (S (N.to_nat i)) by lia. by apply drop_lookup_cons.
  - apply lookup_lt_Some in Hc. lia.
Qed.

Lemma text_at_end s i : (size s ≤ i)%N → text_at s i = [].
Proof. unfold text_at, size. intros. apply drop_ge. lia. Qed.

Lemma read_in_range s i : (i < size s)%N → ∃ c, read s i = Some c.
Proof. unfold read, size. intros. apply lookup_lt_is_Some. lia. Qed.

Lemma in_range_and_is_true s i c :
  in_range_and_is s i c = Some true → read s i = Some c.
Proof.
  unfold in_range_and_is. case_match; [|done].
  destruct (read s i) as [c'|]; simpl; intros [= Heq]; f_equal. by apply Ascii.eqb_eq.
Qed.

Lemma in_range_and_is_total s i c : is_Some (in_range_and_is s i c).
Proof.
  unfold in_range_and_is. case_match eqn:Hlt; [|by eexists].
  apply N.ltb_lt in Hlt. destruct (read_in_range s i Hlt) as [c' ->]. by eexists.
Qed.

Lemma in_range_and_is_false s i c :
  in_range_and_is s i c = Some false →
  (size s ≤ i)%N ∨ ∃ c', read s i = Some c' ∧ c' ≠ c.
Proof.
  unfold in_range_and_is. case_match eqn:Hlt.
  - destruct (read s i) as [c'|]; simpl; intros [= Heq]. right.
    exists c'. split; [done|]. by apply Ascii.eqb_neq.
  - intros _. left. by apply N.ltb_ge.
Qed.

Lemma toks_at_star p i is_double :
  in_range_and_is p i c_star = Some true →
  in_range_and_is p (i + 1) c_star = Some is_double →
  toks_at p i = star_tok is_double :: toks_at p (i + star_width is_double)
  ∧ (i + star_width is_double ≤ size p)%N.
Proof.
  intros [Hi Hle]%in_range_and_is_true%text_at_read Hd.
  unfold toks_at. fold (text_at p i). rewrite Hi. cbn [tokenize].
  replace (Ascii.eqb c_star c_star) with true by done.
  destruct is_double; simpl.
  - apply in_range_and_is_true, text_at_read in Hd as [-> Hle'].
    replace (Ascii.eqb c_star c_star) with true by done.
    replace (i + 2)%N with (i + 1 + 1)%N by lia. done.
  - split; [|done]. apply in_range_and_is_false in Hd as [Hd|(c' & Hc' & Hne)].
    + fold (text_at p (i + 1)). by rewrite text_at_end.
    + apply text_at_read in Hc' as [Hc' _]. fold (text_at p (i + 1)). rewrite Hc'.
      apply Ascii.eqb_neq in Hne. by rewrite Hne.
Qed.

Lemma toks_at_lit p i c :
  read p i = Some c → c ≠ c_star →
  toks_at p i = TLit c :: toks_at p (i + 1) ∧ (i + 1 ≤ size p)%N.
Proof.
  intros [Hi Hle]%text_at_read Hne. split; [|done].
  unfold toks_at. fold (text_at p i). rewrite Hi. cbn [tokenize].
  apply Ascii.eqb_neq in Hne. by rewrite Hne.
Qed.

Lemma toks_at_end p i : (size p ≤ i)%N → toks_at p i = [].
Proof. unfold toks_at. intros. fold (text_at p i). by rewrite text_at_end. Qed.

(** *** One iteration, by cases *)

(** The current characters cannot be matched: the pattern is exhausted or its
    next literal differs from the next character of the name. *)
Definition stuck (p name : chars) (s : glob_state) : Prop :=
  toks_at p (gs_pi s) = [] ∨
  ∃ c c' ts, toks_at p (gs_pi s) = TLit c :: ts ∧ read name (gs_ni s) = Some c' ∧ c ≠ c'.

Inductive glob_case (p name : chars) : glob_state → glob_next → Prop :=
  | case_star d pi ni spi sni sd :
      toks_at p pi = star_tok d :: toks_at p (pi + star_width d) →
      (pi + star_width d ≤ size p)%N →
      glob_case p name (GlobState pi ni spi sni sd)
        (GlobContinue (GlobState (pi + star_width d) ni pi ni d))
  | case_lit c pi ni spi sni sd :
      toks_at p pi = TLit c :: toks_at p (pi + 1) →
      (pi + 1 ≤ size p)%N →
      read name ni = Some c →
      glob_case p name (GlobState pi ni spi sni sd)
        (GlobContinue (GlobState (pi + 1) (ni + 1) spi sni sd))
  | case_fail pi ni sni sd :
      stuck p name (GlobState pi ni k_no_star sni sd) →
      glob_case p name (GlobState pi ni k_no_star sni sd) (GlobReturn false)
  | case_blocked pi ni spi sni :
      stuck p name (GlobState pi ni spi sni false) →
      read name sni = Some c_dot →
      glob_case p name (GlobState pi ni spi sni false) (GlobReturn false)
  | case_backtrack c pi ni spi sni sd :
      stuck p name (GlobState pi ni spi sni sd) →
      spi ≠ k_no_star →
      read name sni = Some c →
      (sd = true ∨ c ≠ c_dot) →
      glob_case p name (GlobState pi ni spi sni sd)
        (GlobContinue (GlobState (spi + star_width sd) (sni + 1) spi (sni + 1) sd)).

(** The shape of the states of the loop: the indices are in range and, once a
    star has been seen, the literals since then are the text since [star_ni]. *)
Record glob_wf (p name : chars) (s : glob_state) : Prop := {
  wf_pi : (gs_pi s ≤ size p)%N;
  wf_ni : (gs_ni s ≤ size name)%N;
  wf_star : gs_star_pi s ≠ k_no_star →
    (gs_star_pi s < gs_pi s)%N ∧ (gs_star_ni s ≤ gs_ni s)%N ∧
    toks_at p (gs_star_pi s) =
      star_tok (gs_star_is_dd s) :: toks_at p (gs_star_pi s + star_width (gs_star_is_dd s)) ∧
    (gs_star_pi s + star_width (gs_star_is_dd s) ≤ size p)%N ∧
    ∃ L, toks_at p (gs_star_pi s + star_width (gs_star_is_dd s)) =
           (TLit <$> L) ++ toks_at p (gs_pi s) ∧
         text_at name (gs_star_ni s) = L ++ text_at name (gs_ni s);
}.

Lemma glob_step_case p name s :
  glob_wf p name s → (gs_ni s < size name)%N →
  ∃ next, glob_step p name s = Some next ∧ glob_case p name s next.
Proof.
  destruct s as [pi ni spi sni sd]; simpl. intros Hwf Hni.
  destruct (read_in_range name ni Hni) as [cn Hcn].
  unfold glob_step.
  destruct (in_range_and_is_total p pi c_star) as [at_star Hat]. rewrite Hat. simpl.
  destruct at_star.
  { destruct (in_range_and_is_total p (pi + 1) c_star) as [d Hd]. rewrite Hd. simpl.
    destruct (toks_at_star p pi d Hat Hd). eexists. split; [done|by constructor]. }
  assert ((∃ c, in_range_and_same p pi name ni = Some true ∧ read p pi = Some c
                ∧ c ≠ c_star ∧ cn = c) ∨
          (in_range_and_same p pi name ni = Some false ∧
           stuck p name (GlobState pi ni spi sni sd))) as [(c & Hs & Hc & Hne & ->)|[Hs Hstuck]].
  { unfold in_range_and_same, stuck. simpl.
    apply in_range_and_is_false in Hat as [Hge|(c & Hc & Hne)].
    - right. rewrite (proj2 (N.ltb_ge _ _)) by done. split; [done|]. left.
      by apply toks_at_end.
    - destruct (toks_at_lit p pi c Hc Hne) as [Ht Hle].
      rewrite (proj2 (N.ltb_lt _ _)) by lia. rewrite Hc, Hcn. simpl.
      destruct (Ascii.eqb_spec c cn) as [->|Hcc]; [left; by eexists|].
      right. split; [done|]. right. by exists c, cn, (toks_at p (pi + 1)). }
  - rewrite Hs. simpl. destruct (toks_at_lit p pi c Hc Hne).
    eexists. split; [done|by econstructor].
  - rewrite Hs. simpl. destruct (N.eqb_spec spi k_no_star) as [->|Hstar]; simpl.
    { eexists. split; [done|by constructor]. }
    destruct (wf_star _ _ _ Hwf Hstar) as (_ & Hle & _). simpl in Hle.
    destruct (read_in_range name sni) as [c Hc]; [lia|].
    replace ((sni + 1 <=? size name)%N && (0 <? sni + 1)%N)%bool with true
      by (symmetry; apply andb_true_iff; split; [apply N.leb_le|apply N.ltb_lt]; lia).
    replace (sni + 1 - 1)%N with sni by lia.
    unfold single_and_dot. destruct sd; simpl.
    { eexists. split; [done|]. eapply case_backtrack; eauto. }
    rewrite Hc. simpl. destruct (Ascii.eqb_spec c c_dot) as [->|Hdot]; simpl.
    + eexists. split; [done|by apply case_blocked].
    + eexists. split; [done|]. eapply case_backtrack; eauto.
Qed.

Lemma glob_wf_init p name : glob_wf p name glob_init.
Proof. split; simpl; [lia|lia|done]. Qed.

Lemma star_width_pos d : (0 < star_width d)%N.
Proof. by destruct d. Qed.

Lemma glob_wf_step p name s s' :
  (gs_ni s < size name)%N → glob_wf p name s → glob_case p name s (GlobContinue s') →
  glob_wf p name s'.
Proof.
  intros Hni [Hpi Hni' Hstar] Hcase. inversion Hcase; subst; simpl in *.
  - (* a new star *)
    split; simpl; [done|done|]. intros _. pose proof (star_width_pos d).
    split_and!; [lia|lia|done|done|]. by exists [].
  - (* a literal *)
    destruct (text_at_read name ni c) as [Htext Hle]; [done|].
    split; simpl; [done|done|]. intros (?&?&?&?&L & HL & HL')%Hstar.
    split_and!; [lia|lia|done|done|]. exists (L ++ [c]).
    rewrite HL, HL', Htext, fmap_app, <- !app_assoc. split; [|done]. by f_equal.
  - (* backtracking *)
    destruct (text_at_read name sni c) as [Htext Hle]; [done|].
    destruct Hstar as (?&?&?&?&_); [done|]. pose proof (star_width_pos sd).
    split; simpl; [done|done|]. intros _. split_and!; [lia|lia|done|done|]. by exists [].
Qed.

(** *** Termination, and absence of out-of-bounds reads *)

Definition glob_measure (p name : chars) (s : glob_state) : nat :=
  let seen := if (gs_star_pi s =? k_no_star)%N then O else S (N.to_nat (gs_star_pi s)) in
  let text := if (gs_star_pi s =? k_no_star)%N then length name
              else length name - N.to_nat (gs_star_ni s) in
  ((length p - seen) * (length name + 1) + text) * (length p + length name + 1)
  + ((length p - N.to_nat (gs_pi s)) + (length name - N.to_nat (gs_ni s))).

Lemma lex3_lt (a a' b b' c c' nb nc : nat) :
  b' ≤ nb → c' ≤ nc →
  a' < a ∨ (a' = a ∧ (b' < b ∨ (b' = b ∧ c' < c))) →
  (a' * (nb + 1) + b') * (nc + 1) + c' < (a * (nb + 1) + b) * (nc + 1) + c.
Proof. intros ?? [?|[-> [?|[-> ?]]]]; nia. Qed.

Lemma glob_measure_step p name s s' :
  (size p ≤ k_no_star)%N →
  (gs_ni s < size name)%N → glob_wf p name s → glob_case p name s (GlobContinue s') →
  glob_measure p name s' < glob_measure p name s.
Proof.
  intros Hp Hni Hwf Hcase. pose proof (glob_wf_step _ _ _ _ Hni Hwf Hcase) as Hwf'.
  destruct Hwf as [Hpi Hni' Hstar], Hwf' as [Hpi' Hni'' Hstar'].
  unfold size in *. inversion Hcase; subst; simpl in *; unfold glob_measure; simpl;
    apply lex3_lt; try lia.
  - destruct (N.eqb_spec pi k_no_star); lia.
  - pose proof (star_width_pos d). left.
    destruct (N.eqb_spec pi k_no_star); [lia|].
    destruct (N.eqb_spec spi k_no_star) as [|Hspi]; [lia|].
    destruct (Hstar Hspi) as (?&_). lia.
  - destruct (N.eqb_spec spi k_no_star); lia.
  - destruct (N.eqb_spec spi k_no_star); lia.
  - destruct (N.eqb_spec spi k_no_star) as [|Hspi]; [done|].
    destruct (text_at_read name sni c) as [_ ?]; [done|]. unfold size in *.
    destruct (Hstar Hspi) as (?&?&?). right. split; [done|]. left. lia.
Qed.

Lemma glob_measure_init p name : glob_measure p name glob_init < glob_fuel p name.
Proof. unfold glob_measure, glob_fuel. simpl. nia. Qed.

(** *** The trailing loop *)

Lemma glob_trail_total fuel p pi :
  length p - N.to_nat pi < fuel → (pi ≤ size p)%N →
  ∃ pi', glob_trail fuel p pi = Some pi' ∧ (matches (toks_at p pi) [] ↔ pi' = size p).
Proof.
  revert pi. induction fuel as [|fuel IH]; intros pi Hfuel Hpi; [lia|]. simpl.
  destruct (in_range_and_is_total p pi c_star) as [at_star Hat]. rewrite Hat. simpl.
  destruct at_star.
  - destruct (in_range_and_is_total p (pi + 1) c_star) as [d Hd]. rewrite Hd. simpl.
    destruct (toks_at_star p pi d Hat Hd) as [Ht Hle]. pose proof (star_width_pos d).
    destruct (IH (pi + star_width d)%N) as (pi' & Hpi' & Hm); [unfold size in *; lia|done|].
    exists pi'. split; [done|]. rewrite <- Hm, Ht, matches_star_unfold.
    split; [intros [?|(? & ? & ? & _)]; [done|discriminate]|by left].
  - exists pi. split; [done|].
    apply in_range_and_is_false in Hat as [Hge|(c & Hc & Hne)].
    + rewrite toks_at_end by done. split; [lia|constructor].
    + destruct (toks_at_lit p pi c Hc Hne) as [-> Hle].
      split; [intros Hm; inversion Hm|lia].
Qed.

(** *** Induction along the loop

    A relation between the states and the results that each iteration preserves
    and that the exit of the loop establishes holds of the result. *)
Section glob_loop_ind.
Context (p name : chars) (Hp : (size p ≤ k_no_star)%N).
Context (I : glob_state → Prop) (Q : bool → Prop).
Hypothesis I_step : ∀ s s', (gs_ni s < size name)%N → glob_wf p name s → I s →
  glob_case p name s (GlobContinue s') → I s'.
Hypothesis I_return : ∀ s b, (gs_ni s < size name)%N → glob_wf p name s → I s →
  glob_case p name s (GlobReturn b) → Q b.
Hypothesis I_exit : ∀ s b, gs_ni s = size name → glob_wf p name s → I s →
  (matches (toks_at p (gs_pi s)) [] ↔ b = true) → Q b.

Lemma glob_loop_ind fuel s :
  glob_measure p name s < fuel → glob_wf p name s → I s →
  ∃ b, glob_loop fuel p name s = Some b ∧ Q b.
Proof using All.
  revert s. induction fuel as [|fuel IH]; intros s Hfuel Hwf HI; [lia|]. simpl.
  destruct (N.ltb_spec (gs_ni s) (size name)) as [Hni|Hni].
  - destruct (glob_step_case p name s Hwf Hni) as (next & -> & Hcase). simpl.
    destruct next as [s'|b].
    + pose proof (glob_measure_step _ _ _ _ Hp Hni Hwf Hcase).
      apply IH; [lia|by eapply glob_wf_step|by eapply I_step].
    + exists b. split; [done|by eapply I_return].
  - destruct Hwf as [Hpi Hni' Hstar] eqn:Hwf'.
    destruct (glob_trail_total (S (length p)) p (gs_pi s)) as (pi' & Htrail & Hm); [lia|done|].
    cbn [glob_trail] in Htrail. rewrite Htrail. simpl. eexists. split; [done|].
    eapply (I_exit s); [lia|done|done|]. by rewrite Hm, N.eqb_eq.
Qed.
End glob_loop_ind.

(** ** Soundness and completeness *)

Section sound.
Context (p name : chars).

Definition glob_sound_inv (s : glob_state) : Prop :=
  (matches (toks_at p (gs_pi s)) (text_at name (gs_ni s)) → matches (tokenize p) name) ∧
  (gs_star_pi s ≠ k_no_star →
   matches (toks_at p (gs_star_pi s)) (text_at name (gs_star_ni s)) →
   matches (tokenize p) name).

Lemma glob_sound_step s s' :
  glob_wf p name s → glob_sound_inv s → glob_case p name s (GlobContinue s') →
  glob_sound_inv s'.
Proof.
  intros Hwf [Hcur Hback] Hcase. inversion Hcase; subst; simpl in *; split; simpl.
  - intros Hm. apply Hcur. rewrite H0. by apply matches_star_skip.
  - done.
  - intros Hm. apply Hcur. rewrite H0. destruct (text_at_read name ni c) as [-> _]; [done|].
    by constructor.
  - done.
  - intros Hm. apply Hback; [done|].
    destruct (wf_star _ _ _ Hwf) as (_ & _ & Ht & _); [done|]. simpl in Ht. rewrite Ht.
    destruct (text_at_read name sni c) as [-> _]; [done|].
    apply matches_star_unfold. right. eexists _, _. split_and!; [done|done|].
    by apply matches_star_skip.
  - intros _. destruct (wf_star _ _ _ Hwf) as (_ & _ & Ht & _); [done|]. simpl in Ht.
    intros Hm. apply Hback; [done|]. rewrite Ht in Hm |- *.
    destruct (text_at_read name sni c) as [-> _]; [done|].
    apply matches_star_unfold. right. by eexists _, _.
Qed.
End sound.

Lemma ordered_tail t ts : ordered (t :: ts) = true → ordered ts = true.
Proof. destruct t; simpl; [done|done|]. by intros [_ ?]%andb_true_iff. Qed.

Lemma ordered_suffix us ts : ordered (us ++ ts) = true → ordered ts = true.
Proof. induction us as [|u us IH]; simpl; [done|]. intros. by eapply IH, ordered_tail. Qed.

Lemma ordered_double us d1 d2 ts :
  ordered (star_tok d1 :: us ++ star_tok d2 :: ts) = true → d1 = true → d2 = true.
Proof.
  intros Ho ->. simpl in Ho. apply andb_true_iff in Ho as [Ho _].
  rewrite forallb_app in Ho. apply andb_true_iff in Ho as [_ Ho]. by destruct d2.
Qed.

Section complete.
Context (p name : chars).

Definition later_star (s : glob_state) : Prop :=
  gs_star_pi s ≠ k_no_star ∧ ∃ c text,
    text_at name (gs_star_ni s) = c :: text ∧
    (gs_star_is_dd s = true ∨ c ≠ c_dot) ∧
    matches (toks_at p (gs_star_pi s)) text.

Record glob_complete_inv (s : glob_state) : Prop := {
  ci_ordered : ordered (toks_at p (gs_pi s)) = true;
  ci_ordered_star : gs_star_pi s ≠ k_no_star → ordered (toks_at p (gs_star_pi s)) = true;
  ci_match : matches (toks_at p (gs_pi s)) (text_at name (gs_ni s)) ∨ later_star s;
}.

(** A match that starts at a later position of the last star still needs at
    least as much text as the current one: it cannot have reached the end. *)
Lemma later_star_not_at_end s :
  glob_wf p name s → later_star s → gs_ni s ≠ size name.
Proof.
  intros Hwf (Hstar & c & text & Htext & _ & Hm) Hend.
  destruct (wf_star _ _ _ Hwf Hstar) as (_ & _ & Ht & _ & L & HL & HL').
  rewrite Ht, HL in Hm.
  apply matches_star_tok in Hm as (s1 & s2 & -> & _ & (u & -> & _)%matches_lits).
  rewrite Hend, (text_at_end name (size name)), app_nil_r, Htext in HL' by lia.
  apply (f_equal length) in HL'. simpl in HL'. rewrite !length_app in HL'. lia.
Qed.

Lemma stuck_no_match s :
  (gs_ni s < size name)%N → stuck p name s →
  ¬ matches (toks_at p (gs_pi s)) (text_at name (gs_ni s)).
Proof.
  intros Hni [Hnil|(c & c' & ts & -> & Hc' & Hne)] Hm.
  - destruct (read_in_range name _ Hni) as [cn [Htext _]%text_at_read].
    rewrite Hnil, Htext in Hm. inversion Hm.
  - apply text_at_read in Hc' as [Htext _]. rewrite Htext in Hm. by inversion Hm.
Qed.

Lemma glob_complete_step s s' :
  (size p ≤ k_no_star)%N →
  (gs_ni s < size name)%N → glob_wf p name s → glob_complete_inv s →
  glob_case p name s (GlobContinue s') → glob_complete_inv s'.
Proof.
  intros Hp Hni Hwf [Ho Hos Hm] Hcase. inversion Hcase; subst; simpl in *.
  - (* a new star: the old one is never needed again *)
    split; simpl; [rewrite H0 in Ho; by eapply ordered_tail|done|].
    assert (matches (toks_at p pi) (text_at name ni)) as Hcur.
    { destruct Hm as [Hm|(Hstar & c & text & Htext & Hc & Hm)]; [done|]. simpl in *.
      destruct (wf_star _ _ _ Hwf Hstar) as (_ & _ & Ht & _ & L & HL & HL'). simpl in *.
      specialize (Hos Hstar). rewrite Ht, HL, H0 in Hos, Hm. rewrite H0.
      apply (matches_exchange sd d L _ c text); [|congruence|done|done].
      by eapply ordered_double. }
    rewrite H0 in Hcur. apply matches_star_unfold in Hcur as [?|(c & text & ? & ? & ?)];
      [by left|]. right. pose proof (star_width_pos d).
    split; simpl; [lia|]. exists c, text. by rewrite H0.
  - (* a literal *)
    rewrite H0 in Ho. split; simpl; [by eapply ordered_tail|done|].
    destruct Hm as [Hm|Hm]; [left|by right].
    destruct (text_at_read name ni c) as [Htext _]; [done|]. rewrite H0, Htext in Hm.
    by inversion Hm.
  - (* backtracking *)
    destruct (wf_star _ _ _ Hwf) as (_ & _ & Ht & _ & _); [done|]. simpl in Ht.
    specialize (Hos H1). pose proof Hos as Ho'. rewrite Ht in Ho'.
    split; simpl; [by eapply ordered_tail|done|].
    destruct Hm as [Hm|(_ & c' & text & Htext & Hc & Hm)].
    + by apply (stuck_no_match (GlobState pi ni spi sni sd)) in Hm.
    + simpl in *. destruct (text_at_read name sni c) as [Htext' _]; [done|].
      rewrite Htext' in Htext. simplify_eq. rewrite Ht in Hm.
      apply matches_star_unfold in Hm as [?|(c2 & text & ? & ? & ?)]; [by left|].
      right. split; [done|]. exists c2, text. simpl. by rewrite Ht.
Qed.
End complete.

(** The matcher on character sequences: total, sound, and complete for ordered
    patterns. *)
Lemma glob_match_impl_spec p name :
  (size p ≤ k_no_star)%N →
  ∃ b, glob_match_impl p name = Some b ∧
       (b = true → matches (tokenize p) name) ∧
       (ordered (tokenize p) = true → matches (tokenize p) name → b = true).
Proof.
  intros Hp. pose proof (glob_measure_init p name) as Hfuel.
  destruct (glob_loop_ind p name Hp (glob_sound_inv p name)
              (λ b, b = true → matches (tokenize p) name))
    with (fuel := glob_fuel p name) (s := glob_init) as (b & Hb & Hsound);
    [intros; by eapply glob_sound_step|by inversion 4| |done|apply glob_wf_init| |].
  { intros s b Hend Hwf [Hcur _] Hb Htrue. apply Hcur. rewrite Hend, text_at_end by done.
    by apply Hb. }
  { split; [done|]. by intros []. }
  exists b. split_and!; [done|done|]. intros Ho Hm.
  destruct (glob_loop_ind p name Hp (glob_complete_inv p name) (λ b, b = true))
    with (fuel := glob_fuel p name) (s := glob_init) as (b' & Hb' & Hcomplete);
    [intros; by eapply glob_complete_step| | |done|apply glob_wf_init| |congruence].
  - (* a rejection in the middle of the name contradicts the invariant *)
    intros s b0 Hni Hwf [_ _ [Hs|Hs]] Hcase; inversion Hcase; subst.
    + by eapply stuck_no_match in Hs.
    + by eapply stuck_no_match in Hs.
    + by destruct Hs as [Hs _].
    + destruct Hs as (_ & c & text & Htext & [Hd|Hd] & _); [done|]. simpl in *.
      destruct (text_at_read name sni c_dot) as [Htext' _]; [done|]. congruence.
  - intros s b0 Hend Hwf [_ _ [Hs|Hs]] Hb0.
    + apply Hb0. by rewrite Hend, text_at_end in Hs.
    + by eapply later_star_not_at_end in Hs.
  - split; [done|by intros []|by left].
Qed.

(** ** Properties of [Glob::match] *)

Lemma size_to_chars s : size (to_chars s) = N.of_nat (String.length s).
Proof. unfold size. f_equal. induction s; simpl; congruence. Qed.

(** [std::string_view::size()] fits a [std::size_t]. *)
Definition fits_size_t (s : string) : Prop := (N.of_nat (String.length s) ≤ k_no_star)%N.

Lemma Glob_match_spec pattern name :
  fits_size_t pattern →
  (Glob_match pattern name = true → matches (tokenize (to_chars pattern)) (to_chars name)) ∧
  (ordered (tokenize (to_chars pattern)) = true →
   matches (tokenize (to_chars pattern)) (to_chars name) → Glob_match pattern name = true).
Proof.
  unfold fits_size_t, Glob_match. rewrite <- size_to_chars. intros Hp.
  by destruct (glob_match_impl_spec _ (to_chars name) Hp) as (b & -> & ? & ?).
Qed.

Lemma to_chars_inj s t : to_chars s = to_chars t → s = t.
Proof.
  intros Heq%(f_equal String.string_of_list_ascii). unfold to_chars in Heq.
  by rewrite !String.string_of_list_ascii_of_string in Heq.
Qed.

Lemma tokenize_literal p : c_star ∉ p → tokenize p = TLit <$> p.
Proof.
  induction p as [|c p IH]; intros Hp; [done|]. apply not_elem_of_cons in Hp as [Hc Hp].
  simpl. apply not_eq_sym, Ascii.eqb_neq in Hc. by rewrite Hc, IH.
Qed.

Lemma ordered_lits p : ordered (TLit <$> p) = true.
Proof. by induction p. Qed.

(** Every single-star token list without [**] is ordered, and so is every list
    without [*]. *)
Lemma ordered_no_double ts : TDStar ∉ ts → ordered ts = true.
Proof.
  induction ts as [|t ts IH]; intros Ht; [done|]. apply not_elem_of_cons in Ht as [Hn Ht].
  destruct t; simpl; auto.
Qed.

(** C34: the matcher terminates on every pattern and name within [glob_fuel]
    iterations and never reads out of bounds ([None] in the model stands for
    either).

    *)
Theorem glob_match_total (pattern name : string) :
  fits_size_t pattern →
  ∃ b, glob_match_impl (to_chars pattern) (to_chars name) = Some b.
Proof.
  unfold fits_size_t. rewrite <- size_to_chars. intros Hp.
  destruct (glob_match_impl_spec _ (to_chars name) Hp) as (b & Hb & _). by exists b.
Qed.

Lemma glob_match_total_witness :
  ∃ b, glob_match_impl (to_chars "a.*.b**") (to_chars "a.x.b.c") = Some b.
Proof. apply (glob_match_total "a.*.b**" "a.x.b.c"). vm_compute. discriminate. Defined.

(** Whatever the matcher accepts is a match under the documented reading of
    the pattern: [*] within a segment, [**] across segments. *)
Lemma glob_match_sound (pattern name : string) :
  fits_size_t pattern → Glob_match pattern name = true →
  matches (tokenize (to_chars pattern)) (to_chars name).
Proof. intros Hp. by apply Glob_match_spec. Qed.

Lemma glob_match_sound_witness :
  matches (tokenize (to_chars "order.*.status")) (to_chars "order.payment.status").
Proof. apply glob_match_sound; [vm_compute; discriminate|vm_compute; reflexivity]. Defined.

(** C33: for patterns in which no [*] follows a [**], the iterative matcher with
    one backtracking point decides the documented relation exactly. *)
Theorem glob_match_correct (pattern name : string) :
  fits_size_t pattern → ordered (tokenize (to_chars pattern)) = true →
  Glob_match pattern name = true ↔ matches (tokenize (to_chars pattern)) (to_chars name).
Proof. intros Hp Ho. destruct (Glob_match_spec pattern name Hp). split; auto. Qed.

Lemma glob_match_correct_witness :
  Glob_match "*.created" "a.b.created" = true ↔
  matches (tokenize (to_chars "*.created")) (to_chars "a.b.created").
Proof. apply glob_match_correct; [vm_compute; discriminate|vm_compute; reflexivity]. Defined.

(** A pattern without [*] matches exactly the name it spells: pattern
    listeners and exact-name listeners agree on such patterns. *)
Theorem glob_match_literal (pattern name : string) :
  fits_size_t pattern → c_star ∉ to_chars pattern →
  Glob_match pattern name = bool_decide (pattern = name).
Proof.
  intros Hp Hc. destruct (Glob_match_spec pattern name Hp) as [Hs Hcomp].
  rewrite tokenize_literal, matches_lits_only in Hs, Hcomp by done.
  specialize (Hcomp (ordered_lits _)).
  destruct (Glob_match pattern name); symmetry.
  - apply bool_decide_eq_true_2, to_chars_inj. symmetry. auto.
  - apply bool_decide_eq_false_2. intros ->. by discriminate Hcomp.
Qed.

Lemma glob_match_literal_witness :
  Glob_match "order.created" "order.updated" = bool_decide ("order.created" = "order.updated").
Proof.
  apply glob_match_literal; [vm_compute; discriminate|].
  apply (bool_decide_unpack _). vm_compute. exact I.
Defined.

(** The pattern [**] of a relay without pattern matches every name. *)
Lemma Glob_match_double_star name : Glob_match "**" name = true.
Proof.
  destruct (Glob_match_spec "**" name) as [_ Hc]; [vm_compute; discriminate|].
  apply Hc; [done|]. apply (matches_star_tok true). exists (to_chars name), [].
  split_and!; [by rewrite app_nil_r|done|constructor].
Qed.

(** The single backtracking point makes the matcher incomplete when a [*]
    follows a [**]: it refuses a name that matches (the [**] can take
    ["a.order.b"], the [*] can take ["c"]). *)
Theorem glob_match_incomplete :
  matches (tokenize (to_chars "**.order.*")) (to_chars "a.order.b.order.c") ∧
  Glob_match "**.order.*" "a.order.b.order.c" = false.
Proof.
  split; [|vm_compute; reflexivity]. 
  apply (matches_dstar (to_chars "a.order.b") _ (to_chars ".order.c")).
  repeat constructor.
  apply (matches_star (to_chars "c") [] []); [|constructor].
  apply (bool_decide_unpack _). vm_compute. exact I.
Qed.
