(* ===== verification/EventTypes.v ===== *)
(** * The catalog of event types ([include/conduit/event_type_registry.hpp])

    [EventTypeRegistry] wraps a parcel registry behind a shared mutex; every
    operation is one critical section, so each is a function of the registry. *)

From S2P Require Import Prelude Exceptions External Flags Instances.

(** [s.substr(pos)]: throws when [pos] is past the end. *)
Definition substr (s : string) (pos : nat) : outcome string :=
  if decide (pos ≤ String.length s)
  then Ret (String.substring pos (String.length s - pos) s)
  else Throw (Exn std_exception "basic_string_view::substr").

Section catalog.
Context `{Externals}.

Record EventTypeInfo := MkTypeInfo {
  ti_name : string;
  ti_kind_id : string;
  ti_descriptor : descriptor;
}.

(** [schema()] of the info *)
Definition info_schema (i : EventTypeInfo) : json := desc_to_json (ti_descriptor i).

(** [EventTypeRegistry()] and [add<T>()] *)
Definition new_event_types : registry := reg_default.
Definition et_add (T : event_type) (r : registry) : registry := reg_register_kind r (et_descriptor T).

Definition type_info (d : descriptor) : outcome EventTypeInfo :=
  let kind := desc_kind d in
  name ← substr kind (String.length event_kind_prefix);
  Ret (MkTypeInfo name kind d).

(** The loop of [types()]. *)
Fixpoint types_of (ds : list descriptor) : outcome (list EventTypeInfo) :=
  match ds with
  | [] => Ret []
  | d :: ds =>
      if starts_with event_kind_prefix (desc_kind d) then
        i ← type_info d; out ← types_of ds; Ret (i :: out)
      else types_of ds
  end.

Definition types (r : registry) : outcome (list EventTypeInfo) := types_of (reg_all r).

Definition resolve (r : registry) (name_or_kind : string) : option descriptor :=
  if starts_with event_kind_prefix name_or_kind then reg_find r name_or_kind
  else reg_find r (event_kind_prefix +:+ name_or_kind).

Definition find (r : registry) (name_or_kind : string) : outcome (option EventTypeInfo) :=
  match resolve r name_or_kind with
  | None => Ret None
  | Some d => i ← type_info d; Ret (Some i)
  end.

Definition et_contains (r : registry) (name_or_kind : string) : bool :=
  bool_decide (is_Some (resolve r name_or_kind)).

Definition schema (r : registry) (name_or_kind : string) : outcome json :=
  match resolve r name_or_kind with
  | None => Throw (Exn UnknownEventTypeError
              ("EventTypeRegistry::schema: unknown event type '" +:+ name_or_kind +:+ "'"))
  | Some d => Ret (desc_to_json d)
  end.

(** *** The program-wide catalog

    [global_event_types()] after the [EventTypeRegistrar]s of the types [Ts] ran, in
    this order; and [registered_event_types()]. *)
Definition EventTypeRegistrar (r : registry) (T : event_type) : registry := et_add T r.
Definition global_event_types (Ts : list event_type) : registry :=
  foldl EventTypeRegistrar new_event_types Ts.
Definition registered_event_types (Ts : list event_type) : outcome (list EventTypeInfo) :=
  types (global_event_types Ts).
End catalog.

(** ** Lemmas *)

Lemma substring_all s : String.substring 0 (String.length s) s = s.
Proof. induction s as [|a s IH]; simpl; [done|]. by rewrite IH. Qed.

Lemma substr_prefix p s : substr (p +:+ s) (String.length p) = Ret s.
Proof.
  unfold substr. assert (String.length (p +:+ s) = String.length p + String.length s) as Hlen.
  { induction p as [|a p IH]; simpl; [done|]. by rewrite IH. }
  rewrite decide_True by lia. f_equal. rewrite Hlen.
  replace (String.length p + String.length s - String.length p) with (String.length s) by lia.
  clear Hlen. induction p as [|a p IH]; simpl; [apply substring_all|exact IH].
Qed.

Section lemmas.
Context `{ExternalLaws}.

Lemma type_info_prefix d n :
  desc_kind d = event_kind_prefix +:+ n →
  type_info d = Ret (MkTypeInfo n (event_kind_prefix +:+ n) d).
Proof. intros Hd. unfold type_info. by rewrite Hd, substr_prefix. Qed.

Lemma resolve_kind r n : resolve r (event_kind_prefix +:+ n) = reg_find r (event_kind_prefix +:+ n).
Proof.
  unfold resolve. by rewrite (proj2 (starts_with_spec _ (event_kind_prefix +:+ n)) (ex_intro _ n eq_refl)).
Qed.

Lemma resolve_name r n :
  starts_with event_kind_prefix n = false → resolve r n = reg_find r (event_kind_prefix +:+ n).
Proof. unfold resolve. by intros ->. Qed.

(** The catalog lists exactly the event kinds of the registry, and nothing throws. *)
Lemma types_of_spec ds :
  ∃ out, types_of ds = Ret out ∧
    ∀ i, i ∈ out ↔ ti_descriptor i ∈ ds ∧ desc_kind (ti_descriptor i) = event_kind_prefix +:+ ti_name i ∧
                   ti_kind_id i = event_kind_prefix +:+ ti_name i.
Proof.
  induction ds as [|d ds (out & Hout & Hspec)]; simpl.
  { exists []. split; [done|]. intros i. split; [by intros ?%elem_of_nil|by intros [?%elem_of_nil _]]. }
  destruct (starts_with event_kind_prefix (desc_kind d)) eqn:Hs.
  - apply starts_with_spec in Hs as [n Hn]. rewrite (type_info_prefix d n Hn), Hout. simpl.
    eexists. split; [done|]. intros i. rewrite !elem_of_cons, Hspec. split.
    + intros [->|(? & ? & ?)]; simpl; [|by auto]. split_and!; [by left|done|done].
    + intros ([Hi|Hi] & Hk & Hid); [|by right]. left. destruct i as [n' k' d']. simpl in *. subst.
      rewrite Hn in Hk. apply (f_equal (strip_prefix event_kind_prefix)) in Hk.
      rewrite !strip_prefix_app in Hk. by simplify_eq.
  - exists out. split; [done|]. intros i. rewrite Hspec, elem_of_cons. split; [by intros (? & ? & ?); auto|].
    intros ([Hi|Hi] & Hk & Hid); [|done]. subst d. exfalso.
    apply not_true_iff_false in Hs. apply Hs, starts_with_spec. by eexists.
Qed.

(** What the registrars leave under a kind: the last type with that name. *)
Lemma find_registrars (Ts : list event_type) r k :
  (∀ T, T ∈ Ts → event_kind_prefix +:+ et_name T ≠ k) →
  reg_find (foldl EventTypeRegistrar r Ts) k = reg_find r k.
Proof.
  revert r. induction Ts as [|T Ts IH]; intros r Hk; simpl; [done|].
  rewrite IH by (intros T' HT'; apply Hk; by right).
  apply reg_find_register_ne. rewrite et_desc_kind. intros ->. by eapply (Hk T); [left|].
Qed.

Lemma find_registered Ts r T :
  NoDup (et_name <$> Ts) → T ∈ Ts →
  reg_find (foldl EventTypeRegistrar r Ts) (event_kind_prefix +:+ et_name T) = Some (et_descriptor T).
Proof.
  revert r. induction Ts as [|T' Ts IH]; intros r; simpl; [by intros _ ?%elem_of_nil|].
  intros [Hnew Hnd]%NoDup_cons [->|HT]%elem_of_cons; [|by apply IH].
  rewrite find_registrars.
  - unfold EventTypeRegistrar, et_add. rewrite <- et_desc_kind. apply reg_find_register_eq.
  - intros T'' HT'' Heq. apply (f_equal (strip_prefix event_kind_prefix)) in Heq.
    rewrite !strip_prefix_app in Heq. injection Heq as Heq. apply Hnew.
    rewrite <- Heq. by apply list_elem_of_fmap_2.
Qed.

Lemma registrars_kind_dec (Ts : list event_type) k :
  (∃ T, T ∈ Ts ∧ event_kind_prefix +:+ et_name T = k) ∨
  (∀ T, T ∈ Ts → event_kind_prefix +:+ et_name T ≠ k).
Proof.
  destruct (decide (k ∈ (λ T, event_kind_prefix +:+ et_name T) <$> Ts)) as [Hin|Hout].
  - apply list_elem_of_fmap in Hin as (T & -> & HT). left. by exists T.
  - right. intros T HT <-. apply Hout. by apply (list_elem_of_fmap_2 (λ T, event_kind_prefix +:+ et_name T)).
Qed.
End lemmas.

(** ** Theorems *)

(** Static initialisation order does not matter: when no two event types share a name,
    the program-wide catalog resolves every name to the same descriptor in whatever
    order the registrars of the translation units ran, every registered type is
    listed, and listing never throws. *)
Theorem static_catalog_any_order `{ExternalLaws} (Ts Ts' : list event_type) :
  NoDup (et_name <$> Ts) → Ts ≡ₚ Ts' →
  (∀ k, reg_find (global_event_types Ts) k = reg_find (global_event_types Ts') k) ∧
  ∃ infos, registered_event_types Ts = Ret infos ∧
    ∀ T, T ∈ Ts → MkTypeInfo (et_name T) (event_kind_prefix +:+ et_name T) (et_descriptor T) ∈ infos.
Proof.
  intros Hnd Hperm. assert (NoDup (et_name <$> Ts')) as Hnd' by by rewrite <- Hperm.
  unfold global_event_types. split.
  - intros k. destruct (registrars_kind_dec Ts k) as [(T & HT & <-)|Hk].
    + rewrite !find_registered; [done|done|by rewrite <- Hperm|done|done].
    + rewrite !find_registrars; [done| |done]. intros T HT. apply Hk. by rewrite Hperm.
  - unfold registered_event_types, types.
    destruct (types_of_spec (reg_all (global_event_types Ts))) as (infos & Htypes & Hspec).
    exists infos. split; [done|]. intros T HT. apply Hspec. simpl. split_and!; [|apply et_desc_kind|done].
    apply reg_all_find. rewrite et_desc_kind. by apply find_registered.
Qed.

Lemma static_catalog_any_order_witness :
  (∀ k, reg_find (global_event_types [sample_type "order"; sample_type "tick"]) k =
        reg_find (global_event_types [sample_type "tick"; sample_type "order"]) k) ∧
  ∃ infos, registered_event_types [sample_type "order"; sample_type "tick"] = Ret infos ∧
    ∀ T, T ∈ [sample_type "order"; sample_type "tick"] →
      MkTypeInfo (et_name T) (event_kind_prefix +:+ et_name T) (et_descriptor T) ∈ infos.
Proof.
  apply static_catalog_any_order.
  - by apply (bool_decide_unpack _).
  - apply Permutation_swap.
Defined.

(** The catalog is coherent: for a bare name, [find], [contains] and [schema]
    agree with one another, with the same lookups by full kind, and with the
    listing [types()]; none of them throws but [schema] on an unknown name, and
    then conduit's UnknownEventTypeError; and a type that has been added is found. *)
Theorem event_types_coherent `{ExternalLaws} (r : registry) (n : string) :
  starts_with event_kind_prefix n = false →
  let kind := event_kind_prefix +:+ n in
  ∃ infos, types r = Ret infos ∧
    find r n = find r kind ∧ et_contains r n = et_contains r kind ∧
    ((∃ i, find r n = Ret (Some i) ∧ i ∈ infos ∧ ti_name i = n ∧ ti_kind_id i = kind ∧
           et_contains r n = true ∧ schema r n = Ret (info_schema i)) ∨
     (find r n = Ret None ∧ (∀ i, i ∈ infos → ti_name i ≠ n) ∧ et_contains r n = false ∧
        ∃ w, schema r n = Throw (Exn UnknownEventTypeError w))) ∧
    (∀ T, et_name T = n →
       find (et_add T r) n = Ret (Some (MkTypeInfo n kind (et_descriptor T)))).
Proof.
  intros Hn kind. destruct (types_of_spec (reg_all r)) as (infos & Htypes & Hspec).
  exists infos. unfold find, et_contains, schema, types.
  rewrite !(resolve_name _ n Hn), (resolve_kind r n : resolve r kind = _).
  split_and!; [done|done|done| |].
  - destruct (reg_find r (event_kind_prefix +:+ n)) as [d|] eqn:Hd.
    + left. pose proof (reg_find_kind _ _ _ Hd) as Hk.
      exists (MkTypeInfo n kind d). rewrite (type_info_prefix d n Hk). simpl.
      split_and!; [done| |done|done|done|done].
      apply Hspec. simpl. split_and!; [|done|done]. apply reg_all_find. by rewrite Hk.
    + right. split_and!; [done| |by apply bool_decide_eq_false_2; intros [? ?]|by eexists].
      intros i (Hi & Hk & _)%Hspec <-. apply reg_all_find in Hi. congruence.
  - intros T HT. rewrite (resolve_name _ n Hn).
    assert (desc_kind (et_descriptor T) = event_kind_prefix +:+ n) as Hk by by rewrite et_desc_kind, HT.
    unfold et_add. rewrite <- Hk, reg_find_register_eq, (type_info_prefix _ n Hk). done.
Qed.

Lemma event_types_coherent_witness :
  let r := et_add (sample_type "order") (sample_reg ["i64"]) in
  ∃ infos, types r = Ret infos ∧ find r "order" = find r "conduit:event:order" ∧
    et_contains r "order" = et_contains r "conduit:event:order" ∧
    ((∃ i, find r "order" = Ret (Some i) ∧ i ∈ infos ∧ ti_name i = "order" ∧
           ti_kind_id i = "conduit:event:order" ∧ et_contains r "order" = true ∧
           schema r "order" = Ret (info_schema i)) ∨
     (find r "order" = Ret None ∧ (∀ i, i ∈ infos → ti_name i ≠ "order") ∧
        et_contains r "order" = false ∧
        ∃ w, schema r "order" = Throw (Exn UnknownEventTypeError w))) ∧
    (∀ T, et_name T = "order" →
       find (et_add T r) "order" =
       Ret (Some (MkTypeInfo "order" "conduit:event:order" (et_descriptor T)))).
Proof. apply event_types_coherent. reflexivity. Defined.
