(* ===== verification/World.v ===== *)
(** * Effects: the world, calls to user code, locks, metrics

    Stateful code is explicit state passing over [world]: the heap of envelope
    cores, the component's own state and mutex, the clock, and the state of the
    code outside of conduit.  Virtual methods and [std::function]s are calls to
    that code: the environment [run] answers each of them, may change the world as
    it likes (re-entering conduit included) and may throw.  A computation returns
    its outcome, the new world, and the trace of its own calls and metric updates. *)

From S2P Require Import Prelude Exceptions External Flags Envelope.

(** Identities of objects behind [std::shared_ptr]s (transports, middleware,
    listeners) and of [std::function] targets. *)
Abbreviation obj := positive.
Abbreviation fn := positive.

(** [enum class TransportScope] *)
Inductive TransportScope := Local | Remote.

#[export] Instance TransportScope_eq_dec : EqDecision TransportScope.
Proof. solve_decision. Defined.

(** The closures that conduit installs as [InboundSink]: the one of
    [Transport::attach], the one of [FilteredTransport] around a predicate and
    another sink, and a sink supplied by the caller.  [None] is an empty
    [std::function]. *)
Inductive InboundSink :=
  | SinkBus
  | SinkUser (f : fn)
  | SinkGate (p : option fn) (s : option InboundSink).

(** The metric updates of [metrics.hpp], each with its label. *)
Inductive metric :=
  | events_published (event : string)
  | events_dropped (event : string)
  | listener_invocations (event : string)
  | listener_errors (event : string)
  | transport_errors (transport : string)
  | listeners_inc (event : string)
  | listeners_dec (event : string)
  | dispatch_seconds (event : string) (elapsed : Z).

Section world.
Context `{Externals}.

(** The calls that conduit makes to code it does not contain. *)
Inductive call :=
  | CallHandler (f : fn) (v : EventEnvelope)
  | CallTyped (f : fn) (p : cell)
  | CallOnEvent (l : obj) (p : cell)
  | CallPredicate (f : fn) (v : EventEnvelope)
  | CallBefore (m : obj) (v : EventEnvelope)
  | CallAfter (m : obj) (v : EventEnvelope)
  | CallOnError (m : obj) (v : EventEnvelope) (ep : exn)
  | CallOnTransportError (m : obj) (transport : string) (ep : exn)
  | CallAttach (t : obj)
  | CallAttachWithSink (t : obj) (s : InboundSink)
  | CallDispatch (t : obj) (v : EventEnvelope)
  | CallFlush (t : obj)
  | CallDetach (t : obj).

Inductive event :=
  | EvCall (c : call)
  | EvMetric (m : metric).

Context {U S : Type}.

Record world := World {
  heap : gmap loc EnvelopeCore;
  locked : bool;       (* the component's mutex *)
  reads : nat;         (* how often the clock has been read *)
  user : U;            (* everything outside of the component *)
  st : S;              (* the component's members *)
}.

(** What a call gives back: its outcome (a [bool] for the callbacks that return
    one), the envelope left in a by-reference argument, and the world. *)
Record reply := Reply {
  r_out : outcome bool;
  r_env : EventEnvelope;
  r_world : world;
}.

Record host := Host {
  run : call → world → reply;
  time_at : nat → time_point;          (* the n-th reading of system_clock *)
  scope_of : obj → TransportScope;     (* Transport::scope() *)
  priority_of : obj → Z;               (* Prioritized::priority() *)
}.

(** ** Computations *)

Definition comp (A : Type) : Type := world → outcome A * world * list event.

#[export] Instance comp_ret : MRet comp := λ A a w, (Ret a, w, []).
#[export] Instance comp_bind : MBind comp := λ A B f m w,
  match m w with
  | (Ret a, w1, tr1) => let '(o, w2, tr2) := f a w1 in (o, w2, tr1 ++ tr2)
  | (Throw e, w1, tr1) => (Throw e, w1, tr1)
  | (Undef u, w1, tr1) => (Undef u, w1, tr1)
  end.

Definition lift {A} (o : outcome A) : comp A := λ w, (o, w, []).
Definition get_world : comp world := λ w, (Ret w, w, []).
Definition gets {A} (f : S → A) : comp A := λ w, (Ret (f (st w)), w, []).
Definition modify (f : S → S) : comp () := λ w,
  (Ret (), World (heap w) (locked w) (reads w) (user w) (f (st w)), []).
Definition set_locked (b : bool) (w : world) : world :=
  World (heap w) b (reads w) (user w) (st w).
Definition set_heap (hp : gmap loc EnvelopeCore) (w : world) : world :=
  World hp (locked w) (reads w) (user w) (st w).

Definition emit (m : metric) : comp () := λ w, (Ret (), w, [EvMetric m]).

(** Read and write the core behind an envelope. *)
Definition read_core (v : EventEnvelope) : comp EnvelopeCore := λ w, (core_of (heap w) v, w, []).
Definition write_core (v : EventEnvelope) (f : EnvelopeCore → EnvelopeCore) : comp () := λ w,
  match core_of (heap w) v, value v with
  | Ret c, Some l => (Ret (), set_heap (<[l := f c]> (heap w)) w, [])
  | _, _ => (Undef NullDeref, w, [])
  end.
Definition name_of (v : EventEnvelope) : comp string := λ w, (env_name (heap w) v, w, []).
Definition payload_of (T : event_type) (v : EventEnvelope) : comp (option cell) :=
  λ w, (env_payload_as T (heap w) v, w, []).

(** A scope holding [std::scoped_lock lock(mu_)]: locking a mutex that the thread
    holds is undefined behaviour; the destructor unlocks on every way out. *)
Definition with_lock {A} (m : comp A) : comp A := λ w,
  if locked w then (Undef SelfDeadlock, w, [])
  else let '(o, w', tr) := m (set_locked true w) in (o, set_locked false w', tr).

(** [try { m } catch (...) { k(current_exception()) }] *)
Definition catch_all {A} (m : comp A) (k : exn → comp A) : comp A := λ w,
  match m w with
  | (Throw e, w1, tr1) => let '(o, w2, tr2) := k e w1 in (o, w2, tr1 ++ tr2)
  | r => r
  end.

(** A [noexcept] function body. *)
Definition noexcept {A} (m : comp A) : comp A := λ w,
  match m w with
  | (Throw _, w1, tr1) => (Undef Terminate, w1, tr1)
  | r => r
  end.

(** Range-for. *)
Fixpoint for_each {A} (l : list A) (body : A → comp ()) : comp () :=
  match l with
  | [] => mret ()
  | x :: l => body x ≫= λ _, for_each l body
  end.

Section host.
Context (h : host).

(** Call user code that takes an envelope by non-const reference: what it returned
    or threw, and the envelope it left there. *)
Definition call_ref (c : call) : comp ((bool + exn) * EventEnvelope) := λ w,
  let r := run h c w in
  (match r_out r with
   | Ret b => Ret (inl b, r_env r)
   | Throw e => Ret (inr e, r_env r)
   | Undef u => Undef u
   end, r_world r, [EvCall c]).

(** Call user code: its value. *)
Definition call_fn (c : call) : comp bool :=
  r ← call_ref c;
  match r.1 with
  | inl b => mret b
  | inr e => lift (Throw e)
  end.
Definition call_void (c : call) : comp () := _ ← call_fn c; mret ().

(** [system_clock::now()] *)
Definition now : comp time_point := λ w,
  (Ret (time_at h (reads w)),
   World (heap w) (locked w) (Datatypes.S (reads w)) (user w) (st w), []).
End host.
End world.
Arguments world : clear implicits.
Arguments world {_} _ _.
Arguments reply : clear implicits.
Arguments reply {_} _ _.
Arguments host : clear implicits.
Arguments host {_} _ _.
Arguments comp : clear implicits.
Arguments comp {_} _ _ _.
