(* ===== verification/WorldLogic.v ===== *)
(** * Reasoning about computations

    [wp] is the total-correctness triple of [comp]: no undefined behaviour, the
    component's mutex free again, its invariant kept, no envelope core lost.
    [emits] bounds the trace of a computation.  Both come with one rule per
    construct of [World.v]. *)

From S2P Require Import Prelude Exceptions External Flags Envelope World.

Section logic.
Context `{Externals} {U S : Type}.
Abbreviation world := (world U S).
Abbreviation comp := (comp U S).

Implicit Types w : world.

(** ** Inversion of executions *)

Lemma bind_inv {A B} (m : comp A) (f : A → comp B) w o w' tr :
  (m ≫= f) w = (o, w', tr) →
  (∃ a w1 tr1 tr2, m w = (Ret a, w1, tr1) ∧ f a w1 = (o, w', tr2) ∧ tr = tr1 ++ tr2) ∨
  (∃ e, m w = (Throw e, w', tr) ∧ o = Throw e) ∨ (∃ u, m w = (Undef u, w', tr) ∧ o = Undef u).
Proof.
  unfold mbind, comp_bind. destruct (m w) as [[[a|e|u] w1] tr1].
  - destruct (f a w1) as [[o2 w2] tr2] eqn:Hf. intros [= <- <- <-]. left.
    by exists a, w1, tr1, tr2.
  - intros [= <- <- <-]. right. left. by exists e.
  - intros [= <- <- <-]. right. right. by exists u.
Qed.

Lemma bind_ret_inv {A B} (m : comp A) (f : A → comp B) w b w' tr :
  (m ≫= f) w = (Ret b, w', tr) →
  ∃ a w1 tr1 tr2, m w = (Ret a, w1, tr1) ∧ f a w1 = (Ret b, w', tr2) ∧ tr = tr1 ++ tr2.
Proof. intros [?|[(e & _ & [=])|(u & _ & [=])]]%bind_inv; done. Qed.

Lemma catch_all_inv {A} (m : comp A) k w o w' tr :
  catch_all m k w = (o, w', tr) →
  (m w = (o, w', tr) ∧ ∀ e, o ≠ Throw e) ∨
  (∃ e w1 tr1 tr2, m w = (Throw e, w1, tr1) ∧ k e w1 = (o, w', tr2) ∧ tr = tr1 ++ tr2).
Proof.
  unfold catch_all. destruct (m w) as [[[a|e|u] w1] tr1].
  - intros [= <- <- <-]. by left.
  - destruct (k e w1) as [[o2 w2] tr2] eqn:Hk. intros [= <- <- <-]. right.
    by exists e, w1, tr1, tr2.
  - intros [= <- <- <-]. by left.
Qed.

Lemma with_lock_gets {A} (f : S → A) w :
  locked w = false → with_lock (gets f) w = (Ret (f (st w)), w, []).
Proof. destruct w; simpl. intros ->. done. Qed.

Lemma with_lock_gets_inv {A} (f : S → A) w o w' tr :
  with_lock (gets f) w = (o, w', tr) → (∀ u, o ≠ Undef u) →
  o = Ret (f (st w)) ∧ w' = w ∧ tr = [] ∧ locked w = false.
Proof.
  destruct w as [hp [] rd us s]; unfold with_lock; simpl.
  - intros [= <- _ _] Hne. by destruct (Hne SelfDeadlock).
  - by intros [= <- <- <-] _.
Qed.

Lemma with_lock_gets_ret {A} (f : S → A) w a w' tr :
  with_lock (gets f) w = (Ret a, w', tr) → a = f (st w) ∧ w' = w ∧ tr = [].
Proof.
  intros Heq. destruct (with_lock_gets_inv f w _ _ _ Heq) as ([= ->] & -> & -> & _); [done|done].
Qed.

Lemma noexcept_ret_inv {A} (m : comp A) w a w' tr :
  noexcept m w = (Ret a, w', tr) → m w = (Ret a, w', tr).
Proof. unfold noexcept. destruct (m w) as [[[]]]; intros; by simplify_eq. Qed.

(** The world and the trace of a run, and a completed run in terms of them. *)
Definition world_after {A} (m : comp A) w : world := (m w).1.2.
Definition trace_of {A} (m : comp A) w : list event := (m w).2.

Lemma completed_run {A} (m : comp A) w a :
  (m w).1.1 = Ret a → m w = (Ret a, world_after m w, trace_of m w).
Proof. unfold world_after, trace_of. by destruct (m w) as [[? ?] ?]; simpl; intros ->. Qed.

(** ** Traces *)

Definition emits {A} (φ : event → Prop) (m : comp A) : Prop :=
  ∀ w o w' tr, m w = (o, w', tr) → Forall φ tr.

Lemma emits_ret {A} φ (a : A) : emits φ (mret a : comp A).
Proof. intros w o w' tr [= <- <- <-]. constructor. Qed.

Lemma emits_bind {A B} φ (m : comp A) (f : A → comp B) :
  emits φ m → (∀ a, emits φ (f a)) → emits φ (m ≫= f).
Proof.
  intros Hm Hf w o w' tr [(a & w1 & tr1 & tr2 & H1 & H2 & ->)|[(e & He & _)|(u & Hu & _)]]%bind_inv.
  - apply Forall_app. split; [by eapply Hm|by eapply Hf].
  - by eapply Hm.
  - by eapply Hm.
Qed.

Lemma emits_catch_all {A} φ (m : comp A) k :
  emits φ m → (∀ e, emits φ (k e)) → emits φ (catch_all m k).
Proof.
  intros Hm Hk w o w' tr [[Heq _]|(e & w1 & tr1 & tr2 & H1 & H2 & ->)]%catch_all_inv.
  - by eapply Hm.
  - apply Forall_app. split; [by eapply Hm|by eapply Hk].
Qed.

Lemma emits_noexcept {A} φ (m : comp A) : emits φ m → emits φ (noexcept m).
Proof.
  intros Hm w o w' tr. unfold noexcept.
  destruct (m w) as [[o1 w1] tr1] eqn:Hmw. apply Hm in Hmw. by destruct o1; intros [= <- <- <-].
Qed.

Lemma emits_with_lock {A} φ (m : comp A) : emits φ m → emits φ (with_lock m).
Proof.
  intros Hm w o w' tr. unfold with_lock. case_match; [intros [= <- <- <-]; constructor|].
  destruct (m (set_locked true w)) as [[o1 w1] tr1] eqn:Hmw. intros [= <- <- <-]. by eapply Hm.
Qed.

Lemma emits_for_each {A} φ (l : list A) body :
  (∀ x, x ∈ l → emits φ (body x)) → emits φ (for_each (U := U) (S := S) l body).
Proof.
  induction l as [|x l IH]; intros Hbody; simpl; [apply emits_ret|].
  apply emits_bind; [apply Hbody; by left|]. intros _. apply IH. intros y Hy. apply Hbody. by right.
Qed.

Lemma emits_silent {A} φ (m : comp A) : (∀ w, (m w).2 = []) → emits φ m.
Proof. intros Hm w o w' tr Heq. specialize (Hm w). rewrite Heq in Hm. simpl in Hm. by subst. Qed.

Lemma emits_emit φ m : φ (EvMetric m) → emits φ (emit m : comp ()).
Proof. intros Hm w o w' tr [= <- <- <-]. by constructor. Qed.

Lemma emits_weaken {A} (φ ψ : event → Prop) (m : comp A) :
  (∀ e, φ e → ψ e) → emits φ m → emits ψ m.
Proof. intros Hφ Hm w o w' tr Heq. eapply Forall_impl; [by eapply Hm|done]. Qed.

(** Events that a projection skips. *)
Definition skips {B} (π : event → option B) (e : event) : Prop := π e = None.

Lemma omap_skips {B} (π : event → option B) tr : Forall (skips π) tr → omap π tr = [].
Proof. induction 1 as [|e tr He _ IH]; simpl; [done|]. by rewrite He. Qed.

Lemma emits_skips {A B} (π : event → option B) (m : comp A) w o w' tr :
  emits (skips π) m → m w = (o, w', tr) → omap π tr = [].
Proof. intros Hm Heq. eapply omap_skips, Hm, Heq. Qed.

Section host.
Context (h : host U S).

Lemma emits_call_ref φ c : φ (EvCall c) → emits φ (call_ref h c).
Proof. intros Hc w o w' tr [= <- <- <-]. by constructor. Qed.

Lemma emits_call_fn φ c : φ (EvCall c) → emits φ (call_fn h c).
Proof.
  intros Hc. apply emits_bind; [by apply emits_call_ref|].
  intros [[b|e] v]; [apply emits_ret|by apply emits_silent].
Qed.

Lemma emits_call_void φ c : φ (EvCall c) → emits φ (call_void h c).
Proof. intros Hc. apply emits_bind; [by apply emits_call_fn|]. intros _. apply emits_ret. Qed.

Lemma call_ref_trace c w o w' tr : call_ref h c w = (o, w', tr) → tr = [EvCall c].
Proof. by intros [= <- <- <-]. Qed.

Lemma call_fn_trace c w o w' tr : call_fn h c w = (o, w', tr) → tr = [EvCall c].
Proof.
  unfold call_fn, call_ref, mbind, comp_bind. simpl.
  destruct (r_out _); simpl; by intros [= <- <- <-].
Qed.

Lemma call_void_trace c w o w' tr : call_void h c w = (o, w', tr) → tr = [EvCall c].
Proof.
  intros [(b & w1 & tr1 & tr2 & H1 & [= <- <- <-] & ->)|[(e & He & _)|(u & Hu & _)]]%bind_inv.
  - apply call_fn_trace in H1 as ->. done.
  - by apply call_fn_trace in He.
  - by apply call_fn_trace in Hu.
Qed.
End host.
End logic.

(** ** Tactics *)

(** Take a computation apart with the rules of [emits]. *)
Ltac emits_rules :=
  repeat lazymatch goal with
  | |- emits _ (mret _) => apply emits_ret
  | |- emits _ (mbind _ _) => apply emits_bind; [|intros]
  | |- emits _ (catch_all _ _) => apply emits_catch_all; [|intros]
  | |- emits _ (noexcept _) => apply emits_noexcept
  | |- emits _ (with_lock _) => apply emits_with_lock
  | |- emits _ (for_each _ _) => apply emits_for_each; intros
  | |- emits _ (call_void _ _) => apply emits_call_void
  | |- emits _ (call_fn _ _) => apply emits_call_fn
  | |- emits _ (call_ref _ _) => apply emits_call_ref
  | |- emits _ (emit _) => apply emits_emit
  | |- emits _ (name_of _) => by apply emits_silent
  | |- emits _ (payload_of _ _) => by apply emits_silent
  | |- emits _ (gets _) => by apply emits_silent
  | |- emits _ (modify _) => by apply emits_silent
  | |- emits _ (lift _) => by apply emits_silent
  end.

(** What a computation that does nothing did. *)
Ltac inv_ret H := unfold mret, comp_ret, emit in H; simplify_eq/=.
