(* ===== verification/WorldSafety.v ===== *)
(** * Total correctness of computations

    [wp h I m Q w]: running [m] from [w] ends without undefined behaviour in a
    [good] world (mutex free, invariant [I] kept) in which no envelope core has
    disappeared, and its outcome and world satisfy [Q].  [civil h I] is what the
    component assumes of the code it calls. *)

From S2P Require Import Prelude Exceptions External Flags Envelope World WorldLogic.

Section safety.
Context `{Externals} {U S : Type}.
Abbreviation world := (world U S).
Abbreviation comp := (comp U S).
Implicit Types w : world.

Definition heap_le (w w' : world) : Prop := ∀ l, is_Some (heap w !! l) → is_Some (heap w' !! l).

(** The envelope points to a core. *)
Definition live (v : EventEnvelope) (w : world) : Prop :=
  ∃ l c, value v = Some l ∧ heap w !! l = Some c.

#[export] Instance heap_le_preorder : PreOrder heap_le.
Proof. split; [by intros w l|]. intros w1 w2 w3 H1 H2 l Hl. by apply H2, H1. Qed.

Lemma live_mono v w w' : heap_le w w' → live v w → live v w'.
Proof. intros Hle (l & c & Hv & Hc). destruct (Hle l) as [c' Hc']; [by eexists|]. by exists l, c'. Qed.

Lemma live_core v w : live v w → ∃ c, core_of (heap w) v = Ret c.
Proof. intros (l & c & Hv & Hc). exists c. unfold core_of. rewrite Hv. simpl. by rewrite Hc. Qed.

(** The envelope that a call passes. *)
Definition call_env (c : call) : option EventEnvelope :=
  match c with
  | CallHandler _ v | CallPredicate _ v | CallBefore _ v | CallAfter _ v
  | CallOnError _ v _ | CallDispatch _ v => Some v
  | _ => None
  end.

Section inv.
Context (h : host U S) (I : S → U → Prop).

Definition good (w : world) : Prop := locked w = false ∧ I (st w) (user w).

(** Code called with the mutex free, the invariant established and live
    arguments returns with the mutex free and the invariant in place, whatever it
    did in between; it has no undefined behaviour of its own, frees no core that
    somebody points to, and leaves a live envelope in a by-reference argument.
    [detach] is declared [noexcept].  The clock is past the epoch. *)
Record civil : Prop := {
  civil_call c w : good w → (∀ v, call_env c = Some v → live v w) →
    good (r_world (run h c w)) ∧ heap_le w (r_world (run h c w)) ∧
    ¬ is_undef (r_out (run h c w)) ∧
    (∀ v, call_env c = Some v → live (r_env (run h c w)) (r_world (run h c w)));
  civil_detach t w : good w → is_ret (r_out (run h (CallDetach t) w));
  civil_clock n : (0 ≤ time_at h n ≤ i64_max)%Z;
}.

Definition wp {A} (m : comp A) (Q : outcome A → world → Prop) (w : world) : Prop :=
  ∃ o w' tr, m w = (o, w', tr) ∧ ¬ is_undef o ∧ good w' ∧ heap_le w w' ∧ Q o w'.

(** The common postcondition: a value, no exception. *)
Definition returns {A} (Q : A → world → Prop) (o : outcome A) (w : world) : Prop :=
  ∃ a, o = Ret a ∧ Q a w.

Lemma not_undef_ret {A} (a : A) : ¬ is_undef (Ret a).
Proof. by intros [? ?]. Qed.
Lemma not_undef_throw {A} e : ¬ is_undef (@Throw A e).
Proof. by intros [? ?]. Qed.

Lemma wp_ret {A} (a : A) Q w : good w → Q (Ret a) w → wp (mret a) Q w.
Proof. intros Hg HQ. exists (Ret a), w, []. split_and!; try done. apply not_undef_ret. Qed.

Lemma wp_mono {A} (m : comp A) (P Q : outcome A → world → Prop) w :
  (∀ o w', good w' → heap_le w w' → ¬ is_undef o → P o w' → Q o w') → wp m P w → wp m Q w.
Proof.
  intros HPQ (o & w' & tr & Heq & Hu & Hg & Hle & HP). exists o, w', tr. split_and!; auto.
Qed.

Lemma wp_bind {A B} (m : comp A) (f : A → comp B) Q w :
  wp m (λ o w', match o with
                | Ret a => wp (f a) Q w'
                | Throw e => Q (Throw e) w'
                | Undef _ => True
                end) w →
  wp (m ≫= f) Q w.
Proof.
  intros (o & w1 & tr & Heq & Hu & Hg & Hle & HQ). unfold wp, mbind, comp_bind. rewrite Heq.
  destruct o as [a|e|u].
  - destruct HQ as (o2 & w2 & tr2 & Heq2 & Hu2 & Hg2 & Hle2 & HQ2). rewrite Heq2.
    exists o2, w2, (tr ++ tr2). split_and!; try done. by etrans.
  - exists (Throw e), w1, tr. split_and!; try done. apply not_undef_throw.
  - by destruct Hu; eexists.
Qed.

Lemma wp_bind_returns {A B} (m : comp A) (f : A → comp B) P Q w :
  wp m (returns P) w →
  (∀ a w', good w' → heap_le w w' → P a w' → wp (f a) Q w') →
  wp (m ≫= f) Q w.
Proof.
  intros Hm Hf. apply wp_bind. eapply wp_mono; [|exact Hm].
  intros o w' Hg Hle _ (a & -> & HP). by apply Hf.
Qed.

Lemma wp_gets {A} (f : S → A) Q w : good w → Q (Ret (f (st w))) w → wp (gets f) Q w.
Proof. intros Hg HQ. eexists _, w, []. split_and!; try done. apply not_undef_ret. Qed.

Lemma wp_emit m Q w : good w → Q (Ret ()) w → wp (emit m) Q w.
Proof. intros Hg HQ. eexists _, w, _. split_and!; try done. apply not_undef_ret. Qed.

Lemma wp_lift_ret {A} (a : A) Q w : good w → Q (Ret a) w → wp (lift (Ret a)) Q w.
Proof. apply wp_ret. Qed.

Lemma wp_lift_throw {A} e (Q : outcome A → world → Prop) w :
  good w → Q (Throw e) w → wp (lift (Throw e)) Q w.
Proof. intros Hg HQ. exists (Throw e), w, []. split_and!; try done. apply not_undef_throw. Qed.

Lemma wp_with_lock_gets {A} (f : S → A) Q w :
  good w → Q (Ret (f (st w))) w → wp (with_lock (gets f)) Q w.
Proof.
  intros Hg HQ. exists (Ret (f (st w))), w, []. split_and!; try done.
  - apply with_lock_gets, Hg.
  - apply not_undef_ret.
Qed.

Lemma wp_with_lock_modify (f : S → S) Q w :
  good w → I (f (st w)) (user w) →
  Q (Ret ()) (World (heap w) false (reads w) (user w) (f (st w))) →
  wp (with_lock (modify f)) Q w.
Proof.
  destruct w as [hp lk rd us s]. intros [Hl HI] HI' HQ. simpl in *. subst lk.
  eexists (Ret ()), _, []. unfold with_lock. simpl. split; [done|].
  split_and!; [apply not_undef_ret|done|by intros l|done].
Qed.

Lemma wp_modify (f : S → S) Q w :
  good w → I (f (st w)) (user w) →
  Q (Ret ()) (World (heap w) (locked w) (reads w) (user w) (f (st w))) → wp (modify f) Q w.
Proof.
  intros [Hl HI] HI' HQ. eexists (Ret ()), _, []. split; [done|].
  split_and!; [apply not_undef_ret|done|by intros l|done].
Qed.

(** From an equation for the run. *)
Lemma wp_run {A} (m : comp A) Q w o w' tr :
  m w = (o, w', tr) → ¬ is_undef o → good w' → heap_le w w' → Q o w' → wp m Q w.
Proof. intros. by exists o, w', tr. Qed.

Lemma wp_read_core v Q w :
  good w → live v w → (∀ c, core_of (heap w) v = Ret c → Q (Ret c) w) → wp (read_core v) Q w.
Proof.
  intros Hg Hv HQ. destruct (live_core v w Hv) as [c Hc].
  exists (Ret c), w, []. unfold read_core. rewrite Hc. split_and!; try done; auto using not_undef_ret.
Qed.

Lemma wp_name_of v Q w :
  good w → live v w → (∀ n, env_name (heap w) v = Ret n → Q (Ret n) w) → wp (name_of v) Q w.
Proof.
  intros Hg Hv HQ. destruct (live_core v w Hv) as [c Hc].
  assert (env_name (heap w) v = Ret (core_name c)) as Hn.
  { unfold env_name. rewrite Hc. destruct Hv as (l & ? & -> & _). done. }
  exists (Ret (core_name c)), w, []. unfold name_of. rewrite Hn.
  split_and!; try done; auto using not_undef_ret.
Qed.

Lemma wp_payload_of T v Q w :
  good w → live v w → (∀ o, env_payload_as T (heap w) v = Ret o → Q (Ret o) w) →
  wp (payload_of T v) Q w.
Proof.
  intros Hg Hv HQ. destruct (live_core v w Hv) as [c Hc].
  assert (env_payload_as T (heap w) v = Ret (core_payload_as T c)) as Hn.
  { unfold env_payload_as. rewrite Hc. destruct Hv as (l & ? & -> & _). done. }
  eexists (Ret _), w, []. unfold payload_of. rewrite Hn.
  split_and!; try done; auto using not_undef_ret.
Qed.

Lemma heap_le_insert l c w : heap_le w (set_heap (<[l := c]> (heap w)) w).
Proof. intros l' Hl'. simpl. destruct (decide (l = l')) as [->|]; by simplify_map_eq. Qed.

Lemma wp_write_core v f Q w :
  good w → live v w → (∀ w', good w' → heap_le w w' → st w' = st w → Q (Ret ()) w') →
  wp (write_core v f) Q w.
Proof.
  intros Hg (l & c & Hv & Hc) HQ.
  exists (Ret ()), (set_heap (<[l := f c]> (heap w)) w), [].
  unfold write_core, core_of. rewrite Hv. simpl. rewrite Hc.
  split_and!; [done|apply not_undef_ret|done|apply heap_le_insert|].
  apply HQ; [done|apply heap_le_insert|done].
Qed.

Lemma wp_catch_all {A} (m : comp A) k Q w :
  wp m (λ o w', match o with
                | Ret a => Q (Ret a) w'
                | Throw e => wp (k e) Q w'
                | Undef _ => True
                end) w →
  wp (catch_all m k) Q w.
Proof.
  intros (o & w1 & tr & Heq & Hu & Hg & Hle & HQ). unfold wp, catch_all. rewrite Heq.
  destruct o as [a|e|u].
  - by exists (Ret a), w1, tr.
  - destruct HQ as (o2 & w2 & tr2 & Heq2 & Hu2 & Hg2 & Hle2 & HQ2). rewrite Heq2.
    exists o2, w2, (tr ++ tr2). split_and!; try done. by etrans.
  - by destruct Hu; eexists.
Qed.

Lemma wp_noexcept {A} (m : comp A) Q w :
  wp m (λ o w', is_ret o ∧ Q o w') w → wp (noexcept m) Q w.
Proof.
  intros (o & w1 & tr & Heq & Hu & Hg & Hle & [a ->] & HQ). unfold wp, noexcept. rewrite Heq.
  by exists (Ret a), w1, tr.
Qed.

(** A loop whose body never throws keeps its invariant. *)
Lemma wp_for_each {A} (l : list A) body (J : world → Prop) w :
  good w → J w →
  (∀ x w1, x ∈ l → good w1 → heap_le w w1 → J w1 → wp (body x) (returns (λ _, J)) w1) →
  wp (for_each l body) (returns (λ _, J)) w.
Proof.
  revert w. induction l as [|x l IH]; intros w Hg HJ Hbody; simpl.
  - apply wp_ret; [done|]. by exists ().
  - eapply wp_bind_returns; [apply Hbody; [by left|done..]|].
    intros a w1 Hg1 Hle1 HJ1. apply IH; [done|done|]. intros y w2 Hy Hg2 Hle2 HJ2.
    apply Hbody; [by right|done| |done]. by etrans.
Qed.

(** A loop whose body may throw. *)
Lemma wp_for_each_any {A} (l : list A) body w :
  good w → (∀ x w1, x ∈ l → good w1 → wp (body x) (λ _ _, True) w1) →
  wp (for_each l body) (λ _ _, True) w.
Proof.
  revert w. induction l as [|x l IH]; intros w Hg Hbody; simpl; [by apply wp_ret|].
  apply wp_bind. eapply wp_mono; [|apply Hbody; [by left|done]].
  intros [a|e|u] w1 Hg1 _ _ _; [|done|done]. apply IH; [done|].
  intros y w2 Hy. apply Hbody. by right.
Qed.

Lemma wp_call_ref (Hh : civil) c Q w :
  good w → (∀ v, call_env c = Some v → live v w) →
  (∀ r v' w', good w' → heap_le w w' → (is_Some (call_env c) → live v' w') →
     Q (Ret (r, v')) w') →
  wp (call_ref h c) Q w.
Proof.
  intros Hg Hv HQ. destruct (civil_call Hh c w Hg Hv) as (Hg' & Hle & Hu & Hl).
  unfold wp, call_ref.
  assert (is_Some (call_env c) → live (r_env (run h c w)) (r_world (run h c w))) as Hl'.
  { intros [v Hcv]. by eapply Hl. }
  destruct (r_out (run h c w)) as [b|e|u].
  - eexists (Ret _), _, _. split_and!; [done|apply not_undef_ret|done..|]. by apply HQ.
  - eexists (Ret _), _, _. split_and!; [done|apply not_undef_ret|done..|]. by apply HQ.
  - by destruct Hu; eexists.
Qed.

Lemma wp_call_fn (Hh : civil) c Q w :
  good w → (∀ v, call_env c = Some v → live v w) →
  (∀ o w', good w' → heap_le w w' → ¬ is_undef o → Q o w') →
  wp (call_fn h c) Q w.
Proof.
  intros Hg Hv HQ. apply wp_bind, wp_call_ref; [done..|].
  intros [b|e] v' w' Hg' Hle _; simpl.
  - apply wp_ret; [done|]. apply HQ; [done..|apply not_undef_ret].
  - apply wp_lift_throw; [done|]. apply HQ; [done..|apply not_undef_throw].
Qed.

Lemma wp_call_void (Hh : civil) c Q w :
  good w → (∀ v, call_env c = Some v → live v w) →
  (∀ o w', good w' → heap_le w w' → ¬ is_undef o → Q o w') →
  wp (call_void h c) Q w.
Proof.
  intros Hg Hv HQ. apply wp_bind, wp_call_fn; [done..|].
  intros [b|e|u] w' Hg' Hle Hu.
  - apply wp_ret; [done|]. apply HQ; [done..|apply not_undef_ret].
  - apply HQ; [done..|apply not_undef_throw].
  - done.
Qed.
End inv.
End safety.
