(* ===== verification/Hosts.v ===== *)
(** * A concrete environment for the witnesses

    User code that answers every call by a fixed script (returning or throwing)
    and leaves the world and its arguments alone. *)

From S2P Require Import Prelude Exceptions External Flags Instances Envelope World WorldLogic WorldSafety.

Section scripted.
Context `{Externals} {U S : Type}.

Definition null_envelope : EventEnvelope := MkEnvelope None no_display_info.

Definition scripted (script : call → outcome bool) (clock : nat → time_point)
    (scope : obj → TransportScope) (prio : obj → Z) : host U S :=
  Host (λ c w, Reply (script c) (default null_envelope (call_env c)) w) clock scope prio.

Lemma scripted_civil script clock scope prio I :
  (∀ c, ¬ is_undef (script c)) → (∀ t, is_ret (script (CallDetach t))) →
  (∀ n, 0 ≤ clock n ≤ i64_max)%Z → civil (scripted script clock scope prio) I.
Proof.
  intros Hdef Hdet Hclk. split; [|by intros; apply Hdet|done]. intros c w Hg Hv. simpl.
  split_and!; [done|done|apply Hdef|]. intros v Hc. rewrite Hc. by apply Hv.
Qed.
End scripted.

(** Everything returns [true], except that objects and functions numbered 9 throw
    (but for [detach], which is [noexcept]) and those numbered 8 return [false]
    where they decide. *)
Definition faulty_script (c : @call concrete_externals) : outcome bool :=
  match c with
  | CallDispatch 9 _ | CallHandler 9 _ | CallTyped 9 _ | CallBefore 9 _ | CallAfter 9 _
  | CallOnError 9 _ _ | CallOnTransportError 9 _ _ | CallFlush 9 | CallAttach 9
  | CallPredicate 9 _ =>
      Throw (Exn user_exception "boom")
  | CallBefore 8 _ | CallPredicate 8 _ => Ret false
  | _ => Ret true
  end.

Lemma faulty_script_defined c : ¬ is_undef (faulty_script c).
Proof. intros [u Hu]. unfold faulty_script in Hu. repeat case_match; done. Qed.

(** Transports 5 and above are remote; the priority of an object is its number. *)
Definition faulty_host {S} : host () S :=
  scripted faulty_script (λ n, 1000 + Z.of_nat (Nat.min n 1000))%Z
    (λ t, if (5 <=? t)%positive then Remote else Local) Z.pos.

Lemma faulty_civil {S} (I : S → () → Prop) : civil faulty_host I.
Proof.
  apply scripted_civil.
  - apply faulty_script_defined.
  - intros t. by eexists.
  - intros n. change i64_max with 9223372036854775807%Z. lia.
Qed.

(** A world with one envelope, at location 1. *)
Definition world_with {S} (c : EnvelopeCore) (s : S) : world () S :=
  World {[1%positive := c]} false 0 () s.

Definition envelope_at (l : loc) : EventEnvelope := MkEnvelope (Some l) no_display_info.

Lemma live_world_with {S} c (s : S) : live (envelope_at 1%positive) (world_with c s).
Proof. exists 1%positive, c. split; reflexivity. Defined.

(** An event of type ["order"], with the given flags. *)
Definition order_core (fs : list string) : @EnvelopeCore concrete_externals :=
  set_payload_cell (Some (sample_cell "conduit:event:order" 7)) (set_flags (fs_of fs) empty_core).
