(* ===== verification/Builder.v ===== *)
(** * The envelope builder ([include/conduit/builder.hpp])

    The fluent interface is a list of steps; [build] allocates the shared core.
    [generated] stands for the ids that [ulid::generate()] draws. *)

From S2P Require Import Prelude Exceptions External Flags Instances Envelope World WorldLogic Hosts.

Section builder.
Context `{Externals} {U S : Type} (h : host U S) (generated : nat → ulid).

Record EventBuilder := MkBuilder {
  core_ : EnvelopeCore;
  payload_ : cell;
  id_set_ : bool;
  created_at_set_ : bool;
}.

(** [EventBuilder(payload)], [event(payload)], [make_event<T>(args...)] for a type
    with default flags [d]. *)
Definition start_builder (d : default_flags) (payload : cell) : EventBuilder :=
  MkBuilder (set_flags (collect_default_flags d) empty_core) payload false false.

Inductive builder_step :=
  | BuildId (u : ulid)
  | BuildCorrelation (u : ulid)
  | BuildCausation (u : ulid)
  | BuildMetadataKey (key : string) (v : md_value)
  | BuildMetadata (m : metadata)
  | BuildCreatedAt (t : time_point)
  | BuildFlags (fs : list string).      (* flag<F>() and flags<Fs...>() *)

Definition with_core (f : EnvelopeCore → EnvelopeCore) (b : EventBuilder) : EventBuilder :=
  MkBuilder (f (core_ b)) (payload_ b) (id_set_ b) (created_at_set_ b).

Definition apply_step (b : EventBuilder) (s : builder_step) : EventBuilder :=
  match s with
  | BuildId u => MkBuilder (set_id u (core_ b)) (payload_ b) true (created_at_set_ b)
  | BuildCorrelation u => with_core (set_correlation_id (Some u)) b
  | BuildCausation u => with_core (set_causation_id (Some u)) b
  | BuildMetadataKey k v => with_core (λ c, set_metadata (md_insert_or_assign k v (metadata_of c)) c) b
  | BuildMetadata m => with_core (set_metadata m) b
  | BuildCreatedAt t =>
      MkBuilder (set_timestamps (set_created_at t (timestamps (core_ b))) (core_ b))
        (payload_ b) (id_set_ b) true
  | BuildFlags fs => with_core (λ c, set_flags (foldl (λ s f, fs_insert f s) (flags c) fs) c) b
  end.

Definition apply_steps (b : EventBuilder) (steps : list builder_step) : EventBuilder :=
  foldl apply_step b steps.

(** [std::make_shared<EnvelopeCore>(core)] and the envelope around it. *)
Definition new_envelope (c : EnvelopeCore) : comp U S EventEnvelope := λ w,
  let l := fresh (dom (heap w)) in
  (Ret (MkEnvelope (Some l) no_display_info), set_heap (<[l := c]> (heap w)) w, []).

Definition build (b : EventBuilder) : comp U S EventEnvelope :=
  w ← get_world;
  let c := if id_set_ b then core_ b else set_id (generated (reads w)) (core_ b) in
  c ← (if created_at_set_ b then mret c
       else t ← now h; mret (set_timestamps (set_created_at t (timestamps c)) c));
  new_envelope (set_payload_cell (Some (payload_ b)) c).

(** [operator EventEnvelope()], and [event(payload)] converted where an envelope is
    expected. *)
Definition to_envelope (b : EventBuilder) : comp U S EventEnvelope := build b.
Definition event (d : default_flags) (payload : cell) : EventBuilder := start_builder d payload.
End builder.
Arguments EventBuilder {_}.

(** ** Lemmas *)

Section lemmas.
Context `{ExternalLaws}.

Definition step_id (s : builder_step) : option ulid := match s with BuildId u => Some u | _ => None end.
Definition step_created (s : builder_step) : option time_point :=
  match s with BuildCreatedAt t => Some t | _ => None end.
Definition step_correlation (s : builder_step) : option ulid :=
  match s with BuildCorrelation u => Some u | _ => None end.
Definition step_flags (s : builder_step) : list string := match s with BuildFlags fs => fs | _ => [] end.

(** What the fields of the builder are after a list of steps. *)
Record built (d : default_flags) (payload : cell) (steps : list builder_step) (b : EventBuilder) : Prop := {
  bt_payload : payload_ b = payload;
  bt_id : (if id_set_ b then Some (id (core_ b)) else None) = last (omap step_id steps);
  bt_created : (if created_at_set_ b then Some (created_at (timestamps (core_ b))) else None) =
               last (omap step_created steps);
  bt_correlation : correlation_id (core_ b) = last (omap step_correlation steps);
  bt_flags f : contains f (core_ b) =
    (bool_decide (f ∈ steps ≫= step_flags) || fs_contains f (collect_default_flags d));
  bt_other : published_at (timestamps (core_ b)) = None;
}.

Lemma built_steps d payload steps : built d payload steps (apply_steps (start_builder d payload) steps).
Proof.
  induction steps as [|s steps IH] using rev_ind; [by split|].
  unfold apply_steps in *. rewrite foldl_app. simpl.
  set (b := foldl apply_step _ steps) in *. destruct IH as [Hp Hi Hc Hco Hf Ho].
  assert (∀ {A} (π : builder_step → option A),
    last (omap π (steps ++ [s])) = match π s with Some x => Some x | None => last (omap π steps) end)
    as Hlast.
  { intros A π. rewrite omap_app. simpl. destruct (π s); [by rewrite last_snoc|by rewrite app_nil_r]. }
  split; rewrite ?Hlast; destruct s; simpl; try done; intros f; rewrite bind_app; simpl;
    rewrite ?app_nil_r; try by apply Hf.
  unfold contains. simpl. rewrite fs_contains_foldl. unfold contains in Hf. rewrite Hf.
  rewrite orb_assoc. f_equal. rewrite <- bool_decide_or. apply bool_decide_ext.
  rewrite elem_of_app. tauto.
Qed.
End lemmas.

(** ** Theorem *)

(** Building yields a fresh envelope (no existing core is touched or shared)
    that carries the payload, the id and creation time set last, or a generated
    id and the current time if none was set, and exactly the union of the event
    type's default flags and the flags added. *)
Theorem builder_builds `{ExternalLaws} {U S} (h : host U S) generated d payload steps
    (w : world U S) :
  ∃ l c w', build h generated (apply_steps (start_builder d payload) steps) w =
      (Ret (MkEnvelope (Some l) no_display_info), w', []) ∧
    heap w !! l = None ∧ heap w' = <[l := c]> (heap w) ∧
    payload_cell c = Some payload ∧
    id c = default (generated (reads w)) (last (omap step_id steps)) ∧
    created_at (timestamps c) = default (time_at h (reads w)) (last (omap step_created steps)) ∧
    correlation_id c = last (omap step_correlation steps) ∧
    (∀ f, contains f c =
       (bool_decide (f ∈ steps ≫= step_flags) || fs_contains f (collect_default_flags d))).
Proof.
  set (b := apply_steps (start_builder d payload) steps).
  destruct (built_steps d payload steps) as [Hp Hi Hc Hco Hf Ho]. fold b in Hp, Hi, Hc, Hco, Hf.
  assert (heap w !! fresh (dom (heap w)) = None) as Hfresh.
  { apply not_elem_of_dom, is_fresh. }
  exists (fresh (dom (heap w))). unfold build, get_world, mbind, comp_bind.
  destruct (created_at_set_ b) eqn:Hcs, (id_set_ b) eqn:His; simpl;
    (eexists _, _; split; [done|]); simpl; split_and!; try done.
  all: try (by rewrite <- Hi). all: try (by rewrite <- Hc).
  all: by rewrite Hp.
Qed.

Lemma builder_builds_witness :
  ∃ l c (w' : world () ()),
    build faulty_host (λ n, ulid_zero)
      (apply_steps (start_builder (DefaultFlags (fs_of [flags.Durable]) (Some [flags.RequireAck]))
                      (sample_cell "conduit:event:order" 7))
                   [BuildFlags [flags.Direct]; BuildCreatedAt 5; BuildCreatedAt 6])
      (World ∅ false 0 () ()) = (Ret (MkEnvelope (Some l) no_display_info), w', []) ∧
    (∅ : gmap loc EnvelopeCore) !! l = None ∧ heap w' = <[l := c]> ∅ ∧
    payload_cell c = Some (sample_cell "conduit:event:order" 7) ∧
    id c = ulid_zero ∧ created_at (timestamps c) = 6%Z ∧ correlation_id c = None ∧
    (∀ f, contains f c =
       (bool_decide (f ∈ [BuildFlags [flags.Direct]; BuildCreatedAt 5; BuildCreatedAt 6] ≫= step_flags) ||
        fs_contains f (collect_default_flags
          (DefaultFlags (fs_of [flags.Durable]) (Some [flags.RequireAck]))))).
Proof.
  apply (builder_builds faulty_host (λ n, ulid_zero)
           (DefaultFlags (fs_of [flags.Durable]) (Some [flags.RequireAck]))
           (sample_cell "conduit:event:order" 7)
           [BuildFlags [flags.Direct]; BuildCreatedAt 5; BuildCreatedAt 6]
           (World ∅ false 0 () ())).
Defined.
