(* ===== verification/Listener.v ===== *)
(** * Subscriptions ([include/conduit/listener.hpp])

    [Subscription] is the RAII handle on a registered listener.  Its operations
    are written against the interface [SubscriptionBackref]; the bus implements
    it in [Bus.v].  The second part runs any sequence of operations on a pool of
    handles, against the backref that only records what it is asked to release. *)

From S2P Require Import Prelude Exceptions External Flags Instances Envelope World.

(** [using SubscriptionId = std::uint64_t] *)
Abbreviation SubscriptionId := Z.

(** ** The interface *)

Class SubscriptionBackref `{Externals} (U S : Type) :=
  backref_release : SubscriptionId → comp U S ().

(** ** The handle *)

Record Subscription := MkSubscription {
  backref_ : bool;           (* whether the shared_ptr is set *)
  id_ : SubscriptionId;
  active_ : bool;
}.

(** [Subscription()] and [Subscription(backref, id)] *)
Definition empty_Subscription : Subscription := MkSubscription false 0 false.
Definition new_Subscription (id : SubscriptionId) : Subscription := MkSubscription true id true.

(** [Subscription(Subscription&& other)]: the new handle and what is left. *)
Definition move_construct (other : Subscription) : Subscription * Subscription :=
  (MkSubscription (backref_ other) (id_ other) (active_ other),
   MkSubscription false (id_ other) false).

(** [detach()] *)
Definition Subscription_detach (s : Subscription) : Subscription :=
  MkSubscription false (id_ s) false.

Section ops.
Context `{Externals} {U S : Type} `{!SubscriptionBackref U S}.

(** [release()], which is also the destructor. *)
Definition Subscription_release (s : Subscription) : comp U S Subscription :=
  noexcept
    ((if active_ s && backref_ s then backref_release (id_ s) else mret ());;
     mret (MkSubscription false (id_ s) false)).

(** [operator=(Subscription&&)] for distinct objects. *)
Definition move_assign (s other : Subscription) : comp U S (Subscription * Subscription) :=
  noexcept
    (Subscription_release s;;
     mret (move_construct other)).
End ops.

(** ** Sequences of operations on a pool of handles *)

Inductive handle_op :=
  | OpListen (x : nat) (id : SubscriptionId)   (* construct x from listen() *)
  | OpMove (x y : nat)                         (* construct x from std::move(y) *)
  | OpAssign (x y : nat)                       (* x = std::move(y) *)
  | OpRelease (x : nat)
  | OpDetach (x : nat)
  | OpDestroy (x : nat).

Abbreviation pool := (gmap nat Subscription).

(** The backref that records the ids it is asked to release. *)
#[export] Instance recording_backref `{Externals} : SubscriptionBackref () (list SubscriptionId) :=
  λ i, modify (λ released, released ++ [i]).

Section machine.
Context `{Externals}.

(** An operation is defined when a constructed object is new and the others are
    alive; it runs on the object's value in the pool. *)
Definition handle_step (op : handle_op) (p : pool) : option (comp () (list SubscriptionId) pool) :=
  match op with
  | OpListen x id =>
      match p !! x with
      | None => Some (mret (<[x := new_Subscription id]> p))
      | Some _ => None
      end
  | OpMove x y =>
      match p !! x, p !! y with
      | None, Some other =>
          let '(s, other') := move_construct other in
          Some (mret (<[x := s]> (<[y := other']> p)))
      | _, _ => None
      end
  | OpAssign x y =>
      if decide (x = y) then Some (mret p)
      else
        match p !! x, p !! y with
        | Some s, Some other =>
            Some (r ← move_assign s other; mret (<[x := r.1]> (<[y := r.2]> p)))
        | _, _ => None
        end
  | OpRelease x =>
      s ← p !! x; Some (s' ← Subscription_release s; mret (<[x := s']> p))
  | OpDetach x =>
      s ← p !! x; Some (mret (<[x := Subscription_detach s]> p))
  | OpDestroy x =>
      s ← p !! x; Some (_ ← Subscription_release s; mret (delete x p))
  end.

(** The ids that a step releases. *)
Definition released_by (m : comp () (list SubscriptionId) pool) : option (pool * list SubscriptionId) :=
  match m (World ∅ false 0 () []) with
  | (Ret p, w, _) => Some (p, st w)
  | _ => None
  end.

Fixpoint run_ops (ops : list handle_op) (p : pool) : option (pool * list SubscriptionId) :=
  match ops with
  | [] => Some (p, [])
  | op :: ops =>
      m ← handle_step op p;
      '(p1, r1) ← released_by m;
      '(p2, r2) ← run_ops ops p1;
      Some (p2, r1 ++ r2)
  end.

(** The ids handed out by [listen], which are distinct ([Bus.v]). *)
Fixpoint listened (ops : list handle_op) : list SubscriptionId :=
  match ops with
  | [] => []
  | OpListen _ id :: ops => id :: listened ops
  | _ :: ops => listened ops
  end.

(** The id that a handle would release, and those of a pool. *)
Definition owned_id (s : Subscription) : list SubscriptionId :=
  if active_ s && backref_ s then [id_ s] else [].
Definition owned_ids (p : pool) : list SubscriptionId := map_concat owned_id p.

(** The ids that a sequence of operations gives up without releasing them. *)
Definition detached_by (op : handle_op) (p : pool) : list SubscriptionId :=
  match op with
  | OpDetach x => match p !! x with Some s => owned_id s | None => [] end
  | _ => []
  end.
End machine.

(** ** Lemmas *)

Section lemmas.
Context `{Externals}.

(** [release] on the recording backref. *)
Lemma release_recorded s (w : world () (list SubscriptionId)) :
  Subscription_release s w =
  (Ret (MkSubscription false (id_ s) false),
   World (heap w) (locked w) (reads w) (user w) (st w ++ owned_id s), []).
Proof.
  destruct w. unfold Subscription_release, noexcept, owned_id.
  destruct (active_ s && backref_ s); simpl; [done|]. by rewrite app_nil_r.
Qed.

Lemma move_assign_recorded s other (w : world () (list SubscriptionId)) :
  move_assign s other w =
  (Ret (move_construct other),
   World (heap w) (locked w) (reads w) (user w) (st w ++ owned_id s), []).
Proof. unfold move_assign, noexcept, mbind, comp_bind. by rewrite release_recorded. Qed.

Lemma handle_step_owned op p m :
  handle_step op p = Some m →
  ∃ p' r, released_by m = Some (p', r) ∧
    listened [op] ++ owned_ids p ≡ₚ r ++ owned_ids p' ++ detached_by op p.
Proof.
  unfold owned_ids.
  destruct op as [x id|x y|x y|x|x|x]; simpl; intros Hstep.
  - destruct (p !! x) eqn:Hx; [done|]. injection Hstep as <-. eexists _, _. split; [done|].
    rewrite (map_concat_insert _ p x) by done. simpl. solve_Permutation.
  - destruct (p !! x) eqn:Hx, (p !! y) as [o|] eqn:Hy; try done. injection Hstep as <-.
    eexists _, _. split; [done|].
    assert (x ≠ y) by congruence. rewrite map_concat_insert by by simplify_map_eq.
    pose proof (map_concat_update owned_id p y o (MkSubscription false (id_ o) false) Hy) as Hupd.
    destruct o as [b i a]. unfold owned_id in *. simpl in *. rewrite <- Hupd. solve_Permutation.
  - case_decide as Hxy.
    + injection Hstep as <-. eexists _, _. split; [done|]. simpl. solve_Permutation.
    + destruct (p !! x) as [s|] eqn:Hx, (p !! y) as [o|] eqn:Hy; try done. injection Hstep as <-.
      eexists _, _. split.
      { unfold released_by, mbind, comp_bind. rewrite move_assign_recorded. done. }
      simpl. pose proof (map_concat_update owned_id p y o (MkSubscription false (id_ o) false) Hy) as Hupd.
      pose proof (map_concat_update owned_id (<[y := MkSubscription false (id_ o) false]> p) x s
        (MkSubscription (backref_ o) (id_ o) (active_ o))) as Hupd2.
      rewrite lookup_insert_ne in Hupd2 by done. specialize (Hupd2 Hx).
      rewrite app_nil_r, Hupd2. destruct o as [b i a]. unfold owned_id in *. simpl in *. by symmetry.
  - destruct (p !! x) as [s|] eqn:Hx; [|done]. injection Hstep as <-. eexists _, _. split.
    { unfold released_by, mbind, comp_bind. rewrite release_recorded. done. }
    simpl. rewrite app_nil_r.
    by rewrite (map_concat_update owned_id p x s (MkSubscription false (id_ s) false) Hx).
  - destruct (p !! x) as [s|] eqn:Hx; [|done]. injection Hstep as <-. eexists _, _. split; [done|].
    simpl. rewrite (Permutation_app_comm _ (owned_id s)).
    by rewrite (map_concat_update owned_id p x s (Subscription_detach s) Hx).
  - destruct (p !! x) as [s|] eqn:Hx; [|done]. injection Hstep as <-. eexists _, _. split.
    { unfold released_by, mbind, comp_bind. rewrite release_recorded. done. }
    simpl. rewrite app_nil_r. by apply map_concat_delete.
Qed.

Lemma listened_cons op ops : listened (op :: ops) = listened [op] ++ listened ops.
Proof. by destruct op. Qed.

Lemma run_ops_owned ops p p' rel :
  run_ops ops p = Some (p', rel) →
  ∃ det, listened ops ++ owned_ids p ≡ₚ rel ++ owned_ids p' ++ det ∧
         ((∀ x, OpDetach x ∉ ops) → det = []).
Proof.
  revert p rel. induction ops as [|op ops IH]; intros p rel Hrun.
  { simpl in Hrun. simplify_eq. exists []. split; [|done]. simpl. by rewrite app_nil_r. }
  simpl in Hrun. destruct (handle_step op p) as [m|] eqn:Hstep; [|done]. simpl in Hrun.
  destruct (handle_step_owned op p m Hstep) as (p1 & r1 & Hrel & Hperm).
  rewrite Hrel in Hrun. simpl in Hrun.
  destruct (run_ops ops p1) as [[p2 r2]|] eqn:Hrest; [|done]. simpl in Hrun. simplify_eq.
  destruct (IH p1 r2 Hrest) as (det & Hperm2 & Hdet).
  exists (detached_by op p ++ det). split.
  - rewrite listened_cons.
    rewrite (Permutation_app_comm (listened [op])), <- (assoc_L app), Hperm.
    rewrite (assoc_L app), (Permutation_app_comm _ r1), <- (assoc_L app).
    rewrite <- (assoc_L app r1). f_equiv. rewrite (assoc_L app), Hperm2. solve_Permutation.
  - intros Hno. rewrite Hdet by (intros x Hx; apply (Hno x); by right).
    rewrite app_nil_r. destruct op; try done. exfalso. eapply Hno. by left.
Qed.
End lemmas.

(** ** Theorems *)

(** C36: whatever sequence of constructions, moves, move assignments, releases,
    detaches and destructions is run on subscription handles, every id handed
    out by [listen] is accounted for exactly once: it has been released, or one
    handle still owns it, or it was given up by [detach]; without [detach]
    nothing is given up. *)
Theorem subscription_accounting `{Externals} ops p released :
  run_ops ops ∅ = Some (p, released) →
  ∃ detached, listened ops ≡ₚ released ++ owned_ids p ++ detached ∧
              ((∀ x, OpDetach x ∉ ops) → detached = []).
Proof.
  intros (det & Hperm & Hdet)%run_ops_owned. exists det. split; [|done].
  unfold owned_ids in Hperm at 1. by rewrite map_concat_empty, app_nil_r in Hperm.
Qed.

Lemma subscription_accounting_witness :
  ∃ detached, listened [OpListen 0 1; OpListen 1 2; OpMove 2 0; OpAssign 1 2; OpDestroy 1; OpDestroy 0]
    ≡ₚ [2; 1]%Z ++ owned_ids {[2 := MkSubscription false 1 false]} ++ detached ∧
    ((∀ x, OpDetach x ∉ [OpListen 0 1; OpListen 1 2; OpMove 2 0; OpAssign 1 2; OpDestroy 1; OpDestroy 0])
     → detached = []).
Proof. apply subscription_accounting. vm_compute. reflexivity. Defined.
