(* ===== verification/Bus.v ===== *)
(** * The bus ([include/conduit/bus.hpp])

    The state of [conduit::Bus] and its operations, one definition per member
    function, in the order in which the code calls, locks and counts. *)

From S2P Require Import Prelude Exceptions External Flags Envelope Serialization Glob World Listener.

(** ** Data *)

Section data.
Context `{Externals}.

(** The closures that [listen] wraps handlers in, and [listen]'s typed argument:
    something callable with [const T&], something callable with
    [const EventEnvelope&], or a pointer to an [EventListener<T>]. *)
Inductive handler :=
  | HPayload (T : event_type) (f : fn)
  | HEnvelope (f : fn)
  | HListener (T : event_type) (l : option obj).

Inductive handler_arg :=
  | ArgPayload (f : fn)
  | ArgEnvelope (f : fn)
  | ArgListener (l : option obj).

Record ListenerEntry := MkEntry {
  le_id : SubscriptionId;
  le_handler : handler;
  name_or_pattern : string;
  is_pattern : bool;
  listener_priority : Z;
}.

(** [operator==]: identity is the subscription id. *)
Definition entry_eqb (a b : ListenerEntry) : bool := (le_id a =? le_id b)%Z.

Record BusState := MkBus {
  bus_registry : EventRegistry;
  transports_ : list obj;
  middleware_ : list obj;
  listeners_ : list ListenerEntry;
  next_id_ : Z;
  shutdown_ : bool;
  self_alias_ : bool;
}.

(** [Bus()] *)
Definition new_Bus : BusState := MkBus new_EventRegistry [] [] [] 0 false false.

(** [Bus(registry)]: a null handle makes a fresh registry. *)
Definition new_Bus_with (registry : option EventRegistry) : BusState :=
  MkBus (default new_EventRegistry registry) [] [] [] 0 false false.

(** Updates of one member. *)
Definition set_registry (r : EventRegistry) (s : BusState) : BusState :=
  MkBus r (transports_ s) (middleware_ s) (listeners_ s) (next_id_ s) (shutdown_ s) (self_alias_ s).
Definition set_transports (l : list obj) (s : BusState) : BusState :=
  MkBus (bus_registry s) l (middleware_ s) (listeners_ s) (next_id_ s) (shutdown_ s) (self_alias_ s).
Definition set_middleware (l : list obj) (s : BusState) : BusState :=
  MkBus (bus_registry s) (transports_ s) l (listeners_ s) (next_id_ s) (shutdown_ s) (self_alias_ s).
Definition set_listeners (l : list ListenerEntry) (s : BusState) : BusState :=
  MkBus (bus_registry s) (transports_ s) (middleware_ s) l (next_id_ s) (shutdown_ s) (self_alias_ s).
Definition set_next_id (n : Z) (s : BusState) : BusState :=
  MkBus (bus_registry s) (transports_ s) (middleware_ s) (listeners_ s) n (shutdown_ s) (self_alias_ s).
Definition set_shutdown (b : bool) (s : BusState) : BusState :=
  MkBus (bus_registry s) (transports_ s) (middleware_ s) (listeners_ s) (next_id_ s) b (self_alias_ s).
Definition set_self_alias (b : bool) (s : BusState) : BusState :=
  MkBus (bus_registry s) (transports_ s) (middleware_ s) (listeners_ s) (next_id_ s) (shutdown_ s) b.

(** Whether a listener takes an envelope of this name. *)
Definition entry_matches (name : string) (e : ListenerEntry) : bool :=
  if is_pattern e then Glob_match (name_or_pattern e) name
  else String.eqb (name_or_pattern e) name.

(** Whether a transport of scope [sc] takes the envelope. *)
Definition admissible (local_only remote_only : bool) (sc : TransportScope) : bool :=
  negb (local_only && negb (bool_decide (sc = Local)))
  && negb (remote_only && negb (bool_decide (sc = Remote))).
End data.

(** ** Operations *)

Section bus.
Context `{Externals} {U : Type} (h : host U BusState).
Abbreviation comp := (comp U BusState).

Definition run_handler (k : handler) (v : EventEnvelope) : comp () :=
  match k with
  | HPayload T f =>
      typed ← payload_of T v;
      match typed with
      | Some p => call_void h (CallTyped f p)
      | None => mret ()
      end
  | HEnvelope f => call_void h (CallHandler f v)
  | HListener T l =>
      typed ← payload_of T v;
      match typed, l with
      | Some p, Some l => call_void h (CallOnEvent l p)
      | Some p, None => lift (Undef NullDeref)
      | None, _ => mret ()
      end
  end.

Fixpoint on_error_loop (snap : list obj) (mv : EventEnvelope) (ep : exn) : comp () :=
  match snap with
  | [] => mret ()
  | m :: snap =>
      r ← call_ref h (CallOnError m mv ep);   (* what it throws is ignored *)
      on_error_loop snap r.2 ep
  end.

Definition run_on_error (v : EventEnvelope) (ep : exn) : comp () :=
  noexcept
    (snap ← with_lock (gets middleware_);
     on_error_loop snap v ep).

Definition report_transport_error (transport : string) (ep : exn) : comp () :=
  noexcept
    (emit (transport_errors transport);;
     snap ← with_lock (gets middleware_);
     for_each snap (λ m,
       catch_all (call_void h (CallOnTransportError m transport ep)) (λ _, mret ()))).

Definition deliver_one (v : EventEnvelope) (name : string) (e : ListenerEntry) : comp () :=
  if entry_matches name e then
    emit (listener_invocations name);;
    catch_all (run_handler (le_handler e) v)
      (λ ep, emit (listener_errors name);; run_on_error v ep)
  else mret ().

Definition deliver_to_listeners (v : EventEnvelope) : comp () :=
  snapshot ← with_lock (gets listeners_);
  name ← name_of v;
  for_each snapshot (deliver_one v name).

(** *** Publishing *)

(** An exception of [m] on [local] goes to [m]'s own [on_error], whose exceptions
    are swallowed. *)
Definition own_on_error (m : obj) (local : EventEnvelope) (ep : exn) : comp EventEnvelope :=
  r ← call_ref h (CallOnError m local ep); mret r.2.

(** The [before_dispatch] loop: whether to proceed, and [local]. *)
Fixpoint run_before (mws : list obj) (local : EventEnvelope) : comp (bool * EventEnvelope) :=
  match mws with
  | [] => mret (true, local)
  | m :: mws =>
      r ← call_ref h (CallBefore m local);
      match r.1 with
      | inl true => run_before mws r.2
      | inl false =>
          name ← name_of r.2;
          emit (events_dropped name);;
          mret (false, r.2)
      | inr ep => local ← own_on_error m r.2 ep; run_before mws local
      end
  end.

(** The [after_dispatch] loop, over the reversed snapshot. *)
Fixpoint run_after (mws : list obj) (local : EventEnvelope) : comp EventEnvelope :=
  match mws with
  | [] => mret local
  | m :: mws =>
      r ← call_ref h (CallAfter m local);
      local ← match r.1 with
              | inl _ => mret r.2
              | inr ep => own_on_error m r.2 ep
              end;
      run_after mws local
  end.

Definition dispatch_one (local_only remote_only : bool) (local : EventEnvelope) (t : obj) : comp () :=
  if admissible local_only remote_only (scope_of h t) then
    catch_all (call_void h (CallDispatch t local)) (run_on_error local)
  else mret ().

Definition route (local_only remote_only : bool) (transports_snapshot : list obj)
    (local : EventEnvelope) : comp () :=
  for_each transports_snapshot (dispatch_one local_only remote_only local);;
  if bool_decide (transports_snapshot = []) && negb remote_only
  then deliver_to_listeners local
  else mret ().

Definition conflict_error : exn :=
  Exn std_runtime_error "LocalOnly + RemoteOnly conflict — envelope dropped".

(** The subtraction of two readings of the clock, in [std::int64_t]. *)
Definition clock_difference (a b : time_point) : outcome Z :=
  if in_i64 (a - b) then Ret (a - b)%Z else Undef SignedOverflow.

Definition publish_impl (v : EventEnvelope) : comp () :=
  c ← read_core v;
  let local_only := contains flags.LocalOnly c in
  let remote_only := contains flags.RemoteOnly c in
  publish_started ← now h;
  write_core v (λ c, set_timestamps (set_published_at publish_started (timestamps c)) c);;
  name ← name_of v;
  emit (events_published name);;
  c ← read_core v;
  let run_mw := negb (contains flags.NoMiddleware c) in
  mw_snapshot ← (if run_mw then with_lock (gets middleware_) else mret []);
  before ← (if run_mw then run_before mw_snapshot v else mret (true, v));
  let local := before.2 in
  transports_snapshot ← with_lock (gets transports_);
  proceed ← (if local_only && remote_only then
               run_on_error local conflict_error;;
               name ← name_of local;
               emit (events_dropped name);;
               mret false
             else mret before.1);
  (if proceed : bool then route local_only remote_only transports_snapshot local else mret ());;
  local ← (if run_mw then run_after (reverse mw_snapshot) local else mret local);
  finished ← now h;
  elapsed ← lift (clock_difference finished publish_started);
  if (0 <=? elapsed)%Z then
    name ← name_of local; emit (dispatch_seconds name elapsed)
  else mret ().

(** *** Registration *)

(** [register_event<T>()] *)
Definition register_event (T : event_type) : comp () :=
  modify (λ s, set_registry (add_descriptor (et_descriptor T) (bus_registry s)) s).

(** [publish<T>(payload or builder)], once the builder is built. *)
Definition publish (T : event_type) (v : EventEnvelope) : comp () :=
  register_event T;; publish_impl v.

Definition attach_transport (t : obj) : comp () :=
  call_void h (CallAttach t);;
  with_lock (modify (λ s,
    set_transports (ps_insert (priority_of h) Pos.eqb t (transports_ s)) s)).

Definition use_transport (t : obj) : comp () := attach_transport t.

Definition use_middleware (m : obj) : comp () :=
  with_lock (modify (λ s,
    set_middleware (ps_insert (priority_of h) Pos.eqb m (middleware_ s)) s)).

Definition shared_from_this_safe : comp () :=
  a ← gets self_alias_;
  if (a : bool) then mret () else modify (set_self_alias true).

(** [next_id_.fetch_add(1) + 1] *)
Definition fresh_id : comp SubscriptionId :=
  n ← gets next_id_;
  modify (set_next_id (u64_add n 1));;
  mret (u64_add n 1).

Definition register_listener_for_name (name : string) (k : handler) (pattern : bool) (prio : Z)
    : comp Subscription :=
  id ← fresh_id;
  with_lock (modify (λ s,
    set_listeners (ps_insert listener_priority entry_eqb (MkEntry id k name pattern prio)
                     (listeners_ s)) s));;
  emit (listeners_inc name);;
  shared_from_this_safe;;
  mret (new_Subscription id).

Definition derive_listener_priority (a : handler_arg) (explicit_priority : Z) : Z :=
  if negb (explicit_priority =? DEFAULT_PRIORITY)%Z then explicit_priority
  else
    match a with
    | ArgListener l => match l with Some l => priority_of h l | None => explicit_priority end
    | _ => explicit_priority
    end.

Definition wrap_typed_handler (T : event_type) (a : handler_arg) : handler :=
  match a with
  | ArgPayload f => HPayload T f
  | ArgEnvelope f => HEnvelope f
  | ArgListener l => HListener T l
  end.

(** [listen<T>(handler, priority)] *)
Definition listen (T : event_type) (a : handler_arg) (priority : Z) : comp Subscription :=
  register_event T;;
  register_listener_for_name (et_name T) (wrap_typed_handler T a) false
    (derive_listener_priority a priority).

(** [listen<T>(std::shared_ptr<EventListener<T>>)] *)
Definition listen_listener (T : event_type) (l : option obj) : comp Subscription :=
  register_event T;;
  register_listener_for_name (et_name T) (HListener T l) false
    (match l with Some l => priority_of h l | None => DEFAULT_PRIORITY end).

(** [listen(pattern, handler, priority)]; [pattern.contains('*')] *)
Definition listen_pattern (pattern : string) (f : fn) (priority : Z) : comp Subscription :=
  register_listener_for_name pattern (HEnvelope f)
    (bool_decide (c_star ∈ to_chars pattern)) priority.

(** The loop of [release]: find the id, erase the entry, count it down. *)
Definition find_entry (i : SubscriptionId) (l : list ListenerEntry) : option ListenerEntry :=
  List.find (λ e, (le_id e =? i)%Z) l.

Definition release (i : SubscriptionId) : comp () :=
  noexcept
    (with_lock
       (s ← gets listeners_;
        match find_entry i s with
        | Some e =>
            modify (set_listeners (remove_first (λ e, (le_id e =? i)%Z) s));;
            emit (listeners_dec (name_or_pattern e))
        | None => mret ()
        end)).

#[export] Instance bus_backref : SubscriptionBackref U BusState := release.

(** *** Lifecycle *)

Definition drain : comp () :=
  tcopy ← with_lock (gets transports_);
  for_each tcopy (λ t, call_void h (CallFlush t)).

Definition shutdown_one (t : obj) : comp () :=
  catch_all (call_void h (CallFlush t)) (λ _, mret ());;
  catch_all (noexcept (call_void h (CallDetach t))) (λ _, mret ()).

Definition shutdown : comp () :=
  noexcept
    (was ← gets shutdown_;
     modify (set_shutdown true);;
     if (was : bool) then mret ()
     else
       tcopy ← with_lock (l ← gets transports_; modify (set_transports []);; mret l);
       for_each tcopy shutdown_one).

(** The body of [~Bus()]: the members are destroyed after it, and that releases the
    transports that [transports_] still holds; what their own destructors do is theirs. *)
Definition destroy : comp () :=
  noexcept
    (shutdown;;
     with_lock
       (l ← gets listeners_;
        for_each l (λ e, emit (listeners_dec (name_or_pattern e))))).

(** *** Subscribers: [EventSubscriber::on], both overloads *)

Definition on (T : event_type) (a : handler_arg) (subscriptions : list Subscription)
    : comp (list Subscription) :=
  s ← listen T a DEFAULT_PRIORITY; mret (subscriptions ++ [s]).

Definition on_pattern (pattern : string) (f : fn) (subscriptions : list Subscription)
    : comp (list Subscription) :=
  s ← listen_pattern pattern f DEFAULT_PRIORITY; mret (subscriptions ++ [s]).
End bus.
