(* ===== verification/BusTraces.v ===== *)
(** * The phases of [publish] and the traces of its parts

    [publish_phases] takes an execution of [publish_impl] apart at the points
    where the code does; the lemmas say which calls and metric updates each part
    performs, whatever the environment does. *)

From S2P Require Import Prelude Exceptions External Flags Envelope Serialization Glob World WorldLogic Listener Bus.

Section traces.
Context `{Externals} {U : Type} (h : host U BusState).
Implicit Types w : world U BusState.

(** ** Projections of a trace *)

Definition dispatch_of (e : event) : option (obj * EventEnvelope) :=
  match e with EvCall (CallDispatch t v) => Some (t, v) | _ => None end.
Definition before_of (e : event) : option obj :=
  match e with EvCall (CallBefore m _) => Some m | _ => None end.
Definition after_of (e : event) : option obj :=
  match e with EvCall (CallAfter m _) => Some m | _ => None end.
Definition on_error_of (e : event) : option (obj * exn) :=
  match e with EvCall (CallOnError m _ ep) => Some (m, ep) | _ => None end.
(** The calls of listeners' code. *)
Definition handler_of (e : event) : option call :=
  match e with
  | EvCall (CallHandler f v) => Some (CallHandler f v)
  | EvCall (CallTyped f p) => Some (CallTyped f p)
  | EvCall (CallOnEvent l p) => Some (CallOnEvent l p)
  | _ => None
  end.
Definition published_of (e : event) : option string :=
  match e with EvMetric (events_published n) => Some n | _ => None end.
Definition dropped_of (e : event) : option string :=
  match e with EvMetric (events_dropped n) => Some n | _ => None end.
Definition invoked_of (e : event) : option string :=
  match e with EvMetric (listener_invocations n) => Some n | _ => None end.

(** Which kinds of events the parts of [publish] produce. *)
Definition error_event (e : event) : Prop := is_Some (on_error_of e).
Definition before_event (e : event) : Prop :=
  is_Some (before_of e) ∨ error_event e ∨ is_Some (dropped_of e).
Definition after_event (e : event) : Prop := is_Some (after_of e) ∨ error_event e.
Definition delivery_event (e : event) : Prop :=
  is_Some (handler_of e) ∨ error_event e ∨ is_Some (invoked_of e) ∨
  ∃ n, e = EvMetric (listener_errors n).
Definition route_event (e : event) : Prop := is_Some (dispatch_of e) ∨ delivery_event e.

(** Find the class of a concrete event. *)
Ltac event_class := hnf; first [by eexists | left; event_class | right; event_class].

Lemma on_error_loop_emits snap v ep : emits error_event (on_error_loop h snap v ep).
Proof.
  revert v. induction snap as [|m snap IH]; intros v; simpl; emits_rules; [event_class|apply IH].
Qed.

Lemma run_on_error_emits v ep : emits error_event (run_on_error h v ep).
Proof. unfold run_on_error. emits_rules. apply on_error_loop_emits. Qed.

Lemma own_on_error_emits m v ep : emits error_event (own_on_error h m v ep).
Proof. unfold own_on_error. emits_rules. event_class. Qed.

Lemma run_handler_emits k v : emits (λ e, is_Some (handler_of e)) (run_handler h k v).
Proof.
  destruct k; simpl; emits_rules; repeat case_match; emits_rules; event_class.
Qed.

Lemma deliver_one_emits v n e : emits delivery_event (deliver_one h v n e).
Proof.
  unfold deliver_one. case_match; emits_rules; [event_class| |event_class|].
  - eapply emits_weaken, run_handler_emits. by left.
  - eapply emits_weaken, run_on_error_emits. by right; left.
Qed.

Lemma deliver_emits v : emits delivery_event (deliver_to_listeners h v).
Proof. unfold deliver_to_listeners. emits_rules. apply deliver_one_emits. Qed.

Lemma dispatch_one_emits lo ro v t : emits route_event (dispatch_one h lo ro v t).
Proof.
  unfold dispatch_one. case_match; emits_rules; [event_class|].
  eapply emits_weaken, run_on_error_emits. by right; right; left.
Qed.

Lemma route_emits lo ro ts v : emits route_event (route h lo ro ts v).
Proof.
  unfold route. emits_rules; [apply dispatch_one_emits|].
  case_match; emits_rules. eapply emits_weaken, deliver_emits. by right.
Qed.

Lemma run_before_emits mws v : emits before_event (run_before h mws v).
Proof.
  revert v. induction mws as [|m mws IH]; intros v; simpl; emits_rules; [event_class|].
  repeat case_match; emits_rules.
  - apply IH.
  - event_class.
  - eapply emits_weaken, own_on_error_emits. by right; left.
  - apply IH.
Qed.

Lemma run_after_emits mws v : emits after_event (run_after h mws v).
Proof.
  revert v. induction mws as [|m mws IH]; intros v; simpl; emits_rules; [event_class| |apply IH].
  case_match; emits_rules. eapply emits_weaken, own_on_error_emits. by right.
Qed.

(** ** Exact traces of the loops *)

(** The transports that are asked to dispatch: the admissible ones of the
    snapshot, in order, whatever they throw. *)
Lemma route_loop_dispatches lo ro local ts w w' tr :
  for_each ts (dispatch_one h lo ro local) w = (Ret (), w', tr) →
  omap dispatch_of tr =
  (λ t, (t, local)) <$> List.filter (λ t, admissible lo ro (scope_of h t)) ts.
Proof.
  revert w tr. induction ts as [|t ts IH]; intros w tr Hrun; simpl in Hrun; [by inv_ret Hrun|].
  apply bind_ret_inv in Hrun as (a & w1 & tr1 & tr2 & H1 & H2 & ->).
  rewrite omap_app, (IH w1 tr2 H2). simpl.
  unfold dispatch_one in H1. destruct (admissible lo ro (scope_of h t)); simpl; [|by inv_ret H1].
  apply catch_all_inv in H1 as [[Hc _]|(ep & w3 & tr3 & tr4 & Hc & He & ->)].
  - apply call_void_trace in Hc as ->. done.
  - apply call_void_trace in Hc as ->.
    assert (omap dispatch_of tr4 = []) as Hnil.
    { eapply emits_skips, He. eapply emits_weaken, run_on_error_emits.
      intros e [x Hx]. by destruct e as [[]|]. }
    by rewrite omap_app, Hnil.
Qed.

Lemma on_error_loop_trace snap v ep w w' tr :
  on_error_loop h snap v ep w = (Ret (), w', tr) → omap on_error_of tr = (λ m, (m, ep)) <$> snap.
Proof.
  revert v w tr. induction snap as [|m snap IH]; intros v w tr Hrun; simpl in Hrun; [by inv_ret Hrun|].
  apply bind_ret_inv in Hrun as (a & w1 & tr1 & tr2 & H1 & H2 & ->).
  apply call_ref_trace in H1 as ->. simpl. f_equal. by eapply IH.
Qed.

(** The error hooks that run are those of the middleware registered at that point. *)
Lemma run_on_error_trace v ep w w' tr :
  run_on_error h v ep w = (Ret (), w', tr) →
  omap on_error_of tr = (λ m, (m, ep)) <$> middleware_ (st w).
Proof.
  intros Hrun%noexcept_ret_inv.
  apply bind_ret_inv in Hrun as (snap & w1 & tr1 & tr2 & H1 & H2 & ->).
  apply with_lock_gets_ret in H1 as (-> & -> & ->). simpl. by eapply on_error_loop_trace.
Qed.

Lemma own_on_error_ret_trace m v ep w o w' tr :
  own_on_error h m v ep w = (o, w', tr) → tr = [EvCall (CallOnError m v ep)].
Proof.
  unfold own_on_error.
  intros [(r & w1 & tr1 & tr2 & H1 & [= <- <- <-] & ->)|[(e & He & _)|(u & Hu & _)]]%bind_inv.
  - by apply call_ref_trace in H1 as ->.
  - by apply call_ref_trace in He.
  - by apply call_ref_trace in Hu.
Qed.

(** What a before hook answers, in some world: a veto, or anything else (it returns
    [true], or throws). *)
Definition vetoes (m : obj) (v : EventEnvelope) : Prop :=
  ∃ w, r_out (run h (CallBefore m v) w) = Ret false.
Definition passes (m : obj) (v : EventEnvelope) : Prop :=
  ∃ w, r_out (run h (CallBefore m v) w) ≠ Ret false.

(** The before hooks of [mws] in a trace: all of them run and none vetoes; or they run
    up to the first that vetoes, which is counted as the one drop, last. *)
Inductive before_hooks (mws : list obj) : bool → list event → Prop :=
  | BeforeAll tr :
      omap before_of tr = mws → omap dropped_of tr = [] →
      (∀ m v, EvCall (CallBefore m v) ∈ tr → passes m v) →
      before_hooks mws true tr
  | BeforeVeto pre m post v tr n :
      mws = pre ++ m :: post → omap before_of tr = pre → omap dropped_of tr = [] →
      (∀ m v, EvCall (CallBefore m v) ∈ tr → passes m v) → vetoes m v →
      before_hooks mws false (tr ++ [EvCall (CallBefore m v); EvMetric (events_dropped n)]).

(** A hook that passes, and the error hook that its exception may call. *)
Lemma before_hooks_cons m v mws b tr1 tr2 :
  passes m v → (tr1 = [] ∨ ∃ m v ep, tr1 = [EvCall (CallOnError m v ep)]) →
  before_hooks mws b tr2 → before_hooks (m :: mws) b ([EvCall (CallBefore m v)] ++ tr1 ++ tr2).
Proof.
  intros Hp Htr1 Hb.
  assert (omap before_of tr1 = [] ∧ omap dropped_of tr1 = []) as [Hb1 Hd1]
    by (by destruct Htr1 as [->|(? & ? & ? & ->)]).
  assert (∀ tr, (∀ m v, EvCall (CallBefore m v) ∈ tr → passes m v) →
    ∀ m' v', EvCall (CallBefore m' v') ∈ [EvCall (CallBefore m v)] ++ tr1 ++ tr → passes m' v') as Hpass.
  { intros tr Htr m' v'. simpl. rewrite elem_of_cons, elem_of_app. intros [[= -> ->]|[Hx|Hx]]; [done| |by apply Htr].
    destruct Htr1 as [->|(? & ? & ? & ->)]; [by apply elem_of_nil in Hx|by apply list_elem_of_singleton in Hx]. }
  destruct Hb as [tr Ho Hd Hall|pre m' post v' tr n -> Ho Hd Hall Hv].
  - apply BeforeAll; [..|by apply Hpass]; simpl; by rewrite omap_app, ?Hb1, ?Hd1, ?Ho, ?Hd.
  - rewrite (app_assoc tr1), (app_assoc [_]).
    apply (BeforeVeto _ (m :: pre) m' post); [done|..|by apply Hpass|done];
      simpl; by rewrite omap_app, ?Hb1, ?Hd1, ?Ho, ?Hd.
Qed.

(** [before_dispatch] runs in the order of the snapshot up to the first veto. *)
Lemma run_before_hooks mws v b v' w w' tr :
  run_before h mws v w = (Ret (b, v'), w', tr) → before_hooks mws b tr.
Proof.
  revert v w tr. induction mws as [|m mws IH]; intros v w tr Hrun; simpl in Hrun.
  { inv_ret Hrun. apply BeforeAll; [done..|]. intros m x Hx. by apply elem_of_nil in Hx. }
  apply bind_ret_inv in Hrun as ([r v1] & w1 & tr1 & tr2 & H1 & H2 & ->).
  pose proof (call_ref_trace _ _ _ _ _ _ H1) as ->. simpl in H2.
  unfold call_ref in H1. destruct (r_out (run h (CallBefore m v) w)) as [[]|ep|u] eqn:Ho; simplify_eq; simpl in H2.
  - apply (before_hooks_cons m v mws b []); [exists w; congruence|by left|by apply IH in H2].
  - apply bind_ret_inv in H2 as (n & w2 & tr3 & tr4 & H3 & H4 & ->).
    apply bind_ret_inv in H4 as (u & w3 & tr5 & tr6 & H5 & H6 & ->).
    unfold name_of in H3. inv_ret H6. inv_ret H5. simplify_eq.
    apply (BeforeVeto _ [] m mws v []); [done..| |by exists w]. intros m' x Hx. by apply elem_of_nil in Hx.
  - apply bind_ret_inv in H2 as (v2 & w2 & tr3 & tr4 & H3 & H4 & ->).
    apply own_on_error_ret_trace in H3 as ->. apply before_hooks_cons; [exists w; congruence| |by apply IH in H4].
    right. by do 3 eexists.
Qed.

Lemma before_hooks_counts mws b tr :
  before_hooks mws b tr →
  if b then omap before_of tr = mws ∧ omap dropped_of tr = [] else ∃ n, omap dropped_of tr = [n].
Proof. intros [|pre m post x tr' n ? ? Hd]; [done|]. exists n. by rewrite omap_app, Hd. Qed.

Lemma run_after_trace mws v v' w w' tr :
  run_after h mws v w = (Ret v', w', tr) → omap after_of tr = mws.
Proof.
  revert v w tr. induction mws as [|m mws IH]; intros v w tr Hrun; simpl in Hrun; [by inv_ret Hrun|].
  apply bind_ret_inv in Hrun as ([r v1] & w1 & tr1 & tr2 & H1 & H2 & ->).
  apply call_ref_trace in H1 as ->. simpl in *.
  apply bind_ret_inv in H2 as (v2 & w2 & tr3 & tr4 & H3 & H4 & ->).
  rewrite omap_app, (IH _ _ _ H4). destruct r as [b|ep]; [by inv_ret H3|].
  by apply own_on_error_ret_trace in H3 as ->.
Qed.

(** ** Fan-out *)

(** The call that a handler makes on a given heap: a typed handler is called only
    with a payload of its type. *)
Definition handler_calls (hp : gmap loc EnvelopeCore) (v : EventEnvelope) (k : handler) : list event :=
  match k with
  | HEnvelope f => [EvCall (CallHandler f v)]
  | HPayload T f =>
      match env_payload_as T hp v with
      | Ret (Some p) => [EvCall (CallTyped f p)]
      | _ => []
      end
  | HListener T l =>
      match env_payload_as T hp v, l with
      | Ret (Some p), Some l => [EvCall (CallOnEvent l p)]
      | _, _ => []
      end
  end.

Lemma run_handler_trace k v w o w' tr :
  run_handler h k v w = (o, w', tr) → tr = handler_calls (heap w) v k.
Proof.
  destruct k as [T f|f|T l]; simpl; [|apply call_void_trace|];
    unfold payload_of, mbind, comp_bind; destruct (env_payload_as T (heap w) v) as [[p|]|e|u];
    try (by intros [= <- <- <-]).
  - destruct (call_void h (CallTyped f p) w) as [[o1 w1] tr1] eqn:Hc. intros [= <- <- <-].
    by apply call_void_trace in Hc.
  - destruct l as [l|]; [|by intros [= <- <- <-]].
    destruct (call_void h (CallOnEvent l p) w) as [[o1 w1] tr1] eqn:Hc. intros [= <- <- <-].
    by apply call_void_trace in Hc.
Qed.

(** The trace of one matching listener: it is counted, its handler runs, and if
    it throws the error is counted and goes to every middleware registered then. *)
Definition entry_trace (v : EventEnvelope) (name : string) (e : ListenerEntry) (seg : list event) : Prop :=
  ∃ w1 o w2, run_handler h (le_handler e) v w1 = (o, w2, handler_calls (heap w1) v (le_handler e)) ∧
    match o with
    | Ret _ => seg = EvMetric (listener_invocations name) :: handler_calls (heap w1) v (le_handler e)
    | Throw ep => ∃ errs,
        seg = EvMetric (listener_invocations name) :: handler_calls (heap w1) v (le_handler e)
                ++ EvMetric (listener_errors name) :: errs ∧
        Forall error_event errs ∧
        omap on_error_of errs = (λ m, (m, ep)) <$> middleware_ (st w2)
    | Undef _ => False
    end.

Lemma deliver_one_trace v name e w w' tr :
  entry_matches name e = true → deliver_one h v name e w = (Ret (), w', tr) → entry_trace v name e tr.
Proof.
  unfold deliver_one. intros ->.
  intros (u & w1 & tr1 & tr2 & H1 & H2 & ->)%bind_ret_inv. injection H1 as <- <- <-.
  apply catch_all_inv in H2 as [[Hr _]|(ep & w2 & tr3 & tr4 & Hr & He & ->)].
  - pose proof (run_handler_trace _ _ _ _ _ _ Hr) as ->. by exists w, (Ret ()), w'.
  - pose proof (run_handler_trace _ _ _ _ _ _ Hr) as ->. exists w, (Throw ep), w2.
    split; [done|]. apply bind_ret_inv in He as (u & w3 & tr5 & tr6 & H5 & H6 & ->).
    injection H5 as <- <- <-. exists tr6. split_and!; [done| |by eapply run_on_error_trace].
    by eapply run_on_error_emits.
Qed.

Lemma deliver_loop_trace v name es w w' tr :
  for_each es (deliver_one h v name) w = (Ret (), w', tr) →
  ∃ segs, Forall2 (entry_trace v name) (List.filter (entry_matches name) es) segs ∧ tr = concat segs.
Proof.
  revert w tr. induction es as [|e es IH]; intros w tr Hrun; simpl in Hrun.
  { inv_ret Hrun. by exists []. }
  apply bind_ret_inv in Hrun as (u & w1 & tr1 & tr2 & H1 & H2 & ->).
  destruct (IH _ _ H2) as (segs & Hsegs & ->). destruct u. simpl.
  destruct (entry_matches name e) eqn:Hm.
  - exists (tr1 :: segs). split; [|done]. constructor; [|done]. by eapply deliver_one_trace.
  - exists segs. split; [done|]. unfold deliver_one in H1. rewrite Hm in H1. by inv_ret H1.
Qed.

(** Fan-out runs exactly the matching entries of the snapshot, in its order. *)
Lemma deliver_trace v w w' tr :
  deliver_to_listeners h v w = (Ret (), w', tr) →
  ∃ name segs, env_name (heap w) v = Ret name ∧
    Forall2 (entry_trace v name) (List.filter (entry_matches name) (listeners_ (st w))) segs ∧
    tr = concat segs.
Proof.
  intros (es & w1 & tr1 & tr2 & H1 & H2 & ->)%bind_ret_inv.
  apply with_lock_gets_ret in H1 as (-> & -> & ->).
  apply bind_ret_inv in H2 as (name & w2 & tr3 & tr4 & H3 & H4 & ->).
  unfold name_of in H3. injection H3 as H3 <- <-.
  destruct (deliver_loop_trace _ _ _ _ _ _ H4) as (segs & Hsegs & ->). by exists name, segs.
Qed.

(** A projection skips the parts of [publish] that have none of its events. *)
Lemma class_skips {A B} (φ : event → Prop) (π : event → option B) (m : comp U BusState A) w o w' tr :
  emits φ m → (∀ e, φ e → π e = None) → m w = (o, w', tr) → omap π tr = [].
Proof. intros Hm Hπ Heq. by eapply emits_skips, Heq; eapply emits_weaken, Hm. Qed.

(** ** The phases of [publish] *)

Definition local_only_of (c : EnvelopeCore) : bool := contains flags.LocalOnly c.
Definition remote_only_of (c : EnvelopeCore) : bool := contains flags.RemoteOnly c.
Definition runs_middleware (c : EnvelopeCore) : bool := negb (contains flags.NoMiddleware c).

(** What a conflict of [LocalOnly] and [RemoteOnly] runs. *)
Definition report_conflict (local : EventEnvelope) : comp U BusState bool :=
  run_on_error h local conflict_error;;
  name ← name_of local;
  emit (events_dropped name);;
  mret false.

Inductive publish_phases (v : EventEnvelope) w w' (tr : list event) : Prop :=
  PublishPhases c name w1 b local w2 tr1 proceed w3 tr2 w4 tr3 local' w5 tr4 tail
    (Hcore : core_of (heap w) v = Ret c)
    (Hst : st w1 = st w)
    (Hname : env_name (heap w1) v = Ret name)
    (Hbefore : if runs_middleware c
               then run_before h (middleware_ (st w)) v w1 = (Ret (b, local), w2, tr1)
               else b = true ∧ local = v ∧ w2 = w1 ∧ tr1 = [])
    (Hconflict : if local_only_of c && remote_only_of c
                 then proceed = false ∧ report_conflict local w2 = (Ret false, w3, tr2)
                 else proceed = b ∧ w3 = w2 ∧ tr2 = [])
    (Hroute : if (proceed : bool)
              then route h (local_only_of c) (remote_only_of c) (transports_ (st w2)) local w3
                   = (Ret (), w4, tr3)
              else w4 = w3 ∧ tr3 = [])
    (Hafter : if runs_middleware c
              then run_after h (reverse (middleware_ (st w))) local w4 = (Ret local', w5, tr4)
              else tr4 = [])
    (Htail : Forall (λ e, ∃ n el, e = EvMetric (dispatch_seconds n el)) tail)
    (Htr : tr = EvMetric (events_published name) :: tr1 ++ tr2 ++ tr3 ++ tr4 ++ tail).

Lemma write_core_inv v f w w' tr :
  write_core v f w = (Ret (), w', tr) →
  tr = [] ∧ st w' = st w ∧ ∃ c, core_of (heap w) v = Ret c ∧ core_of (heap w') v = Ret (f c).
Proof.
  unfold write_core. intros Heq.
  destruct (core_of (heap w) v) as [c| |] eqn:Hc, (value v) as [l|] eqn:Hv; try done.
  simplify_eq. split_and!; [done|done|]. exists c. split; [done|].
  unfold core_of. rewrite Hv. simpl. by rewrite lookup_insert_eq.
Qed.

Lemma publish_tail_trace (start : time_point) local w w' tr :
  (finished ← now h;
   elapsed ← lift (clock_difference finished start);
   if (0 <=? elapsed)%Z then name ← name_of local; emit (dispatch_seconds name elapsed)
   else mret ()) w = (Ret (), w', tr) →
  Forall (λ e, ∃ n el, e = EvMetric (dispatch_seconds n el)) tr.
Proof.
  intros Hrun. refine ((_ : emits _ _) _ _ _ _ Hrun).
  apply emits_bind; [by apply emits_silent|]. intros t. emits_rules.
  case_match; emits_rules. by eexists _, _.
Qed.

Lemma publish_impl_phases v w w' tr :
  publish_impl h v w = (Ret (), w', tr) → publish_phases v w w' tr.
Proof.
  unfold publish_impl. intros Hrun.
  apply bind_ret_inv in Hrun as (c & ? & ? & trA & Hc & Hrun & ->).
  unfold read_core in Hc. injection Hc as Hc <- <-.
  apply bind_ret_inv in Hrun as (start & wn & ? & trB & Hnow & Hrun & ->).
  unfold now in Hnow. injection Hnow as <- <- <-.
  apply bind_ret_inv in Hrun as (u & w1 & ? & trC & Hw & Hrun & ->). destruct u.
  apply write_core_inv in Hw as (-> & Hst & c0 & Hc0 & Hc1). simpl in Hst, Hc0.
  apply bind_ret_inv in Hrun as (name & ? & ? & trD & Hn & Hrun & ->).
  unfold name_of in Hn. injection Hn as Hn <- <-.
  apply bind_ret_inv in Hrun as (u & ? & ? & trE & He & Hrun & ->). injection He as <- <- <-.
  apply bind_ret_inv in Hrun as (c2 & ? & ? & trF & Hr & Hrun & ->).
  unfold read_core in Hr. injection Hr as Hc2 <- <-.
  assert (contains flags.NoMiddleware c2 = contains flags.NoMiddleware c) as Hmw.
  { rewrite Hc1 in Hc2. injection Hc2 as <-. by replace c0 with c by congruence. }
  apply bind_ret_inv in Hrun as (mws & w1' & tr0 & trG & Hm & Hrun & ->).
  apply bind_ret_inv in Hrun as ([b local] & w2 & tr1 & trH & Hb & Hrun & ->).
  apply bind_ret_inv in Hrun as (ts & w2' & tr1' & trI & Ht & Hrun & ->).
  apply with_lock_gets_ret in Ht as (-> & -> & ->).
  apply bind_ret_inv in Hrun as (proceed & w3 & tr2 & trJ & Hp & Hrun & ->).
  apply bind_ret_inv in Hrun as (u & w4 & tr3 & trK & Hro & Hrun & ->). destruct u.
  apply bind_ret_inv in Hrun as (local' & w5 & tr4 & tail & Ha & Hrun & ->).
  apply publish_tail_trace in Hrun. rewrite Hmw in Hm, Hb, Ha.
  assert (w1' = w1 ∧ tr0 = [] ∧ (runs_middleware c = true → mws = middleware_ (st w)))
    as (Hw1 & -> & Hmws).
  { unfold runs_middleware. destruct (contains flags.NoMiddleware c); simpl in Hm.
    - by inv_ret Hm.
    - apply with_lock_gets_ret in Hm as (-> & -> & ->). by rewrite Hst. }
  subst w1'. apply (PublishPhases v w w' _ c name w1 b local w2 tr1 proceed w3 tr2 w4 tr3 local' w5 tr4 tail);
    [congruence|done|done| | | | |done|by simplify_list_eq].
  - unfold runs_middleware in *. destruct (contains flags.NoMiddleware c); simpl in *; [by inv_ret Hb|].
    by rewrite <- Hmws.
  - simpl in Hp. fold (local_only_of c) (remote_only_of c) in Hp.
    destruct (local_only_of c && remote_only_of c); [|by inv_ret Hp].
    assert (proceed = false) as ->; [|done].
    apply bind_ret_inv in Hp as (? & ? & ? & ? & _ & Hp & _).
    apply bind_ret_inv in Hp as (? & ? & ? & ? & _ & Hp & _).
    apply bind_ret_inv in Hp as (? & ? & ? & ? & _ & Hp & _). by inv_ret Hp.
  - simpl in Hro. destruct proceed; [done|by inv_ret Hro].
  - unfold runs_middleware in *. destruct (contains flags.NoMiddleware c); simpl in *; [by inv_ret Ha|].
    by rewrite <- Hmws.
Qed.
End traces.
