(* ===== verification/BusSafety.v ===== *)
(** * The bus never fails on account of the code it calls

    Publishing, delivering and reporting errors return normally whatever the
    middleware, the transports and the listeners throw or do to the bus in the
    meantime: no exception escapes, no [noexcept] function is left by one, and
    the mutex is never locked twice because it is never held during a call. *)

From S2P Require Import Prelude Exceptions External Flags Instances Envelope Serialization Glob World WorldLogic WorldSafety Hosts Listener Bus.

Section safety.
Context `{Externals} {U : Type} (h : host U BusState) (I : BusState → U → Prop).

(** Listeners registered with a null [EventListener] pointer are excluded: their
    closure dereferences it. *)
Definition handler_ok (k : handler) : Prop :=
  match k with HListener _ None => False | _ => True end.

Definition handlers_ok (s : BusState) : Prop := Forall (λ e, handler_ok (le_handler e)) (listeners_ s).

Hypothesis Hciv : civil h I.
Hypothesis Hok : ∀ s u, I s u → handlers_ok s.

Abbreviation wp := (wp I).
Abbreviation good := (good I).
Abbreviation completes := (returns (λ (_ : ()) (_ : world U BusState), True)).

Lemma completes_ret a (w : world U BusState) : completes (Ret a) w.
Proof. by exists a. Qed.

Lemma returns_ret {A} (Q : A → world U BusState → Prop) a w : Q a w → returns Q (Ret a) w.
Proof. by exists a. Qed.

(** A call whose exceptions are swallowed. *)
Lemma wp_ignore m w :
  wp m (λ o _, True) w → wp (catch_all m (λ _, mret ())) completes w.
Proof.
  intros Hm. apply wp_catch_all. eapply wp_mono; [|exact Hm].
  intros [[]|e|u] w' Hg' _ Hu _; [apply completes_ret| |done].
  apply wp_ret; [done|apply completes_ret].
Qed.

Lemma wp_call_any c w :
  good w → (∀ v, call_env c = Some v → live v w) → wp (call_void h c) (λ _ _, True) w.
Proof. intros Hg Hv. by apply wp_call_void. Qed.

Lemma on_error_loop_wp snap v ep w :
  good w → live v w → wp (on_error_loop h snap v ep) completes w.
Proof.
  revert v w. induction snap as [|m snap IH]; intros v w Hg Hv; simpl.
  - apply wp_ret; [done|apply completes_ret].
  - apply wp_bind, wp_call_ref; [done|done|by intros ? [= <-]|].
    intros r v' w' Hg' Hle Hv'. apply IH; [done|]. apply Hv'. by eexists.
Qed.

Lemma run_on_error_wp v ep w :
  good w → live v w → wp (run_on_error h v ep) completes w.
Proof.
  intros Hg Hv. apply wp_noexcept, wp_bind, wp_with_lock_gets; [done|].
  eapply wp_mono; [|by apply on_error_loop_wp].
  intros o w' _ _ _ (a & -> & _). split; by eexists.
Qed.

Lemma run_handler_wp k v w :
  good w → live v w → handler_ok k → wp (run_handler h k v) (λ _ _, True) w.
Proof.
  intros Hg Hv Hk. destruct k as [T f|f|T l]; simpl.
  - apply wp_bind, wp_payload_of; [done|done|]. intros [p|] _; [by apply wp_call_any|by apply wp_ret].
  - apply wp_call_any; [done|]. by intros ? [= <-].
  - apply wp_bind, wp_payload_of; [done|done|]. destruct l as [l|]; [|done].
    intros [p|] _; [by apply wp_call_any|by apply wp_ret].
Qed.

Lemma deliver_one_wp v name e w :
  good w → live v w → handler_ok (le_handler e) → wp (deliver_one h v name e) completes w.
Proof.
  intros Hg Hv He. unfold deliver_one. case_match; [|apply wp_ret; [done|apply completes_ret]].
  apply wp_bind, wp_emit; [done|]. apply wp_catch_all.
  eapply wp_mono; [|by apply run_handler_wp].
  intros [[]|ep|u] w' Hg' Hle Hu _; [apply completes_ret| |done].
  apply wp_bind, wp_emit; [done|]. apply run_on_error_wp; [done|]. by eapply live_mono.
Qed.

Lemma deliver_wp v w :
  good w → live v w → wp (deliver_to_listeners h v) completes w.
Proof.
  intros Hg Hv. apply wp_bind, wp_with_lock_gets; [done|].
  apply wp_bind, wp_name_of; [done|done|]. intros name _.
  pose proof (Hok _ _ (proj2 Hg)) as Hall.
  eapply wp_mono; [|apply (wp_for_each _ _ _ (λ w, live v w))]; [|done|done|].
  - intros o w' _ _ _ (a & -> & _). apply completes_ret.
  - intros e w1 He Hg1 Hle Hv1. eapply wp_mono; [|apply deliver_one_wp; [done|done|]].
    + intros o w' _ Hle' _ (a & -> & _). apply returns_ret. by eapply live_mono.
    + unfold handlers_ok in Hall. rewrite Forall_forall in Hall. by apply Hall.
Qed.

Lemma own_on_error_wp m v ep w :
  good w → live v w → wp (own_on_error h m v ep) (returns (λ v' w', live v' w')) w.
Proof.
  intros Hg Hv. apply wp_bind, wp_call_ref; [done|done|by intros ? [= <-]|].
  intros r v' w' Hg' _ Hv'. apply wp_ret; [done|]. apply returns_ret, Hv'. by eexists.
Qed.

Lemma run_before_wp mws v w :
  good w → live v w → wp (run_before h mws v) (returns (λ r w', live r.2 w')) w.
Proof.
  revert v w. induction mws as [|m mws IH]; intros v w Hg Hv; simpl.
  - apply wp_ret; [done|]. by apply returns_ret.
  - apply wp_bind, wp_call_ref; [done|done|by intros ? [= <-]|].
    intros r v' w' Hg' Hle Hv'. simpl.
    assert (live v' w') as Hl by (apply Hv'; by eexists).
    destruct r as [[]|ep]; [by apply IH| |].
    + apply wp_bind, wp_name_of; [done|done|]. intros name _.
      apply wp_bind, wp_emit; [done|]. apply wp_ret; [done|]. by apply returns_ret.
    + eapply wp_bind_returns; [by apply own_on_error_wp|]. intros v'' w'' Hg'' _ Hl''. by apply IH.
Qed.

Lemma run_after_wp mws v w :
  good w → live v w → wp (run_after h mws v) (returns (λ v' w', live v' w')) w.
Proof.
  revert v w. induction mws as [|m mws IH]; intros v w Hg Hv; simpl.
  - apply wp_ret; [done|]. by apply returns_ret.
  - apply wp_bind, wp_call_ref; [done|done|by intros ? [= <-]|].
    intros r v' w' Hg' Hle Hv'. assert (live v' w') as Hl by (apply Hv'; by eexists).
    eapply wp_bind_returns; [|intros v'' w'' Hg'' _ Hl''; by apply IH].
    destruct r as [b|ep]; simpl; [|by apply own_on_error_wp].
    apply wp_ret; [done|]. by apply returns_ret.
Qed.

Lemma dispatch_one_wp lo ro v t w :
  good w → live v w → wp (dispatch_one h lo ro v t) completes w.
Proof.
  intros Hg Hv. unfold dispatch_one. case_match; [|apply wp_ret; [done|apply completes_ret]].
  apply wp_catch_all. eapply wp_mono; [|apply wp_call_any; [done|by intros ? [= <-]]].
  intros [[]|ep|u] w' Hg' Hle Hu _; [apply completes_ret| |done].
  apply run_on_error_wp; [done|]. by eapply live_mono.
Qed.

Lemma route_wp lo ro ts v w :
  good w → live v w → wp (route h lo ro ts v) (returns (λ _ w', live v w')) w.
Proof.
  intros Hg Hv. eapply wp_bind_returns.
  - apply (wp_for_each _ _ _ (λ w, live v w)); [done|done|].
    intros t w1 _ Hg1 _ Hv1. eapply wp_mono; [|by apply dispatch_one_wp].
    intros o w' _ Hle _ (a & -> & _). apply returns_ret. by eapply live_mono.
  - intros a w' Hg' _ Hv'. case_match; [|apply wp_ret; [done|by apply returns_ret]].
    eapply wp_mono; [|by apply deliver_wp].
    intros o w'' _ Hle _ (b & -> & _). apply returns_ret. by eapply live_mono.
Qed.

Lemma conflict_wp v w :
  good w → live v w →
  wp (run_on_error h v conflict_error;; name ← name_of v; emit (events_dropped name);; mret false)
     (returns (λ b w', live v w' ∧ b = false)) w.
Proof.
  intros Hg Hv. eapply wp_bind_returns; [by apply run_on_error_wp|].
  intros a w' Hg' Hle _. apply wp_bind, wp_name_of; [done|by eapply live_mono|]. intros name _.
  apply wp_bind, wp_emit; [done|]. apply wp_ret; [done|]. apply returns_ret.
  split; [by eapply live_mono|done].
Qed.

Lemma clock_difference_defined n k : is_ret (clock_difference (time_at h n) (time_at h k)).
Proof.
  destruct (civil_clock h I Hciv n), (civil_clock h I Hciv k). unfold clock_difference.
  assert (in_i64 (time_at h n - time_at h k) = true) as ->; [|by eexists].
  apply in_i64_spec. unfold is_i64. pose proof (eq_refl : i64_min = -9223372036854775808)%Z.
  pose proof (eq_refl : i64_max = 9223372036854775807)%Z. lia.
Qed.

Lemma wp_now (Q : outcome time_point → world U BusState → Prop) w :
  good w →
  (∀ n w', good w' → heap_le w w' → st w' = st w → Q (Ret (time_at h n)) w') → wp (now h) Q w.
Proof.
  intros Hg HQ. eexists (Ret _), _, []. split; [done|].
  assert (heap_le w (World (heap w) (locked w) (S (reads w)) (user w) (st w))) by by intros l.
  split_and!; [apply not_undef_ret|done|done|]. by apply HQ.
Qed.

Lemma publish_impl_wp v w :
  good w → live v w → wp (publish_impl h v) completes w.
Proof.
  intros Hg Hv. unfold publish_impl.
  apply wp_bind, wp_read_core; [done|done|]. intros c _.
  apply wp_bind, wp_now; [done|]. intros n w1 Hg1 Hle1 _.
  assert (live v w1) as Hv1 by by eapply live_mono.
  apply wp_bind, wp_write_core; [done|done|]. intros w2 Hg2 Hle2 _.
  assert (live v w2) as Hv2 by by eapply live_mono.
  apply wp_bind, wp_name_of; [done|done|]. intros name _.
  apply wp_bind, wp_emit; [done|]. apply wp_bind, wp_read_core; [done|done|]. intros c2 _.
  eapply (wp_bind_returns _ _ _ (λ _ w', live v w')).
  { case_match; [apply wp_with_lock_gets|apply wp_ret]; try done; by apply returns_ret. }
  intros mws w3 Hg3 _ Hv3.
  eapply (wp_bind_returns _ _ _ (λ r w', live r.2 w')).
  { case_match; [by apply run_before_wp|apply wp_ret; [done|by apply returns_ret]]. }
  intros [b local] w4 Hg4 _ Hv4. simpl in *.
  apply wp_bind, wp_with_lock_gets; [done|].
  eapply (wp_bind_returns _ _ _ (λ _ w', live local w')).
  { case_match; [|apply wp_ret; [done|by apply returns_ret]].
    eapply wp_mono; [|by apply conflict_wp]. intros o w' _ _ _ (? & -> & ? & _). by apply returns_ret. }
  intros proceed w5 Hg5 _ Hv5.
  eapply (wp_bind_returns _ _ _ (λ _ w', live local w')).
  { destruct proceed; [by apply route_wp|apply wp_ret; [done|by apply returns_ret]]. }
  intros a w6 Hg6 _ Hv6.
  eapply (wp_bind_returns _ _ _ (λ v' w', live v' w')).
  { case_match; [by apply run_after_wp|apply wp_ret; [done|by apply returns_ret]]. }
  intros local' w7 Hg7 _ Hv7. apply wp_bind, wp_now; [done|]. intros k w8 Hg8 Hle8 _.
  destruct (clock_difference_defined k n) as [el ->].
  apply wp_bind, wp_lift_ret; [done|].
  case_match; [|apply wp_ret; [done|apply completes_ret]].
  apply wp_bind, wp_name_of; [done|by eapply live_mono|]. intros name' _.
  apply wp_emit; [done|apply completes_ret].
Qed.

Lemma report_transport_error_wp tn ep w :
  good w → wp (report_transport_error h tn ep) completes w.
Proof.
  intros Hg. apply wp_noexcept, wp_bind, wp_emit; [done|].
  apply wp_bind, wp_with_lock_gets; [done|].
  eapply wp_mono; [|apply (wp_for_each _ _ _ (λ _, True))]; [|done|done|].
  - intros o w' _ _ _ (a & -> & _). split; by eexists.
  - intros m w1 _ Hg1 _ _. by apply wp_ignore, wp_call_any.
Qed.
End safety.

(** ** Theorems *)

Section theorems.
Context `{Externals} {U : Type} (h : host U BusState) (I : BusState → U → Prop).

(** C2: publishing an envelope always completes: whatever the middleware, the
    transports, the listeners and the error hooks throw, and however they
    re-enter the bus, no exception leaves [publish], no [noexcept] helper is
    broken, the mutex is never locked recursively and is free at the end. *)
Theorem publish_never_throws (v : EventEnvelope) (w : world U BusState) :
  civil h I → (∀ s u, I s u → handlers_ok s) → good I w → live v w →
  ∃ w' tr, publish_impl h v w = (Ret (), w', tr) ∧ good I w'.
Proof.
  intros Hh Hok Hg Hv.
  destruct (publish_impl_wp h I Hh Hok v w Hg Hv) as (o & w' & tr & Heq & _ & Hg' & _ & [] & -> & _).
  by exists w', tr.
Qed.

(** The fan-out called by transports completes as well, so an exception of one
    listener never reaches the transport that delivers. *)
Lemma deliver_never_throws (v : EventEnvelope) (w : world U BusState) :
  civil h I → (∀ s u, I s u → handlers_ok s) → good I w → live v w →
  ∃ w' tr, deliver_to_listeners h v w = (Ret (), w', tr) ∧ good I w'.
Proof.
  intros Hh Hok Hg Hv.
  destruct (deliver_wp h I Hh Hok v w Hg Hv) as (o & w' & tr & Heq & _ & Hg' & _ & [] & -> & _).
  by exists w', tr.
Qed.
End theorems.

(** ** Witnesses *)

Definition busy_bus : BusState :=
  MkBus new_EventRegistry [2; 7; 9]%positive [1; 9]%positive
    [MkEntry 1 (HPayload (sample_type "order") 3) "order" false 0;
     MkEntry 2 (HEnvelope 9) "ord*" true 5] 2 false false.

Definition busy_world : world () BusState := world_with (order_core []) busy_bus.

Definition ok_bus (s : BusState) (u : ()) : Prop := handlers_ok s.

Lemma busy_good : good ok_bus busy_world.
Proof. split; [done|]. repeat constructor. Qed.

Lemma publish_never_throws_witness :
  ∃ w' tr, publish_impl faulty_host (envelope_at 1%positive) busy_world = (Ret (), w', tr) ∧ good ok_bus w'.
Proof.
  apply publish_never_throws; [apply faulty_civil|done|apply busy_good|apply live_world_with].
Defined.

Lemma deliver_never_throws_witness :
  ∃ w' tr, deliver_to_listeners faulty_host (envelope_at 1%positive) busy_world = (Ret (), w', tr) ∧
           good ok_bus w'.
Proof.
  apply deliver_never_throws; [apply faulty_civil|done|apply busy_good|apply live_world_with].
Defined.
