(* ===== verification/BusRouting.v ===== *)
(** * What [publish] and [deliver_to_listeners] do

    The theorems about routing, the middleware pipeline, drops, conflicts and
    fan-out.  None of them restricts the environment: middleware, transports and
    listeners may throw and may change the bus while an envelope is in flight;
    each theorem names the registrations that count, those of the moment at
    which the code takes its snapshot. *)

From S2P Require Import Prelude Exceptions External Flags Instances Envelope Serialization Glob World WorldLogic WorldSafety Hosts Listener Bus BusTraces BusSafety.

Section theorems.
Context `{Externals} {U : Type} (h : host U BusState).
Implicit Types w : world U BusState.

(** Decide that no event of a class is seen by a projection. *)
Ltac no_event :=
  let e := fresh in intros e; destruct e as [[]|[]];
  unfold route_event, delivery_event, before_event, after_event, error_event, is_Some;
  intros; repeat match goal with
    | H : _ ∨ _ |- _ => destruct H
    | H : ∃ _, _ |- _ => destruct H
    end; simplify_eq/=; auto.

(** The phase before routing: whether to proceed, with which envelope, and the
    world in which the transports are read. *)
Definition middleware_phase (v : EventEnvelope) w (c : EnvelopeCore) (b : bool)
    (local : EventEnvelope) w2 tr1 : Prop :=
  ∃ w1, st w1 = st w ∧
    if runs_middleware c then run_before h (middleware_ (st w)) v w1 = (Ret (b, local), w2, tr1)
    else b = true ∧ local = v ∧ w2 = w1 ∧ tr1 = [].

(** The parts of an execution and what each can contribute. *)
Lemma publish_parts v w w' tr c :
  publish_impl h v w = (Ret (), w', tr) → core_of (heap w) v = Ret c →
  let lo := local_only_of c in let ro := remote_only_of c in
  ∃ name b local w2 tr1 tr2 tr3 tr4 tail,
    tr = EvMetric (events_published name) :: tr1 ++ tr2 ++ tr3 ++ tr4 ++ tail ∧
    middleware_phase v w c b local w2 tr1 ∧ Forall before_event tr1 ∧
    (if lo && ro
     then Forall (λ e, error_event e ∨ is_Some (dropped_of e)) tr2 ∧
          (∃ n, omap dropped_of tr2 = [n]) ∧
          omap on_error_of tr2 = (λ m, (m, conflict_error)) <$> middleware_ (st w2)
     else tr2 = []) ∧
    (if b && negb (lo && ro)
     then ∃ w4, route h lo ro (transports_ (st w2)) local w2 = (Ret (), w4, tr3) ∧
                Forall route_event tr3
     else tr3 = []) ∧
    Forall after_event tr4 ∧
    omap after_of tr4 = (if runs_middleware c then reverse (middleware_ (st w)) else []) ∧
    Forall (λ e, ∃ n el, e = EvMetric (dispatch_seconds n el)) tail.
Proof.
  intros Hrun Hc0 lo ro.
  destruct (publish_impl_phases h v w w' tr Hrun) as [c' name w1 b local w2 tr1 proceed w3 tr2 w4 tr3
    local' w5 tr4 tail Hcore Hst Hname Hbefore Hconflict Hroute Hafter Htail Htr].
  rewrite Hc0 in Hcore. injection Hcore as <-. fold lo ro in Hconflict, Hroute.
  exists name, b, local, w2, tr1, tr2, tr3, tr4, tail.
  split; [done|]. split; [by exists w1|]. split_and!; [| | | | |done].
  - destruct (runs_middleware c); [by eapply run_before_emits|].
    destruct Hbefore as (_ & _ & _ & ->). constructor.
  - destruct (lo && ro); [|by destruct Hconflict as (_ & _ & ->)].
    destruct Hconflict as [_ Hc]. unfold report_conflict in Hc.
    apply bind_ret_inv in Hc as (u & x & t1 & t2 & H1 & Hc & ->). destruct u.
    apply bind_ret_inv in Hc as (n & x2 & t3 & t4 & H2 & Hc & ->).
    unfold name_of in H2. injection H2 as H2 <- <-.
    apply bind_ret_inv in Hc as (u & x3 & t5 & t6 & H3 & Hc & ->).
    injection H3 as <- <- <-. injection Hc as <- <-.
    assert (omap dropped_of t1 = []) as Hd.
    { eapply class_skips, H1; [apply run_on_error_emits|]. no_event. }
    rewrite !omap_app, Hd. split_and!; [|by exists n|].
    + apply Forall_app. split; [|constructor; [right; by eexists|constructor]].
      eapply Forall_impl; [by eapply run_on_error_emits|]. by left.
    + rewrite (run_on_error_trace _ _ _ _ _ _ H1). simpl. by rewrite app_nil_r.
  - destruct (lo && ro); simpl in *.
    + destruct Hconflict as [-> _]. rewrite andb_false_r. by destruct Hroute.
    + destruct Hconflict as (-> & -> & _). rewrite andb_true_r.
      destruct b; [|by destruct Hroute]. exists w4. split; [done|]. by eapply route_emits.
  - destruct (runs_middleware c); [by eapply run_after_emits|]. subst. constructor.
  - destruct (runs_middleware c); [by eapply run_after_trace|]. by subst.
Qed.

(** Projections of the parts that have no such event. *)
Lemma Forall_skips {B} (φ : event → Prop) (π : event → option B) tr :
  Forall φ tr → (∀ e, φ e → π e = None) → omap π tr = [].
Proof. intros Hf Hπ. apply omap_skips. eapply Forall_impl; [done|]. exact Hπ. Qed.

Lemma route_dispatches lo ro ts local w w' tr :
  route h lo ro ts local w = (Ret (), w', tr) →
  omap dispatch_of tr = (λ t, (t, local)) <$> List.filter (λ t, admissible lo ro (scope_of h t)) ts.
Proof.
  intros (u & w1 & tr1 & tr2 & H1 & H2 & ->)%bind_ret_inv. destruct u.
  rewrite omap_app, (route_loop_dispatches _ _ _ _ _ _ _ _ H1).
  assert (omap dispatch_of tr2 = []) as ->; [|by rewrite app_nil_r].
  case_match; [|by inv_ret H2].
  eapply class_skips, H2; [apply deliver_emits|]. no_event.
Qed.

(** What [publish] dispatches. *)
Lemma publish_dispatches (v : EventEnvelope) w w' tr (c : EnvelopeCore) :
  publish_impl h v w = (Ret (), w', tr) → core_of (heap w) v = Ret c →
  let lo := local_only_of c in let ro := remote_only_of c in
  ∃ b local w2 tr1, middleware_phase v w c b local w2 tr1 ∧
    omap dispatch_of tr =
    if b && negb (lo && ro)
    then (λ t, (t, local)) <$>
           List.filter (λ t, admissible lo ro (scope_of h t)) (transports_ (st w2))
    else [].
Proof.
  intros Hrun Hc lo ro.
  destruct (publish_parts v w w' tr c Hrun Hc)
    as (name & b & local & w2 & tr1 & tr2 & tr3 & tr4 & tail & -> & Hmw & H1 & H2 & H3 & H4 & _ & H5).
  fold lo ro in H2, H3. exists b, local, w2, tr1. split; [done|]. simpl. rewrite !omap_app.
  rewrite (Forall_skips _ dispatch_of tr1 H1), (Forall_skips _ dispatch_of tr4 H4),
    (Forall_skips _ dispatch_of tail H5) by no_event.
  assert (omap dispatch_of tr2 = []) as ->.
  { destruct (lo && ro); [|by subst]. destruct H2 as [H2 _].
    eapply Forall_skips; [exact H2|]. no_event. }
  simpl. rewrite app_nil_r. destruct (b && negb (lo && ro)); [|by subst].
  destruct H3 as (w4 & H3 & _). by eapply route_dispatches.
Qed.

(** C1: routing.  Every transport registered when the middleware is done and
    admissible for the envelope's [LocalOnly] / [RemoteOnly] flags is asked to
    dispatch it exactly once, in priority order, whatever the other transports
    throw; no other transport is; and none at all when the middleware vetoed the
    envelope or the two flags conflict. *)
Theorem publish_routes (v : EventEnvelope) w w' tr (c : EnvelopeCore) :
  publish_impl h v w = (Ret (), w', tr) → core_of (heap w) v = Ret c →
  let lo := local_only_of c in let ro := remote_only_of c in
  ∃ b local w2 tr1, middleware_phase v w c b local w2 tr1 ∧
    omap dispatch_of tr =
    if b && negb (lo && ro)
    then (λ t, (t, local)) <$>
           List.filter (λ t, admissible lo ro (scope_of h t)) (transports_ (st w2))
    else [].
Proof. apply publish_dispatches. Qed.

(** An envelope flagged [LocalOnly] never reaches a remote transport and one
    flagged [RemoteOnly] never reaches a local one. *)
Theorem publish_respects_scope (v : EventEnvelope) w w' tr (c : EnvelopeCore) t v' :
  publish_impl h v w = (Ret (), w', tr) → core_of (heap w) v = Ret c →
  EvCall (CallDispatch t v') ∈ tr →
  (local_only_of c = true → scope_of h t = Local) ∧ (remote_only_of c = true → scope_of h t = Remote).
Proof.
  intros Hrun Hc Hin.
  destruct (publish_dispatches v w w' tr c Hrun Hc) as (b & local & w2 & tr1 & _ & Hd).
  assert ((t, v') ∈ omap dispatch_of tr) as Ht by (apply list_elem_of_omap; by eexists).
  rewrite Hd in Ht. destruct (b && _); [|by apply elem_of_nil in Ht].
  apply list_elem_of_fmap in Ht as (t' & [= <- _] & Ht).
  apply list_elem_of_In, filter_In in Ht as [_ Ht]. unfold admissible in Ht.
  destruct (local_only_of c), (remote_only_of c), (scope_of h t); naive_solver.
Qed.

(** C30: the pipeline.  Everything happens in the order publish counter, before hooks,
    routing, after hooks.  The before hooks run in priority order: either all of them,
    and then none vetoed (each returned true or threw) and nothing is counted as
    dropped; or up to the first that returned false, which is followed by the count of
    the drop and by no dispatch and no listener.  The after hooks run in reverse order,
    all of them even after a veto or a conflict; with [NoMiddleware] neither runs. *)
Theorem publish_pipeline_order (v : EventEnvelope) w w' tr (c : EnvelopeCore) :
  publish_impl h v w = (Ret (), w', tr) → core_of (heap w) v = Ret c →
  let mws := if runs_middleware c then middleware_ (st w) else [] in
  ∃ name b pre mid post,
    tr = EvMetric (events_published name) :: pre ++ mid ++ post ∧
    Forall before_event pre ∧ Forall (λ e, before_of e = None ∧ after_of e = None) mid ∧
    Forall (λ e, after_event e ∨ ∃ n el, e = EvMetric (dispatch_seconds n el)) post ∧
    before_hooks h mws b pre ∧
    (b = false → omap dispatch_of mid = [] ∧ omap handler_of mid = []) ∧
    omap after_of post = reverse mws.
Proof.
  intros Hrun Hc mws.
  destruct (publish_parts v w w' tr c Hrun Hc)
    as (name & b & local & w2 & tr1 & tr2 & tr3 & tr4 & tail & -> & Hmw & H1 & H2 & H3 & H4 & Ha & H5).
  exists name, b, tr1, (tr2 ++ tr3), (tr4 ++ tail). split_and!; [by simplify_list_eq|done| | | | |].
  - apply Forall_app. split.
    + destruct (_ && _); [|subst; constructor]. destruct H2 as [H2 _].
      eapply Forall_impl; [exact H2|]. no_event.
    + destruct (b && _); [|subst; constructor]. destruct H3 as (w4 & _ & H3).
      eapply Forall_impl; [exact H3|]. no_event.
  - apply Forall_app. split; (eapply Forall_impl; [done|]; tauto).
  - destruct Hmw as (w1 & _ & Hb). subst mws. destruct (runs_middleware c); [by eapply run_before_hooks|].
    destruct Hb as (-> & _ & _ & ->). apply BeforeAll; [done..|]. intros m x Hx. by apply elem_of_nil in Hx.
  - intros ->. simpl in H3. subst tr3. rewrite app_nil_r. destruct (_ && _); [|by subst]. destruct H2 as [H2 _].
    split; (eapply Forall_skips; [exact H2|]; no_event).
  - rewrite omap_app, Ha, (Forall_skips _ after_of tail H5) by no_event. rewrite app_nil_r.
    subst mws. by destruct (runs_middleware c).
Qed.

(** Drops.  Without a flag conflict, either nothing is counted as dropped and
    every before hook ran, or exactly one drop is counted and then no transport
    is asked to dispatch and no listener is called. *)
Theorem publish_drop_accounting (v : EventEnvelope) w w' tr (c : EnvelopeCore) :
  publish_impl h v w = (Ret (), w', tr) → core_of (heap w) v = Ret c →
  local_only_of c && remote_only_of c = false →
  (omap dropped_of tr = [] ∧
     omap before_of tr = (if runs_middleware c then middleware_ (st w) else [])) ∨
  (∃ n, omap dropped_of tr = [n] ∧ omap dispatch_of tr = [] ∧ omap handler_of tr = []).
Proof.
  intros Hrun Hc Hno.
  destruct (publish_parts v w w' tr c Hrun Hc)
    as (name & b & local & w2 & tr1 & tr2 & tr3 & tr4 & tail & -> & Hmw & H1 & H2 & H3 & H4 & Ha & H5).
  rewrite Hno in H2, H3. rewrite andb_true_r in H3. subst tr2. simpl. rewrite !omap_app.
  rewrite (Forall_skips _ dropped_of tr4 H4), (Forall_skips _ dropped_of tail H5) by no_event.
  rewrite (Forall_skips _ before_of tr4 H4), (Forall_skips _ before_of tail H5) by no_event.
  rewrite (Forall_skips _ dispatch_of tr1 H1), (Forall_skips _ dispatch_of tr4 H4),
    (Forall_skips _ dispatch_of tail H5) by no_event.
  rewrite (Forall_skips _ handler_of tr1 H1), (Forall_skips _ handler_of tr4 H4),
    (Forall_skips _ handler_of tail H5) by no_event.
  simpl. rewrite !app_nil_r. destruct Hmw as (w1 & _ & Hb). destruct b.
  - destruct H3 as (w4 & _ & H3). left.
    rewrite (Forall_skips _ dropped_of tr3 H3), (Forall_skips _ before_of tr3 H3) by no_event.
    rewrite !app_nil_r. destruct (runs_middleware c).
    + apply run_before_hooks, before_hooks_counts in Hb. by destruct Hb as [-> ->].
    + by destruct Hb as (_ & _ & _ & ->).
  - subst tr3. right. destruct (runs_middleware c); [|by destruct Hb].
    apply run_before_hooks, before_hooks_counts in Hb as [n ->]. by exists n.
Qed.

(** Conflict.  An envelope with both flags is dispatched nowhere and delivered
    to nobody; the conflict is reported to every middleware registered at that
    point; and it is counted as dropped twice when a middleware vetoed it too. *)
Theorem publish_conflict (v : EventEnvelope) w w' tr (c : EnvelopeCore) :
  publish_impl h v w = (Ret (), w', tr) → core_of (heap w) v = Ret c →
  local_only_of c = true → remote_only_of c = true →
  ∃ b local w2 tr1, middleware_phase v w c b local w2 tr1 ∧
    omap dispatch_of tr = [] ∧ omap handler_of tr = [] ∧
    (λ m, (m, conflict_error)) <$> middleware_ (st w2) `sublist_of` omap on_error_of tr ∧
    length (omap dropped_of tr) = if b then 1 else 2.
Proof.
  intros Hrun Hc Hlo Hro.
  destruct (publish_parts v w w' tr c Hrun Hc)
    as (name & b & local & w2 & tr1 & tr2 & tr3 & tr4 & tail & -> & Hmw & H1 & H2 & H3 & H4 & Ha & H5).
  rewrite Hlo, Hro in H2, H3. simpl in H2, H3. rewrite andb_false_r in H3. subst tr3.
  destruct H2 as (H2 & [n Hn] & Herr).
  exists b, local, w2, tr1. split; [done|]. simpl. rewrite !omap_app.
  rewrite (Forall_skips _ dispatch_of tr1 H1), (Forall_skips _ dispatch_of tr2 H2),
    (Forall_skips _ dispatch_of tr4 H4), (Forall_skips _ dispatch_of tail H5) by no_event.
  rewrite (Forall_skips _ handler_of tr1 H1), (Forall_skips _ handler_of tr2 H2),
    (Forall_skips _ handler_of tr4 H4), (Forall_skips _ handler_of tail H5) by no_event.
  rewrite (Forall_skips _ dropped_of tr4 H4), (Forall_skips _ dropped_of tail H5) by no_event.
  rewrite Hn, Herr. split_and!; [done|done| |].
  - apply sublist_inserts_l, sublist_inserts_r. done.
  - destruct Hmw as (w1 & _ & Hb). destruct b; simpl.
    + destruct (runs_middleware c).
      * apply run_before_hooks, before_hooks_counts in Hb as [_ ->]. done.
      * by destruct Hb as (_ & _ & _ & ->).
    + destruct (runs_middleware c); [|by destruct Hb].
      apply run_before_hooks, before_hooks_counts in Hb as [n' ->]. done.
Qed.


Lemma route_inline lo local w w' tr :
  route h lo false [] local w = (Ret (), w', tr) →
  deliver_to_listeners h local w = (Ret (), w', tr).
Proof.
  intros (u & w1 & tr1 & tr2 & H1 & H2 & ->)%bind_ret_inv.
  simpl in H1. by inv_ret H1.
Qed.

(** Without transports the bus is its own transport: an envelope that is not
    [RemoteOnly] is fanned out inline to the matching listeners, and one that is
    [RemoteOnly] is delivered to nobody. *)
Theorem publish_without_transports (v : EventEnvelope) w w' tr (c : EnvelopeCore) :
  publish_impl h v w = (Ret (), w', tr) → core_of (heap w) v = Ret c →
  runs_middleware c = false ∨ middleware_ (st w) = [] → transports_ (st w) = [] →
  omap dispatch_of tr = [] ∧
  if remote_only_of c then omap handler_of tr = []
  else ∃ name segs,
    Forall2 (entry_trace h v name) (List.filter (entry_matches name) (listeners_ (st w))) segs ∧
    omap handler_of tr = omap handler_of (concat segs).
Proof.
  intros Hrun Hc Hmw Ht.
  destruct (publish_parts v w w' tr c Hrun Hc)
    as (name & b & local & w2 & tr1 & tr2 & tr3 & tr4 & tail & -> & Hph & H1 & H2 & H3 & H4 & Ha & H5).
  assert (b = true ∧ local = v ∧ st w2 = st w) as (-> & -> & Hst).
  { destruct Hph as (w1 & Hst1 & Hb). destruct (runs_middleware c).
    - destruct Hmw as [|Hmw]; [done|]. rewrite Hmw in Hb. simpl in Hb. by inv_ret Hb.
    - destruct Hb as (-> & -> & -> & _). done. }
  simpl. rewrite !omap_app.
  rewrite (Forall_skips _ dispatch_of tr1 H1), (Forall_skips _ dispatch_of tr4 H4),
    (Forall_skips _ dispatch_of tail H5) by no_event.
  rewrite (Forall_skips _ handler_of tr1 H1), (Forall_skips _ handler_of tr4 H4),
    (Forall_skips _ handler_of tail H5) by no_event.
  assert (omap dispatch_of tr2 = [] ∧ omap handler_of tr2 = []) as [-> ->].
  { destruct (_ && _); [|by subst]. destruct H2 as [H2 _].
    split; (eapply Forall_skips; [exact H2|no_event]). }
  simpl. rewrite !app_nil_r. rewrite Hst, Ht in H3.
  destruct (remote_only_of c) eqn:Hro; rewrite ?andb_false_r, ?andb_true_r in H3; simpl in H3.
  - destruct (negb _); [|by subst]. destruct H3 as (w4 & H3 & _).
    apply bind_ret_inv in H3 as (u & x & t1 & t2 & H6 & H7 & ->). simpl in H6.
    inv_ret H6. simpl in H7. by inv_ret H7.
  - destruct H3 as (w4 & H3%route_inline & _). split.
    + eapply class_skips, H3; [apply deliver_emits|no_event].
    + destruct (deliver_trace _ _ _ _ _ H3) as (n & segs & _ & Hsegs & ->). rewrite Hst in Hsegs.
      by exists n, segs.
Qed.
End theorems.

(** ** Witnesses *)

(** One envelope of type ["order"] with flags [fs], on the busy bus. *)
Definition busy (fs : list string) : world () BusState := world_with (order_core fs) busy_bus.
Abbreviation busy_publish := (publish_impl faulty_host (envelope_at 1%positive)).

Lemma busy_completes fs :
  fs ∈ [[]; [flags.LocalOnly]; [flags.RemoteOnly]; [flags.LocalOnly; flags.RemoteOnly]] →
  busy_publish (busy fs) =
  (Ret (), world_after busy_publish (busy fs), trace_of busy_publish (busy fs)).
Proof.
  intros Hfs. apply completed_run.
  repeat (apply elem_of_cons in Hfs as [-> | Hfs]; [vm_compute; reflexivity|]).
  by apply elem_of_nil in Hfs.
Qed.

Lemma publish_routes_witness :
  ∃ b local w2 tr1, middleware_phase faulty_host (envelope_at 1%positive) (busy [flags.LocalOnly])
                      (order_core [flags.LocalOnly]) b local w2 tr1 ∧
    omap dispatch_of (trace_of busy_publish (busy [flags.LocalOnly])) =
    if b && negb (true && false)
    then (λ t, (t, local)) <$>
           List.filter (λ t, admissible true false (scope_of (S := BusState) faulty_host t)) (transports_ (st w2))
    else [].
Proof.
  apply (publish_routes faulty_host (envelope_at 1%positive) (busy [flags.LocalOnly])
           (world_after busy_publish (busy [flags.LocalOnly])) _ (order_core [flags.LocalOnly])).
  - apply busy_completes. set_solver.
  - reflexivity.
Defined.

Lemma publish_respects_scope_witness :
  scope_of (S := BusState) faulty_host 2%positive = Local.
Proof.
  destruct (publish_respects_scope faulty_host (envelope_at 1%positive) (busy [flags.LocalOnly])
    (world_after busy_publish (busy [flags.LocalOnly]))
    (trace_of busy_publish (busy [flags.LocalOnly])) (order_core [flags.LocalOnly]) 2
    (envelope_at 1%positive)) as [Hl _].
  - apply busy_completes. set_solver.
  - reflexivity.
  - apply (list_elem_of_lookup_2 _ 4). reflexivity.
  - apply Hl. reflexivity.
Defined.

Lemma publish_pipeline_order_witness :
  ∃ name b pre mid post,
    trace_of busy_publish (busy []) = EvMetric (events_published name) :: pre ++ mid ++ post ∧
    Forall before_event pre ∧ Forall (λ e, before_of e = None ∧ after_of e = None) mid ∧
    Forall (λ e, after_event e ∨ ∃ n el, e = EvMetric (dispatch_seconds n el)) post ∧
    before_hooks faulty_host [1; 9]%positive b pre ∧
    (b = false → omap dispatch_of mid = [] ∧ omap handler_of mid = []) ∧
    omap after_of post = [9; 1]%positive.
Proof.
  apply (publish_pipeline_order faulty_host (envelope_at 1%positive) (busy [])
           (world_after busy_publish (busy [])) _ (order_core [])).
  - apply busy_completes. set_solver.
  - reflexivity.
Defined.

Lemma publish_drop_accounting_witness :
  (omap dropped_of (trace_of busy_publish (busy [])) = [] ∧
     omap before_of (trace_of busy_publish (busy [])) = [1; 9]%positive) ∨
  (∃ n, omap dropped_of (trace_of busy_publish (busy [])) = [n] ∧
     omap dispatch_of (trace_of busy_publish (busy [])) = [] ∧
     omap handler_of (trace_of busy_publish (busy [])) = []).
Proof.
  apply (publish_drop_accounting faulty_host (envelope_at 1%positive) (busy [])
           (world_after busy_publish (busy [])) _ (order_core [])).
  - apply busy_completes. set_solver.
  - reflexivity.
  - vm_compute. reflexivity.
Defined.

(** A bus whose only middleware vetoes. *)
Definition vetoing : world () BusState :=
  world_with (order_core [flags.LocalOnly; flags.RemoteOnly]) (set_middleware [8%positive] busy_bus).

Lemma publish_conflict_witness :
  ∃ b local w2 tr1, middleware_phase faulty_host (envelope_at 1%positive) vetoing
      (order_core [flags.LocalOnly; flags.RemoteOnly]) b local w2 tr1 ∧
    omap dispatch_of (trace_of busy_publish vetoing) = [] ∧
    omap handler_of (trace_of busy_publish vetoing) = [] ∧
    (λ m, (m, conflict_error)) <$> middleware_ (st w2) `sublist_of`
      omap on_error_of (trace_of busy_publish vetoing) ∧
    length (omap dropped_of (trace_of busy_publish vetoing)) = if b then 1 else 2.
Proof.
  apply (publish_conflict faulty_host (envelope_at 1%positive) vetoing
           (world_after busy_publish vetoing) _ (order_core [flags.LocalOnly; flags.RemoteOnly])).
  - apply completed_run. vm_compute. reflexivity.
  - reflexivity.
  - vm_compute. reflexivity.
  - vm_compute. reflexivity.
Defined.

Abbreviation busy_deliver := (deliver_to_listeners faulty_host (envelope_at 1%positive)).


(** A bus with listeners only. *)
Definition alone : world () BusState :=
  world_with (order_core []) (set_middleware [] (set_transports [] busy_bus)).

Lemma publish_without_transports_witness :
  omap dispatch_of (trace_of busy_publish alone) = [] ∧
  ∃ name segs,
    Forall2 (entry_trace faulty_host (envelope_at 1%positive) name)
      (List.filter (entry_matches name) (listeners_ (st alone))) segs ∧
    omap handler_of (trace_of busy_publish alone) = omap handler_of (concat segs).
Proof.
  apply (publish_without_transports faulty_host (envelope_at 1%positive) alone
           (world_after busy_publish alone) _ (order_core [])).
  - apply completed_run. vm_compute. reflexivity.
  - reflexivity.
  - by right.
  - reflexivity.
Defined.
