(* ===== verification/BusListeners.v ===== *)
(** * Registration of listeners

    The invariant of the bus state, what [listen] and [release] do to the set of
    listeners, and the balance of the [conduit_listeners] gauge. *)

From S2P Require Import Prelude Exceptions External Flags Instances Envelope Serialization Glob World WorldLogic WorldSafety Hosts Listener Bus.

Section invariant.
Context `{Externals}.

(** Ids are distinct and were handed out; every set iterates by priority. *)
Record bus_inv (prio : obj → Z) (s : BusState) : Prop := {
  bi_ids : NoDup (le_id <$> listeners_ s);
  bi_bound e : e ∈ listeners_ s → (1 ≤ le_id e ≤ next_id_ s)%Z;
  bi_listeners : prio_sorted listener_priority (listeners_ s);
  bi_transports : prio_sorted prio (transports_ s);
  bi_middleware : prio_sorted prio (middleware_ s);
  bi_next : is_u64 (next_id_ s);
}.

(** There is room for one more id. *)
Definition id_room (s : BusState) : Prop := is_u64 (next_id_ s + 1).

Lemma bus_inv_new prio r : bus_inv prio (new_Bus_with r).
Proof. split; simpl; try done; [constructor|set_solver]. Qed.

Definition next_of (s : BusState) : Z := (next_id_ s + 1)%Z.

Definition with_entry (e : ListenerEntry) (s : BusState) : BusState :=
  MkBus (bus_registry s) (transports_ s) (middleware_ s)
    (insert_by listener_priority e (listeners_ s)) (le_id e) (shutdown_ s) true.

Definition set_st {U S} (s : S) (w : world U S) : world U S :=
  World (heap w) (locked w) (reads w) (user w) s.
End invariant.

Section lemmas.
Context `{ExternalLaws} {U : Type} (h : host U BusState).
Implicit Types w : world U BusState.

Lemma fresh_not_in prio s e :
  bus_inv prio s → e ∈ listeners_ s → le_id e ≠ next_of s.
Proof. intros Hinv He Heq. apply (bi_bound _ _ Hinv) in He. unfold next_of in Heq. lia. Qed.

(** Registration, as one state update. *)
Lemma register_run prio name k pat pr w :
  bus_inv prio (st w) → id_room (st w) → locked w = false →
  let e := MkEntry (next_of (st w)) k name pat pr in
  register_listener_for_name name k pat pr w =
  (Ret (new_Subscription (next_of (st w))), set_st (with_entry e (st w)) w,
   [EvMetric (listeners_inc name)]).
Proof.
  intros Hinv Hroom Hl e. destruct w as [hp lk rd us s]. simpl in *. subst lk.
  assert (u64_add (next_id_ s) 1 = next_of s) as Hid by by apply u64_add_small.
  unfold register_listener_for_name, fresh_id, with_lock, shared_from_this_safe, modify, gets,
    mbind, comp_bind, mret, comp_ret, emit, set_locked. simpl.
  rewrite Hid, ps_insert_fresh.
  - unfold set_st, with_entry, set_listeners, set_next_id, set_self_alias. simpl.
    destruct (self_alias_ s) eqn:Ha; simpl; by rewrite ?Ha.
  - apply (bi_listeners _ _ Hinv).
  - intros y Hy. apply Z.eqb_neq. by eapply fresh_not_in.
Qed.

(** A state update in front of a computation. *)
Lemma modify_then {A} f (m : comp U BusState A) w :
  (modify f;; m) w = m (set_st (f (st w)) w).
Proof.
  unfold modify, mbind, comp_bind, set_st. by destruct (m _) as [[? ?] ?].
Qed.

Lemma gets_then {A B} (f : BusState → A) (k : A → comp U BusState B) w :
  (gets f ≫= k) w = k (f (st w)) w.
Proof. unfold gets, mbind, comp_bind. by destruct (k _ _) as [[? ?] ?]. Qed.

Lemma bind_first {A B} (m1 m2 : comp U BusState A) (k : A → comp U BusState B) w1 w2 :
  m1 w1 = m2 w2 → (m1 ≫= k) w1 = (m2 ≫= k) w2.
Proof. unfold mbind, comp_bind. by intros ->. Qed.

Lemma with_entry_inv prio k name pat pr s :
  bus_inv prio s → id_room s →
  bus_inv prio (with_entry (MkEntry (next_of s) k name pat pr) s).
Proof.
  intros Hinv Hroom. split; simpl.
  - rewrite insert_by_perm. rewrite fmap_cons. apply NoDup_cons. split; [|apply Hinv].
    intros (e & He & Hin)%list_elem_of_fmap. by eapply fresh_not_in.
  - intros e [->|He]%insert_by_elem; simpl.
    + destruct (bi_next _ _ Hinv). unfold next_of. lia.
    + apply (bi_bound _ _ Hinv) in He. unfold next_of. lia.
  - apply insert_by_sorted, Hinv.
  - apply Hinv.
  - apply Hinv.
  - exact Hroom.
Qed.

Lemma set_registry_inv prio r s : bus_inv prio s → bus_inv prio (set_registry r s).
Proof. intros []. by split. Qed.

(** Release, as one state update. *)
Lemma release_run i w :
  locked w = false →
  release i w =
  (Ret (), set_st (set_listeners (remove_first (λ e, (le_id e =? i)%Z) (listeners_ (st w))) (st w)) w,
   match find_entry i (listeners_ (st w)) with
   | Some e => [EvMetric (listeners_dec (name_or_pattern e))]
   | None => []
   end).
Proof.
  intros Hl. destruct w as [hp lk rd us s]. simpl in *. subst lk.
  unfold release, noexcept, with_lock, gets, mbind, comp_bind, mret, comp_ret. simpl.
  destruct (find_entry i (listeners_ s)) as [e|] eqn:Hf; simpl; [done|].
  assert (remove_first (λ e, (le_id e =? i)%Z) (listeners_ s) = listeners_ s) as ->.
  - apply remove_first_absent. intros x Hx.
    by apply (List.find_none _ _ Hf), list_elem_of_In.
  - by destruct s.
Qed.

Lemma remove_by_id prio i s :
  bus_inv prio s →
  remove_first (λ e, (le_id e =? i)%Z) (listeners_ s) =
  List.filter (λ e, negb (le_id e =? i)%Z) (listeners_ s).
Proof.
  intros Hinv. apply (remove_first_unique _ le_id i); [|apply Hinv].
  intros x. apply Z.eqb_eq.
Qed.

Lemma release_inv prio i s :
  bus_inv prio s →
  bus_inv prio (set_listeners (remove_first (λ e, (le_id e =? i)%Z) (listeners_ s)) s).
Proof.
  intros Hinv. pose proof (remove_first_sublist (λ e, (le_id e =? i)%Z) (listeners_ s)) as Hsub.
  split; simpl; try apply Hinv.
  - eapply sublist_NoDup; [apply Hinv|]. by apply fmap_sublist.
  - intros e He. apply (bi_bound _ _ Hinv). by eapply elem_of_sublist.
  - eapply prio_sorted_sublist; [done|apply Hinv].
Qed.

Lemma remove_inserted prio s e :
  bus_inv prio s → le_id e = next_of s →
  remove_first (λ x, (le_id x =? next_of s)%Z) (insert_by listener_priority e (listeners_ s)) =
  listeners_ s.
Proof.
  intros Hinv He.
  assert (∀ l, (∀ x, x ∈ l → le_id x ≠ next_of s) →
    remove_first (λ x, (le_id x =? next_of s)%Z) (insert_by listener_priority e l) = l) as Hl.
  { induction l as [|y l IH]; intros Hy; simpl.
    - by rewrite He, Z.eqb_refl.
    - case_match; simpl.
      + rewrite (proj2 (Z.eqb_neq _ _)) by (apply Hy; by left).
        f_equal. apply IH. intros x Hx. apply Hy. by right.
      + by rewrite He, Z.eqb_refl. }
  apply Hl. intros x Hx. by eapply fresh_not_in.
Qed.

Lemma find_inserted prio s e :
  bus_inv prio s → le_id e = next_of s →
  find_entry (next_of s) (insert_by listener_priority e (listeners_ s)) = Some e.
Proof.
  intros Hinv He.
  assert (∀ l, (∀ x, x ∈ l → le_id x ≠ next_of s) →
    find_entry (next_of s) (insert_by listener_priority e l) = Some e) as Hl.
  { induction l as [|y l IH]; intros Hy; simpl; unfold find_entry in *; simpl.
    - by rewrite He, Z.eqb_refl.
    - case_match; simpl.
      + rewrite (proj2 (Z.eqb_neq _ _)) by (apply Hy; by left).
        apply IH. intros x Hx. apply Hy. by right.
      + by rewrite He, Z.eqb_refl. }
  apply Hl. intros x Hx. by eapply fresh_not_in.
Qed.
End lemmas.

(** ** The listeners gauge *)

Section gauge.
Context `{ExternalLaws} {U : Type} (h : host U BusState).
Implicit Types w : world U BusState.

Definition gauge_delta (n : string) (e : event) : Z :=
  match e with
  | EvMetric (listeners_inc m) => if String.eqb m n then 1 else 0
  | EvMetric (listeners_dec m) => if String.eqb m n then -1 else 0
  | _ => 0
  end.

(** The net change of the gauge labelled [n] over a trace. *)
Fixpoint gauge (n : string) (tr : list event) : Z :=
  match tr with
  | [] => 0
  | e :: tr => gauge_delta n e + gauge n tr
  end.

(** How many listeners are registered under the name or pattern [n]. *)
Definition listed (n : string) (l : list ListenerEntry) : Z :=
  Z.of_nat (length (List.filter (λ e, String.eqb (name_or_pattern e) n) l)).

Lemma gauge_app n tr1 tr2 : gauge n (tr1 ++ tr2) = (gauge n tr1 + gauge n tr2)%Z.
Proof. induction tr1 as [|e tr1 IH]; simpl; [done|]. rewrite IH. lia. Qed.

Lemma listed_insert n e l :
  listed n (insert_by listener_priority e l) =
  (listed n l + if String.eqb (name_or_pattern e) n then 1 else 0)%Z.
Proof.
  unfold listed. induction l as [|x l IH]; simpl; [by case_match|].
  case_match; simpl; repeat (case_match; simpl in * ); lia.
Qed.

Lemma listed_remove n i l :
  listed n (remove_first (λ e, (le_id e =? i)%Z) l) =
  (listed n l + gauge n (match find_entry i l with
                         | Some e => [EvMetric (listeners_dec (name_or_pattern e))]
                         | None => []
                         end))%Z.
Proof.
  unfold listed, find_entry. induction l as [|x l IH]; simpl; [done|].
  destruct (le_id x =? i)%Z; simpl; repeat (case_match; simpl in * ); lia.
Qed.

(** The registrations and releases of listeners: the operations on [listeners_]. *)
Inductive reg_op :=
  | RegTyped (T : event_type) (a : handler_arg) (priority : Z)
  | RegListener (T : event_type) (l : option obj)
  | RegPattern (pattern : string) (f : fn) (priority : Z)
  | RegRelease (i : SubscriptionId).

Definition run_reg (op : reg_op) : comp U BusState () :=
  match op with
  | RegTyped T a p => _ ← listen h T a p; mret ()
  | RegListener T l => _ ← listen_listener h T l; mret ()
  | RegPattern pat f p => _ ← listen_pattern pat f p; mret ()
  | RegRelease i => release i
  end.

(** What one of them does: the state, its invariant and the gauge. *)
Definition reg_effect (prio : obj → Z) w w' (tr : list event) : Prop :=
  bus_inv prio (st w') ∧ locked w' = false ∧ transports_ (st w') = transports_ (st w) ∧
  (next_id_ (st w') ≤ next_id_ (st w) + 1)%Z ∧
  ∀ n, gauge n tr = (listed n (listeners_ (st w')) - listed n (listeners_ (st w)))%Z.

Lemma register_effect prio name k pat pr w r :
  bus_inv prio (st w) → id_room (st w) → locked w = false →
  ∃ w' tr, (_ ← register_listener_for_name name k pat pr; mret ())
             (set_st (set_registry r (st w)) w) = (Ret (), w', tr) ∧ reg_effect prio w w' tr.
Proof.
  intros Hinv Hroom Hl. set (w1 := set_st (set_registry r (st w)) w).
  unfold mbind, comp_bind, mret, comp_ret.
  rewrite (register_run prio name k pat pr w1) by (try apply set_registry_inv; done).
  eexists _, _. split; [done|]. split_and!; simpl.
  - apply with_entry_inv; [by apply set_registry_inv|done].
  - done.
  - done.
  - unfold next_of. simpl. lia.
  - intros n. rewrite listed_insert. simpl. case_match; lia.
Qed.

Lemma run_reg_effect prio op w :
  bus_inv prio (st w) → id_room (st w) → locked w = false →
  ∃ w' tr, run_reg op w = (Ret (), w', tr) ∧ reg_effect prio w w' tr.
Proof.
  intros Hinv Hroom Hl.
  destruct op as [T a p|T l|pat f p|i]; simpl.
  - erewrite bind_first by apply modify_then. by apply register_effect.
  - erewrite bind_first by apply modify_then. by apply register_effect.
  - destruct (register_effect prio pat (HEnvelope f) (bool_decide (c_star ∈ to_chars pat)) p w
                (bus_registry (st w)) Hinv Hroom Hl) as (w' & tr & Hrun & Heff).
    exists w', tr. split; [|done]. rewrite <- Hrun. by destruct w as [? ? ? ? []].
  - rewrite release_run by done. eexists _, _. split; [done|]. split_and!; simpl.
    + by apply release_inv.
    + done.
    + done.
    + lia.
    + intros n. rewrite listed_remove. lia.
Qed.

Fixpoint run_regs (ops : list reg_op) : comp U BusState () :=
  match ops with
  | [] => mret ()
  | op :: ops => run_reg op;; run_regs ops
  end.

Lemma run_regs_effect prio ops w :
  bus_inv prio (st w) → is_u64 (next_id_ (st w) + Z.of_nat (length ops)) → locked w = false →
  ∃ w' tr, run_regs ops w = (Ret (), w', tr) ∧
    bus_inv prio (st w') ∧ locked w' = false ∧ transports_ (st w') = transports_ (st w) ∧
    ∀ n, gauge n tr = (listed n (listeners_ (st w')) - listed n (listeners_ (st w)))%Z.
Proof.
  revert w. induction ops as [|op ops IH]; intros w Hinv Hroom Hl; cbn [length run_regs] in *.
  - exists w, []. split; [done|]. split_and!; try done. intros n. simpl. lia.
  - assert (id_room (st w)) as Hone.
    { destruct (bi_next _ _ Hinv), Hroom. split; unfold id_room; lia. }
    destruct (run_reg_effect prio op w Hinv Hone Hl) as (w1 & tr1 & Hrun1 & Hinv1 & Hl1 & Ht1 & Hn1 & Hg1).
    destruct (IH w1 Hinv1) as (w2 & tr2 & Hrun2 & Hinv2 & Hl2 & Ht2 & Hg2); [|done|].
    { destruct (bi_next _ _ Hinv1), Hroom. split; lia. }
    exists w2, (tr1 ++ tr2). unfold mbind, comp_bind. rewrite Hrun1, Hrun2.
    split; [done|]. split_and!; [done|done|congruence|].
    intros n. rewrite gauge_app, Hg1, Hg2. lia.
Qed.

(** The destructor's loop over what is still registered. *)
Lemma gauge_down_run l w :
  ∃ tr, for_each l (λ e, emit (listeners_dec (name_or_pattern e))) w = (Ret (), w, tr) ∧
        ∀ n, gauge n tr = (- listed n l)%Z.
Proof.
  induction l as [|e l (tr & Hrun & Hg)]; simpl; [by exists []|].
  unfold mbind, comp_bind. unfold emit at 1. rewrite Hrun. eexists. split; [done|].
  intros n. simpl. rewrite Hg. unfold listed. simpl. case_match; simpl; lia.
Qed.

Lemma destroy_without_transports w :
  locked w = false → transports_ (st w) = [] →
  ∃ w' tr, destroy h w = (Ret (), w', tr) ∧ ∀ n, gauge n tr = (- listed n (listeners_ (st w)))%Z.
Proof.
  intros Hl Ht. destruct w as [hp lk rd us s]. simpl in *. subst lk.
  set (w1 := World hp true rd us (set_transports (if shutdown_ s then transports_ s else []) (set_shutdown true s))).
  destruct (gauge_down_run (listeners_ s) w1) as (tr & Hrun & Hg).
  exists (set_locked false w1), tr. split; [|done].
  assert (shutdown h (World hp false rd us s) = (Ret (), set_locked false w1, [])) as Hsh.
  { unfold shutdown, noexcept, mbind, comp_bind, gets, modify, with_lock, mret, comp_ret, w1. simpl.
    destruct (shutdown_ s) eqn:Hs; simpl; [by destruct s|]. by rewrite Ht. }
  assert (with_lock (l ← gets listeners_;
            for_each l (λ e, emit (listeners_dec (name_or_pattern e)))) (set_locked false w1)
          = (Ret (), set_locked false w1, tr)) as Hloop.
  { unfold with_lock. change (set_locked true (set_locked false w1)) with w1. rewrite gets_then.
    change (listeners_ (st w1)) with (listeners_ s). by rewrite Hrun. }
  unfold destroy, noexcept. unfold mbind at 1, comp_bind at 1. rewrite Hsh. by rewrite Hloop.
Qed.
End gauge.

(** ** Theorems *)

Section theorems.
Context `{ExternalLaws} {U : Type} (h : host U BusState).
Implicit Types w : world U BusState.

(** [listen] gives the new listener an id no registered one has, inserts it
    after the listeners of lower or equal priority, makes the event type
    decodable, and counts the gauge up; nothing else of the bus changes. *)
Theorem listen_registers prio T a p w :
  bus_inv prio (st w) → id_room (st w) → locked w = false →
  let id := next_of (st w) in
  let e := MkEntry id (wrap_typed_handler T a) (et_name T) false (derive_listener_priority h a p) in
  ∃ w', listen h T a p w = (Ret (new_Subscription id), w', [EvMetric (listeners_inc (et_name T))]) ∧
    listeners_ (st w') = insert_by listener_priority e (listeners_ (st w)) ∧
    id ∉ le_id <$> listeners_ (st w) ∧ bus_inv prio (st w') ∧
    reg_find (snapshot (bus_registry (st w'))) (event_kind_prefix +:+ et_name T)
      = Some (et_descriptor T) ∧
    transports_ (st w') = transports_ (st w) ∧ middleware_ (st w') = middleware_ (st w) ∧
    heap w' = heap w.
Proof.
  intros Hinv Hroom Hl id e.
  set (w1 := set_st (set_registry (add_descriptor (et_descriptor T) (bus_registry (st w))) (st w)) w).
  assert (listen h T a p w = register_listener_for_name (et_name T) (wrap_typed_handler T a) false
    (derive_listener_priority h a p) w1) as ->.
  { unfold listen, register_event. by rewrite modify_then. }
  rewrite (register_run prio) by (try apply set_registry_inv; done).
  eexists. split; [done|]. split_and!; simpl; try done.
  - intros (x & Hx & Hin)%list_elem_of_fmap. by eapply fresh_not_in.
  - apply with_entry_inv; [by apply set_registry_inv|done].
  - rewrite <- et_desc_kind. apply reg_find_register_eq.
Qed.

(** [release] removes exactly the listener with that id, keeps the order of the
    others, counts the gauge down for it, and does nothing for an id that is not
    registered (so releasing twice is releasing once). *)
Theorem release_removes prio i w :
  bus_inv prio (st w) → locked w = false →
  ∃ w' tr, release i w = (Ret (), w', tr) ∧
    listeners_ (st w') = List.filter (λ e, negb (le_id e =? i)%Z) (listeners_ (st w)) ∧
    bus_inv prio (st w') ∧
    (i ∉ le_id <$> listeners_ (st w) → w' = w ∧ tr = []) ∧
    (∀ e, e ∈ listeners_ (st w) → le_id e = i → tr = [EvMetric (listeners_dec (name_or_pattern e))]).
Proof.
  intros Hinv Hl. rewrite release_run by done. eexists _, _. split; [done|]. split_and!; simpl.
  - by eapply remove_by_id.
  - by apply release_inv.
  - intros Hni. assert (∀ x, x ∈ listeners_ (st w) → (le_id x =? i)%Z = false) as Hno.
    { intros x Hx. apply Z.eqb_neq. intros <-. apply Hni. by apply list_elem_of_fmap_2. }
    rewrite remove_first_absent by done. destruct w as [? ? ? ? []]; simpl in *. split; [done|].
    destruct (find_entry i _) eqn:Hf; [|done]. apply List.find_some in Hf as [Hin Heq].
    apply list_elem_of_In in Hin. rewrite (Hno _ Hin) in Heq. done.
  - intros e He <-. destruct (find_entry (le_id e) (listeners_ (st w))) as [x|] eqn:Hf.
    + apply List.find_some in Hf as [Hin Heq%Z.eqb_eq]. apply list_elem_of_In in Hin.
      assert (x = e) as ->; [|done]. pose proof (bi_ids _ _ Hinv) as Hnd.
      apply list_elem_of_lookup in Hin as [k1 Hk1], He as [k2 Hk2].
      assert (k1 = k2) as ->; [|congruence].
      eapply NoDup_lookup; [exact Hnd|by rewrite list_lookup_fmap, Hk1|].
      rewrite list_lookup_fmap, Hk2. simpl. by rewrite Heq.
    + apply list_elem_of_In in He. pose proof (List.find_none _ _ Hf _ He) as Hx.
      simpl in Hx. by rewrite Z.eqb_refl in Hx.
Qed.

(** A subscription handle undoes its registration: listening and then releasing
    (or destroying) the returned handle leaves the listeners of the bus as they
    were, and the gauge too. *)
Theorem listen_release_roundtrip prio T a p w :
  bus_inv prio (st w) → id_room (st w) → locked w = false →
  ∃ w' s, (s ← listen h T a p; Subscription_release s) w =
      (Ret s, w', [EvMetric (listeners_inc (et_name T)); EvMetric (listeners_dec (et_name T))]) ∧
    listeners_ (st w') = listeners_ (st w) ∧ active_ s = false ∧ locked w' = false.
Proof.
  intros Hinv Hroom Hl.
  set (w1 := set_st (set_registry (add_descriptor (et_descriptor T) (bus_registry (st w))) (st w)) w).
  set (e := MkEntry (next_of (st w)) (wrap_typed_handler T a) (et_name T) false
              (derive_listener_priority h a p)).
  assert (listen h T a p w = (Ret (new_Subscription (next_of (st w))),
    set_st (with_entry e (st w1)) w1, [EvMetric (listeners_inc (et_name T))])) as Hlisten.
  { unfold listen, register_event. rewrite modify_then. fold w1.
    by rewrite (register_run prio) by (try apply set_registry_inv; done). }
  unfold mbind, comp_bind. rewrite Hlisten.
  unfold Subscription_release, noexcept. simpl. unfold mbind, comp_bind.
  unfold backref_release, bus_backref. rewrite release_run by done. simpl.
  rewrite (find_inserted prio), (remove_inserted prio) by done.
  eexists _, _. split; [done|]. done.
Qed.

(** The [conduit_listeners] gauge never drifts: after any sequence of
    registrations and releases on a fresh bus, and its destruction, every series
    is back where it started. *)
Theorem gauge_balanced ops hp rd us r n :
  is_u64 (Z.of_nat (length ops)) →
  ∃ w' tr, (run_regs h ops;; destroy h) (World hp false rd us (new_Bus_with r)) = (Ret (), w', tr) ∧
           gauge n tr = 0%Z.
Proof.
  intros Hlen. set (w := World hp false rd us (new_Bus_with r)).
  destruct (run_regs_effect h (priority_of h) ops w) as (w1 & tr1 & Hrun & Hinv & Hl & Ht & Hg);
    [apply bus_inv_new|done|done|].
  destruct (destroy_without_transports h w1 Hl) as (w2 & tr2 & Hdes & Hg2); [by rewrite Ht|].
  exists w2, (tr1 ++ tr2). unfold mbind, comp_bind. rewrite Hrun, Hdes. split; [done|].
  rewrite gauge_app, Hg, Hg2. simpl. unfold listed at 2. simpl. lia.
Qed.
End theorems.

(** ** Witnesses *)

(** A bus with two listeners and one transport. *)
Definition small_bus : BusState :=
  MkBus new_EventRegistry [2]%positive []
    [MkEntry 1 (HEnvelope 3) "order" false 0; MkEntry 2 (HEnvelope 4) "ord*" true 5] 2 false true.

Definition small_world : world () BusState := World ∅ false 0 () small_bus.

Lemma small_inv : bus_inv Z.pos small_bus.
Proof.
  split; simpl.
  - apply (bool_decide_unpack _). reflexivity.
  - intros e He. repeat (apply elem_of_cons in He as [-> | He]; [simpl; lia|]).
    by apply elem_of_nil in He.
  - split; [|split; [|done]]; intros e He; [|by apply elem_of_nil in He].
    apply elem_of_cons in He as [-> | He]; [simpl; lia|by apply elem_of_nil in He].
  - split; [|done]. intros t Ht. by apply elem_of_nil in Ht.
  - done.
  - unfold is_u64. simpl. by split.
Qed.

Lemma listen_registers_witness :
  ∃ w', listen faulty_host (sample_type "order") (ArgPayload 7) 0 small_world =
          (Ret (new_Subscription 3), w', [EvMetric (listeners_inc "order")]) ∧
    listeners_ (st w') =
      [MkEntry 1 (HEnvelope 3) "order" false 0;
       MkEntry 3 (HPayload (sample_type "order") 7) "order" false 0;
       MkEntry 2 (HEnvelope 4) "ord*" true 5] ∧
    (3 ∉ [1; 2])%Z ∧ bus_inv Z.pos (st w') ∧
    reg_find (snapshot (bus_registry (st w'))) "conduit:event:order"
      = Some (et_descriptor (sample_type "order")) ∧
    transports_ (st w') = [2]%positive ∧ middleware_ (st w') = [] ∧ heap w' = ∅.
Proof.
  apply (listen_registers faulty_host Z.pos (sample_type "order") (ArgPayload 7) 0 small_world).
  - apply small_inv.
  - by split.
  - reflexivity.
Defined.

Lemma release_removes_witness :
  ∃ w' tr, release 1 small_world = (Ret (), w', tr) ∧
    listeners_ (st w') = [MkEntry 2 (HEnvelope 4) "ord*" true 5] ∧ bus_inv Z.pos (st w') ∧
    (1%Z ∉ le_id <$> listeners_ small_bus → w' = small_world ∧ tr = []) ∧
    (∀ e, e ∈ listeners_ small_bus → le_id e = 1%Z →
          tr = [EvMetric (listeners_dec (name_or_pattern e))]).
Proof. apply (release_removes Z.pos 1 small_world); [apply small_inv|reflexivity]. Defined.

Lemma listen_release_roundtrip_witness :
  ∃ w' s, (s ← listen faulty_host (sample_type "order") (ArgPayload 7) 0; Subscription_release s)
            small_world =
      (Ret s, w', [EvMetric (listeners_inc "order"); EvMetric (listeners_dec "order")]) ∧
    listeners_ (st w') = listeners_ small_bus ∧ active_ s = false ∧ locked w' = false.
Proof.
  apply (listen_release_roundtrip faulty_host Z.pos (sample_type "order") (ArgPayload 7) 0 small_world).
  - apply small_inv.
  - by split.
  - reflexivity.
Defined.

Lemma gauge_balanced_witness :
  ∃ w' tr, (run_regs (faulty_host) [RegTyped (sample_type "order") (ArgPayload 7) 3;
                       RegPattern "a.*" 4 0; RegRelease 1];; destroy faulty_host)
             (World ∅ false 0 () (new_Bus_with None)) = (Ret (), w', tr) ∧
           gauge "a.*" tr = 0%Z.
Proof. apply gauge_balanced. by split. Defined.
