(* ===== verification/Subscriber.v ===== *)
(** * Subscribers ([include/conduit/listener.hpp], [bus.hpp])

    An [EventSubscriber] owns the subscriptions that its [on(...)] helpers make.
    Its [register_to] is user code that calls [on]; it is the list of those calls.
    Registering a subscriber and destroying it leaves the bus's listeners as they
    were, whatever else was registered or released in between. *)

From S2P Require Import Prelude Exceptions External Flags Instances Envelope Serialization Glob World WorldLogic WorldSafety Hosts Listener Bus BusListeners.

Section subscriber.
Context `{Externals} {U : Type} (h : host U BusState).
Abbreviation comp := (comp U BusState).

(** [Subscription::active()] *)
Definition active (s : Subscription) : bool := active_ s.

(** The calls of [on] that a [register_to] makes. *)
Inductive on_call :=
  | OnTyped (T : event_type) (a : handler_arg)
  | OnPattern (pattern : string) (f : fn).

(** An [EventSubscriber]: what its [register_to] does, and [subscriptions_]. *)
Record EventSubscriber := MkSubscriber {
  register_calls : list on_call;
  subscriptions_ : list Subscription;
}.

(** [subscriptions()] *)
Definition subscriptions (s : EventSubscriber) : list Subscription := subscriptions_ s.

Definition on_one (c : on_call) (subs : list Subscription) : comp (list Subscription) :=
  match c with
  | OnTyped T a => on h T a subs
  | OnPattern pat f => on_pattern pat f subs
  end.

Fixpoint on_all (cs : list on_call) (subs : list Subscription) : comp (list Subscription) :=
  match cs with
  | [] => mret subs
  | c :: cs => subs ← on_one c subs; on_all cs subs
  end.

(** [register_to(bus)], and [Bus::register_subscriber], which calls it. *)
Definition register_to (s : EventSubscriber) : comp EventSubscriber :=
  subs ← on_all (register_calls s) (subscriptions_ s);
  mret (MkSubscriber (register_calls s) subs).
Definition register_subscriber (s : EventSubscriber) : comp EventSubscriber := register_to s.

(** The destructor of the vector: every handle is released. *)
Fixpoint release_all (subs : list Subscription) : comp () :=
  match subs with
  | [] => mret ()
  | s :: subs => _ ← Subscription_release s; release_all subs
  end.

(** [~EventSubscriber()] and [EventSubscriber(EventSubscriber&&)]: the new object
    and what is left of the other. *)
Definition destroy_subscriber (s : EventSubscriber) : comp () := release_all (subscriptions_ s).
Definition move_subscriber (s : EventSubscriber) : EventSubscriber * EventSubscriber :=
  (s, MkSubscriber (register_calls s) []).
End subscriber.

(** ** Lemmas *)

Section lemmas.
Context `{ExternalLaws} {U : Type} (h : host U BusState).
Implicit Types w : world U BusState.

(** The entry that a call of [on] registers under an id. *)
Definition entry_of (c : on_call) (i : SubscriptionId) : ListenerEntry :=
  match c with
  | OnTyped T a => MkEntry i (wrap_typed_handler T a) (et_name T) false
                     (derive_listener_priority h a DEFAULT_PRIORITY)
  | OnPattern pat f => MkEntry i (HEnvelope f) pat (bool_decide (c_star ∈ to_chars pat)) DEFAULT_PRIORITY
  end.

Lemma on_one_run prio c subs w :
  bus_inv prio (st w) → id_room (st w) → locked w = false →
  ∃ w', on_one h c subs w =
      (Ret (subs ++ [new_Subscription (next_of (st w))]), w',
       [EvMetric (listeners_inc (name_or_pattern (entry_of c 0)))]) ∧
    bus_inv prio (st w') ∧ locked w' = false ∧ next_id_ (st w') = next_of (st w) ∧
    listeners_ (st w') = insert_by listener_priority (entry_of c (next_of (st w))) (listeners_ (st w)).
Proof.
  intros Hinv Hroom Hl. destruct c as [T a|pat f]; simpl; unfold on, on_pattern, listen, listen_pattern.
  - set (w1 := set_st (set_registry (add_descriptor (et_descriptor T) (bus_registry (st w))) (st w)) w).
    pose proof (register_run prio (et_name T) (wrap_typed_handler T a) false
      (derive_listener_priority h a DEFAULT_PRIORITY) w1 (set_registry_inv _ _ _ Hinv) Hroom Hl) as Hrun.
    eexists. split.
    { unfold mbind at 1, comp_bind at 1. unfold register_event. rewrite modify_then.
      fold w1. rewrite Hrun. unfold mret, comp_ret. done. }
    split_and!; [|done..]. simpl. by apply (with_entry_inv prio _ _ _ _ (st w1)); [apply set_registry_inv|].
  - pose proof (register_run prio pat (HEnvelope f) (bool_decide (c_star ∈ to_chars pat))
      DEFAULT_PRIORITY w Hinv Hroom Hl) as Hrun.
    eexists. split.
    { unfold mbind, comp_bind. rewrite Hrun. unfold mret, comp_ret. done. }
    split_and!; [|done..]. simpl. by apply with_entry_inv.
Qed.

(** Ids [n+1 .. n+k]. *)
Definition ids_from (n : Z) (k : nat) : list SubscriptionId := (λ i, (n + 1 + Z.of_nat i)%Z) <$> seq 0 k.

Lemma ids_from_S n k : ids_from n (S k) = (n + 1)%Z :: ids_from (n + 1) k.
Proof.
  unfold ids_from. simpl. f_equal; [lia|]. rewrite <- fmap_S_seq, <- list_fmap_compose.
  apply list_fmap_ext. intros i x _. simpl. lia.
Qed.

Lemma elem_of_ids_from i n k : i ∈ ids_from n k ↔ (n + 1 ≤ i ≤ n + Z.of_nat k)%Z.
Proof.
  unfold ids_from. rewrite list_elem_of_fmap. setoid_rewrite elem_of_seq. split.
  - intros (j & -> & Hj). lia.
  - intros Hi. exists (Z.to_nat (i - n - 1)). lia.
Qed.

(** What a list of calls registers, from the counter [n] on. *)
Fixpoint insert_entries (cs : list on_call) (n : Z) (l : list ListenerEntry) : list ListenerEntry :=
  match cs with
  | [] => l
  | c :: cs => insert_entries cs (n + 1) (insert_by listener_priority (entry_of c (n + 1)) l)
  end.

Lemma on_all_run prio cs subs w :
  bus_inv prio (st w) → is_u64 (next_id_ (st w) + Z.of_nat (length cs)) → locked w = false →
  ∃ w' tr, on_all h cs subs w =
      (Ret (subs ++ (new_Subscription <$> ids_from (next_id_ (st w)) (length cs))), w', tr) ∧
    bus_inv prio (st w') ∧ locked w' = false ∧
    next_id_ (st w') = (next_id_ (st w) + Z.of_nat (length cs))%Z ∧
    listeners_ (st w') = insert_entries cs (next_id_ (st w)) (listeners_ (st w)).
Proof.
  revert subs w. induction cs as [|c cs IH]; intros subs w Hinv Hroom Hl.
  - exists w, []. simpl. rewrite app_nil_r. split_and!; try done. lia.
  - cbn [length] in Hroom. assert (id_room (st w)) as Hone.
    { destruct (bi_next _ _ Hinv), Hroom. split; unfold id_room; lia. }
    destruct (on_one_run prio c subs w Hinv Hone Hl) as (w1 & Hrun1 & Hinv1 & Hl1 & Hn1 & Hls1).
    unfold next_of in *.
    destruct (IH (subs ++ [new_Subscription (next_id_ (st w) + 1)]) w1)
      as (w2 & tr2 & Hrun2 & Hinv2 & Hl2 & Hn2 & Hls2); [done| |done|].
    { rewrite Hn1. replace (next_id_ (st w) + 1 + Z.of_nat (length cs))%Z
        with (next_id_ (st w) + Z.of_nat (S (length cs)))%Z by lia. done. }
    eexists w2, _. split.
    { cbn [on_all]. unfold mbind, comp_bind. rewrite Hrun1, Hrun2. rewrite Hn1. cbn [length].
      rewrite ids_from_S, fmap_cons, <- app_assoc. simpl. done. }
    split_and!; [done|done| |].
    + rewrite Hn2, Hn1. cbn [length]. lia.
    + rewrite Hls2, Hls1, Hn1. done.
Qed.

(** *** Destruction *)

Definition not_released (ids : list SubscriptionId) (e : ListenerEntry) : bool :=
  negb (bool_decide (le_id e ∈ ids)).

Lemma filter_filter_andb {A} (p q : A → bool) l :
  List.filter p (List.filter q l) = List.filter (λ x, q x && p x) l.
Proof.
  induction l as [|x l IH]; simpl; [done|]. destruct (q x); simpl; [|done].
  by destruct (p x); rewrite IH.
Qed.

Lemma release_all_run prio subs w :
  bus_inv prio (st w) → locked w = false →
  ∃ w' tr, release_all subs w = (Ret (), w', tr) ∧ bus_inv prio (st w') ∧ locked w' = false ∧
    listeners_ (st w') = List.filter (not_released (subs ≫= owned_id)) (listeners_ (st w)).
Proof.
  revert w. induction subs as [|s subs IH]; intros w Hinv Hl; simpl.
  { exists w, []. split_and!; try done. symmetry. apply List.forallb_filter_id, forallb_forall. done. }
  unfold Subscription_release, backref_release, bus_backref, owned_id.
  destruct (active_ s && backref_ s) eqn:Ha.
  - set (w1 := set_st (set_listeners (remove_first (λ e, (le_id e =? id_ s)%Z) (listeners_ (st w))) (st w)) w).
    destruct (IH w1) as (w2 & tr2 & Hrun2 & Hinv2 & Hl2 & Hls2); [by apply release_inv|done|].
    eexists w2, _. split.
    { unfold mbind at 1, comp_bind at 1. unfold noexcept, mbind at 1, comp_bind at 1. rewrite release_run by done.
      fold w1. simpl. rewrite Hrun2. done. }
    split_and!; [done..|]. rewrite Hls2. simpl. rewrite (remove_by_id prio) by done.
    rewrite filter_filter_andb.
    apply List.filter_ext. intros e. unfold not_released. simpl.
    destruct (le_id e =? id_ s)%Z eqn:He; simpl.
    + apply Z.eqb_eq in He as ->. symmetry. apply negb_false_iff, bool_decide_eq_true. by left.
    + apply Z.eqb_neq in He. f_equal. apply bool_decide_ext. rewrite elem_of_cons. naive_solver.
  - destruct (IH w Hinv Hl) as (w2 & tr2 & Hrun2 & Hinv2 & Hl2 & Hls2).
    exists w2, tr2. split; [|done].
    unfold mbind at 1, comp_bind at 1. unfold noexcept, mbind, comp_bind. simpl. by rewrite Hrun2.
Qed.

Lemma owned_fresh ids : (new_Subscription <$> ids) ≫= owned_id = ids.
Proof. induction ids as [|i ids IH]; simpl; [done|]. f_equal. exact IH. Qed.

(** The entries of the calls, and what removing their ids leaves. *)
Fixpoint entries_of (cs : list on_call) (n : Z) : list ListenerEntry :=
  match cs with
  | [] => []
  | c :: cs => entry_of c (n + 1) :: entries_of cs (n + 1)
  end.

Lemma insert_entries_perm cs n l : insert_entries cs n l ≡ₚ entries_of cs n ++ l.
Proof.
  revert n l. induction cs as [|c cs IH]; intros n l; simpl; [done|].
  rewrite IH, insert_by_perm. solve_Permutation.
Qed.

Lemma filter_insert_by (p : ListenerEntry → bool) e l :
  p e = false → List.filter p (insert_by listener_priority e l) = List.filter p l.
Proof.
  intros He. induction l as [|x l IH]; simpl; [by rewrite He|].
  case_match; simpl; [by rewrite IH|by rewrite He].
Qed.

Lemma filter_insert_entries cs n l :
  (∀ e, e ∈ l → (le_id e ≤ n)%Z) →
  List.filter (not_released (ids_from n (length cs))) (insert_entries cs n l) = l.
Proof.
  intros Hl.
  assert (∀ cs' m l', (n ≤ m)%Z → (m + Z.of_nat (length cs') = n + Z.of_nat (length cs))%Z →
    List.filter (not_released (ids_from n (length cs))) (insert_entries cs' m l') =
    List.filter (not_released (ids_from n (length cs))) l') as Hgen.
  { induction cs' as [|c cs' IH]; intros m l' Hm Hend; [done|]. cbn [insert_entries length] in *.
    rewrite IH by lia. apply filter_insert_by. apply negb_false_iff, bool_decide_eq_true.
    apply elem_of_ids_from. destruct c; simpl; lia. }
  rewrite Hgen by lia. apply List.forallb_filter_id, forallb_forall.
  intros e He%list_elem_of_In%Hl. apply negb_true_iff, bool_decide_eq_false.
  rewrite elem_of_ids_from. lia.
Qed.
End lemmas.

(** ** Theorem *)

Section theorem.
Context `{ExternalLaws} {U : Type} (h : host U BusState).
Implicit Types w : world U BusState.

(** C28: a subscriber owns what it registers.  Registering it adds exactly one
    listener per call of [on], each under a fresh id that one active subscription of
    the subscriber holds; destroying it, in whatever state the bus is by then,
    removes exactly those listeners and no other, and the bus is back at its old
    listeners when nothing else happened in between. *)
Theorem subscriber_lifetime prio cs w :
  bus_inv prio (st w) → is_u64 (next_id_ (st w) + Z.of_nat (length cs)) → locked w = false →
  ∃ s w1 tr1, register_subscriber h (MkSubscriber cs []) w = (Ret s, w1, tr1) ∧
    subscriptions s = new_Subscription <$> ids_from (next_id_ (st w)) (length cs) ∧
    Forall (λ x, active x = true) (subscriptions s) ∧
    bus_inv prio (st w1) ∧
    listeners_ (st w1) ≡ₚ entries_of h cs (next_id_ (st w)) ++ listeners_ (st w) ∧
    ∀ w2, bus_inv prio (st w2) → locked w2 = false →
      ∃ w3 tr3, destroy_subscriber s w2 = (Ret (), w3, tr3) ∧ bus_inv prio (st w3) ∧
        listeners_ (st w3) =
          List.filter (not_released (ids_from (next_id_ (st w)) (length cs))) (listeners_ (st w2)) ∧
        (w2 = w1 → listeners_ (st w3) = listeners_ (st w)).
Proof.
  intros Hinv Hroom Hl.
  destruct (on_all_run h prio cs [] w Hinv Hroom Hl) as (w1 & tr1 & Hrun & Hinv1 & Hl1 & Hn1 & Hls1).
  eexists (MkSubscriber cs (new_Subscription <$> ids_from (next_id_ (st w)) (length cs))), w1, _.
  split_and!.
  - unfold register_subscriber, register_to, mbind, comp_bind. simpl. rewrite Hrun. done.
  - done.
  - apply Forall_fmap, Forall_true. done.
  - done.
  - rewrite Hls1. apply insert_entries_perm.
  - intros w2 Hinv2 Hl2.
    destruct (release_all_run prio (new_Subscription <$> ids_from (next_id_ (st w)) (length cs)) w2 Hinv2 Hl2)
      as (w3 & tr3 & Hrun3 & Hinv3 & Hl3 & Hls3).
    rewrite owned_fresh in Hls3. exists w3, tr3. split_and!; [done..|].
    intros ->. rewrite Hls3, Hls1. apply filter_insert_entries.
    intros e He. apply (bi_bound _ _ Hinv) in He. lia.
Qed.
End theorem.

Definition two_calls : list on_call :=
  [OnTyped (sample_type "order") (ArgPayload 3); OnPattern "ord*" 4].

Lemma subscriber_lifetime_witness :
  ∃ s w1 tr1, register_subscriber faulty_host (MkSubscriber two_calls []) small_world = (Ret s, w1, tr1) ∧
    subscriptions s = new_Subscription <$> ids_from (next_id_ (st small_world)) 2 ∧
    Forall (λ x, active x = true) (subscriptions s) ∧
    bus_inv Z.pos (st w1) ∧
    listeners_ (st w1) ≡ₚ entries_of faulty_host two_calls (next_id_ (st small_world)) ++ listeners_ (st small_world) ∧
    ∀ w2, bus_inv Z.pos (st w2) → locked w2 = false →
      ∃ w3 tr3, destroy_subscriber s w2 = (Ret (), w3, tr3) ∧ bus_inv Z.pos (st w3) ∧
        listeners_ (st w3) =
          List.filter (not_released (ids_from (next_id_ (st small_world)) 2)) (listeners_ (st w2)) ∧
        (w2 = w1 → listeners_ (st w3) = listeners_ (st small_world)).
Proof.
  apply (subscriber_lifetime faulty_host Z.pos two_calls small_world).
  - apply small_inv.
  - by vm_compute.
  - reflexivity.
Defined.
