(* ===== verification/BusLifecycle.v ===== *)
(** * Attaching, draining and shutting down

    The lifecycle operations of the bus, and the theorem that every public
    operation keeps the invariant of [BusListeners.v]. *)

From S2P Require Import Prelude Exceptions External Flags Instances Envelope Serialization Glob World WorldLogic WorldSafety Hosts Listener Bus BusSafety BusListeners.

Section wp.
Context `{ExternalLaws} {U : Type} (h : host U BusState).
Implicit Types w : world U BusState.

(** The invariant of a bus whose objects have the priorities of [h]. *)
Definition bus_ok (s : BusState) (u : U) : Prop := bus_inv (priority_of h) s ∧ handlers_ok s.

Abbreviation wp := (wp bus_ok).
Abbreviation good := (good bus_ok).
Abbreviation completes := (returns (λ (_ : ()) (_ : world U BusState), True)).

Hypothesis Hciv : civil h bus_ok.

Lemma bus_ok_handlers s u : bus_ok s u → handlers_ok s.
Proof. by intros [_ ?]. Qed.

Lemma bus_ok_registry r s u : bus_ok s u → bus_ok (set_registry r s) u.
Proof. intros [? ?]. split; [by apply set_registry_inv|done]. Qed.

Lemma bus_ok_transports l s u :
  prio_sorted (priority_of h) l → bus_ok s u → bus_ok (set_transports l s) u.
Proof. intros Hl [[] ?]. by split; [split|]. Qed.

Lemma bus_ok_middleware l s u :
  prio_sorted (priority_of h) l → bus_ok s u → bus_ok (set_middleware l s) u.
Proof. intros Hl [[] ?]. by split; [split|]. Qed.

Lemma bus_ok_shutdown b s u : bus_ok s u → bus_ok (set_shutdown b s) u.
Proof. intros [[] ?]. by split; [split|]. Qed.

Lemma bus_ok_entry name k pat pr s u :
  handler_ok k → id_room s → bus_ok s u →
  bus_ok (with_entry (MkEntry (next_of s) k name pat pr) s) u.
Proof.
  intros Hk Hroom [Hinv Hh]. split; [by apply with_entry_inv|]. unfold handlers_ok in *. simpl.
  rewrite insert_by_perm. by constructor.
Qed.

Lemma bus_ok_remove i s u :
  bus_ok s u → bus_ok (set_listeners (remove_first (λ e, (le_id e =? i)%Z) (listeners_ s)) s) u.
Proof.
  intros [Hinv Hh]. split; [by apply release_inv|]. unfold handlers_ok in *. simpl.
  rewrite Forall_forall in *. intros e He. apply Hh. eapply elem_of_sublist; [done|].
  apply remove_first_sublist.
Qed.

Lemma register_wp name k pat pr w :
  good w → id_room (st w) → handler_ok k →
  wp (_ ← register_listener_for_name name k pat pr; mret ()) completes w.
Proof.
  intros Hg Hroom Hk. apply wp_bind. destruct Hg as [Hl [Hinv Hh]].
  eapply wp_run; [by eapply register_run|by intros [? ?]| |by intros l|].
  - split; [done|]. by apply bus_ok_entry.
  - apply wp_ret; [split; [done|by apply bus_ok_entry]|apply completes_ret].
Qed.

Lemma register_event_wp T w :
  good w → wp (register_event T) completes w.
Proof.
  intros Hg. apply wp_modify; [done|apply bus_ok_registry, Hg|apply completes_ret].
Qed.

Lemma listen_wp T name k pat pr w :
  good w → id_room (st w) → handler_ok k →
  wp (_ ← (register_event T;; register_listener_for_name name k pat pr); mret ()) completes w.
Proof.
  intros Hg Hroom Hk. eapply wp_run with (o := Ret ()).
  - etrans; [eapply bind_first, modify_then|].
    unfold mbind, comp_bind. rewrite (register_run (priority_of h)); [done| | |].
    + apply set_registry_inv, Hg.
    + done.
    + apply Hg.
  - by intros [? ?].
  - split; [apply Hg|]. apply bus_ok_entry; [done|done|]. apply bus_ok_registry, Hg.
  - by intros l.
  - apply completes_ret.
Qed.

Lemma wp_call_detach t w :
  good w → wp (noexcept (call_void h (CallDetach t))) completes w.
Proof.
  intros Hg. destruct (civil_call _ _ Hciv (CallDetach t) w Hg) as (Hg' & Hle & _ & _); [done|].
  destruct (civil_detach _ _ Hciv t w Hg) as [b Hb].
  eapply wp_run with (o := Ret ()) (w' := r_world (run h (CallDetach t) w)).
  - unfold noexcept, call_void, call_fn, call_ref, mbind, comp_bind. rewrite Hb. simpl. done.
  - by intros [? ?].
  - done.
  - done.
  - apply completes_ret.
Qed.

Lemma shutdown_one_wp t w : good w → wp (shutdown_one h t) completes w.
Proof.
  intros Hg. eapply wp_bind_returns.
  - apply wp_ignore. by apply (wp_call_any h bus_ok Hciv).
  - intros a w1 Hg1 _ _. apply wp_catch_all. eapply wp_mono; [|by apply wp_call_detach].
    intros o w2 _ _ _ (b & -> & _). apply completes_ret.
Qed.

(** The critical section of [shutdown]. *)
Definition take_transports : comp U BusState (list obj) :=
  with_lock (l ← gets transports_; modify (set_transports []);; mret l).

Lemma take_transports_run w :
  locked w = false →
  take_transports w = (Ret (transports_ (st w)), set_st (set_transports [] (st w)) w, []).
Proof. destruct w. simpl. by intros ->. Qed.

Lemma shutdown_wp w : good w → wp (shutdown h) completes w.
Proof.
  intros Hg. apply wp_noexcept, wp_bind, wp_gets; [done|].
  assert (bus_ok (set_shutdown true (st w)) (user w)) as Hok by apply bus_ok_shutdown, Hg.
  apply wp_bind, wp_modify; [done|done|].
  assert (good (World (heap w) (locked w) (reads w) (user w) (set_shutdown true (st w)))) as Hg1.
  { split; [apply Hg|done]. }
  case_match; [apply wp_ret; [done|split; [by eexists|apply completes_ret]]|].
  assert (good (set_st (set_transports [] (set_shutdown true (st w))) w)) as Hg2.
  { split; [apply Hg|]. by apply bus_ok_transports. }
  apply wp_bind. eapply wp_run; [apply take_transports_run, Hg1|by intros [? ?]|done|by intros l|].
  eapply wp_mono; [|apply (wp_for_each _ _ _ (λ _, True)); [done|done|]].
  - intros o w' _ _ _ (b & -> & _). split; by eexists.
  - intros t w1 _ Hg3 _ _. by apply shutdown_one_wp.
Qed.

Lemma use_transport_wp t w : good w → wp (use_transport h t) (λ _ _, True) w.
Proof.
  intros Hg. apply wp_bind, (wp_call_void _ _ Hciv); [done|done|].
  intros [[]|e|u] w' Hg' _ _; [|done|done].
  apply wp_with_lock_modify; [done| |done].
  apply bus_ok_transports; [|apply Hg']. apply ps_insert_sorted. apply Hg'.
Qed.

Lemma use_middleware_wp m w : good w → wp (use_middleware h m) (λ _ _, True) w.
Proof.
  intros Hg. apply wp_with_lock_modify; [done| |done].
  apply bus_ok_middleware; [|apply Hg]. apply ps_insert_sorted. apply Hg.
Qed.

Lemma drain_wp w : good w → wp (drain h) (λ _ _, True) w.
Proof.
  intros Hg. apply wp_bind, wp_with_lock_gets; [done|]. apply wp_for_each_any; [done|].
  intros t w1 _ Hg1. by apply (wp_call_any h bus_ok Hciv).
Qed.
End wp.

(** ** Every public operation *)

Section preservation.
Context `{ExternalLaws} {U : Type} (h : host U BusState).
Implicit Types w : world U BusState.

(** The public operations. *)
Inductive bus_op :=
  | OpPublish (T : event_type) (v : EventEnvelope)
  | OpPublishEnvelope (v : EventEnvelope)
  | OpDeliver (v : EventEnvelope)
  | OpReportTransportError (transport : string) (ep : exn)
  | OpListenTyped (T : event_type) (a : handler_arg) (priority : Z)
  | OpListenListener (T : event_type) (l : option obj)
  | OpListenPattern (pattern : string) (f : fn) (priority : Z)
  | OpReleaseId (i : SubscriptionId)
  | OpRegisterEvent (T : event_type)
  | OpUseTransport (t : obj)
  | OpUseMiddleware (m : obj)
  | OpDrain
  | OpShutdown.

Definition run_op (op : bus_op) : comp U BusState () :=
  match op with
  | OpPublish T v => publish h T v
  | OpPublishEnvelope v => publish_impl h v
  | OpDeliver v => deliver_to_listeners h v
  | OpReportTransportError tn ep => report_transport_error h tn ep
  | OpListenTyped T a p => _ ← listen h T a p; mret ()
  | OpListenListener T l => _ ← listen_listener h T l; mret ()
  | OpListenPattern pat f p => _ ← listen_pattern pat f p; mret ()
  | OpReleaseId i => release i
  | OpRegisterEvent T => register_event T
  | OpUseTransport t => use_transport h t
  | OpUseMiddleware m => use_middleware h m
  | OpDrain => drain h
  | OpShutdown => shutdown h
  end.

(** What an operation asks of its caller: a live envelope, a listener pointer that
    is not null, and fewer than [2^64] registrations so far. *)
Definition op_ok (op : bus_op) w : Prop :=
  match op with
  | OpPublish _ v | OpPublishEnvelope v | OpDeliver v => live v w
  | OpListenTyped _ (ArgListener None) _ | OpListenListener _ None => False
  | OpListenTyped _ _ _ | OpListenListener _ _ | OpListenPattern _ _ _ => id_room (st w)
  | _ => True
  end.
End preservation.

(** ** Theorems *)

Section theorems.
Context `{ExternalLaws} {U : Type} (h : host U BusState).
Implicit Types w : world U BusState.

(** The operations out of which an exception of a transport can come. *)
Definition may_throw (op : bus_op) : bool :=
  match op with OpUseTransport _ | OpDrain => true | _ => false end.

Lemma completes_ignore {A} (m : comp U BusState A) Q w :
  wp (bus_ok h) m (λ _ _, True) w → (∀ o w', Q o w') → wp (bus_ok h) m Q w.
Proof. intros Hm HQ. eapply wp_mono; [|exact Hm]. auto. Qed.

Lemma release_wp i w :
  good (bus_ok h) w → wp (bus_ok h) (release i) (returns (λ (_ : ()) (_ : world U BusState), True)) w.
Proof.
  intros Hg. eapply wp_run; [apply release_run, Hg|by intros [? ?]| |by intros l|apply completes_ret].
  split; [apply Hg|]. apply bus_ok_remove, Hg.
Qed.

(** C4: the state of the bus is an invariant of its whole interface: every public
    operation, from a state with distinct listener ids below the counter and
    every set in priority order, ends in such a state with the mutex free, with
    no undefined behaviour, and, but for [use_transport] and [drain], which let a
    transport's exception through, without an exception; callbacks may re-enter
    the bus as long as they keep the invariant, which is what this theorem says
    that calls to the public interface do. *)
Theorem bus_ops_keep_invariant (op : bus_op) w :
  civil h (bus_ok h) → good (bus_ok h) w → op_ok op w →
  ∃ o w' tr, run_op h op w = (o, w', tr) ∧ ¬ is_undef o ∧ good (bus_ok h) w' ∧ heap_le w w' ∧
             (may_throw op = false → o = Ret ()).
Proof.
  intros Hciv Hg Hop.
  pose (done_ := λ (o : outcome ()) (w' : world U BusState), may_throw op = false → o = Ret ()).
  change (wp (bus_ok h) (run_op h op) done_ w).
  assert (∀ o w', returns (λ (_ : ()) (_ : world U BusState), True) o w' → done_ o w') as Hdone.
  { intros o w' ([] & -> & _). by intros _. }
  assert (∀ m, wp (bus_ok h) m (returns (λ _ _, True)) w → wp (bus_ok h) m done_ w) as Hm.
  { intros m Hw. eapply wp_mono; [|exact Hw]. auto. }
  pose proof (bus_ok_handlers h (U := U)) as Hok.
  destruct op as [T v|v|v|tn ep|T a p|T l|pat f p|i|T|t|m| |]; simpl in *.
  - apply Hm. eapply wp_bind_returns; [by apply register_event_wp|]. intros u w1 Hg1 Hle _.
    apply (publish_impl_wp h (bus_ok h) Hciv Hok); [done|]. by eapply live_mono.
  - apply Hm. by apply (publish_impl_wp h (bus_ok h) Hciv Hok).
  - apply Hm. by apply (deliver_wp h (bus_ok h) Hciv Hok).
  - apply Hm. by apply (report_transport_error_wp h (bus_ok h) Hciv).
  - apply Hm. destruct a as [f|f|[l|]]; [..|done]; by apply listen_wp.
  - apply Hm. destruct l as [l|]; [|done]. by apply listen_wp.
  - apply Hm. by apply register_wp.
  - apply Hm. by apply release_wp.
  - apply Hm. by apply register_event_wp.
  - apply completes_ignore; [by apply use_transport_wp|]. by intros o w' [=].
  - apply Hm. apply wp_with_lock_modify; [done| |apply completes_ret].
    apply bus_ok_middleware; [|apply Hg]. apply ps_insert_sorted. apply Hg.
  - apply completes_ignore; [by apply drain_wp|]. by intros o w' [=].
  - apply Hm. by apply shutdown_wp.
Qed.

Lemma catch_ignore_trace c w o w' tr :
  catch_all (call_void h c) (λ _, mret ()) w = (o, w', tr) → tr = [EvCall c].
Proof.
  intros [[Hc _]|(e & w1 & tr1 & tr2 & Hc & Hk & ->)]%catch_all_inv.
  - by apply call_void_trace in Hc.
  - apply call_void_trace in Hc as ->. by inv_ret Hk.
Qed.

Lemma shutdown_one_trace t w w' tr :
  shutdown_one h t w = (Ret (), w', tr) → tr = [EvCall (CallFlush t); EvCall (CallDetach t)].
Proof.
  intros (u & w1 & tr1 & tr2 & H1 & H2 & ->)%bind_ret_inv.
  apply catch_ignore_trace in H1 as ->.
  apply catch_all_inv in H2 as [[H2 _]|(e & w2 & tr3 & tr4 & H2 & _ & _)].
  - apply noexcept_ret_inv, call_void_trace in H2 as ->. done.
  - unfold noexcept in H2. by destruct (call_void h (CallDetach t) w1) as [[[]]].
Qed.

Lemma for_each_trace {A} (body : A → comp U BusState ()) (tr_of : A → list event) l w w' tr :
  (∀ x w w' tr, body x w = (Ret (), w', tr) → tr = tr_of x) →
  for_each l body w = (Ret (), w', tr) → tr = l ≫= tr_of.
Proof.
  intros Hbody. revert w tr. induction l as [|x l IH]; intros w tr Hrun; simpl in Hrun; [by inv_ret Hrun|].
  apply bind_ret_inv in Hrun as ([] & w1 & tr1 & tr2 & H1 & H2 & ->).
  apply Hbody in H1 as ->. by rewrite (IH _ _ H2).
Qed.

(** What user code keeps of the bus while it is called. *)
Definition calls_keep (I : BusState → Prop) : Prop :=
  ∀ c w, I (st w) → I (st (r_world (run h c w))).

Lemma shutdown_one_keeps I t w w' tr :
  calls_keep I → shutdown_one h t w = (Ret (), w', tr) → I (st w) → I (st w').
Proof.
  intros HI Hrun Hst. apply (HI (CallFlush t)) in Hst. apply (HI (CallDetach t)) in Hst.
  revert Hrun Hst. unfold shutdown_one, catch_all, noexcept, call_void, call_fn, call_ref, mbind, comp_bind.
  destruct (r_out (run h (CallFlush t) w)); simpl; [..|done];
    destruct (r_out (run h (CallDetach t) _)); simpl; try done; by intros [= <- <-].
Qed.

Lemma for_each_keeps {A} (I : BusState → Prop) (body : A → comp U BusState ()) l w w' tr :
  (∀ x w w' tr, body x w = (Ret (), w', tr) → I (st w) → I (st w')) →
  for_each l body w = (Ret (), w', tr) → I (st w) → I (st w').
Proof.
  intros Hbody. revert w tr. induction l as [|x l IH]; intros w tr Hrun Hst; simpl in Hrun; [by inv_ret Hrun|].
  apply bind_ret_inv in Hrun as ([] & w1 & tr1 & tr2 & H1 & H2 & ->). eapply IH, Hbody; done.
Qed.

(** On a bus that was shut down it does nothing. *)
Lemma shutdown_again (w : world U BusState) : shutdown_ (st w) = true → shutdown h w = (Ret (), w, []).
Proof.
  intros Hs. destruct w as [hp lk rd us s]. simpl in *.
  assert (set_shutdown true s = s) as Hsame by (destruct s; simpl in *; by subst).
  unfold shutdown, noexcept, mbind, comp_bind, gets, modify, mret, comp_ret. simpl. by rewrite Hs, Hsame.
Qed.

(** C37: shutting down flushes and then detaches every registered transport, once and in
    order, even when flushing throws.  Before the first of these calls the flag is set
    and the set of transports emptied: whatever of that the calls keep holds when it
    returns.  Doing it again does nothing: it makes no call and changes nothing on a
    bus with the flag set, which it is after a first shutdown unless a callback cleared
    it, and no operation of the bus does. *)
Theorem shutdown_flushes_and_detaches w w' tr :
  shutdown h w = (Ret (), w', tr) →
  (if shutdown_ (st w) then tr = [] ∧ w' = w
   else tr = (transports_ (st w) ≫= λ t, [EvCall (CallFlush t); EvCall (CallDetach t)]) ∧
        ∀ I, calls_keep I → I (set_transports [] (set_shutdown true (st w))) → I (st w')) ∧
  (calls_keep (λ s, shutdown_ s = true) →
   shutdown_ (st w') = true ∧ shutdown h w' = (Ret (), w', [])) ∧
  (calls_keep (λ s, transports_ s = []) → shutdown_ (st w) = false → transports_ (st w') = []).
Proof.
  intros Hrun.
  assert (if shutdown_ (st w) then tr = [] ∧ w' = w
    else tr = (transports_ (st w) ≫= λ t, [EvCall (CallFlush t); EvCall (CallDetach t)]) ∧
        ∀ I, calls_keep I → I (set_transports [] (set_shutdown true (st w))) → I (st w')) as Hmain.
  { destruct (shutdown_ (st w)) eqn:Hs; [by rewrite shutdown_again in Hrun by done; simplify_eq|].
    apply noexcept_ret_inv in Hrun. rewrite gets_then, modify_then, Hs in Hrun.
    apply bind_ret_inv in Hrun as (ts & w1 & tr1 & tr2 & H1 & H2 & ->).
    fold (take_transports (U := U)) in H1.
    assert (locked w = false) as Hl.
    { unfold take_transports, with_lock in H1. simpl in H1. by destruct (locked w). }
    rewrite (take_transports_run (set_st (set_shutdown true (st w)) w) Hl) in H1.
    injection H1 as <- <- <-. simpl. split; [eapply for_each_trace, H2; apply shutdown_one_trace|].
    intros I HI Hst. eapply for_each_keeps; [|exact H2|done]. intros x w1 w2 tr1. by apply shutdown_one_keeps. }
  split_and!; [exact Hmain|..].
  - intros HI. assert (shutdown_ (st w') = true) as Hs'.
    { destruct (shutdown_ (st w)) eqn:Hs; [by destruct Hmain as [_ ->]|].
      destruct Hmain as [_ Hkeep]. by apply (Hkeep (λ s, shutdown_ s = true)). }
    split; [done|by apply shutdown_again].
  - intros HI Hs. rewrite Hs in Hmain. destruct Hmain as [_ Hkeep]. by apply (Hkeep (λ s, transports_ s = [])).
Qed.

(** A transport is only registered once it is attached: an exception of
    [attach] leaves [use_transport] and the set of transports as the attaching
    code left it, and otherwise the transport is in the set. *)
Theorem use_transport_attaches_first t w :
  locked w = false → locked (r_world (run h (CallAttach t) w)) = false →
  let r := run h (CallAttach t) w in
  match r_out r with
  | Ret _ => ∃ w', use_transport h t w = (Ret (), w', [EvCall (CallAttach t)]) ∧
               transports_ (st w') =
                 ps_insert (priority_of h) Pos.eqb t (transports_ (st (r_world r))) ∧
               listeners_ (st w') = listeners_ (st (r_world r))
  | Throw e => use_transport h t w = (Throw e, r_world r, [EvCall (CallAttach t)])
  | Undef u => use_transport h t w = (Undef u, r_world r, [EvCall (CallAttach t)])
  end.
Proof.
  intros Hl Hl' r.
  unfold use_transport, attach_transport, call_void, call_fn, call_ref, mbind, comp_bind.
  fold r. destruct (r_out r) as [b|e|u]; simpl; [|done|done].
  fold r in Hl'. unfold with_lock. rewrite Hl'. simpl. eexists. split; [done|]. done.
Qed.

Definition drained (ts : list obj) (o : outcome ()) (tr : list event) : Prop :=
  ∃ pre post, ts = pre ++ post ∧ tr = (EvCall ∘ CallFlush) <$> pre ∧
              (o = Ret () → post = []) ∧ (∀ e, o = Throw e → ∃ pre' t, pre = pre' ++ [t]).

Lemma drain_loop_trace ts w o w' tr :
  for_each ts (λ t, call_void h (CallFlush t)) w = (o, w', tr) → ¬ is_undef o → drained ts o tr.
Proof.
  intros H2 Hu. revert w tr H2. induction ts as [|t ts IH]; intros w tr H2; simpl in H2.
  { injection H2 as <- <- <-. by exists [], []. }
  apply bind_inv in H2 as [(a & w1 & tr1 & tr2 & H1 & H2 & ->)|[(e & H1 & ->)|(u & _ & ->)]].
  - apply call_void_trace in H1 as ->.
    destruct (IH _ _ H2) as (pre & post & -> & -> & Hret & Hthrow).
    exists (t :: pre), post. split_and!; [done|done|done|].
    intros e He. destruct (Hthrow e He) as (ts & t' & ->). by exists (t :: ts), t'.
  - apply call_void_trace in H1 as ->. exists [t], ts. split_and!; [done|done|done|].
    intros e' _. by exists [], t.
  - destruct Hu. by eexists.
Qed.

(** [drain] flushes the registered transports in order; it stops at the first
    one that throws, whose exception it lets through, and only then are the
    transports after it not flushed. *)
Theorem drain_flushes_in_order w o w' tr :
  drain h w = (o, w', tr) → ¬ is_undef o → drained (transports_ (st w)) o tr.
Proof.
  intros Hrun Hu. unfold drain in Hrun.
  apply bind_inv in Hrun as [(ts & w1 & tr1 & tr2 & H1 & H2 & ->)|[(e & H1 & ->)|(u & _ & ->)]].
  - apply with_lock_gets_ret in H1 as (-> & _ & ->). by eapply drain_loop_trace.
  - by apply with_lock_gets_inv in H1 as ([=] & _).
  - destruct Hu. by eexists.
Qed.
End theorems.

(** ** Witnesses *)

Lemma small_good : good (bus_ok faulty_host) small_world.
Proof. split; [done|]. split; [apply small_inv|]. repeat constructor. Qed.

Lemma bus_ops_keep_invariant_witness :
  ∃ o w' tr, run_op faulty_host (OpListenPattern "*.created" 4 1) small_world = (o, w', tr) ∧
    ¬ is_undef o ∧ good (bus_ok faulty_host) w' ∧ heap_le small_world w' ∧ (false = false → o = Ret ()).
Proof.
  apply (bus_ops_keep_invariant faulty_host (OpListenPattern "*.created" 4 1)).
  - apply faulty_civil.
  - apply small_good.
  - by split.
Defined.

(** Transport 9 throws when it is flushed. *)
Definition two_transports (stopped : bool) : world () BusState :=
  World ∅ false 0 () (set_shutdown stopped (set_transports [9; 2]%positive small_bus)).

Lemma shutdown_flushes_and_detaches_witness :
  let w' := world_after (shutdown faulty_host) (two_transports false) in
  trace_of (shutdown faulty_host) (two_transports false) =
    [EvCall (CallFlush 9); EvCall (CallDetach 9); EvCall (CallFlush 2); EvCall (CallDetach 2)] ∧
  shutdown_ (st w') = true ∧ transports_ (st w') = [] ∧ shutdown faulty_host w' = (Ret (), w', []).
Proof.
  intros w'.
  destruct (shutdown_flushes_and_detaches faulty_host (two_transports false) w'
              (trace_of (shutdown faulty_host) (two_transports false))) as ([Htr _] & Hagain & Hnone).
  - apply completed_run. reflexivity.
  - assert (∀ I, calls_keep faulty_host I) as Hkeep by (intros I c w Hi; exact Hi).
    destruct (Hagain (Hkeep _)) as [Hs Hagain']. split_and!; [exact Htr|exact Hs|by apply Hnone|exact Hagain'].
Defined.

Lemma use_transport_attaches_first_witness :
  use_transport faulty_host 9 small_world =
  (Throw (Exn user_exception "boom"), small_world, [EvCall (CallAttach 9)]).
Proof. apply (use_transport_attaches_first faulty_host 9 small_world); reflexivity. Defined.

Lemma drain_flushes_in_order_witness :
  drained [9; 2]%positive (Throw (Exn user_exception "boom")) [EvCall (CallFlush 9)].
Proof.
  apply (drain_flushes_in_order faulty_host (two_transports false) _ (two_transports false)).
  - reflexivity.
  - by intros [? ?].
Defined.
