(* ===== verification/BusTyping.v ===== *)
(** * Typed handlers get their type ([include/conduit/bus.hpp], [listener.hpp])

    [listen<T>] erases the handler's parameter type into a
    [std::function<void(const EventEnvelope&)>]; the types come back only in the
    [payload_as<T>()] of the wrapper.  A typing of the callables ([param]: the event
    type each takes) and of the state of the bus, and its soundness: every operation
    keeps the state well typed and calls typed handlers with payloads of their
    type only. *)

From S2P Require Import Prelude Exceptions External Flags Instances Envelope Serialization Glob World WorldLogic WorldSafety Hosts Listener Bus BusSafety BusListeners BusLifecycle.

Section typing.
Context `{ExternalLaws} {U : Type} (h : host U BusState).
Abbreviation comp := (comp U BusState).
Abbreviation world := (world U BusState).

(** The parameter types of the callables that take a [const T&], and of the
    [EventListener<T>]s. *)
Context (fn_param : fn → option event_type) (listener_param : obj → option event_type).

Definition handler_typed (k : handler) : Prop :=
  match k with
  | HPayload T f => fn_param f = Some T
  | HEnvelope _ => True
  | HListener T l => match l with Some l => listener_param l = Some T | None => True end
  end.

Definition bus_typed (s : BusState) : Prop := ∀ e, e ∈ listeners_ s → handler_typed (le_handler e).

(** A call of a typed callable passes it a payload of its type. *)
Definition call_typed (c : call) : Prop :=
  match c with
  | CallTyped f p => ∃ T, fn_param f = Some T ∧ cell_is T p = true
  | CallOnEvent l p => ∃ T, listener_param l = Some T ∧ cell_is T p = true
  | _ => True
  end.
Definition event_typed (e : event) : Prop := match e with EvCall c => call_typed c | EvMetric _ => True end.

(** What the C++ type system checks at the call of an operation. *)
Definition op_typed (op : bus_op) : Prop :=
  match op with
  | OpListenTyped T a _ => handler_typed (wrap_typed_handler T a)
  | OpListenListener T l => handler_typed (HListener T l)
  | _ => True
  end.

(** Callbacks use the bus through well-typed calls as well. *)
Definition host_typed : Prop :=
  ∀ c w, bus_typed (st w) → bus_typed (st (r_world (run h c w))).

(** ** A logic of typed computations *)

Definition sound {A} (m : comp A) (Q : A → Prop) : Prop :=
  ∀ w o w' tr, bus_typed (st w) → m w = (o, w', tr) →
  bus_typed (st w') ∧ Forall event_typed tr ∧ ∀ a, o = Ret a → Q a.

Abbreviation ok m := (sound m (λ _, True)).

Lemma sound_weaken {A} (m : comp A) (P Q : A → Prop) : (∀ a, P a → Q a) → sound m P → sound m Q.
Proof. intros HPQ Hm w o w' tr Hw Hrun. destruct (Hm w o w' tr Hw Hrun) as (? & ? & ?). eauto 6. Qed.

Lemma sound_ret {A} (a : A) (Q : A → Prop) : Q a → sound (mret a) Q.
Proof. intros HQ w o w' tr Hw [= <- <- <-]. split; [done|]. split; [done|]. by intros b [= ->]. Qed.

Lemma sound_lift {A} (o : outcome A) : ok (lift o).
Proof. intros w o' w' tr Hw [= <- <- <-]. done. Qed.

Lemma sound_bind {A B} (m : comp A) (f : A → comp B) P Q :
  sound m P → (∀ a, P a → sound (f a) Q) → sound (m ≫= f) Q.
Proof.
  intros Hm Hf w o w' tr Hw
    [(a & w1 & tr1 & tr2 & H1 & H2 & ->)|[(e & H1 & ->)|(u & H1 & ->)]]%bind_inv.
  - destruct (Hm _ _ _ _ Hw H1) as (Hw1 & Htr1 & Ha).
    destruct (Hf a (Ha a eq_refl) _ _ _ _ Hw1 H2) as (Hw2 & Htr2 & Hb).
    split; [done|]. split; [by apply Forall_app|done].
  - destruct (Hm _ _ _ _ Hw H1) as (? & ? & _). done.
  - destruct (Hm _ _ _ _ Hw H1) as (? & ? & _). done.
Qed.

Lemma sound_catch {A} (m : comp A) k Q : sound m Q → (∀ e, sound (k e) Q) → sound (catch_all m k) Q.
Proof.
  intros Hm Hk w o w' tr Hw [[H1 _]|(e & w1 & tr1 & tr2 & H1 & H2 & ->)]%catch_all_inv; [eauto|].
  destruct (Hm _ _ _ _ Hw H1) as (Hw1 & Htr1 & _).
  destruct (Hk e _ _ _ _ Hw1 H2) as (Hw2 & Htr2 & Hb).
  split; [done|]. split; [by apply Forall_app|done].
Qed.

Lemma sound_noexcept {A} (m : comp A) Q : sound m Q → sound (noexcept m) Q.
Proof.
  intros Hm w o w' tr Hw Hrun. unfold noexcept in Hrun.
  destruct (m w) as [[[a|e|u] w1] tr1] eqn:Hmw; simplify_eq; destruct (Hm _ _ _ _ Hw Hmw) as (? & ? & ?); eauto.
  by split; [|split].
Qed.

Lemma sound_with_lock {A} (m : comp A) Q : sound m Q → sound (with_lock m) Q.
Proof.
  intros Hm w o w' tr Hw Hrun. unfold with_lock in Hrun.
  destruct (locked w); [by simplify_eq|].
  destruct (m (set_locked true w)) as [[o1 w1] tr1] eqn:Hmw. simplify_eq.
  destruct (Hm (set_locked true w) _ _ _ Hw Hmw) as (? & ? & ?). eauto.
Qed.

Lemma sound_for_each {A} (l : list A) body :
  (∀ x, x ∈ l → ok (body x)) → ok (for_each l body).
Proof.
  induction l as [|x l IH]; intros Hb; simpl; [by apply sound_ret|].
  eapply sound_bind; [apply Hb; by left|]. intros _ _. apply IH. intros y Hy. apply Hb. by right.
Qed.

Lemma sound_gets {A} (f : BusState → A) (Q : A → Prop) :
  (∀ s, bus_typed s → Q (f s)) → sound (gets f) Q.
Proof. intros HQ w o w' tr Hw [= <- <- <-]. split; [done|]. split; [done|]. intros a [= <-]. auto. Qed.

Lemma sound_modify (f : BusState → BusState) : (∀ s, bus_typed s → bus_typed (f s)) → ok (modify f).
Proof. intros Hf w o w' tr Hw [= <- <- <-]. split; [by apply Hf|done]. Qed.

Lemma sound_emit m : ok (emit m : comp ()).
Proof. intros w o w' tr Hw [= <- <- <-]. split; [done|]. split; [by constructor|done]. Qed.

(** Code that neither changes the members nor calls out. *)
Lemma sound_silent {A} (m : comp A) :
  (∀ w o w' tr, m w = (o, w', tr) → st w' = st w ∧ tr = []) → ok m.
Proof. intros Hm w o w' tr Hw Hrun. destruct (Hm _ _ _ _ Hrun) as [-> ->]. done. Qed.

Lemma sound_read_core v : ok (read_core v : comp _).
Proof. apply sound_silent. by intros w o w' tr [= <- <- <-]. Qed.

Lemma sound_name_of v : ok (name_of v : comp _).
Proof. apply sound_silent. by intros w o w' tr [= <- <- <-]. Qed.

Lemma sound_now : ok (now h).
Proof. apply sound_silent. by intros w o w' tr [= <- <- <-]. Qed.

Lemma sound_write_core v f : ok (write_core v f : comp _).
Proof.
  apply sound_silent. unfold write_core. intros w o w' tr Hrun. repeat case_match; by simplify_eq.
Qed.

(** [payload_as<T>()] gives a payload of type [T] or nothing. *)
Lemma sound_payload T v :
  sound (payload_of T v : comp _) (λ o, ∀ p, o = Some p → cell_is T p = true).
Proof.
  intros w o w' tr Hw [= <- <- <-]. split; [done|]. split; [done|].
  intros a Ha p ->. unfold env_payload_as in Ha. destruct (value v); [|done].
  destruct (core_of (heap w) v) as [c| |]; try done. injection Ha as Ha.
  unfold core_payload_as in Ha. destruct (payload_cell c); [|done]. by case_match; simplify_eq.
Qed.

Context (Hh : host_typed).

Lemma sound_call_ref c : call_typed c → ok (call_ref h c).
Proof.
  intros Hc w o w' tr Hw Hrun. injection Hrun as _ <- <-.
  split; [by apply Hh|]. split; [by constructor|done].
Qed.

Lemma sound_call_fn c : call_typed c → ok (call_fn h c).
Proof.
  intros Hc. eapply sound_bind; [by apply sound_call_ref|].
  intros [[b|e] v] _; [by apply sound_ret|apply sound_lift].
Qed.

Lemma sound_call_void c : call_typed c → ok (call_void h c).
Proof.
  intros Hc. eapply sound_bind; [by apply sound_call_fn|]. intros b _. by apply sound_ret.
Qed.
End typing.

Create HintDb typing.
#[export] Hint Resolve sound_lift sound_emit sound_read_core sound_name_of sound_now sound_write_core : typing.
#[export] Hint Extern 0 (call_typed _ _ _) => exact I : typing.

Ltac sound_step :=
  match goal with
  | |- sound _ _ (mbind _ _) _ => eapply sound_bind; [|intros ? ?]
  | |- sound _ _ (catch_all _ _) _ => apply sound_catch; [|intros ?]
  | |- sound _ _ (noexcept _) _ => apply sound_noexcept
  | |- sound _ _ (with_lock _) _ => apply sound_with_lock
  | |- sound _ _ (for_each _ _) _ => apply sound_for_each; intros ? ?
  | |- sound _ _ (mret _) _ => by apply sound_ret
  | |- sound _ _ (gets _) _ => by apply (sound_gets _ _ _ (λ _, True))
  | |- sound _ _ (if ?b then _ else _) _ => destruct b
  | |- sound _ _ (match ?x with _ => _ end) _ => destruct x
  end.
Ltac sound := repeat (cbv beta zeta; first [solve [eauto with typing nocore]|sound_step]).

(** ** The operations *)

Section operations.
Context `{ExternalLaws} {U : Type} (h : host U BusState).
Context (fn_param : fn → option event_type) (listener_param : obj → option event_type).
Context (Hh : host_typed h fn_param listener_param).
Abbreviation bus_typed := (bus_typed fn_param listener_param).
Abbreviation handler_typed := (handler_typed fn_param listener_param).
Abbreviation ok m := (sound (U:=U) fn_param listener_param m (λ _, True)).

#[local] Hint Resolve sound_call_ref sound_call_fn sound_call_void : typing.
#[local] Hint Extern 0 (host_typed _ _ _) => exact Hh : typing.

Lemma run_handler_ok k v : handler_typed k → ok (run_handler h k v).
Proof.
  intros Hk. destruct k as [T f|f|T l]; unfold run_handler; [|sound|].
  - eapply sound_bind; [apply sound_payload|]. intros [p|] Hp; [|sound].
    apply sound_call_void; [exact Hh|]. exists T. split; [exact Hk|by apply Hp].
  - eapply sound_bind; [apply sound_payload|]. intros [p|] Hp; [|sound].
    destruct l as [l|]; [|sound].
    apply sound_call_void; [exact Hh|]. exists T. split; [exact Hk|by apply Hp].
Qed.

Lemma on_error_loop_ok snap v ep : ok (on_error_loop h snap v ep).
Proof. revert v. induction snap as [|m snap IH]; intros v; cbn [on_error_loop]; sound. Qed.
#[local] Hint Resolve on_error_loop_ok : typing.

Lemma run_on_error_ok v ep : ok (run_on_error h v ep).
Proof. unfold run_on_error. sound. Qed.
#[local] Hint Resolve run_on_error_ok : typing.

Lemma report_ok tn ep : ok (report_transport_error h tn ep).
Proof. unfold report_transport_error. sound. Qed.

Lemma deliver_ok v : ok (deliver_to_listeners h v).
Proof.
  unfold deliver_to_listeners.
  eapply sound_bind; [apply sound_with_lock, (sound_gets _ _ _ (λ l, ∀ e, e ∈ l → handler_typed (le_handler e))); auto|].
  intros es Hes. eapply sound_bind; [apply sound_name_of|]. intros name _.
  apply sound_for_each. intros e He. unfold deliver_one. case_match; [|sound].
  eapply sound_bind; [apply sound_emit|]. intros _ _. apply sound_catch; [|intros; sound].
  by apply run_handler_ok, Hes.
Qed.
#[local] Hint Resolve deliver_ok : typing.

Lemma own_on_error_ok m v ep : ok (own_on_error h m v ep).
Proof. unfold own_on_error. sound. Qed.
#[local] Hint Resolve own_on_error_ok : typing.

Lemma run_before_ok mws v : ok (run_before h mws v).
Proof. revert v. induction mws as [|m mws IH]; intros v; cbn [run_before]; sound. Qed.

Lemma run_after_ok mws v : ok (run_after h mws v).
Proof. revert v. induction mws as [|m mws IH]; intros v; cbn [run_after]; sound. Qed.
#[local] Hint Resolve run_before_ok run_after_ok : typing.

Lemma publish_impl_ok v : ok (publish_impl h v).
Proof. unfold publish_impl, route, dispatch_one. sound. Qed.
#[local] Hint Resolve publish_impl_ok : typing.

Lemma register_event_ok T : ok (register_event T).
Proof. apply sound_modify. by intros s Hs. Qed.
#[local] Hint Resolve register_event_ok : typing.

Lemma insert_typed e s :
  bus_typed s → handler_typed (le_handler e) →
  bus_typed (set_listeners (ps_insert listener_priority entry_eqb e (listeners_ s)) s).
Proof. intros Hs He e' He'. apply ps_insert_elem in He' as [->|He']; [exact He|exact (Hs e' He')]. Qed.

Lemma register_ok name k pat pr :
  handler_typed k → ok (register_listener_for_name name k pat pr).
Proof.
  intros Hk. unfold register_listener_for_name, fresh_id, shared_from_this_safe.
  eapply (sound_bind _ _ _ _ (λ _, True)).
  { eapply (sound_bind _ _ _ _ (λ _, True)); [by apply sound_gets|]. intros n _.
    eapply sound_bind; [apply sound_modify; by intros s Hs|]. intros _ _. by apply sound_ret. }
  intros id _. eapply sound_bind.
  { apply sound_with_lock, sound_modify. intros s Hs. by apply insert_typed. }
  intros _ _. eapply sound_bind; [apply sound_emit|]. intros _ _.
  eapply (sound_bind _ _ _ _ (λ _, True)); [|intros ? _; by apply sound_ret].
  eapply (sound_bind _ _ _ _ (λ _, True)); [by apply sound_gets|]. intros [] _; [by apply sound_ret|].
  apply sound_modify. by intros s Hs.
Qed.

Lemma release_ok i : ok (release i).
Proof.
  unfold release. apply sound_noexcept, sound_with_lock.
  eapply (sound_bind _ _ _ _ (λ l, ∀ e, e ∈ l → handler_typed (le_handler e))).
  { by apply sound_gets. }
  intros l Hl. destruct (find_entry i l); [|by apply sound_ret].
  eapply sound_bind; [|intros _ _; apply sound_emit].
  apply sound_modify. intros s _ e' He'. apply Hl. eapply elem_of_sublist; [exact He'|apply remove_first_sublist].
Qed.

Lemma shutdown_ok : ok (shutdown h).
Proof.
  unfold shutdown, shutdown_one. apply sound_noexcept.
  eapply (sound_bind _ _ _ _ (λ _, True)); [by apply sound_gets|]. intros was _.
  eapply sound_bind; [apply sound_modify; by intros s Hs|]. intros _ _. destruct was; [by apply sound_ret|].
  eapply (sound_bind _ _ _ _ (λ _, True)).
  { apply sound_with_lock. eapply (sound_bind _ _ _ _ (λ _, True)); [by apply sound_gets|]. intros l _.
    eapply sound_bind; [apply sound_modify; by intros s Hs|]. intros _ _. by apply sound_ret. }
  intros ts _. sound.
Qed.

Lemma run_op_ok op : op_typed fn_param listener_param op → ok (run_op h op).
Proof.
  assert (∀ A (m : comp U BusState A), ok m → ok (_ ← m; mret ())) as Hdrop.
  { intros A m Hm. eapply sound_bind; [exact Hm|]. intros ? _. by apply sound_ret. }
  destruct op as [T v|v|v|tn ep|T a p|T l|pat f p|i|T|t|m| |]; intros Hop; simpl in *.
  - eapply sound_bind; [apply register_event_ok|]. intros _ _. apply publish_impl_ok.
  - apply publish_impl_ok.
  - apply deliver_ok.
  - apply report_ok.
  - apply Hdrop. eapply sound_bind; [apply register_event_ok|]. intros _ _. by apply register_ok.
  - apply Hdrop. eapply sound_bind; [apply register_event_ok|]. intros _ _. by apply register_ok.
  - apply Hdrop. by apply register_ok.
  - apply release_ok.
  - apply register_event_ok.
  - eapply sound_bind; [by apply sound_call_void|]. intros _ _.
    apply sound_with_lock, sound_modify. by intros s Hs.
  - apply sound_with_lock, sound_modify. by intros s Hs.
  - unfold drain. eapply (sound_bind _ _ _ _ (λ _, True)); [apply sound_with_lock; by apply sound_gets|].
    intros ts _. sound.
  - apply shutdown_ok.
Qed.
End operations.

(** ** Theorems *)

Section theorems.
Context `{ExternalLaws} {U : Type} (h : host U BusState).
Implicit Types w : world U BusState.

(** C14: type soundness of the fan-out.  From a well-typed bus every operation whose
    call type-checks, whatever it returns or throws, leaves the bus well typed, and
    every callable it calls with a payload gets one of the event type that it was
    registered for, never one of another type. *)
Theorem typed_handlers_get_their_type fn_param listener_param (op : bus_op) w o w' tr :
  host_typed h fn_param listener_param → op_typed fn_param listener_param op →
  bus_typed fn_param listener_param (st w) → run_op h op w = (o, w', tr) →
  bus_typed fn_param listener_param (st w') ∧ ∀ c, EvCall c ∈ tr → call_typed fn_param listener_param c.
Proof.
  intros Hh Hop Hw Hrun.
  destruct (run_op_ok h fn_param listener_param Hh op Hop w o w' tr Hw Hrun) as (Hw' & Htr & _).
  split; [done|]. intros c Hc. by apply (proj1 (Forall_forall _ _) Htr) in Hc.
Qed.
End theorems.

(** ** Witness *)

(** Function 3 takes an order; every other callable takes envelopes. *)
Definition demo_param (f : fn) : option event_type :=
  if bool_decide (f = 3%positive) then Some (sample_type "order") else None.

Abbreviation typed_run := (run_op (U:=()) faulty_host (OpPublishEnvelope (envelope_at 1%positive))).
Definition typed_world : world () BusState := set_st (set_transports [] (st busy_world)) busy_world.

Lemma typed_handlers_get_their_type_witness :
  bus_typed demo_param (λ _, None) (st (world_after typed_run typed_world)) ∧
  ∀ c, EvCall c ∈ trace_of typed_run typed_world → call_typed demo_param (λ _, None) c.
Proof.
  apply (typed_handlers_get_their_type faulty_host demo_param (λ _, None)
    (OpPublishEnvelope (envelope_at 1%positive)) typed_world (Ret ())).
  - by intros c w.
  - exact I.
  - intros e He. repeat (apply elem_of_cons in He as [->|He]; [vm_compute; done|]).
    by apply not_elem_of_nil in He.
  - apply completed_run. vm_compute. reflexivity.
Defined.

(** That run calls function 3 with an order. *)
Example typed_run_calls :
  omap (λ e, match e with EvCall (CallTyped f p) => Some (f, cc_kind p) | _ => None end)
    (trace_of typed_run typed_world) = [(3%positive, "conduit:event:order")].
Proof. vm_compute. reflexivity. Qed.
