(* ===== verification/Transport.v ===== *)
(** * The transport interface ([include/conduit/transport.hpp]) and
    [FilteredTransport] ([include/conduit/filtered_transport.hpp])

    The virtual methods of [conduit::Transport] are the record [transport_ops];
    a transport of the environment implements it by calls, [filtered_ops] wraps
    any implementation.  Inbound sinks are interpreted against the interface
    [InboundTarget], which the bus implements by [deliver_to_listeners]. *)

From S2P Require Import Prelude Exceptions External Flags Instances Envelope World WorldLogic WorldSafety Hosts Bus.

(** [bus.deliver_to_listeners], as the sinks see it. *)
Class InboundTarget `{Externals} (U S : Type) :=
  deliver_to_bus : EventEnvelope → comp U S ().

Definition bus_target `{Externals} {U} (h : host U BusState) : InboundTarget U BusState :=
  deliver_to_listeners h.

Section transport.
Context `{Externals} {U S : Type} (h : host U S) `{!InboundTarget U S}.
Abbreviation comp := (comp U S).

(** The virtual methods. *)
Record transport_ops := MkTransport {
  t_scope : TransportScope;
  t_attach : comp ();
  t_attach_with_sink : InboundSink → comp ();
  t_detach : comp ();
  t_dispatch : EventEnvelope → comp ();
  t_flush : comp ();
}.

(** A transport whose code is in the environment. *)
Definition external_ops (t : obj) : transport_ops := {|
  t_scope := scope_of h t;
  t_attach := call_void h (CallAttach t);
  t_attach_with_sink s := call_void h (CallAttachWithSink t s);
  t_detach := noexcept (call_void h (CallDetach t));
  t_dispatch v := call_void h (CallDispatch t v);
  t_flush := call_void h (CallFlush t);
|}.

(** ** The base class *)

(** [bus_] (whether it is set) and [inbound_sink_]. *)
Record TransportBase := MkBase {
  bus_ : bool;
  inbound_sink_ : option InboundSink;
}.

Definition detached_base : TransportBase := MkBase false None.

Definition base_attach_with_sink (sink : InboundSink) (b : TransportBase) : TransportBase :=
  MkBase true (Some sink).

(** [attach(bus)]: the sink that forwards to [bus.deliver_to_listeners]. *)
Definition base_attach (b : TransportBase) : TransportBase := base_attach_with_sink SinkBus b.

(** A predicate: an exception counts as [false]. *)
Definition ask (p : fn) (v : EventEnvelope) : comp bool :=
  catch_all (call_fn h (CallPredicate p v)) (λ _, mret false).

(** Calling a sink. *)
Fixpoint run_sink (s : InboundSink) (v : EventEnvelope) : comp () :=
  match s with
  | SinkBus => deliver_to_bus v
  | SinkUser f => call_void h (CallHandler f v)
  | SinkGate p s =>
      let forward := match s with Some s => run_sink s v | None => mret () end in
      match p with
      | None => forward
      | Some p => allow ← ask p v; if (allow : bool) then forward else mret ()
      end
  end.

Definition deliver_inbound (b : TransportBase) (v : EventEnvelope) : comp () :=
  match inbound_sink_ b with
  | Some s => run_sink s v
  | None => mret ()
  end.

(** ** FilteredTransport *)

Definition filtered_ops (outbound inbound : option fn) (inner : transport_ops) : transport_ops := {|
  t_scope := t_scope inner;
  t_attach := t_attach_with_sink inner (SinkGate inbound (Some SinkBus));
  t_attach_with_sink sink := t_attach_with_sink inner (SinkGate inbound (Some sink));
  t_detach := noexcept (t_detach inner);
  t_dispatch v :=
    match outbound with
    | Some p => allow ← ask p v; if (allow : bool) then t_dispatch inner v else mret ()
    | None => t_dispatch inner v
    end;
  t_flush := t_flush inner;
|}.

(** Wrappers around wrappers, the outermost first: each has an outbound and an
    inbound predicate. *)
Definition filter_stack (fs : list (option fn * option fn)) (inner : transport_ops) : transport_ops :=
  foldr (λ f inner, filtered_ops f.1 f.2 inner) inner fs.

(** The sink that the innermost transport receives. *)
Definition stack_sink (fs : list (option fn * option fn)) (sink : InboundSink) : InboundSink :=
  foldl (λ s f, SinkGate f.2 (Some s)) sink fs.

(** ** Chains of predicates *)

Fixpoint gates (ps : list fn) (v : EventEnvelope) (k : comp ()) : comp () :=
  match ps with
  | [] => k
  | p :: ps => allow ← ask p v; if (allow : bool) then gates ps v k else mret ()
  end.

Lemma gates_app ps qs v k : gates (ps ++ qs) v k = gates ps v (gates qs v k).
Proof. induction ps as [|p ps IH]; simpl; [done|]. by rewrite IH. Qed.

Lemma stack_dispatch fs inner v :
  t_dispatch (filter_stack fs inner) v = gates (omap fst fs) v (t_dispatch inner v).
Proof.
  induction fs as [|[[p|] i] fs IH]; simpl; [done| |exact IH]. by rewrite IH.
Qed.

Lemma stack_sink_run fs sink v :
  run_sink (stack_sink fs sink) v = gates (reverse (omap snd fs)) v (run_sink sink v).
Proof.
  revert sink. induction fs as [|[o [i|]] fs IH]; intros sink; simpl; [done| |].
  - rewrite IH. rewrite reverse_cons, gates_app. done.
  - by rewrite IH.
Qed.

Lemma stack_attach_with_sink fs inner sink :
  t_attach_with_sink (filter_stack fs inner) sink = t_attach_with_sink inner (stack_sink fs sink).
Proof. revert sink. induction fs as [|f fs IH]; intros sink; simpl; [done|]. by rewrite IH. Qed.

(** What the predicate says, at the world in which it is asked. *)
Definition says_yes (p : fn) (v : EventEnvelope) (w : world U S) : Prop :=
  r_out (run h (CallPredicate p v) w) = Ret true.

Lemma ask_run p v w :
  ¬ is_undef (r_out (run h (CallPredicate p v) w)) →
  ∃ b, ask p v w = (Ret b, r_world (run h (CallPredicate p v) w), [EvCall (CallPredicate p v)]) ∧
       (b = true ↔ says_yes p v w).
Proof.
  unfold ask, says_yes, catch_all, call_fn, call_ref, mbind, comp_bind.
  destruct (r_out (run h (CallPredicate p v) w)) as [b|e|u]; intros Hu; simpl.
  - exists b. split; [done|]. naive_solver.
  - exists false. by split.
  - destruct Hu. by eexists.
Qed.

(** Passing a chain of gates: [through ps v w w1] asks them all and each says yes;
    [stopped] is the trace up to the first that does not. *)
Inductive through (v : EventEnvelope) : list fn → world U S → world U S → Prop :=
  | through_nil w : through v [] w w
  | through_cons p ps w w1 :
      says_yes p v w → through v ps (r_world (run h (CallPredicate p v) w)) w1 →
      through v (p :: ps) w w1.

Definition asks (v : EventEnvelope) (ps : list fn) : list event :=
  (λ p, EvCall (CallPredicate p v)) <$> ps.

(** Either every predicate said yes and what is behind ran, once, or one did not
    and nothing behind it did. *)
Definition gated (ps : list fn) (v : EventEnvelope) (k : comp ())
    (w : world U S) (o : outcome ()) (w' : world U S) (tr : list event) : Prop :=
  (∃ w1 trk, through v ps w w1 ∧ k w1 = (o, w', trk) ∧ tr = asks v ps ++ trk) ∨
  (∃ pre p post w1, ps = pre ++ p :: post ∧ through v pre w w1 ∧ ¬ says_yes p v w1 ∧
     o = Ret () ∧ tr = asks v (pre ++ [p])).

Lemma gates_spec ps v k w o w' tr :
  (∀ p w, ¬ is_undef (r_out (run h (CallPredicate p v) w))) →
  gates ps v k w = (o, w', tr) → gated ps v k w o w' tr.
Proof.
  intros Hdef. revert w tr. induction ps as [|p ps IH]; intros w tr Hrun; simpl in Hrun.
  { left. exists w, tr. split_and!; [constructor|done|done]. }
  destruct (ask_run p v w (Hdef p w)) as (b & Hask & Hb).
  unfold mbind, comp_bind in Hrun. rewrite Hask in Hrun. destruct b.
  - destruct (gates ps v k (r_world (run h (CallPredicate p v) w))) as [[o1 w1] tr1] eqn:Hg.
    injection Hrun as <- <- <-.
    destruct (IH _ _ Hg) as [(w2 & trk & Ht & Hk & ->)|(pre & q & post & w2 & -> & Ht & Hq & -> & ->)].
    + left. exists w2, trk. split_and!; [|done|done]. constructor; [by apply Hb|done].
    + right. exists (p :: pre), q, post, w2. split_and!; [done| |done|done|done].
      constructor; [by apply Hb|done].
  - injection Hrun as <- <- <-. right. exists [], p, ps, w. split_and!; try done; [constructor|].
    intros Hy%Hb. done.
Qed.
End transport.

(** ** Theorems *)

Section theorems.
Context `{Externals} {U S : Type} (h : host U S) `{!InboundTarget U S}.

(** C38: dispatching through any stack of [FilteredTransport]s asks the outbound
    predicates from the outermost wrapper inwards and reaches the wrapped
    transport exactly when every one of them returns [true]; one that returns
    [false] or throws ends the dispatch silently, and an exception of the
    wrapped transport comes out unchanged. *)
Theorem filtered_outbound fs t v w o w' tr :
  (∀ p w, ¬ is_undef (r_out (run h (CallPredicate p v) w))) →
  t_dispatch (filter_stack h fs (external_ops h t)) v w = (o, w', tr) →
  gated h (omap fst fs) v (call_void h (CallDispatch t v)) w o w' tr.
Proof. intros Hdef Hrun. rewrite stack_dispatch in Hrun. by apply gates_spec. Qed.

(** Attaching such a stack to a bus installs on the wrapped transport one sink
    that asks the inbound predicates from the innermost wrapper outwards, and
    delivers to the bus exactly when every one of them returns [true]; scope,
    flush and detach are those of the wrapped transport. *)
Theorem filtered_inbound f fs t v w o w' tr :
  (∀ p w, ¬ is_undef (r_out (run h (CallPredicate p v) w))) →
  let stack := filter_stack h (f :: fs) (external_ops h t) in
  let sink := stack_sink fs (SinkGate f.2 (Some SinkBus)) in
  t_attach stack = call_void h (CallAttachWithSink t sink) ∧
  t_scope stack = scope_of h t ∧ t_flush stack = call_void h (CallFlush t) ∧
  (run_sink h sink v w = (o, w', tr) →
   gated h (reverse (omap snd (f :: fs))) v (deliver_to_bus v) w o w' tr).
Proof.
  intros Hdef stack sink. split_and!.
  - unfold stack. simpl. by rewrite stack_attach_with_sink.
  - unfold stack, filter_stack. by induction (f :: fs).
  - unfold stack, filter_stack. by induction (f :: fs).
  - intros Hrun. apply gates_spec; [done|].
    pose proof (stack_sink_run h (f :: fs) SinkBus v) as Hs. simpl in Hs. unfold sink in Hrun.
    simpl. rewrite <- Hs. done.
Qed.
End theorems.

(** ** Witnesses *)

#[local] Instance faulty_target : InboundTarget () BusState := bus_target faulty_host.

Definition quiet_world : world () BusState := World ∅ false 0 () new_Bus.

(** Two wrappers; the inner outbound predicate (9) throws, the inner inbound one (8)
    refuses. *)
Definition two_filters : list (option fn * option fn) :=
  [(Some 3, Some 4); (Some 9, Some 8)]%positive.

Lemma filtered_outbound_witness :
  gated faulty_host [3; 9]%positive null_envelope (call_void faulty_host (CallDispatch 2 null_envelope))
    quiet_world (Ret ()) quiet_world (asks null_envelope [3; 9]%positive).
Proof.
  apply (filtered_outbound faulty_host two_filters 2%positive).
  - intros p w. apply faulty_script_defined.
  - reflexivity.
Defined.

Lemma filtered_inbound_witness :
  gated faulty_host [8; 4]%positive null_envelope (deliver_to_listeners faulty_host null_envelope)
    quiet_world (Ret ()) quiet_world (asks null_envelope [8]%positive).
Proof.
  destruct (filtered_inbound faulty_host (Some 3, Some 4)%positive [(Some 9, Some 8)]%positive
    2%positive null_envelope quiet_world (Ret ()) quiet_world (asks null_envelope [8]%positive))
    as (_ & _ & _ & Hgated).
  - intros p w. apply faulty_script_defined.
  - apply Hgated. reflexivity.
Defined.
