(* ===== verification/Relay.v ===== *)
(** * The relay transport ([include/conduit/relay/transport.hpp])

    Routes from glob patterns to callbacks, in a transport with its own mutex. *)

From S2P Require Import Prelude Exceptions External Flags Instances Envelope Glob World WorldLogic WorldSafety Hosts.

Record Route := MkRoute {
  route_id : Z;
  route_pattern : string;
  route_cb : fn;
}.

Record RelayState := MkRelay {
  routes_ : list Route;
  relay_next_id : Z;
}.

Definition empty_relay : RelayState := MkRelay [] 0.

(** [Glob::match(r.pattern, name)] *)
Definition route_matches (name : string) (r : Route) : bool := Glob_match (route_pattern r) name.

Section relay.
Context `{Externals} {U : Type} (h : host U RelayState).
Abbreviation comp := (comp U RelayState).

Definition add_route_impl (pattern : string) (cb : fn) : comp Z :=
  with_lock
    (n ← gets relay_next_id;
     let id := u64_add n 1 in
     modify (λ s, MkRelay (routes_ s ++ [MkRoute id pattern cb]) id);;
     mret id).

Definition add_route (pattern : string) (cb : fn) : comp Z := add_route_impl pattern cb.

(** [Transport(cb)] and [Transport(pattern, cb)] *)
Definition new_relay (cb : fn) : comp Z := add_route_impl "**" cb.
Definition new_relay_pattern (pattern : string) (cb : fn) : comp Z := add_route_impl pattern cb.

Definition remove_route (i : Z) : comp () :=
  noexcept (with_lock (modify (λ s,
    MkRelay (remove_first (λ r, (route_id r =? i)%Z) (routes_ s)) (relay_next_id s)))).

Definition route_count : comp nat := noexcept (with_lock (gets (λ s, length (routes_ s)))).

Definition relay_one (v : EventEnvelope) (name : string) (r : Route) : comp () :=
  if route_matches name r then catch_all (call_void h (CallHandler (route_cb r) v)) (λ _, mret ())
  else mret ().

Definition relay_dispatch (v : EventEnvelope) : comp () :=
  snapshot ← with_lock (gets routes_);
  name ← name_of v;
  for_each snapshot (relay_one v name).

Definition relay_scope : TransportScope := Local.

(** ** Lemmas *)

(** Route ids are distinct and were handed out. *)
Record relay_inv (s : RelayState) : Prop := {
  ri_ids : NoDup (route_id <$> routes_ s);
  ri_bound r : r ∈ routes_ s → (1 ≤ route_id r ≤ relay_next_id s)%Z;
  ri_next : is_u64 (relay_next_id s);
}.

Lemma relay_inv_empty : relay_inv empty_relay.
Proof. split; simpl; [constructor|set_solver|done]. Qed.

Lemma add_route_run pattern cb w :
  locked w = false → is_u64 (relay_next_id (st w) + 1) →
  let id := (relay_next_id (st w) + 1)%Z in
  add_route pattern cb w =
  (Ret id, World (heap w) false (reads w) (user w)
             (MkRelay (routes_ (st w) ++ [MkRoute id pattern cb]) id), []).
Proof.
  intros Hl Hroom id. destruct w as [hp lk rd us s]. simpl in *. subst lk.
  unfold add_route, add_route_impl, with_lock, mbind, comp_bind, gets, modify. simpl.
  by rewrite (u64_add_small _ 1 Hroom).
Qed.

Lemma remove_route_run i w :
  locked w = false →
  remove_route i w =
  (Ret (), World (heap w) false (reads w) (user w)
             (MkRelay (remove_first (λ r, (route_id r =? i)%Z) (routes_ (st w))) (relay_next_id (st w))), []).
Proof. destruct w. simpl. by intros ->. Qed.

Lemma add_route_inv pattern cb s :
  relay_inv s → is_u64 (relay_next_id s + 1) →
  relay_inv (MkRelay (routes_ s ++ [MkRoute (relay_next_id s + 1) pattern cb]) (relay_next_id s + 1)).
Proof.
  intros [Hids Hb Hn] Hroom. split; simpl.
  - rewrite fmap_app. apply NoDup_app. split_and!; [done| |apply NoDup_singleton].
    intros i (r & -> & Hr)%list_elem_of_fmap Hi%list_elem_of_singleton. simpl in Hi.
    apply Hb in Hr. lia.
  - intros r [Hr|Hr%list_elem_of_singleton]%elem_of_app; [apply Hb in Hr; lia|].
    subst r. simpl. destruct Hn. lia.
  - done.
Qed.

Lemma remove_route_inv i s :
  relay_inv s → relay_inv (MkRelay (remove_first (λ r, (route_id r =? i)%Z) (routes_ s)) (relay_next_id s)).
Proof.
  intros [Hids Hb Hn].
  pose proof (remove_first_sublist (λ r, (route_id r =? i)%Z) (routes_ s)) as Hsub.
  split; simpl; [|intros r Hr; apply Hb; by eapply elem_of_sublist|done].
  eapply sublist_NoDup; [done|]. by apply fmap_sublist.
Qed.

Definition relayed (v : EventEnvelope) (rs : list Route) : list event :=
  (λ r, EvCall (CallHandler (route_cb r) v)) <$> rs.

Lemma relay_loop_trace v name rs w w' tr :
  for_each rs (relay_one v name) w = (Ret (), w', tr) →
  tr = relayed v (List.filter (route_matches name) rs).
Proof.
  revert w tr. induction rs as [|r rs IH]; intros w tr Hrun; simpl in Hrun; [by inv_ret Hrun|].
  apply bind_ret_inv in Hrun as ([] & w1 & tr1 & tr2 & H1 & H2 & ->).
  rewrite (IH _ _ H2). unfold relay_one in H1. simpl.
  destruct (route_matches name r); [|by inv_ret H1].
  apply catch_all_inv in H1 as [[Hc _]|(e & w2 & tr3 & tr4 & Hc & Hk & ->)].
  - by apply call_void_trace in Hc as ->.
  - apply call_void_trace in Hc as ->. by inv_ret Hk.
Qed.
End relay.

(** ** Theorems *)

Section theorems.
Context `{Externals} {U : Type} (h : host U RelayState) (I : RelayState → U → Prop).

(** Relaying an envelope never throws, whatever the callbacks do, and calls
    exactly the routes whose pattern takes its name, once each and in the order
    in which they were added, as of the moment the dispatch starts. *)
Theorem relay_dispatch_calls_matching v (w : world U RelayState) :
  civil h I → good I w → live v w →
  ∃ name w', env_name (heap w) v = Ret name ∧
    relay_dispatch h v w =
      (Ret (), w', relayed v (List.filter (route_matches name) (routes_ (st w)))) ∧ good I w'.
Proof.
  intros Hh Hg Hv.
  assert (wp I (relay_dispatch h v) (returns (λ _ _, True)) w) as Hwp.
  { apply wp_bind, wp_with_lock_gets; [done|]. apply wp_bind, wp_name_of; [done|done|].
    intros name _. eapply wp_mono; [|apply (wp_for_each _ _ _ (λ w, live v w)); [done|done|]].
    - intros o w' _ _ _ (a & -> & _). by exists a.
    - intros r w1 _ Hg1 _ Hv1. unfold relay_one. case_match; [|apply wp_ret; [done|by exists ()]].
      apply wp_catch_all, (wp_call_void _ _ Hh); [done|by intros ? [= <-]|].
      intros [[]|e|u] w' Hg' Hle Hu; [exists (); split; [done|by eapply live_mono]| |done].
      apply wp_ret; [done|]. exists (). split; [done|]. by eapply live_mono. }
  destruct Hwp as (o & w' & tr & Heq & _ & Hg' & _ & [] & -> & _).
  pose proof Heq as Hrun. unfold relay_dispatch in Hrun.
  apply bind_ret_inv in Hrun as (rs & w1 & tr1 & tr2 & H1 & H2 & ->).
  apply with_lock_gets_ret in H1 as (-> & -> & ->).
  apply bind_ret_inv in H2 as (name & w2 & tr3 & tr4 & H3 & H4 & ->).
  unfold name_of in H3. injection H3 as H3 <- <-. simpl in *.
  exists name, w'. split; [done|]. split; [|done]. rewrite Heq. f_equal.
  by eapply relay_loop_trace.
Qed.

(** A route can be added and removed again: the id that [add_route] returns is
    one no route has, the new route comes last, removing the id restores the
    routes exactly, and distinctness of ids is kept throughout. *)
Theorem add_remove_route pattern cb (w : world U RelayState) :
  locked w = false → relay_inv (st w) → is_u64 (relay_next_id (st w) + 1) →
  ∃ id w1 w2, add_route pattern cb w = (Ret id, w1, []) ∧
    id ∉ route_id <$> routes_ (st w) ∧
    routes_ (st w1) = routes_ (st w) ++ [MkRoute id pattern cb] ∧ relay_inv (st w1) ∧
    remove_route id w1 = (Ret (), w2, []) ∧ routes_ (st w2) = routes_ (st w) ∧ relay_inv (st w2).
Proof.
  intros Hl Hinv Hroom. set (id := (relay_next_id (st w) + 1)%Z).
  assert (∀ r, r ∈ routes_ (st w) → route_id r ≠ id) as Hfresh.
  { intros r Hr%(ri_bound _ Hinv). unfold id. lia. }
  assert (∀ rs r, (∀ x, x ∈ rs → route_id x ≠ id) → route_id r = id →
    remove_first (λ x, (route_id x =? id)%Z) (rs ++ [r]) = rs) as Hrem.
  { induction rs as [|x rs IH]; intros r Hrs Hr; simpl; [by rewrite Hr, Z.eqb_refl|].
    rewrite (proj2 (Z.eqb_neq _ _)) by (apply Hrs; by left). f_equal. apply IH; [|done].
    intros y Hy. apply Hrs. by right. }
  eexists id, _, _. split; [by apply add_route_run|]. split_and!; simpl.
  - intros (r & Heq & Hr)%list_elem_of_fmap. by apply (Hfresh r).
  - done.
  - by apply add_route_inv.
  - by apply remove_route_run.
  - simpl. by apply Hrem.
  - apply (remove_route_inv id (MkRelay _ _)). by apply add_route_inv.
Qed.
End theorems.

(** ** Witnesses *)

Definition two_routes : RelayState :=
  MkRelay [MkRoute 1 "**" 9; MkRoute 3 "billing.*" 4] 3.

Lemma relay_dispatch_calls_matching_witness :
  ∃ name w', env_name (heap (world_with (order_core []) two_routes)) (envelope_at 1%positive) = Ret name ∧
    relay_dispatch faulty_host (envelope_at 1%positive) (world_with (order_core []) two_routes) =
      (Ret (), w', relayed (envelope_at 1%positive)
                     (List.filter (route_matches name) (routes_ two_routes))) ∧
    good (λ _ _, True) w'.
Proof.
  apply (relay_dispatch_calls_matching faulty_host (λ _ _, True) (envelope_at 1%positive)
           (world_with (order_core []) two_routes)).
  - apply faulty_civil.
  - by split.
  - apply live_world_with.
Defined.

Lemma two_routes_inv : relay_inv two_routes.
Proof.
  split; simpl.
  - apply (bool_decide_unpack _). reflexivity.
  - intros r Hr. repeat (apply elem_of_cons in Hr as [-> | Hr]; [simpl; lia|]).
    by apply elem_of_nil in Hr.
  - by split.
Qed.

Lemma add_remove_route_witness :
  ∃ id w1 w2, add_route "a.**" 5 (world_with (order_core []) two_routes) = (Ret id, w1, []) ∧
    id ∉ route_id <$> routes_ two_routes ∧
    routes_ (st w1) = routes_ two_routes ++ [MkRoute id "a.**" 5] ∧ relay_inv (st w1) ∧
    remove_route id w1 = (Ret (), w2, []) ∧ routes_ (st w2) = routes_ two_routes ∧ relay_inv (st w2).
Proof.
  apply (add_remove_route (U := ()) "a.**" 5 (world_with (order_core []) two_routes)).
  - reflexivity.
  - apply two_routes_inv.
  - by split.
Defined.
