(* ===== verification/LocalTransport.v ===== *)
(** * The in-process transport ([include/conduit/local/transport.hpp])

    The queued and pooled modes are a state machine that threads interleave: each
    action of [local_step] is one critical section, one call to the thread pool or
    one delivery.  threadman's pool is the queue of accepted tasks and [workers]
    worker threads; [AStart k i] lets worker [k] take the [i]-th task, so the
    order is arbitrary unless the schedule is FIFO ([i = 0]).  Blocking on a
    condition variable is the action not being enabled; who sleeps, and who is
    notified, is in [LocalWakeups.v]. *)

From stdpp Require Import relations.
From S2P Require Import Prelude Exceptions External Flags Instances Envelope World.

(** [enum class Execution] *)
Inductive Execution := Direct | Queue | ThreadPool.

#[export] Instance Execution_eq_dec : EqDecision Execution.
Proof. solve_decision. Defined.

(** ** Construction *)

(** The fields of [threadman::ThreadPoolOptions] that the constructor reads or
    writes. *)
Record ThreadPoolConfig := MkPoolConfig {
  min_workers : Z;
  max_workers : Z;
  max_queue_size : Z;
  name : string;
}.

(** The transport: its mode, the options of its pool (none in Direct mode) and
    the back-pressure bound. *)
Record LocalConfig := MkLocal {
  mode_ : Execution;
  pool_ : option ThreadPoolConfig;
  capacity_ : Z;
}.

(** The constructor; [default_name] is the name in [ThreadPoolOptions{}]. *)
Definition construct (default_name : string) (mode : Execution) (cfg : ThreadPoolConfig) : LocalConfig :=
  match mode with
  | Direct => MkLocal mode None 0
  | _ =>
      let name_is_default := String.eqb (name cfg) "" || String.eqb (name cfg) default_name in
      let cfg :=
        if decide (mode = Queue) then
          MkPoolConfig 1 1 (max_queue_size cfg)
            (if name_is_default then "conduit:local-queue" else name cfg)
        else if name_is_default then
          MkPoolConfig (min_workers cfg) (max_workers cfg) (max_queue_size cfg) "conduit:local"
        else cfg in
      let capacity := max_queue_size cfg in
      MkLocal mode (Some (MkPoolConfig (min_workers cfg) (max_workers cfg) 0 (name cfg))) capacity
  end.

(** The number of workers that [pool_] may run: the machine below is that of a transport
    [t] when it is run with [capacity_ t] and [pool_workers t]. *)
Definition pool_workers (t : LocalConfig) : nat :=
  match pool_ t with Some cfg => Z.to_nat (max_workers cfg) | None => 0 end.

(** The factories, with [ThreadPoolConfig{}] as [defaults]; [queued] bounds the queue
    of a single worker. *)
Definition thread_pool (defaults cfg : ThreadPoolConfig) : LocalConfig :=
  construct (name defaults) ThreadPool cfg.
Definition queued (defaults : ThreadPoolConfig) (queue_capacity : Z) : LocalConfig :=
  construct (name defaults) Queue
    (MkPoolConfig (min_workers defaults) (max_workers defaults) queue_capacity (name defaults)).

(** [scope()] and [mode()] *)
Definition local_scope (t : LocalConfig) : TransportScope := Local.
Definition local_mode (t : LocalConfig) : Execution := mode_ t.

Section machine.
Context `{Externals}.

(** The test at the head of [dispatch]: deliver on the calling thread. *)
Definition delivers_inline (t : LocalConfig) (c : EnvelopeCore) : bool :=
  bool_decide (mode_ t = Direct) || contains flags.Direct c || negb (bool_decide (is_Some (pool_ t))).

(** ** The state *)

(** Where a thread is: blocked in or inside [dispatch], or running a task. *)
Inductive pc :=
  | Waiting (v : EventEnvelope)      (* before the reservation *)
  | Reserved (v : EventEnvelope)     (* ++outstanding_ done, before pool_->execute *)
  | Rejected (v : EventEnvelope)     (* execute threw, before complete_one *)
  | Delivering (v : EventEnvelope)   (* in the worker, inside deliver_inbound *)
  | Delivered (v : EventEnvelope).   (* after it, before complete_one *)

Inductive tid := Producer (n : nat) | Worker (n : nat).

#[export] Instance tid_eq_dec : EqDecision tid.
Proof. solve_decision. Defined.

#[export] Instance tid_countable : Countable tid.
Proof.
  refine (inj_countable'
    (λ t, match t with Producer n => inl n | Worker n => inr n end)
    (λ s, match s with inl n => Producer n | inr n => Worker n end) _).
  by intros [].
Defined.

(** [outstanding_], the pool's queue and the threads (a stack each: a listener may
    dispatch from inside a delivery); and, for the statements, the history of the
    envelopes that the pool accepted, that were delivered, and that it refused. *)
Record LocalState := MkLocalState {
  outstanding_ : Z;
  queue : list EventEnvelope;
  threads : gmap tid (list pc);
  accepted : list EventEnvelope;
  delivered : list EventEnvelope;
  rejected : list EventEnvelope;
}.

Definition local_init : LocalState := MkLocalState 0 [] ∅ [] [] [].

Inductive action :=
  | ADispatch (t : tid) (v : EventEnvelope)
  | AReserve (t : tid)
  | ASubmit (t : tid) (accept : bool)
  | AStart (k i : nat)
  | ADeliver (t : tid)
  | AComplete (t : tid).

(** A thread continues with this stack, or ends. *)
Definition set_stack (t : tid) (stk : list pc) (m : gmap tid (list pc)) : gmap tid (list pc) :=
  match stk with
  | [] => delete t m
  | _ => <[t := stk]> m
  end.

Section config.
Context (capacity : Z) (workers : nat).

(** [capacity_ == 0], or the predicate that [space_cv_] waits for. *)
Definition has_space (s : LocalState) : bool :=
  (capacity =? 0)%Z || (outstanding_ s <? capacity)%Z.

Definition local_step (a : action) (s : LocalState) : option LocalState :=
  let 'MkLocalState out q th acc del rej := s in
  match a with
  | ADispatch t v =>
      match t, th !! t with
      | Producer _, None => Some (MkLocalState out q (<[t := [Waiting v]]> th) acc del rej)
      | Worker _, Some (Delivering u :: stk) =>
          Some (MkLocalState out q (<[t := Waiting v :: Delivering u :: stk]> th) acc del rej)
      | _, _ => None
      end
  | AReserve t =>
      match th !! t with
      | Some (Waiting v :: stk) =>
          if has_space s then
            Some (MkLocalState (u64_add out 1) q (<[t := Reserved v :: stk]> th) acc del rej)
          else None
      | _ => None
      end
  | ASubmit t accept =>
      match th !! t with
      | Some (Reserved v :: stk) =>
          if accept then
            Some (MkLocalState out (q ++ [v]) (set_stack t stk th) (acc ++ [v]) del rej)
          else Some (MkLocalState out q (<[t := Rejected v :: stk]> th) acc del rej)
      | _ => None
      end
  | AStart k i =>
      match th !! Worker k, q !! i with
      | None, Some v =>
          if decide (k < workers) then
            Some (MkLocalState out (delete i q) (<[Worker k := [Delivering v]]> th) acc del rej)
          else None
      | _, _ => None
      end
  | ADeliver t =>
      match th !! t with
      | Some (Delivering v :: stk) =>
          Some (MkLocalState out q (<[t := Delivered v :: stk]> th) acc (del ++ [v]) rej)
      | _ => None
      end
  | AComplete t =>
      match th !! t with
      | Some (Rejected v :: stk) =>
          Some (MkLocalState (u64_sub out 1) q (set_stack t stk th) acc del (rej ++ [v]))
      | Some (Delivered v :: stk) =>
          Some (MkLocalState (u64_sub out 1) q (set_stack t stk th) acc del rej)
      | _ => None
      end
  end.

(** Runs; and those in which the pool hands out its tasks in the order in which it
    accepted them. *)
Fixpoint run_actions (acts : list action) (s : LocalState) : option LocalState :=
  match acts with
  | [] => Some s
  | a :: acts => s' ← local_step a s; run_actions acts s'
  end.

Definition fifo (a : action) : Prop := match a with AStart _ i => i = 0 | _ => True end.

(** [flush] returns; [detach] is [flush]. *)
Definition flush_returns (s : LocalState) : bool := (outstanding_ s =? 0)%Z.
Definition detach_returns (s : LocalState) : bool := flush_returns s.
End config.

(** ** Accounting *)

(** The units that a stack of a thread holds: everything past the reservation. *)
Definition holds (p : pc) : list () := match p with Waiting _ => [] | _ => [()] end.
Definition stack_units (stk : list pc) : list () := stk ≫= holds.

(** The envelopes in the hands of a thread that the pool accepted and that are
    not delivered yet. *)
Definition carries (p : pc) : list EventEnvelope := match p with Delivering v => [v] | _ => [] end.
Definition stack_envelopes (stk : list pc) : list EventEnvelope := stk ≫= carries.

Definition in_flight (s : LocalState) : Z :=
  Z.of_nat (length (map_concat stack_units (threads s)) + length (queue s)).

Definition in_delivery (s : LocalState) : list EventEnvelope := map_concat stack_envelopes (threads s).

(** The invariant of all runs. *)
Record local_inv (capacity : Z) (s : LocalState) : Prop := {
  li_count : outstanding_ s = u64_wrap (in_flight s);
  li_bound : capacity ≠ 0%Z → (in_flight s ≤ capacity)%Z;
  li_history : accepted s ≡ₚ delivered s ++ in_delivery s ++ queue s;
}.

Lemma set_stack_units t old new m :
  m !! t = Some old →
  length (stack_units old) + length (map_concat stack_units (set_stack t new m)) =
  length (stack_units new) + length (map_concat stack_units m).
Proof.
  intros Ht. rewrite <- !length_app. apply Permutation_length.
  destruct new as [|p new]; [|by apply map_concat_update].
  simpl. by rewrite <- (map_concat_delete _ m t old).
Qed.

Lemma set_stack_envelopes t old new m :
  m !! t = Some old →
  stack_envelopes old ++ map_concat stack_envelopes (set_stack t new m) ≡ₚ
  stack_envelopes new ++ map_concat stack_envelopes m.
Proof.
  intros Ht. destruct new as [|p new]; [|by apply map_concat_update].
  simpl. by rewrite <- (map_concat_delete _ m t old).
Qed.

Lemma insert_set_stack t p stk m : <[t := p :: stk]> m = set_stack t (p :: stk) m.
Proof. done. Qed.

Lemma u64_add_wrap x y : u64_add (u64_wrap x) y = u64_wrap (x + y).
Proof. unfold u64_add, u64_wrap. by rewrite Zplus_mod_idemp_l. Qed.

Lemma u64_sub_wrap x y : u64_sub (u64_wrap x) y = u64_wrap (x - y).
Proof. unfold u64_sub, u64_wrap. by rewrite Zminus_mod_idemp_l. Qed.

Lemma in_flight_nonneg s : (0 ≤ in_flight s)%Z.
Proof. unfold in_flight. lia. Qed.

(** How each action changes the units in flight, and that it keeps the history. *)
Lemma local_step_units capacity workers a s s' :
  local_step capacity workers a s = Some s' →
  match a with
  | AReserve _ => in_flight s' = (in_flight s + 1)%Z ∧ outstanding_ s' = u64_add (outstanding_ s) 1 ∧
                  has_space capacity s = true
  | AComplete _ => in_flight s' = (in_flight s - 1)%Z ∧ outstanding_ s' = u64_sub (outstanding_ s) 1
  | _ => in_flight s' = in_flight s ∧ outstanding_ s' = outstanding_ s
  end.
Proof.
  destruct s as [out q th acc del rej]. unfold in_flight.
  destruct a as [t v|t|t [] |k i|t|t]; simpl; intros Hstep.
  - destruct t as [n|n], (th !! _) as [[|[] stk]|] eqn:Ht; simplify_eq; simpl; (split; [|done]).
    + pose proof (map_concat_insert stack_units th (Producer n) [Waiting v] Ht) as Hp.
      apply Permutation_length in Hp. simpl in Hp. lia.
    + pose proof (set_stack_units _ _ (Waiting v :: Delivering v0 :: stk) _ Ht) as Hp.
      simpl in Hp. lia.
  - destruct (th !! t) as [[|[] stk]|] eqn:Ht; try done. case_match; simplify_eq; simpl.
    pose proof (set_stack_units _ _ (Reserved v :: stk) _ Ht) as Hp. simpl in Hp.
    split_and!; [lia|done|done].
  - destruct (th !! t) as [[|[] stk]|] eqn:Ht; simplify_eq; simpl.
    pose proof (set_stack_units _ _ stk _ Ht) as Hp. simpl in Hp. rewrite length_app. simpl.
    split; [lia|done].
  - destruct (th !! t) as [[|[] stk]|] eqn:Ht; simplify_eq; simpl.
    pose proof (set_stack_units _ _ (Rejected v :: stk) _ Ht) as Hp. simpl in Hp. split; [lia|done].
  - destruct (th !! Worker k) eqn:Ht, (q !! i) as [v|] eqn:Hq; try done. case_match; simplify_eq; simpl.
    pose proof (map_concat_insert stack_units th (Worker k) [Delivering v] Ht) as Hp.
    apply Permutation_length in Hp. simpl in Hp.
    assert (length q = S (length (delete i q))) by by apply (Permutation_length (delete_Permutation _ _ _ Hq)).
    split; [lia|done].
  - destruct (th !! t) as [[|[] stk]|] eqn:Ht; simplify_eq; simpl.
    pose proof (set_stack_units _ _ (Delivered v :: stk) _ Ht) as Hp. simpl in Hp. split; [lia|done].
  - destruct (th !! t) as [[|[] stk]|] eqn:Ht; simplify_eq; simpl;
      pose proof (set_stack_units _ _ stk _ Ht) as Hp; simpl in Hp; split; lia || done.
Qed.

Lemma local_step_history capacity workers a s s' :
  local_step capacity workers a s = Some s' →
  accepted s ≡ₚ delivered s ++ in_delivery s ++ queue s →
  accepted s' ≡ₚ delivered s' ++ in_delivery s' ++ queue s'.
Proof.
  destruct s as [out q th acc del rej]. unfold in_delivery.
  destruct a as [t v|t|t [] |k i|t|t]; simpl; intros Hstep Hh.
  - destruct t as [n|n], (th !! _) as [[|[] stk]|] eqn:Ht; simplify_eq; simpl.
    + by rewrite (map_concat_insert stack_envelopes th (Producer n) [Waiting v] Ht).
    + pose proof (set_stack_envelopes _ _ (Waiting v :: Delivering v0 :: stk) _ Ht) as Hp.
      apply Permutation_app_inv_l in Hp. by rewrite Hp.
  - destruct (th !! t) as [[|[] stk]|] eqn:Ht; try done. case_match; simplify_eq; simpl.
    pose proof (set_stack_envelopes _ _ (Reserved v :: stk) _ Ht) as Hp.
    apply Permutation_app_inv_l in Hp. by rewrite Hp.
  - destruct (th !! t) as [[|[] stk]|] eqn:Ht; simplify_eq; simpl.
    pose proof (set_stack_envelopes _ _ stk _ Ht) as Hp.
    apply (Permutation_app_inv_l (stack_envelopes stk)) in Hp. rewrite Hp, Hh. solve_Permutation.
  - destruct (th !! t) as [[|[] stk]|] eqn:Ht; simplify_eq; simpl.
    pose proof (set_stack_envelopes _ _ (Rejected v :: stk) _ Ht) as Hp.
    apply Permutation_app_inv_l in Hp. by rewrite Hp.
  - destruct (th !! Worker k) eqn:Ht, (q !! i) as [v|] eqn:Hq; try done. case_match; simplify_eq; simpl.
    rewrite (map_concat_insert stack_envelopes th (Worker k) [Delivering v] Ht). simpl.
    rewrite Hh, (delete_Permutation q i v Hq) at 1. solve_Permutation.
  - destruct (th !! t) as [[|[] stk]|] eqn:Ht; simplify_eq; simpl.
    pose proof (set_stack_envelopes _ _ (Delivered v :: stk) _ Ht) as Hp.
    change (stack_envelopes (Delivering v :: stk)) with (v :: stack_envelopes stk) in Hp.
    change (stack_envelopes (Delivered v :: stk)) with (stack_envelopes stk) in Hp.
    assert (map_concat stack_envelopes th ≡ₚ
            v :: map_concat stack_envelopes (<[t:=Delivered v :: stk]> th)) as Hth.
    { apply (Permutation_app_inv_l (stack_envelopes stk)). rewrite <- Hp. simpl. solve_Permutation. }
    rewrite Hh, Hth. solve_Permutation.
  - destruct (th !! t) as [[|[] stk]|] eqn:Ht; simplify_eq; simpl;
      pose proof (set_stack_envelopes _ _ stk _ Ht) as Hp;
      apply (Permutation_app_inv_l (stack_envelopes stk)) in Hp; by rewrite Hp.
Qed.

Lemma local_inv_init capacity : is_u64 capacity → local_inv capacity local_init.
Proof.
  intros [Hc _]. assert (in_flight local_init = 0%Z) as H0.
  { unfold in_flight. simpl. by rewrite map_concat_empty. }
  split; [by rewrite H0|intros; lia|]. unfold in_delivery. simpl. by rewrite map_concat_empty.
Qed.

Lemma local_inv_step capacity workers a s s' :
  is_u64 capacity → local_inv capacity s → local_step capacity workers a s = Some s' →
  local_inv capacity s'.
Proof.
  intros Hc [Hn Hb Hh] Hstep.
  pose proof (local_step_units _ _ _ _ _ Hstep) as Hu.
  pose proof (local_step_history _ _ _ _ _ Hstep Hh) as Hh'.
  assert (outstanding_ s' = u64_wrap (in_flight s')) as Hn'.
  { destruct a as [t v|t|t b|k i|t|t]; destruct Hu as [Hu Ho]; try congruence.
    - destruct Ho as [-> _]. rewrite Hu, Hn. apply u64_add_wrap.
    - rewrite Ho, Hu, Hn. apply u64_sub_wrap. }
  split; [done| |done]. intros Hne. specialize (Hb Hne).
  destruct a as [t v|t|t b|k i|t|t]; destruct Hu as [Hu Ho]; try lia. destruct Ho as [_ Hs].
  (* a reservation is made below the bound, where the counter has not wrapped *)
  pose proof (in_flight_nonneg s). destruct Hc as [_ Hc].
  assert (outstanding_ s = in_flight s) as Hout by (rewrite Hn; apply u64_wrap_small; split; lia).
  unfold has_space in Hs. rewrite Hout in Hs.
  destruct (Z.eqb_spec capacity 0); [done|]. simpl in Hs.
  destruct (Z.ltb_spec (in_flight s) capacity); [lia|done].
Qed.

Definition local_reachable (capacity : Z) (workers : nat) (s : LocalState) : Prop :=
  ∃ acts, run_actions capacity workers acts local_init = Some s.

Lemma run_actions_app capacity workers acts1 acts2 s :
  run_actions capacity workers (acts1 ++ acts2) s =
  (run_actions capacity workers acts1 s ≫= run_actions capacity workers acts2).
Proof.
  revert s. induction acts1 as [|a acts IH]; intros s; simpl; [done|].
  destruct (local_step capacity workers a s) as [s1|]; simpl; [apply IH|done].
Qed.

(** Induction over runs. *)
Lemma run_actions_ind capacity workers (P : LocalState → Prop) (φ : action → Prop) acts s s' :
  (∀ a s s', φ a → P s → local_step capacity workers a s = Some s' → P s') →
  Forall φ acts → P s → run_actions capacity workers acts s = Some s' → P s'.
Proof.
  intros Hstep Hφ. revert s. induction Hφ as [|a acts Ha _ IH]; intros s HP; simpl.
  - by intros [= <-].
  - destruct (local_step capacity workers a s) as [s1|] eqn:Hs; simpl; [|done].
    apply IH. by eapply Hstep.
Qed.

Lemma local_inv_reachable capacity workers s :
  is_u64 capacity → local_reachable capacity workers s → local_inv capacity s.
Proof.
  intros Hc [acts Hrun].
  apply (run_actions_ind capacity workers (local_inv capacity) (λ _, True) acts local_init s).
  - intros a s1 s2 _ Hinv Hs. by eapply local_inv_step.
  - by apply Forall_true.
  - by apply local_inv_init.
  - done.
Qed.
End machine.
