(* ===== verification/LocalTransportProps.v ===== *)
(** * Properties of the in-process transport

    Safety of the state machine of [LocalTransport.v] over all interleavings:
    the back-pressure bound, no envelope lost or duplicated, order of a queue;
    and its liveness: what [flush] waits for happens, unless a listener dispatches
    into the full queue it is served by. *)

From S2P Require Import Prelude Exceptions External Flags Instances Envelope World Hosts LocalTransport.

Section shapes.
Context `{Externals}.

Definition dispatching (p : pc) : Prop :=
  match p with Waiting _ | Reserved _ | Rejected _ => True | _ => False end.

(** A producer is inside one dispatch; a worker runs one task, at the bottom of its
    stack, with the dispatches of its listener above. *)
Definition stack_shape (t : tid) (stk : list pc) : Prop :=
  match t with
  | Producer _ => ∃ p, stk = [p] ∧ dispatching p
  | Worker _ => ∃ pre p, stk = pre ++ [p] ∧ Forall dispatching pre ∧ ¬ dispatching p
  end.

Definition shapes (s : LocalState) : Prop :=
  ∀ t stk, threads s !! t = Some stk → stack_shape t stk.

Lemma shape_top_same t p q stk :
  dispatching p → dispatching q → stack_shape t (p :: stk) → stack_shape t (q :: stk).
Proof.
  intros Hp Hq. destruct t; simpl.
  - intros (r & [= -> ->] & _). by exists q.
  - intros (pre & r & Heq & Hpre & Hr). destruct pre as [|x pre]; [by simplify_eq/=|].
    simpl in Heq. simplify_eq. exists (q :: pre), r. split_and!; [done| |done].
    apply Forall_cons in Hpre as [_ ?]. by constructor.
Qed.

Lemma shape_pop t p stk :
  dispatching p → stack_shape t (p :: stk) → stk = [] ∨ stack_shape t stk.
Proof.
  intros Hp. destruct t; simpl.
  - intros (r & [= -> ->] & _). by left.
  - intros (pre & r & Heq & Hpre & Hr). destruct pre as [|x pre]; [by simplify_eq/=|].
    simpl in Heq. simplify_eq. right. exists pre, r. apply Forall_cons in Hpre as [_ ?]. done.
Qed.

Lemma shape_running t p stk :
  ¬ dispatching p → stack_shape t (p :: stk) → stk = [] ∧ ∃ k, t = Worker k.
Proof.
  intros Hp. destruct t as [n|k]; simpl.
  - intros (r & [= -> ->] & ?). done.
  - intros (pre & r & Heq & Hpre & Hr). split; [|by eexists].
    destruct pre as [|x pre]; [by simplify_eq/=|]. simpl in Heq. simplify_eq.
    apply Forall_cons in Hpre as [? _]. done.
Qed.

Lemma shape_delivering t v stk :
  stack_shape t (Delivering v :: stk) → stk = [] ∧ ∃ k, t = Worker k.
Proof. apply shape_running. by intros []. Qed.

Lemma shape_delivered t v stk :
  stack_shape t (Delivered v :: stk) → stk = [] ∧ ∃ k, t = Worker k.
Proof. apply shape_running. by intros []. Qed.

Lemma shapes_set t stk out q th acc del rej out' q' acc' del' rej' :
  shapes (MkLocalState out q th acc del rej) →
  stk = [] ∨ stack_shape t stk →
  shapes (MkLocalState out' q' (set_stack t stk th) acc' del' rej').
Proof.
  intros Hsh Hstk t' stk'. simpl. destruct stk as [|p stk]; simpl.
  - rewrite lookup_delete_Some. intros [_ Ht']. by apply Hsh.
  - rewrite lookup_insert_Some. intros [[<- <-]|[_ Ht']]; [by destruct Hstk|by apply Hsh].
Qed.

Lemma shapes_step capacity workers a s s' :
  shapes s → local_step capacity workers a s = Some s' → shapes s'.
Proof.
  intros Hsh. destruct s as [out q th acc del rej].
  assert (∀ t stk, th !! t = Some stk → stack_shape t stk) as Hlk by apply Hsh.
  destruct a as [t v|t|t b|k i|t|t]; simpl; intros Hstep.
  - destruct t as [n|n], (th !! _) as [[|[] stk]|] eqn:Ht; simplify_eq.
    + eapply (shapes_set (Producer n) [Waiting v]); [exact Hsh|]. right. by exists (Waiting v).
    + eapply (shapes_set (Worker n) (Waiting v :: Delivering v0 :: stk)); [exact Hsh|]. right.
      apply Hlk in Ht. destruct (shape_delivering _ _ _ Ht) as [-> _].
      exists [Waiting v], (Delivering v0).
      split_and!; [done|by repeat constructor|by intros []].
  - destruct (th !! t) as [[|[] stk]|] eqn:Ht; try done. case_match; simplify_eq.
    eapply (shapes_set t (Reserved v :: stk)); [exact Hsh|]. right. apply Hlk in Ht.
    by eapply (shape_top_same _ (Waiting v)).
  - destruct (th !! t) as [[|[] stk]|] eqn:Ht; try done. apply Hlk in Ht.
    destruct b; simplify_eq; [eapply shapes_set; [exact Hsh|]; by eapply (shape_pop _ (Reserved v))|].
    eapply (shapes_set t (Rejected v :: stk)); [exact Hsh|]. right.
    by eapply (shape_top_same _ (Reserved v)).
  - destruct (th !! Worker k) eqn:Ht, (q !! i) as [v|] eqn:Hq; try done. case_match; simplify_eq.
    eapply (shapes_set (Worker k) [Delivering v]); [exact Hsh|]. right. exists [], (Delivering v).
    split_and!; [done|constructor|by intros []].
  - destruct (th !! t) as [[|[] stk]|] eqn:Ht; simplify_eq. apply Hlk in Ht.
    destruct (shape_delivering _ _ _ Ht) as [-> [k ->]].
    eapply (shapes_set (Worker k) [Delivered v]); [exact Hsh|]. right. exists [], (Delivered v).
    split_and!; [done|constructor|by intros []].
  - destruct (th !! t) as [[|[] stk]|] eqn:Ht; simplify_eq; apply Hlk in Ht;
      (eapply shapes_set; [exact Hsh|]); [by eapply (shape_pop _ (Rejected v))|].
    left. by destruct (shape_delivered _ _ _ Ht) as [-> _].
Qed.

Lemma shapes_reachable capacity workers s : local_reachable capacity workers s → shapes s.
Proof.
  intros [acts Hrun]. apply (run_actions_ind capacity workers shapes (λ _, True) acts local_init s).
  - intros a s1 s2 _. apply shapes_step.
  - by apply Forall_true.
  - intros t stk Ht. simpl in Ht. by rewrite lookup_empty in Ht.
  - done.
Qed.

(** ** Order of a single worker *)

(** What worker 0 has accepted and not delivered. *)
Definition hand (th : gmap tid (list pc)) : list EventEnvelope :=
  stack_envelopes (default [] (th !! Worker 0)).

Record fifo_inv (s : LocalState) : Prop := {
  fi_shapes : shapes s;
  fi_single k stk : threads s !! Worker k = Some stk → k = 0;
  fi_order : accepted s = delivered s ++ hand (threads s) ++ queue s;
}.

Lemma hand_set t stk th :
  hand (set_stack t stk th) = if decide (t = Worker 0) then stack_envelopes stk else hand th.
Proof.
  unfold hand. destruct stk as [|p stk]; simpl.
  - rewrite lookup_delete. by case_decide.
  - rewrite lookup_insert. by case_decide.
Qed.

Lemma hand_same t old new th :
  th !! t = Some old → stack_envelopes old = stack_envelopes new → hand (set_stack t new th) = hand th.
Proof.
  intros Ht Heq. rewrite hand_set. case_decide as Hd; [|done]. subst t.
  unfold hand. by rewrite Ht.
Qed.

Lemma single_set t stk th :
  (∀ k stk, th !! Worker k = Some stk → k = 0) → (∀ k, t = Worker k → k = 0) →
  ∀ k stk', set_stack t stk th !! Worker k = Some stk' → k = 0.
Proof.
  intros Hth Ht k stk'. destruct stk as [|p stk]; simpl.
  - rewrite lookup_delete_Some. intros [_ ?]. by eapply Hth.
  - rewrite lookup_insert_Some. intros [[? _]|[_ ?]]; [by apply Ht|by eapply Hth].
Qed.

Lemma fifo_inv_step capacity a s s' :
  fifo a → fifo_inv s → local_step capacity 1 a s = Some s' → fifo_inv s'.
Proof.
  intros Ha [Hsh H1 Ho] Hstep. split; [by eapply shapes_step| |].
  all: destruct s as [out q th acc del rej]; simpl in H1, Ho.
  all: assert (∀ t stk, th !! t = Some stk → ∀ k, t = Worker k → k = 0) as Hold
    by (intros t stk Ht k ->; by eapply H1).
  all: destruct a as [t v|t|t b|k i|t|t]; simpl in Hstep.
  - destruct t as [n|n], (th !! _) as [[|[] stk]|] eqn:Ht; simplify_eq; simpl.
    + by apply (single_set (Producer n) [Waiting v]).
    + apply (single_set (Worker n) (Waiting v :: Delivering v0 :: stk)); [done|by eapply Hold].
  - destruct (th !! t) as [[|[] stk]|] eqn:Ht; try done. case_match; simplify_eq; simpl.
    apply (single_set t (Reserved v :: stk)); [done|by eapply Hold].
  - destruct (th !! t) as [[|[] stk]|] eqn:Ht; try done. destruct b; simplify_eq; simpl.
    + apply single_set; [done|by eapply Hold].
    + apply (single_set t (Rejected v :: stk)); [done|by eapply Hold].
  - destruct (th !! Worker k) eqn:Ht, (q !! i) as [v|] eqn:Hq; try done. case_match; simplify_eq; simpl.
    apply (single_set (Worker k) [Delivering v]); [done|]. intros ? [= <-]. lia.
  - destruct (th !! t) as [[|[] stk]|] eqn:Ht; simplify_eq; simpl.
    apply (single_set t (Delivered v :: stk)); [done|by eapply Hold].
  - destruct (th !! t) as [[|[] stk]|] eqn:Ht; simplify_eq; simpl;
      (apply single_set; [done|by eapply Hold]).
  - destruct t as [n|n], (th !! _) as [[|[] stk]|] eqn:Ht; simplify_eq; simpl.
    + f_equal. f_equal. symmetry. apply (hand_set (Producer n) [Waiting v]).
    + do 2 f_equal. symmetry. by apply (hand_same (Worker n) _ (Waiting v :: Delivering v0 :: stk) _ Ht).
  - destruct (th !! t) as [[|[] stk]|] eqn:Ht; try done. case_match; simplify_eq; simpl.
    do 2 f_equal. symmetry. by apply (hand_same t _ (Reserved v :: stk) _ Ht).
  - destruct (th !! t) as [[|[] stk]|] eqn:Ht; try done. destruct b; simplify_eq; simpl.
    + rewrite (hand_same t _ stk _ Ht) by done. by rewrite <- !app_assoc.
    + do 2 f_equal. symmetry. by apply (hand_same t _ (Rejected v :: stk) _ Ht).
  - destruct (th !! Worker k) eqn:Ht, (q !! i) as [v|] eqn:Hq; try done. case_match; simplify_eq; simpl.
    simpl in Ha. subst i. destruct q as [|x q]; simplify_eq/=.
    assert (k = 0) as -> by lia.
    pose proof (hand_set (Worker 0) [Delivering v] th) as Hs. simpl in Hs. rewrite Hs.
    unfold hand. by rewrite Ht.
  - destruct (th !! t) as [[|[] stk]|] eqn:Ht; simplify_eq; simpl.
    destruct (shape_delivering t v stk) as [-> [k ->]]; [by apply Hsh|].
    assert (k = 0) as -> by by eapply H1.
    pose proof (hand_set (Worker 0) [Delivered v] th) as Hs. simpl in Hs. rewrite Hs.
    unfold hand. rewrite Ht. simpl. by rewrite <- app_assoc.
  - destruct (th !! t) as [[|[] stk]|] eqn:Ht; simplify_eq; simpl; do 2 f_equal;
      symmetry; by apply (hand_same t _ stk _ Ht).
Qed.

(** *** A single producer *)

(** The envelopes that were dispatched, in order. *)
Definition dispatched (acts : list action) : list EventEnvelope :=
  omap (λ a, match a with ADispatch _ v => Some v | _ => None end) acts.

(** Only producer [n] dispatches, and the pool refuses nothing. *)
Definition only_producer (n : nat) (a : action) : Prop :=
  match a with ADispatch t _ => t = Producer n | ASubmit _ accept => accept = true | _ => True end.

(** What the producer holds that the pool has not got yet. *)
Definition pending (n : nat) (th : gmap tid (list pc)) : list EventEnvelope :=
  match th !! Producer n with Some (Waiting v :: _) | Some (Reserved v :: _) => [v] | _ => [] end.

Record single_inv (n : nat) (disp : list EventEnvelope) (s : LocalState) : Prop := {
  si_shapes : shapes s;
  si_worker k stk : threads s !! Worker k = Some stk → ∃ p, stk = [p] ∧ ¬ dispatching p;
  si_producer m stk : threads s !! Producer m = Some stk → m = n;
  si_order : accepted s ++ pending n (threads s) = disp;
}.

Lemma set_stack_some t t' stk stk' th :
  set_stack t stk th !! t' = Some stk' → (t' = t ∧ stk' = stk) ∨ th !! t' = Some stk'.
Proof.
  destruct stk as [|p stk]; simpl.
  - rewrite lookup_delete_Some. naive_solver.
  - rewrite lookup_insert_Some. naive_solver.
Qed.

Lemma pending_set n t stk th :
  pending n (set_stack t stk th) =
  if decide (t = Producer n) then match stk with Waiting v :: _ | Reserved v :: _ => [v] | _ => [] end
  else pending n th.
Proof.
  unfold pending. destruct stk as [|p stk]; simpl.
  - rewrite lookup_delete. by case_decide.
  - rewrite lookup_insert. by case_decide.
Qed.

Ltac pending_after n t stk th :=
  let H := fresh in pose proof (pending_set n t stk th) as H; simpl in H; rewrite H; clear H.

(** A step of producer [n], or of a worker, keeps the stacks in shape. *)
Lemma single_threads n t stk th :
  (∀ k stk, th !! Worker k = Some stk → ∃ p, stk = [p] ∧ ¬ dispatching p) →
  (∀ m stk, th !! Producer m = Some stk → m = n) →
  match t with Producer m => m = n | Worker _ => stk = [] ∨ ∃ p, stk = [p] ∧ ¬ dispatching p end →
  (∀ k stk', set_stack t stk th !! Worker k = Some stk' → ∃ p, stk' = [p] ∧ ¬ dispatching p) ∧
  (∀ m stk', set_stack t stk th !! Producer m = Some stk' → m = n).
Proof.
  intros Hw Hp Ht. split.
  - intros k stk' Hk. destruct (set_stack_some _ _ _ _ _ Hk) as [[<- ->]|?]; [|by eapply Hw].
    destruct Ht as [->|?]; [|done]. simpl in Hk. by rewrite lookup_delete_eq in Hk.
  - intros m stk' Hm. destruct (set_stack_some _ _ _ _ _ Hm) as [[<- ->]|?]; [done|by eapply Hp].
Qed.

Lemma single_inv_step capacity workers n disp a s s' :
  only_producer n a → single_inv n disp s → local_step capacity workers a s = Some s' →
  single_inv n (disp ++ dispatched [a]) s'.
Proof.
  intros Ha [Hsh Hw Hp Ho] Hstep. pose proof (shapes_step _ _ _ _ _ Hsh Hstep) as Hsh'.
  destruct s as [out q th acc del rej]. simpl in Hw, Hp, Ho.
  assert (∀ m p stk, th !! Producer m = Some (p :: stk) → m = n ∧ stk = []) as Hprod.
  { intros m p stk Ht. split; [by eapply Hp|]. by destruct (Hsh _ _ Ht) as (? & [= _ ->] & _). }
  assert (∀ k p stk, th !! Worker k = Some (p :: stk) → stk = [] ∧ ¬ dispatching p) as Hwork.
  { intros k p stk Ht. destruct (Hw _ _ Ht) as (? & [= -> ->] & ?). done. }
  destruct a as [t v|t|t b|k i|t|t]; simpl in Hstep, Ha.
  - subst t. destruct (th !! Producer n) eqn:Ht; simplify_eq.
    destruct (single_threads n (Producer n) [Waiting v] th) as [Hw' Hp']; [done..|].
    split; [done..|]. simpl in *. pending_after n (Producer n) [Waiting v] th. rewrite decide_True by done.
    unfold pending. rewrite Ht. simpl. by rewrite app_nil_r.
  - destruct (th !! t) as [[|[] stk]|] eqn:Ht; try done. case_match; simplify_eq. simpl. rewrite app_nil_r.
    destruct t as [m|k]; [|by destruct (Hwork _ _ _ Ht) as [_ []]]. destruct (Hprod _ _ _ Ht) as [-> ->].
    destruct (single_threads n (Producer n) [Reserved v] th) as [Hw' Hp']; [done..|].
    split; [done..|]. simpl in *. pending_after n (Producer n) [Reserved v] th. rewrite decide_True by done.
    unfold pending. by rewrite Ht.
  - subst b. destruct (th !! t) as [[|[] stk]|] eqn:Ht; simplify_eq. simpl. rewrite app_nil_r.
    destruct t as [m|k]; [|by destruct (Hwork _ _ _ Ht) as [_ []]]. destruct (Hprod _ _ _ Ht) as [-> ->].
    destruct (single_threads n (Producer n) [] th) as [Hw' Hp']; [done..|].
    split; [done..|]. simpl in *. pending_after n (Producer n) (@nil pc) th. rewrite decide_True by done.
    unfold pending. rewrite Ht. simpl. by rewrite app_nil_r.
  - destruct (th !! Worker k) eqn:Ht, (q !! i) as [v|] eqn:Hq; try done. case_match; simplify_eq. simpl. rewrite app_nil_r.
    destruct (single_threads n (Worker k) [Delivering v] th) as [Hw' Hp']; [done..|right; by exists (Delivering v); split; [|intros []]|].
    split; [done..|]. simpl. by pending_after n (Worker k) [Delivering v] th.
  - destruct (th !! t) as [[|[] stk]|] eqn:Ht; simplify_eq. simpl. rewrite app_nil_r.
    destruct (shape_delivering t v stk) as [-> [k ->]]; [by apply Hsh|].
    destruct (single_threads n (Worker k) [Delivered v] th) as [Hw' Hp']; [done..|right; by exists (Delivered v); split; [|intros []]|].
    split; [done..|]. simpl. by pending_after n (Worker k) [Delivered v] th.
  - destruct (th !! t) as [[|p stk]|] eqn:Ht; try done.
    assert (stk = [] ∧ match p with Waiting _ | Reserved _ => False | _ => True end) as [-> Hpp].
    { destruct t as [m|k]; [split; [by apply Hprod in Ht as [_ ->]|by destruct p]|].
      apply Hwork in Ht as [-> Hd]. split; [done|]. by destruct p. }
    assert (pending n (delete t th) = pending n th) as Hpend.
    { pending_after n t (@nil pc) th. case_decide; [|done]. subst t. unfold pending. rewrite Ht. by destruct p. }
    destruct (single_threads n t [] th) as [Hw' Hp']; [done..|destruct t; [by apply Hprod in Ht as [-> _]|by left]|].
    destruct p; simplify_eq; simpl; rewrite app_nil_r; (split; [done..|]); simpl; by rewrite Hpend.
Qed.

Lemma single_inv_run capacity workers n acts disp s s' :
  Forall (only_producer n) acts → single_inv n disp s → run_actions capacity workers acts s = Some s' →
  single_inv n (disp ++ dispatched acts) s'.
Proof.
  intros Hacts. revert disp s. induction Hacts as [|a acts Ha _ IH]; intros disp s Hinv; simpl.
  - intros [= <-]. by rewrite app_nil_r.
  - destruct (local_step capacity workers a s) as [s1|] eqn:Hs; simpl; [|done]. intros Hrun.
    pose proof (IH _ s1 (single_inv_step _ _ _ _ _ _ _ Ha Hinv Hs) Hrun) as Hs'.
    unfold dispatched in *. rewrite <- app_assoc in Hs'. simpl in *. by destruct a.
Qed.

Lemma single_inv_init n : single_inv n [] local_init.
Proof.
  split; simpl; try done; intros ? ?; rewrite lookup_empty; try done.
Qed.

(** ** Progress *)

(** How many more actions a thread or a queued task can take. *)
Definition pc_rank (p : pc) : nat :=
  match p with
  | Waiting _ => 6 | Reserved _ => 5 | Rejected _ => 1 | Delivering _ => 2 | Delivered _ => 1
  end.
Definition stack_rank (stk : list pc) : list () := stk ≫= λ p, replicate (pc_rank p) ().
Definition local_measure (s : LocalState) : nat :=
  length (map_concat stack_rank (threads s)) + 3 * length (queue s).

Definition is_dispatch (a : action) : bool := match a with ADispatch _ _ => true | _ => false end.

Lemma set_stack_rank t old new m :
  m !! t = Some old →
  length (stack_rank old) + length (map_concat stack_rank (set_stack t new m)) =
  length (stack_rank new) + length (map_concat stack_rank m).
Proof.
  intros Ht. rewrite <- !length_app. apply Permutation_length.
  destruct new as [|p new]; [|by apply map_concat_update].
  simpl. by rewrite <- (map_concat_delete _ m t old).
Qed.

Lemma local_measure_step capacity workers a s s' :
  is_dispatch a = false → local_step capacity workers a s = Some s' →
  local_measure s' < local_measure s.
Proof.
  intros Ha. destruct s as [out q th acc del rej]. unfold local_measure.
  destruct a as [t v|t|t [] |k i|t|t]; simpl; intros Hstep; [done|..].
  - destruct (th !! t) as [[|[] stk]|] eqn:Ht; try done. case_match; simplify_eq; simpl.
    pose proof (set_stack_rank _ _ (Reserved v :: stk) _ Ht) as Hp. simpl in Hp. lia.
  - destruct (th !! t) as [[|[] stk]|] eqn:Ht; simplify_eq; simpl.
    pose proof (set_stack_rank _ _ stk _ Ht) as Hp. simpl in Hp. rewrite length_app. simpl. lia.
  - destruct (th !! t) as [[|[] stk]|] eqn:Ht; simplify_eq; simpl.
    pose proof (set_stack_rank _ _ (Rejected v :: stk) _ Ht) as Hp. simpl in Hp. lia.
  - destruct (th !! Worker k) eqn:Ht, (q !! i) as [v|] eqn:Hq; try done. case_match; simplify_eq; simpl.
    pose proof (map_concat_insert stack_rank th (Worker k) [Delivering v] Ht) as Hp.
    apply Permutation_length in Hp. simpl in Hp.
    assert (length q = S (length (delete i q))) by
      by apply (Permutation_length (delete_Permutation _ _ _ Hq)).
    lia.
  - destruct (th !! t) as [[|[] stk]|] eqn:Ht; simplify_eq; simpl.
    pose proof (set_stack_rank _ _ (Delivered v :: stk) _ Ht) as Hp. simpl in Hp. lia.
  - destruct (th !! t) as [[|[] stk]|] eqn:Ht; simplify_eq; simpl;
      pose proof (set_stack_rank _ _ stk _ Ht) as Hp; simpl in Hp; lia.
Qed.

(** No listener is inside a dispatch of its own. *)
Definition no_nested (s : LocalState) : Prop :=
  ∀ k stk, threads s !! Worker k = Some stk → length stk = 1.

(** Nothing but a new dispatch can happen. *)
Definition quiescent (capacity : Z) (workers : nat) (s : LocalState) : Prop :=
  ∀ a, is_dispatch a = false → local_step capacity workers a s = None.

Lemma quiescent_stack capacity workers s t stk :
  shapes s → no_nested s → quiescent capacity workers s →
  threads s !! t = Some stk → ∃ v, stk = [Waiting v] ∧ has_space capacity s = false.
Proof.
  intros Hsh Hnn Hq Ht. destruct s as [out q th acc del rej]. simpl in *.
  assert (∃ p, stk = [p]) as [p ->].
  { destruct t as [n|k].
    - destruct (Hsh (Producer n) stk Ht) as (p & -> & _). by exists p.
    - apply Hnn in Ht. destruct stk as [|p [|]]; simplify_eq/=. by exists p. }
  destruct p as [v|v|v|v|v].
  - specialize (Hq (AReserve t) eq_refl). simpl in Hq. rewrite Ht in Hq. exists v. split; [done|].
    by case_match.
  - specialize (Hq (ASubmit t true) eq_refl). simpl in Hq. by rewrite Ht in Hq.
  - specialize (Hq (AComplete t) eq_refl). simpl in Hq. by rewrite Ht in Hq.
  - specialize (Hq (ADeliver t) eq_refl). simpl in Hq. by rewrite Ht in Hq.
  - specialize (Hq (AComplete t) eq_refl). simpl in Hq. by rewrite Ht in Hq.
Qed.

Lemma map_concat_nil {A B} (f : A → list B) (m : gmap tid A) :
  (∀ t x, m !! t = Some x → f x = []) → map_concat f m = [].
Proof.
  intros Hf. induction m as [|t x m Ht IH] using map_ind; [apply map_concat_empty|].
  apply Permutation_nil_r. rewrite map_concat_insert by done.
  rewrite (Hf t x) by by rewrite lookup_insert_eq. rewrite IH; [done|].
  intros t' y Hy. apply (Hf t'). rewrite lookup_insert_ne; [done|]. by intros ->; congruence.
Qed.
End shapes.

Section more_lemmas.
Context `{Externals}.

Lemma no_nested_step capacity workers a s s' :
  shapes s → is_dispatch a = false → no_nested s → local_step capacity workers a s = Some s' →
  no_nested s'.
Proof.
  intros Hsh Ha Hnn. destruct s as [out q th acc del rej]. simpl in *.
  assert (∀ t stk k stk', (∀ k, t = Worker k → length stk ≤ 1) →
    set_stack t stk th !! Worker k = Some stk' → length stk' = 1) as Hset.
  { intros t stk k stk' Hlen. destruct stk as [|p stk]; simpl.
    - rewrite lookup_delete_Some. intros [_ Hk]. by eapply Hnn.
    - rewrite lookup_insert_Some. intros [[Heq <-]|[_ Hk]]; [|by eapply Hnn].
      specialize (Hlen k Heq). simpl in *. lia. }
  assert (∀ t p stk, th !! t = Some (p :: stk) → ∀ k, t = Worker k → stk = []) as Hnil.
  { intros t p stk Ht k ->. apply Hnn in Ht. destruct stk; simplify_eq/=; done. }
  destruct a as [t v|t|t b|k i|t|t]; simpl; intros Hstep; [done|..]; intros j stk' Hj.
  - destruct (th !! t) as [[|[] stk]|] eqn:Ht; try done. case_match; simplify_eq; simpl in Hj.
    eapply (Hset t (Reserved v :: stk)); [|done]. intros k0 Hk0. by rewrite (Hnil _ _ _ Ht k0 Hk0).
  - destruct (th !! t) as [[|[] stk]|] eqn:Ht; try done. destruct b; simplify_eq; simpl in Hj.
    + eapply (Hset t stk); [|done]. intros k0 Hk0. rewrite (Hnil _ _ _ Ht k0 Hk0). simpl. lia.
    + eapply (Hset t (Rejected v :: stk)); [|done]. intros k0 Hk0. by rewrite (Hnil _ _ _ Ht k0 Hk0).
  - destruct (th !! Worker k) eqn:Ht, (q !! i) as [v|] eqn:Hq; try done. case_match; simplify_eq; simpl in Hj.
    by eapply (Hset (Worker k) [Delivering v]).
  - destruct (th !! t) as [[|[] stk]|] eqn:Ht; simplify_eq; simpl in Hj.
    eapply (Hset t (Delivered v :: stk)); [|done]. intros k0 Hk0. by rewrite (Hnil _ _ _ Ht k0 Hk0).
  - destruct (th !! t) as [[|[] stk]|] eqn:Ht; simplify_eq; simpl in Hj;
      (eapply (Hset t stk); [|done]); intros k0 Hk0; rewrite (Hnil _ _ _ Ht k0 Hk0); simpl; lia.
Qed.

Lemma stack_envelopes_units stk : length (stack_envelopes stk) ≤ length (stack_units stk).
Proof.
  unfold stack_envelopes, stack_units. induction stk as [|p stk IH]; [done|].
  rewrite !bind_cons, !length_app. destruct p; simpl in *; lia.
Qed.

Lemma in_delivery_units (th : gmap tid (list pc)) :
  length (map_concat stack_envelopes th) ≤ length (map_concat stack_units th).
Proof.
  induction th as [|t stk th Ht IH] using map_ind; [by rewrite !map_concat_empty|].
  rewrite !map_concat_insert, !length_app by done. pose proof (stack_envelopes_units stk). lia.
Qed.

(** With nothing in flight everything accepted has been delivered. *)
Lemma drained_history capacity s :
  local_inv capacity s → in_flight s = 0%Z → delivered s ≡ₚ accepted s.
Proof.
  intros [_ _ Hh] H0. unfold in_flight in H0.
  pose proof (in_delivery_units (threads s)) as Hle.
  assert (in_delivery s = []) as Hd by (apply length_zero_iff_nil; unfold in_delivery; lia).
  assert (queue s = []) as Hq by (apply length_zero_iff_nil; lia).
  rewrite Hh, Hd, Hq. by rewrite app_nil_r.
Qed.

Lemma quiescent_drained capacity workers s :
  is_u64 capacity → 0 < workers → local_inv capacity s → shapes s → no_nested s →
  quiescent capacity workers s → in_flight s = 0%Z ∧ outstanding_ s = 0%Z ∧ threads s = ∅.
Proof.
  intros Hc Hw Hinv Hsh Hnn Hq.
  assert (∀ t stk, threads s !! t = Some stk → ∃ v, stk = [Waiting v] ∧ has_space capacity s = false)
    as Hstk by (intros t stk; by eapply quiescent_stack).
  assert (map_concat stack_units (threads s) = []) as Hunits.
  { apply map_concat_nil. intros t stk Ht. by destruct (Hstk t stk Ht) as (v & -> & _). }
  assert (queue s = []) as Hqueue.
  { destruct (threads s !! Worker 0) as [stk|] eqn:H0.
    - destruct (Hstk _ _ H0) as (v & -> & _). exfalso.
      destruct (Hsh _ _ H0) as (pre & p & Heq & _ & Hp).
      destruct pre as [|? [|]]; simplify_eq/=; by apply Hp.
    - specialize (Hq (AStart 0 0) eq_refl). destruct s as [out q th acc del rej]. simpl in *.
      rewrite H0 in Hq. destruct q as [|v q]; [done|]. simpl in Hq. by rewrite decide_True in Hq. }
  assert (in_flight s = 0%Z) as Hfl by (unfold in_flight; by rewrite Hunits, Hqueue).
  assert (outstanding_ s = 0%Z) as Hout by (by rewrite (li_count _ _ Hinv), Hfl).
  split_and!; [done|done|]. apply map_empty. intros t. apply eq_None_not_Some. intros [stk Ht].
  destruct (Hstk t stk Ht) as (v & _ & Hsp). unfold has_space in Hsp. rewrite Hout in Hsp.
  destruct Hc. destruct (Z.eqb_spec capacity 0), (Z.ltb_spec 0 capacity); simpl in Hsp; lia || done.
Qed.

(** The state of the self-deadlock: the only worker waits, inside the delivery of
    the only unit, for that unit to complete. *)
Record stuck_state (v1 v2 : EventEnvelope) (s : LocalState) : Prop := {
  ss_out : outstanding_ s = 1%Z;
  ss_queue : queue s = [];
  ss_worker : threads s !! Worker 0 = Some [Waiting v2; Delivering v1];
  ss_others t stk : t ≠ Worker 0 → threads s !! t = Some stk → ∃ u, stk = [Waiting u];
  ss_delivered : delivered s = [];
}.

Lemma stuck_step v1 v2 a s s' :
  stuck_state v1 v2 s → local_step 1 1 a s = Some s' → stuck_state v1 v2 s'.
Proof.
  intros [Ho Hq Hw Hoth Hd]. destruct s as [out q th acc del rej]. simpl in *. subst.
  assert (∀ t p stk, th !! t = Some (p :: stk) → ∃ u, p = Waiting u) as Htop.
  { intros t p stk Ht. destruct (decide (t = Worker 0)) as [->|Hne].
    - rewrite Hw in Ht. simplify_eq. by eexists.
    - destruct (Hoth t _ Hne Ht) as [u Hu]. simplify_eq. by exists u. }
  destruct a as [t v|t|t b|k i|t|t]; simpl; intros Hstep.
  - destruct t as [n|n].
    + destruct (th !! Producer n) as [|] eqn:Ht; simplify_eq. split; simpl; [done|done|by rewrite lookup_insert_ne| |done].
      intros t stk Hne. rewrite lookup_insert_Some. intros [[<- <-]|[_ Ht']]; [by eexists|by eapply Hoth].
    + destruct (th !! Worker n) as [[|p stk]|] eqn:Ht; try done.
      by destruct (Htop _ _ _ Ht) as [u ->].
  - destruct (th !! t) as [[|[] stk]|] eqn:Ht; try done.
  - destruct (th !! t) as [[|p stk]|] eqn:Ht; try done. by destruct (Htop _ _ _ Ht) as [u ->].
  - destruct (th !! Worker k); by rewrite ?lookup_nil in Hstep.
  - destruct (th !! t) as [[|p stk]|] eqn:Ht; try done. by destruct (Htop _ _ _ Ht) as [u ->].
  - destruct (th !! t) as [[|p stk]|] eqn:Ht; try done. by destruct (Htop _ _ _ Ht) as [u ->].
Qed.
End more_lemmas.

(** ** Theorems *)

Section theorems.
Context `{Externals}.

(** C17: back-pressure.  With a bound, at most that many envelopes are ever reserved,
    queued or being delivered, in every interleaving of producers and workers,
    and [outstanding_] counts them exactly. *)
Theorem local_backpressure capacity workers s :
  is_u64 capacity → capacity ≠ 0%Z → local_reachable capacity workers s →
  (in_flight s ≤ capacity)%Z ∧ outstanding_ s = in_flight s.
Proof.
  intros Hc Hne Hr. destruct (local_inv_reachable capacity workers s Hc Hr) as [Hn Hb _].
  specialize (Hb Hne). split; [done|]. rewrite Hn. apply u64_wrap_small.
  pose proof (in_flight_nonneg s). destruct Hc. split; lia.
Qed.

(** C16: no envelope that the pool accepted is lost or delivered twice: at every
    moment each is delivered, in delivery or queued, exactly once; so when
    [flush] returns all of them have been delivered. *)
Theorem local_no_loss capacity workers s :
  is_u64 capacity → local_reachable capacity workers s →
  accepted s ≡ₚ delivered s ++ in_delivery s ++ queue s ∧
  (is_u64 (in_flight s) → flush_returns s = true → delivered s ≡ₚ accepted s).
Proof.
  intros Hc Hr. pose proof (local_inv_reachable capacity workers s Hc Hr) as Hinv.
  split; [apply Hinv|]. intros Hfl Hf. eapply drained_history; [done|].
  unfold flush_returns in Hf. apply Z.eqb_eq in Hf.
  by rewrite (li_count _ _ Hinv), u64_wrap_small in Hf.
Qed.

(** C19: a queue keeps the order.  The constructor in Queue mode pins the pool to one
    worker, whatever counts it is given; so, as the pool hands out its tasks in
    the order in which it accepted them, envelopes are delivered in that order, all of
    them by the time [flush] returns; and when a single thread dispatches and the pool
    refuses nothing, that is the order of its dispatches. *)
Theorem local_queue_fifo default_name cfg acts s :
  let t := construct default_name Queue cfg in
  is_u64 (capacity_ t) → Forall fifo acts →
  run_actions (capacity_ t) (pool_workers t) acts local_init = Some s →
  delivered s `prefix_of` accepted s ∧
  (is_u64 (in_flight s) → flush_returns s = true → delivered s = accepted s) ∧
  (∀ n, Forall (only_producer n) acts → delivered s `prefix_of` dispatched acts).
Proof.
  intros t Hc Hf Hrun. assert (fifo_inv s) as [_ _ Ho].
  { apply (run_actions_ind (capacity_ t) 1 fifo_inv fifo acts local_init s); [|done| |done].
    - intros a s1 s2. apply fifo_inv_step.
    - split; simpl; [|intros k stk Hk; by rewrite lookup_empty in Hk|done].
      intros t' stk Ht. simpl in Ht. by rewrite lookup_empty in Ht. }
  assert (local_inv (capacity_ t) s) as Hinv by (eapply local_inv_reachable; [done|by exists acts]).
  split_and!; [by exists (hand (threads s) ++ queue s); rewrite Ho|..].
  - intros Hu Hfl. apply (prefix_length_eq (delivered s)); [by exists (hand (threads s) ++ queue s); rewrite Ho|].
    rewrite (drained_history _ _ Hinv); [done|]. unfold flush_returns in Hfl. apply Z.eqb_eq in Hfl.
    by rewrite (li_count _ _ Hinv), u64_wrap_small in Hfl.
  - intros n Hn. destruct (single_inv_run _ _ n acts [] _ s Hn (single_inv_init n) Hrun) as [_ _ _ Hd].
    simpl in Hd. rewrite <- Hd, Ho, <- !app_assoc. by apply prefix_app_r.
Qed.

(** Draining terminates: once no new dispatch is begun, whatever the threads do
    they take a bounded number of steps, and, unless a listener is blocked in a
    dispatch of its own, they only stop when no envelope is in flight, no
    producer is blocked, [flush] can return and everything accepted has been
    delivered. *)
Theorem local_flush_terminates capacity workers s acts s' :
  is_u64 capacity → 0 < workers → local_reachable capacity workers s → no_nested s →
  Forall (λ a, is_dispatch a = false) acts → run_actions capacity workers acts s = Some s' →
  length acts + local_measure s' ≤ local_measure s ∧
  (quiescent capacity workers s' →
   flush_returns s' = true ∧ threads s' = ∅ ∧ delivered s' ≡ₚ accepted s').
Proof.
  intros Hc Hw Hr Hnn Hacts Hrun.
  assert (local_reachable capacity workers s') as Hr'.
  { destruct Hr as [acts0 H0]. exists (acts0 ++ acts). by rewrite run_actions_app, H0. }
  split.
  - clear Hr Hnn Hr'. revert s Hrun. induction Hacts as [|a acts Ha _ IH]; intros s Hrun; simpl in *.
    + by simplify_eq.
    + destruct (local_step capacity workers a s) as [s1|] eqn:Hs; simpl in Hrun; [|done].
      apply IH in Hrun. apply local_measure_step in Hs; [lia|done].
  - intros Hq.
    assert (shapes s' ∧ no_nested s') as [Hsh' Hnn'].
    { apply (run_actions_ind capacity workers (λ s, shapes s ∧ no_nested s)
               (λ a, is_dispatch a = false) acts s s'); [|done| |done].
      - intros a s1 s2 Ha [Hsh1 Hnn1] Hs. split; [by eapply shapes_step|by eapply no_nested_step].
      - split; [by eapply shapes_reachable|done]. }
    pose proof (local_inv_reachable capacity workers s' Hc Hr') as Hinv.
    destruct (quiescent_drained capacity workers s') as (Hfl & Hout & Hth); [done..|].
    split_and!; [by apply Z.eqb_eq|done|by eapply drained_history].
Qed.

(** A bounded queue can deadlock on itself: when the listener that is being
    served publishes again through the same full queue, its worker waits for a
    slot that only its own completion can free; from then on nothing is ever
    delivered and no [flush] returns, whatever else happens. *)
Theorem local_nested_deadlock (v1 v2 : EventEnvelope) :
  ∃ s, local_reachable 1 1 s ∧ accepted s = [v1] ∧
    ∀ acts s', run_actions 1 1 acts s = Some s' → flush_returns s' = false ∧ delivered s' = [].
Proof.
  set (acts0 := [ADispatch (Producer 0) v1; AReserve (Producer 0); ASubmit (Producer 0) true;
                 AStart 0 0; ADispatch (Worker 0) v2]).
  exists (MkLocalState 1 [] {[Worker 0 := [Waiting v2; Delivering v1]]} [v1] [] []).
  split; [exists acts0; reflexivity|]. split; [done|]. intros acts s' Hrun.
  assert (stuck_state v1 v2 s') as [Ho _ _ _ Hd].
  { apply (run_actions_ind 1 1 (stuck_state v1 v2) (λ _, True) acts _ s') in Hrun; [done| | |].
    - intros a s1 s2 _. apply stuck_step.
    - by apply Forall_true.
    - split; try done. intros t stk Hne. simpl. rewrite lookup_singleton_Some. by intros [<- _]. }
  unfold flush_returns. by rewrite Ho.
Qed.
End theorems.

(** ** Witnesses *)

Definition one_queued : LocalState := MkLocalState 1 [null_envelope] ∅ [null_envelope] [] [].

Lemma one_queued_reachable : local_reachable 2 1 one_queued.
Proof.
  exists [ADispatch (Producer 0) null_envelope; AReserve (Producer 0); ASubmit (Producer 0) true].
  reflexivity.
Qed.

Definition serve : list action := [AStart 0 0; ADeliver (Worker 0); AComplete (Worker 0)].
Definition all_served : LocalState := MkLocalState 0 [] ∅ [null_envelope] [null_envelope] [].

Lemma local_backpressure_witness : (in_flight one_queued ≤ 2)%Z ∧ outstanding_ one_queued = in_flight one_queued.
Proof.
  apply (local_backpressure 2 1).
  - by split.
  - done.
  - apply one_queued_reachable.
Defined.

Lemma local_no_loss_witness :
  accepted one_queued ≡ₚ delivered one_queued ++ in_delivery one_queued ++ queue one_queued ∧
  (is_u64 (in_flight one_queued) → flush_returns one_queued = true →
   delivered one_queued ≡ₚ accepted one_queued).
Proof. apply (local_no_loss 2 1); [by split|apply one_queued_reachable]. Defined.

(** Eight workers are asked for; the queue gets one, and delivers [v1] before [v2]. *)
Definition asked_for : ThreadPoolConfig := MkPoolConfig 4 8 2 "".
Definition fifo_pair (v1 v2 : EventEnvelope) : list action :=
  [ADispatch (Producer 0) v1; AReserve (Producer 0); ASubmit (Producer 0) true;
   ADispatch (Producer 0) v2; AReserve (Producer 0); ASubmit (Producer 0) true;
   AStart 0 0; ADeliver (Worker 0); AComplete (Worker 0); AStart 0 0; ADeliver (Worker 0); AComplete (Worker 0)].

Definition at_cell (l : loc) : EventEnvelope := MkEnvelope (Some l) no_display_info.

Lemma local_queue_fifo_witness :
  let v1 := at_cell 1%positive in let v2 := at_cell 2%positive in
  let s := MkLocalState 0 [] ∅ [v1; v2] [v1; v2] [] in
  run_actions 2 1 (fifo_pair v1 v2) local_init = Some s ∧
  delivered s `prefix_of` accepted s ∧ delivered s = accepted s ∧
  delivered s `prefix_of` dispatched (fifo_pair v1 v2).
Proof.
  intros v1 v2 s. split; [reflexivity|].
  destruct (local_queue_fifo "threadman" asked_for (fifo_pair v1 v2) s) as (H1 & H2 & H3).
  - by split.
  - repeat constructor.
  - reflexivity.
  - split_and!; [exact H1|apply H2; [by vm_compute|reflexivity]|apply (H3 0); repeat constructor].
Defined.

Lemma local_flush_terminates_witness :
  3 + local_measure all_served ≤ local_measure one_queued ∧
  (quiescent 2 1 all_served →
   flush_returns all_served = true ∧ threads all_served = ∅ ∧ delivered all_served ≡ₚ accepted all_served).
Proof.
  apply (local_flush_terminates 2 1 one_queued serve all_served).
  - by split.
  - lia.
  - apply one_queued_reachable.
  - intros k stk Hk. simpl in Hk. by rewrite lookup_empty in Hk.
  - repeat constructor.
  - reflexivity.
Defined.
