(* ===== verification/LocalWakeups.v ===== *)
(** * Condition variables of the in-process transport ([include/conduit/local/transport.hpp])

    [LocalTransport.v] lets a blocked thread go on as soon as its condition holds.  The
    code puts it to sleep, and it goes on only when somebody notifies it: a producer
    sleeps on [space_cv_], a caller of [flush()] on [drained_cv_], and [complete_one()]
    notifies one of the former and, at zero, all of the latter.  This machine keeps who
    sleeps, and refines the other one: each of its steps is one of its or none. *)

From S2P Require Import Prelude Exceptions External Flags Instances Envelope World Hosts LocalTransport LocalTransportProps.

Section machine.
Context `{Externals}.

(** The threads asleep in [space_cv_.wait]; and the callers of [flush()], on threads of
    their own, awake ([true]) or asleep in [drained_cv_.wait]. *)
Record WaitState := MkWait {
  base : LocalState;
  asleep : gset tid;
  flushers : gmap nat bool;
}.

Definition wait_init : WaitState := MkWait local_init ∅ ∅.

Inductive cv_action :=
  | CvThread (a : action)                    (* a step that blocks and notifies nobody *)
  | CvWait (t : tid)                         (* [space_cv_.wait] tests its predicate *)
  | CvComplete (t : tid) (w : option tid)    (* [complete_one()]; its [notify_one] wakes [w] *)
  | CvFlush (f : nat)                        (* [flush()] is called *)
  | CvDrained (f : nat)                      (* [drained_cv_.wait] tests its predicate *)
  | CvSpurious (t : tid)                     (* a wait returns with nothing notified *)
  | CvSpuriousFlush (f : nat).

(** The actions of [local_step] that are neither the wait nor [complete_one()]. *)
Definition plain (a : action) : bool :=
  match a with AReserve _ | AComplete _ => false | _ => true end.

(** Who is at the head of [dispatch], asleep or about to test the predicate. *)
Definition tops_waiting (stk : list pc) : bool :=
  match stk with Waiting _ :: _ => true | _ => false end.
Definition waiting (th : gmap tid (list pc)) : gset tid :=
  dom (filter (λ x, tops_waiting x.2 = true) th).

(** [notify_one] wakes one sleeper, any, if there is one; [notify_all] all. *)
Definition notify_one (w : option tid) (sl : gset tid) : option (gset tid) :=
  match w with
  | Some w => if decide (w ∈ sl) then Some (sl ∖ {[w]}) else None
  | None => if decide (sl = ∅) then Some ∅ else None
  end.
Definition notify_all (fl : gmap nat bool) : gmap nat bool := (λ _, true) <$> fl.

Section config.
Context (capacity : Z) (workers : nat).

Definition cv_step (a : cv_action) (ws : WaitState) : option WaitState :=
  let 'MkWait s sl fl := ws in
  match a with
  | CvThread a =>
      if plain a then s' ← local_step capacity workers a s; Some (MkWait s' sl fl) else None
  | CvWait t =>
      if decide (t ∈ waiting (threads s) ∧ t ∉ sl) then
        if has_space capacity s then
          s' ← local_step capacity workers (AReserve t) s; Some (MkWait s' sl fl)
        else Some (MkWait s ({[t]} ∪ sl) fl)
      else None
  | CvComplete t w =>
      s' ← local_step capacity workers (AComplete t) s;
      let fl := if (outstanding_ s' =? 0)%Z then notify_all fl else fl in
      sl ← notify_one w sl;
      Some (MkWait s' sl fl)
  | CvFlush f =>
      match fl !! f with None => Some (MkWait s sl (<[f := true]> fl)) | _ => None end
  | CvDrained f =>
      match fl !! f with
      | Some true =>
          if flush_returns s then Some (MkWait s sl (delete f fl))
          else Some (MkWait s sl (<[f := false]> fl))
      | _ => None
      end
  | CvSpurious t =>
      if decide (t ∈ sl) then Some (MkWait s (sl ∖ {[t]}) fl) else None
  | CvSpuriousFlush f =>
      match fl !! f with Some false => Some (MkWait s sl (<[f := true]> fl)) | _ => None end
  end.

Fixpoint cv_run (acts : list cv_action) (ws : WaitState) : option WaitState :=
  match acts with
  | [] => Some ws
  | a :: acts => ws' ← cv_step a ws; cv_run acts ws'
  end.

Definition cv_reachable (ws : WaitState) : Prop := ∃ acts, cv_run acts wait_init = Some ws.

(** A new [dispatch] or [flush]; a wake-up that nobody asked for. *)
Definition is_call (a : cv_action) : bool :=
  match a with CvThread a => is_dispatch a | CvFlush _ => true | _ => false end.
Definition is_spurious (a : cv_action) : bool :=
  match a with CvSpurious _ | CvSpuriousFlush _ => true | _ => false end.
Definition own_step (a : cv_action) : bool := negb (is_call a) && negb (is_spurious a).

(** Nothing happens any more unless somebody calls or wakes up spuriously. *)
Definition asleep_for_good (ws : WaitState) : Prop := ∀ a, own_step a = true → cv_step a ws = None.

(** ** Measure *)

Definition awake (ws : WaitState) : gset tid := waiting (threads (base ws)) ∖ asleep ws.
Definition awake_flushers (fl : gmap nat bool) : nat := size (filter (λ x, x.2 = true) fl).

Definition cv_measure (ws : WaitState) : nat :=
  local_measure (base ws) * (size (flushers ws) + 3) + size (awake ws) + awake_flushers (flushers ws).

(** ** Waiting threads *)

Lemma elem_of_waiting t th :
  t ∈ waiting th ↔ ∃ stk, th !! t = Some stk ∧ tops_waiting stk = true.
Proof.
  unfold waiting. rewrite elem_of_dom. split.
  - intros [stk Hs]. apply map_lookup_filter_Some in Hs as [? ?]. by exists stk.
  - intros (stk & ? & ?). exists stk. by apply map_lookup_filter_Some.
Qed.

Lemma waiting_set_stack t stk th :
  waiting (set_stack t stk th) = if tops_waiting stk then {[t]} ∪ waiting th else waiting th ∖ {[t]}.
Proof.
  apply set_eq. intros x.
  assert (set_stack t stk th !! x = if decide (x = t) then (match stk with [] => None | _ => Some stk end) else th !! x)
    as Hlk.
  { destruct stk; simpl; case_decide; subst; by rewrite ?lookup_delete_eq, ?lookup_insert_eq,
      ?lookup_delete_ne, ?lookup_insert_ne. }
  rewrite elem_of_waiting, Hlk.
  destruct (tops_waiting stk) eqn:Htop.
  - rewrite elem_of_union, elem_of_singleton, elem_of_waiting. destruct stk as [|p stk]; [done|].
    case_decide; naive_solver.
  - rewrite elem_of_difference, elem_of_singleton, elem_of_waiting.
    case_decide as Hx; [|naive_solver]. split; [|by intros [_ ?]].
    intros (stk' & Heq & Ht). destruct stk; simplify_eq; congruence.
Qed.

(** The thread an action is of. *)
Definition actor (a : action) : tid :=
  match a with
  | ADispatch t _ | AReserve t | ASubmit t _ | ADeliver t | AComplete t => t
  | AStart k _ => Worker k
  end.

(** Each action changes the stack of its thread only. *)
Lemma local_step_stack a s s' :
  local_step capacity workers a s = Some s' →
  ∃ stk, threads s' = set_stack (actor a) stk (threads s).
Proof.
  destruct s as [out q th acc del rej].
  destruct a as [t v|t|t b|k i|t|t]; simpl; intros Hstep.
  - destruct t as [n|n], (th !! _) as [[|[] stk]|]; simplify_eq; simpl.
    + by exists [Waiting v].
    + by exists (Waiting v :: Delivering v0 :: stk).
  - destruct (th !! t) as [[|[] stk]|]; try done. case_match; simplify_eq. by exists (Reserved v :: stk).
  - destruct (th !! t) as [[|[] stk]|]; try done. destruct b; simplify_eq; [by exists stk|by exists (Rejected v :: stk)].
  - destruct (th !! Worker k), (q !! i) as [v|]; try done. case_match; simplify_eq. by exists [Delivering v].
  - destruct (th !! t) as [[|[] stk]|]; simplify_eq. by exists (Delivered v :: stk).
  - destruct (th !! t) as [[|[] stk]|]; simplify_eq; by exists stk.
Qed.

(** Only a reservation takes a thread out of [waiting]. *)
Lemma waiting_step a s s' :
  local_step capacity workers a s = Some s' →
  waiting (threads s') ⊆ {[actor a]} ∪ waiting (threads s) ∧
  match a with
  | AReserve t => t ∈ waiting (threads s) ∧ waiting (threads s') = waiting (threads s) ∖ {[t]}
  | _ => waiting (threads s) ⊆ waiting (threads s')
  end.
Proof.
  intros Hstep. split.
  { destruct (local_step_stack _ _ _ Hstep) as [stk ->]. rewrite waiting_set_stack.
    case_match; set_solver. }
  assert (∀ t p,
    match threads s !! t with Some (Waiting _ :: _) => False | _ => True end →
    waiting (threads s) ⊆ waiting (set_stack t p (threads s))) as Hmono.
  { intros t p Ht x Hx. rewrite waiting_set_stack. destruct (tops_waiting p); [by apply elem_of_union_r|].
    apply elem_of_difference. split; [done|]. intros ->%elem_of_singleton.
    apply elem_of_waiting in Hx as ([|[] ?] & Hx & ?); try done. by rewrite Hx in Ht. }
  destruct s as [out q th acc del rej].
  destruct a as [t v|t|t b|k i|t|t]; simpl in *.
  - destruct t as [n|n], (th !! _) as [[|[] stk]|] eqn:Ht; simplify_eq; simpl.
    + apply (Hmono (Producer n) [Waiting v]); by rewrite Ht.
    + apply (Hmono (Worker n) (Waiting v :: Delivering v0 :: stk)); by rewrite Ht.
  - destruct (th !! t) as [[|[] stk]|] eqn:Ht; try done. case_match; simplify_eq; simpl.
    split; [apply elem_of_waiting; by eexists|].
    apply (waiting_set_stack t (Reserved v :: stk)).
  - destruct (th !! t) as [[|[] stk]|] eqn:Ht; try done. destruct b; simplify_eq; simpl.
    + apply Hmono; by rewrite Ht.
    + apply (Hmono t (Rejected v :: stk)); by rewrite Ht.
  - destruct (th !! Worker k) eqn:Ht, (q !! i) as [v|]; try done. case_match; simplify_eq; simpl.
    apply (Hmono (Worker k) [Delivering v]); by rewrite Ht.
  - destruct (th !! t) as [[|[] stk]|] eqn:Ht; simplify_eq; simpl.
    apply (Hmono t (Delivered v :: stk)); by rewrite Ht.
  - destruct (th !! t) as [[|[] stk]|] eqn:Ht; simplify_eq; simpl;
      (apply Hmono; by rewrite Ht).
Qed.

(** ** Refinement and invariant *)

(** Each step is a step of [local_step] or leaves its state alone. *)
Lemma cv_step_base a ws ws' :
  cv_step a ws = Some ws' →
  base ws' = base ws ∨
  ∃ a', local_step capacity workers a' (base ws) = Some (base ws') ∧
        is_dispatch a' = match a with CvThread a => is_dispatch a | _ => false end.
Proof.
  destruct ws as [s sl fl]. destruct a as [a|t|t w|f|f|t|f]; simpl; intros Hstep.
  - destruct (plain a); [|done]. destruct (local_step capacity workers a s) as [s1|] eqn:Hs; simplify_eq/=.
    right. by exists a.
  - case_decide; [|done]. destruct (has_space capacity s); [|simplify_eq; by left].
    destruct (local_step capacity workers (AReserve t) s) as [s1|] eqn:Hs; simplify_eq/=. right.
    by exists (AReserve t).
  - destruct (local_step capacity workers (AComplete t) s) as [s1|] eqn:Hs; simplify_eq/=.
    destruct (notify_one w sl); simplify_eq/=. right. by exists (AComplete t).
  - destruct (fl !! f); simplify_eq. by left.
  - destruct (fl !! f) as [[]|]; try done. destruct (flush_returns s); simplify_eq; by left.
  - case_decide; simplify_eq. by left.
  - destruct (fl !! f) as [[]|]; simplify_eq. by left.
Qed.

Lemma cv_base_reachable a ws ws' :
  cv_step a ws = Some ws' → local_reachable capacity workers (base ws) →
  local_reachable capacity workers (base ws').
Proof.
  intros Hstep [acts Hr]. destruct (cv_step_base _ _ _ Hstep) as [->|(a' & Ha & _)]; [by exists acts|].
  exists (acts ++ [a']). rewrite run_actions_app, Hr. simpl. by rewrite Ha.
Qed.

(** Nobody misses a notification: a producer sleeps only while the queue is full, or as
    many as there are free slots are awake to take them; a flush only while something
    is in flight. *)
Record cv_inv (ws : WaitState) : Prop := {
  cv_base : local_reachable capacity workers (base ws);
  cv_asleep : asleep ws ⊆ waiting (threads (base ws));
  cv_full : asleep ws ≠ ∅ → capacity ≠ 0%Z ∧ (capacity ≤ in_flight (base ws) + Z.of_nat (size (awake ws)))%Z;
  cv_flushing f : flushers ws !! f = Some false → in_flight (base ws) ≠ 0%Z;
}.

(** A wait only sleeps on a bounded queue, and when that is full. *)
Lemma no_space_full s :
  is_u64 capacity → local_inv capacity s → has_space capacity s = false →
  capacity ≠ 0%Z ∧ in_flight s = capacity.
Proof.
  intros [_ Hc] [Hn Hb _] Hsp. unfold has_space in Hsp. destruct (Z.eqb_spec capacity 0) as [|Hne]; [done|].
  split; [done|]. specialize (Hb Hne). pose proof (in_flight_nonneg s).
  rewrite Hn, u64_wrap_small in Hsp by (split; lia). simpl in Hsp. apply Z.ltb_ge in Hsp. lia.
Qed.

Lemma full_no_space s :
  is_u64 capacity → local_inv capacity s → capacity ≠ 0%Z → (capacity ≤ in_flight s)%Z →
  has_space capacity s = false.
Proof.
  intros [_ Hc] [Hn Hb _] Hne Hfull. specialize (Hb Hne). pose proof (in_flight_nonneg s).
  unfold has_space. rewrite Hn, u64_wrap_small by (split; lia).
  destruct (Z.eqb_spec capacity 0); [done|]. simpl. apply Z.ltb_ge. lia.
Qed.

Lemma size_minus {A} `{Countable A} (X : gset A) x : x ∈ X → size X = S (size (X ∖ {[x]})).
Proof.
  intros Hx. rewrite (union_difference_L {[x]} X) at 1 by set_solver.
  rewrite size_union by set_solver. by rewrite size_singleton.
Qed.

(** What [cv_full] needs of a step after which the sleepers [sl'] are left: for each
    slot it frees it wakes one of them. *)
Lemma sleepers_covered (w w' sl sl' : gset tid) (n n' : Z) :
  w ⊆ w' → sl' ⊆ sl → sl ⊆ w →
  (sl' ≠ ∅ → n ≤ n' + Z.of_nat (size (sl ∖ sl')))%Z →
  (sl ≠ ∅ → capacity ≠ 0 ∧ capacity ≤ n + Z.of_nat (size (w ∖ sl)))%Z →
  (sl' ≠ ∅ → capacity ≠ 0 ∧ capacity ≤ n' + Z.of_nat (size (w' ∖ sl')))%Z.
Proof.
  intros Hw Hsl Hsub Hn Hcap Hne. assert (sl ≠ ∅) as Hne' by set_solver.
  destruct (Hcap Hne') as [? Hc]. specialize (Hn Hne). split; [done|].
  assert (size ((w ∖ sl) ∪ (sl ∖ sl')) ≤ size (w' ∖ sl')) as Hle by (apply subseteq_size; set_solver).
  rewrite size_union in Hle by set_solver. lia.
Qed.

Lemma notify_all_awake fl f : notify_all fl !! f ≠ Some false.
Proof. unfold notify_all. rewrite lookup_fmap. by destruct (fl !! f). Qed.

(** [notify_one]: either nobody sleeps, or one less. *)
Lemma notify_one_sub w sl sl' :
  notify_one w sl = Some sl' → sl' ⊆ sl ∧ (sl' ≠ ∅ → size (sl ∖ sl') = 1) ∧ size (sl ∖ sl') ≤ 1.
Proof.
  unfold notify_one. destruct w as [w|]; case_decide as Hw; intros ?; simplify_eq.
  - assert (sl ∖ (sl ∖ {[w]}) = {[w]}) as ->; [|rewrite size_singleton; set_solver].
    apply set_eq. intros x. rewrite !elem_of_difference, elem_of_singleton. destruct (decide (x = w)); naive_solver.
  - by rewrite difference_diag_L, size_empty; split_and!; [| |lia].
Qed.

Lemma cv_inv_init : cv_inv wait_init.
Proof.
  split; simpl; [by exists []|set_solver|done|]. intros f. by rewrite lookup_empty.
Qed.

Lemma cv_inv_step a ws ws' :
  is_u64 capacity → cv_inv ws → cv_step a ws = Some ws' → cv_inv ws'.
Proof.
  intros Hc [Hr Hsl Hfull Hfl] Hstep. pose proof (cv_base_reachable _ _ _ Hstep Hr) as Hr'.
  pose proof (local_inv_reachable _ _ _ Hc Hr) as Hinv.
  pose proof (local_inv_reachable _ _ _ Hc Hr') as Hinv'.
  destruct ws as [s sl fl]. unfold awake in *. simpl in *.
  destruct a as [a|t|t w|f|f|t|f]; simpl in Hstep.
  - (* a plain step frees no slot *)
    destruct (plain a) eqn:Ha; [|done].
    destruct (local_step capacity workers a s) as [s1|] eqn:Hs; simplify_eq/=.
    destruct (waiting_step _ _ _ Hs) as [_ Hw]. pose proof (local_step_units _ _ _ _ _ Hs) as Hu.
    assert (waiting (threads s) ⊆ waiting (threads s1)) as Hw' by by destruct a.
    assert (in_flight s1 = in_flight s) as Hn by (destruct a; by destruct Hu).
    split; simpl; [done|set_solver| |by rewrite Hn].
    apply (sleepers_covered (waiting (threads s)) _ sl sl (in_flight s)); [done..| |done]. lia.
  - case_decide as Ht; [|done]. destruct Ht as [Ht Hnt].
    destruct (has_space capacity s) eqn:Hsp.
    + (* the slot goes to a thread that is awake *)
      destruct (local_step capacity workers (AReserve t) s) as [s1|] eqn:Hs; simplify_eq/=.
      destruct (waiting_step _ _ _ Hs) as [_ [_ Hw]].
      destruct (local_step_units _ _ _ _ _ Hs) as [Hn _]. pose proof (in_flight_nonneg s).
      split; simpl; [done|rewrite Hw; set_solver| |intros f _; lia].
      unfold awake. simpl. intros Hne. destruct (Hfull Hne) as [? Hle]. split; [done|].
      rewrite (size_minus _ t) in Hle by set_solver.
      assert (waiting (threads s) ∖ sl ∖ {[t]} = waiting (threads s1) ∖ sl) as <- by (rewrite Hw; set_solver).
      lia.
    + simplify_eq/=. destruct (no_space_full s Hc Hinv Hsp) as [? Hn].
      split; simpl; [done|set_solver| |done]. intros _. split; [done|]. lia.
  - (* [complete_one()] frees a slot and wakes a sleeper *)
    destruct (local_step capacity workers (AComplete t) s) as [s1|] eqn:Hs; simplify_eq/=.
    destruct (notify_one w sl) as [sl1|] eqn:Hw; simplify_eq/=.
    destruct (notify_one_sub _ _ _ Hw) as (Hsub & Hone & _).
    destruct (waiting_step _ _ _ Hs) as [_ Hww]. destruct (local_step_units _ _ _ _ _ Hs) as [Hn _].
    split; simpl; [done|set_solver| |].
    + apply (sleepers_covered (waiting (threads s)) _ sl sl1 (in_flight s)); [done..| |done].
      intros Hne. rewrite Hone by done. lia.
    + intros f. destruct (Z.eqb_spec (outstanding_ s1) 0) as [|Hne]; [intros Hf; by apply notify_all_awake in Hf|].
      intros _ H0. apply Hne. by rewrite (li_count _ _ Hinv'), H0.
  - destruct (fl !! f) eqn:Hf; simplify_eq/=. split; simpl; [done..|].
    intros f'. rewrite lookup_insert_Some. intros [[_ ?]|[_ ?]]; [done|by eapply Hfl].
  - destruct (fl !! f) as [[]|] eqn:Hf; try done. destruct (flush_returns s) eqn:Hret; simplify_eq/=.
    + split; simpl; [done..|]. intros f'. rewrite lookup_delete_Some. intros [_ ?]. by eapply Hfl.
    + split; simpl; [done..|]. intros f'. rewrite lookup_insert_Some. intros [_|[_ ?]]; [|by eapply Hfl].
      intros H0. unfold flush_returns in Hret. by rewrite (li_count _ _ Hinv), H0 in Hret.
  - case_decide as Ht; simplify_eq/=. split; simpl; [done|set_solver| |done].
    apply (sleepers_covered (waiting (threads s)) _ sl _ (in_flight s)); [done|set_solver|done| |done]. lia.
  - destruct (fl !! f) as [[]|] eqn:Hf; simplify_eq/=. split; simpl; [done..|].
    intros f'. rewrite lookup_insert_Some. intros [[_ ?]|[_ ?]]; [done|by eapply Hfl].
Qed.

(** Induction over runs. *)
Lemma cv_run_ind (P : WaitState → Prop) (φ : cv_action → Prop) acts ws ws' :
  (∀ a ws ws', φ a → P ws → cv_step a ws = Some ws' → P ws') →
  Forall φ acts → P ws → cv_run acts ws = Some ws' → P ws'.
Proof.
  intros Hstep Hφ. revert ws. induction Hφ as [|a acts Ha _ IH]; intros ws HP; simpl; [by intros [= <-]|].
  destruct (cv_step a ws) as [ws1|] eqn:Hs; simpl; [|done]. apply IH. by eapply Hstep.
Qed.

Lemma cv_inv_reachable ws : is_u64 capacity → cv_reachable ws → cv_inv ws.
Proof.
  intros Hc [acts Hrun]. apply (cv_run_ind cv_inv (λ _, True) acts wait_init ws); try done.
  - intros a ws1 ws2 _. by apply cv_inv_step.
  - by apply Forall_true.
  - apply cv_inv_init.
Qed.

(** ** Progress *)

Lemma size_union_le {A} `{Countable A} (X Y : gset A) : size (X ∪ Y) ≤ size X + size Y.
Proof. rewrite size_union_alt. assert (size (Y ∖ X) ≤ size Y) by (apply subseteq_size; set_solver). lia. Qed.

(** At most the acting thread and those it wakes are awake anew. *)
Lemma awake_after (w w' sl sl' : gset tid) t :
  w' ⊆ {[t]} ∪ w → size (w' ∖ sl') ≤ S (size (w ∖ sl) + size (sl ∖ sl')).
Proof.
  intros Hw. trans (size ({[t]} ∪ ((w ∖ sl) ∪ (sl ∖ sl')))).
  - apply subseteq_size. intros x [Hx Hnx]%elem_of_difference. apply Hw in Hx.
    destruct (decide (x ∈ sl)); set_solver.
  - pose proof (size_union_le {[t]} (w ∖ sl ∪ sl ∖ sl')). pose proof (size_union_le (w ∖ sl) (sl ∖ sl')).
    rewrite size_singleton in *. lia.
Qed.

Lemma awake_flushers_insert fl f b :
  fl !! f = Some (negb b) →
  if b then awake_flushers (<[f := b]> fl) = S (awake_flushers fl)
  else awake_flushers fl = S (awake_flushers (<[f := b]> fl)).
Proof.
  intros Hf. unfold awake_flushers. destruct b; simpl in Hf.
  - rewrite map_filter_insert_True by done. apply map_size_insert_None.
    apply map_lookup_filter_None. right. intros x ?. by simplify_eq.
  - rewrite map_filter_insert_False, map_filter_delete by done.
    rewrite map_size_delete_Some; [|by eexists; apply map_lookup_filter_Some].
    assert (size (filter (λ x : nat * bool, x.2 = true) fl) ≠ 0); [|lia].
    apply map_size_non_empty_iff. intros He. apply (map_filter_empty_not_lookup _ _ f true) in He; naive_solver.
Qed.

Lemma awake_flushers_delete fl f :
  fl !! f = Some true → awake_flushers fl = S (awake_flushers (delete f fl)).
Proof.
  intros Hf. pose proof (awake_flushers_insert fl f false Hf) as Hi. simpl in Hi. rewrite Hi. f_equal.
  unfold awake_flushers. by rewrite map_filter_insert_False, !map_filter_delete.
Qed.

Lemma awake_flushers_le fl : awake_flushers fl ≤ size fl.
Proof. apply map_subseteq_size, map_filter_subseteq. Qed.

Lemma notify_all_size fl : size (notify_all fl) = size fl.
Proof. apply map_size_fmap. Qed.

(** The threads' own steps go down the measure; a spurious wake-up costs one more test. *)
Lemma cv_measure_step a ws ws' :
  is_call a = false → cv_step a ws = Some ws' →
  if is_spurious a then cv_measure ws' ≤ S (cv_measure ws) else cv_measure ws' < cv_measure ws.
Proof.
  intros Ha Hstep. destruct ws as [s sl fl]. unfold cv_measure, awake.
  destruct a as [a|t|t w|f|f|t|f]; simpl in *.
  - destruct (plain a); [|done].
    destruct (local_step capacity workers a s) as [s1|] eqn:Hs; simplify_eq/=.
    destruct (waiting_step _ _ _ Hs) as [Hw _].
    pose proof (awake_after _ _ sl sl _ Hw) as Haw. rewrite difference_diag_L, size_empty in Haw.
    pose proof (local_measure_step _ _ _ _ _ Ha Hs). nia.
  - case_decide as Ht; [|done]. destruct Ht as [Ht Hnt].
    destruct (has_space capacity s) eqn:Hsp.
    + destruct (local_step capacity workers (AReserve t) s) as [s1|] eqn:Hs; simplify_eq/=.
      destruct (waiting_step _ _ _ Hs) as [_ [_ ->]].
      pose proof (local_measure_step _ _ (AReserve t) _ _ eq_refl Hs).
      assert (size (waiting (threads s) ∖ {[t]} ∖ sl) ≤ size (waiting (threads s) ∖ sl))
        by (apply subseteq_size; set_solver). nia.
    + simplify_eq/=. rewrite (size_minus (waiting (threads s) ∖ sl) t) by set_solver.
      assert (waiting (threads s) ∖ ({[t]} ∪ sl) = waiting (threads s) ∖ sl ∖ {[t]}) as -> by set_solver. lia.
  - destruct (local_step capacity workers (AComplete t) s) as [s1|] eqn:Hs; simplify_eq/=.
    destruct (notify_one w sl) as [sl1|] eqn:Hw; simplify_eq/=.
    destruct (notify_one_sub _ _ _ Hw) as (_ & _ & Hone).
    destruct (waiting_step _ _ _ Hs) as [Hww _].
    pose proof (awake_after _ _ sl sl1 _ Hww) as Haw.
    pose proof (local_measure_step _ _ (AComplete t) _ _ eq_refl Hs).
    destruct (_ =? 0)%Z; [|nia].
    pose proof (awake_flushers_le (notify_all fl)). rewrite notify_all_size in *. nia.
  - done.
  - destruct (fl !! f) as [[]|] eqn:Hf; try done. destruct (flush_returns s); simplify_eq/=.
    + rewrite (awake_flushers_delete _ _ Hf). assert (size (delete f fl) ≤ size fl) as Hle.
      { apply map_subseteq_size, delete_subseteq. } nia.
    + pose proof (awake_flushers_insert fl f false Hf) as Hi. simpl in Hi. rewrite Hi.
      rewrite map_size_insert_Some by by eexists. lia.
  - case_decide as Ht; simplify_eq/=.
    assert (waiting (threads s) ∖ (sl ∖ {[t]}) ⊆ {[t]} ∪ waiting (threads s) ∖ sl) as Hsub.
    { intros x. rewrite !elem_of_difference, elem_of_union, elem_of_singleton, elem_of_difference.
      destruct (decide (x = t)); naive_solver. }
    apply subseteq_size in Hsub. pose proof (size_union_le {[t]} (waiting (threads s) ∖ sl)).
    rewrite size_singleton in *. lia.
  - destruct (fl !! f) as [[]|] eqn:Hf; simplify_eq/=.
    pose proof (awake_flushers_insert fl f true Hf) as Hi. simpl in Hi. rewrite Hi.
    rewrite map_size_insert_Some by by eexists. lia.
Qed.

(** Counting along a run. *)
Definition count (p : cv_action → bool) (acts : list cv_action) : nat := length (filter (λ a, p a = true) acts).

Lemma cv_measure_run acts ws ws' :
  Forall (λ a, is_call a = false) acts → cv_run acts ws = Some ws' →
  count own_step acts + cv_measure ws' ≤ cv_measure ws + count is_spurious acts.
Proof.
  intros Hacts. revert ws. induction Hacts as [|a acts Ha _ IH]; intros ws; simpl; [intros [= <-]; lia|].
  destruct (cv_step a ws) as [ws1|] eqn:Hs; simpl; [|done]. intros Hrun. apply IH in Hrun.
  pose proof (cv_measure_step _ _ _ Ha Hs) as Hm. unfold count, own_step in *.
  rewrite !filter_cons, Ha. destruct (is_spurious a); simpl; lia.
Qed.

(** When everybody sleeps for good the underlying machine is quiescent: a producer that
    sleeps has no slot to take. *)
Lemma asleep_quiescent ws :
  is_u64 capacity → cv_inv ws → asleep_for_good ws → quiescent capacity workers (base ws).
Proof.
  intros Hc [Hr Hsl Hfull _] Hq. pose proof (local_inv_reachable _ _ _ Hc Hr) as Hinv.
  destruct ws as [s sl fl]. unfold awake in *. simpl in *.
  assert (waiting (threads s) ∖ sl = ∅) as Hall.
  { apply set_eq. intros t. split; [|set_solver]. intros [Ht Hnt]%elem_of_difference.
    specialize (Hq (CvWait t) eq_refl). simpl in Hq. rewrite decide_True in Hq by done.
    destruct (has_space capacity s) eqn:Hsp; [|done]. apply elem_of_waiting in Ht as ([|[] stk] & Ht & ?); try done.
    destruct s as [out q th acc del rej]. simpl in *. rewrite Ht, Hsp in Hq. done. }
  intros a Ha. destruct (plain a) eqn:Hp.
  - specialize (Hq (CvThread a)). unfold own_step in Hq. simpl in Hq. rewrite Ha, Hp in Hq.
    specialize (Hq eq_refl). by destruct (local_step capacity workers a s).
  - destruct a as [t v|t|t b|k i|t|t]; try done.
    + destruct (local_step capacity workers (AReserve t) s) as [s1|] eqn:Hs; [|done].
      destruct (waiting_step _ _ _ Hs) as [_ [Ht _]]. destruct (local_step_units _ _ _ _ _ Hs) as (_ & _ & Hsp).
      assert (t ∈ sl) as Htsl by set_solver. destruct Hfull as [Hne Hle]; [set_solver|].
      rewrite Hall, size_empty in Hle. rewrite full_no_space in Hsp; [done..|]. lia.
    + destruct (local_step capacity workers (AComplete t) s) as [s1|] eqn:Hs; [|done].
      destruct (decide (sl = ∅)) as [->|Hne].
      * specialize (Hq (CvComplete t None) eq_refl). simpl in Hq. rewrite Hs in Hq. simpl in Hq.
        by rewrite decide_True in Hq.
      * apply set_choose_L in Hne as [w Hw].
        specialize (Hq (CvComplete t (Some w)) eq_refl). simpl in Hq. rewrite Hs in Hq. simpl in Hq.
        by rewrite decide_True in Hq.
Qed.
End config.
End machine.

(** ** Theorems *)

Section theorems.
Context `{Externals}.

(** C18: draining terminates, condition variables included.  From any reachable state
    in which no listener is inside a dispatch of its own, as long as nobody begins
    another [dispatch] or [flush], the steps of the threads that are there are bounded
    (a spurious wake-up may cost one more); and the only state in which all of them are
    blocked, asleep or finished is the one in which no producer and no [flush] is left
    (each [flush] has returned, none sleeps for ever), [outstanding_] is zero and
    everything accepted has been delivered: [complete_one] notifies enough.  An idle
    worker is assumed to take a queued task. *)
Theorem local_flush_wakes capacity workers ws acts ws' :
  is_u64 capacity → 0 < workers → cv_reachable capacity workers ws → no_nested (base ws) →
  Forall (λ a, is_call a = false) acts → cv_run capacity workers acts ws = Some ws' →
  count own_step acts + cv_measure ws' ≤ cv_measure ws + count is_spurious acts ∧
  (asleep_for_good capacity workers ws' →
   flushers ws' = ∅ ∧ asleep ws' = ∅ ∧ threads (base ws') = ∅ ∧ outstanding_ (base ws') = 0%Z ∧
   delivered (base ws') ≡ₚ accepted (base ws')).
Proof.
  intros Hc Hw Hr Hnn Hacts Hrun. split; [by eapply cv_measure_run|]. intros Hq.
  assert (cv_inv capacity workers ws' ∧ no_nested (base ws')) as [Hinv Hnn'].
  { apply (cv_run_ind capacity workers (λ ws, cv_inv capacity workers ws ∧ no_nested (base ws))
             (λ a, is_call a = false) acts ws ws'); [|done|split; [by apply cv_inv_reachable|done]|done].
    intros a ws1 ws2 Ha [Hinv1 Hnn1] Hs. split; [by eapply cv_inv_step|].
    destruct (cv_step_base _ _ _ _ _ Hs) as [->|(a' & Ha' & Hd)]; [done|].
    eapply no_nested_step; [eapply shapes_reachable, (cv_base _ _ _ Hinv1)| |done..].
    rewrite Hd. by destruct a. }
  pose proof (asleep_quiescent _ _ _ Hc Hinv Hq) as Hbq. destruct Hinv as [Hb Hsl _ Hfl].
  pose proof (local_inv_reachable _ _ _ Hc Hb) as Hli.
  destruct (quiescent_drained capacity workers (base ws')) as (H0 & Hout & Hth);
    [done..|by eapply shapes_reachable|done|done|].
  split_and!; [| |done|done|by eapply drained_history].
  - apply map_empty. intros f. destruct (flushers ws' !! f) as [[]|] eqn:Hf; [|by apply Hfl in Hf|done].
    exfalso. specialize (Hq (CvDrained f) eq_refl). destruct ws' as [s sl fl]. simpl in *.
    rewrite Hf in Hq. by destruct (flush_returns s).
  - rewrite Hth in Hsl. apply set_eq. intros t. split; [|set_solver].
    intros (stk & Hs & _)%Hsl%elem_of_waiting. by rewrite lookup_empty in Hs.
Qed.
End theorems.

(** ** Witnesses *)

(** One slot and one worker: one envelope is queued, a second producer sleeps on
    [space_cv_] and a [flush] on [drained_cv_]; then everything is served. *)
Definition fall_asleep : list cv_action :=
  [CvThread (ADispatch (Producer 0) null_envelope); CvWait (Producer 0); CvThread (ASubmit (Producer 0) true);
   CvThread (ADispatch (Producer 1) null_envelope); CvWait (Producer 1); CvFlush 0; CvDrained 0].
Definition wake_up : list cv_action :=
  [CvThread (AStart 0 0); CvThread (ADeliver (Worker 0)); CvComplete (Worker 0) (Some (Producer 1));
   CvWait (Producer 1); CvThread (ASubmit (Producer 1) true);
   CvThread (AStart 0 0); CvThread (ADeliver (Worker 0)); CvComplete (Worker 0) None; CvDrained 0].

Definition both_asleep : WaitState :=
  MkWait (MkLocalState 1 [null_envelope] {[Producer 1 := [Waiting null_envelope]]} [null_envelope] [] [])
    {[Producer 1]} {[0 := false]}.
Definition all_awake : WaitState :=
  MkWait (MkLocalState 0 [] ∅ [null_envelope; null_envelope] [null_envelope; null_envelope] []) ∅ ∅.

Lemma local_flush_wakes_witness :
  cv_run 1 1 fall_asleep wait_init = Some both_asleep ∧
  count own_step wake_up + cv_measure all_awake ≤ cv_measure both_asleep + count is_spurious wake_up ∧
  (flushers all_awake = ∅ ∧ asleep all_awake = ∅ ∧ threads (base all_awake) = ∅ ∧ outstanding_ (base all_awake) = 0%Z ∧
   delivered (base all_awake) ≡ₚ accepted (base all_awake)).
Proof.
  split; [reflexivity|].
  destruct (local_flush_wakes 1 1 both_asleep wake_up all_awake) as [Hsteps Hend].
  - by split.
  - lia.
  - exists fall_asleep. reflexivity.
  - intros k stk Hk. simpl in Hk. by rewrite lookup_singleton_ne in Hk.
  - repeat constructor.
  - reflexivity.
  - split; [exact Hsteps|apply Hend]. intros [a|t|t w|f|f|t|f] Ha; try done.
    destruct a; try done; simpl; by rewrite ?lookup_empty, ?lookup_nil.
Defined.
