(* ===== verification/LocalDestroy.v ===== *)
(** * The destructor of the in-process transport ([include/conduit/local/transport.hpp])

    [~Transport()] is implicit, so the members go in reverse order of declaration:
    [outstanding_], [space_cv_], [drained_cv_] and [drain_mu_] first, the pool after
    them, whose destructor joins the workers.  A task that is still running then ends
    in [complete_one()] on a mutex that is gone. *)

From S2P Require Import Prelude Exceptions External Flags Instances Envelope World Hosts LocalTransport LocalTransportProps LocalWakeups.

Section destroy.
Context `{Externals}.

(** Before the destructor; [drain_mu_] and the counters are destroyed and the pool is
    being joined; after it. *)
Inductive lifetime := Alive | Joining | Gone.

(** Whether the action [a] is the thread's next and uses [drain_mu_] or [space_cv_]: at
    the head of [dispatch] the thread locks the one or waits on the other, whether there
    is space or not; in [complete_one()] it locks the one and notifies the other. *)
Definition uses_drain_mu (a : action) (s : LocalState) : bool :=
  match a with
  | AReserve t => match threads s !! t with Some (Waiting _ :: _) => true | _ => false end
  | AComplete t =>
      match threads s !! t with Some (Rejected _ :: _) | Some (Delivered _ :: _) => true | _ => false end
  | _ => false
  end.

Inductive life_action :=
  | LThread (a : action)       (* a thread goes on *)
  | LDestroy                   (* ~Transport() begins: the members after pool_ go *)
  | LJoined.                   (* ~ThreadPool() returns, and with it ~Transport() *)

Definition is_worker (t : tid) : bool := match t with Worker _ => true | Producer _ => false end.
Definition no_worker_runs (s : LocalState) : bool :=
  forallb (λ x, negb (is_worker x.1)) (map_to_list (threads s)).

(** [drains]: whether the destructor of threadman's pool runs the queued tasks before
    it joins, or drops them. *)
Context (capacity : Z) (workers : nat) (drains : bool).

Definition life_step (a : life_action) (st : LocalState * lifetime)
    : option (outcome (LocalState * lifetime)) :=
  let '(s, l) := st in
  match a, l with
  | LThread a, Alive => s' ← local_step capacity workers a s; Some (Ret (s', Alive))
  | LThread a, Joining =>
      if uses_drain_mu a s then Some (Undef UseAfterFree)
      else s' ← local_step capacity workers a s; Some (Ret (s', Joining))
  | LDestroy, Alive => Some (Ret (s, Joining))
  | LJoined, Joining =>
      if no_worker_runs s && (negb drains || bool_decide (queue s = [])) then Some (Ret (s, Gone)) else None
  | _, _ => None
  end.

(** A run: [None] if some action is not enabled; it ends at the first undefined one. *)
Fixpoint life_run (acts : list life_action) (st : LocalState * lifetime)
    : option (outcome (LocalState * lifetime)) :=
  match acts with
  | [] => Some (Ret st)
  | a :: acts =>
      match life_step a st with
      | Some (Ret st') => life_run acts st'
      | r => r
      end
  end.

(** ** Lemmas *)

(** A worker in a task: its stack, whose bottom is the task, is not empty. *)
Definition in_task (k : nat) (s : LocalState) : Prop := is_Some (threads s !! Worker k).

Lemma in_task_kept k a s s' :
  shapes s → local_step capacity workers a s = Some s' → uses_drain_mu a s = false →
  in_task k s → in_task k s'.
Proof.
  intros Hsh Hstep Ha [stk Hk]. destruct s as [out q th acc del rej]. unfold in_task. simpl in *.
  assert (∀ t stk', th !! t = Some stk' → stack_shape t stk') as Hlk by apply Hsh.
  destruct a as [t v|t|t b|j i|t|t]; simpl in Hstep, Ha; [|by destruct (th !! t) as [[|[] ?]|]|..|].
  - destruct t as [n|n], (th !! _) as [[|[] ?]|] eqn:Ht; simplify_eq; simpl.
    + rewrite lookup_insert_ne by done. by eexists.
    + destruct (decide (n = k)) as [->|Hne]; [rewrite lookup_insert_eq; by eexists|].
      rewrite lookup_insert_ne by congruence. by eexists.
  - destruct (th !! t) as [[|[] stk']|] eqn:Ht; try done.
    destruct b; simplify_eq; simpl.
    + destruct stk' as [|p stk']; simpl.
      * assert (t ≠ Worker k).
        { intros ->. apply Hlk in Ht as (pre & p & Heq & _ & Hp).
          destruct pre as [|? []]; simplify_eq/=. by apply Hp. }
        rewrite lookup_delete_ne by done. by eexists.
      * destruct (decide (t = Worker k)) as [->|Hne]; [rewrite lookup_insert_eq; by eexists|].
        rewrite lookup_insert_ne by done. by eexists.
    + destruct (decide (t = Worker k)) as [->|Hne]; [rewrite lookup_insert_eq; by eexists|].
      rewrite lookup_insert_ne by done. by eexists.
  - destruct (th !! Worker j) eqn:Ht, (q !! i); try done. case_match; simplify_eq; simpl.
    destruct (decide (j = k)) as [->|Hne]; [rewrite lookup_insert_eq; by eexists|].
    rewrite lookup_insert_ne by congruence. by eexists.
  - destruct (th !! t) as [[|[] stk']|] eqn:Ht; simplify_eq; simpl.
    destruct (decide (t = Worker k)) as [->|Hne]; [rewrite lookup_insert_eq; by eexists|].
    rewrite lookup_insert_ne by done. by eexists.
  - by destruct (th !! t) as [[|[] ?]|].
Qed.

Lemma not_joined k s : in_task k s → no_worker_runs s = false.
Proof.
  intros [stk Hk]. apply not_true_iff_false. unfold no_worker_runs. rewrite forallb_forall.
  intros Hall. by specialize (Hall (Worker k, stk) (proj1 (list_elem_of_In _ _)
    (proj2 (elem_of_map_to_list _ _ _) Hk))).
Qed.

(** While a task runs the destructor does not return, unless something undefined
    happens. *)
Lemma joining_stuck k acts s s' l :
  shapes s → in_task k s → life_run acts (s, Joining) = Some (Ret (s', l)) → l = Joining ∧ in_task k s'.
Proof.
  revert s. induction acts as [|a acts IH]; intros s Hsh Hk; simpl; [by intros [= <- <-]|].
  destruct a as [a| |]; simpl; [|done|by rewrite (not_joined k)].
  destruct (uses_drain_mu a s) eqn:Ha; [done|].
  destruct (local_step capacity workers a s) as [s1|] eqn:Hstep; simpl; [|done]. apply IH; [by eapply shapes_step|].
  by eapply in_task_kept.
Qed.

(** A worker in a task gets to the destroyed mutex on its own, wherever it is. *)
Lemma task_reaches_drain_mu k s :
  shapes s → in_task k s →
  ∃ acts, Forall (λ a, actor a = Worker k) acts ∧
    life_run (map LThread acts) (s, Joining) = Some (Undef UseAfterFree).
Proof.
  intros Hsh [stk Hk]. destruct s as [out q th acc del rej]. simpl in Hk.
  assert (∃ p stk', stk = p :: stk') as (p & stk' & ->).
  { destruct (Hsh _ _ Hk) as ([|x pre] & p & -> & _); by do 2 eexists. }
  destruct p as [v|v|v|v|v].
  - exists [AReserve (Worker k)]. split; [by repeat constructor|]. simpl. by rewrite Hk.
  - exists [ASubmit (Worker k) false; AComplete (Worker k)]. split; [by repeat constructor|].
    simpl. rewrite Hk. simpl. by rewrite lookup_insert_eq.
  - exists [AComplete (Worker k)]. split; [by repeat constructor|]. simpl. by rewrite Hk.
  - exists [ADeliver (Worker k); AComplete (Worker k)]. split; [by repeat constructor|].
    simpl. rewrite Hk. simpl. by rewrite lookup_insert_eq.
  - exists [AComplete (Worker k)]. split; [by repeat constructor|]. simpl. by rewrite Hk.
Qed.

Lemma idle_uses_nothing a s : threads s = ∅ → uses_drain_mu a s = false.
Proof. intros Hth. destruct a; simpl; rewrite ?Hth, ?lookup_empty; done. Qed.

(** Nothing in flight and nobody inside: no thread has anything to do. *)
Lemma idle_quiet a s :
  threads s = ∅ → queue s = [] → is_dispatch a = false → local_step capacity workers a s = None.
Proof.
  destruct s as [out q th acc del rej]. simpl. intros -> -> Ha.
  destruct a; simpl; rewrite ?lookup_empty, ?lookup_nil; try done.
Qed.
End destroy.

(** ** Theorems *)

Section theorems.
Context `{Externals}.

(** C27: the destructor of a local transport with work in progress.  From any reachable
    state in which a worker is inside a task, wherever it is in it, once the destructor
    has begun it returns in no execution without undefined behaviour, whatever the
    threads do and whether the pool drains or drops its queue; and that worker's own
    next steps lead to a use of the destroyed mutex or condition variable. *)
Theorem local_destroy_in_task capacity workers drains s k :
  local_reachable capacity workers s → in_task k s →
  (∀ acts s' l, life_run capacity workers drains (LDestroy :: acts) (s, Alive) = Some (Ret (s', l)) →
                l = Joining) ∧
  ∃ acts, Forall (λ a, actor a = Worker k) acts ∧
    life_run capacity workers drains (LDestroy :: map LThread acts) (s, Alive) = Some (Undef UseAfterFree).
Proof.
  intros Hr%shapes_reachable Hk. split.
  - intros acts s' l Hrun. simpl in Hrun. by apply (joining_stuck capacity workers drains k) in Hrun as [-> _].
  - by apply task_reaches_drain_mu.
Qed.

(** A flush makes it safe.  From a reachable state in which [flush] returns,
    no thread is inside the transport and nobody dispatches any more, the destructor
    runs to its end without undefined behaviour: the only run is the destructor's. *)
Theorem local_destroy_after_flush capacity workers drains s :
  is_u64 capacity → is_u64 (in_flight s) → local_reachable capacity workers s →
  flush_returns s = true → threads s = ∅ →
  life_run capacity workers drains [LDestroy; LJoined] (s, Alive) = Some (Ret (s, Gone)) ∧
  ∀ acts, Forall (λ a, match a with LThread a => is_dispatch a = false | _ => True end) acts →
    ∀ r, life_run capacity workers drains acts (s, Alive) = Some r → ∃ l, r = Ret (s, l).
Proof.
  intros Hc Hu Hr Hf Hth.
  destruct (local_inv_reachable _ _ _ Hc Hr) as [Hn _ _].
  assert (in_flight s = 0%Z) as H0.
  { rewrite u64_wrap_small in Hn by done. unfold flush_returns in Hf. apply Z.eqb_eq in Hf. congruence. }
  assert (queue s = []) as Hq.
  { apply length_zero_iff_nil. unfold in_flight in H0. lia. }
  assert (no_worker_runs s = true) as Hw.
  { unfold no_worker_runs. by rewrite Hth, map_to_list_empty. }
  split; [simpl; by rewrite Hw, Hq, orb_true_r|].
  intros acts Hacts. generalize Alive. induction Hacts as [|a acts Ha _ IH]; intros l r; simpl.
  { intros [= <-]. by exists l. }
  destruct a as [a| |], l; simpl; rewrite ?(idle_uses_nothing a s Hth), ?(idle_quiet capacity workers a s Hth Hq Ha); simpl; try done; try by apply IH.
  destruct (no_worker_runs s && _); [by apply IH|done].
Qed.
End theorems.

(** ** Witnesses *)

(** The worker is inside a dispatch of its listener, waiting for the slot that its own
    task holds. *)
Definition mid_task : LocalState :=
  MkLocalState 1 [] {[Worker 0 := [Waiting null_envelope; Delivering null_envelope]]} [null_envelope] [] [].

Lemma mid_task_reachable : local_reachable 1 1 mid_task.
Proof.
  exists [ADispatch (Producer 0) null_envelope; AReserve (Producer 0); ASubmit (Producer 0) true;
          AStart 0 0; ADispatch (Worker 0) null_envelope].
  reflexivity.
Qed.

Lemma local_destroy_in_task_witness :
  (∀ acts s' l, life_run 1 1 true (LDestroy :: acts) (mid_task, Alive) = Some (Ret (s', l)) → l = Joining) ∧
  ∃ acts, Forall (λ a, actor a = Worker 0) acts ∧
    life_run 1 1 true (LDestroy :: map LThread acts) (mid_task, Alive) = Some (Undef UseAfterFree).
Proof. apply (local_destroy_in_task 1 1 true mid_task 0 mid_task_reachable). by eexists. Defined.

Lemma local_destroy_after_flush_witness :
  life_run 2 1 false [LDestroy; LJoined] (all_served, Alive) = Some (Ret (all_served, Gone)) ∧
  ∀ acts, Forall (λ a, match a with LThread a => is_dispatch a = false | _ => True end) acts →
    ∀ r, life_run 2 1 false acts (all_served, Alive) = Some r → ∃ l, r = Ret (all_served, l).
Proof.
  apply local_destroy_after_flush.
  - by split.
  - by vm_compute.
  - exists ([ADispatch (Producer 0) null_envelope; AReserve (Producer 0); ASubmit (Producer 0) true] ++ serve).
    reflexivity.
  - reflexivity.
  - reflexivity.
Defined.
