(* ===== verification/Mount.v ===== *)
(** * Transports mounted on a bus ([include/conduit/bus.hpp], [local/transport.hpp])

    The bus calls its transports through the environment.  Here the code behind the
    calls is the development's own: [mount] answers a [CallDispatch] with the dispatch
    of a transport model, and leaves every other call to the rest of the environment;
    [mount_transport] answers the calls of all five virtual methods.

    The first theorem composes the bus with the in-process transport: publishing
    through a transport that delivers inline is publishing on a bus without any
    transport. *)

From S2P Require Import Prelude Exceptions External Flags Instances Envelope World WorldLogic WorldSafety Hosts Bus BusTraces BusSafety Transport LocalTransport.

(** A component with members of its own ([S]) and its own mutex, outside of the bus:
    its code run from the bus; and user code that does not see it. *)
Definition hosted `{Externals} {S V A : Type} (m : comp V S A) : comp ((S * bool) * V) BusState A := λ w,
  let '((s, l), u) := user w in
  let '(o, w', tr) := m (World (heap w) l (reads w) u s) in
  (o, World (heap w') (locked w) (reads w') ((st w', locked w'), user w') (st w), tr).

Definition beside `{Externals} {X V : Type} (h : host V BusState) : host (X * V) BusState :=
  Host (λ c w,
    let r := run h c (World (heap w) (locked w) (reads w) (user w).2 (st w)) in
    let w' := r_world r in
    Reply (r_out r) (r_env r) (World (heap w') (locked w') (reads w') ((user w).1, user w') (st w')))
    (time_at h) (scope_of h) (priority_of h).

Section mount.
Context `{Externals} {U : Type} (leaf : host U BusState).
Abbreviation comp := (comp U BusState).
Implicit Types w : world U BusState.

(** What the caller of a virtual method gets from the code behind it. *)
Definition reply_by (m : comp ()) (v : EventEnvelope) w : reply U BusState :=
  let '(o, w', _) := m w in
  Reply (match o with Ret _ => Ret true | Throw e => Throw e | Undef u => Undef u end) v w'.

Definition mount (mounted : obj → option (EventEnvelope → comp ())) : host U BusState :=
  Host (λ c w, match c with
               | CallDispatch t v =>
                   match mounted t with
                   | Some dispatch => reply_by (dispatch v) v w
                   | None => run leaf c w
                   end
               | _ => run leaf c w
               end) (time_at leaf) (scope_of leaf) (priority_of leaf).

(** A whole transport: each of its virtual methods is the answer to the call of it. *)
Definition mount_transport (mounted : obj → option (transport_ops (U := U) (S := BusState))) : host U BusState :=
  let answer t (m : transport_ops (U := U) (S := BusState) → comp ()) c v w :=
    match mounted t with Some ops => reply_by (m ops) v w | None => run leaf c w end in
  Host (λ c w, match c with
               | CallAttach t => answer t t_attach c null_envelope w
               | CallAttachWithSink t s => answer t (λ ops, t_attach_with_sink ops s) c null_envelope w
               | CallDispatch t v => answer t (λ ops, t_dispatch ops v) c v w
               | CallFlush t => answer t t_flush c null_envelope w
               | CallDetach t => answer t t_detach c null_envelope w
               | _ => run leaf c w
               end) (time_at leaf)
       (λ t, match mounted t with Some ops => t_scope ops | None => scope_of leaf t end) (priority_of leaf).

Lemma reply_by_call h c m v w : run h c w = reply_by m v w → (call_void h c w).1 = (m w).1.
Proof.
  intros Hrun. unfold call_void, call_fn, call_ref, mbind, comp_bind. rewrite Hrun.
  unfold reply_by. by destruct (m w) as [[[[]|e|u] w'] tr].
Qed.

(** For the bus, a mounted transport is the transport: the outcome and the world of a
    call are those of the method; what happens inside is not in the caller's trace. *)
Lemma mounted_ops mounted t ops w :
  mounted t = Some ops →
  let e := external_ops (mount_transport mounted) t in
  t_scope e = t_scope ops ∧ (t_attach e w).1 = (t_attach ops w).1 ∧
  (∀ s, (t_attach_with_sink e s w).1 = (t_attach_with_sink ops s w).1) ∧
  (∀ v, (t_dispatch e v w).1 = (t_dispatch ops v w).1) ∧ (t_flush e w).1 = (t_flush ops w).1 ∧
  (t_detach e w).1 = (noexcept (t_detach ops) w).1.
Proof.
  intros Hm e. unfold e. simpl. rewrite Hm. split_and!; [done|intros..|].
  1-4: eapply reply_by_call; simpl; by rewrite Hm.
  pose proof (reply_by_call (mount_transport mounted) (CallDetach t) (t_detach ops) null_envelope w) as Hd.
  simpl in Hd. rewrite Hm in Hd. specialize (Hd eq_refl). unfold noexcept.
  destruct (call_void _ _ w) as [[o w1] tr], (t_detach ops w) as [[o' w1'] tr']. simplify_eq/=. by destruct o'.
Qed.

(** [local::Transport::dispatch], its sinks reaching the bus; [enqueue] stands for the
    path over the pool. *)
Definition local_dispatch (cfg : LocalConfig) (enqueue : EventEnvelope → comp ()) (b : TransportBase)
    (v : EventEnvelope) : comp () :=
  c ← read_core v;
  if delivers_inline cfg c then deliver_inbound (InboundTarget0 := bus_target leaf) leaf b v else enqueue v.
End mount.

(** ** A bus that forgets its transports *)

Section blind.
Context `{Externals} {U : Type} (leaf : host U BusState) (t : obj).
Abbreviation comp := (comp U BusState).
Implicit Types w : world U BusState.

Definition erase w : world U BusState :=
  World (heap w) (locked w) (reads w) (user w) (set_transports [] (st w)).

(** User code that does not touch the transports of the bus. *)
Definition ignores_transports : Prop := ∀ c w,
  transports_ (st (r_world (run leaf c w))) = transports_ (st w) ∧
  run leaf c (erase w) =
    Reply (r_out (run leaf c w)) (r_env (run leaf c w)) (erase (r_world (run leaf c w))).

(** Traces: the call of the transport against what its dispatch does. *)
Inductive expands : list event → list event → Prop :=
  | expands_nil : expands [] []
  | expands_same e tr tr' : dispatch_of e = None → expands tr tr' → expands (e :: tr) (e :: tr')
  | expands_dispatch v n tr tr' :
      (∃ w o w', deliver_to_listeners leaf v w = (o, w', n)) → expands tr tr' →
      expands (EvCall (CallDispatch t v) :: tr) (n ++ tr').

Lemma expands_app tr1 tr1' tr2 tr2' : expands tr1 tr1' → expands tr2 tr2' → expands (tr1 ++ tr2) (tr1' ++ tr2').
Proof.
  induction 1 as [|e tr tr' He _ IH|v n tr tr' Hn _ IH]; intros H2; simpl; [done| |].
  - constructor; [done|by apply IH].
  - rewrite <- (assoc_L (++)). constructor; [done|by apply IH].
Qed.

(** [m] on the bus with the transport, [m'] on the bus without. *)
Definition sim {A} (m m' : comp A) : Prop := ∀ w o w' tr,
  transports_ (st w) = [t] → m w = (o, w', tr) → ¬ is_undef o →
  transports_ (st w') = [t] ∧ ∃ tr', m' (erase w) = (o, erase w', tr') ∧ expands tr tr'.

Lemma not_undef_cases {A} (o : outcome A) : ¬ is_undef o → (∃ a, o = Ret a) ∨ (∃ e, o = Throw e).
Proof. destruct o as [a|e|u]; [left; by eexists|right; by eexists|intros []; by eexists]. Qed.

Lemma sim_ret {A} (a : A) : sim (mret a) (mret a).
Proof. intros w o w' tr Hw [= <- <- <-] _. split; [done|]. exists []. split; [done|constructor]. Qed.

Lemma sim_lift {A} (o : outcome A) : sim (lift o) (lift o).
Proof. intros w o' w' tr Hw [= <- <- <-] _. split; [done|]. exists []. split; [done|constructor]. Qed.

Lemma sim_bind {A B} (m m' : comp A) (f f' : A → comp B) :
  sim m m' → (∀ a, sim (f a) (f' a)) → sim (m ≫= f) (m' ≫= f').
Proof.
  intros Hm Hf w o w' tr Hw Hrun Hdef.
  apply bind_inv in Hrun as [(a & w1 & tr1 & tr2 & H1 & H2 & ->)|[(e & H1 & ->)|(u & H1 & ->)]].
  - destruct (Hm w _ _ _ Hw H1) as (Hw1 & tr1' & Hrun1 & Hx1); [by intros [x [=]]|].
    destruct (Hf a w1 _ _ _ Hw1 H2 Hdef) as (Hw2 & tr2' & Hrun2 & Hx2).
    split; [done|]. exists (tr1' ++ tr2'). split; [|by apply expands_app].
    unfold mbind, comp_bind. by rewrite Hrun1, Hrun2.
  - destruct (Hm w _ _ _ Hw H1) as (Hw1 & tr1' & Hrun1 & Hx1); [by intros [x [=]]|].
    split; [done|]. exists tr1'. split; [|done]. unfold mbind, comp_bind. by rewrite Hrun1.
  - destruct Hdef. by eexists.
Qed.

Lemma sim_catch {A} (m m' : comp A) k k' :
  sim m m' → (∀ e, sim (k e) (k' e)) → sim (catch_all m k) (catch_all m' k').
Proof.
  intros Hm Hk w o w' tr Hw Hrun Hdef.
  apply catch_all_inv in Hrun as [[H1 Hne]|(e & w1 & tr1 & tr2 & H1 & H2 & ->)].
  - destruct (Hm w _ _ _ Hw H1 Hdef) as (Hw1 & tr1' & Hrun1 & Hx1).
    split; [done|]. exists tr1'. split; [|done]. unfold catch_all. rewrite Hrun1.
    destruct o as [a|e|u]; [done|by destruct (Hne e)|done].
  - destruct (Hm w _ _ _ Hw H1) as (Hw1 & tr1' & Hrun1 & Hx1); [by intros [x [=]]|].
    destruct (Hk e w1 _ _ _ Hw1 H2 Hdef) as (Hw2 & tr2' & Hrun2 & Hx2).
    split; [done|]. exists (tr1' ++ tr2'). split; [|by apply expands_app].
    unfold catch_all. by rewrite Hrun1, Hrun2.
Qed.

Lemma sim_noexcept {A} (m m' : comp A) : sim m m' → sim (noexcept m) (noexcept m').
Proof.
  intros Hm w o w' tr Hw Hrun Hdef. unfold noexcept in Hrun.
  destruct (m w) as [[o1 w1] tr1] eqn:H1. destruct o1 as [a|e|u]; simplify_eq.
  - destruct (Hm w _ _ _ Hw H1) as (Hw1 & tr1' & Hrun1 & Hx1); [done|].
    split; [done|]. exists tr1'. split; [|done]. unfold noexcept. by rewrite Hrun1.
  - destruct Hdef. by eexists.
  - destruct Hdef. by eexists.
Qed.

Lemma sim_lock {A} (m m' : comp A) : sim m m' → sim (with_lock m) (with_lock m').
Proof.
  intros Hm w o w' tr Hw Hrun Hdef. unfold with_lock in Hrun.
  destruct (locked w) eqn:Hl; [simplify_eq; destruct Hdef; by eexists|].
  destruct (m (set_locked true w)) as [[o1 w1] tr1] eqn:H1. simplify_eq.
  destruct (Hm (set_locked true w) _ _ _ Hw H1 Hdef) as (Hw1 & tr1' & Hrun1 & Hx1).
  split; [done|]. exists tr1'. split; [|done]. unfold with_lock. simpl. rewrite Hl.
  change (set_locked true (erase w)) with (erase (set_locked true w)). by rewrite Hrun1.
Qed.

Lemma sim_for_each {A} (l : list A) body body' :
  (∀ x, sim (body x) (body' x)) → sim (for_each l body) (for_each l body').
Proof. intros Hb. induction l as [|x l IH]; simpl; [apply sim_ret|]. by apply sim_bind. Qed.

(** Steps that see the world but not the transports. *)
Lemma sim_step {A} (m : comp A) :
  (∀ w o w' tr, m w = (o, w', tr) → ¬ is_undef o →
     transports_ (st w') = transports_ (st w) ∧ m (erase w) = (o, erase w', tr) ∧
     Forall (λ e, dispatch_of e = None) tr) → sim m m.
Proof.
  intros Hm w o w' tr Hw Hrun Hdef. destruct (Hm w o w' tr Hrun Hdef) as (Ht & Hrun' & Htr).
  split; [congruence|]. exists tr. split; [done|]. clear Hrun Hrun'. induction Htr; by constructor.
Qed.

Lemma sim_gets {A} (f : BusState → A) : (∀ s, f (set_transports [] s) = f s) → sim (gets f) (gets f).
Proof. intros Hf. apply sim_step. intros w o w' tr [= <- <- <-] _. unfold gets. simpl. by rewrite Hf. Qed.

Lemma sim_emit m : sim (emit m) (emit m).
Proof. apply sim_step. intros w o w' tr [= <- <- <-] _. split_and!; [done|done|by repeat constructor]. Qed.

Lemma sim_read_core v : sim (read_core v) (read_core v).
Proof. apply sim_step. intros w o w' tr [= <- <- <-] _. by split_and!. Qed.

Lemma sim_name v : sim (name_of v) (name_of v).
Proof. apply sim_step. intros w o w' tr [= <- <- <-] _. by split_and!. Qed.

Lemma sim_payload T v : sim (payload_of T v) (payload_of T v).
Proof. apply sim_step. intros w o w' tr [= <- <- <-] _. by split_and!. Qed.

Lemma sim_write_core v f : sim (write_core v f) (write_core v f).
Proof.
  apply sim_step. intros w o w' tr Hrun Hdef. unfold write_core in *. simpl.
  destruct (core_of (heap w) v), (value v); simplify_eq; try (destruct Hdef; by eexists). by split_and!.
Qed.

Lemma sim_call_ref c :
  ignores_transports → dispatch_of (EvCall c) = None → sim (call_ref leaf c) (call_ref leaf c).
Proof.
  intros Hi Hc. apply sim_step. intros w o w' tr [= <- <- <-] Hdef. destruct (Hi c w) as [Ht Hr].
  split; [done|]. split; [|by repeat constructor]. unfold call_ref. by rewrite Hr.
Qed.
End blind.

(** ** The fan-out never throws *)

Section nothrow.
Context `{Externals} {U : Type} (h : host U BusState).
Abbreviation comp := (comp U BusState).

Definition nothrow {A} (m : comp A) : Prop := ∀ w e w' tr, m w ≠ (Throw e, w', tr).

Lemma nothrow_bind {A B} (m : comp A) (f : A → comp B) :
  nothrow m → (∀ a, nothrow (f a)) → nothrow (m ≫= f).
Proof.
  intros Hm Hf w e w' tr [(a & w1 & tr1 & tr2 & _ & H2 & _)|[(e' & H1 & _)|(u & _ & [=])]]%bind_inv.
  - by eapply Hf.
  - by eapply Hm.
Qed.

Lemma nothrow_catch {A} (m : comp A) k : (∀ e, nothrow (k e)) → nothrow (catch_all m k).
Proof.
  intros Hk w e w' tr [[_ Hne]|(e' & w1 & tr1 & tr2 & _ & H2 & _)]%catch_all_inv; [by destruct (Hne e)|by eapply Hk].
Qed.

Lemma nothrow_noexcept {A} (m : comp A) : nothrow (noexcept m).
Proof. intros w e w' tr. unfold noexcept. by destruct (m w) as [[[] ?] ?]. Qed.

Lemma nothrow_for_each {A} (l : list A) body : (∀ x, nothrow (body x)) → nothrow (for_each l body).
Proof. intros Hb. induction l as [|x l IH]; simpl; [by intros w e w' tr|]. by apply nothrow_bind. Qed.

Lemma nothrow_deliver v : nothrow (deliver_to_listeners h v).
Proof.
  unfold deliver_to_listeners. apply nothrow_bind; [|intros l; apply nothrow_bind; [|intros n]].
  - intros w e w' tr. unfold with_lock. by destruct (locked w).
  - intros w e w' tr [=]. unfold env_name, core_of in *. by repeat case_match.
  - apply nothrow_for_each. intros x. unfold deliver_one. destruct (entry_matches n x); [|by intros w e w' tr].
    apply nothrow_bind; [by intros w e w' tr|intros _]. apply nothrow_catch. intros ep.
    apply nothrow_bind; [by intros w e w' tr|intros _]. apply nothrow_noexcept.
Qed.
End nothrow.

(** ** Publishing through a transport that delivers inline *)

Section transparent.
Context `{Externals} {U : Type} (leaf : host U BusState) (t : obj) (cfg : LocalConfig).
Context (enqueue : EventEnvelope → comp U BusState ()) (mounted : obj → option (EventEnvelope → comp U BusState ())).
Context (Hmode : mode_ cfg = Direct) (Hleaf : ignores_transports leaf) (Hscope : scope_of leaf t = Local).
Context (Hmounted : mounted t = Some (local_dispatch leaf cfg enqueue (base_attach detached_base))).
Abbreviation h := (mount leaf mounted).
Abbreviation sim := (sim leaf t).

Lemma sim_mounted_ref c : dispatch_of (EvCall c) = None → sim (call_ref h c) (call_ref leaf c).
Proof. intros Hc. pose proof (sim_call_ref leaf t c Hleaf Hc) as Hs. by destruct c. Qed.

Create HintDb transparent.
#[local] Hint Resolve sim_ret sim_lift sim_emit sim_read_core sim_name sim_payload sim_write_core sim_mounted_ref : transparent.
#[local] Hint Extern 1 (dispatch_of _ = None) => reflexivity : transparent.
#[local] Hint Extern 1 (Mount.sim _ _ (gets _) (gets _)) => by apply sim_gets : transparent.

Ltac sim_step :=
  lazymatch goal with
  | |- Mount.sim _ _ (mbind _ _) (mbind _ _) => apply sim_bind; [|intros ?]
  | |- Mount.sim _ _ (catch_all _ _) (catch_all _ _) => apply sim_catch; [|intros ?]
  | |- Mount.sim _ _ (noexcept _) (noexcept _) => apply sim_noexcept
  | |- Mount.sim _ _ (with_lock _) (with_lock _) => apply sim_lock
  | |- Mount.sim _ _ (for_each _ _) (for_each _ _) => apply sim_for_each; intros ?
  | |- Mount.sim _ _ (if ?b then _ else _) _ => destruct b
  | |- Mount.sim _ _ (match ?x with _ => _ end) _ => destruct x
  | |- Mount.sim _ _ _ _ => solve [eauto 3 with transparent]
  end.
Ltac sim_rules := repeat sim_step.

Lemma sim_call_fn c : dispatch_of (EvCall c) = None → sim (call_fn h c) (call_fn leaf c).
Proof. intros Hc. unfold call_fn. sim_rules. Qed.

Lemma sim_call_void c : dispatch_of (EvCall c) = None → sim (call_void h c) (call_void leaf c).
Proof. intros Hc. unfold call_void. apply sim_bind; [by apply sim_call_fn|]. intros b. apply sim_ret. Qed.
#[local] Hint Resolve sim_call_fn sim_call_void : transparent.

Lemma sim_on_error_loop snap v ep : sim (on_error_loop h snap v ep) (on_error_loop leaf snap v ep).
Proof. revert v. induction snap as [|m snap IH]; intros v; cbn [on_error_loop]; sim_rules. Qed.
#[local] Hint Resolve sim_on_error_loop : transparent.

Lemma sim_run_on_error v ep : sim (run_on_error h v ep) (run_on_error leaf v ep).
Proof. unfold run_on_error. sim_rules. Qed.
#[local] Hint Resolve sim_run_on_error : transparent.

Lemma sim_own_on_error m v ep : sim (own_on_error h m v ep) (own_on_error leaf m v ep).
Proof. unfold own_on_error. sim_rules. Qed.
#[local] Hint Resolve sim_own_on_error : transparent.

Lemma sim_run_before mws v : sim (run_before h mws v) (run_before leaf mws v).
Proof. revert v. induction mws as [|m mws IH]; intros v; cbn [run_before]; sim_rules. Qed.

Lemma sim_run_after mws v : sim (run_after h mws v) (run_after leaf mws v).
Proof. revert v. induction mws as [|m mws IH]; intros v; cbn [run_after]; sim_rules. Qed.
#[local] Hint Resolve sim_run_before sim_run_after : transparent.

Lemma sim_run_handler k v : sim (run_handler leaf k v) (run_handler leaf k v).
Proof.
  assert (∀ c, dispatch_of (EvCall c) = None → sim (call_void leaf c) (call_void leaf c)) as Hc.
  { intros c Hc. unfold call_void, call_fn. sim_rules; by apply sim_call_ref. }
  destruct k as [T f|f|T l]; unfold run_handler; sim_rules; by apply Hc.
Qed.

Lemma sim_leaf_on_error v ep : sim (run_on_error leaf v ep) (run_on_error leaf v ep).
Proof.
  unfold run_on_error. apply sim_noexcept, sim_bind; [sim_rules|]. intros l.
  revert v. induction l as [|m l IH]; intros v; cbn [on_error_loop]; sim_rules. by apply sim_call_ref.
Qed.

Lemma sim_deliver v : sim (deliver_to_listeners leaf v) (deliver_to_listeners leaf v).
Proof.
  unfold deliver_to_listeners, deliver_one. sim_rules. apply sim_run_handler.
Qed.

Lemma sim_now : sim (now h) (now leaf).
Proof.
  intros w o w' tr Hw [= <- <- <-] _. split; [done|]. exists []. split; [done|constructor].
Qed.
#[local] Hint Resolve sim_now : transparent.

Lemma local_dispatch_run v w :
  local_dispatch leaf cfg enqueue (base_attach detached_base) v w =
  match core_of (heap w) v with
  | Ret _ => deliver_to_listeners leaf v w
  | Throw e => (Throw e, w, [])
  | Undef u => (Undef u, w, [])
  end.
Proof.
  unfold local_dispatch, mbind, comp_bind, read_core. destruct (core_of (heap w) v) as [c| |]; try done.
  unfold delivers_inline. rewrite Hmode, bool_decide_eq_true_2 by done. cbn [orb].
  unfold deliver_inbound, base_attach, base_attach_with_sink. cbn [inbound_sink_ run_sink].
  unfold bus_target, deliver_to_bus.
  by destruct (deliver_to_listeners leaf v w) as [[? ?] ?].
Qed.

Lemma call_dispatch_run v w :
  call_void h (CallDispatch t v) w =
  let '(o, w', _) := local_dispatch leaf cfg enqueue (base_attach detached_base) v w in
  (o, w', [EvCall (CallDispatch t v)]).
Proof.
  unfold call_void, call_fn, call_ref, mbind, comp_bind. simpl. rewrite Hmounted. unfold reply_by.
  by destruct (local_dispatch leaf cfg enqueue _ v w) as [[[[]|e|u] w'] tr].
Qed.

(** The one step in which the two buses differ. *)
Lemma sim_route lo ro v : sim (route h lo ro [t] v) (route leaf lo ro [] v).
Proof.
  intros w o w' tr Hw Hrun Hdef. unfold route in *. cbn [for_each] in *.
  unfold dispatch_one in Hrun. cbn [mount scope_of] in Hrun. rewrite Hscope in Hrun.
  assert (admissible lo ro Local = negb ro) as Had by (unfold admissible; by destruct lo, ro).
  rewrite Had in Hrun. rewrite bool_decide_eq_true_2 by done. rewrite andb_true_l.
  rewrite bool_decide_eq_false_2, andb_false_l in Hrun by done. destruct ro; cbn [negb] in *.
  { injection Hrun as <- <- <-. split; [done|]. exists []. split; [done|constructor]. }
  unfold mbind, comp_bind, catch_all, mret, comp_ret in *. rewrite call_dispatch_run, local_dispatch_run in Hrun.
  destruct (core_of (heap w) v) as [c|e|u] eqn:Hc; [|by unfold core_of in Hc; repeat case_match|].
  2:{ simplify_eq. destruct Hdef. by eexists. }
  destruct (deliver_to_listeners leaf v w) as [[[[]|e|u] w1] n] eqn:Hd; simplify_eq.
  - destruct (sim_deliver v w _ _ _ Hw Hd) as (Hw1 & n' & Hd' & _); [done|].
    split; [done|]. exists n'. rewrite Hd'. split; [done|].
    rewrite <- (app_nil_r n'). apply expands_dispatch; [by eexists _, _, _|constructor].
  - by apply nothrow_deliver in Hd.
  - destruct Hdef. by eexists.
Qed.

Lemma sim_snapshot {A} (f f' : list obj → comp U BusState A) :
  sim (f [t]) (f' []) → sim (with_lock (gets transports_) ≫= f) (with_lock (gets transports_) ≫= f').
Proof.
  intros Hf w o w' tr Hw Hrun Hdef. unfold mbind, comp_bind, with_lock in *. simpl in *.
  destruct (locked w) eqn:Hl; simpl in *; [simplify_eq; destruct Hdef; by eexists|].
  rewrite Hw in Hrun. set (w0 := set_locked false _) in Hrun.
  assert (w0 = w) as -> by (unfold w0; destruct w; simpl in *; by subst).
  destruct (f [t] w) as [[o1 w1] tr1] eqn:H1. simplify_eq.
  destruct (Hf w _ _ _ Hw H1 Hdef) as (Hw1 & tr' & Hrun' & Hx). split; [done|]. exists tr'. split; [|done].
  set (w2 := set_locked false _).
  assert (w2 = erase w) as -> by (unfold w2, erase; destruct w; simpl in *; by subst).
  by rewrite Hrun'.
Qed.

Lemma sim_publish v : sim (publish_impl h v) (publish_impl leaf v).
Proof.
  unfold publish_impl. cbv zeta.
  do 7 (apply sim_bind; [sim_rules|intros ?]).
  apply sim_bind; [sim_rules|intros before]. apply sim_snapshot.
  apply sim_bind; [sim_rules|intros proceed].
  apply sim_bind; [destruct proceed; [apply sim_route|sim_rules]|intros _].
  sim_rules.
Qed.
End transparent.

(** ** Theorem *)

(** C7: the in-process transport is the bus's own fan-out.  On a bus whose only
    transport delivers inline, publishing ends with the same outcome and leaves the
    same heap, clock, members and outside world as on a bus without any transport,
    and the two runs make the same calls and metric updates, where the call of the
    transport stands for the fan-out that its dispatch is. *)
Theorem local_transport_transparent `{Externals} {U : Type} (leaf : host U BusState) t cfg enqueue mounted
    v (w w' : world U BusState) o tr :
  mode_ cfg = Direct → ignores_transports leaf → scope_of leaf t = Local →
  mounted t = Some (local_dispatch leaf cfg enqueue (base_attach detached_base)) →
  transports_ (st w) = [t] →
  publish_impl (mount leaf mounted) v w = (o, w', tr) → ¬ is_undef o →
  transports_ (st w') = [t] ∧
  ∃ tr', publish_impl leaf v (erase w) = (o, erase w', tr') ∧ expands leaf t tr tr'.
Proof.
  intros Hmode Hleaf Hscope Hmounted Hw Hrun Hdef.
  by apply (sim_publish leaf t cfg enqueue mounted Hmode Hleaf Hscope Hmounted v w o w' tr).
Qed.

(** ** Witness: one local transport, two listeners of which one throws, two middlewares *)

Definition direct_local : LocalConfig := construct "pool" Direct (MkPoolConfig 1 1 0 "").
Definition mounted_bus : BusState := set_transports [2%positive] busy_bus.
Definition mounted_world : world () BusState := world_with (order_core []) mounted_bus.
Definition only_local (t : obj) : option (EventEnvelope → comp () BusState ()) :=
  if (t =? 2)%positive then
    Some (local_dispatch faulty_host direct_local (λ _, mret ()) (base_attach detached_base))
  else None.

Abbreviation mounted_run := (publish_impl (mount faulty_host only_local) (envelope_at 1%positive)).

Lemma faulty_ignores_transports : ignores_transports (U := ()) faulty_host.
Proof. by intros c w. Qed.

Lemma mounted_run_completed :
  mounted_run mounted_world = (Ret (), world_after mounted_run mounted_world, trace_of mounted_run mounted_world).
Proof. apply completed_run. vm_compute. reflexivity. Qed.

Lemma local_transport_transparent_witness :
  transports_ (st (world_after mounted_run mounted_world)) = [2%positive] ∧
  ∃ tr', publish_impl faulty_host (envelope_at 1%positive) (erase mounted_world) =
           (Ret (), erase (world_after mounted_run mounted_world), tr') ∧
         expands faulty_host 2%positive (trace_of mounted_run mounted_world) tr'.
Proof.
  apply (local_transport_transparent faulty_host 2%positive direct_local (λ _, mret ()) only_local
    (envelope_at 1%positive) mounted_world (world_after mounted_run mounted_world) (Ret ())
    (trace_of mounted_run mounted_world)).
  - reflexivity.
  - apply faulty_ignores_transports.
  - reflexivity.
  - reflexivity.
  - reflexivity.
  - exact mounted_run_completed.
  - by intros [u [=]].
Defined.
