(* ===== verification/Adapter.v ===== *)
(** * What the broker adapters share ([transports/*/src/transport.cpp])

    The AMQP, MQTT, NATS, Redis and ZeroMQ adapters encode outgoing envelopes and
    decode incoming ones with the same code.  It is modelled once, on the members
    that all of them have; each adapter's own file adds the library it drives.
    The libraries are parameters: functions on the library's state [U]. *)

From S2P Require Import Prelude Exceptions External Flags Instances Envelope EnvelopeWire Serialization.
From S2P Require Import World WorldLogic Bus Transport.

(** ** Data *)

(** [enum class Format] *)
Inductive Format := Json | Cbor.

#[export] Instance Format_eq_dec : EqDecision Format.
Proof. solve_decision. Defined.

Record TlsConfig := MkTls {
  ca_file : string;
  cert_file : option string;
  key_file : option string;
  verify_peer : bool;
}.

(** The shared members of the [Impl]s: [registry] (a pointer), [sink] and
    [error_sink] (set or empty: both only ever hold the one closure of [attach]),
    and the members of the base class. *)
Record Impl := MkImpl {
  registry : option obj;
  sink : bool;
  error_sink : bool;
  base : TransportBase;
}.

Definition new_Impl (reg : option obj) : Impl := MkImpl reg false false detached_base.

(** The head of every [attach_with_sink]; [bus_registry] is [bus.registry()]. *)
Definition install_sinks (bus_registry : obj) (s : InboundSink) (i : Impl) : Impl :=
  MkImpl (Some (default bus_registry (registry i))) true true (base_attach_with_sink s (base i)).

(** [impl_->sink = nullptr] *)
Definition clear_sink (i : Impl) : Impl := MkImpl (registry i) false (error_sink i) (base i).

(** The bus, as an attached adapter uses it: the target of the inbound sinks, the
    registries behind pointers (the bus's own changes as types are registered),
    and [report_transport_error]. *)
Class BusLink `{Externals} (U S : Type) := {
  link_target :: InboundTarget U S;
  deref_registry : obj → comp U S EventRegistry;
  link_report : string → exn → comp U S ();
}.

(** threadman's [ManagedThread]: [std::make_unique<ManagedThread>(name, body)] and
    its methods. *)
Class ThreadLib (U : Type) := {
  thread_new : string → U → outcome positive * U;
  thread_request_stop : positive → U → U;
  thread_joinable : positive → U → bool;
  thread_join : positive → U → outcome () * U;
  thread_delete : positive → U → U;
}.

(** Seconds to milliseconds, in [std::int64_t]: [static_cast<int64_t>(s.count()) * 1000]
    and [duration_cast<milliseconds>]. *)
Definition milliseconds (seconds : Z) : outcome Z :=
  if in_i64 (seconds * 1000) then Ret (seconds * 1000)%Z else Undef SignedOverflow.

(** What a C++ constructor or factory of a library does: a new object, or an
    exception and nothing created. *)
Definition builds {O U : Type} `{Countable O} (live : U → gset O) (mk : positive → O) (u : U)
    (r : outcome positive * U) : Prop :=
  (∃ x, r.1 = Ret x ∧ mk x ∉ live u ∧ live r.2 = {[mk x]} ∪ live u) ∨
  (∃ e, r.1 = Throw e ∧ catches std_exception (exn_type e) = true ∧ live r.2 = live u).

(** Any other throwing call: it creates and destroys nothing. *)
Definition uses {O U A : Type} `{Countable O} (live : U → gset O) (u : U) (r : outcome A * U) : Prop :=
  live r.2 = live u ∧ ¬ is_undef r.1 ∧ throws_only (λ c, catches std_exception c = true) r.1.

Section adapter.
Context `{Externals} {U S : Type}.

(** ** Calls to a library *)

Definition lib {A} (f : U → outcome A * U) : comp U S A := λ w,
  let '(o, u) := f (user w) in (o, World (heap w) (locked w) (reads w) u (st w), []).

(** A C function: it returns a value. *)
Definition lib_c {A} (f : U → A * U) : comp U S A := lib (λ u, let '(a, u) := f u in (Ret a, u)).
Definition lib_void (f : U → U) : comp U S () := lib_c (λ u, ((), f u)).

(** [catch (const C& e)]: other exceptions go on. *)
Definition catch_class {A} (c : exn_class) (m : comp U S A) (k : exn → comp U S A) : comp U S A :=
  catch_all m (λ e, if catches c (exn_type e) then k e else lift (Throw e)).

(** The unwinding of a scope that owns something: run [cleanup] and rethrow. *)
Definition on_unwind {A} (m : comp U S A) (cleanup : comp U S ()) : comp U S A :=
  catch_all m (λ e, cleanup;; lift (Throw e)).

(** [member.reset(p)] and [member = std::make_unique...]: the pointer is replaced,
    then the old object destroyed. *)
Definition reset_member (get : S → option positive) (set : option positive → S → S)
    (delete : positive → U → U) (p : option positive) : comp U S () :=
  old ← gets get;
  modify (set p);;
  match old with
  | Some o => lib_void (delete o)
  | None => mret ()
  end.

(** [try { if (t->joinable()) t->join(); } catch (...) {}] *)
Definition join_quietly `{!ThreadLib U} (t : positive) : comp U S () :=
  catch_all
    (j ← lib_c (λ u, (thread_joinable t u, u));
     if (j : bool) then lib (thread_join t) else mret ())
    (λ _, mret ()).

(** ** Outbound *)

(** The payload of [dispatch]. *)
Definition encode_payload (fmt : Format) (hp : gmap loc EnvelopeCore) (v : EventEnvelope)
    : outcome (list Z) :=
  match fmt with
  | Json => j ← env_to_json hp v; Ret (j_dump j)
  | Cbor => j ← env_to_json hp v; Ret (j_to_cbor j)
  end.

Definition payload_bytes (fmt : Format) (v : EventEnvelope) : comp U S (list Z) :=
  w ← get_world; lift (encode_payload fmt (heap w) v).

(** [v.flags().contains<flags::RequireAck>()] *)
Definition requires_ack (v : EventEnvelope) : comp U S bool :=
  c ← read_core v; mret (contains flags.RequireAck c).

(** ** Inbound *)

Definition decode_payload (fmt : Format) (r : EventRegistry) (bytes : list Z)
    : outcome (display_info * EnvelopeCore) :=
  match fmt with
  | Cbor => decode_cbor r bytes
  | Json => j ← j_parse bytes; decode_json r j
  end.

(** The envelope of the decoded core: [make_shared], which takes a new location. *)
Definition allocate (d : display_info) (c : EnvelopeCore) : comp U S EventEnvelope := λ w,
  let l := fresh (dom (heap w)) in
  (Ret (MkEnvelope (Some l) d), set_heap (<[l := c]> (heap w)) w, []).

Context `{!BusLink U S} (h : host U S).

(** The [try] block and its handler: decode, stamp [received_at], call the sink. *)
Definition receive (name : string) (fmt : Format) (i : Impl) (r : obj) (bytes : list Z) : comp U S () :=
  catch_all
    (reg ← deref_registry r;
     decoded ← lift (decode_payload fmt reg bytes);
     t ← now h;
     v ← allocate decoded.1 (set_timestamps (set_received_at t (timestamps decoded.2)) decoded.2);
     deliver_inbound h (base i) v)
    (λ ep, if error_sink i && bus_ (base i) then link_report name ep else mret ()).

Definition deliver_payload (name : string) (fmt : Format) (i : Impl) (bytes : list Z) : comp U S () :=
  match registry i with
  | Some r => if sink i then receive name fmt i r bytes else mret ()
  | None => mret ()
  end.
End adapter.

(** The adapter on a bus: [own] is the address of the bus's registry, [others]
    the registries that applications share with their adapters. *)
Definition bus_link `{Externals} {U} (h : host U BusState) (own : obj) (others : obj → EventRegistry) :
    BusLink U BusState := {|
  link_target := bus_target h;
  deref_registry r := gets (λ s, if decide (r = own) then bus_registry s else others r);
  link_report := report_transport_error h;
|}.
