(* ===== verification/Resources.v ===== *)
(** * Postconditions and ownership for the broker adapters

    [post] is the strongest-postcondition style triple of an adapter's operation,
    with a rule per construct.  [owns] says which of a library's live objects
    belong to the members of an adapter and which to its local variables; its
    rules follow the constructions, resets and unwindings of the C++ code. *)

From S2P Require Import Prelude Exceptions External Flags Instances Envelope EnvelopeWire Serialization.
From S2P Require Import World WorldLogic WorldSafety Hosts Bus Transport Adapter.

(** ** Postconditions of adapter operations

    [post m Q w]: the outcome and world that [m] gives from [w] satisfy [Q]. *)
Section post.
Context `{Externals} {U S : Type}.
Implicit Types w : world U S.

Definition post {A} (m : comp U S A) (Q : outcome A → world U S → Prop) w : Prop :=
  Q (m w).1.1 (m w).1.2.

Lemma post_mono {A} (m : comp U S A) (P Q : outcome A → world U S → Prop) w :
  post m P w → (∀ o w', P o w' → Q o w') → post m Q w.
Proof. unfold post. auto. Qed.

Lemma post_ret {A} (a : A) (Q : outcome A → world U S → Prop) w : Q (Ret a) w → post (mret a) Q w.
Proof. done. Qed.

Lemma post_bind {A B} (m : comp U S A) (f : A → comp U S B) Q w :
  post m (λ o w', match o with
                  | Ret a => post (f a) Q w'
                  | Throw e => Q (Throw e) w'
                  | Undef u => Q (Undef u) w'
                  end) w →
  post (m ≫= f) Q w.
Proof.
  unfold post, mbind, comp_bind. destruct (m w) as [[[a|e|u] w1] tr1]; simpl; [|done..].
  by destruct (f a w1) as [[? ?] ?].
Qed.

Lemma post_lift {A} (o : outcome A) (Q : outcome A → world U S → Prop) w : Q o w → post (lift o) Q w.
Proof. done. Qed.

Lemma post_gets {A} (f : S → A) (Q : outcome A → world U S → Prop) w :
  Q (Ret (f (st w))) w → post (gets f) Q w.
Proof. done. Qed.

Lemma post_modify (f : S → S) (Q : outcome () → world U S → Prop) w :
  Q (Ret ()) (World (heap w) (locked w) (reads w) (user w) (f (st w))) → post (modify f) Q w.
Proof. done. Qed.

Lemma post_lib {A} (f : U → outcome A * U) (Q : outcome A → world U S → Prop) w :
  Q (f (user w)).1 (World (heap w) (locked w) (reads w) (f (user w)).2 (st w)) → post (lib f) Q w.
Proof. unfold post, lib. by destruct (f (user w)). Qed.

Lemma post_lib_c {A} (f : U → A * U) (Q : outcome A → world U S → Prop) w :
  Q (Ret (f (user w)).1) (World (heap w) (locked w) (reads w) (f (user w)).2 (st w)) →
  post (lib_c f) Q w.
Proof. unfold post, lib_c, lib. by destruct (f (user w)). Qed.

Lemma post_lib_void (f : U → U) (Q : outcome () → world U S → Prop) w :
  Q (Ret ()) (World (heap w) (locked w) (reads w) (f (user w)) (st w)) → post (lib_void f) Q w.
Proof. done. Qed.

Lemma post_payload_bytes fmt v (Q : outcome (list Z) → world U S → Prop) w :
  Q (encode_payload fmt (heap w) v) w → post (payload_bytes fmt v) Q w.
Proof. done. Qed.

Lemma post_requires_ack v (Q : outcome bool → world U S → Prop) w :
  Q (contains flags.RequireAck <$> core_of (heap w) v) w → post (requires_ack v) Q w.
Proof.
  unfold requires_ack. intros HQ. apply post_bind. unfold post at 1, read_core. simpl.
  by destruct (core_of (heap w) v).
Qed.

Lemma post_catch_all {A} (m : comp U S A) k (Q : outcome A → world U S → Prop) w :
  post m (λ o w', match o with
                  | Throw e => post (k e) Q w'
                  | _ => Q o w'
                  end) w →
  post (catch_all m k) Q w.
Proof.
  unfold post, catch_all. destruct (m w) as [[[a|e|u] w1] tr1]; simpl; [done| |done].
  by destruct (k e w1) as [[? ?] ?].
Qed.

Lemma post_noexcept {A} (m : comp U S A) (Q : outcome A → world U S → Prop) w :
  post m (λ o w', match o with Throw _ => Q (Undef Terminate) w' | _ => Q o w' end) w →
  post (noexcept m) Q w.
Proof. unfold post, noexcept. by destruct (m w) as [[[a|e|u] w1] tr1]. Qed.
End post.

(** Walk through an operation with these rules. *)
Ltac post_step :=
  lazymatch goal with
  | |- post (mret _) _ _ => apply post_ret
  | |- post (mbind _ _) _ _ => apply post_bind
  | |- post (lift _) _ _ => apply post_lift
  | |- post (gets _) _ _ => apply post_gets
  | |- post (modify _) _ _ => apply post_modify
  | |- post (lib_c _) _ _ => apply post_lib_c
  | |- post (lib_void _) _ _ => apply post_lib_void
  | |- post (lib _) _ _ => apply post_lib
  | |- post (payload_bytes _ _) _ _ => apply post_payload_bytes
  | |- post (requires_ack _) _ _ => apply post_requires_ack
  | |- post (catch_all _ _) _ _ => apply post_catch_all
  | |- post (noexcept _) _ _ => apply post_noexcept
  end; cbn beta iota.
Ltac post_rules := repeat post_step.


(** ** Ownership *)

Section ownership.
Context `{Externals} {U S O : Type} `{Countable O} (live : U → gset O) (owned : S → gset O).
Implicit Types w : world U S.

(** The live objects are [L], which belongs to others, [X], which belongs to local
    variables, and [owned], which belongs to the members; each is of one of them. *)
Definition owns (L X : gset O) w : Prop :=
  live (user w) = L ∪ X ∪ owned (st w) ∧ L ## X ∧ L ## owned (st w) ∧ X ## owned (st w).

Definition is_std (e : exn) : Prop := catches std_exception (exn_type e) = true.

(** A construction into a local variable. *)
Lemma post_builds L X (f : U → outcome positive * U) mk (Q : outcome positive → world U S → Prop) w :
  owns L X w → builds live mk (user w) (f (user w)) →
  (∀ x w', owns L ({[mk x]} ∪ X) w' → st w' = st w → heap w' = heap w → Q (Ret x) w') →
  (∀ e w', is_std e → owns L X w' → st w' = st w → Q (Throw e) w') →
  post (lib f) Q w.
Proof.
  intros (Hl & Hd1 & Hd2 & Hd3) Hb Hret Hthrow. apply post_lib.
  unfold builds in Hb. destruct (f (user w)) as [o u]. simpl in *.
  destruct Hb as [(x & -> & Hx & Hl')|(e & -> & He & Hl')]; simpl in *.
  - apply Hret; [|done|done]. unfold owns. simpl. rewrite Hl', Hl. rewrite Hl in Hx.
    split_and!; set_solver.
  - apply Hthrow; [done| |done]. unfold owns. simpl. by rewrite Hl', Hl.
Qed.

(** A call that neither creates nor destroys. *)
Lemma post_uses {A} L X (f : U → outcome A * U) (Q : outcome A → world U S → Prop) w :
  owns L X w → uses live (user w) (f (user w)) →
  (∀ a w', owns L X w' → st w' = st w → heap w' = heap w → Q (Ret a) w') →
  (∀ e w', is_std e → owns L X w' → st w' = st w → Q (Throw e) w') →
  post (lib f) Q w.
Proof.
  intros (Hl & Hd) (Hl' & Hu & Ht) Hret Hthrow. apply post_lib.
  destruct (f (user w)) as [o u]. simpl in *.
  assert (owns L X (World (heap w) (locked w) (reads w) u (st w))) as Hw.
  { unfold owns. simpl. by rewrite Hl', Hl. }
  destruct o as [a|e|ub]; [by apply Hret|apply Hthrow; [by apply Ht|done|done]|by destruct Hu; eexists].
Qed.

Lemma post_uses_c {A} L X (f : U → A * U) (Q : outcome A → world U S → Prop) w :
  owns L X w → live (f (user w)).2 = live (user w) →
  (∀ a w', owns L X w' → st w' = st w → heap w' = heap w → Q (Ret a) w') → post (lib_c f) Q w.
Proof.
  intros (Hl & Hd) Hl' Hret. apply post_lib_c, Hret; [|done|done]. unfold owns. simpl. by rewrite Hl', Hl.
Qed.

(** The destruction of a local. *)
Lemma post_delete L X (f : U → U) x (Q : outcome () → world U S → Prop) w :
  owns L ({[x]} ∪ X) w → x ∉ X → live (f (user w)) = live (user w) ∖ {[x]} →
  (∀ w', owns L X w' → st w' = st w → Q (Ret ()) w') → post (lib_void f) Q w.
Proof.
  intros (Hl & Hd1 & Hd2 & Hd3) Hx Hl' HQ. apply post_lib_void, HQ; [|done].
  unfold owns. simpl. rewrite Hl', Hl. split_and!; set_solver.
Qed.

(** A member update that owns the same objects. *)
Lemma owns_modify L X f w :
  owns L X w → owned (f (st w)) = owned (st w) →
  owns L X (World (heap w) (locked w) (reads w) (user w) (f (st w))).
Proof. unfold owns. simpl. by intros Hw ->. Qed.

Definition object (mk : positive → O) (o : option positive) : gset O :=
  match o with Some x => {[mk x]} | None => ∅ end.

Lemma object_disjoint mk mk' o o' : (∀ x y, mk x ≠ mk' y) → object mk o ## object mk' o'.
Proof. intros Hne. destruct o, o'; simpl; set_solver. Qed.

(** A local moves into a member, and what was there is destroyed: [rest] is what
    the other members own. *)
Lemma post_reset L X get set del mk p rest (Q : outcome () → world U S → Prop) w :
  owns L (object mk p ∪ X) w → object mk p ## X →
  (∀ x u, live (del x u) = live u ∖ {[mk x]}) →
  owned (st w) = object mk (get (st w)) ∪ rest → object mk (get (st w)) ## rest →
  owned (set p (st w)) = object mk p ∪ rest →
  (∀ w', owns L X w' → st w' = set p (st w) → Q (Ret ()) w') →
  post (reset_member get set del p) Q w.
Proof.
  intros (Hl & Hd1 & Hd2 & Hd3) Hp Hdel Hold Hrest Hnew HQ.
  unfold reset_member. apply post_bind, post_gets, post_bind, post_modify.
  assert (∀ u, live u = live (user w) ∖ object mk (get (st w)) →
    owns L X (World (heap w) (locked w) (reads w) u (set p (st w)))) as Hw.
  { intros u Hu. unfold owns. simpl. rewrite Hnew, Hu, Hl. rewrite Hold in *. split_and!; set_solver. }
  destruct (get (st w)) as [x|]; [apply post_lib_void|apply post_ret]; (apply HQ; [|done]); apply Hw; simpl.
  - by rewrite Hdel.
  - set_solver.
Qed.
End ownership.
