(* ===== verification/ToyClient.v ===== *)
(** * A small client library for the witnesses

    Objects are numbered and kept in a set, what is sent is logged, and the server
    may refuse.  The adapters' witnesses instantiate their library classes with
    it. *)

From S2P Require Import Prelude Exceptions External Envelope World Adapter.

Section toy.
Context {O : Type} `{Countable O}.

Record toy := Toy {
  toy_live : gset O;
  toy_sent : list (string * list Z);
  toy_waits : nat;          (* how often somebody waited for the server *)
  toy_refuses : bool;
}.

Context (number : O → positive).

Definition toy_fresh (u : toy) : positive := fresh (set_map (D := gset positive) number (toy_live u)).

Definition toy_add (x : O) (u : toy) : toy :=
  Toy ({[x]} ∪ toy_live u) (toy_sent u) (toy_waits u) (toy_refuses u).

Definition toy_drop (x : O) (u : toy) : toy :=
  Toy (toy_live u ∖ {[x]}) (toy_sent u) (toy_waits u) (toy_refuses u).

Definition toy_send (s : string) (b : list Z) (u : toy) : toy :=
  Toy (toy_live u) (toy_sent u ++ [(s, b)]) (toy_waits u) (toy_refuses u).

Definition toy_wait (u : toy) : toy :=
  Toy (toy_live u) (toy_sent u) (S (toy_waits u)) (toy_refuses u).

(** Constructors, in the C++ and in the C style. *)
Definition toy_new (mk : positive → O) (ok : bool) (u : toy) : outcome positive * toy :=
  if ok then (Ret (toy_fresh u), toy_add (mk (toy_fresh u)) u)
  else (Throw (Exn user_exception "refused"), u).

Definition toy_create (mk : positive → O) (ok : bool) (p : option positive) (u : toy)
    : bool * option positive * toy :=
  if ok then (true, Some (toy_fresh u), toy_add (mk (toy_fresh u)) u) else (false, p, u).

Definition toy_call {A} (a : A) (ok : bool) (u : toy) : outcome A * toy :=
  (if ok then Ret a else Throw (Exn user_exception "refused"), u).

Context (mk : positive → O) (Hmk : ∀ x, number (mk x) = x).

Lemma toy_fresh_new u : mk (toy_fresh u) ∉ toy_live u.
Proof.
  intros Hin. apply (is_fresh (set_map (D := gset positive) number (toy_live u))).
  apply elem_of_map. eexists. split; [|exact Hin]. by rewrite Hmk.
Qed.

Lemma toy_new_builds ok u : builds toy_live mk u (toy_new mk ok u).
Proof.
  destruct ok; [left|right; by eexists]. eexists. split; [done|]. split; [apply toy_fresh_new|done].
Qed.

Lemma toy_call_uses {A} (a : A) ok u : uses toy_live u (toy_call a ok u).
Proof.
  split_and!; [done| |].
  - destruct ok; by intros [? ?].
  - destruct ok; [apply throws_only_ret|by apply throws_only_throw].
Qed.
End toy.
Arguments toy _ {_ _}.
