(* ===== verification/AdapterProps.v ===== *)
(** * Properties of what the broker adapters share

    The round trip of an envelope from one adapter's [dispatch] to another's
    receive path, and the containment of everything that can go wrong there. *)

From S2P Require Import Prelude Exceptions External Flags Instances Envelope EnvelopeWire Serialization SerializationProps.
From S2P Require Import World WorldLogic WorldSafety Hosts Bus BusSafety BusListeners BusLifecycle Transport Adapter.

(** ** Lemmas *)

Section lemmas.
Context `{ExternalLaws}.

Lemma encode_payload_live fmt hp l d (c : EnvelopeCore) :
  hp !! l = Some c →
  encode_payload fmt hp (MkEnvelope (Some l) d) =
  (j ← to_json d c; Ret (match fmt with Json => j_dump j | Cbor => j_to_cbor j end)).
Proof.
  intros Hl. unfold encode_payload, env_to_json, core_of. simpl. rewrite Hl. simpl. by destruct fmt.
Qed.

(** Encoding and decoding in the same format. *)
Lemma payload_roundtrip fmt (r : EventRegistry) (d : display_info) (c : EnvelopeCore) p pj hp l :
  hp !! l = Some c → payload_cell c = Some p → cell_to_json p = Ret pj →
  reg_cell_from_json (snapshot r) pj = Ret p → timestamps_in_range (timestamps c) →
  ∃ bytes c', encode_payload fmt hp (MkEnvelope (Some l) d) = Ret bytes ∧
              decode_payload fmt r bytes = Ret (d, c') ∧ wire_image c c'.
Proof.
  intros Hl Hp Hpj Hreg Hts. rewrite (encode_payload_live fmt hp l d c) by done.
  rewrite (to_json_document d c p pj) by done. simpl.
  destruct (from_json_document d c p pj (snapshot r)) as (c' & Hc' & Himg & Hpay); [done|done|].
  eexists _, c'. split; [done|]. split; [|destruct c'; simpl in Hpay; by rewrite Hp, <- Hpay in Himg].
  unfold decode_payload, decode_cbor, decode_json.
  destruct fmt; rewrite ?j_parse_dump, ?j_from_to_cbor; simpl; by rewrite Hc'.
Qed.

(** Decoding raises only exceptions under [std::exception]. *)
Lemma decode_payload_throws fmt r bytes :
  throws_only (λ c, catches std_exception c = true) (decode_payload fmt r bytes).
Proof.
  assert (∀ c, c = json_exception → catches std_exception c = true) as Hj by by intros c ->.
  destruct fmt; simpl.
  - apply throws_only_bind; [|intros j _; apply decode_json_throws].
    eapply throws_only_weaken, j_parse_throws. done.
  - unfold decode_cbor. apply try_catch_throws. intros e He.
    assert (catches std_exception (exn_type e) = true) as Hstd.
    { revert He. assert (throws_only (λ c, catches std_exception c = true)
        (j ← j_from_cbor bytes; decode_json r j)) as Hall.
      { apply throws_only_bind; [|intros j _; apply decode_json_throws].
        eapply throws_only_weaken, j_from_cbor_throws. done. }
      apply Hall. }
    simpl. rewrite Hstd. repeat case_match; by apply throws_only_throw.
Qed.

(** A loop over two lists. *)
Lemma for_each_app {A U S} (l k : list A) body (w : world U S) :
  for_each (l ++ k) body w = (for_each l body;; for_each k body) w.
Proof.
  revert w. induction l as [|x l IH]; intros w; simpl.
  - unfold mbind, comp_bind. simpl. by destruct (for_each k body w) as [[? ?] ?].
  - unfold mbind, comp_bind in *. destruct (body x w) as [[[[]|e|u] w1] tr1]; [|done|done].
    rewrite IH. destruct (for_each l body w1) as [[[[]|e|u] w2] tr2]; [|done|done].
    destruct (for_each k body w2) as [[o w3] tr3]. by rewrite (assoc_L (++)).
Qed.

Section bus.
Context {U : Type} (h : host U BusState) (I : BusState → U → Prop).
Hypothesis Hciv : civil h I.
Hypothesis Hok : ∀ s u, I s u → handlers_ok s.
Context (own : obj) (others : obj → EventRegistry).
Implicit Types w : world U BusState.
#[local] Instance the_link : BusLink U BusState := bus_link h own others.

Abbreviation good := (good I).
Abbreviation completes := (returns (λ (_ : ()) (_ : world U BusState), True)).

Lemma ask_wp p v w :
  good w → live v w → wp I (ask h p v) (returns (λ _ _, True)) w.
Proof.
  intros Hg Hv. apply wp_catch_all, (wp_call_fn h I Hciv); [done|by intros ? [= <-]|].
  intros [b|e|u] w' Hg' Hle Hu; [by exists b| |done]. apply wp_ret; [done|by exists false].
Qed.

Lemma run_sink_wp s v w :
  good w → live v w → wp I (run_sink h s v) (λ _ _, True) w.
Proof.
  revert s w. fix IH 1. intros [|f|p s] w Hg Hv; simpl.
  - eapply wp_mono; [|by apply (deliver_wp h I Hciv Hok)]. done.
  - apply (wp_call_any h I Hciv); [done|]. by intros ? [= <-].
  - assert (∀ w', good w' → live v w' →
      wp I (match s with Some s => run_sink h s v | None => mret () end) (λ _ _, True) w') as Hs.
    { intros w' Hg' Hv'. destruct s as [s|]; [by apply IH|by apply wp_ret]. }
    destruct p as [p|]; [|by apply Hs].
    eapply wp_bind_returns; [by apply ask_wp|]. intros b w' Hg' Hle _.
    destruct b; [apply Hs; [done|by eapply live_mono]|by apply wp_ret].
Qed.

Lemma deliver_inbound_wp b v w :
  good w → live v w → wp I (deliver_inbound h b v) (λ _ _, True) w.
Proof.
  intros Hg Hv. unfold deliver_inbound. destruct (inbound_sink_ b) as [s|]; [by apply run_sink_wp|].
  by apply wp_ret.
Qed.

Lemma allocate_wp d c (Q : outcome EventEnvelope → world U BusState → Prop) w :
  good w →
  (∀ v w', good w' → heap_le w w' → live v w' → core_of (heap w') v = Ret c → Q (Ret v) w') →
  wp I (allocate d c) Q w.
Proof.
  intros Hg HQ. eapply wp_run; [done|apply not_undef_ret|done|apply heap_le_insert|].
  apply HQ; [done|apply heap_le_insert| |].
  - eexists _, c. split; [done|]. simpl. by rewrite lookup_insert_eq.
  - unfold core_of. simpl. by rewrite lookup_insert_eq.
Qed.

(** Receiving never throws, whatever arrives and whatever the listeners do. *)
Lemma receive_wp name fmt i r bytes w reg :
  good w → reg = (if decide (r = own) then bus_registry (st w) else others r) →
  ¬ is_undef (decode_payload fmt reg bytes) →
  wp I (receive h name fmt i r bytes) completes w.
Proof.
  intros Hg Hreg Hdef. apply wp_catch_all, wp_bind, wp_gets; [done|]. rewrite <- Hreg.
  assert (∀ e w', good w' → wp I (if error_sink i && bus_ (base i) then link_report name e else mret ())
                               completes w') as Hrep.
  { intros e w' Hg'. destruct (error_sink i && bus_ (base i)); [by apply (report_transport_error_wp h I Hciv)|].
    apply wp_ret; [done|apply completes_ret]. }
  apply wp_bind. destruct (decode_payload fmt reg bytes) as [[d c]|e|u].
  - apply wp_lift_ret; [done|]. apply wp_bind, (wp_now h I); [done|]. intros n w1 Hg1 _ _.
    apply wp_bind, allocate_wp; [done|]. intros v w2 Hg2 _ Hv _.
    eapply wp_mono; [|by apply deliver_inbound_wp].
    intros [[]|e|u] w3 Hg3 _ Hu _; [apply completes_ret|by apply Hrep|done].
  - apply wp_lift_throw; [done|]. by apply Hrep.
  - by destruct Hdef; eexists.
Qed.

(** A delivery returns, in a good world. *)
Lemma deliver_payload_returns name fmt sink sup bytes w :
  good w → (∀ reg, ¬ is_undef (decode_payload fmt reg bytes)) →
  ∃ w' tr, deliver_payload h name fmt (install_sinks own sink (new_Impl sup)) bytes w = (Ret (), w', tr) ∧ good w'.
Proof.
  intros Hg Hdef.
  destruct (receive_wp name fmt (install_sinks own sink (new_Impl sup)) (default own sup) bytes w
    (if decide (default own sup = own) then bus_registry (st w) else others (default own sup)))
    as (o & w1 & tr1 & Hrun & _ & Hg1 & _ & [] & -> & _); [done|done|done|].
  by exists w1, tr1.
Qed.
End bus.
End lemmas.

(** ** Theorems *)

Section theorems.
Context `{ExternalLaws} {U : Type} (h : host U BusState) (I : BusState → U → Prop).
Context (own : obj) (others : obj → EventRegistry).
#[local] Instance this_link : BusLink U BusState := bus_link h own others.

(** The registry that an adapter decodes with, at the moment of the delivery. *)
Definition registry_now (r : obj) (w : world U BusState) : EventRegistry :=
  if decide (r = own) then bus_registry (st w) else others r.

(** A delivery whose bytes decode is the sink, on the new envelope. *)
Lemma receive_decoded name fmt s sup bytes (w : world U BusState) d c :
  decode_payload fmt (registry_now (default own sup) w) bytes = Ret (d, c) →
  let l := fresh (dom (heap w)) in
  let w1 := World (<[l := set_timestamps (set_received_at (time_at h (reads w)) (timestamps c)) c]> (heap w))
              (locked w) (S (reads w)) (user w) (st w) in
  deliver_payload h name fmt (install_sinks own s (new_Impl sup)) bytes w =
  catch_all (run_sink h s (MkEnvelope (Some l) d)) (report_transport_error h name) w1.
Proof.
  intros Hdec l w1. unfold deliver_payload. simpl. unfold receive.
  unfold catch_all, mbind at 1, comp_bind at 1, deref_registry, this_link, bus_link, gets. simpl.
  unfold registry_now in Hdec. unfold mbind, comp_bind, lift. rewrite Hdec. simpl.
  unfold deliver_inbound. simpl. unfold this_link, bus_link. simpl. fold l. 
  destruct (run_sink h s _ _) as [[[]] ?]; done.
Qed.

(** An event that one process dispatches to a broker and another receives from
    it arrives whole, in either format: what the sending adapter hands to its
    library, given to a receiving adapter attached to a bus, is fanned out to
    that bus's listeners as a fresh envelope with the same display information,
    id, flags, metadata, links and payload, and with [received_at] set to the
    receiver's clock. *)
Lemma remote_roundtrip {U1 S1} (w1 : world U1 S1) (w : world U BusState) fmt name sup l d c p pj :
  civil h I → (∀ s u, I s u → handlers_ok s) → good I w →
  heap w1 !! l = Some c → payload_cell c = Some p → cell_to_json p = Ret pj →
  reg_cell_from_json (snapshot (registry_now (default own sup) w)) pj = Ret p →
  timestamps_in_range (timestamps c) →
  let i := install_sinks own SinkBus (new_Impl sup) in
  let l' := fresh (dom (heap w)) in
  ∃ bytes c', encode_payload fmt (heap w1) (MkEnvelope (Some l) d) = Ret bytes ∧ wire_image c c' ∧
    heap w !! l' = None ∧
    deliver_payload h name fmt i bytes w =
    deliver_to_listeners h (MkEnvelope (Some l') d)
      (World (<[l' := set_timestamps (set_received_at (time_at h (reads w)) (timestamps c')) c']> (heap w))
         (locked w) (S (reads w)) (user w) (st w)).
Proof.
  intros Hciv Hok Hg Hl Hp Hpj Hreg Hts i l'.
  destruct (payload_roundtrip fmt _ d c p pj (heap w1) l Hl Hp Hpj Hreg Hts)
    as (bytes & c' & Henc & Hdec & Himg).
  exists bytes, c'. split_and!; [done|done|apply not_elem_of_dom, is_fresh|].
  unfold deliver_payload, i. simpl. unfold receive.
  set (w3 := World _ _ _ _ _).
  assert (live (MkEnvelope (Some l') d) w3) as Hv by (eexists l', _; split; [done|apply lookup_insert_eq]).
  destruct (deliver_wp h I Hciv Hok (MkEnvelope (Some l') d) w3) as (o & w4 & tr & Hrun & _ & _ & _ & [] & -> & _);
    [exact Hg|exact Hv|].
  rewrite Hrun. unfold catch_all, mbind at 1, comp_bind at 1, deref_registry, this_link, bus_link, gets. simpl.
  unfold registry_now in Hdec. unfold mbind, comp_bind, lift. rewrite Hdec. simpl.
  unfold deliver_inbound. simpl.
  change (deliver_to_bus _ _) with (deliver_to_listeners h (MkEnvelope (Some l') d) w3).
  rewrite Hrun. done.
Qed.

(** C32: nothing that arrives from a broker gets out of an adapter's receive path, as
    long as decoding it is defined (a timestamp whose conversion overflows is not).
    Bytes that decode are handed to the sink that the adapter was attached with, for the
    bus's own sink to the bus's listeners, as a fresh envelope that carries the decoded
    event stamped with the time of receipt; what the sink throws is reported to the
    bus's error sink under the adapter's name.  Bytes that do not decode are reported
    the same way and reach no listener.  The callback returns normally in every case. *)
Theorem inbound_contained (w : world U BusState) name fmt s sup bytes :
  civil h I → (∀ s u, I s u → handlers_ok s) → good I w →
  let i := install_sinks own s (new_Impl sup) in
  let decoded := decode_payload fmt (registry_now (default own sup) w) bytes in
  ¬ is_undef decoded →
  (∃ w' tr, deliver_payload h name fmt i bytes w = (Ret (), w', tr) ∧ good I w') ∧
  (∀ e, decoded = Throw e →
     deliver_payload h name fmt i bytes w = report_transport_error h name e w ∧
     catches std_exception (exn_type e) = true) ∧
  (∀ d c, decoded = Ret (d, c) →
     let l := fresh (dom (heap w)) in
     let v := MkEnvelope (Some l) d in
     let w1 := World (<[l := set_timestamps (set_received_at (time_at h (reads w)) (timestamps c)) c]> (heap w))
                 (locked w) (S (reads w)) (user w) (st w) in
     heap w !! l = None ∧
     ∃ o w2 tr, run_sink h s v w1 = (o, w2, tr) ∧
       (s = SinkBus → deliver_to_listeners h v w1 = (Ret (), w2, tr)) ∧
       match o with
       | Ret _ => deliver_payload h name fmt i bytes w = (Ret (), w2, tr)
       | Throw e => ∃ w3 tr', report_transport_error h name e w2 = (Ret (), w3, tr') ∧
                              deliver_payload h name fmt i bytes w = (Ret (), w3, tr ++ tr')
       | Undef _ => False
       end).
Proof.
  intros Hciv Hok Hg i decoded Hdef. split_and!.
  - destruct (receive_wp h I Hciv Hok own others name fmt i (default own sup) bytes w
                (registry_now (default own sup) w)) as (o & w' & tr & Hrun & _ & Hg' & _ & [] & -> & _);
      [done|done|done|].
    by exists w', tr.
  - intros e He. split; [|by apply (decode_payload_throws fmt (registry_now (default own sup) w) bytes e)].
    unfold deliver_payload, i. simpl. unfold receive, catch_all, mbind at 1, comp_bind at 1. simpl.
    unfold decoded, registry_now in He. unfold mbind, comp_bind, lift. rewrite He.
    by destruct (report_transport_error h name e w) as [[? ?] ?].
  - intros d c Hdc l v w1. split; [apply not_elem_of_dom, is_fresh|].
    assert (live v w1) as Hv by (eexists l, _; split; [done|apply lookup_insert_eq]).
    destruct (run_sink_wp h I Hciv Hok own others s v w1 Hg Hv) as (o & w2 & tr & Hrun & Hu & Hg2 & _ & _).
    change (run_sink h s v w1 = (o, w2, tr)) in Hrun.
    exists o, w2, tr. split; [done|]. split.
    { intros ->. destruct (deliver_wp h I Hciv Hok v w1 Hg Hv) as (o' & w2' & tr' & Hd & _ & _ & _ & [] & -> & _).
      change (run_sink h SinkBus v w1) with (deliver_to_listeners h v w1) in Hrun. rewrite Hd in Hrun |- *. by simplify_eq. }
    pose proof (receive_decoded name fmt s sup bytes w d c Hdc) as Hrcv. cbv zeta in Hrcv.
    fold l v w1 i in Hrcv. rewrite Hrcv. unfold catch_all. rewrite Hrun.
    destruct o as [[]|e|u]; [done| |by apply Hu; eexists].
    destruct (report_transport_error_wp h I Hciv name e w2 Hg2) as (o' & w3 & tr3 & Hr & _ & _ & _ & [] & -> & _).
    exists w3, tr3. by rewrite Hr.
Qed.
End theorems.

(** ** Witnesses *)

(** A bus with one listener, for every event. *)
Definition listening_world : world () BusState :=
  World ∅ false 0 () (set_listeners [MkEntry 1 (HEnvelope 3%positive) "**" true 0] new_Bus).

Lemma remote_roundtrip_witness :
  ∃ bytes c', encode_payload Json (heap (world_with sample_core ())) (MkEnvelope (Some 1%positive) None) = Ret bytes ∧
    wire_image sample_core c' ∧
    heap listening_world !! 1%positive = None ∧
    deliver_payload (BusLink0 := bus_link faulty_host 1 (λ _, new_EventRegistry)) faulty_host "nats" Json
      (install_sinks 1 SinkBus (new_Impl None)) bytes listening_world =
    deliver_to_listeners faulty_host (MkEnvelope (Some 1%positive) None)
      (World {[1%positive := set_timestamps (set_received_at 1000%Z (timestamps c')) c']} false 1 () (st listening_world)).
Proof.
  apply (remote_roundtrip faulty_host (λ s _, handlers_ok s) 1%positive (λ _, new_EventRegistry)
           (world_with sample_core ()) listening_world Json "nats" None 1%positive None sample_core
           (CCell "i64" 7) (ccell_to_json (CCell "i64" 7))).
  - apply faulty_civil.
  - done.
  - split; [done|]. by repeat constructor.
  - reflexivity.
  - reflexivity.
  - reflexivity.
  - vm_compute. reflexivity.
  - split_and!; intros; simplify_eq/=; vm_compute; split; discriminate.
Defined.

(** An encoded event that arrives at an adapter whose sink throws: it is decoded, handed
    to the sink, and the exception reported to the bus. *)
Lemma inbound_contained_witness :
  let link := bus_link faulty_host 1%positive (λ _, new_EventRegistry) in
  let i := install_sinks 1 (SinkUser 9%positive) (new_Impl None) in
  ∃ bytes c w1 w2 w3 tr tr',
    decode_payload Json (registry_now 1 (λ _, new_EventRegistry) 1 listening_world) bytes = Ret (None, c) ∧
    run_sink (InboundTarget0 := bus_target faulty_host) faulty_host (SinkUser 9%positive) (envelope_at 1%positive) w1 =
      (Throw (Exn user_exception "boom"), w2, tr) ∧
    report_transport_error faulty_host "redis" (Exn user_exception "boom") w2 = (Ret (), w3, tr') ∧
    deliver_payload (BusLink0 := link) faulty_host "redis" Json i bytes listening_world = (Ret (), w3, tr ++ tr').
Proof.
  intros link i.
  destruct (payload_roundtrip Json (registry_now 1 (λ _, new_EventRegistry) 1 listening_world) None sample_core
    (CCell "i64" 7) (ccell_to_json (CCell "i64" 7)) (heap (world_with sample_core ())) 1%positive)
    as (bytes & c & _ & Hdec & _).
  - reflexivity.
  - reflexivity.
  - reflexivity.
  - vm_compute. reflexivity.
  - split_and!; intros; simplify_eq/=; vm_compute; split; discriminate.
  - destruct (inbound_contained faulty_host (λ s _, handlers_ok s) 1%positive (λ _, new_EventRegistry)
      listening_world "redis" Json (SinkUser 9%positive) None bytes) as (_ & _ & Hret).
    + apply faulty_civil.
    + done.
    + split; [done|]. by repeat constructor.
    + intros [u Hu].
      change (decode_payload Json (registry_now 1 (λ _, new_EventRegistry) 1 listening_world) bytes = Undef u) in Hu.
      congruence.
    + destruct (Hret None c Hdec) as (_ & o & w2 & tr & Hrun & _ & Hdel).
      assert (o = Throw (Exn user_exception "boom")) as -> by by injection Hrun.
      destruct Hdel as (w3 & tr' & Hrep & Hdel).
      exists bytes, c. eexists. exists w2, w3, tr, tr'. split_and!; [exact Hdec|exact Hrun|exact Hrep|exact Hdel].
Defined.
