(* ===== verification/Nats.v ===== *)
(** * The NATS adapter ([transports/nats/src/transport.cpp])

    nats.c is the class [NatsLib]: its functions on the library's state.  The
    adapter owns three handles of it; the theorems follow their ownership through
    every operation, and what an operation sends. *)

From S2P Require Import Prelude Exceptions External Flags Instances Envelope EnvelopeWire Serialization SerializationProps.
From S2P Require Import World WorldLogic WorldSafety Hosts Bus Transport Adapter Resources ToyClient.

(** ** Configuration *)

Record Config := MkConfig {
  url : string;
  name : string;
  cfg_user : option string;
  cfg_password : option string;
  token : option string;
  credentials_file : option string;
  tls : option TlsConfig;
  connect_timeout : Z;
  reconnect_wait : Z;
  max_reconnects : Z;
  subject : string;
  queue_group : option string;
  format : Format;
}.

Definition set_name (n : string) (c : Config) : Config :=
  MkConfig (url c) n (cfg_user c) (cfg_password c) (token c) (credentials_file c) (tls c)
    (connect_timeout c) (reconnect_wait c) (max_reconnects c) (subject c) (queue_group c) (format c).

(** ** nats.c *)

(** Pointers to the library's objects. *)
Abbreviation handle := positive.

(** The setters [natsOptions_Set...] and their arguments. *)
Inductive nats_option :=
  | SetURL (s : string)
  | SetName (s : string)
  | SetTimeout (ms : Z)
  | SetReconnectWait (ms : Z)
  | SetMaxReconnect (n : Z)
  | SetToken (s : string)
  | SetUserInfo (u p : string)
  | SetUserCredentialsFromFiles (f : string)
  | SetSecure (b : bool)
  | LoadCATrustedCertificates (f : string)
  | LoadCertificatesChain (c k : string)
  | SkipServerVerification (b : bool).

(** A function with a [T**] argument takes the pointer that is there and returns
    the one it leaves. *)
Class NatsLib (U : Type) := {
  natsStatus : Type;
  natsStatus_eq_dec :: EqDecision natsStatus;
  NATS_OK : natsStatus;
  natsStatus_GetText : natsStatus → option string;
  natsOptions_Create : option handle → U → natsStatus * option handle * U;
  natsOptions_Set : handle → nats_option → U → natsStatus * U;
  natsOptions_Destroy : handle → U → U;
  natsConnection_Connect : option handle → handle → U → natsStatus * option handle * U;
  natsConnection_Subscribe : option handle → handle → string → U → natsStatus * option handle * U;
  natsConnection_QueueSubscribe :
    option handle → handle → string → string → U → natsStatus * option handle * U;
  natsConnection_Publish : handle → string → list Z → Z → U → natsStatus * U;
  natsConnection_FlushTimeout : handle → Z → U → natsStatus * U;
  natsConnection_Drain : handle → U → natsStatus * U;
  natsConnection_Destroy : handle → U → U;
  natsSubscription_Unsubscribe : handle → U → natsStatus * U;
  natsSubscription_Destroy : handle → U → U;
  natsMsg : Type;
  natsMsg_GetData : natsMsg → option (list Z);
  natsMsg_GetDataLength : natsMsg → Z;
  natsMsg_Destroy : option natsMsg → U → U;
}.

(** Every object that the library has handed out and not taken back. *)
Inductive nats_object := OOptions (o : handle) | OConnection (c : handle) | OSubscription (s : handle).

#[export] Instance nats_object_eq_dec : EqDecision nats_object.
Proof. solve_decision. Defined.

#[export] Instance nats_object_countable : Countable nats_object.
Proof.
  refine (inj_countable'
    (λ x, match x with OOptions o => inl o | OConnection c => inr (inl c) | OSubscription s => inr (inr s) end)
    (λ s, match s with inl o => OOptions o | inr (inl c) => OConnection c | inr (inr s) => OSubscription s end) _).
  by intros [].
Defined.

(** What [nats.h] documents of a constructor: [NATS_OK] and a new object in the
    out-parameter, or an error and nothing created. *)
Definition constructs `{NatsLib U} (live : U → gset nats_object) (mk : handle → nats_object)
    (p : option handle) (u : U) (r : natsStatus * option handle * U) : Prop :=
  (r.1.1 = NATS_OK ∧ ∃ x, r.1.2 = Some x ∧ mk x ∉ live u ∧ live r.2 = {[mk x]} ∪ live u) ∨
  (r.1.1 ≠ NATS_OK ∧ r.1.2 = p ∧ live r.2 = live u).

Class NatsLaws (U : Type) `{NatsLib U} := {
  nats_live : U → gset nats_object;
  nats_create p u : constructs nats_live OOptions p u (natsOptions_Create p u);
  nats_connect p o u : constructs nats_live OConnection p u (natsConnection_Connect p o u);
  nats_subscribe p c s u : constructs nats_live OSubscription p u (natsConnection_Subscribe p c s u);
  nats_queue_subscribe p c s g u :
    constructs nats_live OSubscription p u (natsConnection_QueueSubscribe p c s g u);
  nats_options_destroy o u : nats_live (natsOptions_Destroy o u) = nats_live u ∖ {[OOptions o]};
  nats_connection_destroy c u : nats_live (natsConnection_Destroy c u) = nats_live u ∖ {[OConnection c]};
  nats_subscription_destroy s u : nats_live (natsSubscription_Destroy s u) = nats_live u ∖ {[OSubscription s]};
  nats_set o x u : nats_live (natsOptions_Set o x u).2 = nats_live u;
  nats_publish c s b n u : nats_live (natsConnection_Publish c s b n u).2 = nats_live u;
  nats_flush c t u : nats_live (natsConnection_FlushTimeout c t u).2 = nats_live u;
  nats_drain c u : nats_live (natsConnection_Drain c u).2 = nats_live u;
  nats_unsubscribe s u : nats_live (natsSubscription_Unsubscribe s u).2 = nats_live u;
  nats_msg_destroy m u : nats_live (natsMsg_Destroy m u) = nats_live u;
}.

(** ** The adapter *)

Record NatsState := MkNats {
  config : Config;
  impl : Impl;
  opts : option handle;
  conn : option handle;
  sub : option handle;
  connected : bool;
}.

Definition set_impl (i : Impl) (s : NatsState) : NatsState :=
  MkNats (config s) i (opts s) (conn s) (sub s) (connected s).
Definition set_opts (o : option handle) (s : NatsState) : NatsState :=
  MkNats (config s) (impl s) o (conn s) (sub s) (connected s).
Definition set_conn (c : option handle) (s : NatsState) : NatsState :=
  MkNats (config s) (impl s) (opts s) c (sub s) (connected s).
Definition set_sub (x : option handle) (s : NatsState) : NatsState :=
  MkNats (config s) (impl s) (opts s) (conn s) x (connected s).
Definition set_connected (b : bool) (s : NatsState) : NatsState :=
  MkNats (config s) (impl s) (opts s) (conn s) (sub s) b.

(** The constructor of [Impl]; [generated] is the string of [ulid::generate()]. *)
Definition construct (generated : string) (cfg : Config) (reg : option obj) : outcome NatsState :=
  if String.eqb (subject cfg) "" then
    Throw (Exn ConfigError "conduit::nats::Transport: Config::subject must be non-empty")
  else
    let cfg := if String.eqb (name cfg) "" then set_name ("conduit-" +:+ generated) cfg else cfg in
    Ret (MkNats cfg (new_Impl reg) None None None false).

Section ops.
Context `{Externals} {U : Type} `{NatsLib U}.
Abbreviation comp := (comp U NatsState).

Definition nats_status_string (s : natsStatus) : string := default "unknown" (natsStatus_GetText s).

Definition nats_error {A} (what : string) (s : natsStatus) : comp A :=
  lift (Throw (Exn NatsError ("conduit::nats::Transport::attach: " +:+ what +:+ nats_status_string s))).

Definition shutdown : comp () :=
  noexcept (
    s ← gets sub;
    match s with
    | Some s =>
        _ ← lib_c (natsSubscription_Unsubscribe s);
        lib_void (natsSubscription_Destroy s);;
        modify (set_sub None)
    | None => mret ()
    end;;
    c ← gets conn;
    match c with
    | Some c =>
        _ ← lib_c (natsConnection_Drain c);
        lib_void (natsConnection_Destroy c);;
        modify (set_conn None)
    | None => mret ()
    end;;
    o ← gets opts;
    match o with
    | Some o => lib_void (natsOptions_Destroy o);; modify (set_opts None)
    | None => mret ()
    end;;
    modify (set_connected false)).

(** [if (s == NATS_OK) s = ...] *)
Definition if_ok (s : natsStatus) (m : comp natsStatus) : comp natsStatus :=
  if decide (s = NATS_OK) then m else mret s.

(** The option setters; [has_tls] is whether [NATS_HAS_TLS] is defined. *)
Definition setup_options (has_tls : bool) (o : handle) (c : Config) : comp natsStatus :=
  let set x := lib_c (natsOptions_Set o x) in
  s ← set (SetURL (url c));
  s ← if_ok s (set (SetName (name c)));
  s ← if_ok s (ms ← lift (milliseconds (connect_timeout c)); set (SetTimeout ms));
  s ← if_ok s (ms ← lift (milliseconds (reconnect_wait c)); set (SetReconnectWait ms));
  s ← if_ok s (set (SetMaxReconnect (max_reconnects c)));
  s ← if_ok s (match token c, cfg_user c, cfg_password c with
               | Some t, _, _ => set (SetToken t)
               | None, Some u, Some p => set (SetUserInfo u p)
               | _, _, _ => mret s
               end);
  s ← if_ok s (match credentials_file c with
               | Some f => set (SetUserCredentialsFromFiles f)
               | None => mret s
               end);
  match tls c with
  | None => mret s
  | Some t =>
      if has_tls then
        if_ok s (
          s ← set (SetSecure true);
          s ← if_ok s (set (LoadCATrustedCertificates (ca_file t)));
          s ← if_ok s (match cert_file t, key_file t with
                       | Some c, Some k => set (LoadCertificatesChain c k)
                       | _, _ => mret s
                       end);
          if_ok s (set (SkipServerVerification (negb (verify_peer t)))))
      else
        shutdown;;
        lift (Throw (Exn TlsNotSupportedError
          "conduit::nats::Transport: Config::tls set but the transport was built without CONDUIT_TRANSPORT_NATS_TLS"))
  end.

(** The three library objects, each behind its guard. *)
Definition create_options : comp handle :=
  p ← gets opts;
  r ← lib_c (natsOptions_Create p);
  modify (set_opts r.2);;
  match r.2 with
  | Some o => if decide (r.1 = NATS_OK) then mret o
              else shutdown;; nats_error "natsOptions_Create failed: " r.1
  | None => shutdown;; nats_error "natsOptions_Create failed: " r.1
  end.

Definition connect (o : handle) : comp handle :=
  p ← gets conn;
  r ← lib_c (natsConnection_Connect p o);
  modify (set_conn r.2);;
  match r.2 with
  | Some c => if decide (r.1 = NATS_OK) then mret c
              else shutdown;; nats_error "connect failed: " r.1
  | None => shutdown;; nats_error "connect failed: " r.1
  end.

Definition subscribe (c : handle) (cfg : Config) : comp () :=
  p ← gets sub;
  r ← lib_c (match queue_group cfg with
             | Some g => natsConnection_QueueSubscribe p c (subject cfg) g
             | None => natsConnection_Subscribe p c (subject cfg)
             end);
  modify (set_sub r.2);;
  if decide (r.1 = NATS_OK ∧ is_Some r.2) then mret ()
  else shutdown;; nats_error "subscribe failed: " r.1.

Definition attach_with_sink (has_tls : bool) (bus_registry : obj) (sink : InboundSink) : comp () :=
  modify (λ s, set_impl (install_sinks bus_registry sink (impl s)) s);;
  cfg ← gets config;
  o ← create_options;
  s ← setup_options has_tls o cfg;
  (if decide (s = NATS_OK) then mret () else shutdown;; nats_error "option setup failed: " s);;
  c ← connect o;
  subscribe c cfg;;
  modify (set_connected true).

Definition detach : comp () :=
  noexcept (shutdown;; modify (λ s, set_impl (clear_sink (impl s)) s)).

(** The destructor. *)
Definition destroy : comp () := noexcept shutdown.

Definition dispatch (v : EventEnvelope) : comp () :=
  c ← gets conn;
  match c with
  | None => mret ()
  | Some c =>
      cfg ← gets config;
      payload ← payload_bytes (format cfg) v;
      _ ← lib_c (natsConnection_Publish c (subject cfg) payload
                   (i32_wrap (Z.of_nat (length payload))));
      ack ← requires_ack v;
      if (ack : bool) then _ ← lib_c (natsConnection_FlushTimeout c 5000); mret () else mret ()
  end.

Definition flush : comp () :=
  c ← gets conn;
  match c with
  | None => mret ()
  | Some c => _ ← lib_c (natsConnection_FlushTimeout c 5000); mret ()
  end.

Definition is_connected : comp bool := gets connected.

Definition nats_scope : TransportScope := Remote.
End ops.

(** The receive path runs on a thread of the library, on whatever state [S] the
    bus behind the sink has. *)
Section inbound.
Context `{Externals} {U S : Type} `{NatsLib U} `{!BusLink U S} (h : host U S).

Definition deliver_bytes (c : Config) (i : Impl) (data : option (list Z)) (len : Z) : comp U S () :=
  match data with
  | Some bytes =>
      if (len <=? 0)%Z then mret ()
      else deliver_payload h "nats" (format c) i (take (Z.to_nat len) bytes)
  | None => mret ()
  end.

Definition msg_handler (c : Config) (i : Impl) (msg : option natsMsg) : comp U S () :=
  match msg with
  | Some m =>
      catch_all (deliver_bytes c i (natsMsg_GetData m) (natsMsg_GetDataLength m)) (λ _, mret ())
  | None => mret ()
  end;;
  lib_void (natsMsg_Destroy msg).
End inbound.

(** ** Ownership *)

Section ownership.
Context `{Externals} {U : Type} `{NatsLaws U}.
Implicit Types w : world U NatsState.

Definition objects_of (mk : handle → nats_object) (o : option handle) : gset nats_object :=
  match o with Some x => {[mk x]} | None => ∅ end.

Definition owned (s : NatsState) : gset nats_object :=
  objects_of OOptions (opts s) ∪ objects_of OConnection (conn s) ∪ objects_of OSubscription (sub s).

(** Of the objects alive in the library, the adapter owns [owned], and everybody
    else owns [L]. *)
Definition owns (L : gset nats_object) w : Prop :=
  nats_live (user w) = L ∪ owned (st w) ∧ L ## owned (st w).

(** Nothing is owned, and the flag says so. *)
Definition released (s : NatsState) : Prop :=
  opts s = None ∧ conn s = None ∧ sub s = None ∧ connected s = false.

(** Everything is there. *)
Definition online (s : NatsState) : Prop :=
  is_Some (opts s) ∧ is_Some (conn s) ∧ is_Some (sub s) ∧ connected s = true.

Lemma nats_owned_released s : released s → owned s = ∅.
Proof. intros (Ho & Hc & Hs & _). unfold owned. rewrite Ho, Hc, Hs. set_solver. Qed.

(** [shutdown] gives back exactly what is owned. *)
Lemma nats_shutdown_post L w :
  owns L w →
  post shutdown (λ o w', o = Ret () ∧ nats_live (user w') = L ∧ released (st w') ∧
                         impl (st w') = impl (st w)) w.
Proof.
  destruct w as [hp lk rd u [cfg i o c s b]]. intros [Hl Hd]. simpl in *.
  unfold owned in *. simpl in *.
  unfold shutdown. destruct s as [s|], c as [c|], o as [o|]; simpl in *;
    repeat (post_step; simpl);
    (split; [done|]); (split; [|done]);
    rewrite ?nats_options_destroy, ?nats_connection_destroy, ?nats_drain,
      ?nats_subscription_destroy, ?nats_unsubscribe, Hl; set_solver.
Qed.

(** A failing step: hand back everything and throw. *)
Definition failed (L : gset nats_object) {A} (o : outcome A) w' : Prop :=
  ∃ e, o = Throw e ∧ (exn_type e = NatsError ∨ exn_type e = TlsNotSupportedError) ∧
       nats_live (user w') = L ∧ released (st w').

Lemma shutdown_throw_post {A} L e w :
  owns L w → exn_type e = NatsError ∨ exn_type e = TlsNotSupportedError →
  post (shutdown;; (lift (Throw e) : comp U NatsState A)) (failed L) w.
Proof.
  intros Hw He. apply post_bind. eapply post_mono; [by apply nats_shutdown_post|].
  intros o w' (-> & Hl & Hr & _). apply post_lift. by exists e.
Qed.
(** A step that leaves the members alone, or fails as above, or meets a timeout too
    large for milliseconds. *)
Definition keeps (L : gset nats_object) (s0 : NatsState) {A} (o : outcome A) w' : Prop :=
  (∃ a, o = Ret a ∧ owns L w' ∧ st w' = s0) ∨ failed L o w' ∨ o = Undef SignedOverflow.

Lemma nats_keeps_ret {A} L s0 (a : A) w : owns L w → st w = s0 → post (mret a) (keeps L s0) w.
Proof. intros Hw Hs. apply post_ret. left. by exists a. Qed.

(** Go on after such a step. *)
Lemma nats_keeps_bind {A B} L s0 (m : comp U NatsState A) (f : A → comp U NatsState B)
    (P : outcome B → world U NatsState → Prop) w :
  post m (keeps L s0) w →
  (∀ a w', owns L w' → st w' = s0 → post (f a) P w') →
  (∀ o w', failed L o w' ∨ o = Undef SignedOverflow → P o w') → post (m ≫= f) P w.
Proof.
  intros Hm Hk Hu. apply post_bind. eapply post_mono; [exact Hm|].
  intros o w' [(a & -> & Hw & Hs)|[(e & -> & Hfail)| ->]]; [by apply Hk| |apply Hu; by right].
  apply Hu. left. by exists e.
Qed.

Lemma keeps_then {A B} L s0 (m : comp U NatsState A) (f : A → comp U NatsState B) w :
  post m (keeps L s0) w →
  (∀ a w', owns L w' → st w' = s0 → post (f a) (keeps L s0) w') → post (m ≫= f) (keeps L s0) w.
Proof. intros Hm Hf. eapply nats_keeps_bind; [done..|]. intros o w'. by right. Qed.

Lemma keeps_set L s0 o x w : owns L w → st w = s0 → post (lib_c (natsOptions_Set o x)) (keeps L s0) w.
Proof.
  intros [Hl Hd] Hs. apply post_lib_c. left. eexists. split; [done|]. split; [|done].
  split; simpl; [by rewrite nats_set|done].
Qed.

Lemma keeps_if_ok L s0 s m w :
  owns L w → st w = s0 → (owns L w → st w = s0 → post m (keeps L s0) w) → post (if_ok s m) (keeps L s0) w.
Proof. intros Hw Hs Hm. unfold if_ok. case_decide; [by apply Hm|by apply nats_keeps_ret]. Qed.

Lemma keeps_milliseconds L s0 n w : owns L w → st w = s0 → post (lift (milliseconds n)) (keeps L s0) w.
Proof.
  intros Hw Hs. apply post_lift. unfold milliseconds. case_match; [left; by eexists|by right; right].
Qed.

(** Walk through the setters. *)
Ltac keeps_step :=
  lazymatch goal with
  | |- post (mbind _ shutdown) _ _ =>
      eapply post_mono; [eapply shutdown_throw_post; [eassumption|by right]|intros; right; left; assumption]
  | |- post (mbind _ _) (keeps _ _) _ => apply keeps_then; [|intros]
  | |- post (mret _) _ _ => apply nats_keeps_ret; assumption
  | |- post (lib_c (natsOptions_Set _ _)) _ _ => apply keeps_set; assumption
  | |- post (if_ok _ _) _ _ => apply keeps_if_ok; [assumption|assumption|intros]
  | |- post (lift (milliseconds _)) _ _ => apply keeps_milliseconds; assumption
  | |- post (match ?x with _ => _ end) _ _ => destruct x
  end.

Lemma setup_options_post L s0 has_tls o c w :
  owns L w → st w = s0 → post (setup_options has_tls o c) (keeps L s0) w.
Proof. intros Hw Hs. unfold setup_options. cbn zeta. repeat keeps_step. Qed.

(** A constructor call from an empty pointer, and the store of its out-parameter:
    the new object is owned, or nothing happened. *)
Lemma constructs_then {A} L mk (f : U → natsStatus * option handle * U)
    (set : option handle → NatsState → NatsState) (k : natsStatus * option handle → comp U NatsState A) P w :
  (∀ u, constructs nats_live mk None u (f u)) → owns L w →
  (∀ x, owned (set x (st w)) = owned (st w) ∪ objects_of mk x) →
  (∀ s x w', (s = NATS_OK ↔ is_Some x) → owns L w' → st w' = set x (st w) → post (k (s, x)) P w') →
  post (r ← lib_c f; modify (set r.2);; k r) P w.
Proof.
  intros Hf [Hl Hd] Hset Hk. apply post_bind, post_lib_c. cbn beta iota.
  specialize (Hf (user w)). unfold constructs in Hf. destruct (f (user w)) as [[s x] u]. simpl in *.
  apply post_bind, post_modify.
  apply (Hk s x); [| |done].
  { destruct Hf as [(-> & y & -> & _)|(Hs & -> & _)]; split; intros Hx; [by eexists|done|done|by destruct Hx]. }
  unfold owns. simpl. rewrite Hset. rewrite Hl in Hf. revert Hd Hf. generalize (owned (st w)). clear.
  intros O Hd Hf.
  destruct Hf as [(_ & y & Hx & Hy & Hu)|(_ & Hx & Hu)]; rewrite Hx, Hu; simpl; set_solver.
Qed.

(** What a guarded construction comes to. *)
Definition created (L : gset nats_object) (set : option handle → NatsState → NatsState) (s0 : NatsState)
    (o : outcome handle) w' : Prop :=
  (∃ x, o = Ret x ∧ owns L w' ∧ st w' = set (Some x) s0) ∨ failed L o w'.

Lemma create_options_post L w :
  owns L w → opts (st w) = None → post create_options (created L set_opts (st w)) w.
Proof.
  intros Hw Ho. unfold create_options. apply post_bind, post_gets. rewrite Ho.
  apply (constructs_then L OOptions); [intros u; apply nats_create|done| |].
  { intros x. unfold owned. simpl. rewrite Ho. simpl. set_solver. }
  intros s [x|] w' Hs Hw' Hst; simpl.
  - rewrite decide_True by by apply Hs. apply post_ret. left. by exists x.
  - eapply post_mono; [apply shutdown_throw_post; [done|by left]|]. intros o' w''. by right.
Qed.

Lemma nats_connect_post L o w :
  owns L w → conn (st w) = None → post (connect o) (created L set_conn (st w)) w.
Proof.
  intros Hw Hc. unfold connect. apply post_bind, post_gets. rewrite Hc.
  apply (constructs_then L OConnection); [intros u; apply nats_connect|done| |].
  { intros x. unfold owned. simpl. rewrite Hc. simpl. set_solver. }
  intros s [x|] w' Hs Hw' Hst; simpl.
  - rewrite decide_True by by apply Hs. apply post_ret. left. by exists x.
  - eapply post_mono; [apply shutdown_throw_post; [done|by left]|]. intros o' w''. by right.
Qed.

Lemma subscribe_post L c cfg w :
  owns L w → sub (st w) = None →
  post (subscribe c cfg)
    (λ o w', (∃ x, o = Ret () ∧ owns L w' ∧ st w' = set_sub (Some x) (st w)) ∨ failed L o w') w.
Proof.
  intros Hw Hs0. unfold subscribe. apply post_bind, post_gets. rewrite Hs0.
  apply (constructs_then L OSubscription); [|done| |].
  { intros u. destruct (queue_group cfg); [apply nats_queue_subscribe|apply nats_subscribe]. }
  { intros x. unfold owned. simpl. rewrite Hs0. simpl. set_solver. }
  intros s [x|] w' Hs Hw' Hst; simpl.
  - rewrite decide_True by (split; [by apply Hs|done]). apply post_ret. left. by exists x.
  - rewrite decide_False by by intros [_ [? ?]].
    eapply post_mono; [apply shutdown_throw_post; [done|by left]|]. intros o' w''. by right.
Qed.

Definition attached (L : gset nats_object) (i : Impl) (o : outcome ()) w' : Prop :=
  (o = Ret () ∧ owns L w' ∧ online (st w') ∧ impl (st w') = i) ∨ failed L o w' ∨ o = Undef SignedOverflow.

Lemma nats_attach_post L has_tls reg sink w :
  owns L w → released (st w) →
  post (attach_with_sink has_tls reg sink) (attached L (install_sinks reg sink (impl (st w)))) w.
Proof.
  intros Hw (Ho & Hc & Hs & Hb). unfold attach_with_sink. apply post_bind, post_modify.
  apply post_bind, post_gets. set (w1 := World _ _ _ _ _).
  assert (owns L w1) as Hw1 by done. change (config (st w1)) with (config (st w)).
  apply post_bind. eapply post_mono; [by apply (create_options_post L)|].
  intros ? w2 [(o & -> & Hw2 & Hs2)|(e & -> & Hf)]; [|right; left; by exists e].
  eapply nats_keeps_bind; [by apply (setup_options_post L (st w2))| |by right].
  intros s w3 Hw3 Hs3. apply post_bind.
  destruct (decide (s = NATS_OK)) as [_|_]; [apply post_ret|].
  2:{ eapply post_mono; [apply shutdown_throw_post; [done|by left]|].
      intros ? ? (e & -> & Hf). right. left. by exists e. }
  apply post_bind. eapply post_mono; [apply (nats_connect_post L); [done|by rewrite Hs3, Hs2]|].
  intros ? w4 [(c & -> & Hw4 & Hs4)|(e & -> & Hf)]; [|right; left; by exists e].
  apply post_bind. eapply post_mono; [apply (subscribe_post L); [done|by rewrite Hs4, Hs3, Hs2]|].
  intros ? w5 [(x & -> & Hw5 & Hs5)|(e & -> & Hf)]; [|right; left; by exists e].
  assert (st w5 = set_sub (Some x) (set_conn (Some c) (set_opts (Some o) (st w1)))) as Hst by congruence.
  apply post_modify. left. destruct w5 as [hp5 lk5 rd5 us5 st5]. simpl in Hst. subst st5.
  split_and!; [done|exact Hw5| |done]. unfold online. simpl. split_and!; by try eexists.
Qed.
End ownership.

(** ** Sequences of operations *)

Section steps.
Context `{Externals} {U : Type} `{NatsLaws U}.

Inductive nats_call :=
  | CAttach (has_tls : bool) (reg : obj) (sink : InboundSink)
  | CDispatch (v : EventEnvelope)
  | CFlush
  | CDetach
  | CDestroy.

Implicit Types w : world U NatsState.

Definition nats_run (c : nats_call) : comp U NatsState () :=
  match c with
  | CAttach has_tls reg sink => attach_with_sink has_tls reg sink
  | CDispatch v => dispatch v
  | CFlush => flush
  | CDetach => detach
  | CDestroy => destroy
  end.

(** One operation, its exception caught by the caller.  An adapter is attached only when
    it holds no handle: it was never attached, it was detached, or its last attach
    failed.  [attach_with_sink] does not test that: attached again, it overwrites the
    handles it holds, and what they stood for is destroyed by nobody
    ([nats_attach_twice_leaks]). *)
Inductive nats_step : world U NatsState → world U NatsState → Prop :=
  | NatsStep c w o w' tr :
      nats_run c w = (o, w', tr) → ¬ is_undef o →
      (∀ has_tls reg sink, c = CAttach has_tls reg sink → released (st w)) →
      nats_step w w'.

Definition settled (L : gset nats_object) w : Prop :=
  owns L w ∧ (released (st w) ∨ online (st w)).

Lemma settled_failed {A} L (o : outcome A) w : failed L o w → settled L w.
Proof.
  intros (e & _ & _ & Hl & Hr). split; [|by left]. split; rewrite (nats_owned_released (st w)) by done; set_solver.
Qed.

Lemma shutdown_settles L w : owns L w → post shutdown (λ o w', is_ret o ∧ settled L w' ∧ released (st w')) w.
Proof.
  intros Hw. eapply post_mono; [by apply nats_shutdown_post|]. intros o w' (-> & Hl & Hr & _).
  split_and!; [by eexists| |done]. split; [|by left].
  split; rewrite (nats_owned_released (st w')) by done; set_solver.
Qed.

Lemma nats_detach_post L w :
  owns L w → post detach (λ o w', o = Ret () ∧ settled L w' ∧ released (st w')) w.
Proof.
  intros Hw. unfold detach. apply post_noexcept, post_bind.
  eapply post_mono; [by apply shutdown_settles|]. intros ? w' ([[] ->] & [Hw' _] & Hr).
  apply post_modify. split_and!; [done| |done]. split; [exact Hw'|by left].
Qed.

Lemma nats_dispatch_post L v w : settled L w → post (dispatch v) (λ _ w', settled L w') w.
Proof.
  intros Hw. unfold dispatch. apply post_bind, post_gets. destruct (conn (st w)) as [c|]; [|done].
  apply post_bind, post_gets. apply post_bind, post_payload_bytes.
  destruct (encode_payload _ _ v) as [bytes|e|u]; [|done..].
  apply post_bind, post_lib_c, post_bind, post_requires_ack. simpl.
  assert (∀ u, nats_live u = nats_live (user w) → settled L (World (heap w) (locked w) (reads w) u (st w))) as Hk.
  { intros u Hu. destruct Hw as [[Hl Hd] Hs]. split; [|done]. split; simpl; [by rewrite Hu|done]. }
  destruct (core_of (heap w) v) as [x| |]; simpl; [|by apply Hk, nats_publish..].
  case_match; [|by apply post_ret, Hk, nats_publish].
  apply post_bind, post_lib_c, post_ret. simpl. apply Hk. by rewrite nats_flush, nats_publish.
Qed.

Lemma flush_post L w : settled L w → post flush (λ _ w', settled L w') w.
Proof.
  intros Hw. unfold flush. apply post_bind, post_gets. destruct (conn (st w)) as [c|]; [|done].
  apply post_bind, post_lib_c, post_ret. destruct Hw as [[Hl Hd] Hs]. split; [|done].
  split; simpl; [by rewrite nats_flush|done].
Qed.

Lemma nats_step_settled L w w' : settled L w → nats_step w w' → settled L w'.
Proof.
  intros Hw Hstep. destruct Hstep as [c w o w' tr Hrun Hdef Hatt].
  assert (post (nats_run c) (λ o w', ¬ is_undef o → settled L w') w) as Hp.
  { destruct c as [has_tls reg sink|v| | |]; simpl.
    - eapply post_mono; [eapply nats_attach_post; [apply Hw|by eapply Hatt]|].
      intros ? w1 [(-> & Hw1 & Ho & _)|[Hf| ->]] Hu; [by split; [|right]|by eapply settled_failed|].
      by destruct Hu; eexists.
    - eapply post_mono; [by apply nats_dispatch_post|done].
    - eapply post_mono; [by apply flush_post|done].
    - eapply post_mono; [by apply nats_detach_post, Hw|]. by intros ? ? (_ & ? & _).
    - unfold destroy. apply post_noexcept. eapply post_mono; [by apply shutdown_settles, Hw|].
      by intros ? ? ([? ->] & ? & _). }
  unfold post in Hp. rewrite Hrun in Hp. by apply Hp.
Qed.
End steps.

(** ** Theorems *)

Section theorems.
Context `{Externals} {U : Type} `{NatsLaws U}.
Implicit Types w : world U NatsState.

(** Attaching a NATS adapter is all or nothing: it ends with options, connection
    and subscription created and owned, the sinks in place and the adapter
    connected, or it throws one of conduit's errors and has given everything
    back; nothing else of the library is touched.  The one exception is a
    timeout that overflows when turned into milliseconds. *)
Theorem nats_attach_all_or_nothing has_tls reg sink L w :
  nats_live (user w) = L → released (st w) →
  ∃ o w' tr, attach_with_sink has_tls reg sink w = (o, w', tr) ∧
    ((o = Ret () ∧ owns L w' ∧ online (st w') ∧ impl (st w') = install_sinks reg sink (impl (st w))) ∨
     (∃ e, o = Throw e ∧ (exn_type e = NatsError ∨ exn_type e = TlsNotSupportedError) ∧
           nats_live (user w') = L ∧ released (st w')) ∨
     o = Undef SignedOverflow).
Proof.
  intros HL Hr. assert (owns L w) as Hw.
  { split; rewrite (nats_owned_released (st w)) by done; set_solver. }
  pose proof (nats_attach_post L has_tls reg sink w Hw Hr) as Hp. unfold post in Hp.
  destruct (attach_with_sink has_tls reg sink w) as [[o w'] tr]. by exists o, w', tr.
Qed.

(** C31: whatever sequence of attaching, dispatching, flushing, detaching and destroying
    an adapter goes through in which it is never attached while it holds handles already
    (the code does not test that), every library object it created is either held in
    exactly its own member or destroyed, none of anybody else's is destroyed,
    and detaching leaves none. *)
Theorem nats_no_leak L w0 w :
  nats_live (user w0) = L → released (st w0) → rtc nats_step w0 w →
  (nats_live (user w) = L ∪ owned (st w) ∧ L ## owned (st w) ∧ (released (st w) ∨ online (st w))) ∧
  (∀ o w' tr, detach w = (o, w', tr) → o = Ret () ∧ nats_live (user w') = L).
Proof.
  intros HL Hr Hsteps.
  assert (settled L w) as [[Hl Hd] Hs].
  { assert (settled L w0) as Hw0.
    { split; [|by left]. split; rewrite (nats_owned_released (st w0)) by done; set_solver. }
    clear -Hsteps Hw0. induction Hsteps as [|w1 w2 w3 Hstep _ IH]; [done|].
    apply IH. by eapply nats_step_settled. }
  split; [done|]. intros o w' tr Hrun.
  pose proof (nats_detach_post L w (conj Hl Hd)) as Hp. unfold post in Hp. rewrite Hrun in Hp. simpl in Hp.
  destruct Hp as (-> & [[Hl' _] _] & Hr'). split; [done|]. rewrite Hl', (nats_owned_released (st w')) by done. set_solver.
Qed.

(** Dispatching through a connected adapter publishes the encoded envelope
    once, on the configured subject, and waits for the server exactly when the
    envelope asks for an acknowledgement; an envelope that cannot be encoded
    throws and publishes nothing, and an adapter that is not connected drops it. *)
Theorem nats_dispatch_publishes v c w :
  core_of (heap w) v = Ret c →
  dispatch v w =
  match conn (st w) with
  | None => (Ret (), w, [])
  | Some k =>
      match encode_payload (format (config (st w))) (heap w) v with
      | Ret bytes =>
          let u := (natsConnection_Publish k (subject (config (st w))) bytes
                      (i32_wrap (Z.of_nat (length bytes))) (user w)).2 in
          (Ret (), World (heap w) (locked w) (reads w)
                     (if contains flags.RequireAck c then (natsConnection_FlushTimeout k 5000 u).2 else u)
                     (st w), [])
      | Throw e => (Throw e, w, [])
      | Undef u => (Undef u, w, [])
      end
  end.
Proof.
  intros Hc. destruct w as [hp lk rd us s]. simpl in *.
  unfold dispatch, mbind, comp_bind, gets. simpl. destruct (conn s) as [k|]; [|done].
  simpl. unfold payload_bytes, mbind, comp_bind, get_world, lift. simpl.
  destruct (encode_payload (format (config s)) hp v) as [bytes|e|u]; simpl; [|done..].
  unfold lib_c, lib. simpl.
  destruct (natsConnection_Publish k (subject (config s)) bytes _ us) as [st1 u1] eqn:Hpub. simpl.
  unfold requires_ack, mbind, comp_bind, read_core. simpl. rewrite Hc. simpl.
  destruct (contains flags.RequireAck c); [|done].
  simpl. unfold lib_c, lib. simpl. by destruct (natsConnection_FlushTimeout k 5000 u1).
Qed.
End theorems.

(** ** Witnesses *)

Definition number (x : nats_object) : handle :=
  match x with OOptions p | OConnection p | OSubscription p => p end.

#[local] Instance toy_nats : NatsLib (toy nats_object) := {|
  natsStatus := bool;
  NATS_OK := true;
  natsStatus_GetText s := Some (if s : bool then "OK" else "Error");
  natsOptions_Create p u := toy_create number OOptions true p u;
  natsOptions_Set _ _ u := (true, u);
  natsOptions_Destroy o u := toy_drop (OOptions o) u;
  natsConnection_Connect p _ u := toy_create number OConnection (negb (toy_refuses u)) p u;
  natsConnection_Subscribe p _ _ u := toy_create number OSubscription true p u;
  natsConnection_QueueSubscribe p _ _ _ u := toy_create number OSubscription true p u;
  natsConnection_Publish _ s b _ u := (true, toy_send s b u);
  natsConnection_FlushTimeout _ _ u := (true, toy_wait u);
  natsConnection_Drain _ u := (true, u);
  natsConnection_Destroy c u := toy_drop (OConnection c) u;
  natsSubscription_Unsubscribe _ u := (true, u);
  natsSubscription_Destroy s u := toy_drop (OSubscription s) u;
  natsMsg := list Z;
  natsMsg_GetData m := Some m;
  natsMsg_GetDataLength m := Z.of_nat (length m);
  natsMsg_Destroy _ u := u;
|}.

Lemma toy_constructs mk ok p u :
  (∀ x, number (mk x) = x) → constructs toy_live mk p u (toy_create number mk ok p u).
Proof.
  intros Hmk. destruct ok; simpl; [left|by right]. split; [done|]. eexists.
  split_and!; [done|by apply toy_fresh_new|done].
Qed.

#[local] Instance toy_laws : NatsLaws (toy nats_object).
Proof. refine {| nats_live := toy_live |}; intros; try done; by apply toy_constructs. Defined.

Definition toy_config : Config :=
  MkConfig "nats://localhost:4222" "" None None (Some "secret") None None 10 2 60 "conduit.envelope" None Json.

(** A fresh adapter, and two worlds: the server accepts connections, or not. *)
Definition fresh_adapter : NatsState := MkNats (set_name "conduit-1" toy_config) (new_Impl None) None None None false.
Definition toy_world (refuses : bool) : world (toy nats_object) NatsState :=
  World {[1%positive := sample_core]} false 0 (Toy {[OOptions 7%positive]} [] 0 refuses) fresh_adapter.

Example nats_construct_fresh : construct "1" toy_config None = Ret fresh_adapter.
Proof. reflexivity. Qed.

Lemma nats_attach_all_or_nothing_witness :
  ∃ o w' tr, attach_with_sink true 1%positive SinkBus (toy_world true) = (o, w', tr) ∧
    ((o = Ret () ∧ owns {[OOptions 7%positive]} w' ∧ online (st w') ∧
      impl (st w') = install_sinks 1 SinkBus (impl (st (toy_world true)))) ∨
     (∃ e, o = Throw e ∧ (exn_type e = NatsError ∨ exn_type e = TlsNotSupportedError) ∧
           nats_live (user w') = {[OOptions 7%positive]} ∧ released (st w')) ∨
     o = Undef SignedOverflow).
Proof.
  apply (nats_attach_all_or_nothing true 1%positive SinkBus {[OOptions 7%positive]} (toy_world true)); done.
Defined.

(** Attach and publish one envelope. *)
Abbreviation online_world :=
  (world_after (nats_run (CAttach true 1%positive SinkBus)) (toy_world false)).

Lemma nats_online_world_run :
  nats_run (CAttach true 1%positive SinkBus) (toy_world false) =
  (Ret (), online_world, trace_of (nats_run (CAttach true 1%positive SinkBus)) (toy_world false)).
Proof. apply completed_run. vm_compute. reflexivity. Qed.

(** Attached twice and then detached: the objects of the first attach are still there,
    and no member holds them. *)
Definition attached_twice := world_after (nats_run (CAttach true 1%positive SinkBus)) online_world.
Definition attached_twice_detached := world_after (nats_run CDetach) attached_twice.

Example nats_attach_twice_leaks :
  bool_decide (owned (st online_world) ⊆ toy_live (user attached_twice_detached)) = true ∧
  bool_decide (owned (st online_world) = ∅) = false ∧
  bool_decide (owned (st attached_twice_detached) = ∅) = true ∧
  bool_decide (owned (st online_world) ## owned (st attached_twice)) = true.
Proof. split_and!; vm_compute; reflexivity. Qed.

Example nats_online_world_sent :
  toy_sent (user (dispatch (envelope_at 1%positive) online_world).1.2) =
  [("conduit.envelope", json_bytes (match to_json no_display_info sample_core with Ret j => j | _ => CNull end))].
Proof. vm_compute. reflexivity. Qed.

Lemma nats_no_leak_witness :
  (nats_live (user online_world) = {[OOptions 7%positive]} ∪ owned (st online_world) ∧
   {[OOptions 7%positive]} ## owned (st online_world) ∧
   (released (st online_world) ∨ online (st online_world))) ∧
  (∀ o w' tr, detach online_world = (o, w', tr) → o = Ret () ∧ nats_live (user w') = {[OOptions 7%positive]}).
Proof.
  apply (nats_no_leak {[OOptions 7%positive]} (toy_world false) online_world); [done|done|].
  apply rtc_once.
  apply (NatsStep _ _ _ _ _ nats_online_world_run); [by intros [? ?]|done].
Defined.

Lemma nats_dispatch_publishes_witness :
  core_of (heap (toy_world false)) (envelope_at 1%positive) = Ret sample_core ∧
  dispatch (envelope_at 1%positive) (toy_world false) = (Ret (), toy_world false, []).
Proof.
  split; [reflexivity|].
  apply (nats_dispatch_publishes (envelope_at 1%positive) sample_core (toy_world false)).
  reflexivity.
Defined.
