(* ===== verification/Redis.v ===== *)
(** * The Redis adapter ([transports/redis/src/transport.cpp])

    redis-plus-plus is the class [RedisLib]: constructors and methods on the
    library's state, which may throw.  The adapter owns a publisher, a subscriber
    with its connection, and the thread that consumes the subscription. *)

From S2P Require Import Prelude Exceptions External Flags Instances Envelope EnvelopeWire Serialization SerializationProps.
From S2P Require Import World WorldLogic WorldSafety Hosts Bus BusSafety Transport Adapter Resources AdapterProps ToyClient.

(** ** Configuration *)

Record Config := MkConfig {
  url : string;
  username : option string;
  password : option string;
  db : option Z;
  tls : option TlsConfig;
  connect_timeout : Z;
  channel : string;
  format : Format;
}.

(** The members of [sw::redis::ConnectionOptions] that the adapter writes; [rest]
    is what the URL says about the others. *)
Record ConnectionOptions (rest : Type) := MkOptions {
  o_rest : rest;
  o_user : string;
  o_password : string;
  o_db : Z;
  o_connect_timeout : Z;
  o_socket_timeout : Z;
  o_tls_enabled : bool;
  o_cacert : string;
  o_cert : string;
  o_key : string;
}.
Arguments MkOptions {_} _ _ _ _ _ _ _ _ _ _.
Arguments o_rest {_} _.
Arguments o_user {_} _.
Arguments o_password {_} _.
Arguments o_db {_} _.
Arguments o_connect_timeout {_} _.
Arguments o_socket_timeout {_} _.
Arguments o_tls_enabled {_} _.
Arguments o_cacert {_} _.
Arguments o_cert {_} _.
Arguments o_key {_} _.

(** ** redis-plus-plus *)

Class RedisLib (U : Type) := {
  uri_rest : Type;
  (* sw::redis::Uri{url}.connection_options() *)
  parse_uri : string → outcome (ConnectionOptions uri_rest);
  (* std::make_unique<sw::redis::Redis>(opts) and its destruction *)
  redis_new : ConnectionOptions uri_rest → U → outcome positive * U;
  redis_delete : positive → U → U;
  redis_ping : positive → U → outcome () * U;
  redis_publish : positive → string → list Z → U → outcome Z * U;
  (* std::make_unique<sw::redis::Subscriber>(conn->subscriber()) *)
  redis_subscriber : positive → U → outcome positive * U;
  subscriber_delete : positive → U → U;
  subscriber_on_message : positive → U → U;
  subscriber_subscribe : positive → string → U → outcome () * U;
  redis_threads :: ThreadLib U;
}.

Inductive redis_object :=
  | ORedis (r : positive)
  | OSubscriber (s : positive)
  | OThread (t : positive).

#[export] Instance redis_object_eq_dec : EqDecision redis_object.
Proof. solve_decision. Defined.

#[export] Instance redis_object_countable : Countable redis_object.
Proof.
  refine (inj_countable'
    (λ x, match x with ORedis r => inl r | OSubscriber s => inr (inl s) | OThread t => inr (inr t) end)
    (λ s, match s with inl r => ORedis r | inr (inl s) => OSubscriber s | inr (inr t) => OThread t end) _).
  by intros [].
Defined.

Class RedisLaws (U : Type) `{RedisLib U} := {
  redis_live : U → gset redis_object;
  redis_new_builds o u : builds redis_live ORedis u (redis_new o u);
  redis_subscriber_builds r u : builds redis_live OSubscriber u (redis_subscriber r u);
  redis_thread_builds n u : builds redis_live OThread u (thread_new n u);
  redis_delete_live r u : redis_live (redis_delete r u) = redis_live u ∖ {[ORedis r]};
  subscriber_delete_live s u : redis_live (subscriber_delete s u) = redis_live u ∖ {[OSubscriber s]};
  thread_delete_live t u : redis_live (thread_delete t u) = redis_live u ∖ {[OThread t]};
  redis_ping_uses r u : uses redis_live u (redis_ping r u);
  redis_publish_uses r c b u : uses redis_live u (redis_publish r c b u);
  subscriber_on_message_live s u : redis_live (subscriber_on_message s u) = redis_live u;
  subscriber_subscribe_uses s c u : uses redis_live u (subscriber_subscribe s c u);
  thread_request_stop_live t u : redis_live (thread_request_stop t u) = redis_live u;
  thread_join_uses t u : uses redis_live u (thread_join t u);
  parse_uri_throws s : throws_only (λ c, catches std_exception c = true) (parse_uri s);
  parse_uri_defined s : ¬ is_undef (parse_uri s);
}.

(** ** The adapter *)

Record RedisState := MkRedis {
  config : Config;
  impl : Impl;
  publisher : option positive;
  subscriber_conn : option positive;
  subscriber : option positive;
  subscriber_thread : option positive;
  connected : bool;
}.

Definition set_impl (i : Impl) (s : RedisState) : RedisState :=
  MkRedis (config s) i (publisher s) (subscriber_conn s) (subscriber s) (subscriber_thread s) (connected s).
Definition set_publisher (p : option positive) (s : RedisState) : RedisState :=
  MkRedis (config s) (impl s) p (subscriber_conn s) (subscriber s) (subscriber_thread s) (connected s).
Definition set_subscriber_conn (p : option positive) (s : RedisState) : RedisState :=
  MkRedis (config s) (impl s) (publisher s) p (subscriber s) (subscriber_thread s) (connected s).
Definition set_subscriber (p : option positive) (s : RedisState) : RedisState :=
  MkRedis (config s) (impl s) (publisher s) (subscriber_conn s) p (subscriber_thread s) (connected s).
Definition set_subscriber_thread (p : option positive) (s : RedisState) : RedisState :=
  MkRedis (config s) (impl s) (publisher s) (subscriber_conn s) (subscriber s) p (connected s).
Definition set_connected (b : bool) (s : RedisState) : RedisState :=
  MkRedis (config s) (impl s) (publisher s) (subscriber_conn s) (subscriber s) (subscriber_thread s) b.

Definition construct (cfg : Config) (reg : option obj) : outcome RedisState :=
  if String.eqb (channel cfg) "" then
    Throw (Exn ConfigError "conduit::redis::Transport: Config::channel must be non-empty")
  else Ret (MkRedis cfg (new_Impl reg) None None None None false).

(** [k_subscriber_poll_timeout], in milliseconds *)
Definition k_subscriber_poll_timeout : Z := 200.

Section options.
Context {U : Type} `{RedisLib U}.

(** ["tls://"] is spelled ["rediss://"] for the library. *)
Definition normalise_url (url : string) : string :=
  match strip_prefix "tls://" url with
  | Some r => "rediss://" +:+ r
  | None => url
  end.

(** [to_connection_options]; [has_tls] is whether [REDIS_PLUS_PLUS_USE_TLS] is
    defined. *)
Definition to_connection_options (has_tls : bool) (c : Config) : outcome (ConnectionOptions uri_rest) :=
  o ← parse_uri (normalise_url (url c));
  timeout ← milliseconds (connect_timeout c);
  let o := MkOptions (o_rest o) (default (o_user o) (username c)) (default (o_password o) (password c))
             (default (o_db o) (db c)) timeout (o_socket_timeout o)
             (o_tls_enabled o) (o_cacert o) (o_cert o) (o_key o) in
  match tls c with
  | None => Ret o
  | Some t =>
      if has_tls then
        Ret (MkOptions (o_rest o) (o_user o) (o_password o) (o_db o) (o_connect_timeout o)
               (o_socket_timeout o) true (ca_file t) (default (o_cert o) (cert_file t))
               (default (o_key o) (key_file t)))
      else
        Throw (Exn TlsNotSupportedError
          "conduit::redis::Transport: Config::tls set but the transport was built without CONDUIT_TRANSPORT_REDIS_TLS")
  end.

Definition with_socket_timeout (t : Z) (o : ConnectionOptions uri_rest) : ConnectionOptions uri_rest :=
  MkOptions (o_rest o) (o_user o) (o_password o) (o_db o) (o_connect_timeout o) t
    (o_tls_enabled o) (o_cacert o) (o_cert o) (o_key o).
End options.

Section ops.
Context `{Externals} {U : Type} `{RedisLib U}.
Abbreviation comp := (comp U RedisState).

Definition shutdown : comp () :=
  noexcept (
    t ← gets subscriber_thread;
    match t with
    | Some t =>
        lib_void (thread_request_stop t);;
        join_quietly t;;
        reset_member subscriber_thread set_subscriber_thread thread_delete None
    | None => mret ()
    end;;
    reset_member subscriber set_subscriber subscriber_delete None;;
    reset_member subscriber_conn set_subscriber_conn redis_delete None;;
    reset_member publisher set_publisher redis_delete None;;
    modify (set_connected false)).

(** The body of the [try] block of [attach_with_sink]. *)
Definition connect (has_tls : bool) : comp () :=
  cfg ← gets config;
  pub_opts ← lift (to_connection_options has_tls cfg);
  p ← lib (redis_new pub_opts);
  reset_member publisher set_publisher redis_delete (Some p);;
  lib (redis_ping p);;
  sub_opts ← lift (to_connection_options has_tls cfg);
  c ← lib (redis_new (with_socket_timeout k_subscriber_poll_timeout sub_opts));
  reset_member subscriber_conn set_subscriber_conn redis_delete (Some c);;
  sub ← lib (redis_subscriber c);
  on_unwind
    (lib_void (subscriber_on_message sub);;
     lib (subscriber_subscribe sub (channel cfg)))
    (lib_void (subscriber_delete sub));;
  reset_member subscriber set_subscriber subscriber_delete (Some sub);;
  modify (set_connected true).

Definition redis_error (e : exn) : exn :=
  Exn RedisError ("conduit::redis::Transport::attach: " +:+ what e).

Definition attach_with_sink (has_tls : bool) (bus_registry : obj) (sink : InboundSink) : comp () :=
  modify (λ s, set_impl (install_sinks bus_registry sink (impl s)) s);;
  catch_class std_exception (connect has_tls) (λ e, shutdown;; lift (Throw (redis_error e)));;
  t ← lib (thread_new "conduit:redis-sub");
  reset_member subscriber_thread set_subscriber_thread thread_delete (Some t).

Definition detach : comp () :=
  noexcept (shutdown;; modify (λ s, set_impl (clear_sink (impl s)) s)).

(** The destructor. *)
Definition destroy : comp () := noexcept shutdown.

Definition dispatch (v : EventEnvelope) : comp () :=
  p ← gets publisher;
  match p with
  | None => mret ()
  | Some p =>
      cfg ← gets config;
      payload ← payload_bytes (format cfg) v;
      catch_all (_ ← lib (redis_publish p (channel cfg) payload); mret ()) (λ _, mret ())
  end.

Definition flush : comp () := mret ().

Definition is_connected : comp bool := gets connected.

Definition redis_scope : TransportScope := Remote.
End ops.

(** *** The subscriber thread *)

(** What one [subscriber->consume()] comes to: a message, for which the library
    calls back, anything else it read, the socket timeout, or another exception. *)
Inductive consumed :=
  | Message (payload : list Z)
  | OtherReply
  | TimedOut
  | Broken.

Section inbound.
Context `{Externals} {U S : Type} `{!BusLink U S} (h : host U S).

Definition deliver (c : Config) (i : Impl) (payload : list Z) : comp U S () :=
  deliver_payload h "redis" (format c) i payload.

(** One [consume()]: whether the loop goes on. *)
Definition consume (c : Config) (i : Impl) (r : consumed) : comp U S bool :=
  match r with
  | Message payload => catch_all (deliver c i payload;; mret true) (λ _, mret false)
  | OtherReply => mret true
  | TimedOut => mret true
  | Broken => mret false
  end.

(** The body of the thread: [stop] is what [tok.stop_requested()] says before each
    [consume()]. *)
Fixpoint subscriber_loop (c : Config) (i : Impl) (script : list (bool * consumed)) : comp U S () :=
  match script with
  | [] => mret ()
  | (stop, r) :: script =>
      if stop : bool then mret ()
      else
        go ← consume c i r;
        if (go : bool) then subscriber_loop c i script else mret ()
  end.
End inbound.

(** ** Ownership *)

Section ownership.
Context `{Externals} {U : Type} `{RedisLaws U}.
Implicit Types w : world U RedisState.

Definition owned (s : RedisState) : gset redis_object :=
  object ORedis (publisher s) ∪ object ORedis (subscriber_conn s) ∪
  object OSubscriber (subscriber s) ∪ object OThread (subscriber_thread s).

(** The two connections are different objects. *)
Definition tidy (s : RedisState) : Prop :=
  object ORedis (publisher s) ## object ORedis (subscriber_conn s).

(** [L] belongs to others, [X] to local variables, [owned] to the members. *)
Definition holds (L X : gset redis_object) w : Prop :=
  owns redis_live owned L X w ∧ tidy (st w).

Definition released (s : RedisState) : Prop :=
  publisher s = None ∧ subscriber_conn s = None ∧ subscriber s = None ∧
  subscriber_thread s = None ∧ connected s = false.

Definition online (s : RedisState) : Prop :=
  is_Some (publisher s) ∧ is_Some (subscriber_conn s) ∧ is_Some (subscriber s) ∧
  is_Some (subscriber_thread s) ∧ connected s = true.

Lemma redis_owned_released s : released s → owned s = ∅.
Proof. intros (Hp & Hc & Hs & Ht & _). unfold owned. rewrite Hp, Hc, Hs, Ht. set_solver. Qed.

Lemma redis_holds_released L w : redis_live (user w) = L → released (st w) → holds L ∅ w.
Proof.
  intros HL Hr. split; [split; rewrite (redis_owned_released (st w)) by done; set_solver|].
  destruct Hr as (Hp & _). unfold tidy. rewrite Hp. set_solver.
Qed.

Lemma redis_holds_modify L X f w :
  holds L X w → owned (f (st w)) = owned (st w) → tidy (f (st w)) →
  holds L X (World (heap w) (locked w) (reads w) (user w) (f (st w))).
Proof. intros [Hw _] Ho Ht. split; [by apply owns_modify|done]. Qed.

(** The rules of [Resources.v] for each member. *)
Lemma reset_thread L X p w (Q : outcome () → world U RedisState → Prop) :
  holds L (object OThread p ∪ X) w → object OThread p ## X →
  (∀ w', holds L X w' → st w' = set_subscriber_thread p (st w) → Q (Ret ()) w') →
  post (reset_member subscriber_thread set_subscriber_thread thread_delete p) Q w.
Proof.
  intros [Hw Ht] Hp HQ.
  eapply (post_reset redis_live owned L X _ _ _ OThread p
    (object ORedis (publisher (st w)) ∪ object ORedis (subscriber_conn (st w)) ∪
     object OSubscriber (subscriber (st w)))); [done|done|apply thread_delete_live| | | |].
  - unfold owned. set_solver.
  - destruct (subscriber_thread (st w)), (publisher (st w)), (subscriber_conn (st w)), (subscriber (st w)); set_solver.
  - unfold owned. simpl. set_solver.
  - intros w' Hw' Hs. apply HQ; [split; [done|by rewrite Hs]|done].
Qed.

Lemma reset_subscriber L X p w (Q : outcome () → world U RedisState → Prop) :
  holds L (object OSubscriber p ∪ X) w → object OSubscriber p ## X →
  (∀ w', holds L X w' → st w' = set_subscriber p (st w) → Q (Ret ()) w') →
  post (reset_member subscriber set_subscriber subscriber_delete p) Q w.
Proof.
  intros [Hw Ht] Hp HQ.
  eapply (post_reset redis_live owned L X _ _ _ OSubscriber p
    (object ORedis (publisher (st w)) ∪ object ORedis (subscriber_conn (st w)) ∪
     object OThread (subscriber_thread (st w)))); [done|done|apply subscriber_delete_live| | | |].
  - unfold owned. set_solver.
  - destruct (subscriber_thread (st w)), (publisher (st w)), (subscriber_conn (st w)), (subscriber (st w)); set_solver.
  - unfold owned. simpl. set_solver.
  - intros w' Hw' Hs. apply HQ; [split; [done|by rewrite Hs]|done].
Qed.

Lemma reset_conn L X p w (Q : outcome () → world U RedisState → Prop) :
  holds L (object ORedis p ∪ X) w → object ORedis p ## X →
  (∀ w', holds L X w' → st w' = set_subscriber_conn p (st w) → Q (Ret ()) w') →
  post (reset_member subscriber_conn set_subscriber_conn redis_delete p) Q w.
Proof.
  intros [Hw Ht] Hp HQ.
  eapply (post_reset redis_live owned L X _ _ _ ORedis p
    (object ORedis (publisher (st w)) ∪ object OSubscriber (subscriber (st w)) ∪
     object OThread (subscriber_thread (st w)))); [done|done|apply redis_delete_live| | | |].
  - unfold owned. set_solver.
  - unfold tidy in Ht.
    destruct (subscriber_thread (st w)), (publisher (st w)), (subscriber_conn (st w)), (subscriber (st w)); set_solver.
  - unfold owned. simpl. set_solver.
  - intros w' Hw' Hs. apply HQ; [split; [done|]|done]. rewrite Hs. unfold tidy. simpl.
    destruct Hw as (_ & _ & _ & Hd). unfold owned in Hd. set_solver.
Qed.

Lemma reset_publisher L X p w (Q : outcome () → world U RedisState → Prop) :
  holds L (object ORedis p ∪ X) w → object ORedis p ## X →
  (∀ w', holds L X w' → st w' = set_publisher p (st w) → Q (Ret ()) w') →
  post (reset_member publisher set_publisher redis_delete p) Q w.
Proof.
  intros [Hw Ht] Hp HQ.
  eapply (post_reset redis_live owned L X _ _ _ ORedis p
    (object ORedis (subscriber_conn (st w)) ∪ object OSubscriber (subscriber (st w)) ∪
     object OThread (subscriber_thread (st w)))); [done|done|apply redis_delete_live| | | |].
  - unfold owned. set_solver.
  - unfold tidy in Ht.
    destruct (subscriber_thread (st w)), (publisher (st w)), (subscriber_conn (st w)), (subscriber (st w)); set_solver.
  - unfold owned. simpl. set_solver.
  - intros w' Hw' Hs. apply HQ; [split; [done|]|done]. rewrite Hs. unfold tidy. simpl.
    destruct Hw as (_ & _ & _ & Hd). unfold owned in Hd. set_solver.
Qed.

Lemma redis_holds_none L X mk w : holds L X w → holds L (object mk None ∪ X) w.
Proof. simpl. by rewrite (left_id_L ∅ (∪)). Qed.

Lemma join_quietly_post L X t w (Q : outcome () → world U RedisState → Prop) :
  holds L X w → (∀ w', holds L X w' → st w' = st w → Q (Ret ()) w') → post (join_quietly t) Q w.
Proof.
  intros [Hw Ht] HQ. apply post_catch_all, post_bind, post_lib_c. cbn beta iota.
  destruct (thread_joinable t (user w)).
  - eapply post_uses; [exact Hw|apply thread_join_uses| |].
    + intros [] w' Hw' Hs _. apply HQ; [split; [done|by rewrite Hs]|done].
    + intros e w' _ Hw' Hs. apply post_ret, HQ; [split; [done|by rewrite Hs]|done].
  - apply post_ret, HQ; [by destruct w|by destruct w].
Qed.

Lemma redis_shutdown_post L w :
  holds L ∅ w →
  post shutdown (λ o w', o = Ret () ∧ holds L ∅ w' ∧ released (st w') ∧ impl (st w') = impl (st w) ∧
                         config (st w') = config (st w)) w.
Proof.
  intros Hw. unfold shutdown. apply post_noexcept, post_bind, post_gets.
  assert (∀ w1, holds L ∅ w1 → subscriber_thread (st w1) = None → impl (st w1) = impl (st w) →
    config (st w1) = config (st w) →
    post (reset_member subscriber set_subscriber subscriber_delete None;;
          reset_member subscriber_conn set_subscriber_conn redis_delete None;;
          reset_member publisher set_publisher redis_delete None;;
          modify (set_connected false))
      (λ o w', o = Ret () ∧ holds L ∅ w' ∧ released (st w') ∧
               impl (st w') = impl (st w) ∧ config (st w') = config (st w)) w1) as Hrest.
  { intros w1 Hw1 Ht Hi Hc.
    apply post_bind, (reset_subscriber L ∅); [by apply redis_holds_none|set_solver|]. intros w2 Hw2 Hs2.
    apply post_bind, (reset_conn L ∅); [by apply redis_holds_none|set_solver|]. intros w3 Hw3 Hs3.
    apply post_bind, (reset_publisher L ∅); [by apply redis_holds_none|set_solver|]. intros w4 Hw4 Hs4.
    apply post_modify. assert (tidy (st w4)) as Ht4 by apply Hw4.
    split; [done|]. split; [by apply redis_holds_modify|]. simpl. rewrite Hs4, Hs3, Hs2. done. }
  apply post_bind. destruct (subscriber_thread (st w)) as [t|] eqn:Ht.
  - apply post_bind, post_lib_void, post_bind, (join_quietly_post L ∅).
    { destruct Hw as [(Hl & Hd) Htd]. split; [|done]. split; simpl; [by rewrite thread_request_stop_live|done]. }
    intros w1 Hw1 Hs1. apply (reset_thread L ∅); [by apply redis_holds_none|set_solver|].
    intros w2 Hw2 Hs2. simpl in Hs1.
    eapply post_mono; [apply Hrest; rewrite ?Hs2; simpl; rewrite ?Hs1; done|]. by intros ? w' (-> & ?).
  - apply post_ret. eapply post_mono; [by apply Hrest|]. by intros ? w' (-> & ?).
Qed.
Lemma to_connection_options_cases has_tls c :
  (∃ o, to_connection_options has_tls c = Ret o) ∨
  (∃ e, to_connection_options has_tls c = Throw e ∧ is_std e) ∨
  to_connection_options has_tls c = Undef SignedOverflow.
Proof.
  unfold to_connection_options, milliseconds. pose proof (parse_uri_throws (normalise_url (url c))) as Ht.
  pose proof (parse_uri_defined (normalise_url (url c))) as Hd.
  destruct (parse_uri (normalise_url (url c))) as [o|e|u]; simpl.
  - destruct (in_i64 (connect_timeout c * 1000)); simpl; [|by right; right].
    destruct (tls c); [|by left; eexists]. destruct has_tls; [by left; eexists|].
    right. left. by eexists.
  - right. left. exists e. split; [done|]. by apply Ht.
  - by destruct Hd; eexists.
Qed.

(** How the [try] block of [attach] ends. *)
Definition connected_or (L : gset redis_object) (s0 : RedisState) (o : outcome ()) w' : Prop :=
  match o with
  | Ret _ => holds L ∅ w' ∧ impl (st w') = impl s0 ∧ subscriber_thread (st w') = subscriber_thread s0 ∧
             is_Some (publisher (st w')) ∧ is_Some (subscriber_conn (st w')) ∧
             is_Some (subscriber (st w')) ∧ connected (st w') = true
  | Throw e => is_std e ∧ holds L ∅ w'
  | Undef u => u = SignedOverflow
  end.

Lemma post_options L s0 has_tls c (k : ConnectionOptions uri_rest → comp U RedisState ()) w :
  holds L ∅ w → (∀ o, post (k o) (connected_or L s0) w) →
  post (lift (to_connection_options has_tls c) ≫= k) (connected_or L s0) w.
Proof.
  intros Hw Hk. apply post_bind, post_lift.
  destruct (to_connection_options_cases has_tls c) as [[o ->]|[(e & -> & He)| ->]]; [apply Hk|by split|done].
Qed.

Lemma redis_connect_post L has_tls w :
  holds L ∅ w → post (connect has_tls) (connected_or L (st w)) w.
Proof.
  intros Hw. unfold connect. apply post_bind, post_gets. apply post_options; [done|]. intros pub_opts.
  (* the publisher *)
  apply post_bind. destruct Hw as [Hw Ht].
  eapply (post_builds redis_live owned); [done|apply redis_new_builds| |].
  2:{ intros e w1 He Hw1 Hs1. split; [done|]. split; [done|by rewrite Hs1]. }
  intros p w1 Hw1 Hs1 _. apply post_bind, (reset_publisher L ∅); [|set_solver|].
  { split; [exact Hw1|by rewrite Hs1]. }
  intros w2 [Hw2 Ht2] Hs2. apply post_bind.
  eapply (post_uses redis_live owned); [done|apply redis_ping_uses| |].
  2:{ intros e w3 He Hw3 Hs3. split; [done|]. split; [done|by rewrite Hs3]. }
  intros [] w3 Hw3 Hs3 _. apply post_options; [split; [done|by rewrite Hs3]|]. intros sub_opts.
  (* the subscriber's connection *)
  apply post_bind. eapply (post_builds redis_live owned); [done|apply redis_new_builds| |].
  2:{ intros e w4 He Hw4 Hs4. split; [done|]. split; [done|by rewrite Hs4, Hs3]. }
  intros c w4 Hw4 Hs4 _. apply post_bind, (reset_conn L ∅); [|set_solver|].
  { split; [exact Hw4|by rewrite Hs4, Hs3]. }
  intros w5 [Hw5 Ht5] Hs5. apply post_bind.
  (* the subscriber, a local until it is subscribed *)
  eapply (post_builds redis_live owned); [done|apply redis_subscriber_builds| |].
  2:{ intros e w6 He Hw6 Hs6. split; [done|]. split; [done|by rewrite Hs6]. }
  intros s w6 Hw6 Hs6 _. apply post_bind, post_catch_all, post_bind, post_lib_void.
  eapply (post_uses redis_live owned L ({[OSubscriber s]} ∪ ∅)); [|apply subscriber_subscribe_uses| |].
  - destruct Hw6 as [Hl Hd]. split; simpl; [by rewrite subscriber_on_message_live|done].
  - intros [] w7 Hw7 Hs7 _. simpl in Hs7. apply post_bind, (reset_subscriber L ∅); [|set_solver|].
    { split; [exact Hw7|]. rewrite Hs7. simpl. by rewrite Hs6. }
    intros w8 [Hw8 Ht8] Hs8. apply post_modify. split; [by apply redis_holds_modify|].
    rewrite Hs8. simpl. rewrite Hs7. simpl. rewrite Hs6, Hs5. simpl. rewrite Hs4, Hs3, Hs2. simpl.
    rewrite Hs1. split_and!; try done; by eexists.
  - intros e w7 He Hw7 Hs7. apply post_bind.
    eapply (post_delete redis_live owned L ∅ _ (OSubscriber s)); [done|set_solver|apply subscriber_delete_live|].
    intros w8 Hw8 Hs8. apply post_lift. split; [done|]. split; [done|]. rewrite Hs8, Hs7. simpl. by rewrite Hs6.
Qed.
End ownership.

(** ** Sequences of operations *)

Section steps.
Context `{Externals} {U : Type} `{RedisLaws U}.
Implicit Types w : world U RedisState.

Inductive redis_call :=
  | CAttach (has_tls : bool) (reg : obj) (sink : InboundSink)
  | CDispatch (v : EventEnvelope)
  | CFlush
  | CDetach
  | CDestroy.

Definition redis_run (c : redis_call) : comp U RedisState () :=
  match c with
  | CAttach has_tls reg sink => attach_with_sink has_tls reg sink
  | CDispatch v => dispatch v
  | CFlush => flush
  | CDetach => detach
  | CDestroy => destroy
  end.

(** One operation, its exception caught by the caller. *)
Inductive redis_step : world U RedisState → world U RedisState → Prop :=
  | RedisStep c w o w' tr :
      redis_run c w = (o, w', tr) → ¬ is_undef o → redis_step w w'.

(** How [attach_with_sink] ends. *)
Definition attach_result (L : gset redis_object) (i : Impl) (s0 : RedisState) (o : outcome ()) w' : Prop :=
  (o = Ret () ∧ holds L ∅ w' ∧ online (st w') ∧ impl (st w') = i) ∨
  (∃ e, o = Throw e ∧ exn_type e = RedisError ∧ holds L ∅ w' ∧ released (st w')) ∨
  (∃ e, o = Throw e ∧ is_std e ∧ holds L ∅ w' ∧ connected (st w') = true ∧
        subscriber_thread (st w') = subscriber_thread s0) ∨
  o = Undef SignedOverflow.

Lemma redis_attach_post L has_tls reg sink w :
  holds L ∅ w →
  post (attach_with_sink has_tls reg sink)
    (attach_result L (install_sinks reg sink (impl (st w))) (st w)) w.
Proof.
  intros Hw. unfold attach_with_sink. apply post_bind, post_modify.
  set (w1 := World _ _ _ _ _). assert (holds L ∅ w1) as Hw1 by (apply redis_holds_modify; [done..|apply Hw]).
  apply post_bind, post_catch_all. eapply post_mono; [by apply (redis_connect_post L)|].
  intros [[]|e|u] w2; [|intros [He Hw2]|intros ->; by right; right; right].
  - intros (Hw2 & Hi & Ht & Hp & Hc & Hs & Hb). apply post_bind. destruct Hw2 as [Hw2 Htd].
    eapply (post_builds redis_live owned); [done|apply redis_thread_builds| |].
    + intros t w3 Hw3 Hs3 _. apply (reset_thread L ∅); [split; [exact Hw3|by rewrite Hs3]|set_solver|].
      intros w4 Hw4 Hs4. left. rewrite Hs4, Hs3. by split_and!.
    + intros e w3 He Hw3 Hs3. right. right. left. exists e.
      split; [done|]. split; [done|]. split; [split; [done|by rewrite Hs3]|]. by rewrite Hs3.
  - rewrite He. apply post_bind. eapply post_mono; [by apply redis_shutdown_post|].
    intros ? w3 (-> & Hw3 & Hr & _). apply post_lift. right. left. by eexists.
Qed.

Lemma redis_detach_post L w :
  holds L ∅ w → post detach (λ o w', o = Ret () ∧ holds L ∅ w' ∧ released (st w')) w.
Proof.
  intros Hw. apply post_noexcept, post_bind. eapply post_mono; [by apply redis_shutdown_post|].
  intros ? w1 (-> & Hw1 & Hr & _). apply post_modify. split; [done|].
  split; [|done]. apply redis_holds_modify; [done..|apply Hw1].
Qed.

Lemma redis_dispatch_post L v w : holds L ∅ w → post (dispatch v) (λ _ w', holds L ∅ w') w.
Proof.
  intros Hw. apply post_bind, post_gets. destruct (publisher (st w)) as [p|]; [|done].
  apply post_bind, post_gets, post_bind, post_payload_bytes.
  destruct (encode_payload _ _ v) as [bytes|e|u]; [|done..].
  apply post_catch_all, post_bind. destruct Hw as [Hw Ht].
  eapply (post_uses redis_live owned); [done|apply redis_publish_uses| |].
  - intros n w1 Hw1 Hs1 _. apply post_ret. split; [done|by rewrite Hs1].
  - intros e w1 _ Hw1 Hs1. apply post_ret. split; [done|by rewrite Hs1].
Qed.

Lemma redis_step_holds L w w' : holds L ∅ w → redis_step w w' → holds L ∅ w'.
Proof.
  intros Hw Hstep. destruct Hstep as [c w o w' tr Hrun Hdef].
  assert (post (redis_run c) (λ o w', ¬ is_undef o → holds L ∅ w') w) as Hp.
  { destruct c as [has_tls reg sink|v| | |]; simpl.
    - eapply post_mono; [by apply (redis_attach_post L)|].
      intros ? w1 [(_ & ? & _)|[(e & _ & _ & ? & _)|[(e & _ & _ & ? & _)| ->]]] Hu; [done..|].
      by destruct Hu; eexists.
    - eapply post_mono; [by apply redis_dispatch_post|done].
    - by apply post_ret.
    - eapply post_mono; [by apply redis_detach_post|]. by intros ? ? (_ & ? & _).
    - apply post_noexcept. eapply post_mono; [by apply redis_shutdown_post|]. by intros ? ? (-> & ? & _). }
  unfold post in Hp. rewrite Hrun in Hp. by apply Hp.
Qed.
End steps.

(** ** Theorems *)

Section theorems.
Context `{Externals} {U : Type} `{RedisLaws U}.
Implicit Types w : world U RedisState.

(** Attaching a Redis adapter ends connected, with publisher, subscriber, its
    connection and its thread in place; or, whatever went wrong while connecting
    (an unparsable URL and a missing TLS build included), with a RedisError and
    everything given back; or, when only the thread could not be started, with
    that exception and the connections kept until they are detached.  The one
    exception is a timeout that overflows when turned into milliseconds. *)
Theorem redis_attach_or_release has_tls reg sink L w :
  redis_live (user w) = L → released (st w) →
  ∃ o w' tr, attach_with_sink has_tls reg sink w = (o, w', tr) ∧
    ((o = Ret () ∧ online (st w') ∧ redis_live (user w') = L ∪ owned (st w') ∧
      impl (st w') = install_sinks reg sink (impl (st w))) ∨
     (∃ e, o = Throw e ∧ exn_type e = RedisError ∧ released (st w') ∧ redis_live (user w') = L) ∨
     (∃ e, o = Throw e ∧ is_std e ∧ connected (st w') = true ∧ subscriber_thread (st w') = None ∧
           redis_live (user w') = L ∪ owned (st w')) ∨
     o = Undef SignedOverflow).
Proof.
  intros HL Hr. pose proof (redis_attach_post L has_tls reg sink w (redis_holds_released L w HL Hr)) as Hp.
  unfold post in Hp. destruct (attach_with_sink has_tls reg sink w) as [[o w'] tr]. simpl in Hp.
  exists o, w', tr. split; [done|].
  assert (∀ w', holds L ∅ w' → redis_live (user w') = L ∪ owned (st w')) as Hlive.
  { intros w1 [[Hl _] _]. by rewrite Hl, (right_id_L ∅ (∪)). }
  destruct Hp as [(-> & Hw' & Ho & Hi)|[(e & -> & He & Hw' & Hr')|[(e & -> & He & Hw' & Hc & Ht)| ->]]].
  - left. split_and!; auto.
  - right. left. exists e. split_and!; try done. rewrite (Hlive w' Hw'), (redis_owned_released _ Hr'). set_solver.
  - right. right. left. exists e. rewrite Ht. split_and!; try done; [apply Hr|by apply Hlive].
  - by right; right; right.
Qed.

(** Whatever sequence of attaching (again and again, even without detaching),
    dispatching, flushing and detaching an adapter goes through, every client
    object it created is held in exactly one member or destroyed, none of anybody
    else's is destroyed, and detaching leaves none. *)
Theorem redis_no_leak L w0 w :
  redis_live (user w0) = L → released (st w0) → rtc redis_step w0 w →
  (redis_live (user w) = L ∪ owned (st w) ∧ L ## owned (st w)) ∧
  (∀ o w' tr, detach w = (o, w', tr) → o = Ret () ∧ released (st w') ∧ redis_live (user w') = L).
Proof.
  intros HL Hr Hsteps. assert (holds L ∅ w) as Hw.
  { pose proof (redis_holds_released L w0 HL Hr) as Hw0. clear -Hsteps Hw0.
    induction Hsteps as [|w1 w2 w3 Hstep _ IH]; [done|]. apply IH. by eapply redis_step_holds. }
  split.
  - destruct Hw as [(Hl & _ & Hd & _) _]. by rewrite Hl, (right_id_L ∅ (∪)).
  - intros o w' tr Hrun. pose proof (redis_detach_post L w Hw) as Hp. unfold post in Hp. rewrite Hrun in Hp.
    simpl in Hp. destruct Hp as (-> & [(Hl & _) _] & Hr'). split_and!; [done|done|].
    rewrite Hl, (redis_owned_released _ Hr'). set_solver.
Qed.

(** Dispatching through a connected adapter publishes the encoded envelope on
    the configured channel exactly once and returns normally whatever the server
    answers; an envelope that cannot be encoded throws and publishes nothing, and
    an adapter that is not connected drops it. *)
Theorem redis_dispatch_publishes v w :
  dispatch v w =
  match publisher (st w) with
  | None => (Ret (), w, [])
  | Some p =>
      match encode_payload (format (config (st w))) (heap w) v with
      | Ret bytes =>
          (Ret (), World (heap w) (locked w) (reads w)
                     (redis_publish p (channel (config (st w))) bytes (user w)).2 (st w), [])
      | Throw e => (Throw e, w, [])
      | Undef u => (Undef u, w, [])
      end
  end.
Proof.
  destruct w as [hp lk rd u s]. unfold dispatch, mbind, comp_bind, gets. simpl.
  destruct (publisher s) as [p|]; [|done]. simpl.
  unfold payload_bytes, mbind, comp_bind, get_world, lift. simpl.
  destruct (encode_payload (format (config s)) hp v) as [bytes|e|ub]; simpl; [|done..].
  unfold catch_all, lib. simpl.
  destruct (redis_publish_uses p (channel (config s)) bytes u) as (_ & Hd & _).
  destruct (redis_publish p (channel (config s)) bytes u) as [[n|e|ub] u1]; simpl; [done|done|].
  by destruct Hd; eexists.
Qed.
End theorems.

(** The messages that the subscriber thread sees before it ends. *)
Fixpoint arrivals (script : list (bool * consumed)) : list (list Z) :=
  match script with
  | (false, Message p) :: script => p :: arrivals script
  | (false, OtherReply) :: script | (false, TimedOut) :: script => arrivals script
  | _ => []
  end.

Section loop.
Context `{ExternalLaws} {U : Type} (h : host U BusState) (I : BusState → U → Prop).
Context (own : obj) (others : obj → EventRegistry).
#[local] Instance redis_link : BusLink U BusState := bus_link h own others.

(** The subscriber thread hands over the messages one by one in the order in
    which they arrive, until it is asked to stop or the connection breaks: timeouts
    do not end it, nor do messages that fail to decode or listeners that throw. *)
Theorem redis_loop_in_order c sink sup script (w : world U BusState) :
  civil h I → (∀ s u, I s u → handlers_ok s) → good I w →
  (∀ p reg, p ∈ arrivals script → ¬ is_undef (decode_payload (format c) reg p)) →
  let i := install_sinks own sink (new_Impl sup) in
  ∃ w' tr, for_each (arrivals script) (deliver h c i) w = (Ret (), w', tr) ∧
           subscriber_loop h c i script w = (Ret (), w', tr) ∧ good I w'.
Proof.
  intros Hciv Hok Hg Hdef i. revert w Hg Hdef.
  induction script as [|[[] r] script IH]; intros w Hg Hdef; simpl; [by exists w, []..|].
  assert (∀ m : comp U BusState (),
    (mret true ≫= (λ go : bool, if go then m else mret ()) : comp U BusState ()) w = m w) as Hgo.
  { intros m. unfold mbind, comp_bind. simpl. by destruct (m w) as [[? ?] ?]. }
  destruct r as [p| | |]; simpl; rewrite ?Hgo; [|by apply IH..|by exists w, []].
  assert (∃ w1 tr1, deliver h c i p w = (Ret (), w1, tr1) ∧ good I w1) as (w1 & tr1 & Hd & Hg1).
  { apply (deliver_payload_returns h I Hciv Hok own others); [done|]. intros reg. apply Hdef. by left. }
  destruct (IH w1 Hg1) as (w2 & tr2 & Hf & Hl & Hg2).
  { intros q reg Hq. apply Hdef. by right. }
  exists w2, (tr1 ++ tr2). split_and!; [| |done].
  - unfold mbind, comp_bind. by rewrite Hd, Hf.
  - unfold consume, catch_all, mbind, comp_bind. rewrite Hd. simpl. by rewrite Hl, (right_id_L [] (++)).
Qed.
End loop.

(** ** Witnesses *)

Definition number (x : redis_object) : positive :=
  match x with ORedis p | OSubscriber p | OThread p => p end.

#[local] Instance toy_threads : ThreadLib (toy redis_object) := {|
  thread_new _ u := toy_new number OThread true u;
  thread_request_stop _ u := u;
  thread_joinable _ _ := true;
  thread_join _ u := toy_call () true u;
  thread_delete t u := toy_drop (OThread t) u;
|}.

(** The URL is the rest; pinging fails when the server refuses. *)
#[local] Instance toy_redis : RedisLib (toy redis_object) := {|
  uri_rest := string;
  parse_uri s := Ret (MkOptions s "" "" 0 0 0 false "" "" "");
  redis_new _ u := toy_new number ORedis true u;
  redis_delete r u := toy_drop (ORedis r) u;
  redis_ping _ u := toy_call () (negb (toy_refuses u)) u;
  redis_publish _ c b u := (Ret 1%Z, toy_send c b u);
  redis_subscriber _ u := toy_new number OSubscriber true u;
  subscriber_delete s u := toy_drop (OSubscriber s) u;
  subscriber_on_message _ u := u;
  subscriber_subscribe _ _ u := toy_call () true u;
|}.

#[local] Instance toy_laws : RedisLaws (toy redis_object).
Proof.
  refine {| redis_live := toy_live |}; intros; try done;
    try (by apply toy_new_builds); try (by apply toy_call_uses).
  - split_and!; [done|by intros [? ?]|apply throws_only_ret].
  - by intros [? ?].
Defined.

Definition toy_config : Config :=
  MkConfig "tls://localhost:6380" None (Some "secret") None None 10 "conduit:envelope" Json.

Definition fresh_adapter : RedisState := MkRedis toy_config (new_Impl None) None None None None false.
Definition toy_world (refuses : bool) : world (toy redis_object) RedisState :=
  World {[1%positive := sample_core]} false 0 (Toy {[ORedis 7%positive]} [] 0 refuses) fresh_adapter.

Example redis_construct_fresh : construct toy_config None = Ret fresh_adapter.
Proof. reflexivity. Qed.

Example url_normalised : normalise_url "tls://localhost:6380" = "rediss://localhost:6380".
Proof. reflexivity. Qed.

(** The server refuses the ping. *)
Lemma redis_attach_or_release_witness :
  ∃ o w' tr, attach_with_sink false 1%positive SinkBus (toy_world true) = (o, w', tr) ∧
    ((o = Ret () ∧ online (st w') ∧ redis_live (user w') = {[ORedis 7%positive]} ∪ owned (st w') ∧
      impl (st w') = install_sinks 1 SinkBus (impl (st (toy_world true)))) ∨
     (∃ e, o = Throw e ∧ exn_type e = RedisError ∧ released (st w') ∧
           redis_live (user w') = {[ORedis 7%positive]}) ∨
     (∃ e, o = Throw e ∧ is_std e ∧ connected (st w') = true ∧ subscriber_thread (st w') = None ∧
           redis_live (user w') = {[ORedis 7%positive]} ∪ owned (st w')) ∨
     o = Undef SignedOverflow).
Proof.
  apply (redis_attach_or_release false 1%positive SinkBus {[ORedis 7%positive]} (toy_world true)); done.
Defined.

Abbreviation online_world :=
  (world_after (redis_run (CAttach false 1%positive SinkBus)) (toy_world false)).

Lemma redis_online_world_run :
  redis_run (CAttach false 1%positive SinkBus) (toy_world false) =
  (Ret (), online_world, trace_of (redis_run (CAttach false 1%positive SinkBus)) (toy_world false)).
Proof. apply completed_run. vm_compute. reflexivity. Qed.

Example redis_online_world_sent :
  toy_sent (user (dispatch (envelope_at 1%positive) online_world).1.2) =
  [("conduit:envelope", json_bytes (match to_json no_display_info sample_core with Ret j => j | _ => CNull end))].
Proof. vm_compute. reflexivity. Qed.

Lemma redis_no_leak_witness :
  (redis_live (user online_world) = {[ORedis 7%positive]} ∪ owned (st online_world) ∧
   {[ORedis 7%positive]} ## owned (st online_world)) ∧
  (∀ o w' tr, detach online_world = (o, w', tr) →
     o = Ret () ∧ released (st w') ∧ redis_live (user w') = {[ORedis 7%positive]}).
Proof.
  apply (redis_no_leak {[ORedis 7%positive]} (toy_world false) online_world); [done|done|].
  apply rtc_once. apply (RedisStep _ _ _ _ _ redis_online_world_run). by intros [? ?].
Defined.

(** A message that does not decode, a timeout, another message, then the end. *)
Lemma redis_loop_in_order_witness :
  let i := install_sinks 1 SinkBus (new_Impl None) in
  let link := bus_link faulty_host 1%positive (λ _, new_EventRegistry) in
  ∃ w' tr, for_each [[1; 2]; []]%Z (deliver (BusLink0 := link) faulty_host toy_config i) listening_world = (Ret (), w', tr) ∧
           subscriber_loop (BusLink0 := link) faulty_host toy_config i
             [(false, Message [1; 2]%Z); (false, TimedOut); (false, Message []); (true, Broken)]
             listening_world = (Ret (), w', tr) ∧ good (λ s _, handlers_ok s) w'.
Proof.
  apply (redis_loop_in_order faulty_host (λ s _, handlers_ok s) 1%positive (λ _, new_EventRegistry)
           toy_config SinkBus None
           [(false, Message [1; 2]%Z); (false, TimedOut); (false, Message []); (true, Broken)] listening_world).
  - apply faulty_civil.
  - done.
  - split; [done|]. by repeat constructor.
  - intros p reg Hp.
    assert (∀ reg, ∃ e, decode_payload (format toy_config) reg [1; 2]%Z = Throw e) as H2 by (intros; eexists; reflexivity).
    assert (∀ reg, ∃ e, decode_payload (format toy_config) reg []%Z = Throw e) as H0 by (intros; eexists; reflexivity).
    intros [u Hu]. destruct (H2 reg), (H0 reg).
    apply elem_of_cons in Hp as [->|Hp%list_elem_of_singleton]; [|subst p]; congruence.
Defined.

Lemma redis_dispatch_publishes_witness :
  publisher (st (toy_world false)) = None ∧
  dispatch (envelope_at 1%positive) (toy_world false) = (Ret (), toy_world false, []).
Proof. split; [done|]. apply (redis_dispatch_publishes (envelope_at 1%positive) (toy_world false)). Defined.
