(* ===== verification/Mqtt.v ===== *)
(** * The MQTT adapter ([transports/mqtt/src/transport.cpp])

    paho.mqtt.cpp is the class [MqttLib].  The adapter owns one asynchronous client
    from its construction to its destruction; connecting, subscribing and
    publishing give tokens to wait for. *)

From S2P Require Import Prelude Exceptions External Flags Instances Envelope EnvelopeWire Serialization SerializationProps.
From S2P Require Import World WorldLogic WorldSafety Hosts Bus Transport Adapter Resources ToyClient.

(** ** Configuration *)

Record Config := MkConfig {
  url : string;
  client_id : string;
  username : option string;
  password : option string;
  tls : option TlsConfig;
  qos : Z;
  clean_session : bool;
  keep_alive : Z;
  connect_timeout : Z;
  topic : string;
  format : Format;
}.

Definition set_client_id (i : string) (c : Config) : Config :=
  MkConfig (url c) i (username c) (password c) (tls c) (qos c) (clean_session c) (keep_alive c)
    (connect_timeout c) (topic c) (format c).

(** ** paho.mqtt.cpp *)

(** The setters of [mqtt::ssl_options] and [mqtt::connect_options] that are called
    on default-constructed ones. *)
Inductive ssl_setting :=
  | SetTrustStore (f : string)
  | SetKeyStore (f : string)
  | SetPrivateKey (f : string)
  | SetVerify (b : bool).

Inductive connect_setting :=
  | SetCleanSession (b : bool)
  | SetKeepAlive (n : Z)
  | SetUserName (u : string)
  | SetPassword (p : string)
  | SetSsl (o : list ssl_setting).

Class MqttLib (U : Type) := {
  (* std::make_unique<mqtt::async_client>(url, id) and its destruction *)
  client_new : string → string → U → outcome positive * U;
  client_delete : positive → U → U;
  client_set_callback : positive → U → outcome () * U;
  token : Type;
  client_connect : positive → list connect_setting → U → outcome token * U;
  token_wait_for : token → Z → U → outcome bool * U;       (* in milliseconds *)
  client_is_connected : positive → U → bool;
  client_disconnect : positive → U → outcome token * U;
  client_subscribe : positive → string → Z → U → outcome token * U;
  message : Type;
  make_message : string → list Z → Z → bool → outcome message;
  client_publish : positive → message → U → outcome token * U;
}.

(** Every call of the library that can fail throws an exception under
    [std::exception] ([mqtt::exception] is a [std::runtime_error]). *)
Definition throws_std {A} (o : outcome A) : Prop :=
  ¬ is_undef o ∧ throws_only (λ c, catches std_exception c = true) o.

Class MqttLaws (U : Type) `{MqttLib U} := {
  client_connect_std c s u : throws_std (client_connect c s u).1;
  token_wait_std t ms u : throws_std (token_wait_for t ms u).1;
  client_disconnect_std c u : throws_std (client_disconnect c u).1;
  client_subscribe_std c t q u : throws_std (client_subscribe c t q u).1;
}.

(** ** The adapter *)

Record MqttState := MkMqtt {
  config : Config;
  impl : Impl;
  client : option positive;
}.

Definition set_impl (i : Impl) (s : MqttState) : MqttState := MkMqtt (config s) i (client s).

(** The constructor; [generated] is the string of [ulid::generate()]. *)
Definition construct {U} `{MqttLib U} (generated : string) (cfg : Config) (reg : option obj) (u : U)
    : outcome MqttState * U :=
  if String.eqb (topic cfg) "" then
    (Throw (Exn ConfigError "conduit::mqtt::Transport: Config::topic must be non-empty"), u)
  else
    let cfg := if String.eqb (client_id cfg) "" then set_client_id ("conduit-" +:+ generated) cfg else cfg in
    match client_new (url cfg) (client_id cfg) u with
    | (Ret c, u) =>
        match client_set_callback c u with
        | (Ret _, u) => (Ret (MkMqtt cfg (new_Impl reg) (Some c)), u)
        | (Throw e, u) => (Throw e, client_delete c u)
        | (Undef x, u) => (Undef x, u)
        end
    | (Throw e, u) => (Throw e, u)
    | (Undef x, u) => (Undef x, u)
    end.

Definition ssl_settings (t : TlsConfig) : list ssl_setting :=
  [SetTrustStore (ca_file t)] ++
  (match cert_file t with Some f => [SetKeyStore f] | None => [] end) ++
  (match key_file t with Some f => [SetPrivateKey f] | None => [] end) ++
  [SetVerify (verify_peer t)].

Definition connect_settings (c : Config) : list connect_setting :=
  [SetCleanSession (clean_session c); SetKeepAlive (i32_wrap (keep_alive c))] ++
  (match username c with Some u => [SetUserName u] | None => [] end) ++
  (match password c with Some p => [SetPassword p] | None => [] end) ++
  (match tls c with Some t => [SetSsl (ssl_settings t)] | None => [] end).

Section ops.
Context `{Externals} {U : Type} `{MqttLib U}.
Abbreviation comp := (comp U MqttState).

(** [client->]: the client that the member points to. *)
Definition the_client : comp positive :=
  c ← gets client;
  match c with
  | Some c => mret c
  | None => lift (Undef NullDeref)
  end.

Definition is_connected_now (c : positive) : comp bool := lib_c (λ u, (client_is_connected c u, u)).

(** [wait_for]'s answer, whether the token completed in time, is not looked at. *)
Definition connect_blocking : comp () :=
  cfg ← gets config;
  c ← the_client;
  tok ← lib (client_connect c (connect_settings cfg));
  ms ← lift (milliseconds (connect_timeout cfg));
  _ ← lib (token_wait_for tok ms);
  mret ().

Definition disconnect_blocking : comp () :=
  noexcept (
    c ← gets client;
    match c with
    | None => mret ()
    | Some c =>
        catch_all
          (connected ← is_connected_now c;
           if (connected : bool) then
             tok ← lib (client_disconnect c);
             _ ← lib (token_wait_for tok 5000);
             mret ()
           else mret ())
          (λ _, mret ())
    end).

Definition mqtt_error (stage : string) (e : exn) : exn :=
  Exn MqttError ("conduit::mqtt::Transport::attach: " +:+ stage +:+ " failed: " +:+ what e).

Definition subscribe_topic (c : positive) : comp () :=
  cfg ← gets config;
  catch_class std_exception
    (tok ← lib (client_subscribe c (topic cfg) (qos cfg));
     _ ← lib (token_wait_for tok 5000);
     mret ())
    (λ e, lift (Throw (mqtt_error "topic subscribe" e))).

Definition attach_with_sink (bus_registry : obj) (sink : InboundSink) : comp () :=
  modify (λ s, set_impl (install_sinks bus_registry sink (impl s)) s);;
  catch_class std_exception connect_blocking (λ e, lift (Throw (mqtt_error "connect" e)));;
  c ← gets client;
  match c with
  | None => mret ()
  | Some c =>
      connected ← is_connected_now c;
      if (connected : bool) then subscribe_topic c else mret ()
  end.

Definition detach : comp () :=
  noexcept (disconnect_blocking;; modify (λ s, set_impl (clear_sink (impl s)) s)).

(** The destructor, and that of [Impl]. *)
Definition destroy : comp () :=
  noexcept (
    disconnect_blocking;;
    c ← gets client;
    match c with
    | Some c => lib_void (client_delete c);; modify (λ s, MkMqtt (config s) (impl s) None)
    | None => mret ()
    end).

Definition dispatch (v : EventEnvelope) : comp () :=
  c ← gets client;
  match c with
  | None => mret ()
  | Some c =>
      cfg ← gets config;
      payload ← payload_bytes (format cfg) v;
      msg ← lift (make_message (topic cfg) payload (qos cfg) false);
      tok ← lib (client_publish c msg);
      ack ← requires_ack v;
      if (ack : bool) then _ ← lib (token_wait_for tok 5000); mret () else mret ()
  end.

Definition flush : comp () := mret ().

Definition is_connected : comp bool :=
  c ← gets client;
  match c with
  | Some c => is_connected_now c
  | None => mret false
  end.

Definition mqtt_scope : TransportScope := Remote.
End ops.

(** The callback of the client's thread. *)
Definition message_arrived `{Externals} {U S} `{!BusLink U S} (h : host U S)
    (c : Config) (i : Impl) (payload : list Z) : comp U S () :=
  deliver_payload h "mqtt" (format c) i payload.

(** ** Lemmas *)

Section lemmas.
Context `{Externals} {U : Type} `{MqttLaws U}.
Implicit Types w : world U MqttState.

(** A value or an exception under [std::exception], and the members as before. *)
Definition ends_std (s0 : MqttState) {A} (o : outcome A) w' : Prop :=
  throws_std o ∧ st w' = s0.

Lemma throws_std_ret {A} (a : A) : throws_std (Ret a).
Proof. split; [by intros [? ?]|apply throws_only_ret]. Qed.

Lemma throws_std_throw {A} e : is_std e → throws_std (@Throw A e).
Proof. intros He. split; [by intros [? ?]|by apply throws_only_throw]. Qed.

Lemma post_lib_std {A} (f : U → outcome A * U) s0 w :
  throws_std (f (user w)).1 → st w = s0 → post (lib f) (ends_std s0) w.
Proof. intros Hf Hs. by apply post_lib. Qed.

Lemma post_bind_std {A B} (m : comp U MqttState A) (f : A → comp U MqttState B) s0 w :
  post m (ends_std s0) w → (∀ a w', st w' = s0 → post (f a) (ends_std s0) w') →
  post (m ≫= f) (ends_std s0) w.
Proof.
  intros Hm Hf. apply post_bind. eapply post_mono; [exact Hm|].
  intros [a|e|u] w' [[Hd Ht] Hs]; [by apply Hf| |by destruct Hd; eexists].
  split; [|done]. apply throws_std_throw. by apply Ht.
Qed.

Lemma connect_blocking_post c w :
  client (st w) = Some c → is_i64 (connect_timeout (config (st w)) * 1000) →
  post connect_blocking (ends_std (st w)) w.
Proof.
  intros Hc Hms. unfold connect_blocking, the_client.
  apply post_bind, post_gets, post_bind, post_bind, post_gets. rewrite Hc. apply post_ret.
  apply post_bind_std; [by apply post_lib_std; [apply client_connect_std|]|]. intros tok w1 Hs1.
  apply post_bind_std.
  { apply post_lift. unfold milliseconds. rewrite (proj2 (in_i64_spec _) Hms). split; [apply throws_std_ret|done]. }
  intros ms w2 Hs2.
  apply post_bind_std; [by apply post_lib_std; [apply token_wait_std|]|]. intros b w3 Hs3.
  apply post_ret. split; [apply throws_std_ret|done].
Qed.

(** The only exceptions of a step of [attach_with_sink]. *)
Definition ends_mqtt {A} (o : outcome A) : Prop :=
  ¬ is_undef o ∧ throws_only (λ c, c = MqttError) o.

Lemma catch_std_post m stage s0 w :
  post m (ends_std s0) w →
  post (catch_class std_exception m (λ e, lift (Throw (mqtt_error stage e))))
    (λ (o : outcome ()) w', ends_mqtt o ∧ st w' = s0) w.
Proof.
  intros Hm. apply post_catch_all. eapply post_mono; [exact Hm|].
  intros [[]|e|u] w' [[Hd Ht] Hs].
  - split; [split; [by intros [? ?]|apply throws_only_ret]|done].
  - rewrite (Ht e eq_refl). apply post_lift. split; [|done].
    split; [by intros [? ?]|by apply throws_only_throw].
  - by destruct Hd; eexists.
Qed.

Lemma subscribe_topic_post c w :
  post (subscribe_topic c) (λ (o : outcome ()) w', ends_mqtt o ∧ st w' = st w) w.
Proof.
  unfold subscribe_topic. apply post_bind, post_gets. apply catch_std_post.
  apply post_bind_std; [by apply post_lib_std; [apply client_subscribe_std|]|]. intros tok w1 Hs1.
  apply post_bind_std; [by apply post_lib_std; [apply token_wait_std|]|]. intros b w2 Hs2.
  apply post_ret. split; [apply throws_std_ret|done].
Qed.

Lemma mqtt_attach_post reg sink c w :
  client (st w) = Some c → is_i64 (connect_timeout (config (st w)) * 1000) →
  post (attach_with_sink reg sink)
    (λ (o : outcome ()) w', ends_mqtt o ∧ st w' = set_impl (install_sinks reg sink (impl (st w))) (st w)) w.
Proof.
  intros Hc Hms. unfold attach_with_sink. apply post_bind, post_modify.
  set (w1 := World _ _ _ _ _). apply post_bind. eapply post_mono.
  { apply catch_std_post, (connect_blocking_post c w1); done. }
  intros [[]|e|u] w2 [[Hd Ht] Hs2]; [|split; [|done]; split; [by intros [? ?]|]|by destruct Hd; eexists].
  - apply post_bind, post_gets. rewrite Hs2. simpl. rewrite Hc. apply post_bind, post_lib_c. cbn beta iota.
    destruct (client_is_connected c (user w2)).
    + eapply post_mono; [apply subscribe_topic_post|]. simpl. intros o w3 [? Hs3]. by rewrite Hs3, Hs2.
    + apply post_ret. split; [split; [by intros [? ?]|apply throws_only_ret]|done].
  - apply throws_only_throw. by apply Ht.
Qed.
End lemmas.

(** ** Theorems *)

Section theorems.
Context `{Externals} {U : Type} `{MqttLaws U}.
Implicit Types w : world U MqttState.

(** Attaching an MQTT adapter throws nothing but MqttError, but it can return
    normally without having subscribed: when the broker has not accepted the
    connection by the end of the timeout, what the wait answers is ignored and the
    subscription is skipped. *)
Theorem mqtt_attach_outcomes reg sink c w :
  client (st w) = Some c → is_i64 (connect_timeout (config (st w)) * 1000) →
  let w1 := World (heap w) (locked w) (reads w) (user w)
              (set_impl (install_sinks reg sink (impl (st w))) (st w)) in
  (∃ o w' tr, attach_with_sink reg sink w = (o, w', tr) ∧ st w' = st w1 ∧
     (o = Ret () ∨ ∃ e, o = Throw e ∧ exn_type e = MqttError)) ∧
  (∀ w2 tr, connect_blocking w1 = (Ret (), w2, tr) → client_is_connected c (user w2) = false →
     attach_with_sink reg sink w = (Ret (), w2, tr)).
Proof.
  intros Hc Hms w1. split.
  - pose proof (mqtt_attach_post reg sink c w Hc Hms) as Hp. unfold post in Hp.
    destruct (attach_with_sink reg sink w) as [[o w'] tr]. simpl in Hp. destruct Hp as [[Hd Ht] Hs].
    exists o, w', tr. split_and!; [done|done|].
    destruct o as [[]|e|u]; [by left|right; exists e; split; [done|by apply Ht]|by destruct Hd; eexists].
  - intros w2 tr Hrun Hno.
    pose proof (connect_blocking_post c w1 Hc Hms) as Hp. unfold post in Hp. rewrite Hrun in Hp.
    destruct Hp as [_ Hs2]. simpl in Hs2.
    unfold attach_with_sink, catch_class, catch_all, mbind at 1 2, comp_bind at 1 2, modify. fold w1.
    rewrite Hrun. unfold mbind, comp_bind, gets. rewrite Hs2. simpl. rewrite Hc. simpl.
    unfold is_connected_now, lib_c, lib. simpl. rewrite Hno. simpl.
    destruct w2. simpl in *. by rewrite (right_id_L [] (++)).
Qed.

(** Dispatching publishes the encoded envelope once, with the configured topic
    and quality of service and not retained, and waits for the broker exactly when
    the envelope asks for an acknowledgement; a payload that cannot be encoded and
    a publication that the client rejects throw to the caller. *)
Theorem mqtt_dispatch_publishes v c m bytes msg tok u w :
  client (st w) = Some m → core_of (heap w) v = Ret c →
  let cfg := config (st w) in
  let after u := World (heap w) (locked w) (reads w) u (st w) in
  (∀ e, encode_payload (format cfg) (heap w) v = Throw e → dispatch v w = (Throw e, w, [])) ∧
  (encode_payload (format cfg) (heap w) v = Ret bytes →
   make_message (topic cfg) bytes (qos cfg) false = Ret msg →
   (∀ e u, client_publish m msg (user w) = (Throw e, u) → dispatch v w = (Throw e, after u, [])) ∧
   (client_publish m msg (user w) = (Ret tok, u) →
    dispatch v w =
      if contains flags.RequireAck c then
        let '(o, u) := token_wait_for tok 5000 u in ((λ _, ()) <$> o, after u, [])
      else (Ret (), after u, []))).
Proof.
  intros Hm Hc cfg after. destruct w as [hp lk rd us s]. simpl in *.
  unfold dispatch, mbind, comp_bind, gets. simpl. rewrite Hm. simpl.
  unfold payload_bytes, mbind, comp_bind, get_world, lift. simpl. fold cfg.
  split; [by intros e ->|]. intros -> Hmsg. simpl. rewrite Hmsg. simpl. unfold lib. simpl.
  split; [by intros e u' ->|]. intros ->. simpl.
  unfold requires_ack, mbind, comp_bind, read_core. simpl. rewrite Hc. simpl.
  destruct (contains flags.RequireAck c); [|done]. simpl.
  by destruct (token_wait_for tok 5000 u) as [[b|e|ub] u'].
Qed.

(** Detaching never throws, whatever the client does: it disconnects and waits
    when the client is connected, and from then on inbound messages are ignored,
    although the client itself stays until the adapter is destroyed. *)
Theorem mqtt_detach_contained w :
  ∃ w', detach w = (Ret (), w', []) ∧
    sink (impl (st w')) = false ∧ client (st w') = client (st w) ∧
    (∀ c, client (st w) = Some c → client_is_connected c (user w) = false → user w' = user w) ∧
    (∀ c tok u, client (st w) = Some c → client_is_connected c (user w) = true →
       client_disconnect c (user w) = (Ret tok, u) → user w' = (token_wait_for tok 5000 u).2).
Proof.
  destruct w as [hp lk rd us s].
  assert (∃ u, disconnect_blocking (World hp lk rd us s) = (Ret (), World hp lk rd u s, []) ∧
    (∀ c, client s = Some c → client_is_connected c us = false → u = us) ∧
    (∀ c tok u1, client s = Some c → client_is_connected c us = true →
       client_disconnect c us = (Ret tok, u1) → u = (token_wait_for tok 5000 u1).2)) as (u & Hrun & Hno & Hyes).
  { unfold disconnect_blocking, noexcept, mbind, comp_bind, gets. simpl.
    destruct (client s) as [c|]; [|by exists us]. simpl. unfold catch_all, mbind, comp_bind. simpl.
    destruct (client_is_connected c us) eqn:Hcon; [|exists us; split_and!; intros; simplify_eq; (done || congruence)].
    unfold lib. simpl. pose proof (client_disconnect_std c us) as [Hd _].
    destruct (client_disconnect c us) as [[tok|e|ub] u1] eqn:Hdis; simpl.
    - pose proof (token_wait_std tok 5000 u1) as [Hw _]. simpl.
      destruct (token_wait_for tok 5000 u1) as [[b|e|ub] u2] eqn:Hwait; simpl;
        [..|by destruct Hw; eexists]; exists u2; (split; [done|]); (split; [intros; simplify_eq; congruence|]);
        intros c0 tok0 u0 [= <-] _ Heq; rewrite Hdis in Heq; injection Heq as <- <-; by rewrite Hwait.
    - exists u1. split_and!; intros; simplify_eq; (done || congruence).
    - by destruct Hd; eexists. }
  exists (World hp lk rd u (set_impl (clear_sink (impl s)) s)).
  split; [|split; [|split; [|split; [exact Hno|exact Hyes]]]].
  - unfold detach, noexcept, mbind, comp_bind. rewrite Hrun. done.
  - done.
  - done.
Qed.
End theorems.

(** ** Witnesses *)

(** The only object is the client; a broker that refuses leaves it unconnected. *)
Definition number (x : positive) : positive := x.

#[local] Instance toy_mqtt : MqttLib (toy positive) := {|
  client_new _ _ u := toy_new number number true u;
  client_delete c u := toy_drop c u;
  client_set_callback _ u := (Ret (), u);
  token := ();
  client_connect _ _ u := (Ret (), u);
  token_wait_for _ _ u := (Ret (negb (toy_refuses u)), toy_wait u);
  client_is_connected _ u := negb (toy_refuses u);
  client_disconnect _ u := (Ret (), u);
  client_subscribe _ t _ u := (Ret (), toy_send t [] u);
  message := string * list Z;
  make_message t b q _ := if bool_decide (0 ≤ q ≤ 2)%Z then Ret (t, b) else Throw (Exn user_exception "qos");
  client_publish _ m u := (Ret (), toy_send m.1 m.2 u);
|}.

#[local] Instance toy_laws : MqttLaws (toy positive).
Proof. split; intros; split; (by intros [? ?]) || apply throws_only_ret. Defined.

Definition toy_config : Config :=
  MkConfig "tcp://localhost:1883" "conduit-1" None None None 1 true 60 10 "conduit/envelope" Cbor.

Definition toy_world (refuses : bool) : world (toy positive) MqttState :=
  World {[1%positive := sample_core]} false 0 (Toy {[1%positive]} [] 0 refuses)
    (MkMqtt toy_config (new_Impl None) (Some 1%positive)).

Example mqtt_construct_fresh :
  (construct "1" toy_config None (Toy ∅ [] 0 false)).1 = Ret (st (toy_world false)).
Proof. reflexivity. Qed.

(** The broker does not answer: attached, not subscribed. *)
Definition silent_world : world (toy positive) MqttState :=
  World {[1%positive := sample_core]} false 0 (Toy {[1%positive]} [] 1 true)
    (set_impl (install_sinks 1 SinkBus (new_Impl None)) (st (toy_world true))).

Lemma mqtt_attach_outcomes_witness :
  let w1 := World (heap (toy_world true)) false 0 (user (toy_world true))
              (set_impl (install_sinks 1 SinkBus (impl (st (toy_world true)))) (st (toy_world true))) in
  (∃ o w' tr, attach_with_sink 1%positive SinkBus (toy_world true) = (o, w', tr) ∧ st w' = st w1 ∧
     (o = Ret () ∨ ∃ e, o = Throw e ∧ exn_type e = MqttError)) ∧
  attach_with_sink 1%positive SinkBus (toy_world true) = (Ret (), silent_world, []).
Proof.
  intros w1.
  destruct (mqtt_attach_outcomes 1%positive SinkBus 1%positive (toy_world true)) as [H1 H2].
  - reflexivity.
  - vm_compute. split; discriminate.
  - split; [exact H1|]. apply H2; reflexivity.
Defined.

(** What is sent for [sample_core]. *)
Definition sample_bytes : list Z :=
  json_bytes (match to_json no_display_info sample_core with Ret j => j | _ => CNull end).
Definition sample_message : @message (toy positive) toy_mqtt := ("conduit/envelope", sample_bytes).

Lemma mqtt_dispatch_publishes_witness :
  dispatch (envelope_at 1%positive) (toy_world false) =
  (Ret (), World {[1%positive := sample_core]} false 0
    (toy_send "conduit/envelope" sample_bytes
       (user (toy_world false))) (st (toy_world false)), []).
Proof.
  destruct (mqtt_dispatch_publishes (envelope_at 1%positive) sample_core 1%positive
    sample_bytes
    sample_message
    () (toy_send "conduit/envelope" sample_bytes
       (user (toy_world false))) (toy_world false)) as [_ H1].
  - reflexivity.
  - reflexivity.
  - destruct H1 as [_ H1]; [reflexivity|reflexivity|]. rewrite H1; reflexivity.
Defined.

Lemma mqtt_detach_contained_witness :
  ∃ w', detach (toy_world false) = (Ret (), w', []) ∧ sink (impl (st w')) = false ∧ client (st w') = Some 1%positive.
Proof.
  destruct (mqtt_detach_contained (toy_world false)) as (w' & Hrun & Hs & Hc & _). by exists w'.
Defined.
