(* ===== verification/Zmq.v ===== *)
(** * The ZeroMQ adapter ([transports/zmq/src/transport.cpp])

    cppzmq is the class [ZmqLib].  The adapter owns a context, up to two data
    sockets, a pair of sockets that wakes its worker, and the worker. *)

From S2P Require Import Prelude Exceptions External Flags Instances Envelope EnvelopeWire Serialization SerializationProps.
From S2P Require Import World WorldLogic WorldSafety Hosts Bus BusSafety Transport Adapter Resources AdapterProps ToyClient.

(** ** Configuration *)

(** [enum class Pattern] and [enum class Role] *)
Inductive Pattern := PubSub | PushPull | RouterDealer.
Inductive Role := Bind | Connect.

#[export] Instance Pattern_eq_dec : EqDecision Pattern.
Proof. solve_decision. Defined.
#[export] Instance Role_eq_dec : EqDecision Role.
Proof. solve_decision. Defined.

Record CurveConfig := MkCurve {
  server_key : string;
  public_key : string;
  secret_key : string;
  is_server : bool;
}.

Record Config := MkConfig {
  pattern : Pattern;
  pub_endpoint : string;
  pub_role : Role;
  sub_endpoint : string;
  sub_role : Role;
  subscription_prefix : string;
  push_endpoint : string;
  push_role : Role;
  pull_endpoint : string;
  pull_role : Role;
  endpoint : string;
  endpoint_role : Role;
  identity : option string;
  linger : Z;
  send_hwm : Z;
  recv_hwm : Z;
  curve : option CurveConfig;
  format : Format;
}.

(** [validate] *)
Definition validate (c : Config) : outcome () :=
  match pattern c with
  | PubSub =>
      if String.eqb (pub_endpoint c) "" && String.eqb (sub_endpoint c) "" then
        Throw (Exn ConfigError "conduit::zmq::Transport: PubSub requires pub_endpoint or sub_endpoint")
      else Ret ()
  | PushPull =>
      if String.eqb (push_endpoint c) "" && String.eqb (pull_endpoint c) "" then
        Throw (Exn ConfigError "conduit::zmq::Transport: PushPull requires push_endpoint or pull_endpoint")
      else Ret ()
  | RouterDealer =>
      if String.eqb (endpoint c) "" then
        Throw (Exn ConfigError "conduit::zmq::Transport: RouterDealer requires endpoint")
      else Ret ()
  end.

(** ** cppzmq *)

(** [zmq::socket_type] and [zmq::sockopt], as far as they are used. *)
Inductive socket_type := pub | sub | push | pull | dealer | router | pair_socket.

Inductive sockopt :=
  | SoLinger (n : Z)
  | SoSndHwm (n : Z)
  | SoRcvHwm (n : Z)
  | SoRoutingId (i : string)
  | SoCurveServer (n : Z)
  | SoCurveServerKey (k : string)
  | SoCurvePublicKey (k : string)
  | SoCurveSecretKey (k : string)
  | SoSubscribe (p : string).

Class ZmqLib (U : Type) := {
  (* std::make_unique<zmq::context_t>(1), std::make_unique<zmq::socket_t>(ctx, type) *)
  context_new : U → outcome positive * U;
  context_delete : positive → U → U;
  socket_new : positive → socket_type → U → outcome positive * U;
  socket_delete : positive → U → U;
  socket_set : positive → sockopt → U → outcome () * U;
  socket_bind : positive → string → U → outcome () * U;
  socket_connect : positive → string → U → outcome () * U;
  (* send with dontwait: no value when the high-water mark is reached *)
  socket_send : positive → list Z → U → outcome (option nat) * U;
  zmq_threads :: ThreadLib U;
}.

Inductive zmq_object :=
  | OContext (c : positive)
  | OSocket (s : positive)
  | OWorker (t : positive).

#[export] Instance zmq_object_eq_dec : EqDecision zmq_object.
Proof. solve_decision. Defined.

#[export] Instance zmq_object_countable : Countable zmq_object.
Proof.
  refine (inj_countable'
    (λ x, match x with OContext c => inl c | OSocket s => inr (inl s) | OWorker t => inr (inr t) end)
    (λ s, match s with inl c => OContext c | inr (inl s) => OSocket s | inr (inr t) => OWorker t end) _).
  by intros [].
Defined.

Class ZmqLaws (U : Type) `{ZmqLib U} := {
  zmq_live : U → gset zmq_object;
  context_new_builds u : builds zmq_live OContext u (context_new u);
  socket_new_builds c t u : builds zmq_live OSocket u (socket_new c t u);
  zmq_thread_builds n u : builds zmq_live OWorker u (thread_new n u);
  context_delete_live c u : zmq_live (context_delete c u) = zmq_live u ∖ {[OContext c]};
  socket_delete_live s u : zmq_live (socket_delete s u) = zmq_live u ∖ {[OSocket s]};
  zmq_thread_delete_live t u : zmq_live (thread_delete t u) = zmq_live u ∖ {[OWorker t]};
  socket_set_uses s o u : uses zmq_live u (socket_set s o u);
  socket_bind_uses s e u : uses zmq_live u (socket_bind s e u);
  socket_connect_uses s e u : uses zmq_live u (socket_connect s e u);
  socket_send_uses s b u : uses zmq_live u (socket_send s b u);
  zmq_request_stop_live t u : zmq_live (thread_request_stop t u) = zmq_live u;
  zmq_join_uses t u : uses zmq_live u (thread_join t u);
}.

(** ** The adapter *)

Record ZmqState := MkZmq {
  config : Config;
  impl : Impl;
  context : option positive;
  outbound : option positive;
  inbound : option positive;
  shutdown_pub : option positive;
  shutdown_sub : option positive;
  worker : option positive;
  connected : bool;
}.

Definition set_impl (i : Impl) (s : ZmqState) : ZmqState :=
  MkZmq (config s) i (context s) (outbound s) (inbound s) (shutdown_pub s) (shutdown_sub s) (worker s) (connected s).
Definition set_context (p : option positive) (s : ZmqState) : ZmqState :=
  MkZmq (config s) (impl s) p (outbound s) (inbound s) (shutdown_pub s) (shutdown_sub s) (worker s) (connected s).
Definition set_outbound (p : option positive) (s : ZmqState) : ZmqState :=
  MkZmq (config s) (impl s) (context s) p (inbound s) (shutdown_pub s) (shutdown_sub s) (worker s) (connected s).
Definition set_inbound (p : option positive) (s : ZmqState) : ZmqState :=
  MkZmq (config s) (impl s) (context s) (outbound s) p (shutdown_pub s) (shutdown_sub s) (worker s) (connected s).
Definition set_shutdown_pub (p : option positive) (s : ZmqState) : ZmqState :=
  MkZmq (config s) (impl s) (context s) (outbound s) (inbound s) p (shutdown_sub s) (worker s) (connected s).
Definition set_shutdown_sub (p : option positive) (s : ZmqState) : ZmqState :=
  MkZmq (config s) (impl s) (context s) (outbound s) (inbound s) (shutdown_pub s) p (worker s) (connected s).
Definition set_worker (p : option positive) (s : ZmqState) : ZmqState :=
  MkZmq (config s) (impl s) (context s) (outbound s) (inbound s) (shutdown_pub s) (shutdown_sub s) p (connected s).
Definition set_connected (b : bool) (s : ZmqState) : ZmqState :=
  MkZmq (config s) (impl s) (context s) (outbound s) (inbound s) (shutdown_pub s) (shutdown_sub s) (worker s) b.

(** The constructor; [has_curve] is whether [CONDUIT_ZMQ_HAS_CURVE] is defined. *)
Definition construct (has_curve : bool) (cfg : Config) (reg : option obj) : outcome ZmqState :=
  _ ← validate cfg;
  if negb has_curve && bool_decide (is_Some (curve cfg)) then
    Throw (Exn ConfigError "conduit::zmq::Transport: Config::curve set but the transport was built without CONDUIT_TRANSPORT_ZMQ_CURVE")
  else Ret (MkZmq cfg (new_Impl reg) None None None None None None false).

Definition k_shutdown_endpoint : string := "inproc://conduit-zmq-shutdown".

Definition outbound_type (p : Pattern) : socket_type :=
  match p with PubSub => pub | PushPull => push | RouterDealer => dealer end.

Definition inbound_type (p : Pattern) : socket_type :=
  match p with PubSub => sub | PushPull => pull | RouterDealer => router end.

(** The options of a socket, in order: [set] is called for each. *)
Definition socket_opts (has_curve : bool) (c : Config) (is_outbound : bool) : list sockopt :=
  [SoLinger (i32_wrap (linger c))] ++
  [if is_outbound then SoSndHwm (send_hwm c) else SoRcvHwm (recv_hwm c)] ++
  (match identity c with Some i => [SoRoutingId i] | None => [] end) ++
  (if has_curve then
     match curve c with
     | Some cv =>
         if is_server cv then [SoCurveServer 1; SoCurveSecretKey (secret_key cv)]
         else [SoCurveServerKey (server_key cv); SoCurvePublicKey (public_key cv);
               SoCurveSecretKey (secret_key cv)]
     | None => []
     end
   else []).

Section ops.
Context `{Externals} {U : Type} `{ZmqLib U}.
Abbreviation comp := (comp U ZmqState).

Definition reset_socket (get : ZmqState → option positive) (set : option positive → ZmqState → ZmqState)
    (p : option positive) : comp () := reset_member get set socket_delete p.

Definition apply_socket_opts (has_curve : bool) (c : Config) (s : positive) (is_outbound : bool) : comp () :=
  for_each (socket_opts has_curve c is_outbound) (λ o, lib (socket_set s o)).

Definition bind_or_connect (s : positive) (e : string) (r : Role) : comp () :=
  if decide (r = Bind) then lib (socket_bind s e) else lib (socket_connect s e).

Definition shutdown : comp () :=
  noexcept (
    t ← gets worker;
    match t with Some t => lib_void (thread_request_stop t) | None => mret () end;;
    p ← gets shutdown_pub;
    match p with
    | Some p => catch_all (_ ← lib (socket_send p [120%Z]); mret ()) (λ _, mret ())   (* 'x' *)
    | None => mret ()
    end;;
    match t with
    | Some t => join_quietly t;; reset_member worker set_worker thread_delete None
    | None => mret ()
    end;;
    catch_all (reset_socket inbound set_inbound None) (λ _, mret ());;
    catch_all (reset_socket outbound set_outbound None) (λ _, mret ());;
    catch_all (reset_socket shutdown_pub set_shutdown_pub None) (λ _, mret ());;
    catch_all (reset_socket shutdown_sub set_shutdown_sub None) (λ _, mret ());;
    catch_all (reset_member context set_context context_delete None) (λ _, mret ());;
    modify (set_connected false)).

(** A socket into a member, with its options. *)
Definition open_socket (has_curve : bool) (c : Config) (ctx : positive) (t : socket_type) (is_outbound : bool)
    (get : ZmqState → option positive) (set : option positive → ZmqState → ZmqState) : comp positive :=
  s ← lib (socket_new ctx t);
  reset_socket get set (Some s);;
  apply_socket_opts has_curve c s is_outbound;;
  mret s.

Definition opposite (r : Role) : Role := if decide (r = Bind) then Connect else Bind.

Definition open_router_dealer (has_curve : bool) (c : Config) (ctx : positive) : comp () :=
  o ← open_socket has_curve c ctx (outbound_type (pattern c)) true outbound set_outbound;
  i ← open_socket has_curve c ctx (inbound_type (pattern c)) false inbound set_inbound;
  bind_or_connect o (endpoint c) (endpoint_role c);;
  bind_or_connect i (endpoint c) (opposite (endpoint_role c)).

Definition open_pub_sub (has_curve : bool) (c : Config) (ctx : positive) : comp () :=
  (if String.eqb (pub_endpoint c) "" then mret ()
   else
     o ← open_socket has_curve c ctx pub true outbound set_outbound;
     bind_or_connect o (pub_endpoint c) (pub_role c));;
  (if String.eqb (sub_endpoint c) "" then mret ()
   else
     i ← open_socket has_curve c ctx sub false inbound set_inbound;
     lib (socket_set i (SoSubscribe (subscription_prefix c)));;
     bind_or_connect i (sub_endpoint c) (sub_role c)).

Definition open_push_pull (has_curve : bool) (c : Config) (ctx : positive) : comp () :=
  (if String.eqb (push_endpoint c) "" then mret ()
   else
     o ← open_socket has_curve c ctx push true outbound set_outbound;
     bind_or_connect o (push_endpoint c) (push_role c));;
  (if String.eqb (pull_endpoint c) "" then mret ()
   else
     i ← open_socket has_curve c ctx pull false inbound set_inbound;
     bind_or_connect i (pull_endpoint c) (pull_role c)).

(** The pair of sockets that wakes the worker's poll. *)
Definition open_shutdown_pair (ctx : positive) : comp () :=
  i ← gets inbound;
  match i with
  | None => mret ()
  | Some _ =>
      s ← lib (socket_new ctx pair_socket);
      reset_socket shutdown_sub set_shutdown_sub (Some s);;
      lib (socket_set s (SoLinger 0));;
      lib (socket_bind s k_shutdown_endpoint);;
      p ← lib (socket_new ctx pair_socket);
      reset_socket shutdown_pub set_shutdown_pub (Some p);;
      lib (socket_set p (SoLinger 0));;
      lib (socket_connect p k_shutdown_endpoint)
  end.

(** The body of the [try] block of [attach_with_sink]. *)
Definition open_sockets (has_curve : bool) : comp () :=
  c ← gets config;
  ctx ← lib context_new;
  reset_member context set_context context_delete (Some ctx);;
  match pattern c with
  | RouterDealer => open_router_dealer has_curve c ctx
  | PubSub => open_pub_sub has_curve c ctx
  | PushPull => open_push_pull has_curve c ctx
  end;;
  open_shutdown_pair ctx;;
  modify (set_connected true).

Definition zmq_error (e : exn) : exn :=
  Exn ZmqError ("conduit::zmq::Transport::attach: " +:+ what e).

Definition attach_with_sink (has_curve : bool) (bus_registry : obj) (sink : InboundSink) : comp () :=
  modify (λ s, set_impl (install_sinks bus_registry sink (impl s)) s);;
  catch_class std_exception (open_sockets has_curve) (λ e, shutdown;; lift (Throw (zmq_error e)));;
  i ← gets inbound;
  match i with
  | Some _ =>
      t ← lib (thread_new "conduit:zmq-worker");
      reset_member worker set_worker thread_delete (Some t)
  | None => mret ()
  end.

Definition detach : comp () :=
  noexcept (shutdown;; modify (λ s, set_impl (clear_sink (impl s)) s)).

(** The destructor. *)
Definition destroy : comp () := noexcept shutdown.

Definition dispatch (v : EventEnvelope) : comp () :=
  o ← gets outbound;
  match o with
  | None => mret ()
  | Some o =>
      c ← gets config;
      payload ← payload_bytes (format c) v;
      catch_all (_ ← lib (socket_send o payload); mret ()) (λ _, mret ())
  end.

Definition flush : comp () := mret ().

Definition is_connected : comp bool := gets connected.

Definition zmq_scope : TransportScope := Remote.
End ops.

(** ** Ownership *)

Section ownership.
Context `{Externals} {U : Type} `{ZmqLaws U}.
Implicit Types w : world U ZmqState.

Definition sockets (s : ZmqState) : gset zmq_object :=
  object OSocket (outbound s) ∪ object OSocket (inbound s) ∪
  object OSocket (shutdown_pub s) ∪ object OSocket (shutdown_sub s).

Definition owned (s : ZmqState) : gset zmq_object :=
  object OContext (context s) ∪ sockets s ∪ object OWorker (worker s).

(** The four sockets are different objects. *)
Definition tidy (s : ZmqState) : Prop :=
  object OSocket (outbound s) ## object OSocket (inbound s) ∧
  object OSocket (outbound s) ## object OSocket (shutdown_pub s) ∧
  object OSocket (outbound s) ## object OSocket (shutdown_sub s) ∧
  object OSocket (inbound s) ## object OSocket (shutdown_pub s) ∧
  object OSocket (inbound s) ## object OSocket (shutdown_sub s) ∧
  object OSocket (shutdown_pub s) ## object OSocket (shutdown_sub s).

Definition holds (L X : gset zmq_object) w : Prop :=
  owns zmq_live owned L X w ∧ tidy (st w).

Definition released (s : ZmqState) : Prop :=
  context s = None ∧ outbound s = None ∧ inbound s = None ∧ shutdown_pub s = None ∧
  shutdown_sub s = None ∧ worker s = None ∧ connected s = false.

Lemma zmq_owned_released s : released s → owned s = ∅.
Proof.
  intros (Hc & Ho & Hi & Hp & Hs & Hw & _). unfold owned, sockets. rewrite Hc, Ho, Hi, Hp, Hs, Hw. set_solver.
Qed.

Lemma zmq_holds_released L w : zmq_live (user w) = L → released (st w) → holds L ∅ w.
Proof.
  intros HL Hr. split; [split; rewrite (zmq_owned_released (st w)) by done; set_solver|].
  destruct Hr as (_ & Ho & Hi & Hp & _). unfold tidy. rewrite Ho, Hi, Hp. set_solver.
Qed.

Lemma zmq_holds_modify L X f w :
  holds L X w → owned (f (st w)) = owned (st w) → tidy (f (st w)) →
  holds L X (World (heap w) (locked w) (reads w) (user w) (f (st w))).
Proof. intros [Hw _] Ho Ht. split; [by apply owns_modify|done]. Qed.

Lemma zmq_holds_none L X mk w : holds L X w → holds L (object mk None ∪ X) w.
Proof. simpl. by rewrite (left_id_L ∅ (∪)). Qed.

(** What a reset of one member takes: the others, with their object, are [rest]. *)
Lemma reset_post L X get set del mk p rest w (Q : outcome () → world U ZmqState → Prop) :
  holds L (object mk p ∪ X) w → object mk p ## X →
  (∀ x u, zmq_live (del x u) = zmq_live u ∖ {[mk x]}) →
  (∀ s, owned s = object mk (get s) ∪ rest s) → (∀ s, tidy s → object mk (get s) ## rest s) →
  (∀ s, get (set p s) = p ∧ rest (set p s) = rest s) →
  (∀ s, tidy s → object mk p ## owned s → tidy (set p s)) →
  (∀ w', holds L X w' → st w' = set p (st w) → Q (Ret ()) w') →
  post (reset_member get set del p) Q w.
Proof.
  intros [Hw Ht] Hp Hdel Hown Hrest Hset Htidy HQ. destruct (Hset (st w)) as [Hg Hr].
  eapply (post_reset zmq_live owned L X get set del mk p (rest (st w))); try done; auto.
  - rewrite Hown, Hg, Hr. done.
  - intros w' Hw' Hs. apply HQ; [|done]. split; [done|]. rewrite Hs. apply Htidy; [done|].
    destruct Hw as (_ & _ & _ & Hd). set_solver.
Qed.
End ownership.

(** The instance of [reset_post] for one member. *)
Ltac solve_reset law rest :=
  let Hh := fresh in let Hd := fresh in let HQ := fresh in
  intros Hh Hd HQ; eapply (reset_post _ _ _ _ _ _ _ rest); [exact Hh|exact Hd|apply law|..|exact HQ];
  [intros s; unfold owned, sockets; clear; set_solver
  |intros s Ht; unfold tidy in Ht; destruct_and! Ht; unfold sockets;
   repeat (apply disjoint_union_r; split);
   first [by apply object_disjoint|assumption|symmetry; assumption]
  |done
  |intros s Ht Hp; unfold tidy in *; unfold owned, sockets in Hp; simpl; destruct_and! Ht;
   rewrite !disjoint_union_r in Hp; destruct_and! Hp;
   split_and!; first [assumption|symmetry; assumption]].

Section resets.
Context `{Externals} {U : Type} `{ZmqLaws U}.
Implicit Types (w : world U ZmqState) (Q : outcome () → world U ZmqState → Prop).

Lemma reset_context L X p w Q :
  holds L (object OContext p ∪ X) w → object OContext p ## X →
  (∀ w', holds L X w' → st w' = set_context p (st w) → Q (Ret ()) w') →
  post (reset_member context set_context context_delete p) Q w.
Proof. solve_reset context_delete_live (λ s, sockets s ∪ object OWorker (worker s)). Qed.

Lemma reset_worker L X p w Q :
  holds L (object OWorker p ∪ X) w → object OWorker p ## X →
  (∀ w', holds L X w' → st w' = set_worker p (st w) → Q (Ret ()) w') →
  post (reset_member worker set_worker thread_delete p) Q w.
Proof. solve_reset zmq_thread_delete_live (λ s, object OContext (context s) ∪ sockets s). Qed.

Lemma reset_outbound L X p w Q :
  holds L (object OSocket p ∪ X) w → object OSocket p ## X →
  (∀ w', holds L X w' → st w' = set_outbound p (st w) → Q (Ret ()) w') →
  post (reset_socket outbound set_outbound p) Q w.
Proof.
  solve_reset socket_delete_live (λ s, object OContext (context s) ∪ object OSocket (inbound s) ∪
    object OSocket (shutdown_pub s) ∪ object OSocket (shutdown_sub s) ∪ object OWorker (worker s)).
Qed.

Lemma reset_inbound L X p w Q :
  holds L (object OSocket p ∪ X) w → object OSocket p ## X →
  (∀ w', holds L X w' → st w' = set_inbound p (st w) → Q (Ret ()) w') →
  post (reset_socket inbound set_inbound p) Q w.
Proof.
  solve_reset socket_delete_live (λ s, object OContext (context s) ∪ object OSocket (outbound s) ∪
    object OSocket (shutdown_pub s) ∪ object OSocket (shutdown_sub s) ∪ object OWorker (worker s)).
Qed.

Lemma reset_shutdown_pub L X p w Q :
  holds L (object OSocket p ∪ X) w → object OSocket p ## X →
  (∀ w', holds L X w' → st w' = set_shutdown_pub p (st w) → Q (Ret ()) w') →
  post (reset_socket shutdown_pub set_shutdown_pub p) Q w.
Proof.
  solve_reset socket_delete_live (λ s, object OContext (context s) ∪ object OSocket (outbound s) ∪
    object OSocket (inbound s) ∪ object OSocket (shutdown_sub s) ∪ object OWorker (worker s)).
Qed.

Lemma reset_shutdown_sub L X p w Q :
  holds L (object OSocket p ∪ X) w → object OSocket p ## X →
  (∀ w', holds L X w' → st w' = set_shutdown_sub p (st w) → Q (Ret ()) w') →
  post (reset_socket shutdown_sub set_shutdown_sub p) Q w.
Proof.
  solve_reset socket_delete_live (λ s, object OContext (context s) ∪ object OSocket (outbound s) ∪
    object OSocket (inbound s) ∪ object OSocket (shutdown_pub s) ∪ object OWorker (worker s)).
Qed.
End resets.

Section steps.
Context `{Externals} {U : Type} `{ZmqLaws U}.
Implicit Types w : world U ZmqState.

(** A step of an operation: it succeeds with [P], or throws; the ownership is in
    order in both cases. *)
Definition tries (L : gset zmq_object) {A} (P : A → ZmqState → Prop) (o : outcome A) w' : Prop :=
  match o with
  | Ret a => holds L ∅ w' ∧ P a (st w')
  | Throw e => is_std e ∧ holds L ∅ w'
  | Undef _ => False
  end.

Lemma tries_ret {A} L (P : A → ZmqState → Prop) a w :
  holds L ∅ w → P a (st w) → post (mret a) (tries L P) w.
Proof. intros Hw HP. by apply post_ret. Qed.

Lemma tries_bind {A B} L P P' (m : comp U ZmqState A) (f : A → comp U ZmqState B) w :
  post m (tries L P) w →
  (∀ a w', holds L ∅ w' → P a (st w') → post (f a) (tries L P') w') → post (m ≫= f) (tries L P') w.
Proof.
  intros Hm Hf. apply post_bind. eapply post_mono; [exact Hm|].
  intros [a|e|u] w'; simpl; [intros [Hw HP]; by apply Hf|done|done].
Qed.

Lemma tries_use {A} L (f : U → outcome A * U) w :
  holds L ∅ w → uses zmq_live (user w) (f (user w)) →
  post (lib f) (tries L (λ _ s, s = st w)) w.
Proof.
  intros [Hw Ht] Hf. eapply post_uses; [exact Hw|exact Hf| |].
  - intros a w' Hw' Hs _. split; [split; [done|by rewrite Hs]|done].
  - intros e w' He Hw' Hs. split; [done|]. split; [done|by rewrite Hs].
Qed.

(** A new object goes into a member. *)
Lemma tries_new {A} L mk (f : U → outcome positive * U) (reset : option positive → comp U ZmqState ())
    (set : option positive → ZmqState → ZmqState) (k : positive → comp U ZmqState A) P w :
  holds L ∅ w → builds zmq_live mk (user w) (f (user w)) →
  (∀ p w Q, holds L (object mk p ∪ ∅) w → object mk p ## ∅ →
     (∀ w', holds L ∅ w' → st w' = set p (st w) → Q (Ret ()) w') → post (reset p) Q w) →
  (∀ x w', holds L ∅ w' → st w' = set (Some x) (st w) → post (k x) (tries L P) w') →
  post (x ← lib f; reset (Some x);; k x) (tries L P) w.
Proof.
  intros [Hw Ht] Hf Hreset Hk. apply post_bind. eapply post_builds; [exact Hw|exact Hf| |].
  - intros x w1 Hw1 Hs1 _. apply post_bind, Hreset; [|set_solver|].
    + split; [exact Hw1|by rewrite Hs1].
    + intros w2 Hw2 Hs2. apply Hk; [done|by rewrite Hs2, Hs1].
  - intros e w1 He Hw1 Hs1. split; [done|]. split; [done|by rewrite Hs1].
Qed.

Lemma tries_options L s os w :
  holds L ∅ w → post (for_each os (λ o, lib (socket_set s o))) (tries L (λ _ s', s' = st w)) w.
Proof.
  intros Hw. remember (st w) as s0 eqn:Hs0. revert w Hw Hs0.
  induction os as [|o os IH]; intros w Hw ->; simpl; [by apply tries_ret|].
  eapply tries_bind; [by apply tries_use, socket_set_uses|]. intros [] w1 Hw1 Hs1.
  by apply IH.
Qed.

Lemma open_socket_tries has_curve c ctx t out get set L w :
  holds L ∅ w →
  (∀ p w Q, holds L (object OSocket p ∪ ∅) w → object OSocket p ## ∅ →
     (∀ w', holds L ∅ w' → st w' = set p (st w) → Q (Ret ()) w') → post (reset_socket get set p) Q w) →
  post (open_socket has_curve c ctx t out get set) (tries L (λ x s, s = set (Some x) (st w))) w.
Proof.
  intros Hw Hreset. unfold open_socket.
  apply (tries_new L OSocket _ (reset_socket get set) set); [done|apply socket_new_builds|done|].
  intros x w1 Hw1 Hs1. eapply tries_bind; [by apply tries_options|]. intros [] w2 Hw2 Hs2.
  apply tries_ret; [done|congruence].
Qed.

Lemma bind_or_connect_tries L x e r w :
  holds L ∅ w → post (bind_or_connect x e r) (tries L (λ _ s, s = st w)) w.
Proof.
  intros Hw. unfold bind_or_connect. case_decide; apply tries_use; [done|apply socket_bind_uses|done|apply socket_connect_uses].
Qed.

(** Which sockets a configuration opens. *)
Definition wants_outbound (c : Config) : bool :=
  match pattern c with
  | PubSub => negb (String.eqb (pub_endpoint c) "")
  | PushPull => negb (String.eqb (push_endpoint c) "")
  | RouterDealer => true
  end.

Definition wants_inbound (c : Config) : bool :=
  match pattern c with
  | PubSub => negb (String.eqb (sub_endpoint c) "")
  | PushPull => negb (String.eqb (pull_endpoint c) "")
  | RouterDealer => true
  end.

Definition present (o : option positive) (b : bool) : Prop := is_Some o ↔ b = true.

(** The data sockets that were opened from [s0], which had none. *)
Definition opens (b i : bool) (s0 s : ZmqState) : Prop :=
  ∃ o n, s = set_inbound n (set_outbound o s0) ∧ present o b ∧ present n i.

Lemma same_members s : outbound s = None → inbound s = None → s = set_inbound None (set_outbound None s).
Proof. destruct s. simpl. by intros -> ->. Qed.

(** One leg of a pattern: nothing for an empty endpoint, else a socket that is
    opened, set up by [k] and bound or connected. *)
Lemma leg_tries {A} L (e : string) (open : comp U ZmqState positive) (k : positive → comp U ZmqState A)
    (get : ZmqState → option positive) (set : option positive → ZmqState → ZmqState) (r : A) w :
  holds L ∅ w → get (st w) = None → (∀ s, get s = None → set None s = s) →
  (∀ w, holds L ∅ w → post open (tries L (λ x s, s = set (Some x) (st w))) w) →
  (∀ x w, holds L ∅ w → post (k x) (tries L (λ _ s, s = st w)) w) →
  post (if String.eqb e "" then mret r else x ← open; k x)
    (tries L (λ _ s, ∃ o, s = set o (st w) ∧ present o (negb (String.eqb e "")))) w.
Proof.
  intros Hw Hnone Hset Hopen Hk. destruct (String.eqb e "").
  - apply tries_ret; [done|]. exists None. split; [by rewrite Hset|]. split; [by intros [? ?]|done].
  - eapply tries_bind; [by apply Hopen|]. intros x w1 Hw1 Hs1.
    eapply post_mono; [by apply Hk|]. intros [y|e'|u] w2; simpl; [|done|done].
    intros [Hw2 Hs2]. split; [done|]. exists (Some x). split; [congruence|]. split; [done|by eexists].
Qed.

Lemma out_none s : outbound s = None → set_outbound None s = s.
Proof. destruct s. simpl. by intros ->. Qed.
Lemma in_none s : inbound s = None → set_inbound None s = s.
Proof. destruct s. simpl. by intros ->. Qed.

Lemma pair_none s :
  shutdown_pub s = None → shutdown_sub s = None → set_shutdown_pub None (set_shutdown_sub None s) = s.
Proof. destruct s. simpl. by intros -> ->. Qed.

Lemma open_outbound_tries has_curve c ctx t L w :
  holds L ∅ w →
  post (open_socket has_curve c ctx t true outbound set_outbound) (tries L (λ x s, s = set_outbound (Some x) (st w))) w.
Proof. intros Hw. apply open_socket_tries; [done|]. intros p w'. apply reset_outbound. Qed.

Lemma open_inbound_tries has_curve c ctx t L w :
  holds L ∅ w →
  post (open_socket has_curve c ctx t false inbound set_inbound) (tries L (λ x s, s = set_inbound (Some x) (st w))) w.
Proof. intros Hw. apply open_socket_tries; [done|]. intros p w'. apply reset_inbound. Qed.

(** Two legs, one after the other. *)
Lemma legs_tries L bo bi (m1 m2 : comp U ZmqState ()) w :
  post m1 (tries L (λ _ s, ∃ o, s = set_outbound o (st w) ∧ present o bo)) w →
  (∀ w', holds L ∅ w' → inbound (st w') = inbound (st w) →
     post m2 (tries L (λ _ s, ∃ n, s = set_inbound n (st w') ∧ present n bi)) w') →
  post (m1;; m2) (tries L (λ _ s, opens bo bi (st w) s)) w.
Proof.
  intros Hm1 Hm2. eapply tries_bind; [exact Hm1|]. intros [] w1 Hw1 (o & Hs1 & Ho).
  eapply post_mono; [apply Hm2; [done|by rewrite Hs1]|]. intros [[]|e|u] w2; simpl; [|done|done].
  intros [Hw2 (n & Hs2 & Hn)]. split; [done|]. exists o, n. split_and!; congruence || done.
Qed.

Lemma open_pub_sub_tries has_curve c ctx L w :
  holds L ∅ w → outbound (st w) = None → inbound (st w) = None →
  post (open_pub_sub has_curve c ctx)
    (tries L (λ _ s, opens (negb (String.eqb (pub_endpoint c) "")) (negb (String.eqb (sub_endpoint c) "")) (st w) s)) w.
Proof.
  intros Hw Ho Hi. apply legs_tries.
  - apply (leg_tries L _ _ _ outbound); [done|done|apply out_none|by intros; apply open_outbound_tries|].
    intros x w1 Hw1. by apply bind_or_connect_tries.
  - intros w1 Hw1 Hi1. apply (leg_tries L _ _ _ inbound); [done|congruence|apply in_none|by intros; apply open_inbound_tries|].
    intros x w2 Hw2. eapply tries_bind; [by apply tries_use, socket_set_uses|]. intros [] w3 Hw3 Hs3.
    rewrite <- Hs3. by apply bind_or_connect_tries.
Qed.

Lemma open_push_pull_tries has_curve c ctx L w :
  holds L ∅ w → outbound (st w) = None → inbound (st w) = None →
  post (open_push_pull has_curve c ctx)
    (tries L (λ _ s, opens (negb (String.eqb (push_endpoint c) "")) (negb (String.eqb (pull_endpoint c) "")) (st w) s)) w.
Proof.
  intros Hw Ho Hi. apply legs_tries.
  - apply (leg_tries L _ _ _ outbound); [done|done|apply out_none|by intros; apply open_outbound_tries|].
    intros x w1 Hw1. by apply bind_or_connect_tries.
  - intros w1 Hw1 Hi1. apply (leg_tries L _ _ _ inbound); [done|congruence|apply in_none|by intros; apply open_inbound_tries|].
    intros x w2 Hw2. by apply bind_or_connect_tries.
Qed.

Lemma open_router_dealer_tries has_curve c ctx L w :
  holds L ∅ w →
  post (open_router_dealer has_curve c ctx) (tries L (λ _ s, opens true true (st w) s)) w.
Proof.
  intros Hw. unfold open_router_dealer.
  eapply tries_bind; [by apply open_outbound_tries|]. intros o w1 Hw1 Hs1.
  eapply tries_bind; [by apply open_inbound_tries|]. intros i w2 Hw2 Hs2.
  eapply tries_bind; [by apply bind_or_connect_tries|]. intros [] w3 Hw3 Hs3.
  eapply post_mono; [by apply bind_or_connect_tries|]. intros [[]|e|u] w4; simpl; [|done|done].
  intros [Hw4 Hs4]. split; [done|]. exists (Some o), (Some i). split; [congruence|].
  split; split; intros; by try eexists.
Qed.

(** The members after a successful [attach], but for the worker. *)
Definition wired (c : Config) (s0 s : ZmqState) : Prop :=
  is_Some (context s) ∧ present (outbound s) (wants_outbound c) ∧ present (inbound s) (wants_inbound c) ∧
  present (shutdown_pub s) (wants_inbound c) ∧ present (shutdown_sub s) (wants_inbound c) ∧
  worker s = worker s0 ∧ impl s = impl s0 ∧ config s = config s0 ∧ connected s = true.

Lemma open_shutdown_pair_tries ctx L w :
  holds L ∅ w → shutdown_pub (st w) = None → shutdown_sub (st w) = None →
  post (open_shutdown_pair ctx)
    (tries L (λ _ s, ∃ p q, s = set_shutdown_pub p (set_shutdown_sub q (st w)) ∧
       (is_Some p ↔ is_Some (inbound (st w))) ∧ (is_Some q ↔ is_Some (inbound (st w))))) w.
Proof.
  intros Hw Hp Hq. unfold open_shutdown_pair. apply post_bind, post_gets.
  destruct (inbound (st w)) as [i|] eqn:Hi.
  2:{ apply tries_ret; [done|]. exists None, None. split; [by rewrite pair_none|done]. }
  apply (tries_new L OSocket _ (reset_socket shutdown_sub set_shutdown_sub) set_shutdown_sub);
    [done|apply socket_new_builds|intros q w'; apply reset_shutdown_sub|].
  intros q w1 Hw1 Hs1. eapply tries_bind; [by apply tries_use, socket_set_uses|]. intros [] w2 Hw2 Hs2.
  eapply tries_bind; [by apply tries_use, socket_bind_uses|]. intros [] w3 Hw3 Hs3.
  apply (tries_new L OSocket _ (reset_socket shutdown_pub set_shutdown_pub) set_shutdown_pub);
    [done|apply socket_new_builds|intros p w'; apply reset_shutdown_pub|].
  intros p w4 Hw4 Hs4. eapply tries_bind; [by apply tries_use, socket_set_uses|]. intros [] w5 Hw5 Hs5.
  eapply post_mono; [by apply tries_use, socket_connect_uses|]. intros [[]|e|u] w6; simpl; [|done|done].
  intros [Hw6 Hs6]. split; [done|]. exists (Some p), (Some q). split; [congruence|].
  split; split; intros; by eexists.
Qed.

Lemma open_sockets_tries has_curve L w :
  holds L ∅ w → released (st w) →
  post (open_sockets has_curve) (tries L (λ _ s, wired (config (st w)) (st w) s)) w.
Proof.
  intros Hw (Hc & Ho & Hi & Hp & Hq & Hwk & Hb). unfold open_sockets. apply post_bind, post_gets.
  apply (tries_new L OContext _ (reset_member context set_context context_delete) set_context);
    [done|apply context_new_builds|intros p w'; apply reset_context|].
  intros ctx w1 Hw1 Hs1. set (c := config (st w)).
  assert (outbound (st w1) = None ∧ inbound (st w1) = None) as [Ho1 Hi1] by by rewrite Hs1.
  eapply tries_bind.
  { instantiate (1 := λ _ s, opens (wants_outbound c) (wants_inbound c) (st w1) s).
    unfold wants_outbound, wants_inbound. destruct (pattern c);
      [by apply open_pub_sub_tries|by apply open_push_pull_tries|by apply open_router_dealer_tries]. }
  intros [] w2 Hw2 (o & n & Hs2 & Hpo & Hpn).
  eapply tries_bind; [apply open_shutdown_pair_tries; [done|by rewrite Hs2, Hs1..]|].
  intros [] w3 Hw3 (p & q & Hs3 & Hpp & Hpq). apply post_modify.
  rewrite Hs2 in Hpp, Hpq. simpl in Hpp, Hpq.
  split; [apply zmq_holds_modify; [done|done|apply Hw3]|]. simpl. rewrite Hs3, Hs2, Hs1. unfold wired, present in *. simpl.
  split_and!; try done; naive_solver.
Qed.
End steps.

(** ** Shutting down *)

Section shutdown.
Context `{Externals} {U : Type} `{ZmqLaws U}.
Implicit Types w : world U ZmqState.

(** The end of an operation that cannot fail: [P] of the members. *)
Definition keeps (L : gset zmq_object) (P : ZmqState → Prop) (o : outcome ()) w' : Prop :=
  o = Ret () ∧ holds L ∅ w' ∧ P (st w').

Lemma zmq_keeps_bind {B} L P (m : comp U ZmqState ()) (f : () → comp U ZmqState B) Q w :
  post m (keeps L P) w → (∀ w', holds L ∅ w' → P (st w') → post (f ()) Q w') → post (m ≫= f) Q w.
Proof.
  intros Hm Hf. apply post_bind. eapply post_mono; [exact Hm|]. intros o w' (-> & Hw & HP). by apply Hf.
Qed.

Lemma quiet_reset L (reset : option positive → comp U ZmqState ()) mk set w :
  holds L ∅ w →
  (∀ p w Q, holds L (object mk p ∪ ∅) w → object mk p ## ∅ →
     (∀ w', holds L ∅ w' → st w' = set p (st w) → Q (Ret ()) w') → post (reset p) Q w) →
  post (catch_all (reset None) (λ _, mret ())) (keeps L (λ s, s = set None (st w))) w.
Proof.
  intros Hw Hreset. apply post_catch_all, Hreset; [by apply zmq_holds_none|set_solver|]. intros w' Hw' Hs. done.
Qed.

Lemma quiet_use {A} L (f : U → outcome A * U) w :
  holds L ∅ w → uses zmq_live (user w) (f (user w)) →
  post (catch_all (_ ← lib f; mret ()) (λ _, mret ())) (keeps L (λ s, s = st w)) w.
Proof.
  intros [Hw Ht] Hf. apply post_catch_all, post_bind. eapply post_uses; [exact Hw|exact Hf| |].
  - intros a w' Hw' Hs _. apply post_ret. split; [done|]. split; [split; [done|by rewrite Hs]|done].
  - intros e w' _ Hw' Hs. apply post_ret. split; [done|]. split; [split; [done|by rewrite Hs]|done].
Qed.

Lemma join_quietly_keeps L t w :
  holds L ∅ w → post (join_quietly t) (keeps L (λ s, s = st w)) w.
Proof.
  intros [Hw Ht]. apply post_catch_all, post_bind, post_lib_c. cbn beta iota.
  assert (holds L ∅ (World (heap w) (locked w) (reads w) (user w) (st w))) as Hw0 by by destruct w.
  destruct (thread_joinable t (user w)).
  - eapply post_uses; [exact Hw|apply zmq_join_uses| |].
    + intros [] w' Hw' Hs _. split; [done|]. split; [split; [done|by rewrite Hs]|done].
    + intros e w' _ Hw' Hs. apply post_ret. split; [done|]. split; [split; [done|by rewrite Hs]|done].
  - by apply post_ret.
Qed.

(** Asking the worker to stop, waking it, and joining it. *)
Lemma stop_worker_keeps L t w :
  holds L ∅ w →
  post (match t with Some t => lib_void (thread_request_stop t) | None => mret () end)
    (keeps L (λ s, s = st w)) w.
Proof.
  intros Hw. destruct t as [t|]; [|by apply post_ret]. apply post_lib_void. split; [done|]. split; [|done].
  destruct Hw as [(Hl & Hd) Ht]. split; [|done]. split; simpl; [by rewrite zmq_request_stop_live|done].
Qed.

Lemma wake_worker_keeps L p w :
  holds L ∅ w →
  post (match p with
        | Some p => catch_all (_ ← lib (socket_send p [120%Z]); mret ()) (λ _, mret ())
        | None => mret ()
        end) (keeps L (λ s, s = st w)) w.
Proof. intros Hw. destruct p as [p|]; [by apply quiet_use, socket_send_uses|by apply post_ret]. Qed.

Lemma join_worker_keeps L t w :
  holds L ∅ w → (t = None → worker (st w) = None) →
  post (match t with
        | Some t => join_quietly t;; reset_member worker set_worker thread_delete None
        | None => mret ()
        end) (keeps L (λ s, s = set_worker None (st w))) w.
Proof.
  intros Hw Hnone. destruct t as [t|].
  - apply (zmq_keeps_bind L (λ s, s = st w)); [by apply join_quietly_keeps|]. intros w1 Hw1 Hs1.
    apply (reset_worker L ∅); [by apply zmq_holds_none|set_solver|]. intros w2 Hw2 Hs2.
    split; [done|]. split; [done|congruence].
  - apply post_ret. split; [done|]. split; [done|].
    specialize (Hnone eq_refl). destruct (st w). simpl in *. by subst.
Qed.

Lemma shutdown_keeps L w :
  holds L ∅ w →
  post shutdown (keeps L (λ s, released s ∧ impl s = impl (st w) ∧ config s = config (st w))) w.
Proof.
  intros Hw. unfold shutdown. apply post_noexcept, post_bind, post_gets.
  eapply zmq_keeps_bind; [by apply stop_worker_keeps|]. intros w1 Hw1 Hs1.
  apply post_bind, post_gets. eapply zmq_keeps_bind; [by apply wake_worker_keeps|]. intros w2 Hw2 Hs2.
  eapply zmq_keeps_bind; [apply join_worker_keeps; [done|by rewrite Hs2, Hs1]|]. intros w3 Hw3 Hs3.
  eapply zmq_keeps_bind.
  { apply (quiet_reset L (reset_socket inbound set_inbound) OSocket set_inbound); [done|]. intros p w'. apply reset_inbound. }
  intros w4 Hw4 Hs4. eapply zmq_keeps_bind.
  { apply (quiet_reset L (reset_socket outbound set_outbound) OSocket set_outbound); [done|]. intros p w'. apply reset_outbound. }
  intros w5 Hw5 Hs5. eapply zmq_keeps_bind.
  { apply (quiet_reset L (reset_socket shutdown_pub set_shutdown_pub) OSocket set_shutdown_pub); [done|].
    intros p w'. apply reset_shutdown_pub. }
  intros w6 Hw6 Hs6. eapply zmq_keeps_bind.
  { apply (quiet_reset L (reset_socket shutdown_sub set_shutdown_sub) OSocket set_shutdown_sub); [done|].
    intros p w'. apply reset_shutdown_sub. }
  intros w7 Hw7 Hs7. eapply zmq_keeps_bind.
  { apply (quiet_reset L (reset_member context set_context context_delete) OContext set_context); [done|].
    intros p w'. apply reset_context. }
  intros w8 Hw8 Hs8. apply post_modify. split; [done|]. split; [apply zmq_holds_modify; [done|done|apply Hw8]|].
  simpl. rewrite Hs8, Hs7, Hs6, Hs5, Hs4, Hs3, Hs2, Hs1. done.
Qed.
End shutdown.

(** ** Sequences of operations *)

Section runs.
Context `{Externals} {U : Type} `{ZmqLaws U}.
Implicit Types w : world U ZmqState.

Inductive zmq_call :=
  | CAttach (has_curve : bool) (reg : obj) (sink : InboundSink)
  | CDispatch (v : EventEnvelope)
  | CFlush
  | CDetach
  | CDestroy.

Definition zmq_run (c : zmq_call) : comp U ZmqState () :=
  match c with
  | CAttach has_curve reg sink => attach_with_sink has_curve reg sink
  | CDispatch v => dispatch v
  | CFlush => flush
  | CDetach => detach
  | CDestroy => destroy
  end.

(** One operation, its exception caught by the caller; an adapter is attached
    when it is not attached already. *)
Inductive zmq_step : world U ZmqState → world U ZmqState → Prop :=
  | ZmqStep c w o w' tr :
      zmq_run c w = (o, w', tr) → ¬ is_undef o →
      (∀ has_curve reg sink, c = CAttach has_curve reg sink → released (st w)) →
      zmq_step w w'.

(** How [attach_with_sink] ends. *)
Definition attach_result (L : gset zmq_object) (c : Config) (i : Impl) (o : outcome ()) w' : Prop :=
  (o = Ret () ∧ holds L ∅ w' ∧ is_Some (context (st w')) ∧
     present (outbound (st w')) (wants_outbound c) ∧ present (inbound (st w')) (wants_inbound c) ∧
     present (worker (st w')) (wants_inbound c) ∧ impl (st w') = i ∧ connected (st w') = true) ∨
  (∃ e, o = Throw e ∧ exn_type e = ZmqError ∧ holds L ∅ w' ∧ released (st w')) ∨
  (∃ e, o = Throw e ∧ is_std e ∧ holds L ∅ w' ∧ connected (st w') = true ∧ worker (st w') = None).

Lemma zmq_attach_post has_curve reg sink L w :
  holds L ∅ w → released (st w) →
  post (attach_with_sink has_curve reg sink)
    (attach_result L (config (st w)) (install_sinks reg sink (impl (st w)))) w.
Proof.
  intros Hw Hr. unfold attach_with_sink. apply post_bind, post_modify.
  set (w1 := World _ _ _ _ _). assert (holds L ∅ w1) as Hw1 by (apply zmq_holds_modify; [done..|apply Hw]).
  apply post_bind, post_catch_all. eapply post_mono; [by apply (open_sockets_tries has_curve L w1)|].
  intros [[]|e|u] w2; simpl; [|intros [He Hw2]|done].
  - intros [Hw2 (Hc & Ho & Hi & Hp & Hq & Hwk & Him & Hcf & Hb)]. apply post_bind, post_gets.
    destruct Hr as (_ & _ & _ & _ & _ & Hwk0 & _). unfold w1 in Hwk. simpl in Hwk. rewrite Hwk0 in Hwk.
    destruct (inbound (st w2)) as [n|] eqn:Hn.
    2:{ apply post_ret. left. rewrite Hn, Hwk. unfold present in *.
        assert (is_Some (@None positive) → False) as Habs by by intros [? ?].
        split_and!; try done; naive_solver. }
    apply post_bind. destruct Hw2 as [Hw2 Ht2].
    eapply (post_builds zmq_live owned); [exact Hw2|apply zmq_thread_builds| |].
    + intros t w3 Hw3 Hs3 _. apply (reset_worker L ∅); [split; [exact Hw3|by rewrite Hs3]|set_solver|].
      intros w4 Hw4 Hs4. left. rewrite Hs4, Hs3. simpl. rewrite Hn. unfold present in *.
      split_and!; try done; naive_solver.
    + intros e w3 He Hw3 Hs3. right. right. exists e. split; [done|]. split; [done|].
      rewrite Hs3. split; [split; [done|by rewrite Hs3]|done].
  - rewrite He. apply post_bind. eapply post_mono; [by apply shutdown_keeps|].
    intros ? w3 (-> & Hw3 & Hr3 & _). apply post_lift. right. left. by eexists.
Qed.

Lemma detach_keeps L w : holds L ∅ w → post detach (keeps L released) w.
Proof.
  intros Hw. apply post_noexcept. eapply zmq_keeps_bind; [by apply shutdown_keeps|].
  intros w1 Hw1 (Hr & _). apply post_modify. split; [done|]. split; [|done].
  apply zmq_holds_modify; [done..|apply Hw1].
Qed.

Lemma zmq_dispatch_post L v w : holds L ∅ w → post (dispatch v) (λ _ w', holds L ∅ w') w.
Proof.
  intros Hw. apply post_bind, post_gets. destruct (outbound (st w)) as [o|]; [|done].
  apply post_bind, post_gets, post_bind, post_payload_bytes.
  destruct (encode_payload _ _ v) as [bytes|e|u]; [|done..].
  eapply post_mono; [by apply quiet_use, socket_send_uses|]. by intros ? ? (_ & ? & _).
Qed.

Lemma zmq_step_holds L w w' : holds L ∅ w → zmq_step w w' → holds L ∅ w'.
Proof.
  intros Hw Hstep. destruct Hstep as [c w o w' tr Hrun Hdef Hatt].
  assert (post (zmq_run c) (λ o w', holds L ∅ w') w) as Hp.
  { destruct c as [has_curve reg sink|v| | |]; simpl.
    - eapply post_mono; [apply (zmq_attach_post has_curve reg sink L); [done|by eapply Hatt]|].
      by intros ? w1 [(_ & ? & _)|[(e & _ & _ & ? & _)|(e & _ & _ & ? & _)]].
    - by apply zmq_dispatch_post.
    - by apply post_ret.
    - eapply post_mono; [by apply detach_keeps|]. by intros ? ? (_ & ? & _).
    - apply post_noexcept. eapply post_mono; [by apply shutdown_keeps|]. by intros ? ? (-> & ? & _). }
  unfold post in Hp. by rewrite Hrun in Hp.
Qed.
End runs.
