(* ===== verification/ZmqProps.v ===== *)
(** * Properties of the ZeroMQ adapter

    The worker's receive loop, the theorems on [Zmq.v], and their witnesses. *)

From stdpp Require Import pretty.
From S2P Require Import Prelude Exceptions External Flags Instances Envelope EnvelopeWire Serialization SerializationProps.
From S2P Require Import World WorldLogic WorldSafety Hosts Bus BusSafety Transport Adapter Resources AdapterProps ToyClient Zmq.

(** ** The worker *)

(** What [recv] with [dontwait] gives: nothing, a frame and whether more of its
    message follow, or an exception. *)
Inductive received :=
  | NoFrame
  | Frame (bytes : list Z) (more : bool)
  | RecvError.

(** One turn of the loop: whether the token asks to stop; what the poll reports,
    readable data and a readable shutdown socket, or an exception; and what the
    reads of that turn give. *)
Record turn := MkTurn {
  stop_requested : bool;
  poll : option (bool * bool);
  first : received;
  second : received;
}.

Section worker.
Context `{Externals} {U S : Type} `{!BusLink U S} (h : host U S).

Definition deliver_bytes (c : Config) (i : Impl) (bytes : list Z) : comp U S () :=
  match bytes with
  | [] => mret ()
  | _ => deliver_payload h "zmq" (format c) i bytes
  end.

(** An exception of [recv], as far as the code can tell them apart. *)
Definition recv_error : exn := Exn std_exception "zmq::error_t".

(** The [try] block around the reads: a ROUTER socket prefixes the routing id. *)
Definition read_turn (c : Config) (i : Impl) (t : turn) : comp U S () :=
  match pattern c with
  | RouterDealer =>
      match first t with
      | NoFrame => mret ()
      | RecvError => lift (Throw recv_error)
      | Frame _ false => mret ()
      | Frame _ true =>
          match second t with
          | NoFrame => mret ()
          | RecvError => lift (Throw recv_error)
          | Frame bytes _ => deliver_bytes c i bytes
          end
      end
  | _ =>
      match first t with
      | NoFrame => mret ()
      | RecvError => lift (Throw recv_error)
      | Frame bytes _ => deliver_bytes c i bytes
      end
  end.

Fixpoint run_loop (c : Config) (i : Impl) (turns : list turn) : comp U S () :=
  match turns with
  | [] => mret ()
  | t :: turns =>
      if stop_requested t then mret ()
      else
        match poll t with
        | None => mret ()
        | Some (data, shut) =>
            if shut : bool then mret ()
            else
              (if data : bool then catch_all (read_turn c i t) (λ _, mret ()) else mret ());;
              run_loop c i turns
        end
  end.
End worker.

(** The payloads that a configuration makes of the frames read in one turn, and of
    the turns up to the one that ends the loop. *)
Definition payload_of_turn (p : Pattern) (t : turn) : list (list Z) :=
  match p, first t, second t with
  | RouterDealer, Frame _ true, Frame bytes _ => [bytes]
  | RouterDealer, _, _ => []
  | _, Frame bytes _, _ => [bytes]
  | _, _, _ => []
  end.

Fixpoint arrivals (p : Pattern) (turns : list turn) : list (list Z) :=
  match turns with
  | [] => []
  | t :: turns =>
      if stop_requested t then []
      else match poll t with
           | Some (data, false) =>
               (if data : bool then List.filter (λ b, negb (bool_decide (b = []))) (payload_of_turn p t) else [])
               ++ arrivals p turns
           | _ => []
           end
  end.

(** ** Theorems *)

(** A configuration is accepted exactly when it names an endpoint of its
    pattern (one of the two is enough where the pattern has two) and asks for
    CURVE only in a build that has it; everything else is a ConfigError. *)
Theorem zmq_construct_validates has_curve cfg reg :
  (is_ret (construct has_curve cfg reg) ↔
     (match pattern cfg with
      | RouterDealer => endpoint cfg ≠ ""
      | _ => wants_outbound cfg || wants_inbound cfg = true
      end) ∧ (is_Some (curve cfg) → has_curve = true)) ∧
  (¬ is_ret (construct has_curve cfg reg) →
     ∃ what, construct has_curve cfg reg = Throw (Exn ConfigError what)).
Proof.
  unfold construct, validate, wants_outbound, wants_inbound, is_ret, is_Some.
  destruct (pattern cfg), has_curve, (curve cfg);
    repeat match goal with |- context [String.eqb ?x ""] => destruct (String.eqb_spec x "") end;
    simpl; naive_solver.
Qed.

Section theorems.
Context `{Externals} {U : Type} `{ZmqLaws U}.
Implicit Types w : world U ZmqState.

(** Attaching a ZeroMQ adapter ends connected with exactly the sockets that the
    configuration's pattern and endpoints ask for, and with a worker exactly when
    there is an inbound socket; or, whatever went wrong on the way, with a
    ZmqError and every socket and the context given back; or, when only the worker
    could not be started, with that exception and the sockets kept until they are
    detached. *)
Theorem zmq_attach_by_pattern has_curve reg sink L w :
  zmq_live (user w) = L → released (st w) →
  let c := config (st w) in
  ∃ o w' tr, attach_with_sink has_curve reg sink w = (o, w', tr) ∧
    ((o = Ret () ∧ zmq_live (user w') = L ∪ owned (st w') ∧ connected (st w') = true ∧
      (is_Some (outbound (st w')) ↔ wants_outbound c = true) ∧
      (is_Some (inbound (st w')) ↔ wants_inbound c = true) ∧
      (is_Some (worker (st w')) ↔ wants_inbound c = true)) ∨
     (∃ e, o = Throw e ∧ exn_type e = ZmqError ∧ zmq_live (user w') = L ∧ released (st w')) ∨
     (∃ e, o = Throw e ∧ is_std e ∧ zmq_live (user w') = L ∪ owned (st w') ∧ connected (st w') = true ∧
           worker (st w') = None)).
Proof.
  intros HL Hr c. pose proof (zmq_attach_post has_curve reg sink L w (zmq_holds_released L w HL Hr) Hr) as Hp.
  unfold post in Hp. destruct (attach_with_sink has_curve reg sink w) as [[o w'] tr]. simpl in Hp.
  exists o, w', tr. split; [done|].
  assert (∀ w', holds L ∅ w' → zmq_live (user w') = L ∪ owned (st w')) as Hlive.
  { intros w1 [[Hl _] _]. by rewrite Hl, (right_id_L ∅ (∪)). }
  destruct Hp as [(-> & Hw' & _ & Ho & Hi & Hwk & _ & Hb)|[(e & -> & He & Hw' & Hr')|(e & -> & He & Hw' & Hb & Hwk)]].
  - left. by split_and!; auto.
  - right. left. exists e. split_and!; try done. rewrite (Hlive w' Hw'), (zmq_owned_released _ Hr'). set_solver.
  - right. right. exists e. split_and!; try done. by apply Hlive.
Qed.

(** Whatever sequence of attaching, dispatching, flushing and detaching an
    adapter goes through, every context, socket and thread it created is held in
    exactly one member or destroyed, none of anybody else's is destroyed, and
    detaching leaves none. *)
Theorem zmq_no_leak L w0 w :
  zmq_live (user w0) = L → released (st w0) → rtc zmq_step w0 w →
  (zmq_live (user w) = L ∪ owned (st w) ∧ L ## owned (st w)) ∧
  (∀ o w' tr, detach w = (o, w', tr) → o = Ret () ∧ released (st w') ∧ zmq_live (user w') = L).
Proof.
  intros HL Hr Hsteps. assert (holds L ∅ w) as Hw.
  { pose proof (zmq_holds_released L w0 HL Hr) as Hw0. clear -Hsteps Hw0.
    induction Hsteps as [|w1 w2 w3 Hstep _ IH]; [done|]. apply IH. by eapply zmq_step_holds. }
  split.
  - destruct Hw as [(Hl & _ & Hd & _) _]. by rewrite Hl, (right_id_L ∅ (∪)).
  - intros o w' tr Hrun. pose proof (detach_keeps L w Hw) as Hp. unfold post in Hp. rewrite Hrun in Hp.
    simpl in Hp. destruct Hp as (-> & [(Hl & _) _] & Hr'). split_and!; [done|done|].
    rewrite Hl, (zmq_owned_released _ Hr'). set_solver.
Qed.

(** Dispatching hands the encoded envelope to the outbound socket once, without
    blocking, and returns normally whether it was sent, dropped at the high-water
    mark or failed; an envelope that cannot be encoded throws, and an adapter
    without outbound socket drops it. *)
Theorem zmq_dispatch_sends v w :
  dispatch v w =
  match outbound (st w) with
  | None => (Ret (), w, [])
  | Some o =>
      match encode_payload (format (config (st w))) (heap w) v with
      | Ret bytes =>
          (Ret (), World (heap w) (locked w) (reads w) (socket_send o bytes (user w)).2 (st w), [])
      | Throw e => (Throw e, w, [])
      | Undef u => (Undef u, w, [])
      end
  end.
Proof.
  destruct w as [hp lk rd u s]. unfold dispatch, mbind, comp_bind, gets. simpl.
  destruct (outbound s) as [o|]; [|done]. simpl.
  unfold payload_bytes, mbind, comp_bind, get_world, lift. simpl.
  destruct (encode_payload (format (config s)) hp v) as [bytes|e|ub]; simpl; [|done..].
  unfold catch_all, lib. simpl. destruct (socket_send_uses o bytes u) as (_ & Hd & _).
  destruct (socket_send o bytes u) as [[n|e|ub] u1]; simpl; [done|done|].
  by destruct Hd; eexists.
Qed.
End theorems.

Section loop.
Context `{ExternalLaws} {U : Type} (h : host U BusState) (I : BusState → U → Prop).
Context (own : obj) (others : obj → EventRegistry).
#[local] Instance zmq_link : BusLink U BusState := bus_link h own others.

(** C35: the worker hands over the non-empty payloads of the frames it reads in the
    order in which they arrive (for ROUTER sockets the frame after the routing
    id), until it is asked to stop, woken by the shutdown socket, or the poll
    fails; failing reads, payloads that do not decode and listeners that throw do
    not end it. *)
Theorem zmq_loop_in_order c sink sup turns (w : world U BusState) :
  civil h I → (∀ s u, I s u → handlers_ok s) → good I w →
  (∀ p reg, p ∈ arrivals (pattern c) turns → ¬ is_undef (decode_payload (format c) reg p)) →
  let i := install_sinks own sink (new_Impl sup) in
  ∃ w' tr, for_each (arrivals (pattern c) turns) (deliver_payload h "zmq" (format c) i) w = (Ret (), w', tr) ∧
           run_loop h c i turns w = (Ret (), w', tr) ∧ good I w'.
Proof.
  intros Hciv Hok Hg Hdef i. revert w Hg Hdef.
  induction turns as [|t turns IH]; intros w Hg Hdef; simpl; [by exists w, []|].
  simpl in Hdef. destruct (stop_requested t); [by exists w, []|].
  destruct (poll t) as [[data []]|]; [by exists w, []| |by exists w, []].
  (* one turn delivers its payloads *)
  set (ps := if data then List.filter (λ b, negb (bool_decide (b = []))) (payload_of_turn (pattern c) t) else []) in *.
  assert (∃ w1 tr1, for_each ps (deliver_payload h "zmq" (format c) i) w = (Ret (), w1, tr1) ∧
    (if data then catch_all (read_turn h c i t) (λ _, mret ()) else mret ()) w = (Ret (), w1, tr1) ∧ good I w1)
    as (w1 & tr1 & Hf & Hr & Hg1).
  { assert (∀ p, p ∈ ps → ∃ w1 tr1, deliver_payload h "zmq" (format c) i p w = (Ret (), w1, tr1) ∧ good I w1) as Hp.
    { intros p Hp. apply (deliver_payload_returns h I Hciv Hok own others); [done|].
      intros reg. apply Hdef. apply elem_of_app. by left. }
    unfold ps in *. destruct data; [|by exists w, []].
    unfold read_turn, payload_of_turn in *.
    assert (∀ bytes : list Z,
      (∀ p, p ∈ List.filter (λ b, negb (bool_decide (b = []))) [bytes] →
         ∃ w1 tr1, deliver_payload h "zmq" (format c) i p w = (Ret (), w1, tr1) ∧ good I w1) →
      ∃ w1 tr1, for_each (List.filter (λ b, negb (bool_decide (b = []))) [bytes])
                  (deliver_payload h "zmq" (format c) i) w = (Ret (), w1, tr1) ∧
        catch_all (deliver_bytes h c i bytes) (λ _, mret ()) w = (Ret (), w1, tr1) ∧ good I w1) as Hone.
    { intros [|z bytes] Hb; [by exists w, []|]. simpl in *.
      destruct (Hb (z :: bytes)) as (w1 & tr1 & Hrun & Hg1); [by left|]. exists w1, tr1.
      unfold mbind, comp_bind, catch_all. rewrite Hrun. simpl. by rewrite (right_id_L [] (++)). }
    destruct (pattern c), (first t) as [|b1 []|]; try destruct (second t) as [|b2 more2|];
      first [by exists w, []|by apply Hone]. }
  destruct (IH w1 Hg1) as (w2 & tr2 & Hf2 & Hl2 & Hg2).
  { intros p reg Hp. apply Hdef. apply elem_of_app. by right. }
  exists w2, (tr1 ++ tr2). split_and!; [| |done].
  - rewrite for_each_app. unfold mbind, comp_bind. by rewrite Hf, Hf2.
  - unfold mbind, comp_bind. by rewrite Hr, Hl2.
Qed.
End loop.

(** ** Witnesses *)

Definition number (x : zmq_object) : positive :=
  match x with OContext p | OSocket p | OWorker p => p end.

#[local] Instance toy_threads : ThreadLib (toy zmq_object) := {|
  thread_new _ u := toy_new number OWorker true u;
  thread_request_stop _ u := u;
  thread_joinable _ _ := true;
  thread_join _ u := toy_call () true u;
  thread_delete t u := toy_drop (OWorker t) u;
|}.

(** Binding fails when the endpoint is taken ([toy_refuses]). *)
#[local] Instance toy_zmq : ZmqLib (toy zmq_object) := {|
  context_new u := toy_new number OContext true u;
  context_delete c u := toy_drop (OContext c) u;
  socket_new _ _ u := toy_new number OSocket true u;
  socket_delete s u := toy_drop (OSocket s) u;
  socket_set _ _ u := toy_call () true u;
  socket_bind _ _ u := toy_call () (negb (toy_refuses u)) u;
  socket_connect _ _ u := toy_call () true u;
  socket_send s b u := (Ret (Some (length b)), toy_send ("socket " +:+ pretty s) b u);
|}.

#[local] Instance toy_laws : ZmqLaws (toy zmq_object).
Proof.
  refine {| zmq_live := toy_live |}; intros; try done;
    try (by apply toy_new_builds); try (by apply toy_call_uses).
  split_and!; [done|by intros [? ?]|apply throws_only_ret].
Defined.

(** A subscriber only: one inbound socket, and no outbound one. *)
Definition toy_config : Config :=
  MkConfig PubSub "" Connect "tcp://localhost:5556" Connect "" "" Connect "" Bind "" Connect
    None 0 1000 1000 None Cbor.

Definition fresh_adapter : ZmqState := MkZmq toy_config (new_Impl None) None None None None None None false.
Definition toy_world (refuses : bool) : world (toy zmq_object) ZmqState :=
  World {[1%positive := sample_core]} false 0 (Toy {[OSocket 7%positive]} [] 0 refuses) fresh_adapter.

Lemma zmq_construct_validates_witness :
  is_ret (construct false toy_config None) ∧
  ((match pattern toy_config with
    | RouterDealer => endpoint toy_config ≠ ""
    | _ => wants_outbound toy_config || wants_inbound toy_config = true
    end) ∧ (is_Some (curve toy_config) → false = true)).
Proof.
  destruct (zmq_construct_validates false toy_config None) as [Hiff _].
  split; [by eexists|]. apply Hiff. by eexists.
Defined.

Lemma zmq_attach_by_pattern_witness :
  ∃ o w' tr, attach_with_sink false 1%positive SinkBus (toy_world false) = (o, w', tr) ∧
    ((o = Ret () ∧ zmq_live (user w') = {[OSocket 7%positive]} ∪ owned (st w') ∧ connected (st w') = true ∧
      (is_Some (outbound (st w')) ↔ wants_outbound (config (st (toy_world false))) = true) ∧
      (is_Some (inbound (st w')) ↔ wants_inbound (config (st (toy_world false))) = true) ∧
      (is_Some (worker (st w')) ↔ wants_inbound (config (st (toy_world false))) = true)) ∨
     (∃ e, o = Throw e ∧ exn_type e = ZmqError ∧ zmq_live (user w') = {[OSocket 7%positive]} ∧ released (st w')) ∨
     (∃ e, o = Throw e ∧ is_std e ∧ zmq_live (user w') = {[OSocket 7%positive]} ∪ owned (st w') ∧
           connected (st w') = true ∧ worker (st w') = None)).
Proof.
  apply (zmq_attach_by_pattern false 1%positive SinkBus {[OSocket 7%positive]} (toy_world false)); done.
Defined.

(** The inbound socket and the shutdown pair could not be bound: everything is given
    back. *)
Example refused_attach :
  let r := attach_with_sink false 1%positive SinkBus (toy_world true) in
  (match r.1.1 with Throw e => Some (exn_type e) | _ => None end, toy_live (user r.1.2)) =
  (Some ZmqError, {[OSocket 7%positive]}).
Proof. vm_compute. reflexivity. Qed.

Abbreviation online_world :=
  (world_after (zmq_run (CAttach false 1%positive SinkBus)) (toy_world false)).

Lemma zmq_online_world_run :
  zmq_run (CAttach false 1%positive SinkBus) (toy_world false) =
  (Ret (), online_world, trace_of (zmq_run (CAttach false 1%positive SinkBus)) (toy_world false)).
Proof. apply completed_run. vm_compute. reflexivity. Qed.

Lemma zmq_no_leak_witness :
  (zmq_live (user online_world) = {[OSocket 7%positive]} ∪ owned (st online_world) ∧
   {[OSocket 7%positive]} ## owned (st online_world)) ∧
  (∀ o w' tr, detach online_world = (o, w', tr) →
     o = Ret () ∧ released (st w') ∧ zmq_live (user w') = {[OSocket 7%positive]}).
Proof.
  apply (zmq_no_leak {[OSocket 7%positive]} (toy_world false) online_world); [done|done|].
  apply rtc_once. apply (ZmqStep _ _ _ _ _ zmq_online_world_run); [by intros [? ?]|done].
Defined.

Lemma zmq_dispatch_sends_witness :
  outbound (st (toy_world false)) = None ∧
  dispatch (envelope_at 1%positive) (toy_world false) = (Ret (), toy_world false, []).
Proof. split; [done|]. apply (zmq_dispatch_sends (envelope_at 1%positive) (toy_world false)). Defined.

(** A frame that does not decode, a failing read, an empty frame, another frame, and
    the shutdown signal. *)
Definition sample_turns : list turn :=
  [MkTurn false (Some (true, false)) (Frame [1; 2]%Z false) NoFrame;
   MkTurn false (Some (true, false)) RecvError NoFrame;
   MkTurn false (Some (true, false)) (Frame [] false) NoFrame;
   MkTurn false (Some (true, false)) (Frame [3; 4]%Z false) NoFrame;
   MkTurn false (Some (true, true)) (Frame [5]%Z false) NoFrame].

Lemma zmq_loop_in_order_witness :
  let i := install_sinks 1 SinkBus (new_Impl None) in
  let link := bus_link faulty_host 1%positive (λ _, new_EventRegistry) in
  ∃ w' tr, for_each [[1; 2]; [3; 4]]%Z (deliver_payload (BusLink0 := link) faulty_host "zmq" Cbor i)
             listening_world = (Ret (), w', tr) ∧
           run_loop (BusLink0 := link) faulty_host toy_config i sample_turns listening_world = (Ret (), w', tr) ∧
           good (λ s _, handlers_ok s) w'.
Proof.
  apply (zmq_loop_in_order faulty_host (λ s _, handlers_ok s) 1%positive (λ _, new_EventRegistry)
           toy_config SinkBus None sample_turns listening_world).
  - apply faulty_civil.
  - done.
  - split; [done|]. by repeat constructor.
  - intros p reg Hp.
    assert (∀ x y reg, ∃ e, decode_payload (format toy_config) reg [x; y]%Z = Throw e) as Hthrow.
    { intros x y r. destruct x, y; eexists; reflexivity. }
    intros [u Hu]. simpl in Hp.
    apply elem_of_cons in Hp as [->|Hp%list_elem_of_singleton]; [|subst p].
    + destruct (Hthrow 1%Z 2%Z reg). congruence.
    + destruct (Hthrow 3%Z 4%Z reg). congruence.
Defined.
