(* ===== verification/Amqp.v ===== *)
(** * The AMQP adapter ([transports/amqp/src/transport.cpp])

    AMQP-CPP, threadman and the POSIX calls are the class [AmqpLib].  Everything
    that touches AMQP-CPP runs on one IO thread, which runs the tasks that other
    threads post and polls the connection; the library calls the handler back
    while it processes what arrived.  The closures that are posted are the
    constructors of [task], and the promises that threads wait for live in a heap
    of their own, with the lifetime that the code gives them. *)

From S2P Require Import Prelude Exceptions External Flags Instances Envelope EnvelopeWire Serialization SerializationProps.
From S2P Require Import World WorldLogic WorldSafety Hosts Bus Transport Adapter Resources.

(** ** Configuration *)

Record Config := MkConfig {
  url : string;
  connection_name : string;
  tls : option TlsConfig;
  exchange : string;
  exchange_type : string;
  exchange_durable : bool;
  exchange_auto_delete : bool;
  routing_key : string;
  queue : string;
  queue_durable : bool;
  queue_exclusive : bool;
  queue_auto_delete : bool;
  persistent : bool;
  publisher_confirms : bool;
  connect_timeout : Z;
  heartbeat : Z;
  format : Format;
}.

Definition set_connection_name (n : string) (c : Config) : Config :=
  MkConfig (url c) n (tls c) (exchange c) (exchange_type c) (exchange_durable c) (exchange_auto_delete c)
    (routing_key c) (queue c) (queue_durable c) (queue_exclusive c) (queue_auto_delete c)
    (persistent c) (publisher_confirms c) (connect_timeout c) (heartbeat c) (format c).

(** [AMQP::ExchangeType], as far as it is used. *)
Inductive ExchangeType := topic | direct | fanout | headers.

(** ** What AMQP-CPP calls back *)

(** The virtual methods of [AMQP::TcpHandler] that the adapter overrides, and the
    callbacks it registers on the channel and its deferred operations.  A null
    [const char*] is [None]. *)
Inductive amqp_event :=
  | EvMonitor (fd flags : Z)
  | EvReady
  | EvConnected
  | EvError (message : option string)
  | EvClosed
  | EvLost
  | EvHeartbeat (c : option positive)
  | EvChannelError (message : option string)
  | EvExchangeError (message : option string)
  | EvQueueDeclared (name : string)
  | EvQueueError (message : option string)
  | EvBound
  | EvBindError (message : option string)
  | EvConsuming
  | EvConsumeError (message : option string)
  | EvReceived (body : list Z) (delivery_tag : Z)
  | EvAck (delivery_tag : Z) (multiple : bool)
  | EvNack (delivery_tag : Z) (multiple : bool).

(** [AMQP::Envelope] with its content type and, when persistent, delivery mode 2. *)
Record amqp_message := MkMessage {
  m_body : list Z;
  m_content_type : string;
  m_delivery_mode : option Z;
}.

(** What [::poll] gives: failure (with [EINTR] or not), the timeout, or the events of
    the wake-up pipe and of the connection's socket. *)
Inductive poll_result :=
  | PollFailed (eintr : bool)
  | PollTimedOut
  | PollReady (wakeup connection : Z).

(** A call that reaches the connection also gives the callbacks that the library
    makes before it returns, in order; the calls that the callbacks themselves make
    ([bindQueue], [consume], [ack], [heartbeat]) queue a frame and call nothing back.
    The constructor and the destructor of a connection call [monitor] with the
    descriptors and flags that they give. *)
Class AmqpLib (U : Type) := {
  amqp_threads :: ThreadLib U;
  (* ::pipe, two descriptors or failure; ::close, ::write of one byte, ::read until empty *)
  sys_pipe : U → option (Z * Z) * U;
  sys_close : Z → U → U;
  sys_write_byte : Z → U → U;
  sys_drain : Z → U → U;
  sys_poll : list (Z * Z) → U → poll_result * U;
  POLLIN : Z;
  POLLOUT : Z;
  POLLERR : Z;
  POLLHUP : Z;
  AMQP_readable : Z;
  AMQP_writable : Z;
  AMQP_durable : Z;
  AMQP_autodelete : Z;
  AMQP_exclusive : Z;
  (* AMQP::Address(url) and std::make_unique<AMQP::TcpConnection>(this, address) *)
  connection_new : string → U → outcome positive * list (Z * Z) * U;
  connection_delete : positive → U → list (Z * Z) * U;
  connection_close : positive → U → outcome () * list amqp_event * U;
  connection_process : positive → Z → Z → U → outcome () * list amqp_event * U;
  connection_heartbeat : positive → U → U;
  channel_new : positive → U → outcome positive * U;
  channel_delete : positive → U → U;
  channel_close : positive → U → outcome () * list amqp_event * U;
  declare_exchange : positive → string → ExchangeType → Z → U → outcome () * list amqp_event * U;
  declare_queue : positive → string → Z → U → outcome () * list amqp_event * U;
  bind_queue : positive → string → string → string → U → outcome () * U;
  channel_consume : positive → string → U → outcome () * U;
  confirm_select : positive → U → outcome () * list amqp_event * U;
  channel_ack : positive → Z → U → outcome () * U;
  channel_publish : positive → string → string → amqp_message → U → outcome bool * list amqp_event * U;
}.

(** ** State *)

(** The shared states of the promises: the string of [connect_and_declare], the
    acknowledgement of a publication, and the two [promise<void>]s. *)
Inductive promise_value := VString (s : string) | VBool (b : bool) | VVoid.

(** The closures that are posted to the IO thread. *)
Inductive task :=
  | TaskConnect (p : positive)
  | TaskPublish (payload : list Z) (content_type : string) (ack_promise : option positive)
  | TaskFlush (done : positive)
  | TaskClose (closed : positive).

Record IoState := MkIo {
  wakeup_pipe : Z * Z;
  amqp_fd : Z;
  amqp_flags : Z;
  io_thread : option positive;
  io_running : bool;       (* [io_loop] has been entered and has not returned *)
  task_queue : list task;
}.

Record LinkState := MkLink {
  connection : option positive;
  channel : option positive;
  declared_by : option positive;   (* the promise that the channel's callbacks hold *)
  bound_queue : string;
  ready : bool;
  connected : bool;
  error_seen : bool;
  last_error : string;
}.

(** [pending_confirms] is the [std::map] as the list of its entries, in order. *)
Record ConfirmState := MkConfirms {
  confirms_enabled : bool;
  next_delivery_tag : Z;
  pending_confirms : list (Z * positive);
}.

Record AmqpState := MkAmqp {
  config : Config;
  impl : Impl;
  io : IoState;
  link : LinkState;
  confirms : ConfirmState;
  promises : gmap positive (option promise_value);   (* alive, with their values *)
  promise_count : positive;
}.

Definition set_impl (i : Impl) (s : AmqpState) : AmqpState :=
  MkAmqp (config s) i (io s) (link s) (confirms s) (promises s) (promise_count s).
Definition on_io (f : IoState → IoState) (s : AmqpState) : AmqpState :=
  MkAmqp (config s) (impl s) (f (io s)) (link s) (confirms s) (promises s) (promise_count s).
Definition on_link (f : LinkState → LinkState) (s : AmqpState) : AmqpState :=
  MkAmqp (config s) (impl s) (io s) (f (link s)) (confirms s) (promises s) (promise_count s).
Definition on_confirms (f : ConfirmState → ConfirmState) (s : AmqpState) : AmqpState :=
  MkAmqp (config s) (impl s) (io s) (link s) (f (confirms s)) (promises s) (promise_count s).
Definition on_promises (f : gmap positive (option promise_value) → gmap positive (option promise_value))
    (s : AmqpState) : AmqpState :=
  MkAmqp (config s) (impl s) (io s) (link s) (confirms s) (f (promises s)) (promise_count s).

Definition set_fd (fd flags : Z) (i : IoState) : IoState :=
  MkIo (wakeup_pipe i) fd flags (io_thread i) (io_running i) (task_queue i).
Definition set_io_thread (t : option positive) (i : IoState) : IoState :=
  MkIo (wakeup_pipe i) (amqp_fd i) (amqp_flags i) t (io_running i) (task_queue i).
Definition set_task_queue (q : list task) (i : IoState) : IoState :=
  MkIo (wakeup_pipe i) (amqp_fd i) (amqp_flags i) (io_thread i) (io_running i) q.
Definition set_io_running (b : bool) (i : IoState) : IoState :=
  MkIo (wakeup_pipe i) (amqp_fd i) (amqp_flags i) (io_thread i) b (task_queue i).

Definition set_connection (c : option positive) (l : LinkState) : LinkState :=
  MkLink c (channel l) (declared_by l) (bound_queue l) (ready l) (connected l) (error_seen l) (last_error l).
Definition set_channel (c : option positive) (l : LinkState) : LinkState :=
  MkLink (connection l) c (declared_by l) (bound_queue l) (ready l) (connected l) (error_seen l) (last_error l).
Definition set_declared_by (p : option positive) (l : LinkState) : LinkState :=
  MkLink (connection l) (channel l) p (bound_queue l) (ready l) (connected l) (error_seen l) (last_error l).
Definition set_bound_queue (q : string) (l : LinkState) : LinkState :=
  MkLink (connection l) (channel l) (declared_by l) q (ready l) (connected l) (error_seen l) (last_error l).
Definition set_ready (b : bool) (l : LinkState) : LinkState :=
  MkLink (connection l) (channel l) (declared_by l) (bound_queue l) b (connected l) (error_seen l) (last_error l).
Definition set_connected (b : bool) (l : LinkState) : LinkState :=
  MkLink (connection l) (channel l) (declared_by l) (bound_queue l) (ready l) b (error_seen l) (last_error l).
Definition set_error (e : string) (l : LinkState) : LinkState :=
  MkLink (connection l) (channel l) (declared_by l) (bound_queue l) (ready l) (connected l) true e.

Definition set_pending (m : list (Z * positive)) (c : ConfirmState) : ConfirmState :=
  MkConfirms (confirms_enabled c) (next_delivery_tag c) m.
Definition set_next_tag (n : Z) (c : ConfirmState) : ConfirmState :=
  MkConfirms (confirms_enabled c) n (pending_confirms c).

(** [std::map::emplace]: by key, and nothing when the key is there. *)
Fixpoint emplace (t : Z) (p : positive) (m : list (Z * positive)) : list (Z * positive) :=
  match m with
  | [] => [(t, p)]
  | (k, q) :: m' =>
      if (k <? t)%Z then (k, q) :: emplace t p m'
      else if (t <? k)%Z then (t, p) :: m
      else m
  end.

Fixpoint find_confirm (t : Z) (m : list (Z * positive)) : option positive :=
  match m with
  | [] => None
  | (k, q) :: m => if (k =? t)%Z then Some q else find_confirm t m
  end.

Definition erase_confirm (t : Z) (m : list (Z * positive)) : list (Z * positive) :=
  List.filter (λ e, negb (e.1 =? t)%Z) m.

(** ** Construction *)

Definition k_valid_exchange_types : list string := ["topic"; "direct"; "fanout"; "headers"].

(** The checks of the constructor, up to the pipe; [has_tls] is whether
    [CONDUIT_TRANSPORT_AMQP_TLS] is defined, [generated] the string of
    [ulid::generate()]. *)
Definition validate (has_tls : bool) (generated : string) (cfg : Config) : outcome Config :=
  if String.eqb (routing_key cfg) "" then
    Throw (Exn ConfigError "conduit::amqp::Transport: Config::routing_key must be non-empty")
  else if negb (String.eqb (exchange_type cfg) "topic") && negb (String.eqb (exchange_type cfg) "direct") &&
          negb (String.eqb (exchange_type cfg) "fanout") && negb (String.eqb (exchange_type cfg) "headers") then
    Throw (Exn ConfigError "conduit::amqp::Transport: Config::exchange_type must be 'topic', 'direct', 'fanout', or 'headers'")
  else
    let cfg := if String.eqb (connection_name cfg) "" then
                 set_connection_name ("conduit-" +:+ generated) cfg else cfg in
    if negb has_tls && (bool_decide (is_Some (tls cfg)) || starts_with "amqps://" (url cfg)) then
      Throw (Exn TlsNotSupportedError "conduit::amqp::Transport: amqps:// URLs require CONDUIT_TRANSPORT_AMQP_TLS=ON at build time")
    else Ret cfg.

Definition no_link : LinkState := MkLink None None None "" false false false "".

Definition construct {U} `{AmqpLib U} (has_tls : bool) (generated : string) (cfg : Config) (reg : option obj)
    (u : U) : outcome AmqpState * U :=
  match validate has_tls generated cfg with
  | Ret cfg =>
      match sys_pipe u with
      | (Some fds, u) =>
          (Ret (MkAmqp cfg (new_Impl reg) (MkIo fds (-1) 0 None false []) no_link
                  (MkConfirms (publisher_confirms cfg) 1 []) ∅ 1), u)
      | (None, u) => (Throw (Exn AmqpError "conduit::amqp::Transport: pipe() failed"), u)
      end
  | Throw e => (Throw e, u)
  | Undef x => (Undef x, u)
  end.

(** The type and the flags that [connect_and_declare] computes. *)
Definition exchange_type_of (c : Config) : ExchangeType :=
  if String.eqb (exchange_type c) "direct" then direct
  else if String.eqb (exchange_type c) "fanout" then fanout
  else if String.eqb (exchange_type c) "headers" then headers
  else topic.

Definition flag_if (b : bool) (f flags : Z) : Z := if b then Z.lor flags f else flags.

Definition exchange_flags {U} `{AmqpLib U} (c : Config) : Z :=
  flag_if (exchange_auto_delete c) AMQP_autodelete (flag_if (exchange_durable c) AMQP_durable 0).

Definition queue_flags {U} `{AmqpLib U} (c : Config) : Z :=
  flag_if (queue_auto_delete c) AMQP_autodelete
    (flag_if (queue_exclusive c) AMQP_exclusive (flag_if (queue_durable c) AMQP_durable 0)).

(** [onNegotiate]: the heartbeat as an unsigned 16-bit number. *)
Definition onNegotiate (c : Config) : Z := heartbeat c mod 65536.

(** ** Promises *)

Section ops.
Context `{Externals} {U : Type} `{AmqpLib U}.
Abbreviation comp := (comp U AmqpState).

(** A new promise; addresses are not used twice. *)
Definition new_promise : comp positive :=
  p ← gets promise_count;
  modify (λ s, MkAmqp (config s) (impl s) (io s) (link s) (confirms s)
                 (<[p := None]> (promises s)) (Pos.succ p));;
  mret p.

(** [try { p.set_value(v); } catch (...) {}]: nothing when the promise has its value
    already, and undefined behaviour when it is gone. *)
Definition set_value (p : positive) (v : promise_value) : comp () :=
  s ← gets promises;
  match s !! p with
  | Some None => modify (on_promises <[p := Some v]>)
  | Some (Some _) => mret ()
  | None => lift (Undef UseAfterFree)
  end.

(** A promise that is a local variable goes out of scope. *)
Definition forget (p : positive) : comp () := modify (on_promises (delete p)).

(** ** The queue of the IO thread *)

Definition wake : comp () :=
  s ← gets io;
  if ((wakeup_pipe s).2 <? 0)%Z then mret () else lib_void (sys_write_byte (wakeup_pipe s).2).

Definition post (t : task) : comp () :=
  modify (on_io (λ i, set_task_queue (task_queue i ++ [t]) i));;
  wake.

Definition drain_wakeup_pipe : comp () :=
  s ← gets io; lib_void (sys_drain (wakeup_pipe s).1).

(** ** Publisher confirms *)

(** The loop and the lookup of [resolve_confirm], on the entries in key order. *)
Definition settles (tag : Z) (multiple : bool) (e : Z * positive) : bool :=
  if multiple then (e.1 <=? tag)%Z else (e.1 =? tag)%Z.

Definition resolve_confirm (tag : Z) (multiple ok : bool) : comp () :=
  c ← gets confirms;
  if multiple then
    for_each (pending_confirms c) (λ e,
      if settles tag multiple e then
        set_value e.2 (VBool ok);;
        modify (on_confirms (λ c, set_pending (erase_confirm e.1 (pending_confirms c)) c))
      else mret ())
  else
    match find_confirm tag (pending_confirms c) with
    | Some p =>
        set_value p (VBool ok);;
        modify (on_confirms (λ c, set_pending (erase_confirm tag (pending_confirms c)) c))
    | None => mret ()
    end.

(** ** The handler *)

Definition monitor (m : Z * Z) : comp () := modify (on_io (set_fd m.1 m.2)).

Definition onError (message : option string) : comp () :=
  s ← gets link;
  modify (on_link (set_error (default (last_error s) message)));;
  modify (on_link (set_ready true));;
  modify (on_link (set_connected false));;
  c ← gets confirms;
  for_each (pending_confirms c) (λ e, set_value e.2 (VBool false));;
  modify (on_confirms (set_pending [])).

(** The error callbacks of [connect_and_declare]: what they give to [shared_p]. *)
Definition declare_failed (message : option string) (fallback : string) : comp () :=
  s ← gets link;
  match declared_by s with
  | Some p => set_value p (VString (default fallback message))
  | None => mret ()
  end.

(** [channel->], a member that may be empty. *)
Definition the_channel : comp positive :=
  s ← gets link;
  match channel s with
  | Some ch => mret ch
  | None => lift (Undef NullDeref)
  end.

Context `{!BusLink U AmqpState} (h : host U AmqpState).

Definition deliver_message (body : list Z) : comp () :=
  s ← get_world;
  deliver_payload h "amqp" (format (config (st s))) (impl (st s)) body.

Definition handle_event (e : amqp_event) : comp () :=
  match e with
  | EvMonitor fd flags => monitor (fd, flags)
  | EvReady => modify (on_link (set_ready true))
  | EvConnected => modify (on_link (set_connected true))
  | EvError m => onError m
  | EvClosed => modify (on_link (set_connected false))
  | EvLost => modify (on_link (set_connected false))
  | EvHeartbeat c =>
      match c with
      | Some c => lib_void (connection_heartbeat c)
      | None => mret ()
      end
  | EvChannelError m => declare_failed m "channel error"
  | EvExchangeError m => declare_failed m "declareExchange"
  | EvQueueDeclared name =>
      modify (on_link (set_bound_queue name));;
      ch ← the_channel;
      c ← gets config;
      lib (bind_queue ch (exchange c) name (routing_key c))
  | EvQueueError m => declare_failed m "declareQueue"
  | EvBound =>
      ch ← the_channel;
      s ← gets link;
      lib (channel_consume ch (bound_queue s))
  | EvBindError m => declare_failed m "bindQueue"
  | EvConsuming => declare_failed (Some ""%string) ""
  | EvConsumeError m => declare_failed m "consume"
  | EvReceived body tag =>
      s ← gets link;
      match channel s with
      | Some ch => lib (channel_ack ch tag)
      | None => mret ()
      end;;
      deliver_message body
  | EvAck tag multiple => resolve_confirm tag multiple true
  | EvNack tag multiple => resolve_confirm tag multiple false
  end.

(** A call to the library, the callbacks that it makes, and its end. *)
Definition with_events {A} (f : U → outcome A * list amqp_event * U) : comp A :=
  r ← lib_c (λ u, let '(o, evs, u) := f u in ((o, evs), u));
  for_each r.2 handle_event;;
  lift r.1.

(** ** The members that own library objects *)

Definition reset_connection (c : option positive) : comp () :=
  s ← gets link;
  modify (on_link (set_connection c));;
  match connection s with
  | Some old => ms ← lib_c (connection_delete old); for_each ms monitor
  | None => mret ()
  end.

Definition reset_channel : option positive → comp () :=
  reset_member (λ s, channel (link s)) (λ c, on_link (set_channel c)) channel_delete.

Definition reset_io_thread : option positive → comp () :=
  reset_member (λ s, io_thread (io s)) (λ t, on_io (set_io_thread t)) thread_delete.

Definition make_connection (url : string) : comp positive :=
  r ← lib_c (λ u, let '(o, ms, u) := connection_new url u in ((o, ms), u));
  for_each r.2 monitor;;
  lift r.1.

(** ** The tasks *)

(** The closure that [connect_and_declare] posts. *)
Definition run_connect (p : positive) : comp () :=
  catch_all
    (c ← gets config;
     conn ← make_connection (url c);
     reset_connection (Some conn);;
     ch ← lib (channel_new conn);
     reset_channel (Some ch);;
     modify (on_link (set_declared_by (Some p)));;
     with_events (declare_exchange ch (exchange c) (exchange_type_of c) (exchange_flags c));;
     with_events (declare_queue ch (queue c) (queue_flags c));;
     b ← gets (λ s, confirms_enabled (confirms s));
     if (b : bool) then with_events (confirm_select ch) else mret ())
    (λ e, if catches std_exception (exn_type e) then set_value p (VString ("connect: " +:+ what e))
          else set_value p (VString "connect: unknown error")).

Definition make_message (c : Config) (payload : list Z) (content_type : string) : amqp_message :=
  MkMessage payload content_type (if persistent c then Some 2%Z else None).

(** The closure that [dispatch] posts.  The promise is moved into the map before
    anything that throws, so [set_value] in the handler finds no shared state,
    throws, and is caught: the handler does nothing. *)
Definition run_publish (payload : list Z) (content_type : string) (ack_promise : option positive) : comp () :=
  s ← gets link;
  match channel s with
  | None =>
      match ack_promise with
      | Some p => set_value p (VBool false)
      | None => mret ()
      end
  | Some ch =>
      catch_all
        (c ← gets config;
         tag ← gets (λ s, next_delivery_tag (confirms s));
         modify (on_confirms (set_next_tag (u64_add tag 1)));;
         match ack_promise with
         | Some p => modify (on_confirms (λ c, set_pending (emplace tag p (pending_confirms c)) c))
         | None => mret ()
         end;;
         ok ← with_events (channel_publish ch (exchange c) (routing_key c) (make_message c payload content_type));
         pend ← gets (λ s, pending_confirms (confirms s));
         match ack_promise with
         | Some _ =>
             if (ok : bool) then mret ()
             else match find_confirm tag pend with
                  | Some q =>
                      set_value q (VBool false);;
                      modify (on_confirms (λ c, set_pending (erase_confirm tag (pending_confirms c)) c))
                  | None => mret ()
                  end
         | None => mret ()
         end)
        (λ _, mret ())
  end.

(** The closure that [shutdown] posts. *)
Definition run_close (closed : positive) : comp () :=
  catch_all
    (s ← gets link;
     match channel s with
     | Some ch => with_events (channel_close ch)
     | None => mret ()
     end) (λ _, mret ());;
  catch_all
    (s ← gets link;
     match connection s with
     | Some c => with_events (connection_close c)
     | None => mret ()
     end) (λ _, mret ());;
  set_value closed VVoid.

Definition run_task (t : task) : comp () :=
  match t with
  | TaskConnect p => run_connect p
  | TaskPublish payload content_type ack_promise => run_publish payload content_type ack_promise
  | TaskFlush done => set_value done VVoid
  | TaskClose closed => run_close closed
  end.

(** ** The IO thread *)

Definition run_tasks (ts : list task) : comp () :=
  for_each ts (λ t, catch_all (run_task t) (λ _, mret ())).

Definition drain_tasks : comp () :=
  i ← gets io;
  modify (on_io (set_task_queue []));;
  run_tasks (task_queue i).

Definition exit_loop : comp () := modify (on_io (set_io_running false)).

(** [fds]: the wake-up pipe, and the connection's socket when something is asked of
    it. *)
Definition watches_connection (i : IoState) : bool := (0 <=? amqp_fd i)%Z && negb (amqp_flags i =? 0)%Z.

Definition poll_events (flags : Z) : Z :=
  Z.lor (if negb (Z.land flags AMQP_readable =? 0)%Z then POLLIN else 0)
        (if negb (Z.land flags AMQP_writable =? 0)%Z then POLLOUT else 0).

Definition pollfds (i : IoState) : list (Z * Z) :=
  ((wakeup_pipe i).1, POLLIN) ::
  (if watches_connection i then [(amqp_fd i, poll_events (amqp_flags i))] else []).

Definition proc_flags (revents : Z) : Z :=
  Z.lor (if negb (Z.land revents (Z.lor POLLIN (Z.lor POLLERR POLLHUP)) =? 0)%Z then AMQP_readable else 0)
        (if negb (Z.land revents POLLOUT =? 0)%Z then AMQP_writable else 0).

(** One iteration of [io_loop]; the arguments are what the stop token answers at
    its head and after the tasks. *)
Definition io_turn (stop_at_head stop_after_tasks : bool) : comp () :=
  if stop_at_head then exit_loop else
  drain_tasks;;
  if stop_after_tasks then exit_loop else
  i ← gets io;
  r ← lib_c (sys_poll (pollfds i));
  match r with
  | PollFailed true => mret ()
  | PollFailed false => exit_loop
  | PollTimedOut => mret ()
  | PollReady wakeup revents =>
      (if negb (Z.land wakeup POLLIN =? 0)%Z then drain_wakeup_pipe else mret ());;
      s ← gets link;
      match connection s with
      | Some c =>
          if watches_connection i && negb (revents =? 0)%Z then
            catch_all (with_events (connection_process c (amqp_fd i) (proc_flags revents))) (λ _, mret ())
          else mret ()
      | None => mret ()
      end
  end.

(** What the IO thread does while another thread waits: some iterations, fewer
    when the loop ends. *)
Definition io_turns (ts : list (bool * bool)) : comp () :=
  for_each ts (λ t,
    i ← gets io;
    if io_running i then io_turn t.1 t.2 else mret ()).

Definition start_io_thread : comp () :=
  t ← lib (thread_new "conduit:amqp-io");
  reset_io_thread (Some t);;
  modify (on_io (set_io_running true)).

(** ** Shutting down *)

(** The iterations while [shutdown] waits for the close, and those after the stop
    request, that [join] waits for. *)
Record schedule := MkSchedule {
  closing : list (bool * bool);
  stopping : list (bool * bool);
}.

(** [join] returns once the loop has ended. *)
Definition shutdown (sc : schedule) : comp () :=
  noexcept (
    i ← gets io;
    match io_thread i with
    | None =>
        reset_connection None;;
        reset_channel None
    | Some t =>
        closed ← new_promise;
        post (TaskClose closed);;
        io_turns (closing sc);;
        lib_void (thread_request_stop t);;
        wake;;
        io_turns (stopping sc);;
        exit_loop;;
        join_quietly t;;
        reset_io_thread None;;
        reset_channel None;;
        reset_connection None;;
        forget closed
    end).

(** ** The transport's operations *)

Definition attach_error (e : string) : exn := Exn AmqpError ("conduit::amqp::Transport::attach: " +:+ e).

Definition connect_and_declare (waiting : list (bool * bool)) : comp () :=
  p ← new_promise;
  post (TaskConnect p);;
  io_turns waiting;;
  s ← gets promises;
  match s !! p with
  | Some (Some (VString err)) =>
      if negb (String.eqb err "") then lift (Throw (attach_error err))
      else
        s ← gets link;
        if error_seen s then lift (Throw (attach_error (last_error s))) else mret ()
  | _ => lift (Throw (attach_error "connect/declare timed out"))
  end.

Definition attach_with_sink (waiting : list (bool * bool)) (sc : schedule)
    (bus_registry : obj) (sink : InboundSink) : comp () :=
  modify (λ s, set_impl (install_sinks bus_registry sink (impl s)) s);;
  start_io_thread;;
  on_unwind (connect_and_declare waiting) (shutdown sc).

Definition detach (sc : schedule) : comp () :=
  noexcept (shutdown sc;; modify (λ s, set_impl (clear_sink (impl s)) s)).

Definition content_type_of (f : Format) : string :=
  match f with Cbor => "application/cbor" | Json => "application/json" end.

(** [waiting]: the iterations while the caller waits for the acknowledgement, whose
    value it ignores. *)
Definition dispatch (waiting : list (bool * bool)) (v : EventEnvelope) : comp () :=
  s ← gets link;
  match connection s with
  | None => mret ()
  | Some _ =>
      c ← gets config;
      payload ← payload_bytes (format c) v;
      r ← requires_ack v;
      en ← gets (λ s, confirms_enabled (confirms s));
      if (r && en : bool) then
        p ← new_promise;
        post (TaskPublish payload (content_type_of (format c)) (Some p));;
        io_turns waiting
      else post (TaskPublish payload (content_type_of (format c)) None)
  end.

Definition flush (waiting : list (bool * bool)) : comp () :=
  done ← new_promise;
  post (TaskFlush done);;
  io_turns waiting;;
  forget done.

Definition is_connected : comp bool := gets (λ s, connected (link s)).

Definition amqp_scope : TransportScope := Remote.

(** [~Impl]: the pipe's ends are closed after the shutdown. *)
Definition close_fd (fd : Z) : comp () := if (0 <=? fd)%Z then lib_void (sys_close fd) else mret ().

Definition destroy (sc : schedule) : comp () :=
  noexcept (
    shutdown sc;;
    i ← gets io;
    close_fd (wakeup_pipe i).1;;
    close_fd (wakeup_pipe i).2).
End ops.
