(* ===== verification/AmqpLedger.v ===== *)
(** * The ledger of publisher confirms of the AMQP adapter

    An invariant of the unsettled acknowledgements: of the confirms that the broker
    owes, and of the publications that are still queued.  It is kept by every
    callback, every task, every iteration of the IO thread and every operation. *)

From Stdlib Require Import Sorting.Sorted.
From S2P Require Import Prelude Exceptions External Flags Instances Envelope EnvelopeWire Serialization SerializationProps.
From S2P Require Import World WorldLogic WorldSafety Hosts Bus Transport Adapter Amqp Resources AdapterProps.

(** ** Computations that keep a property of the members

    [goes I m w]: run from [w], [m] ends in a state with [I], or is undefined. *)

Section keeps.
Context `{Externals} {U : Type}.
Implicit Types w : world U AmqpState.

Definition goes {A} (I : AmqpState → Prop) (m : comp U AmqpState A) w : Prop :=
  Resources.post m (λ o w', is_undef o ∨ I (st w')) w.
Definition keeps {A} (I : AmqpState → Prop) (m : comp U AmqpState A) : Prop :=
  ∀ w, I (st w) → goes I m w.

Lemma goes_mono {A} I (Q : outcome A → world U AmqpState → Prop) (m : comp U AmqpState A) w :
  goes I m w → (∀ o w', is_undef o ∨ I (st w') → Q o w') → Resources.post m Q w.
Proof. unfold goes, Resources.post. auto. Qed.

Lemma goes_bind {A B} (I J : AmqpState → Prop) (m : comp U AmqpState A) (f : A → comp U AmqpState B) w :
  goes I m w → (∀ a w', I (st w') → goes J (f a) w') → (∀ s, I s → J s) → goes J (m ≫= f) w.
Proof.
  intros Hm Hf HIJ. apply post_bind. eapply goes_mono; [exact Hm|].
  intros [a|e|u] w' [[v [=]]|Hw']; [by apply Hf|right; by apply HIJ|by left; eexists|by left; eexists].
Qed.

Lemma keeps_bind {A B} I (m : comp U AmqpState A) (f : A → comp U AmqpState B) :
  keeps I m → (∀ a, keeps I (f a)) → keeps I (m ≫= f).
Proof. intros Hm Hf w Hw. eapply goes_bind; [by apply Hm|intros a w'; apply Hf|done]. Qed.

Lemma keeps_ret {A} I (a : A) : keeps I (mret a : comp U AmqpState A).
Proof. intros w Hw. by right. Qed.

Lemma keeps_lift {A} I (o : outcome A) : keeps I (lift o : comp U AmqpState A).
Proof. intros w Hw. by right. Qed.

Lemma keeps_get {A} I (f : AmqpState → A) : keeps I (gets f : comp U AmqpState A).
Proof. intros w Hw. by right. Qed.

Lemma keeps_gets {A B} I (f : AmqpState → A) (k : A → comp U AmqpState B) :
  (∀ w, I (st w) → goes I (k (f (st w))) w) → keeps I (gets f ≫= k).
Proof. intros Hk w Hw. by apply post_bind, post_gets, Hk. Qed.

Lemma goes_modify (I : AmqpState → Prop) f w : I (f (st w)) → goes I (modify f) w.
Proof. intros Hf. apply post_modify. by right. Qed.

Lemma keeps_modify I f : (∀ s, I s → I (f s)) → keeps I (modify f : comp U AmqpState ()).
Proof. intros Hf w Hw. apply goes_modify, Hf, Hw. Qed.

Lemma keeps_lib {A} I (f : U → outcome A * U) : keeps I (lib f).
Proof. intros w Hw. apply post_lib. by right. Qed.

Lemma keeps_lib_c {A} I (f : U → A * U) : keeps I (lib_c f).
Proof. intros w Hw. apply post_lib_c. by right. Qed.

Lemma keeps_lib_void I (f : U → U) : keeps I (lib_void f).
Proof. apply keeps_lib_c. Qed.

Lemma keeps_catch_all {A} I (m : comp U AmqpState A) k :
  keeps I m → (∀ e, keeps I (k e)) → keeps I (catch_all m k).
Proof.
  intros Hm Hk w Hw. apply post_catch_all. eapply goes_mono; [by apply Hm|].
  intros [a|e|u] w' [[v [=]]|Hw']; [by right|by apply Hk|by left; eexists|by right].
Qed.

Lemma keeps_noexcept {A} I (m : comp U AmqpState A) : keeps I m → keeps I (noexcept m).
Proof.
  intros Hm w Hw. apply post_noexcept. eapply goes_mono; [by apply Hm|].
  intros [a|e|u] w' Hw'; [done|left; by eexists|done].
Qed.

Lemma keeps_for_each {A} I (l : list A) body :
  (∀ x, keeps I (body x)) → keeps I (for_each (U := U) l body).
Proof. intros Hb. induction l as [|x l IH]; [apply keeps_ret|]. by apply keeps_bind. Qed.

Lemma keeps_on_unwind {A} I (m : comp U AmqpState A) c : keeps I m → keeps I c → keeps I (on_unwind m c).
Proof. intros Hm Hc. apply keeps_catch_all; [done|]. intros e. apply keeps_bind; [done|]. intros []. apply keeps_lift. Qed.

Lemma keeps_reset_member I get set (del : positive → U → U) p :
  (∀ s, I s → I (set p s)) → keeps I (reset_member get set del p).
Proof.
  intros Hs w Hw. apply post_bind, post_gets. eapply goes_bind; [by apply goes_modify, Hs| |done].
  intros [] w' Hw'. destruct (get (st w)); [by apply keeps_lib_void|by apply keeps_ret].
Qed.

Lemma keeps_join I `{!ThreadLib U} t : keeps I (join_quietly t).
Proof.
  apply keeps_catch_all; [|intros e; apply keeps_ret]. apply keeps_bind; [apply keeps_lib_c|].
  intros []; [apply keeps_lib|apply keeps_ret].
Qed.
End keeps.

(** Take a computation apart with these rules, where its values do not matter. *)
Ltac keeps_step :=
  lazymatch goal with
  | |- keeps _ (mret _) => apply keeps_ret
  | |- keeps _ (lift _) => apply keeps_lift
  | |- keeps _ (gets _) => apply keeps_get
  | |- keeps _ (mbind _ _) => apply keeps_bind; [|intros ?]
  | |- keeps _ (lib_void _) => apply keeps_lib_void
  | |- keeps _ (lib_c _) => apply keeps_lib_c
  | |- keeps _ (lib _) => apply keeps_lib
  | |- keeps _ (catch_all _ _) => apply keeps_catch_all; [|intros ?]
  | |- keeps _ (noexcept _) => apply keeps_noexcept
  | |- keeps _ (for_each _ _) => apply keeps_for_each; intros ?
  | |- keeps _ (if ?b then _ else _) => destruct b
  | |- keeps _ (match ?o with _ => _ end) => destruct o
  end.
Ltac keeps_rules := repeat keeps_step.

(** ** Equations of runs *)

Section equations.
Context `{Externals} {U : Type}.
Implicit Types w : world U AmqpState.

(** [w] with other members. *)
Definition with_members w (s : AmqpState) : world U AmqpState :=
  World (heap w) (locked w) (reads w) (user w) s.

Lemma run_gets {A B} (f : AmqpState → A) (k : A → comp U AmqpState B) w :
  (gets f ≫= k) w = k (f (st w)) w.
Proof. unfold mbind, comp_bind, gets. by destruct (k _ w) as [[? ?] ?]. Qed.

Lemma run_modify {B} f (k : () → comp U AmqpState B) w :
  (modify f ≫= k) w = k () (with_members w (f (st w))).
Proof. unfold mbind, comp_bind, modify, with_members. by destruct (k () _) as [[? ?] ?]. Qed.

Lemma run_ret {A B} (a : A) (k : A → comp U AmqpState B) w : (mret a ≫= k) w = k a w.
Proof. unfold mbind, comp_bind, mret, comp_ret. by destruct (k a w) as [[? ?] ?]. Qed.

Lemma catch_all_eq {A} (m m' : comp U AmqpState A) k w w' :
  m w = m' w' → catch_all m k w = catch_all m' k w'.
Proof. unfold catch_all. by intros ->. Qed.
End equations.

(** ** The ledger *)

(** The promises that a task settles as acknowledgements, and the others that it
    refers to. *)
Definition ack_refs (t : task) : list positive :=
  match t with TaskPublish _ _ (Some p) => [p] | _ => [] end.

Definition other_refs (t : task) : list positive :=
  match t with TaskConnect p | TaskFlush p | TaskClose p => [p] | TaskPublish _ _ _ => [] end.

(** The unsettled acknowledgements: of the confirms the broker owes, and of the tasks
    that are queued or, in [L], taken from the queue. *)
Definition acks (L : list task) (s : AmqpState) : list positive :=
  (pending_confirms (confirms s)).*2 ++ ((L ++ task_queue (io s)) ≫= ack_refs).

Definition others (L : list task) (s : AmqpState) : list positive :=
  option_list (declared_by (link s)) ++ ((L ++ task_queue (io s)) ≫= other_refs).

Definition keys_sorted (m : list (Z * positive)) : Prop := StronglySorted Z.lt m.*1.

(** [err]: whether an error of the connection has been seen before. *)
Section ledger.
Context (err : bool).

Record ledger (L : list task) (s : AmqpState) : Prop := {
  ledger_distinct : NoDup (acks L s);
  ledger_unsettled : ∀ p, p ∈ acks L s → promises s !! p = Some None;
  ledger_separate : ∀ p, p ∈ others L s → p ∉ acks L s;
  ledger_count : ∀ p, p ∈ others L s ∨ is_Some (promises s !! p) → (p < promise_count s)%positive;
  ledger_sorted : keys_sorted (pending_confirms (confirms s));
  ledger_error : err = true → error_seen (link s) = true;
}.

(** ** The map of pending confirms *)

Lemma find_confirm_elem t m p : find_confirm t m = Some p → (t, p) ∈ m.
Proof.
  induction m as [|[k q] m IH]; simpl; [done|]. destruct (Z.eqb_spec k t) as [->|_].
  - intros [= ->]. by left.
  - intros Hf. right. by apply IH.
Qed.

Lemma find_confirm_absent t m p : find_confirm t m = None → (t, p) ∉ m.
Proof.
  induction m as [|[k q] m IH]; simpl; [by intros _ ?%not_elem_of_nil|].
  destruct (Z.eqb_spec k t) as [|Hne]; [done|]. intros Hf [[= <- <-]|Hin]%elem_of_cons; [done|by apply IH].
Qed.

Lemma erase_confirm_elem t m e : e ∈ erase_confirm t m ↔ e ∈ m ∧ e.1 ≠ t.
Proof.
  unfold erase_confirm. rewrite !list_elem_of_In, List.filter_In, negb_true_iff, Z.eqb_neq. done.
Qed.

Lemma filter_sublist {A} (f : A → bool) l : List.filter f l `sublist_of` l.
Proof. induction l as [|x l IH]; simpl; [done|]. destruct (f x); by constructor. Qed.

Lemma erase_confirm_sublist t m : erase_confirm t m `sublist_of` m.
Proof. apply filter_sublist. Qed.

Lemma sublist_fmap {A B} (f : A → B) l k : l `sublist_of` k → f <$> l `sublist_of` f <$> k.
Proof. induction 1; simpl; by constructor. Qed.

Lemma StronglySorted_sublist {A} (R : A → A → Prop) l k :
  l `sublist_of` k → StronglySorted R k → StronglySorted R l.
Proof.
  induction 1 as [|x l k Hs IH|x l k Hs IH]; intros Hk; [constructor|..];
    apply StronglySorted_inv in Hk as [Hk Hx]; [|by apply IH].
  constructor; [by apply IH|]. rewrite Forall_forall in Hx |- *. intros y Hy. apply Hx.
  by eapply elem_of_submseteq, sublist_submseteq.
Qed.

Lemma keys_sorted_sublist l m : l `sublist_of` m → keys_sorted m → keys_sorted l.
Proof. intros Hs. by apply StronglySorted_sublist, sublist_fmap. Qed.

Lemma keys_sorted_functional m k p q : keys_sorted m → (k, p) ∈ m → (k, q) ∈ m → p = q.
Proof.
  unfold keys_sorted. induction m as [|[j r] m IH]; [by intros _ ?%not_elem_of_nil|].
  rewrite fmap_cons. intros [Hm Hall]%StronglySorted_inv. simpl in Hall. rewrite Forall_forall in Hall.
  assert (∀ x y, (x, y) ∈ m → (j < x)%Z) as Hlt.
  { intros x y Hin. apply Hall, list_elem_of_fmap. by exists (x, y). }
  intros [[= -> ->]|Hp]%elem_of_cons [Heq|Hq]%elem_of_cons; [congruence|apply Hlt in Hq; lia| |by apply IH].
  simplify_eq. apply Hlt in Hp. lia.
Qed.

Lemma emplace_elem t p m e : e ∈ emplace t p m → e = (t, p) ∨ e ∈ m.
Proof.
  induction m as [|[k q] m IH]; simpl.
  - intros ->%list_elem_of_singleton. by left.
  - destruct (k <? t)%Z; [|destruct (t <? k)%Z]; [|intros [->|]%elem_of_cons; by auto|by auto].
    intros [->|Hin]%elem_of_cons; [right; by left|]. destruct (IH Hin); [by left|right; by right].
Qed.

Lemma emplace_sorted t p m : keys_sorted m → keys_sorted (emplace t p m).
Proof.
  unfold keys_sorted. induction m as [|[k q] m IH]; intros Hs.
  { simpl. by repeat constructor. }
  pose proof Hs as Hs0. rewrite fmap_cons in Hs. apply StronglySorted_inv in Hs as [Hs Hall].
  simpl in Hall. cbn [emplace]. destruct (Z.ltb_spec k t) as [Hkt|Hkt]; [|destruct (Z.ltb_spec t k) as [Htk|Htk]].
  - rewrite fmap_cons. constructor; [by apply IH|]. rewrite Forall_forall in Hall |- *.
    intros x ([y z] & -> & [[= -> ->]|Hin]%emplace_elem)%list_elem_of_fmap; [done|].
    apply Hall, list_elem_of_fmap. by exists (y, z).
  - rewrite fmap_cons. constructor; [done|]. rewrite fmap_cons. constructor; [done|].
    eapply Forall_impl; [exact Hall|]. simpl. lia.
  - done.
Qed.

(** What is pending after an [emplace] was pending or is the new entry. *)
Lemma emplace_submseteq t p m : (emplace t p m).*2 ⊆+ p :: m.*2.
Proof.
  induction m as [|[k q] m IH]; simpl; [done|].
  destruct (k <? t)%Z; [|destruct (t <? k)%Z]; simpl.
  - rewrite (Permutation_swap q p). by apply submseteq_skip.
  - done.
  - by apply submseteq_cons.
Qed.

(** ** The ledger under the adapter's updates *)

(** The entry [e] is answered with [ok]. *)
Definition settle (ok : bool) (s : AmqpState) (e : Z * positive) : AmqpState :=
  on_confirms (λ c, set_pending (erase_confirm e.1 (pending_confirms c)) c)
    (on_promises <[e.2 := Some (VBool ok)]> s).

Definition settle_all (ok : bool) (es : list (Z * positive)) (s : AmqpState) : AmqpState :=
  foldl (settle ok) s es.

(** A state with fewer references of each kind, and the same promises but for some
    that are not unsettled acknowledgements. *)
Lemma ledger_shrink L L' s s' :
  ledger L s →
  acks L' s' ⊆+ acks L s → (∀ p, p ∈ others L' s' → p ∈ others L s) →
  (∀ p, p ∈ acks L' s' → promises s' !! p = promises s !! p) →
  (∀ p, is_Some (promises s' !! p) → is_Some (promises s !! p)) →
  promise_count s' = promise_count s → keys_sorted (pending_confirms (confirms s')) →
  (error_seen (link s) = true → error_seen (link s') = true) →
  ledger L' s'.
Proof.
  intros [Hnd Hun Hsep Hct Hsort Herr] Ha Ho Hp Hd Hc Hs He.
  assert (∀ p, p ∈ acks L' s' → p ∈ acks L s) as Hin by (intros p Hp0; by eapply elem_of_submseteq).
  constructor.
  - clear -Hnd Ha. revert Ha Hnd. generalize (acks L' s') (acks L s). intros l k Ha Hnd.
    apply submseteq_Permutation in Ha as [j Hj]. rewrite Hj in Hnd. by apply NoDup_app in Hnd as [? _].
  - intros p Hp'. rewrite Hp by done. by apply Hun, Hin.
  - intros p Hp' Hp''. eapply Hsep; [by apply Ho|by apply Hin].
  - intros p [Hp'|Hp']; rewrite Hc; apply Hct; [left; by apply Ho|right; by apply Hd].
  - done.
  - intros Heq. by apply He, Herr.
Qed.

(** Member updates that leave the references and the promises alone. *)
Lemma ledger_members L s s' :
  ledger L s → pending_confirms (confirms s') = pending_confirms (confirms s) →
  task_queue (io s') = task_queue (io s) → declared_by (link s') = declared_by (link s) →
  promises s' = promises s → promise_count s' = promise_count s →
  (error_seen (link s) = true → error_seen (link s') = true) → ledger L s'.
Proof.
  intros [Hnd Hun Hsep Hct Hsort Herr] Hp Hq Hd Hpr Hc He.
  constructor; [..|by intros ?%Herr%He]; unfold acks, others in *; by rewrite ?Hp, ?Hq, ?Hd, ?Hpr, ?Hc.
Qed.

Lemma ledger_drop t L s : ledger (t :: L) s → ledger L s.
Proof.
  intros Hl. eapply ledger_shrink; [exact Hl| | |done|done|done|apply Hl|done].
  - unfold acks. simpl. apply submseteq_app; [done|]. apply submseteq_inserts_l. done.
  - unfold others. simpl. intros p. rewrite !elem_of_app. tauto.
Qed.

Lemma ledger_drops ts L s : ledger (ts ++ L) s → ledger L s.
Proof. induction ts as [|t ts IH]; [done|]. intros Hl. by apply IH, (ledger_drop t). Qed.

Lemma ledger_promise_set L s p v :
  ledger L s → is_Some (promises s !! p) → p ∉ acks L s → ledger L (on_promises <[p := v]> s).
Proof.
  intros Hl Hp Hna. eapply ledger_shrink; [exact Hl|done|done| | |done|apply Hl|done].
  - intros q Hq. simpl. rewrite lookup_insert_ne; [done|]. intros ->. by apply Hna.
  - intros q. simpl. destruct (decide (p = q)) as [<-|Hne]; [by intros _|by rewrite lookup_insert_ne].
Qed.

Lemma ledger_forget L s p : ledger L s → p ∉ acks L s → ledger L (on_promises (delete p) s).
Proof.
  intros Hl Hna. eapply ledger_shrink; [exact Hl|done|done| | |done|apply Hl|done].
  - intros q Hq. simpl. rewrite lookup_delete_ne; [done|]. intros ->. by apply Hna.
  - intros q. simpl. rewrite lookup_delete_is_Some. tauto.
Qed.

Lemma pending_promise m k p : (k, p) ∈ m → NoDup m.*2 → p ∉ (erase_confirm k m).*2.
Proof.
  intros Hin Hnd ([j q] & Heq & [Hq Hne]%erase_confirm_elem)%list_elem_of_fmap. simpl in *. subst q.
  apply Hne. clear Hne. induction m as [|[i r] m IH]; [by apply not_elem_of_nil in Hin|].
  rewrite fmap_cons in Hnd. apply NoDup_cons in Hnd as [Hr Hnd].
  apply elem_of_cons in Hin as [Heq|Hin], Hq as [Heq'|Hq]; simplify_eq/=; try done; try by apply IH.
  - destruct Hr. apply list_elem_of_fmap. by eexists (_, _).
  - destruct Hr. apply list_elem_of_fmap. by eexists (_, _).
Qed.

Lemma ledger_settle ok L s e :
  ledger L s → e ∈ pending_confirms (confirms s) → ledger L (settle ok s e).
Proof.
  intros Hl He. destruct e as [k p].
  assert (is_Some (promises s !! p)) as Hp.
  { eexists. apply (ledger_unsettled L s Hl). apply elem_of_app. left. apply list_elem_of_fmap. by exists (k, p). }
  pose proof (ledger_distinct L s Hl) as Hnd. unfold acks in Hnd. apply NoDup_app in Hnd as (Hnd & Hdis & _).
  eapply ledger_shrink; [exact Hl| |done| | |done| |done].
  - unfold acks. simpl. apply submseteq_app; [|done]. apply sublist_submseteq, sublist_fmap, erase_confirm_sublist.
  - intros q Hq. simpl. rewrite lookup_insert_ne; [done|]. intros <-. unfold acks in Hq. simpl in Hq.
    apply elem_of_app in Hq as [Hq|Hq]; [by eapply pending_promise|].
    eapply Hdis; [|exact Hq]. apply list_elem_of_fmap. by exists (k, p).
  - intros q. simpl. destruct (decide (p = q)) as [<-|Hne]; [by intros _|by rewrite lookup_insert_ne].
  - simpl. eapply keys_sorted_sublist; [apply erase_confirm_sublist|apply Hl].
Qed.

Lemma ledger_settle_all ok es L s :
  ledger L s → (∀ e, e ∈ es → e ∈ pending_confirms (confirms s)) → NoDup es.*1 →
  ledger L (settle_all ok es s).
Proof.
  revert s. induction es as [|e es IH]; intros s Hl Hin Hnd; [done|].
  rewrite fmap_cons in Hnd. apply NoDup_cons in Hnd as [Hne Hnd]. simpl. apply IH; [|intros x Hx|done].
  - apply ledger_settle; [done|]. apply Hin. by left.
  - apply erase_confirm_elem. split; [apply Hin; by right|]. intros Heq. apply Hne.
    apply list_elem_of_fmap. by exists x.
Qed.

(** Tasks move between the queue and the thread that posts or runs them. *)
Lemma ledger_perm L L' s s' :
  ledger L s → L ++ task_queue (io s) ≡ₚ L' ++ task_queue (io s') →
  confirms s' = confirms s → declared_by (link s') = declared_by (link s) →
  promises s' = promises s → promise_count s' = promise_count s →
  (error_seen (link s) = true → error_seen (link s') = true) → ledger L' s'.
Proof.
  intros Hl Hq Hc Hd Hp Hn He.
  assert (acks L' s' ≡ₚ acks L s) as Ha by by unfold acks; rewrite Hc, Hq.
  assert (others L' s' ≡ₚ others L s) as Ho by by unfold others; rewrite Hd, Hq.
  eapply ledger_shrink; [exact Hl|by rewrite Ha| |by rewrite Hp|by rewrite Hp|done|rewrite Hc; apply Hl|done].
  intros p. by rewrite Ho.
Qed.

Lemma ledger_take L s :
  ledger L s → ledger (task_queue (io s) ++ L) (on_io (set_task_queue []) s).
Proof.
  intros Hl. eapply ledger_perm; [exact Hl| |done..]. simpl. rewrite app_nil_r. apply Permutation_app_comm.
Qed.

Definition queued (t : task) (i : IoState) : IoState := set_task_queue (task_queue i ++ [t]) i.

Lemma ledger_queued t L s : ledger (t :: L) s → ledger L (on_io (queued t) s).
Proof.
  intros Hl. eapply ledger_perm; [exact Hl| |done..]. simpl. solve_Permutation.
Qed.

(** A task without an acknowledgement may be referred to twice. *)
Lemma ledger_dup t L s : ledger (t :: L) s → ack_refs t = [] → ledger (t :: t :: L) s.
Proof.
  intros Hl Ht. eapply ledger_shrink; [exact Hl| | |done|done|done|apply Hl|done].
  - unfold acks. simpl. by rewrite Ht.
  - unfold others. simpl. intros p. rewrite !elem_of_app. tauto.
Qed.

Lemma ledger_add L t s :
  ledger L s → ack_refs t = [] → other_refs t = [] → ledger (t :: L) s.
Proof.
  intros Hl Ha Ho. eapply ledger_shrink; [exact Hl| | |done|done|done|apply Hl|done].
  - unfold acks. simpl. by rewrite Ha.
  - unfold others. simpl. by rewrite Ho.
Qed.

(** The state after [new_promise]. *)
Definition promised (s : AmqpState) : AmqpState :=
  MkAmqp (config s) (impl s) (io s) (link s) (confirms s)
    (<[promise_count s := None]> (promises s)) (Pos.succ (promise_count s)).

Lemma ledger_fresh L s p :
  ledger L s → p ∈ others L s ∨ p ∈ acks L s → p ≠ promise_count s.
Proof.
  intros Hl Hp ->. assert (promise_count s < promise_count s)%positive as Habs; [|lia].
  apply (ledger_count L s Hl). destruct Hp as [Hp|Hp]; [by left|right].
  eexists. by apply (ledger_unsettled L s Hl).
Qed.

Lemma ledger_promised_count L s p :
  ledger L s → p ∈ others L s ∨ is_Some (promises (promised s) !! p) → (p < promise_count (promised s))%positive.
Proof.
  intros Hl Hp. simpl in *. destruct (decide (p = promise_count s)) as [->|Hne]; [lia|].
  rewrite lookup_insert_ne in Hp by done. pose proof (ledger_count L s Hl p Hp). lia.
Qed.

(** A new promise for a task that only refers to it... *)
Lemma ledger_new_other L t s :
  ledger L s → ack_refs t = [] → other_refs t = [promise_count s] → ledger (t :: L) (promised s).
Proof.
  intros Hl Ha Ho.
  assert (acks (t :: L) (promised s) = acks L s) as Hacks by (unfold acks; simpl; by rewrite Ha).
  assert (∀ p, p ∈ others (t :: L) (promised s) → p = promise_count s ∨ p ∈ others L s) as Hothers.
  { unfold others. simpl. rewrite Ho. intros p. rewrite !elem_of_app, list_elem_of_singleton. tauto. }
  constructor; rewrite ?Hacks; [apply Hl| | | |apply Hl|apply Hl].
  - intros p Hp. simpl. rewrite lookup_insert_ne; [by apply (ledger_unsettled L s)|].
    apply not_eq_sym, (ledger_fresh L s p Hl). by right.
  - intros p [->|Hp]%Hothers Hp'; [by apply (ledger_fresh L s _ Hl (or_intror Hp'))|by eapply ledger_separate].
  - intros p [[->|Hp]%Hothers|Hp]; [simpl; lia|apply (ledger_promised_count L s p Hl); by left|].
    apply (ledger_promised_count L s p Hl). by right.
Qed.

(** ... and for a publication whose acknowledgement it is. *)
Lemma ledger_new_ack L b c s :
  ledger L s → ledger (TaskPublish b c (Some (promise_count s)) :: L) (promised s).
Proof.
  intros Hl. set (t := TaskPublish _ _ _).
  assert (acks (t :: L) (promised s) ≡ₚ promise_count s :: acks L s) as Hacks.
  { unfold acks. simpl. solve_Permutation. }
  assert (others (t :: L) (promised s) = others L s) as Hothers by done.
  constructor; rewrite ?Hothers; [| | | |apply Hl|apply Hl].
  - rewrite Hacks. constructor; [|apply Hl]. intros Hp. by apply (ledger_fresh L s _ Hl (or_intror Hp)).
  - intros p. rewrite Hacks. intros [->|Hp]%elem_of_cons; simpl; [by rewrite lookup_insert_eq|].
    rewrite lookup_insert_ne; [by apply (ledger_unsettled L s)|].
    apply not_eq_sym, (ledger_fresh L s p Hl). by right.
  - intros p Hp. rewrite Hacks. intros [->|Hp']%elem_of_cons;
      [by apply (ledger_fresh L s _ Hl (or_introl Hp))|by eapply ledger_separate].
  - intros p Hp. by apply (ledger_promised_count L s).
Qed.

(** The promise of a publication task that runs: it moves into the map, or is set. *)
Lemma ledger_emplace L b c p tag s :
  ledger (TaskPublish b c (Some p) :: L) s →
  ledger L (on_confirms (λ c, set_pending (emplace tag p (pending_confirms c)) c) s).
Proof.
  intros Hl. eapply ledger_shrink; [exact Hl| |done|done|done|done| |done].
  - unfold acks. simpl. etransitivity; [apply submseteq_app; [apply emplace_submseteq|reflexivity]|].
    apply Permutation_submseteq. simpl. solve_Permutation.
  - simpl. apply emplace_sorted, Hl.
Qed.

Lemma ledger_running L b c p s :
  ledger (TaskPublish b c (Some p) :: L) s → promises s !! p = Some None ∧ p ∉ acks L s.
Proof.
  intros Hl.
  assert (acks (TaskPublish b c (Some p) :: L) s ≡ₚ p :: acks L s) as Ha.
  { unfold acks. simpl. solve_Permutation. }
  split.
  - apply (ledger_unsettled _ _ Hl). rewrite Ha. by left.
  - pose proof (ledger_distinct _ _ Hl) as Hnd. rewrite Ha in Hnd. by apply NoDup_cons in Hnd as [? _].
Qed.

Lemma ledger_other L t p s : ledger (t :: L) s → other_refs t = [p] → p ∉ acks L s.
Proof.
  intros Hl Ht Hp. eapply (ledger_separate _ _ Hl p).
  - unfold others. simpl. rewrite Ht. rewrite !elem_of_app. right. left. by left.
  - unfold acks. simpl. rewrite elem_of_app. unfold acks in Hp. apply elem_of_app in Hp as [|]; [by left|right].
    apply elem_of_app. by right.
Qed.

Lemma ledger_declared L p s :
  ledger (TaskConnect p :: L) s → ledger (TaskConnect p :: L) (on_link (set_declared_by (Some p)) s).
Proof.
  intros Hl. eapply ledger_shrink; [exact Hl|done| |done|done|done|apply Hl|done].
  unfold others. simpl. intros q. set_solver.
Qed.

(** ** Settling confirms *)

Section settling.
Context `{Externals} {U : Type} `{AmqpLib U}.
Implicit Types w : world U AmqpState.

Lemma set_value_unset p v w :
  promises (st w) !! p = Some None →
  set_value p v w = (Ret (), with_members w (on_promises <[p := Some v]> (st w)), []).
Proof.
  intros Hp. unfold set_value, mbind, comp_bind, gets. cbn beta iota. by rewrite Hp.
Qed.

Definition settle_step (ok : bool) (e : Z * positive) : comp U AmqpState () :=
  set_value e.2 (VBool ok);;
  modify (on_confirms (λ c, set_pending (erase_confirm e.1 (pending_confirms c)) c)).

Lemma settle_step_run L ok e w :
  ledger L (st w) → e ∈ pending_confirms (confirms (st w)) →
  settle_step ok e w = (Ret (), with_members w (settle ok (st w) e), []).
Proof.
  intros Hl He. unfold settle_step, mbind, comp_bind at 1. rewrite set_value_unset; [done|].
  apply (ledger_unsettled L _ Hl), elem_of_app. left. apply list_elem_of_fmap. by exists e.
Qed.

(** The loop of [resolve_confirm]. *)
Lemma settle_loop_run L ok (f : Z * positive → bool) es w :
  ledger L (st w) → (∀ e, e ∈ es → e ∈ pending_confirms (confirms (st w))) → NoDup es.*1 →
  for_each es (λ e, if f e then settle_step ok e else mret ()) w =
  (Ret (), with_members w (settle_all ok (List.filter f es) (st w)), []).
Proof.
  revert w. induction es as [|e es IH]; intros w Hl Hin Hnd; [by destruct w|].
  rewrite fmap_cons in Hnd. apply NoDup_cons in Hnd as [Hne Hnd].
  simpl for_each. unfold mbind, comp_bind at 1. simpl List.filter. destruct (f e).
  - rewrite (settle_step_run L) by (done || apply Hin; by left). cbn beta iota.
    rewrite IH; [done| |intros x Hx|done].
    + apply ledger_settle; [done|]. apply Hin. by left.
    + apply erase_confirm_elem. split; [apply Hin; by right|]. intros Heq. apply Hne.
      apply list_elem_of_fmap. by exists x.
  - simpl. rewrite IH; [done|done|intros x Hx; apply Hin; by right|done].
Qed.

Lemma keys_NoDup m : keys_sorted m → NoDup m.*1.
Proof.
  unfold keys_sorted. induction 1 as [|x l Hl IH Hx]; constructor; [|done].
  rewrite Forall_forall in Hx. intros Hin%Hx. lia.
Qed.

Lemma find_confirm_filter t m :
  keys_sorted m →
  List.filter (settles t false) m = match find_confirm t m with Some p => [(t, p)] | None => [] end.
Proof.
  intros Hs%keys_NoDup. induction m as [|[k q] m IH]; [done|].
  rewrite fmap_cons in Hs. apply NoDup_cons in Hs as [Hk Hs]. simpl.
  change (settles t false (k, q)) with (k =? t)%Z. destruct (Z.eqb_spec k t) as [->|Hne]; [|by apply IH].
  rewrite IH by done. destruct (find_confirm t m) as [p|] eqn:Hf; [|done].
  destruct Hk. apply list_elem_of_fmap. exists (t, p). split; [done|]. by apply find_confirm_elem.
Qed.

(** What [resolve_confirm] does: it answers the entries that the tag covers. *)
Lemma resolve_confirm_run L tag multiple ok w :
  ledger L (st w) →
  resolve_confirm tag multiple ok w =
  (Ret (), with_members w (settle_all ok
     (List.filter (settles tag multiple) (pending_confirms (confirms (st w)))) (st w)), []).
Proof.
  intros Hl. pose proof (ledger_sorted L _ Hl) as Hs.
  unfold resolve_confirm. unfold mbind at 1, comp_bind at 1, gets. cbn beta iota.
  destruct multiple.
  - pose proof (settle_loop_run L ok (settles tag true) (pending_confirms (confirms (st w))) w Hl) as Hrun.
    unfold settle_step in Hrun. rewrite Hrun; [done|done|by apply keys_NoDup].
  - rewrite find_confirm_filter by done.
    destruct (find_confirm tag _) as [p|] eqn:Hf; [|by destruct w].
    pose proof (settle_step_run L ok (tag, p) w Hl (find_confirm_elem _ _ _ Hf)) as Hrun.
    unfold settle_step in Hrun. simpl in Hrun. by rewrite Hrun.
Qed.

(** The state that [settle_all] gives. *)
Lemma settle_all_pending ok es s :
  pending_confirms (confirms (settle_all ok es s)) =
  List.filter (λ e, negb (existsb (λ d, (d.1 =? e.1)%Z) es)) (pending_confirms (confirms s)).
Proof.
  revert s. induction es as [|d es IH]; intros s; simpl.
  - symmetry. apply List.forallb_filter_id, forallb_forall. done.
  - rewrite IH. simpl. unfold erase_confirm. clear IH.
    induction (pending_confirms (confirms s)) as [|e m IHm]; [done|]. simpl.
    rewrite (Z.eqb_sym d.1 e.1). destruct (e.1 =? d.1)%Z; simpl; [done|].
    destruct (existsb _ es); simpl; by rewrite IHm.
Qed.

Lemma settle_all_promises ok es s p :
  promises (settle_all ok es s) !! p =
  if bool_decide (p ∈ es.*2) then Some (Some (VBool ok)) else promises s !! p.
Proof.
  unfold settle_all. revert s. induction es as [|d es IH]; intros s; [done|].
  cbn [foldl]. rewrite IH, fmap_cons. cbn [settle on_confirms on_promises promises]. destruct (decide (p = d.2)) as [->|Hne].
  - rewrite lookup_insert_eq. rewrite (bool_decide_eq_true_2 (d.2 ∈ d.2 :: es.*2)) by by left.
    by destruct (bool_decide _).
  - rewrite lookup_insert_ne by done. destruct (decide (p ∈ es.*2)).
    + rewrite !bool_decide_eq_true_2; [done|by right|done].
    + rewrite !bool_decide_eq_false_2; [done|by intros [|]%elem_of_cons|done].
Qed.

Lemma settle_all_frame ok es s :
  io (settle_all ok es s) = io s ∧ link (settle_all ok es s) = link s ∧
  config (settle_all ok es s) = config s ∧ impl (settle_all ok es s) = impl s ∧
  promise_count (settle_all ok es s) = promise_count s ∧
  next_delivery_tag (confirms (settle_all ok es s)) = next_delivery_tag (confirms s).
Proof. revert s. induction es as [|d es IH]; intros s; [done|]. apply (IH (settle ok s d)). Qed.

(** The loop of [onError]. *)
Lemma settle_promises_ext ok es s s' :
  promises s = promises s' → promises (settle_all ok es s) = promises (settle_all ok es s').
Proof.
  revert s s'. induction es as [|d es IH]; intros s s' Hs; [done|]. simpl. apply IH. simpl. by rewrite Hs.
Qed.

Lemma fail_loop_run es w :
  NoDup es.*2 → (∀ p, p ∈ es.*2 → promises (st w) !! p = Some None) →
  for_each es (λ e, set_value e.2 (VBool false)) w =
  (Ret (), with_members w (on_promises (λ _, promises (settle_all false es (st w))) (st w)), []).
Proof.
  revert w. induction es as [|e es IH]; intros w Hnd Hun; [by destruct w as [? ? ? ? []]|].
  rewrite fmap_cons in Hnd. apply NoDup_cons in Hnd as [Hne Hnd].
  simpl for_each. unfold mbind, comp_bind at 1. rewrite set_value_unset by (apply Hun; by left). cbn beta iota.
  rewrite IH; [|done|].
  - rewrite (settle_promises_ext false es _ (settle false (st w) e)) by done. done.
  - intros p Hp. simpl. rewrite lookup_insert_ne; [apply Hun; by right|]. by intros <-.
Qed.

(** What [onError] does. *)
Definition errored (message : option string) (s : AmqpState) : AmqpState :=
  on_link (λ l, set_connected false (set_ready true (set_error (default (last_error l) message) l)))
    (on_confirms (set_pending [])
       (on_promises (λ _, promises (settle_all false (pending_confirms (confirms s)) s)) s)).

Lemma onError_run L message w :
  ledger L (st w) →
  onError message w = (Ret (), with_members w (errored message (st w)), []).
Proof.
  intros Hl. unfold onError.
  assert (NoDup (pending_confirms (confirms (st w))).*2) as Hnd.
  { pose proof (ledger_distinct L _ Hl) as Hnd. unfold acks in Hnd. by apply NoDup_app in Hnd as [? _]. }
  assert (∀ p, p ∈ (pending_confirms (confirms (st w))).*2 → promises (st w) !! p = Some None) as Hun.
  { intros p Hp. apply (ledger_unsettled L _ Hl), elem_of_app. by left. }
  set (s1 := on_link (set_connected false) (on_link (set_ready true)
               (on_link (set_error (default (last_error (link (st w))) message)) (st w)))).
  unfold mbind, comp_bind, gets, modify. cbn beta iota zeta.
  match goal with |- context [for_each ?l ?b ?v] =>
    change (for_each l b v) with (for_each (pending_confirms (confirms (st w))) b (with_members w s1)) end.
  rewrite (fail_loop_run _ (with_members w s1) Hnd Hun). cbn beta iota zeta.
  cbn [with_members st].
  rewrite (settle_promises_ext false _ s1 (st w)) by done. done.
Qed.
End settling.

(** ** Every operation keeps the ledger *)

Section ledger_ops.
Context `{Externals} {U : Type} `{AmqpLib U} `{!BusLink U AmqpState} (h : host U AmqpState).
Implicit Types w : world U AmqpState.

(** The bus may use the adapter while it handles a delivery, with the adapter's
    operations: they keep the ledger, and so does it. *)
Definition link_keeps (I : AmqpState → Prop) : Prop :=
  ∀ name fmt i bytes, keeps I (deliver_payload (U := U) h name fmt i bytes).

Context (Hlink : ∀ L, link_keeps (ledger L)).

Lemma keeps_link_field L f :
  (∀ l, declared_by (f l) = declared_by l) → (∀ l, error_seen l = true → error_seen (f l) = true) → keeps (ledger L) (modify (on_link f) : comp U AmqpState ()).
Proof.
  intros Hf He. apply keeps_modify. intros s Hs. eapply ledger_members; [exact Hs|done..|apply Hf|done|done|apply He].
Qed.

Lemma keeps_io_field L f :
  (∀ i, task_queue (f i) = task_queue i) → keeps (ledger L) (modify (on_io f) : comp U AmqpState ()).
Proof. intros Hf. apply keeps_modify. intros s Hs. eapply ledger_members; [exact Hs|done|apply Hf|done..]. Qed.

(** Setting a promise that is not an unsettled acknowledgement. *)
Lemma goes_set_value L p v w :
  ledger L (st w) → p ∉ acks L (st w) → goes (ledger L) (set_value p v) w.
Proof.
  intros Hl Hp. apply post_bind, post_gets. destruct (promises (st w) !! p) as [[q|]|] eqn:Hl'.
  - by right.
  - apply goes_modify, ledger_promise_set; [done|by eexists|done].
  - left. by eexists.
Qed.

Lemma keeps_set_other L t p v :
  other_refs t = [p] → ack_refs t = [] → keeps (ledger (t :: L)) (set_value (U := U) p v).
Proof.
  intros Ht Ha w Hl. apply goes_set_value; [done|].
  pose proof (ledger_other _ _ _ _ Hl Ht) as Hp. unfold acks in *. simpl. by rewrite Ha.
Qed.

Lemma keeps_wake L : keeps (ledger L) (wake (U := U)).
Proof. apply keeps_gets. intros w Hw. destruct (_ <? _)%Z; [by apply keeps_ret|by apply keeps_lib_void]. Qed.

(** The task leaves [L] for the queue. *)
Lemma goes_post L t w : ledger (t :: L) (st w) → goes (ledger L) (Amqp.post t) w.
Proof.
  intros Hl. eapply (goes_bind (ledger L)); [apply goes_modify, (ledger_queued t L _ Hl)| |done].
  intros [] w'. apply keeps_wake.
Qed.

Lemma goes_new_promise w :
  Resources.post new_promise (λ o w', o = Ret (promise_count (st w)) ∧ st w' = promised (st w)) w.
Proof. done. Qed.

Lemma keeps_resolve L tag m ok : keeps (ledger L) (resolve_confirm (U := U) tag m ok).
Proof.
  intros w Hl. unfold goes, Resources.post. rewrite (resolve_confirm_run L) by done. right. simpl.
  apply ledger_settle_all; [done| |].
  - intros e He. by eapply elem_of_submseteq, sublist_submseteq, filter_sublist.
  - eapply sublist_NoDup; [apply keys_NoDup, Hl|]. apply sublist_fmap, filter_sublist.
Qed.

Lemma ledger_errored L message s : ledger L s → ledger L (errored message s).
Proof.
  intros Hl. set (pend := pending_confirms (confirms s)).
  assert (ledger L (settle_all false pend s)) as Hl'.
  { apply ledger_settle_all; [done|done|]. apply keys_NoDup, Hl. }
  destruct (settle_all_frame false pend s) as (Hio & Hln & _ & _ & Hn & _).
  eapply ledger_shrink; [exact Hl'| | |done|done|by rewrite Hn|constructor|done].
  - unfold acks. rewrite Hio. simpl. by apply submseteq_inserts_l.
  - unfold others. by rewrite Hio, Hln.
Qed.

Lemma keeps_onError L message : keeps (ledger L) (onError (U := U) message).
Proof.
  intros w Hl. unfold goes, Resources.post. rewrite (onError_run L) by done. right. simpl.
  by apply ledger_errored.
Qed.

Lemma keeps_declare_failed L m f : keeps (ledger L) (declare_failed (U := U) m f).
Proof.
  apply keeps_gets. intros w Hl. destruct (declared_by (link (st w))) as [p|] eqn:Hp; [|by apply keeps_ret].
  apply goes_set_value; [done|]. apply (ledger_separate L _ Hl). unfold others. rewrite Hp. by left.
Qed.

Lemma keeps_the_channel L : keeps (ledger L) (the_channel (U := U)).
Proof. apply keeps_gets. intros w Hl. destruct (channel _); [by apply keeps_ret|by apply keeps_lift]. Qed.

Lemma keeps_handle_event L e : keeps (ledger L) (handle_event h e).
Proof.
  destruct e as [fd fl| | |m| | |c|m|m|name|m| |m| |m|body tag|tag mu|tag mu]; simpl;
    try apply keeps_declare_failed; try apply keeps_resolve; try by apply keeps_link_field.
  - by apply keeps_io_field.
  - apply keeps_onError.
  - destruct c; [apply keeps_lib_void|apply keeps_ret].
  - apply keeps_bind; [by apply keeps_link_field|]. intros _.
    apply keeps_bind; [apply keeps_the_channel|]. intros ch. apply keeps_gets. intros w Hl. by apply keeps_lib.
  - apply keeps_bind; [apply keeps_the_channel|]. intros ch. apply keeps_gets. intros w Hl. by apply keeps_lib.
  - apply keeps_gets. intros w Hl. eapply (goes_bind (ledger L)); [|intros _ w1 Hw1|done].
    + destruct (channel _); [by apply keeps_lib|by apply keeps_ret].
    + apply post_bind. by apply Hlink.
Qed.

Lemma keeps_with_events {A} L (f : U → outcome A * list amqp_event * U) : keeps (ledger L) (with_events h f).
Proof.
  apply keeps_bind; [apply keeps_lib_c|]. intros r.
  apply keeps_bind; [apply keeps_for_each; intros e; apply keeps_handle_event|]. intros _. apply keeps_lift.
Qed.

Lemma keeps_monitor L m : keeps (ledger L) (monitor (U := U) m).
Proof. by apply keeps_io_field. Qed.

Lemma keeps_reset_connection L c : keeps (ledger L) (reset_connection (U := U) c).
Proof.
  apply keeps_gets. intros w Hl. apply (goes_bind (ledger L)); [|intros _|done].
  - by apply keeps_link_field.
  - destruct (connection (link (st w))); [|apply keeps_ret].
    apply keeps_bind; [apply keeps_lib_c|]. intros ms. apply keeps_for_each. intros m. apply keeps_monitor.
Qed.

Lemma keeps_reset_channel L c : keeps (ledger L) (reset_channel (U := U) c).
Proof. apply keeps_reset_member. intros s Hs. by eapply ledger_members. Qed.

Lemma keeps_reset_io_thread L t : keeps (ledger L) (reset_io_thread (U := U) t).
Proof. apply keeps_reset_member. intros s Hs. by eapply ledger_members. Qed.

Lemma keeps_make_connection L url : keeps (ledger L) (make_connection (U := U) url).
Proof.
  apply keeps_bind; [apply keeps_lib_c|]. intros r.
  apply keeps_bind; [apply keeps_for_each; intros m; apply keeps_monitor|]. intros _. apply keeps_lift.
Qed.

Lemma keeps_exit_loop L : keeps (ledger L) (exit_loop (U := U)).
Proof. by apply keeps_io_field. Qed.

(** ** The tasks and the IO thread *)

Lemma keeps_run_connect L p : keeps (ledger (TaskConnect p :: L)) (run_connect h p).
Proof.
  unfold run_connect. keeps_rules; try by apply keeps_set_other.
  - apply keeps_make_connection.
  - apply keeps_reset_connection.
  - apply keeps_reset_channel.
  - apply keeps_modify. intros s. apply ledger_declared.
  - apply keeps_with_events.
  - apply keeps_with_events.
  - apply keeps_with_events.
Qed.

Lemma keeps_run_close L p : keeps (ledger (TaskClose p :: L)) (run_close h p).
Proof.
  unfold run_close. keeps_rules; try by apply keeps_set_other.
  - apply keeps_with_events.
  - apply keeps_with_events.
Qed.

(** From a publication's promise among the running ones to the ledger without. *)
Lemma goes_publish_refused L tag (ok : bool) w :
  ledger L (st w) →
  goes (ledger L)
    (if ok then mret ()
     else match find_confirm tag (pending_confirms (confirms (st w))) with
          | Some q =>
              set_value q (VBool false);;
              modify (on_confirms (λ c, set_pending (erase_confirm tag (pending_confirms c)) c))
          | None => mret ()
          end) w.
Proof.
  intros Hl. destruct ok; [by right|]. destruct (find_confirm tag _) as [q|] eqn:Hf; [|by right].
  apply find_confirm_elem in Hf. pose proof (settle_step_run L false (tag, q) w Hl Hf) as Hrun.
  unfold settle_step in Hrun. simpl in Hrun. unfold goes, Resources.post. rewrite Hrun. right. simpl.
  by apply ledger_settle.
Qed.

Lemma ledger_set_next L n s : ledger L s → ledger L (on_confirms (set_next_tag n) s).
Proof. intros Hl. by eapply ledger_members. Qed.

Lemma goes_run_publish L b c p w :
  ledger (TaskPublish b c p :: L) (st w) → goes (ledger L) (run_publish h b c p) w.
Proof.
  intros Hl. apply post_bind, post_gets. destruct (channel (link (st w))) as [ch|].
  2:{ destruct p as [p|]; [|right; by eapply ledger_drop].
      destruct (ledger_running L b c p _ Hl) as [Hp Hna].
      apply goes_set_value; [by eapply ledger_drop|done]. }
  apply post_catch_all. eapply (goes_mono (ledger L)).
  2:{ intros [a|e|u] w' [[v [=]]|Hw']; [by right|by right|by left; eexists|by right]. }
  apply post_bind, post_gets, post_bind, post_gets, post_bind, post_modify.
  set (w1 := World _ _ _ _ _).
  assert (ledger (TaskPublish b c p :: L) (st w1)) as Hl1 by by apply ledger_set_next.
  clearbody w1. eapply (goes_bind (ledger L)); [|intros [] w2 Hl2|done].
  { destruct p as [p|]; [|right; by eapply ledger_drop]. apply goes_modify. by eapply ledger_emplace. }
  eapply (goes_bind (ledger L)); [by apply keeps_with_events|intros ok w3 Hl3|done].
  apply post_bind, post_gets. destruct p as [p|]; [|by right]. by apply goes_publish_refused.
Qed.

Lemma goes_run_task L t w : ledger (t :: L) (st w) → goes (ledger L) (run_task h t) w.
Proof.
  intros Hl. destruct t as [p|b c p|p|p]; simpl.
  - eapply goes_mono; [by apply keeps_run_connect|]. intros o w' [|]; [by left|right; by eapply ledger_drop].
  - by apply goes_run_publish.
  - eapply (goes_mono (ledger (TaskFlush p :: L))); [by apply keeps_set_other|].
    intros o w' [|]; [by left|right; by eapply ledger_drop].
  - eapply goes_mono; [by apply keeps_run_close|]. intros o w' [|]; [by left|right; by eapply ledger_drop].
Qed.

Lemma goes_run_tasks L ts w : ledger (ts ++ L) (st w) → goes (ledger L) (run_tasks h ts) w.
Proof.
  revert w. induction ts as [|t ts IH]; intros w Hl; [by right|].
  eapply (goes_bind (ledger (ts ++ L))); [|intros [] w' Hl'; by apply IH|].
  - apply post_catch_all. eapply goes_mono; [by apply goes_run_task|].
    intros [a|e|u] w' [[v [=]]|Hw']; [by right|by right|by left; eexists|by right].
  - intros s. apply ledger_drops.
Qed.

Lemma keeps_drain_tasks L : keeps (ledger L) (drain_tasks h).
Proof.
  apply keeps_gets. intros w Hl. apply post_bind, post_modify. apply goes_run_tasks, ledger_take, Hl.
Qed.

Lemma keeps_io_turn L b1 b2 : keeps (ledger L) (io_turn h b1 b2).
Proof.
  unfold io_turn, drain_wakeup_pipe.
  keeps_rules; try apply keeps_exit_loop; [apply keeps_drain_tasks|apply keeps_with_events].
Qed.

Lemma keeps_io_turns L ts : keeps (ledger L) (io_turns h ts).
Proof. unfold io_turns. keeps_rules. apply keeps_io_turn. Qed.

(** ** The transport's operations *)

Lemma keeps_start_io_thread L : keeps (ledger L) (start_io_thread (U := U)).
Proof. unfold start_io_thread. keeps_rules; [apply keeps_reset_io_thread|by apply keeps_io_field]. Qed.

(** A new promise that is local, and a task that refers to it. *)
Lemma goes_with_promise L (mk : positive → task) (k : positive → comp U AmqpState ()) w :
  (∀ p, ack_refs (mk p) = [] ∧ other_refs (mk p) = [p]) → ledger L (st w) →
  (∀ p, keeps (ledger (mk p :: L)) (k p)) →
  goes (ledger L) (p ← new_promise; Amqp.post (mk p);; k p) w.
Proof.
  intros Hmk Hl Hk. apply post_bind. eapply post_mono; [apply goes_new_promise|].
  intros o w1 [-> Hs1]. destruct (Hmk (promise_count (st w))) as [Ha Ho].
  eapply (goes_mono (ledger (mk (promise_count (st w)) :: L))).
  - eapply goes_bind; [apply goes_post, ledger_dup; [|done]|intros []; apply Hk|done].
    rewrite Hs1. by apply ledger_new_other.
  - intros o w2 [|Hl2]; [by left|right; by eapply ledger_drop].
Qed.

Lemma keeps_forget L t p :
  other_refs t = [p] → ack_refs t = [] → keeps (ledger (t :: L)) (forget (U := U) p).
Proof.
  intros Ht Ha. apply keeps_modify. intros s Hs. apply ledger_forget; [done|].
  pose proof (ledger_other _ _ _ _ Hs Ht) as Hp. unfold acks in *. simpl. by rewrite Ha.
Qed.

Lemma keeps_connect_and_declare L ts : keeps (ledger L) (connect_and_declare h ts).
Proof.
  intros w Hl. apply (goes_with_promise L TaskConnect); [done|done|]. intros p.
  keeps_rules. apply keeps_io_turns.
Qed.

Lemma keeps_flush L ts : keeps (ledger L) (flush h ts).
Proof.
  intros w Hl. apply (goes_with_promise L TaskFlush); [done|done|]. intros p.
  keeps_rules; [apply keeps_io_turns|by apply keeps_forget].
Qed.

Lemma keeps_shutdown L sc : keeps (ledger L) (shutdown h sc).
Proof.
  apply keeps_noexcept, keeps_gets. intros w Hl. destruct (io_thread (io (st w))) as [t|].
  - apply (goes_with_promise L TaskClose); [done|done|]. intros p.
    keeps_rules; try apply keeps_io_turns; try apply keeps_wake.
    + apply keeps_exit_loop.
    + apply keeps_join.
    + apply keeps_reset_io_thread.
    + apply keeps_reset_channel.
    + apply keeps_reset_connection.
    + by apply keeps_forget.
  - revert w Hl. change (keeps (ledger L) (reset_connection (U := U) None;; reset_channel None)).
    keeps_rules; [apply keeps_reset_connection|apply keeps_reset_channel].
Qed.

Lemma keeps_set_impl L f : keeps (ledger L) (modify (λ s, set_impl (f s) s) : comp U AmqpState ()).
Proof. apply keeps_modify. intros s Hs. by eapply ledger_members. Qed.

Lemma keeps_attach L ts sc reg sink : keeps (ledger L) (attach_with_sink h ts sc reg sink).
Proof.
  unfold attach_with_sink. keeps_rules; [apply keeps_set_impl|apply keeps_start_io_thread|].
  apply keeps_on_unwind; [apply keeps_connect_and_declare|apply keeps_shutdown].
Qed.

Lemma keeps_detach L sc : keeps (ledger L) (detach h sc).
Proof. unfold detach. keeps_rules; [apply keeps_shutdown|apply keeps_set_impl]. Qed.

Lemma keeps_dispatch L ts v : keeps (ledger L) (dispatch h ts v).
Proof.
  unfold dispatch. keeps_step; [apply keeps_get|]. destruct (connection a); [|apply keeps_ret].
  keeps_step; [apply keeps_get|]. keeps_step; [by intros w Hl; right|].
  keeps_step; [unfold requires_ack; keeps_rules; by intros w Hl; right|].
  keeps_step; [apply keeps_get|]. intros w Hl. destruct (_ && _).
  - apply post_bind. eapply post_mono; [apply goes_new_promise|]. intros o w1 [-> Hs1].
    eapply (goes_bind (ledger L)); [|intros []; apply keeps_io_turns|done].
    apply goes_post. rewrite Hs1. by apply ledger_new_ack.
  - by apply goes_post, ledger_add.
Qed.

Lemma keeps_destroy L sc : keeps (ledger L) (destroy h sc).
Proof. unfold destroy, close_fd. keeps_rules. apply keeps_shutdown. Qed.
End ledger_ops.
End ledger.
