(* ===== verification/AmqpProps.v ===== *)
(** * Properties of the AMQP adapter

    The ledger of confirms over all runs, the acknowledgements of the broker, the
    connection's errors, the publication task and the order of publications, the
    outcomes of attaching, and a task that outlives the promise it refers to. *)

From Stdlib Require Import Sorting.Sorted.
From S2P Require Import Prelude Exceptions External Flags Instances Envelope EnvelopeWire Serialization SerializationProps.
From S2P Require Import World WorldLogic WorldSafety Hosts Bus Transport Adapter Amqp Resources AdapterProps AmqpLedger.

(** ** Runs *)

Section runs.
Context `{Externals} {U : Type} `{AmqpLib U} `{!BusLink U AmqpState} (h : host U AmqpState).
Implicit Types w : world U AmqpState.

Inductive amqp_call :=
  | CAttach (waiting : list (bool * bool)) (sc : schedule) (reg : obj) (sink : InboundSink)
  | CDispatch (waiting : list (bool * bool)) (v : EventEnvelope)
  | CFlush (waiting : list (bool * bool))
  | CDetach (sc : schedule)
  | CDestroy (sc : schedule)
  | CTurn (stop_at_head stop_after_tasks : bool).

Definition amqp_run (c : amqp_call) : comp U AmqpState () :=
  match c with
  | CAttach ts sc reg sink => attach_with_sink h ts sc reg sink
  | CDispatch ts v => dispatch h ts v
  | CFlush ts => flush h ts
  | CDetach sc => detach h sc
  | CDestroy sc => destroy h sc
  | CTurn b1 b2 => io_turn h b1 b2
  end.

(** An operation whose exception its caller catches, or an iteration of the IO
    thread while nobody waits. *)
Inductive amqp_step : world U AmqpState → world U AmqpState → Prop :=
  | AmqpStep c w o w' tr : amqp_run c w = (o, w', tr) → ¬ is_undef o → amqp_step w w'.

Lemma amqp_run_keeps err c L :
  (∀ L, link_keeps h (ledger err L)) → keeps (ledger err L) (amqp_run c).
Proof.
  intros Hlink. destruct c; simpl.
  - by apply keeps_attach.
  - by apply keeps_dispatch.
  - by apply keeps_flush.
  - by apply keeps_detach.
  - by apply keeps_destroy.
  - by apply keeps_io_turn.
Qed.

Lemma keeps_run {A} I (m : comp U AmqpState A) w o w' tr :
  keeps I m → I (st w) → m w = (o, w', tr) → ¬ is_undef o → I (st w').
Proof.
  intros Hm Hw Hrun Hdef. specialize (Hm w Hw). unfold goes, Resources.post in Hm. rewrite Hrun in Hm.
  by destruct Hm.
Qed.

Lemma new_ledger cfg i fds b : ledger false [] (MkAmqp cfg i (MkIo fds (-1) 0 None false []) no_link (MkConfirms b 1 []) ∅ 1).
Proof.
  constructor; unfold acks, others; simpl; try by intros p ?%not_elem_of_nil.
  - constructor.
  - intros p [Hp%not_elem_of_nil|[v Hv]]; [done|by rewrite lookup_empty in Hv].
  - constructor.
  - done.
Qed.
End runs.

(** ** Computations that do not throw *)

Section calm.
Context `{Externals} {U : Type} `{AmqpLib U} `{!BusLink U AmqpState} (h : host U AmqpState).
Implicit Types w : world U AmqpState.

Definition calm {A} (m : comp U AmqpState A) : Prop := ∀ w e, (m w).1.1 ≠ Throw e.

Lemma calm_bind {A B} (m : comp U AmqpState A) (f : A → comp U AmqpState B) :
  calm m → (∀ a, calm (f a)) → calm (m ≫= f).
Proof.
  intros Hm Hf w e. unfold mbind, comp_bind. specialize (Hm w). destruct (m w) as [[[a|x|u] w1] tr1]; simpl.
  - specialize (Hf a w1 e). by destruct (f a w1) as [[? ?] ?].
  - intros [= ->]. by apply (Hm e).
  - done.
Qed.

Lemma calm_for_each {A} (l : list A) body : (∀ x, calm (body x)) → calm (for_each (U := U) l body).
Proof. intros Hb. induction l as [|x l IH]; [done|]. by apply calm_bind. Qed.

Lemma calm_catch_all {A} (m : comp U AmqpState A) k : (∀ e, calm (k e)) → calm (catch_all m k).
Proof.
  intros Hk w e. unfold catch_all. destruct (m w) as [[[a|x|u] w1] tr1]; simpl; [done| |done].
  specialize (Hk x w1 e). by destruct (k x w1) as [[? ?] ?].
Qed.

Lemma calm_noexcept {A} (m : comp U AmqpState A) : calm (noexcept m).
Proof. intros w e. unfold noexcept. by destruct (m w) as [[[a|x|u] w1] tr1]. Qed.

Lemma calm_lib_c {A} (f : U → A * U) : calm (lib_c (S := AmqpState) f).
Proof. intros w e. unfold lib_c, lib. by destruct (f (user w)). Qed.

Lemma calm_io_turns ts : calm (io_turns h ts).
Proof.
  assert (calm exit_loop) as Hexit by done.
  apply calm_for_each. intros t. apply calm_bind; [done|]. intros i. destruct (io_running i); [|done].
  unfold io_turn. destruct t.1; [done|].
  apply calm_bind.
  { apply calm_bind; [done|]. intros i'. apply calm_bind; [done|]. intros _.
    apply calm_for_each. intros x. by apply calm_catch_all. }
  intros _. destruct t.2; [done|]. apply calm_bind; [done|]. intros i'.
  apply calm_bind; [apply calm_lib_c|]. intros [[]| |wk rv]; [done..|].
  apply calm_bind.
  { destruct (negb _); [|done]. apply calm_bind; [done|]. intros i''. apply calm_lib_c. }
  intros _. apply calm_bind; [done|]. intros s. destruct (connection s); [|done].
  destruct (_ && _); [|done]. by apply calm_catch_all.
Qed.

Lemma calm_post t : calm (Amqp.post t).
Proof.
  apply calm_bind; [done|]. intros _. apply calm_bind; [done|]. intros i.
  destruct (_ <? _)%Z; [done|]. apply calm_lib_c.
Qed.

(** ** Shutting down *)

(** Nothing of the library's is owned. *)
Definition closed_down (s : AmqpState) : Prop :=
  io_thread (io s) = None ∧ channel (link s) = None ∧ connection (link s) = None.

Lemma goes_reset_connection J w :
  J (on_link (set_connection None) (st w)) → (∀ s fd fl, J s → J (on_io (set_fd fd fl) s)) →
  goes J (reset_connection (U := U) None) w.
Proof.
  intros HJ Hfd. apply post_bind, post_gets, post_bind, post_modify.
  destruct (connection (link (st w))) as [c|]; [|by right].
  apply post_bind, post_lib_c. cbn beta iota. apply (keeps_for_each J); [|done].
  intros m. apply keeps_modify. intros s. apply Hfd.
Qed.

Lemma goes_then {A B} (I J : AmqpState → Prop) (m : comp U AmqpState A) (f : A → comp U AmqpState B) w :
  calm m → goes I m w → (∀ a w', I (st w') → goes J (f a) w') → goes J (m ≫= f) w.
Proof.
  intros Hm Hg Hf. apply post_bind. unfold goes, Resources.post in *. specialize (Hm w).
  destruct (m w) as [[[a|x|u] w1] tr1]; simpl in *; [|by destruct (Hm x)|left; by eexists].
  destruct Hg as [[v [=]]|Hg]. by apply Hf.
Qed.

Lemma goes_after {A B} J (m : comp U AmqpState A) (f : A → comp U AmqpState B) w :
  calm m → (∀ a w', goes J (f a) w') → goes J (m ≫= f) w.
Proof. intros Hm Hf. apply (goes_then (λ _, True)); [done|by right|]. auto. Qed.

(** A member that is assigned, and what was there destroyed. *)
Lemma goes_reset_member J get set (del : positive → U → U) p w :
  J (set p (st w)) → goes J (reset_member get set del p) w.
Proof.
  intros HJ. apply post_bind, post_gets, post_bind, post_modify.
  destruct (get (st w)); [by apply keeps_lib_void|by right].
Qed.

Lemma calm_join_quietly `{!ThreadLib U} t : calm (join_quietly t).
Proof. by apply calm_catch_all. Qed.

Lemma calm_lib_void (f : U → U) : calm (lib_void (S := AmqpState) f).
Proof. apply calm_lib_c. Qed.

Lemma calm_wake : calm (wake (U := U)).
Proof. apply calm_bind; [done|]. intros i. destruct (_ <? _)%Z; [done|]. apply calm_lib_c. Qed.

Lemma calm_reset_member get set (del : positive → U → U) p : calm (reset_member (S := AmqpState) get set del p).
Proof.
  apply calm_bind; [done|]. intros o. apply calm_bind; [done|]. intros _.
  destruct o; [apply calm_lib_c|done].
Qed.

Lemma calm_reset_connection c : calm (reset_connection (U := U) c).
Proof.
  apply calm_bind; [done|]. intros l. apply calm_bind; [done|]. intros _.
  destruct (connection l); [|done]. apply calm_bind; [apply calm_lib_c|]. intros ms. by apply calm_for_each.
Qed.

(** The end of [shutdown]. *)
Lemma goes_reset_all p w :
  goes closed_down (reset_io_thread None;; reset_channel None;; reset_connection None;; forget p) w.
Proof.
  apply (goes_then (λ s, io_thread (io s) = None)); [apply calm_reset_member|by apply goes_reset_member|].
  intros _ w1 Ht. apply (goes_then (λ s, io_thread (io s) = None ∧ channel (link s) = None));
    [apply calm_reset_member|by apply goes_reset_member|].
  intros _ w2 [Ht2 Hc2]. apply (goes_then closed_down); [apply calm_reset_connection| |].
  { apply goes_reset_connection; [done|]. by intros s fd fl (? & ? & ?). }
  intros _ w3 Hd. by apply goes_modify.
Qed.

Lemma shutdown_goes sc w : Resources.post (shutdown h sc) (λ o w', is_undef o ∨ o = Ret () ∧ closed_down (st w')) w.
Proof.
  unfold shutdown. apply post_noexcept, post_bind, post_gets.
  assert (∀ m : comp U AmqpState (), goes closed_down m w →
    Resources.post m (λ o w', match o with
      | Throw _ => is_undef (Undef (A := ()) Terminate) ∨ Undef Terminate = Ret () ∧ closed_down (st w')
      | _ => is_undef o ∨ o = Ret () ∧ closed_down (st w') end) w) as Hend.
  { intros m Hm. eapply goes_mono; [exact Hm|].
    intros [[]|e|u] w' Hw'; [|left; by eexists|left; by eexists].
    destruct Hw' as [[u [=]]|Hw']. by right. }
  apply Hend. clear Hend. destruct (io_thread (io (st w))) as [t|] eqn:Ht.
  - apply goes_after; [done|]. intros p w1. apply goes_after; [apply calm_post|]. intros _ w2.
    apply goes_after; [apply calm_io_turns|]. intros _ w3. apply goes_after; [apply calm_lib_void|]. intros _ w4.
    apply goes_after; [apply calm_wake|]. intros _ w5. apply goes_after; [apply calm_io_turns|]. intros _ w6.
    apply goes_after; [done|]. intros _ w7. apply goes_after; [apply calm_join_quietly|]. intros _ w8.
    apply goes_reset_all.
  - apply (goes_then (λ s, io_thread (io s) = None ∧ connection (link s) = None)); [apply calm_reset_connection| |].
    + apply goes_reset_connection; [done|]. by intros s fd fl [? ?].
    + intros _ w1 [Ht1 Hc1]. by apply goes_reset_member.
Qed.

(** ** Attaching *)

(** What [connect_and_declare] tests before it returns: its promise [p] was told the
    empty string, and the connection has never reported an error.  What stands behind
    the empty string is in [AmqpAttach.v]. *)
Definition told_ready (p : positive) (s : AmqpState) : Prop :=
  error_seen (link s) = false ∧ promises s !! p = Some (Some (VString "")).

Lemma connect_goes ts w :
  Resources.post (connect_and_declare h ts)
    (λ o w', is_undef o ∨ (o = Ret () ∧ told_ready (promise_count (st w)) (st w')) ∨
       (∃ m, o = Throw (attach_error m))) w.
Proof.
  unfold connect_and_declare. apply post_bind. eapply post_mono; [apply goes_new_promise|].
  intros o w1 [-> _]. set (p := promise_count (st w)). clearbody p.
  apply post_bind. unfold Resources.post at 1. pose proof (calm_post (TaskConnect p) w1) as Hc.
  destruct (Amqp.post (TaskConnect p) w1) as [[[[]|e|u] w2] tr2]; simpl in *;
    [|by destruct (Hc e)|left; by eexists].
  apply post_bind. unfold Resources.post at 1. pose proof (calm_io_turns ts w2) as Hc2.
  destruct (io_turns h ts w2) as [[[[]|e|u] w3] tr3]; simpl in *;
    [|by destruct (Hc2 e)|left; by eexists].
  apply post_bind, post_gets. destruct (promises (st w3) !! p) as [[[s|b|]|]|] eqn:Hp;
    try (apply post_lift; right; right; by eexists).
  destruct (String.eqb_spec s "") as [->|Hne]; simpl; [|apply post_lift; right; right; by eexists].
  apply post_bind, post_gets. destruct (error_seen (link (st w3))) eqn:He.
  - apply post_lift. right. right. by eexists.
  - apply post_ret. right. left. by split_and!.
Qed.

Lemma attach_cases ts sc reg sink w :
  Resources.post (attach_with_sink h ts sc reg sink)
    (λ o w', is_undef o ∨ (o = Ret () ∧ told_ready (promise_count (st w)) (st w')) ∨
       (∃ e u', thread_new "conduit:amqp-io" (user w) = (Throw e, u') ∧ o = Throw e) ∨
       (∃ m, o = Throw (attach_error m) ∧ closed_down (st w'))) w.
Proof.
  apply post_bind, post_modify, post_bind, post_bind, post_lib. cbn [user].
  destruct (thread_new "conduit:amqp-io" (user w)) as [[t|e|x] u']; simpl.
  2:{ right. right. left. by eexists _, _. }
  2:{ left. by eexists. }
  apply post_bind, post_bind, post_gets, post_bind, post_modify.
  match goal with |- Resources.post ?m ?Q ?w1 =>
    assert (∀ u, Q (Ret ()) (World (heap w1) (locked w1) (reads w1) u (st w1))) as Hgo end.
  2:{ destruct (io_thread _); [apply post_lib_void, Hgo|apply post_ret, (Hgo u')]. }
  intros u. apply post_modify, post_catch_all. eapply post_mono; [apply connect_goes|].
  intros o3 w3 [[x ->]|[[-> Hd]|[m ->]]]; [left; by eexists|right; by left|].
  apply post_bind. eapply post_mono; [apply shutdown_goes|].
  intros o4 w4 [[x ->]|[-> Hd]]; [left; by eexists|]. apply post_lift. right. right. right. by exists m.
Qed.

(** ** Posting and waiting *)

Lemma wake_run w : ∃ u, wake w = (Ret (), World (heap w) (locked w) (reads w) u (st w), []).
Proof.
  unfold wake. rewrite run_gets. destruct (_ <? _)%Z; [exists (user w); by destruct w|by eexists].
Qed.

Lemma run_post {B} t (k : () → comp U AmqpState B) w :
  (Amqp.post t ≫= k) w = (wake ≫= k) (with_members w (on_io (queued t) (st w))).
Proof.
  unfold Amqp.post. unfold mbind at 1, comp_bind at 1. rewrite run_modify. done.
Qed.

Lemma run_new_promise {B} (k : positive → comp U AmqpState B) w :
  (new_promise ≫= k) w = k (promise_count (st w)) (with_members w (promised (st w))).
Proof.
  unfold mbind at 1, comp_bind at 1. change (new_promise w)
    with (Ret (promise_count (st w)), with_members w (promised (st w)), @nil event). cbn beta iota.
  by destruct (k _ _) as [[? ?] ?].
Qed.

Lemma run_payload {B} fmt v (k : list Z → comp U AmqpState B) w :
  (payload_bytes fmt v ≫= k) w =
  match encode_payload fmt (heap w) v with
  | Ret b => k b w
  | Throw e => (Throw e, w, [])
  | Undef x => (Undef x, w, [])
  end.
Proof.
  unfold mbind, comp_bind. change (payload_bytes fmt v w) with (encode_payload fmt (heap w) v, w, @nil event).
  destruct (encode_payload fmt (heap w) v); [|done..]. by destruct (k _ w) as [[? ?] ?].
Qed.

Lemma run_requires_ack {B} v c (k : bool → comp U AmqpState B) w :
  core_of (heap w) v = Ret c → (requires_ack v ≫= k) w = k (contains flags.RequireAck c) w.
Proof.
  intros Hc. unfold requires_ack, mbind, comp_bind, read_core. rewrite Hc. simpl.
  by destruct (k _ w) as [[? ?] ?].
Qed.

(** While the IO thread does not run, waiting does nothing. *)
Lemma io_turns_idle ts w : io_running (io (st w)) = false → io_turns h ts w = (Ret (), w, []).
Proof.
  intros Hr. unfold io_turns. induction ts as [|t ts IH]; [done|]. simpl for_each.
  unfold mbind at 1, comp_bind at 1. rewrite run_gets, Hr.
  change ((mret () : comp U AmqpState ()) w) with (@Ret () (), w, @nil event). cbn beta iota. by rewrite IH.
Qed.
End calm.

(** ** Lemmas on the publication task *)

Section publishing.
Context `{Externals} {U : Type} `{AmqpLib U} `{!BusLink U AmqpState} (h : host U AmqpState).
Implicit Types w : world U AmqpState.

Lemma find_emplace t p m : find_confirm t m = None → find_confirm t (emplace t p m) = Some p.
Proof.
  induction m as [|[k q] m IH]; simpl; [by rewrite Z.eqb_refl|].
  destruct (Z.eqb_spec k t) as [|Hne]; [done|]. intros Hf.
  destruct (Z.ltb_spec k t); simpl; [by rewrite (proj2 (Z.eqb_neq k t)), IH|].
  destruct (Z.ltb_spec t k); simpl; [by rewrite Z.eqb_refl|lia].
Qed.

Lemma erase_emplace t p m : find_confirm t m = None → erase_confirm t (emplace t p m) = m.
Proof.
  assert (∀ m, find_confirm t m = None → erase_confirm t m = m) as Herase.
  { clear m. induction m as [|[k q] m IH]; simpl; [done|].
    destruct (Z.eqb_spec k t) as [|Hne]; [done|]. simpl. intros Hf. by rewrite IH. }
  induction m as [|[k q] m IH]; intros Hf; simpl; [by rewrite Z.eqb_refl|].
  pose proof Hf as Hf0. simpl in Hf. destruct (Z.eqb_spec k t) as [|Hne]; [done|].
  destruct (Z.ltb_spec k t); simpl.
  - rewrite (proj2 (Z.eqb_neq k t)) by done. simpl. by rewrite IH.
  - destruct (Z.ltb_spec t k); [|lia]. simpl. rewrite Z.eqb_refl, (proj2 (Z.eqb_neq k t)) by done. simpl.
    f_equal. by apply Herase.
Qed.

(** The members once the tag is taken, and the promise is in the map. *)
Definition tagged (s : AmqpState) : AmqpState :=
  on_confirms (set_next_tag (u64_add (next_delivery_tag (confirms s)) 1)) s.
Definition awaited (p : option positive) (s : AmqpState) : AmqpState :=
  match p with
  | Some p => on_confirms (λ c, set_pending (emplace (next_delivery_tag (confirms s)) p (pending_confirms c)) c) (tagged s)
  | None => tagged s
  end.

(** The task, from the library's answer on. *)
Definition after_publish (tag : Z) (p : option positive) (ok : bool) : comp U AmqpState () :=
  pend ← gets (λ s, pending_confirms (confirms s));
  match p with
  | Some _ =>
      if (ok : bool) then mret ()
      else match find_confirm tag pend with
           | Some q =>
               set_value q (VBool false);;
               modify (on_confirms (λ c, set_pending (erase_confirm tag (pending_confirms c)) c))
           | None => mret ()
           end
  | None => mret ()
  end.

Lemma run_publish_unfold b ct p ch w :
  channel (link (st w)) = Some ch →
  run_publish h b ct p w =
  catch_all
    (with_events h (channel_publish ch (exchange (config (st w))) (routing_key (config (st w)))
                      (make_message (config (st w)) b ct)) ≫=
       after_publish (next_delivery_tag (confirms (st w))) p)
    (λ _, mret ()) (with_members w (awaited p (st w))).
Proof.
  intros Hc. unfold run_publish. rewrite run_gets, Hc. apply catch_all_eq.
  rewrite run_gets, run_gets, run_modify.
  destruct p as [p|]; [by rewrite run_modify|by rewrite run_ret].
Qed.
End publishing.

(** ** Deliveries keep what the bus and the environment keep *)

Section deliveries.
Context `{Externals} {U : Type} `{!BusLink U AmqpState} (h : host U AmqpState) (I : AmqpState → Prop).
Context (Hhost : ∀ c (w : world U AmqpState), I (st w) → I (st (r_world (World.run h c w))))
  (Hbus : ∀ v, keeps I (deliver_to_bus v))
  (Hregistry : ∀ r, keeps I (deref_registry (U := U) r))
  (Hreport : ∀ n e, keeps I (link_report (U := U) n e)).

Lemma keeps_call_fn c : keeps I (call_fn h c).
Proof.
  apply keeps_bind; [|intros r; destruct r.1; [apply keeps_ret|apply keeps_lift]].
  intros w Hw. right. by apply Hhost.
Qed.

Lemma keeps_call_void c : keeps I (call_void h c).
Proof. apply keeps_bind; [apply keeps_call_fn|]. intros b. apply keeps_ret. Qed.

Lemma keeps_run_sink s v : keeps I (run_sink h s v).
Proof.
  revert s. fix IH 1. intros [|f|p s]; simpl; [apply Hbus|apply keeps_call_void|].
  assert (keeps I (match s with Some s => run_sink h s v | None => mret () end)) as Hs.
  { destruct s as [s|]; [apply IH|apply keeps_ret]. }
  destruct p as [p|]; [|exact Hs]. apply keeps_bind.
  - apply keeps_catch_all; [apply keeps_call_fn|]. intros e. apply keeps_ret.
  - intros b. destruct b; [exact Hs|apply keeps_ret].
Qed.

Lemma deliver_payload_keeps : link_keeps h I.
Proof.
  intros name fmt i bytes. unfold deliver_payload, receive, deliver_inbound.
  keeps_rules; try apply Hregistry; try apply Hreport; try apply keeps_run_sink; by intros w Hw; right.
Qed.
End deliveries.

(** ** Callbacks of the connection that reach neither the bus nor the library *)

Section confirm_events.
Context `{Externals} {U : Type} `{AmqpLib U} `{!BusLink U AmqpState} (h : host U AmqpState).
Implicit Types w : world U AmqpState.

Definition confirm_event (e : amqp_event) : Prop :=
  match e with
  | EvAck _ _ | EvNack _ _ | EvError _ | EvReady | EvConnected | EvClosed | EvLost | EvMonitor _ _ => True
  | _ => False
  end.

(** The members that such callbacks leave alone. *)
Definition same_setup (s s' : AmqpState) : Prop :=
  config s' = config s ∧ channel (link s') = channel (link s) ∧ task_queue (io s') = task_queue (io s).

Lemma confirm_event_run err L e w :
  confirm_event e → ledger err L (st w) →
  ∃ s', handle_event h e w = (Ret (), with_members w s', []) ∧ same_setup (st w) s' ∧ ledger err L s'.
Proof.
  intros He Hl.
  assert (∀ f, handle_event h e w = modify f w → same_setup (st w) (f (st w)) →
    keeps (ledger err L) (handle_event h e) →
    ∃ s', handle_event h e w = (Ret (), with_members w s', []) ∧ same_setup (st w) s' ∧ ledger err L s') as Hmod.
  { intros f Hrun Hsame Hk. exists (f (st w)). split; [by rewrite Hrun|]. split; [done|].
    specialize (Hk w Hl). unfold goes, Resources.post in Hk. rewrite Hrun in Hk.
    destruct Hk as [[u [=]]|Hk]. exact Hk. }
  destruct e as [fd fl| | |m| | |c|m|m|name|m| |m| |m|body tag|tag mu|tag mu]; try done; simpl.
  - eapply Hmod; [done|done|by apply keeps_io_field].
  - eapply Hmod; [done|done|by apply keeps_link_field].
  - eapply Hmod; [done|done|by apply keeps_link_field].
  - exists (errored m (st w)). split; [by eapply onError_run|]. split; [done|by apply ledger_errored].
  - eapply Hmod; [done|done|by apply keeps_link_field].
  - eapply Hmod; [done|done|by apply keeps_link_field].
  - eexists. split; [by eapply resolve_confirm_run|]. pose proof (keeps_resolve err L tag mu true w Hl) as Hk.
    unfold goes, Resources.post in Hk. erewrite resolve_confirm_run in Hk by done.
    destruct Hk as [[u [=]]|Hk]. split; [|exact Hk].
    destruct (settle_all_frame true (List.filter (settles tag mu) (pending_confirms (confirms (st w)))) (st w))
      as (Hio & Hln & Hcf & _). unfold same_setup. by rewrite Hio, Hln, Hcf.
  - eexists. split; [by eapply resolve_confirm_run|]. pose proof (keeps_resolve err L tag mu false w Hl) as Hk.
    unfold goes, Resources.post in Hk. erewrite resolve_confirm_run in Hk by done.
    destruct Hk as [[u [=]]|Hk]. split; [|exact Hk].
    destruct (settle_all_frame false (List.filter (settles tag mu) (pending_confirms (confirms (st w)))) (st w))
      as (Hio & Hln & Hcf & _). unfold same_setup. by rewrite Hio, Hln, Hcf.
Qed.

Lemma confirm_events_run err L es w :
  Forall confirm_event es → ledger err L (st w) →
  ∃ s', for_each es (handle_event h) w = (Ret (), with_members w s', []) ∧
        same_setup (st w) s' ∧ ledger err L s'.
Proof.
  intros Hes. revert w. induction Hes as [|e es He _ IH]; intros w Hl.
  - exists (st w). by destruct w.
  - destruct (confirm_event_run err L e w He Hl) as (s1 & Hrun1 & (Hc1 & Hch1 & Hq1) & Hl1).
    destruct (IH (with_members w s1) Hl1) as (s2 & Hrun2 & (Hc2 & Hch2 & Hq2) & Hl2).
    exists s2. simpl for_each. unfold mbind, comp_bind. rewrite Hrun1, Hrun2. split; [done|].
    split; [|done]. unfold same_setup. simpl in *. split_and!; congruence.
Qed.
End confirm_events.

(** ** The order of publications *)

Section order.
Context `{Externals} {U : Type} `{AmqpLib U} `{!BusLink U AmqpState} (h : host U AmqpState).
Implicit Types w : world U AmqpState.

(** [sent u]: the messages that the library has been given.  A publication adds its
    message, whether it is then accepted, refused or fails, and while it runs the
    library acknowledges at most, or reports that the connection is gone. *)
Context (sent : U → list amqp_message).
Hypothesis Hsent : ∀ ch ex rk m u,
  sent (channel_publish ch ex rk m u).2 = sent u ++ [m] ∧
  ¬ is_undef (channel_publish ch ex rk m u).1.1 ∧
  Forall confirm_event (channel_publish ch ex rk m u).1.2.

Definition publication (c : Config) (t : task) : list amqp_message :=
  match t with TaskPublish b ct _ => [make_message c b ct] | _ => [] end.

Definition is_publication (t : task) : Prop :=
  match t with TaskPublish _ _ _ => True | _ => False end.

(** The world after a library call that is followed by updates of the members. *)
Definition with_user w (u : U) (s : AmqpState) : world U AmqpState :=
  World (heap w) (locked w) (reads w) u s.

Lemma after_publish_run err L tag p ok w :
  ledger err L (st w) →
  ∃ s', after_publish tag p ok w = (Ret (), with_members w s', []) ∧ same_setup (st w) s' ∧ ledger err L s'.
Proof.
  intros Hl. unfold after_publish. rewrite run_gets.
  assert (∃ s', (mret () : comp U AmqpState ()) w = (Ret (), with_members w s', []) ∧
    same_setup (st w) s' ∧ ledger err L s') as Hnone.
  { exists (st w). by destruct w. }
  destruct p as [p|]; [|exact Hnone]. destruct ok; [exact Hnone|].
  destruct (find_confirm tag _) as [q|] eqn:Hf; [|exact Hnone].
  apply find_confirm_elem in Hf. exists (settle false (st w) (tag, q)).
  split; [by apply (settle_step_run err L false (tag, q))|]. split; [done|by apply ledger_settle].
Qed.

Lemma awaited_ledger err L b ct p s :
  ledger err (TaskPublish b ct p :: L) s → ledger err L (awaited p s).
Proof.
  intros Hl. apply (ledger_set_next err _ (u64_add (next_delivery_tag (confirms s)) 1)) in Hl.
  destruct p as [p|]; [by apply (ledger_emplace err L b ct p)|by eapply ledger_drop].
Qed.

Lemma run_publish_sends err L b ct p ch w :
  channel (link (st w)) = Some ch → ledger err (TaskPublish b ct p :: L) (st w) →
  ∃ u s', run_publish h b ct p w = (Ret (), with_user w u s', []) ∧
    sent u = sent (user w) ++ [make_message (config (st w)) b ct] ∧ same_setup (st w) s' ∧ ledger err L s'.
Proof.
  intros Hc Hl. rewrite (run_publish_unfold h b ct p ch w Hc).
  assert (same_setup (st w) (awaited p (st w))) as Hsame by by destruct p.
  apply awaited_ledger in Hl. set (w1 := with_members w (awaited p (st w))). change (ledger err L (st w1)) in Hl.
  destruct (Hsent ch (exchange (config (st w))) (routing_key (config (st w))) (make_message (config (st w)) b ct) (user w))
    as (Hs & Hdef & Hev).
  unfold with_events. set (msg := make_message _ _ _) in *.
  destruct (channel_publish ch _ _ msg (user w)) as [[o evs] u] eqn:Hpub. simpl in Hs, Hdef, Hev.
  destruct (confirm_events_run h err L evs (with_user w u (st w1)) Hev Hl) as (s2 & Hrun2 & Hsame2 & Hl2).
  assert (same_setup (st w) s2) as Hsame'.
  { destruct Hsame as (? & ? & ?), Hsame2 as (? & ? & ?). unfold same_setup. simpl in *. split_and!; congruence. }
  unfold catch_all. unfold mbind at 1, comp_bind at 1. unfold mbind at 1, comp_bind at 1.
  unfold lib_c at 1, lib at 1. cbn [user with_members w1]. rewrite Hpub. cbn beta iota zeta. cbn [fst snd].
  change (World _ _ _ u _) with (with_user w u (st w1)).
  unfold mbind at 1, comp_bind at 1. rewrite Hrun2. cbn beta iota zeta. unfold lift.
  destruct o as [ok|e|x]; [| |by destruct Hdef; eexists].
  - destruct (after_publish_run err L (next_delivery_tag (confirms (st w))) p ok
      (with_members (with_user w u (st w1)) s2) Hl2) as (s3 & Hrun3 & Hsame3 & Hl3).
    rewrite Hrun3. exists u, s3. split_and!; [done|done| |done].
    destruct Hsame' as (? & ? & ?), Hsame3 as (? & ? & ?). unfold same_setup. simpl in *. split_and!; congruence.
  - exists u, s2. by split_and!.
Qed.

Lemma run_tasks_sends err L ts ch w :
  channel (link (st w)) = Some ch → Forall is_publication ts → ledger err (ts ++ L) (st w) →
  ∃ u s', run_tasks h ts w = (Ret (), with_user w u s', []) ∧
    sent u = sent (user w) ++ (ts ≫= publication (config (st w))) ∧ same_setup (st w) s' ∧ ledger err L s'.
Proof.
  intros Hc Hts. revert w Hc. induction Hts as [|t ts Ht _ IH]; intros w Hc Hl.
  { exists (user w), (st w). simpl. rewrite app_nil_r. by destruct w. }
  destruct t as [|b ct p| |]; try done.
  destruct (run_publish_sends err (ts ++ L) b ct p ch w Hc Hl) as (u & s1 & Hrun1 & Hs1 & (Hcf1 & Hch1 & Hq1) & Hl1).
  destruct (IH (with_user w u s1)) as (u2 & s2 & Hrun2 & Hs2 & (Hcf2 & Hch2 & Hq2) & Hl2);
    [by simpl; rewrite Hch1|done|].
  exists u2, s2. simpl in *. split_and!; [| | |done].
  - unfold run_tasks in *. simpl for_each. unfold mbind, comp_bind. unfold catch_all at 1. simpl run_task.
    rewrite Hrun1, Hrun2. done.
  - by rewrite Hs2, Hs1, Hcf1, <- (assoc_L (++)).
  - unfold same_setup. split_and!; congruence.
Qed.
End order.

(** ** Theorems *)

Lemma filter_uncovered (f : Z * positive → bool) m :
  keys_sorted m →
  List.filter (λ e, negb (existsb (λ d, (d.1 =? e.1)%Z) (List.filter f m))) m = List.filter (λ e, negb (f e)) m.
Proof.
  intros Hs. apply List.filter_ext_in. intros [k p] Hin%list_elem_of_In. f_equal.
  destruct (f (k, p)) eqn:Hf.
  - apply existsb_exists. exists (k, p). split; [|by apply Z.eqb_refl].
    apply List.filter_In. split; [by apply list_elem_of_In|done].
  - destruct (existsb _ _) eqn:Hex; [|done].
    apply existsb_exists in Hex as ([j q] & [Hq%list_elem_of_In Hfq]%List.filter_In & Heq%Z.eqb_eq).
    simpl in Heq. subst j. rewrite (keys_sorted_functional m k p q) in Hf by done. congruence.
Qed.

Lemma exchange_type_valid e :
  negb (String.eqb e "topic") && negb (String.eqb e "direct") && negb (String.eqb e "fanout") &&
    negb (String.eqb e "headers") = false ↔ e ∈ k_valid_exchange_types.
Proof.
  unfold k_valid_exchange_types. rewrite !elem_of_cons, elem_of_nil.
  destruct (String.eqb_spec e "topic"), (String.eqb_spec e "direct"), (String.eqb_spec e "fanout"),
    (String.eqb_spec e "headers"); simpl; naive_solver.
Qed.

Section theorems.
Context `{Externals} {U : Type} `{AmqpLib U} `{!BusLink U AmqpState} (h : host U AmqpState).
Implicit Types w : world U AmqpState.

(** The configurations that the constructor accepts: a routing key, one of the
    four exchange types, and TLS only in a build that has it.  An accepted one gets
    a connection name and opens the wake-up pipe, whose failure is an AmqpError; a
    refused one raises before the pipe is opened. *)
Theorem amqp_construct_validates has_tls generated cfg reg (u : U) :
  let valid := routing_key cfg ≠ "" ∧ exchange_type cfg ∈ k_valid_exchange_types ∧
               (has_tls = true ∨ (tls cfg = None ∧ starts_with "amqps://" (url cfg) = false)) in
  (valid →
     (∃ s fds u', sys_pipe u = (Some fds, u') ∧ construct has_tls generated cfg reg u = (Ret s, u') ∧
        connection_name (config s) ≠ "" ∧ wakeup_pipe (io s) = fds ∧
        confirms_enabled (confirms s) = publisher_confirms cfg) ∨
     (∃ e u', sys_pipe u = (None, u') ∧ construct has_tls generated cfg reg u = (Throw e, u') ∧
        exn_type e = AmqpError)) ∧
  (¬ valid → ∃ e, construct has_tls generated cfg reg u = (Throw e, u) ∧
     (exn_type e = ConfigError ∨ exn_type e = TlsNotSupportedError)).
Proof.
  intros valid. unfold valid, construct, validate. clear valid.
  destruct (String.eqb_spec (routing_key cfg) "") as [Hr|Hr].
  { split; [by intros [? _]|]. intros _. eexists. split; [done|]. by left. }
  pose proof (exchange_type_valid (exchange_type cfg)) as Hex.
  destruct (negb _ && negb _ && negb _ && negb _).
  { split; [intros (_ & Hin & _); by apply Hex in Hin|]. intros _. eexists. split; [done|]. by left. }
  set (cfg' := if String.eqb (connection_name cfg) "" then _ else cfg).
  assert (connection_name cfg' ≠ "" ∧ tls cfg' = tls cfg ∧ url cfg' = url cfg ∧
          publisher_confirms cfg' = publisher_confirms cfg) as (Hn & -> & -> & Hpc).
  { unfold cfg'. by destruct (String.eqb_spec (connection_name cfg) ""). }
  assert (negb has_tls && (bool_decide (is_Some (tls cfg)) || starts_with "amqps://" (url cfg)) = false ↔
          has_tls = true ∨ tls cfg = None ∧ starts_with "amqps://" (url cfg) = false) as Htls.
  { destruct has_tls; simpl; [by split; [left|]|]. destruct (tls cfg); simpl.
    - split; [done|by intros [[=]|[[=] _]]].
    - destruct (starts_with _ _); split; [done|by intros [[=]|[_ [=]]]|by right|done]. }
  destruct (negb has_tls && _).
  { split; [|intros _; eexists; split; [done|by right]]. intros (_ & _ & Hok). by apply Htls in Hok. }
  split; [|intros []; split_and!; [done|by apply Hex|by apply Htls]].
  intros _. destruct (sys_pipe u) as [[fds|] u'] eqn:Hp; [left|right].
  - eexists _, fds, u'. split; [done|]. split; [done|]. by split_and!.
  - eexists _, u'. by split_and!.
Qed.

(** C9: the ledger of publisher confirms.  Whatever the sequence of operations,
    callbacks and iterations of the IO thread since the construction, the pending
    confirms are in the order of their tags, every promise in them is distinct and
    still unsettled, none of them is also held by a queued publication, and none is
    a promise that something else settles: a waiting publisher is told one answer,
    once. *)
Theorem amqp_confirms_ledger has_tls generated cfg reg (u u' : U) s w w' :
  (∀ L, link_keeps h (ledger false L)) →
  construct has_tls generated cfg reg u = (Ret s, u') → st w = s →
  rtc (amqp_step h) w w' → ledger false [] (st w').
Proof.
  intros Hlink Hcons Hs Hrun.
  assert (ledger false [] (st w)) as Hl.
  { rewrite Hs. unfold construct in Hcons. destruct (validate has_tls generated cfg) as [c|e|x]; [|done..].
    destruct (sys_pipe u) as [[fds|] u1]; [|done]. injection Hcons as <- <-. apply new_ledger. }
  clear Hs. induction Hrun as [|w w1 w2 Hstep _ IH]; [done|]. apply IH.
  destruct Hstep as [c w o w1 tr Hc Hdef]. by eapply keeps_run; [apply amqp_run_keeps|..].
Qed.

(** C21: an acknowledgement settles exactly the confirms that it covers, the one with
    its tag or all up to it: each of their promises gets the broker's answer, they
    leave the map, and every other promise is as before. *)
Theorem amqp_ack_settles tag multiple ok w :
  ledger false [] (st w) →
  let covered := List.filter (settles tag multiple) (pending_confirms (confirms (st w))) in
  ∃ s', resolve_confirm tag multiple ok w = (Ret (), with_members w s', []) ∧
    pending_confirms (confirms s') =
      List.filter (λ e, negb (settles tag multiple e)) (pending_confirms (confirms (st w))) ∧
    (∀ p, promises s' !! p = if bool_decide (p ∈ covered.*2) then Some (Some (VBool ok)) else promises (st w) !! p) ∧
    (∀ p, p ∈ covered.*2 → promises (st w) !! p = Some None) ∧
    ledger false [] s'.
Proof.
  intros Hl covered. eexists. split; [by eapply resolve_confirm_run|]. split_and!.
  - rewrite settle_all_pending. apply filter_uncovered, (ledger_sorted _ _ _ Hl).
  - intros p. apply settle_all_promises.
  - intros p Hp. apply (ledger_unsettled _ _ _ Hl), elem_of_app. left.
    eapply elem_of_submseteq; [exact Hp|]. apply sublist_submseteq, sublist_fmap, filter_sublist.
  - pose proof (keeps_resolve false [] tag multiple ok w Hl) as Hk.
    unfold goes, Resources.post in Hk. erewrite resolve_confirm_run in Hk by done.
    by destruct Hk as [[x [=]]|Hk].
Qed.

(** C23: when the connection fails, nobody goes on waiting for it: every pending
    confirm is answered with [false] and the map is empty, the adapter counts as
    disconnected, and the error and its message are kept. *)
Theorem amqp_error_releases_waiters message w :
  ledger false [] (st w) →
  ∃ s', handle_event h (EvError message) w = (Ret (), with_members w s', []) ∧
    pending_confirms (confirms s') = [] ∧
    (∀ p, promises s' !! p = if bool_decide (p ∈ (pending_confirms (confirms (st w))).*2)
                             then Some (Some (VBool false)) else promises (st w) !! p) ∧
    link s' = MkLink (connection (link (st w))) (channel (link (st w))) (declared_by (link (st w)))
                (bound_queue (link (st w))) true false true (default (last_error (link (st w))) message) ∧
    ledger false [] s'.
Proof.
  intros Hl. exists (errored message (st w)). split; [by eapply onError_run|].
  split_and!; [done| |done|by apply ledger_errored].
  intros p. simpl. apply settle_all_promises.
Qed.

(** A publication on an open channel, by what the library answers at once: the
    message carries the payload, its content type, and delivery mode 2 when
    persistent.  A delivery tag is taken in every case, also when nothing was
    published; a refused publication answers its waiter with [false], but one that
    fails with an exception leaves its promise in the map, unanswered. *)
Theorem amqp_publish_task b ct p ch o (u' : U) w :
  channel (link (st w)) = Some ch →
  channel_publish ch (exchange (config (st w))) (routing_key (config (st w)))
    (make_message (config (st w)) b ct) (user w) = (o, [], u') →
  find_confirm (next_delivery_tag (confirms (st w))) (pending_confirms (confirms (st w))) = None →
  ledger false [TaskPublish b ct p] (st w) → ¬ is_undef o →
  ∃ s', run_publish h b ct p w = (Ret (), World (heap w) (locked w) (reads w) u' s', []) ∧
    next_delivery_tag (confirms s') = u64_add (next_delivery_tag (confirms (st w))) 1 ∧
    match p, o with
    | Some p, Ret false =>
        pending_confirms (confirms s') = pending_confirms (confirms (st w)) ∧
        promises s' = <[p := Some (VBool false)]> (promises (st w))
    | Some p, _ =>
        pending_confirms (confirms s') =
          emplace (next_delivery_tag (confirms (st w))) p (pending_confirms (confirms (st w))) ∧
        promises s' = promises (st w) ∧ promises s' !! p = Some None
    | None, _ =>
        pending_confirms (confirms s') = pending_confirms (confirms (st w)) ∧ promises s' = promises (st w)
    end.
Proof.
  intros Hc Hpub Hfresh Hl Hdef. rewrite (run_publish_unfold h b ct p ch w Hc).
  set (tag := next_delivery_tag (confirms (st w))) in *.
  unfold catch_all. unfold mbind at 1, comp_bind at 1. unfold with_events.
  unfold mbind at 1, comp_bind at 1. unfold lib_c at 1, lib at 1. cbn [user with_members].
  rewrite Hpub. cbn beta iota zeta. cbn [fst snd for_each]. rewrite run_ret. unfold lift.
  destruct o as [ok|e|x]; [| |by destruct Hdef; eexists].
  - unfold after_publish. rewrite run_gets. destruct p as [p|]; [|by eexists; split].
    destruct (ledger_running _ _ _ _ _ _ Hl) as [Hp _].
    destruct ok; [eexists; by split|]. cbn [st with_members].
    change (pending_confirms (confirms (awaited (Some p) (st w))))
      with (emplace tag p (pending_confirms (confirms (st w)))).
    cbn [st]. rewrite (find_emplace tag p _ Hfresh).
    unfold mbind at 1, comp_bind at 1. rewrite set_value_unset by exact Hp.
    eexists. split; [done|]. split; [done|]. split; [|done]. cbn. by apply erase_emplace.
  - destruct p as [p|]; [|by eexists; split].
    destruct (ledger_running _ _ _ _ _ _ Hl) as [Hp _]. eexists. by split.
Qed.

(** C15: publications reach the library in the order of their dispatches, each once:
    taking the queue hands every queued message over, whatever the library makes of
    each of them, refusals and exceptions included. *)
Theorem amqp_publishes_in_order (sent : U → list amqp_message) ch w :
  (∀ ch ex rk m u, sent (channel_publish ch ex rk m u).2 = sent u ++ [m] ∧
     ¬ is_undef (channel_publish ch ex rk m u).1.1 ∧
     Forall confirm_event (channel_publish ch ex rk m u).1.2) →
  channel (link (st w)) = Some ch → Forall is_publication (task_queue (io (st w))) →
  ledger false [] (st w) →
  ∃ w', drain_tasks h w = (Ret (), w', []) ∧ task_queue (io (st w')) = [] ∧
    sent (user w') = sent (user w) ++ (task_queue (io (st w)) ≫= publication (config (st w))) ∧
    ledger false [] (st w').
Proof.
  intros Hsent Hc Hq Hl. unfold drain_tasks. rewrite run_gets, run_modify.
  destruct (run_tasks_sends h sent Hsent false [] (task_queue (io (st w))) ch
    (with_members w (on_io (set_task_queue []) (st w)))) as (u & s' & Hrun & Hs & (_ & _ & Hq') & Hl');
    [done|done|by apply ledger_take|].
  exists (with_user (with_members w (on_io (set_task_queue []) (st w))) u s'). by split_and!.
Qed.

(** An error of the connection is for ever: the flag is never reset, so after one
    no attempt to attach the same adapter succeeds, however well the broker answers. *)
Theorem amqp_no_attach_after_error ts sc reg sink w L o w' tr :
  (∀ L, link_keeps h (ledger true L)) →
  ledger false L (st w) → error_seen (link (st w)) = true →
  attach_with_sink h ts sc reg sink w = (o, w', tr) → o ≠ Ret ().
Proof.
  intros Hlink Hl0 Hseen Hrun ->. assert (ledger true L (st w)) as Hl by (destruct Hl0; by constructor).
  assert (ledger true L (st w')) as Hl'.
  { eapply keeps_run; [by apply keeps_attach|exact Hl|exact Hrun|by intros [x [=]]]. }
  pose proof (attach_cases h ts sc reg sink w) as Hp. unfold Resources.post in Hp. rewrite Hrun in Hp.
  simpl in Hp. destruct Hp as [[x [=]]|[[_ [He _]]|[(e & u' & _ & [=])|(m & [=] & _)]]].
  by rewrite (ledger_error _ _ _ Hl' eq_refl) in He.
Qed.

(** Flushing an adapter whose IO thread is not running leaves a task that refers
    to a promise that is gone: attaching the adapter afterwards runs that task, which
    is undefined behaviour. *)
Theorem amqp_flush_dangles waiting b ts sc reg sink t w u' :
  task_queue (io (st w)) = [] → io_running (io (st w)) = false → io_thread (io (st w)) = None →
  thread_new "conduit:amqp-io" (user (world_after (flush h waiting) w)) = (Ret t, u') →
  ∃ tr w1, flush h waiting w = (Ret (), w1, tr) ∧
  ∃ tr' w2, attach_with_sink h ((false, b) :: ts) sc reg sink w1 = (Undef UseAfterFree, w2, tr').
Proof.
  intros Hq Hr Ht Hnew.
  assert (∃ u, flush h waiting w = (Ret (), World (heap w) (locked w) (reads w) u
    (on_promises (delete (promise_count (st w))) (on_io (queued (TaskFlush (promise_count (st w)))) (promised (st w)))), []))
    as [u Hflush].
  { unfold flush. rewrite run_new_promise, run_post.
    match goal with |- context [(mbind _ wake) ?v] => destruct (wake_run v) as [u Hu] end.
    exists u. unfold mbind at 1, comp_bind at 1. rewrite Hu. unfold mbind at 1, comp_bind at 1.
    by rewrite io_turns_idle by done. }
  unfold world_after in Hnew. rewrite Hflush in Hnew. simpl in Hnew.
  eexists [], _. split; [exact Hflush|]. set (w1 := World _ _ _ _ _).
  assert (Resources.post (attach_with_sink h ((false, b) :: ts) sc reg sink) (λ o _, o = Undef UseAfterFree) w1) as Hp.
  2:{ unfold Resources.post in Hp. destruct (attach_with_sink _ _ _ _ _ w1) as [[o w2] tr']. simpl in Hp. subst o. by eexists _, _. }
  apply post_bind, post_modify, post_bind, post_bind, post_lib. cbn [user w1]. rewrite Hnew.
  apply post_bind, post_bind, post_gets, post_bind, post_modify. simpl. rewrite Ht. apply post_ret, post_modify.
  set (w2 := World _ _ _ _ _).
  assert (task_queue (io (st w2)) = [TaskFlush (promise_count (st w))] ∧ io_running (io (st w2)) = true ∧
    promises (st w2) !! promise_count (st w) = None ∧ promise_count (st w2) = Pos.succ (promise_count (st w)))
    as (Hq2 & Hr2 & Hp2 & Hn2).
  { unfold w2. simpl. rewrite Hq. split_and!; [done|done|apply lookup_delete_eq|done]. }
  clearbody w2. apply post_catch_all.
  assert (∃ w4 tr4, connect_and_declare h ((false, b) :: ts) w2 = (Undef UseAfterFree, w4, tr4)) as (w4 & tr4 & Hrun).
  2:{ unfold Resources.post. by rewrite Hrun. }
  unfold connect_and_declare. rewrite run_new_promise, run_post.
  set (w3 := with_members _ _).
  destruct (wake_run w3) as [u3 Hu3]. unfold mbind at 1, comp_bind at 1. rewrite Hu3. cbn beta iota zeta.
  unfold mbind at 1, comp_bind at 1. unfold io_turns. simpl for_each.
  unfold mbind at 1, comp_bind at 1. rewrite run_gets. cbn [st w3 with_members io on_io queued set_task_queue promised io_running].
  rewrite Hr2. unfold io_turn, drain_tasks. unfold mbind at 1, comp_bind at 1. rewrite run_gets, run_modify.
  cbn [st w3 with_members io on_io queued set_task_queue promised task_queue]. rewrite Hq2. simpl run_tasks.
  unfold run_tasks. simpl for_each. unfold mbind at 1, comp_bind at 1. unfold catch_all at 1, set_value. simpl run_task.
  unfold set_value. rewrite run_gets. simpl. rewrite lookup_insert_ne by (rewrite Hn2; lia). rewrite Hp2. by eexists _, _.
Qed.

(** What a caller of [dispatch] gets: nothing at all from an adapter that was
    never connected, the encoder's exception, and otherwise one task in the queue,
    with a new promise when the event requires an acknowledgement and confirms are
    on; a negative acknowledgement, or none in time, is not an error. *)
Theorem amqp_dispatch_posts waiting v w :
  let dispatched (bytes : list Z) p := TaskPublish bytes (content_type_of (format (config (st w)))) p in
  (connection (link (st w)) = None → dispatch h waiting v w = (Ret (), w, [])) ∧
  (∀ c core, connection (link (st w)) = Some c → core_of (heap w) v = Ret core →
     let wanted := contains flags.RequireAck core && confirms_enabled (confirms (st w)) in
     match encode_payload (format (config (st w))) (heap w) v with
     | Throw e => dispatch h waiting v w = (Throw e, w, [])
     | Undef x => dispatch h waiting v w = (Undef x, w, [])
     | Ret bytes =>
         dispatch h waiting v w =
           (if wanted then
              (wake;; io_turns h waiting)
                (with_members w (on_io (queued (dispatched bytes (Some (promise_count (st w))))) (promised (st w))))
            else wake (with_members w (on_io (queued (dispatched bytes None)) (st w)))) ∧
         ∀ e, (dispatch h waiting v w).1.1 ≠ Throw e
     end).
Proof.
  intros dispatched. split.
  - intros Hc. unfold dispatch. rewrite run_gets, Hc. done.
  - intros c core Hc Hcore wanted. unfold dispatch. rewrite run_gets, Hc, run_gets, run_payload.
    destruct (encode_payload _ _ v) as [bytes|e|x]; [|done..].
    rewrite (run_requires_ack v core _ w Hcore), run_gets. unfold wanted. destruct (_ && _).
    + rewrite run_new_promise, run_post. split; [done|]. apply calm_bind; [apply calm_wake|].
      intros _. apply calm_io_turns.
    + split; [|apply calm_post]. unfold Amqp.post. by rewrite run_modify.
Qed.
End theorems.

(** ** Witnesses *)

(** A broker: the messages it was given, the objects it handed out, what it calls
    back at each turn of the connection, and whether it refuses publications. *)
Record broker := MkBroker {
  b_sent : list amqp_message;
  b_next : positive;
  b_events : list (list amqp_event);
  b_refuses : bool;
}.

Definition b_create (u : broker) : broker := MkBroker (b_sent u) (Pos.succ (b_next u)) (b_events u) (b_refuses u).
Definition b_publish (m : amqp_message) (u : broker) : broker :=
  MkBroker (b_sent u ++ [m]) (b_next u) (b_events u) (b_refuses u).

#[local] Instance toy_threads : ThreadLib broker := {|
  thread_new _ u := (Ret (b_next u), b_create u);
  thread_request_stop _ u := u;
  thread_joinable _ _ := true;
  thread_join _ u := (Ret (), u);
  thread_delete _ u := u;
|}.

#[local] Instance toy_amqp : AmqpLib broker := {|
  sys_pipe u := (Some (3, 4)%Z, u);
  sys_close _ u := u;
  sys_write_byte _ u := u;
  sys_drain _ u := u;
  sys_poll _ u := (PollReady 1 1, u);
  POLLIN := 1;
  POLLOUT := 4;
  POLLERR := 8;
  POLLHUP := 16;
  AMQP_readable := 1;
  AMQP_writable := 2;
  AMQP_durable := 1;
  AMQP_autodelete := 2;
  AMQP_exclusive := 4;
  connection_new _ u := (Ret (b_next u), [(5, 1)%Z], b_create u);
  connection_delete _ u := ([((-1), 0)%Z], u);
  connection_close _ u := (Ret (), [], u);
  connection_process _ _ _ u :=
    (Ret (), hd [] (b_events u), MkBroker (b_sent u) (b_next u) (tl (b_events u)) (b_refuses u));
  connection_heartbeat _ u := u;
  channel_new _ u := (Ret (b_next u), b_create u);
  channel_delete _ u := u;
  channel_close _ u := (Ret (), [], u);
  declare_exchange _ _ _ _ u := (Ret (), [], u);
  declare_queue _ _ _ u := (Ret (), [], u);
  bind_queue _ _ _ _ u := (Ret (), u);
  channel_consume _ _ u := (Ret (), u);
  confirm_select _ u := (Ret (), [], u);
  channel_ack _ _ u := (Ret (), u);
  channel_publish _ _ _ m u := (Ret (negb (b_refuses u)), [], b_publish m u);
|}.

#[local] Instance quiet_link : BusLink broker AmqpState := {|
  link_target := (λ _, mret ()) : InboundTarget broker AmqpState;
  deref_registry _ := mret new_EventRegistry;
  link_report _ _ := mret ();
|}.

Definition quiet_host : host broker AmqpState :=
  scripted (λ _, Ret true) (λ n, Z.of_nat n) (λ _, Remote) (λ _, 0%Z).

Lemma quiet_link_keeps I : link_keeps quiet_host I.
Proof.
  apply deliver_payload_keeps.
  - by intros c w.
  - intros v. apply keeps_ret.
  - intros r. apply keeps_ret.
  - intros n e. apply keeps_ret.
Qed.

Definition toy_config : Config :=
  MkConfig "amqp://localhost/" "node" None "conduit" "topic" true false "events" "" false true true
    false true 5 30 Json.

Lemma amqp_construct_validates_witness :
  (∃ s fds u', sys_pipe (MkBroker [] 1 [] false) = (Some fds, u') ∧
     construct false "01J" toy_config None (MkBroker [] 1 [] false) = (Ret s, u') ∧
     connection_name (config s) ≠ "" ∧ wakeup_pipe (io s) = fds ∧
     confirms_enabled (confirms s) = publisher_confirms toy_config) ∨
  (∃ e u', sys_pipe (MkBroker [] 1 [] false) = (None, u') ∧
     construct false "01J" toy_config None (MkBroker [] 1 [] false) = (Throw e, u') ∧ exn_type e = AmqpError).
Proof.
  apply (amqp_construct_validates false "01J" toy_config None (MkBroker [] 1 [] false)).
  split_and!; [done|by left|right; done].
Defined.

(** The members of a new adapter, and a broker that declares everything. *)
Definition new_adapter : AmqpState :=
  MkAmqp toy_config (new_Impl None) (MkIo (3, 4)%Z (-1) 0 None false []) no_link (MkConfirms true 1 []) ∅ 1.
Definition greeting : list (list amqp_event) :=
  [[EvConnected; EvReady; EvQueueDeclared "q1"; EvBound; EvConsuming]].
Definition new_world : world broker AmqpState :=
  World {[1%positive := sample_core]} false 0 (MkBroker [] 1 greeting false) new_adapter.

Definition idle_schedule : schedule := MkSchedule [(false, false)] [(true, false)].
Abbreviation attached_run := (attach_with_sink quiet_host [(false, false)] idle_schedule 1%positive SinkBus).
Abbreviation attached_world := (world_after attached_run new_world).

Lemma attached_world_run : attached_run new_world = (Ret (), attached_world, trace_of attached_run new_world).
Proof. apply completed_run. vm_compute. reflexivity. Qed.

Lemma amqp_confirms_ledger_witness : ledger false [] (st attached_world).
Proof.
  apply (amqp_confirms_ledger quiet_host false "01J" toy_config None (MkBroker [] 1 greeting false)
           (MkBroker [] 1 greeting false) new_adapter new_world attached_world).
  - intros L. apply quiet_link_keeps.
  - reflexivity.
  - reflexivity.
  - apply rtc_once. apply (AmqpStep quiet_host (CAttach [(false, false)] idle_schedule 1%positive SinkBus) _ _ _ _ attached_world_run).
    by intros [x [=]].
Defined.

(** Three publications wait for the broker, two more are queued. *)
Definition busy_adapter (queue : list task) : AmqpState :=
  MkAmqp toy_config (new_Impl None) (MkIo (3, 4)%Z 5 1 (Some 1%positive) true queue)
    (MkLink (Some 2%positive) (Some 3%positive) None "q1" true true false "")
    (MkConfirms true 4 [(1%Z, 1%positive); (2%Z, 2%positive); (3%Z, 3%positive)])
    (<[1%positive := None]> (<[2%positive := None]> (<[3%positive := None]> (<[4%positive := None]> ∅)))) 5.

Definition busy_world (queue : list task) : world broker AmqpState :=
  World {[1%positive := sample_core]} false 0 (MkBroker [] 4 [] false) (busy_adapter queue).

Definition two_publications : list task := [TaskPublish [1]%Z "a" (Some 4%positive); TaskPublish [2]%Z "b" None].

Lemma busy_ledger L queue :
  (L = [] ∧ (queue = [] ∨ queue = two_publications)) ∨
  (L = [TaskPublish [1]%Z "a" (Some 4%positive)] ∧ queue = []) →
  ledger false L (busy_adapter queue).
Proof.
  intros Hcase.
  assert (acks L (busy_adapter queue) ⊆+ [1; 2; 3; 4]%positive ∧ others L (busy_adapter queue) = []) as [Ha Ho].
  { destruct Hcase as [[-> [-> | ->]]|[-> ->]]; (split; [|reflexivity]).
    - change ([1; 2; 3]%positive ⊆+ [1; 2; 3]%positive ++ [4]%positive). by apply submseteq_inserts_r.
    - reflexivity.
    - reflexivity. }
  assert (∀ p, p ∈ acks L (busy_adapter queue) → p = 1 ∨ p = 2 ∨ p = 3 ∨ p = 4)%positive as Hin.
  { intros p Hp. eapply elem_of_submseteq in Hp; [|exact Ha]. set_solver. }
  constructor.
  - clear Hcase Ho Hin. apply submseteq_Permutation in Ha as [k Hk].
    assert (NoDup (acks L (busy_adapter queue) ++ k)) as Hnd by (rewrite <- Hk; by repeat constructor; set_solver).
    by apply NoDup_app in Hnd as [? _].
  - intros p Hp. destruct (Hin p Hp) as [-> | [-> | [-> | ->]]]; reflexivity.
  - intros p. rewrite Ho. by intros ?%not_elem_of_nil.
  - intros p. rewrite Ho. intros [?%not_elem_of_nil|[v Hv]]; [done|]. simpl in *.
    rewrite !lookup_insert_Some in Hv. naive_solver lia.
  - unfold keys_sorted. simpl. repeat constructor.
  - done.
Qed.

Lemma amqp_ack_settles_witness :
  ∃ s', resolve_confirm 2 true false (busy_world []) = (Ret (), with_members (busy_world []) s', []) ∧
    pending_confirms (confirms s') = [(3%Z, 3%positive)] ∧
    (∀ p, promises s' !! p = if bool_decide (p ∈ [1; 2]%positive) then Some (Some (VBool false))
                             else promises (st (busy_world [])) !! p) ∧
    (∀ p, p ∈ [1; 2]%positive → promises (st (busy_world [])) !! p = Some None) ∧
    ledger false [] s'.
Proof.
  apply (amqp_ack_settles 2 true false (busy_world [])). apply busy_ledger. left. split; [done|]. by left.
Defined.

Lemma amqp_error_releases_waiters_witness :
  ∃ s', handle_event quiet_host (EvError None) (busy_world []) = (Ret (), with_members (busy_world []) s', []) ∧
    pending_confirms (confirms s') = [] ∧
    (∀ p, promises s' !! p = if bool_decide (p ∈ [1; 2; 3]%positive) then Some (Some (VBool false))
                             else promises (st (busy_world [])) !! p) ∧
    link s' = MkLink (Some 2%positive) (Some 3%positive) None "q1" true false true "" ∧
    ledger false [] s'.
Proof.
  apply (amqp_error_releases_waiters quiet_host None (busy_world [])).
  apply busy_ledger. left. split; [done|]. by left.
Defined.

(** The broker refuses: the waiter is told, and the tag is gone. *)
Definition refused_world : world broker AmqpState :=
  World {[1%positive := sample_core]} false 0 (MkBroker [] 4 [] true) (busy_adapter []).

Lemma amqp_publish_task_witness :
  ∃ s', run_publish quiet_host [1]%Z "a" (Some 4%positive) refused_world =
          (Ret (), World (heap refused_world) false 0
             (MkBroker [MkMessage [1]%Z "a" None] 4 [] true) s', []) ∧
    next_delivery_tag (confirms s') = 5%Z ∧
    pending_confirms (confirms s') = [(1%Z, 1%positive); (2%Z, 2%positive); (3%Z, 3%positive)] ∧
    promises s' = <[4%positive := Some (VBool false)]> (promises (st refused_world)).
Proof.
  apply (amqp_publish_task quiet_host [1]%Z "a" (Some 4%positive) 3%positive (Ret false)
           (MkBroker [MkMessage [1]%Z "a" None] 4 [] true) refused_world).
  - reflexivity.
  - reflexivity.
  - reflexivity.
  - apply busy_ledger. by right.
  - by intros [x [=]].
Defined.

Lemma amqp_publishes_in_order_witness :
  ∃ w', drain_tasks quiet_host (busy_world two_publications) = (Ret (), w', []) ∧
    task_queue (io (st w')) = [] ∧
    b_sent (user w') = [MkMessage [1]%Z "a" None; MkMessage [2]%Z "b" None] ∧
    ledger false [] (st w').
Proof.
  apply (amqp_publishes_in_order quiet_host b_sent 3%positive (busy_world two_publications)).
  - intros ch ex rk m u. simpl. split_and!; [done|by intros [x [=]]|by constructor].
  - reflexivity.
  - by repeat constructor.
  - apply busy_ledger. left. split; [done|]. by right.
Defined.

(** An adapter whose connection once failed, and a broker that would accept. *)
Definition failed_world : world broker AmqpState :=
  World ∅ false 0 (MkBroker [] 1 greeting false) (errored (Some "gone"%string) new_adapter).

Abbreviation failed_run := (attached_run failed_world).

Lemma amqp_no_attach_after_error_witness :
  error_seen (link (st failed_world)) = true ∧ failed_run.1.1 ≠ Ret ().
Proof.
  split; [reflexivity|].
  apply (amqp_no_attach_after_error quiet_host [(false, false)] idle_schedule 1%positive SinkBus failed_world []
           failed_run.1.1 failed_run.1.2 failed_run.2).
  - intros L. apply quiet_link_keeps.
  - apply ledger_errored, new_ledger.
  - reflexivity.
  - by destruct failed_run as [[? ?] ?].
Defined.

Lemma amqp_flush_dangles_witness :
  ∃ tr w1, flush quiet_host [] new_world = (Ret (), w1, tr) ∧
  ∃ tr' w2, attach_with_sink quiet_host [(false, false)] idle_schedule 1%positive SinkBus w1 =
              (Undef UseAfterFree, w2, tr').
Proof.
  apply (amqp_flush_dangles quiet_host [] false [] idle_schedule 1%positive SinkBus 1%positive new_world
           (MkBroker [] 2 greeting false)); reflexivity.
Defined.

Lemma amqp_dispatch_posts_witness :
  dispatch quiet_host [] (envelope_at 1%positive) new_world = (Ret (), new_world, []).
Proof.
  apply (amqp_dispatch_posts quiet_host [] (envelope_at 1%positive) new_world). reflexivity.
Defined.
