(* ===== verification/AmqpAttach.v ===== *)
(** * What attaching the AMQP adapter establishes

    [AmqpProps.v] says when [attach_with_sink] of [transports/amqp/src/transport.cpp]
    returns: when its promise was told the empty string.  Here that is followed back to
    the requests that the adapter made: with a library that answers only what it was
    asked, the exchange and the queue were declared, the queue bound and consumed from,
    all as configured. *)

From S2P Require Import Prelude Exceptions External Flags Instances Envelope EnvelopeWire Serialization SerializationProps.
From S2P Require Import World WorldLogic WorldSafety Hosts Bus Transport Adapter Amqp Resources AdapterProps AmqpLedger AmqpProps.

(** ** Requests and answers *)

(** The declaring calls, with their channel and arguments. *)
Inductive request :=
  | ReqExchange (ch : positive) (name : string) (type : ExchangeType) (flags : Z)
  | ReqQueue (ch : positive) (name : string) (flags : Z)
  | ReqBind (ch : positive) (exchange queue key : string)
  | ReqConsume (ch : positive) (queue : string).

Definition is_queue (r : request) : bool := match r with ReqQueue _ _ _ => true | _ => false end.
Definition is_bind (r : request) : bool := match r with ReqBind _ _ _ _ => true | _ => false end.
Definition is_consume (r : request) : bool := match r with ReqConsume _ _ => true | _ => false end.

(** Callbacks, in order, that answer only what was asked: a queue declaration, a
    binding, a consumer.  The handlers of the callbacks ask in turn for a binding and for
    a consumer.  An error has a message, which is not empty, or none. *)
Fixpoint answered (q b k : bool) (evs : list amqp_event) : bool :=
  match evs with
  | [] => true
  | EvQueueDeclared _ :: evs => q && answered q true k evs
  | EvBound :: evs => b && answered q b true evs
  | EvConsuming :: evs => k && answered q b k evs
  | (EvChannelError m | EvExchangeError m | EvQueueError m | EvBindError m | EvConsumeError m) :: evs =>
      bool_decide (m ≠ Some ""%string) && answered q b k evs
  | _ :: evs => answered q b k evs
  end.

Definition answers (l : list request) (evs : list amqp_event) : bool :=
  answered (existsb is_queue l) (existsb is_bind l) (existsb is_consume l) evs.

(** A library that keeps a record of what it is asked, to which only these four calls
    add, and whose callbacks answer it. *)
Class AmqpRequests (U : Type) `{AmqpLib U} := {
  asked : U → list request;
  asked_thread_new n u : asked (thread_new n u).2 = asked u;
  asked_thread_delete t u : asked (thread_delete t u) = asked u;
  asked_write fd u : asked (sys_write_byte fd u) = asked u;
  asked_drain fd u : asked (sys_drain fd u) = asked u;
  asked_poll fds u : asked (sys_poll fds u).2 = asked u;
  asked_connection_new s u : asked (connection_new s u).2 = asked u;
  asked_connection_delete c u : asked (connection_delete c u).2 = asked u;
  asked_connection_close c u : asked (connection_close c u).2 = asked u;
  asked_process c fd fl u : asked (connection_process c fd fl u).2 = asked u;
  asked_heartbeat c u : asked (connection_heartbeat c u) = asked u;
  asked_channel_new c u : asked (channel_new c u).2 = asked u;
  asked_channel_delete ch u : asked (channel_delete ch u) = asked u;
  asked_channel_close ch u : asked (channel_close ch u).2 = asked u;
  asked_confirm ch u : asked (confirm_select ch u).2 = asked u;
  asked_ack ch t u : asked (channel_ack ch t u).2 = asked u;
  asked_publish ch e k m u : asked (channel_publish ch e k m u).2 = asked u;
  asked_exchange ch n t f u : asked (declare_exchange ch n t f u).2 = asked u ++ [ReqExchange ch n t f];
  asked_queue ch n f u : asked (declare_queue ch n f u).2 = asked u ++ [ReqQueue ch n f];
  asked_bind ch e q k u : asked (bind_queue ch e q k u).2 = asked u ++ [ReqBind ch e q k];
  asked_consume ch q u : asked (channel_consume ch q u).2 = asked u ++ [ReqConsume ch q];
  answers_connection_close c u : answers (asked u) (connection_close c u).1.2 = true;
  answers_process c fd fl u : answers (asked u) (connection_process c fd fl u).1.2 = true;
  answers_channel_close ch u : answers (asked u) (channel_close ch u).1.2 = true;
  answers_confirm ch u : answers (asked u) (confirm_select ch u).1.2 = true;
  answers_publish ch e k m u : answers (asked u) (channel_publish ch e k m u).1.2 = true;
  answers_exchange ch n t f u :
    answers (asked u ++ [ReqExchange ch n t f]) (declare_exchange ch n t f u).1.2 = true;
  answers_queue ch n f u :
    answers (asked u ++ [ReqQueue ch n f]) (declare_queue ch n f u).1.2 = true;
}.

(** ** What has been asked, as configured *)

Section asked.
Context {U : Type} `{AmqpLib U}.
Implicit Types l : list request.

Definition queue_asked (c : Config) l : Prop :=
  ∃ ch, ReqExchange ch (exchange c) (exchange_type_of c) (exchange_flags c) ∈ l ∧
        ReqQueue ch (queue c) (queue_flags c) ∈ l.
Definition bind_asked (c : Config) (q : string) l : Prop :=
  queue_asked c l ∧ ∃ ch, ReqBind ch (exchange c) q (routing_key c) ∈ l.
Definition consume_asked (c : Config) l : Prop :=
  ∃ q, bind_asked c q l ∧ ∃ ch, ReqConsume ch q ∈ l.

Lemma queue_asked_mono c l l' : l ⊆ l' → queue_asked c l → queue_asked c l'.
Proof. intros Hl (ch & ? & ?). exists ch. auto. Qed.
Lemma bind_asked_mono c q l l' : l ⊆ l' → bind_asked c q l → bind_asked c q l'.
Proof. intros Hl [Hq [ch ?]]. split; [by eapply queue_asked_mono|]. exists ch. auto. Qed.
Lemma consume_asked_mono c l l' : l ⊆ l' → consume_asked c l → consume_asked c l'.
Proof. intros Hl (q & Hb & ch & ?). exists q. split; [by eapply bind_asked_mono|]. exists ch. auto. Qed.

(** More of a record answers more. *)
Lemma answered_mono q b k q' b' k' evs :
  (q = true → q' = true) → (b = true → b' = true) → (k = true → k' = true) →
  answered q b k evs = true → answered q' b' k' evs = true.
Proof.
  revert q b k q' b' k'. induction evs as [|e evs IH]; intros q b k q' b' k' Hq Hb Hk; [done|].
  destruct e; simpl; rewrite ?andb_true_iff; try (by apply IH);
    intros [? ?]; (split; [by auto|]); by eapply IH; [..|done].
Qed.

Lemma existsb_mono (p : request → bool) l l' : l ⊆ l' → existsb p l = true → existsb p l' = true.
Proof.
  intros Hl. rewrite !existsb_exists. intros (r & Hr & Hp). exists r. split; [|done].
  by apply list_elem_of_In, Hl, list_elem_of_In.
Qed.

Lemma answers_mono l l' evs : l ⊆ l' → answers l evs = true → answers l' evs = true.
Proof. intros Hl. apply answered_mono; by apply existsb_mono. Qed.

Lemma existsb_elem (p : request → bool) l r : r ∈ l → p r = true → existsb p l = true.
Proof. intros Hr Hp. apply existsb_exists. exists r. split; [by apply list_elem_of_In|done]. Qed.
End asked.

(** ** The invariant *)

Section honest.
Context `{Externals} {U : Type} `{AmqpRequests U} `{!BusLink U AmqpState} (h : host U AmqpState).
Implicit Types w : world U AmqpState.

(** What has been asked implies what was asked before it, as configured; the consumer
    was asked for before any promise is told the empty string; and [R] was asked. *)
Record honest (c : Config) (R : list request) w : Prop := {
  ho_config : config (st w) = c;
  ho_past : R ⊆ asked (user w);
  ho_queue : existsb is_queue (asked (user w)) = true → queue_asked c (asked (user w));
  ho_bind : existsb is_bind (asked (user w)) = true → bind_asked c (bound_queue (link (st w))) (asked (user w));
  ho_consume : existsb is_consume (asked (user w)) = true → consume_asked c (asked (user w));
  ho_promise p : promises (st w) !! p = Some (Some (VString "")) → consume_asked c (asked (user w));
}.

(** Run from [w], [m] ends in a world with [I], or is undefined. *)
Definition ends {A} (I : world U AmqpState → Prop) (m : comp U AmqpState A) w : Prop :=
  Resources.post m (λ o w', is_undef o ∨ I w') w.
Definition upholds {A} (c : Config) (m : comp U AmqpState A) : Prop :=
  ∀ R w, honest c R w → ends (honest c R) m w.

Lemma ends_mono {A} I (Q : outcome A → world U AmqpState → Prop) (m : comp U AmqpState A) w :
  ends I m w → (∀ o w', is_undef o ∨ I w' → Q o w') → Resources.post m Q w.
Proof. unfold ends, Resources.post. auto. Qed.

Lemma outcomes_bind {A B} (I J : world U AmqpState → Prop) (m : comp U AmqpState A) (f : A → comp U AmqpState B) w :
  ends I m w → (∀ a w', I w' → ends J (f a) w') → (∀ w, I w → J w) → ends J (m ≫= f) w.
Proof.
  intros Hm Hf HIJ. apply post_bind. eapply ends_mono; [exact Hm|].
  intros [a|e|u] w' [[v [=]]|Hw']; [by apply Hf|right; by apply HIJ|by left; eexists|by left; eexists].
Qed.

Lemma upholds_bind {A B} c (m : comp U AmqpState A) (f : A → comp U AmqpState B) :
  upholds c m → (∀ a, upholds c (f a)) → upholds c (m ≫= f).
Proof. intros Hm Hf R w Hw. eapply outcomes_bind; [by apply Hm|intros a w'; apply Hf|done]. Qed.

Lemma upholds_ret {A} c (a : A) : upholds c (mret a : comp U AmqpState A).
Proof. intros R w Hw. by right. Qed.

Lemma upholds_lift {A} c (o : outcome A) : upholds c (lift o : comp U AmqpState A).
Proof. intros R w Hw. by right. Qed.

Lemma upholds_get {A} c (f : AmqpState → A) : upholds c (gets f : comp U AmqpState A).
Proof. intros R w Hw. by right. Qed.

Lemma upholds_catch_all {A} c (m : comp U AmqpState A) k :
  upholds c m → (∀ e, upholds c (k e)) → upholds c (catch_all m k).
Proof.
  intros Hm Hk R w Hw. apply post_catch_all. eapply ends_mono; [by apply Hm|].
  intros [a|e|u] w' [[v [=]]|Hw']; [by right|by apply Hk|by left; eexists|by right].
Qed.

Lemma upholds_for_each {A} c (l : list A) body :
  (∀ x, upholds c (body x)) → upholds c (for_each (U := U) l body).
Proof. intros Hb. induction l as [|x l IH]; [apply upholds_ret|]. by apply upholds_bind. Qed.

(** Only the members that the invariant reads matter. *)
Lemma honest_same c R w w' :
  honest c R w → asked (user w') = asked (user w) → config (st w') = config (st w) →
  bound_queue (link (st w')) = bound_queue (link (st w)) →
  (∀ p, promises (st w') !! p = Some (Some (VString "")) → promises (st w) !! p = Some (Some (VString ""))) →
  honest c R w'.
Proof. intros [Hc HR Hq Hb Hk Hp] Ha Hcf Hbq Hpr. split; rewrite ?Ha, ?Hcf, ?Hbq; eauto. Qed.

Lemma upholds_modify c f :
  (∀ s, config (f s) = config s ∧ bound_queue (link (f s)) = bound_queue (link s) ∧
        ∀ p, promises (f s) !! p = Some (Some (VString "")) → promises s !! p = Some (Some (VString ""))) →
  upholds c (modify f : comp U AmqpState ()).
Proof. intros Hf R w Hw. apply post_modify. right. destruct (Hf (st w)) as (? & ? & ?). by eapply honest_same. Qed.

Lemma upholds_lib {A} c (f : U → outcome A * U) : (∀ u, asked (f u).2 = asked u) → upholds c (lib f).
Proof.
  intros Hf R w Hw. apply post_lib. right. eapply honest_same; [exact Hw|simpl|done..].
  specialize (Hf (user w)). by destruct (f (user w)).
Qed.

Lemma upholds_lib_c {A} c (f : U → A * U) : (∀ u, asked (f u).2 = asked u) → upholds c (lib_c f).
Proof. intros Hf. apply upholds_lib. intros u. specialize (Hf u). by destruct (f u). Qed.

Lemma upholds_lib_void c (f : U → U) : (∀ u, asked (f u) = asked u) → upholds c (lib_void f).
Proof. intros Hf. by apply upholds_lib_c. Qed.

Lemma upholds_reset_member c get set (del : positive → U → U) p :
  (∀ s, config (set p s) = config s ∧ bound_queue (link (set p s)) = bound_queue (link s) ∧
        promises (set p s) = promises s) →
  (∀ x u, asked (del x u) = asked u) → upholds c (reset_member get set del p).
Proof.
  intros Hs Hd. apply upholds_bind; [apply upholds_get|]. intros old. apply upholds_bind.
  - apply upholds_modify. intros s. destruct (Hs s) as (-> & -> & ->). done.
  - intros []. destruct old; [by apply upholds_lib_void|apply upholds_ret].
Qed.

(** ** Callbacks *)

(** The bus may use the adapter while it handles a delivery. *)
Definition link_upholds (c : Config) : Prop :=
  ∀ name fmt i bytes, upholds c (deliver_payload (U := U) h name fmt i bytes).

Context (c : Config) (Hlink : link_upholds c).

(** A value that is not the empty string. *)
Lemma upholds_set_value p v : v ≠ VString "" → upholds c (set_value (U := U) p v).
Proof.
  intros Hv. apply upholds_bind; [apply upholds_get|]. intros s.
  destruct (s !! p) as [[q|]|]; [apply upholds_ret| |apply upholds_lift].
  apply upholds_modify. intros s'. split_and!; [done..|]. intros p'. simpl.
  rewrite lookup_insert_Some. intros [[_ ?]|[_ ?]]; [congruence|done].
Qed.

Lemma upholds_declare_failed m f : m ≠ Some ""%string → f ≠ ""%string → upholds c (declare_failed (U := U) m f).
Proof.
  intros Hm Hf. apply upholds_bind; [apply upholds_get|]. intros s.
  destruct (declared_by s) as [p|]; [|apply upholds_ret]. apply upholds_set_value.
  intros [=]. destruct m as [m|]; simpl in *; congruence.
Qed.

Lemma upholds_resolve tag m ok : upholds c (resolve_confirm (U := U) tag m ok).
Proof.
  assert (∀ f, upholds c (modify (on_confirms f) : comp U AmqpState ())) as Hf by (intros f; by apply upholds_modify).
  apply upholds_bind; [apply upholds_get|]. intros s. destruct m.
  - apply upholds_for_each. intros e. case_match; [|apply upholds_ret].
    apply upholds_bind; [by apply upholds_set_value|]. intros _. apply Hf.
  - destruct (find_confirm _ _); [|apply upholds_ret].
    apply upholds_bind; [by apply upholds_set_value|]. intros _. apply Hf.
Qed.

Lemma upholds_onError message : upholds c (onError (U := U) message).
Proof.
  unfold onError. repeat (apply upholds_bind; [|intros ?]); try apply upholds_get; try by apply upholds_modify.
  apply upholds_for_each. intros e. by apply upholds_set_value.
Qed.

Lemma upholds_the_channel : upholds c (the_channel (U := U)).
Proof. apply upholds_bind; [apply upholds_get|]. intros s. destruct (channel s); [apply upholds_ret|apply upholds_lift]. Qed.

(** Asking for something: the record grows, and what it implies is there. *)
Lemma honest_ask R w w' r :
  honest c R w → asked (user w') = asked (user w) ++ [r] → st w' = st w →
  (is_queue r = true → queue_asked c (asked (user w'))) →
  (is_bind r = true → bind_asked c (bound_queue (link (st w))) (asked (user w'))) →
  (is_consume r = true → consume_asked c (asked (user w'))) →
  honest c (r :: R) w'.
Proof.
  intros [Hc HR Hq Hb Hk Hp] Ha Hs Hrq Hrb Hrk.
  assert (asked (user w) ⊆ asked (user w')) as Hsub by (rewrite Ha; set_solver).
  assert (∀ p, existsb p (asked (user w')) = true → existsb p (asked (user w)) = true ∨ p r = true) as Hex.
  { intros p. rewrite Ha, existsb_app. simpl. rewrite orb_false_r, orb_true_iff. done. }
  split; rewrite ?Hs; [done| | | | |].
  - rewrite Ha. set_solver.
  - intros [?|?]%Hex; [eapply queue_asked_mono; [done|by apply Hq]|by apply Hrq].
  - intros [?|?]%Hex; [eapply bind_asked_mono; [done|by apply Hb]|by apply Hrb].
  - intros [?|?]%Hex; [eapply consume_asked_mono; [done|by apply Hk]|by apply Hrk].
  - intros p Hpp. eapply consume_asked_mono; [done|by eapply Hp].
Qed.

Lemma honest_forget R R' w : R ⊆ R' → honest c R' w → honest c R w.
Proof. intros HR [? ? ? ? ? ?]. split; try done. set_solver. Qed.

Lemma honest_now R w : honest c R w → honest c (asked (user w) ++ R) w.
Proof. intros [? ? ? ? ? ?]. split; try done. set_solver. Qed.

(** The callback that the queue is declared: it is bound, under its name. *)
Lemma queue_declared_ends R name w :
  honest c R w → existsb is_queue (asked (user w)) = true →
  ends (λ w', honest c R w' ∧ existsb is_bind (asked (user w')) = true) (handle_event h (EvQueueDeclared name)) w.
Proof.
  intros Hw Hq. apply post_bind, post_modify, post_bind, post_bind, post_gets. cbn [st link on_link].
  set (w1 := World _ _ _ _ _). change (channel (set_bound_queue name (link (st w)))) with (channel (link (st w))).
  destruct (channel (link (st w))) as [ch|]; [|apply post_lift; left; by eexists].
  apply post_ret, post_bind, post_gets, post_lib. right.
  pose proof (asked_bind ch (exchange (config (st w1))) name (routing_key (config (st w1))) (user w1)) as Ha.
  destruct (bind_queue _ _ _ _ (user w1)) as [o u]. simpl in Ha. simpl.
  rewrite (ho_config _ _ _ Hw) in Ha. destruct Hw as [Hc HR Hqa Hb Hk Hp].
  assert (asked (user w) ⊆ asked u) as Hsub by (rewrite Ha; set_solver).
  assert (bind_asked c name (asked u)) as Hbind.
  { split; [by eapply queue_asked_mono, Hqa|]. exists ch. rewrite Ha. apply elem_of_app. right. by left. }
  assert (∀ p, p (ReqBind ch (exchange c) name (routing_key c)) = false →
    existsb p (asked u) = true → existsb p (asked (user w)) = true) as Hex.
  { intros p Hpr. rewrite Ha, existsb_app. simpl. by rewrite Hpr, !orb_false_r. }
  split; [split; simpl; try done|].
  - by transitivity (asked (user w)).
  - intros _. by eapply queue_asked_mono, Hqa.
  - intros ?%Hex; [|done]. eapply consume_asked_mono; [done|by apply Hk].
  - intros p Hpp. eapply consume_asked_mono; [done|by eapply Hp].
  - rewrite Ha, existsb_app. simpl. by rewrite orb_true_r.
Qed.

(** The callback that it is bound: it is consumed from. *)
Lemma bound_ends R w :
  honest c R w → existsb is_bind (asked (user w)) = true →
  ends (λ w', honest c R w' ∧ existsb is_consume (asked (user w')) = true) (handle_event h EvBound) w.
Proof.
  intros Hw Hb. apply post_bind, post_bind, post_gets. destruct (channel (link (st w))) as [ch|]; [|apply post_lift; left; by eexists].
  apply post_ret, post_bind, post_gets, post_lib. right.
  pose proof (asked_consume ch (bound_queue (link (st w))) (user w)) as Ha.
  destruct (channel_consume _ _ (user w)) as [o u]. simpl in Ha. simpl.
  split; [|rewrite Ha, existsb_app; simpl; by rewrite orb_true_r].
  apply (honest_forget R (ReqConsume ch (bound_queue (link (st w))) :: R)); [set_solver|].
  apply (honest_ask R w (World _ _ _ u _) (ReqConsume ch (bound_queue (link (st w)))) Hw Ha); [done..|].
  intros _. simpl. exists (bound_queue (link (st w))). split.
  - eapply bind_asked_mono; [|by apply Hw]. rewrite Ha. set_solver.
  - exists ch. rewrite Ha. apply elem_of_app. right. by left.
Qed.

(** The callback that it is consumed from: the promise is told. *)
Lemma consuming_ends R w :
  honest c R w → existsb is_consume (asked (user w)) = true → ends (honest c R) (handle_event h EvConsuming) w.
Proof.
  intros Hw Hk. apply post_bind, post_gets. destruct (declared_by (link (st w))) as [p|]; [|by right].
  apply post_bind, post_gets. destruct (promises (st w) !! p) as [[v|]|]; [by right| |left; by eexists].
  apply post_modify. right. destruct Hw as [Hc HR Hqa Hb Hk' Hp]. split; try done. simpl.
  intros p'. rewrite lookup_insert_Some. intros [_|[_ ?]]; [by apply Hk'|by eapply Hp].
Qed.

(** The other callbacks. *)
Lemma other_event_upholds e :
  match e with
  | EvQueueDeclared _ | EvBound | EvConsuming => False
  | EvChannelError m | EvExchangeError m | EvQueueError m | EvBindError m | EvConsumeError m => m ≠ Some ""%string
  | _ => True
  end → upholds c (handle_event h e).
Proof.
  destruct e as [fd fl| | |m| | |hb|m|m|name|m| |m| |m|body tag|tag mu|tag mu]; simpl; intros He;
    try done; try (by apply upholds_declare_failed); try apply upholds_resolve; try by apply upholds_modify.
  - apply upholds_onError.
  - destruct hb; [apply upholds_lib_void; intros u; apply asked_heartbeat|apply upholds_ret].
  - apply upholds_bind; [apply upholds_get|]. intros s. apply upholds_bind.
    { destruct (channel s); [apply upholds_lib; intros u; apply asked_ack|apply upholds_ret]. }
    intros _. apply upholds_bind; [intros R w Hw; by right|]. intros s'. apply Hlink.
Qed.

(** A batch of callbacks that answer what was asked. *)
Lemma events_uphold R evs w :
  honest c R w → answers (asked (user w)) evs = true → ends (honest c R) (for_each evs (handle_event h)) w.
Proof.
  revert R w. induction evs as [|e evs IH]; intros R w Hw Hans; [by right|].
  (* what a callback is answered by was asked before it, and stays asked *)
  assert (∀ P : world U AmqpState → Prop,
    ends (λ w', honest c (asked (user w) ++ R) w' ∧ P w') (handle_event h e) w →
    (∀ w', asked (user w) ⊆ asked (user w') → P w' → answers (asked (user w')) evs = true) →
    ends (honest c R) (for_each (e :: evs) (handle_event h)) w) as Hgo.
  { intros P He Hrest. simpl. eapply outcomes_bind; [exact He| |].
    - intros [] w' [Hw' HP]. apply IH; [eapply honest_forget; [|exact Hw']; set_solver|].
      apply Hrest; [|done]. pose proof (ho_past _ _ _ Hw'). set_solver.
    - intros w' [Hw' _]. eapply honest_forget; [|exact Hw']. set_solver. }
  pose proof (honest_now R w Hw) as Hnow.
  assert (∀ m, upholds c m → ends (λ w', honest c (asked (user w) ++ R) w' ∧ True) (m : comp U AmqpState ()) w) as Hup.
  { intros m Hm. eapply ends_mono; [by apply Hm|]. intros o w' [|]; [by left|by right]. }
  unfold answers in Hans.
  destruct e as [fd fl| | |m| | |hb|m|m|name|m| |m| |m|body tag|tag mu|tag mu]; simpl in Hans;
    rewrite ?andb_true_iff, ?bool_decide_eq_true in Hans;
    try (apply (Hgo (λ _, True)); [by apply Hup, other_event_upholds|
           intros w' Hsub _; eapply answers_mono; [exact Hsub|exact Hans]]);
    try (destruct Hans as [Hm Hans]; apply (Hgo (λ _, True)); [by apply Hup, other_event_upholds|
           intros w' Hsub _; eapply answers_mono; [exact Hsub|exact Hans]]).
  - destruct Hans as [Hq Hans]. eapply Hgo; [by apply queue_declared_ends|].
    intros w' Hsub Hb. eapply answered_mono; [by apply existsb_mono| |by apply existsb_mono|exact Hans].
    intros _. exact Hb.
  - destruct Hans as [Hb Hans]. eapply Hgo; [by apply bound_ends|].
    intros w' Hsub Hk. eapply answered_mono; [by apply existsb_mono|by apply existsb_mono| |exact Hans].
    intros _. exact Hk.
  - destruct Hans as [Hk Hans]. apply (Hgo (λ _, True)).
    + eapply ends_mono; [by apply consuming_ends|]. intros o w' [|]; [by left|by right].
    + intros w' Hsub _. eapply answers_mono; [exact Hsub|exact Hans].
Qed.

(** A call that asks nothing, and the callbacks that it makes. *)
Lemma upholds_with_events {A} (f : U → outcome A * list amqp_event * U) :
  (∀ u, asked (f u).2 = asked u) → (∀ u, answers (asked u) (f u).1.2 = true) → upholds c (with_events h f).
Proof.
  intros Ha Hans R w Hw. unfold with_events. apply post_bind, post_lib_c.
  specialize (Ha (user w)). specialize (Hans (user w)).
  destruct (f (user w)) as [[o evs] u]. simpl in *.
  eapply outcomes_bind; [apply (events_uphold R)|intros [] w'; by apply upholds_lift|done].
  - eapply honest_same; [exact Hw|exact Ha|done..].
  - simpl. by rewrite Ha.
Qed.

(** The two calls that ask. *)
Lemma ask_with_events {A} (f : U → outcome A * list amqp_event * U) r R w :
  honest c R w → (∀ u, asked (f u).2 = asked u ++ [r]) → (∀ u, answers (asked u ++ [r]) (f u).1.2 = true) →
  is_bind r = false → is_consume r = false →
  (is_queue r = true → queue_asked c (asked (user w) ++ [r])) →
  ends (honest c (r :: R)) (with_events h f) w.
Proof.
  intros Hw Ha Hans Hb Hk Hq. unfold with_events. apply post_bind, post_lib_c.
  specialize (Ha (user w)). specialize (Hans (user w)).
  destruct (f (user w)) as [[o evs] u]. simpl in *.
  eapply outcomes_bind; [apply (events_uphold (r :: R))|intros [] w'; by apply upholds_lift|done].
  - apply (honest_ask R w (World _ _ _ u _) r Hw Ha); [done|simpl; by rewrite Ha|congruence..].
  - simpl. by rewrite Ha.
Qed.

(** ** The tasks and the IO thread *)

Lemma upholds_monitors ms : upholds c (for_each (U := U) ms monitor).
Proof. apply upholds_for_each. intros m. by apply upholds_modify. Qed.

Lemma upholds_make_connection s : upholds c (make_connection (U := U) s).
Proof.
  unfold make_connection. apply upholds_bind.
  - apply upholds_lib_c. intros u. pose proof (asked_connection_new s u). by destruct (connection_new s u) as [[? ?] ?].
  - intros r. apply upholds_bind; [apply upholds_monitors|]. intros _. apply upholds_lift.
Qed.

Lemma upholds_reset_connection o : upholds c (reset_connection (U := U) o).
Proof.
  unfold reset_connection. apply upholds_bind; [apply upholds_get|]. intros s.
  apply upholds_bind; [by apply upholds_modify|]. intros _. destruct (connection s); [|apply upholds_ret].
  apply upholds_bind; [apply upholds_lib_c; intros u; apply asked_connection_delete|]. intros ms. apply upholds_monitors.
Qed.

(** [connect_and_declare]'s task: the exchange, then the queue, on the new channel. *)
Lemma upholds_run_connect p : upholds c (run_connect h p).
Proof.
  unfold run_connect. apply upholds_catch_all.
  2:{ intros e. case_match; by apply upholds_set_value. }
  intros R w Hw. apply post_bind, post_gets. rewrite (ho_config _ _ _ Hw).
  eapply outcomes_bind; [by apply upholds_make_connection|intros conn w1 Hw1|done].
  eapply outcomes_bind; [by apply upholds_reset_connection|intros [] w2 Hw2|done].
  eapply outcomes_bind; [by apply upholds_lib; [intros u; apply asked_channel_new|]|intros ch w3 Hw3|done].
  eapply outcomes_bind; [by apply upholds_reset_member; [|intros x u; apply asked_channel_delete|]|intros [] w4 Hw4|done].
  eapply outcomes_bind; [by apply upholds_modify|intros [] w5 Hw5|done].
  set (rx := ReqExchange ch (exchange c) (exchange_type_of c) (exchange_flags c)).
  set (rq := ReqQueue ch (queue c) (queue_flags c)).
  apply (outcomes_bind (honest c (rx :: R))); [|intros [] w6 Hw6|intros w' Hw'; eapply honest_forget; [|exact Hw']; set_solver].
  { apply (ask_with_events _ rx R); try done.
    - intros u. apply asked_exchange.
    - intros u. apply answers_exchange. }
  apply (outcomes_bind (honest c (rq :: rx :: R))); [|intros [] w7 Hw7|intros w' Hw'; eapply honest_forget; [|exact Hw']; set_solver].
  { apply (ask_with_events _ rq _ _ Hw6); try done.
    - intros u. apply asked_queue.
    - intros u. apply answers_queue.
    - intros _. exists ch. pose proof (ho_past _ _ _ Hw6). set_solver. }
  assert (honest c R w7) as Hw8 by (eapply honest_forget; [|exact Hw7]; set_solver).
  apply post_bind, post_gets. destruct (confirms_enabled (confirms (st w7))); [|by right].
  apply upholds_with_events; [intros u; apply asked_confirm|intros u; apply answers_confirm|done].
Qed.

Lemma upholds_confirms f : upholds c (modify (on_confirms f) : comp U AmqpState ()).
Proof. by apply upholds_modify. Qed.

Lemma upholds_run_publish b ct p : upholds c (run_publish h b ct p).
Proof.
  unfold run_publish. apply upholds_bind; [apply upholds_get|]. intros s. destruct (channel s) as [ch|].
  2:{ destruct p; [by apply upholds_set_value|apply upholds_ret]. }
  apply upholds_catch_all; [|intros e; apply upholds_ret].
  apply upholds_bind; [apply upholds_get|]. intros cf. apply upholds_bind; [apply upholds_get|]. intros tag.
  apply upholds_bind; [apply upholds_confirms|]. intros _.
  apply upholds_bind; [destruct p; [apply upholds_confirms|apply upholds_ret]|]. intros _.
  apply upholds_bind; [apply upholds_with_events; intros u; [apply asked_publish|apply answers_publish]|]. intros ok.
  apply upholds_bind; [apply upholds_get|]. intros pend. destruct p; [|apply upholds_ret].
  destruct ok; [apply upholds_ret|]. destruct (find_confirm tag pend); [|apply upholds_ret].
  apply upholds_bind; [by apply upholds_set_value|]. intros _. apply upholds_confirms.
Qed.

Lemma upholds_run_close p : upholds c (run_close h p).
Proof.
  unfold run_close. apply upholds_bind; [|intros _; apply upholds_bind; [|intros _; by apply upholds_set_value]];
    (apply upholds_catch_all; [|intros e; apply upholds_ret]);
    (apply upholds_bind; [apply upholds_get|]); intros s.
  - destruct (channel s); [|apply upholds_ret].
    apply upholds_with_events; intros u; [apply asked_channel_close|apply answers_channel_close].
  - destruct (connection s); [|apply upholds_ret].
    apply upholds_with_events; intros u; [apply asked_connection_close|apply answers_connection_close].
Qed.

Lemma upholds_drain_tasks : upholds c (drain_tasks h).
Proof.
  unfold drain_tasks. apply upholds_bind; [apply upholds_get|]. intros i.
  apply upholds_bind; [by apply upholds_modify|]. intros _. apply upholds_for_each. intros t.
  apply upholds_catch_all; [|intros e; apply upholds_ret]. destruct t as [p|b ct p|p|p].
  - apply upholds_run_connect.
  - apply upholds_run_publish.
  - by apply upholds_set_value.
  - apply upholds_run_close.
Qed.

Lemma upholds_io_turn b1 b2 : upholds c (io_turn h b1 b2).
Proof.
  assert (upholds c (exit_loop (U := U))) as Hexit by by apply upholds_modify.
  unfold io_turn. destruct b1; [done|]. apply upholds_bind; [apply upholds_drain_tasks|]. intros _.
  destruct b2; [done|]. apply upholds_bind; [apply upholds_get|]. intros i.
  apply upholds_bind; [apply upholds_lib_c; intros u; apply asked_poll|]. intros [[]| |wk ev];
    [apply upholds_ret|done|apply upholds_ret|].
  apply upholds_bind.
  { case_match; [|apply upholds_ret]. apply upholds_bind; [apply upholds_get|]. intros i'.
    apply upholds_lib_void. intros u. apply asked_drain. }
  intros _. apply upholds_bind; [apply upholds_get|]. intros s. destruct (connection s); [|apply upholds_ret].
  case_match; [|apply upholds_ret]. apply upholds_catch_all; [|intros e; apply upholds_ret].
  apply upholds_with_events; intros u; [apply asked_process|apply answers_process].
Qed.

Lemma upholds_io_turns ts : upholds c (io_turns h ts).
Proof.
  apply upholds_for_each. intros t. apply upholds_bind; [apply upholds_get|]. intros i.
  destruct (io_running i); [apply upholds_io_turn|apply upholds_ret].
Qed.

Lemma upholds_post t : upholds c (Amqp.post (U := U) t).
Proof.
  apply upholds_bind; [by apply upholds_modify|]. intros _. apply upholds_bind; [apply upholds_get|]. intros s.
  case_match; [apply upholds_ret|]. apply upholds_lib_void. intros u. apply asked_write.
Qed.

(** A new promise has no value. *)
Lemma upholds_new_promise : upholds c (new_promise (U := U)).
Proof.
  apply upholds_bind; [apply upholds_get|]. intros p. apply upholds_bind; [|intros _; apply upholds_ret].
  apply upholds_modify. intros s. split_and!; [done..|]. intros p'. simpl.
  rewrite lookup_insert_Some. intros [[_ ?]|[_ ?]]; [done|done].
Qed.

Lemma upholds_connect_and_declare ts : upholds c (connect_and_declare h ts).
Proof.
  unfold connect_and_declare. apply upholds_bind; [apply upholds_new_promise|]. intros p.
  apply upholds_bind; [apply upholds_post|]. intros _. apply upholds_bind; [apply upholds_io_turns|]. intros _.
  apply upholds_bind; [apply upholds_get|]. intros s. repeat case_match; try apply upholds_lift.
  apply upholds_bind; [apply upholds_get|]. intros l. case_match; [apply upholds_lift|apply upholds_ret].
Qed.

Lemma upholds_start_io_thread : upholds c (start_io_thread (U := U)).
Proof.
  unfold start_io_thread. apply upholds_bind; [apply upholds_lib; intros u; apply asked_thread_new|]. intros t.
  apply upholds_bind; [|intros _; by apply upholds_modify].
  apply upholds_reset_member; [done|]. intros x u. apply asked_thread_delete.
Qed.
End honest.

(** ** Theorems *)

Section theorems.
Context `{Externals} {U : Type} `{AmqpRequests U} `{!BusLink U AmqpState} (h : host U AmqpState).

(** A successful attach upholds the invariant. *)
Lemma attach_upholds c ts sc reg sink w :
  link_upholds h c → honest c [] w →
  Resources.post (attach_with_sink h ts sc reg sink) (λ o w', o = Ret () → honest c [] w') w.
Proof.
  intros Hlink Hw.
  assert (∀ A B (I J : world U AmqpState → Prop) (m : comp U AmqpState A) (f : A → comp U AmqpState B) w,
    ends I m w → (∀ a w', I w' → Resources.post (f a) (λ o w', (∃ b, o = Ret b) → J w') w') →
    Resources.post (m ≫= f) (λ o w', (∃ b, o = Ret b) → J w') w) as Hbind.
  { intros A B I J m f w0 Hm Hf. apply post_bind. eapply ends_mono; [exact Hm|].
    intros [a|e|u] w' [[v [=]]|Hw']; [by apply Hf|by intros [? ?]|by intros [? ?]|by intros [? ?]]. }
  eapply (post_mono _ (λ o w', (∃ b, o = Ret b) → honest c [] w')); [|intros o w' Ho ->; apply Ho; by eexists].
  unfold attach_with_sink.
  eapply Hbind; [by apply (upholds_modify c)|intros [] w1 Hw1].
  eapply Hbind; [by apply (upholds_start_io_thread c)|intros [] w2 Hw2].
  apply post_catch_all. eapply ends_mono; [by apply (upholds_connect_and_declare h c Hlink)|].
  intros [[]|e|u] w3 [[x [=]]|Hw3]; [done| |by intros [? ?]|by intros [? ?]].
  apply post_bind. unfold Resources.post at 1. destruct (shutdown h sc w3) as [[[[]|e'|u] w4] tr4]; simpl;
    [apply post_lift; by intros [? ?]|by intros [? ?]|by intros [? ?]].
Qed.

End theorems.

(** ** Witnesses *)

(** A broker that keeps the record of what it is asked; at each turn of the connection
    it gives the next batch of a script, if that answers the record. *)
Record asking := Asking { a_next : positive; a_script : list (list amqp_event); a_asked : list request }.

Definition a_create (u : asking) : asking := Asking (Pos.succ (a_next u)) (a_script u) (a_asked u).
Definition a_ask (r : request) (u : asking) : asking := Asking (a_next u) (a_script u) (a_asked u ++ [r]).

#[local] Instance asking_threads : ThreadLib asking := {|
  thread_new _ u := (Ret (a_next u), a_create u);
  thread_request_stop _ u := u;
  thread_joinable _ _ := true;
  thread_join _ u := (Ret (), u);
  thread_delete _ u := u;
|}.

#[local] Instance asking_amqp : AmqpLib asking := {|
  sys_pipe u := (Some (3, 4)%Z, u);
  sys_close _ u := u;
  sys_write_byte _ u := u;
  sys_drain _ u := u;
  sys_poll _ u := (PollReady 1 1, u);
  POLLIN := 1;
  POLLOUT := 4;
  POLLERR := 8;
  POLLHUP := 16;
  AMQP_readable := 1;
  AMQP_writable := 2;
  AMQP_durable := 1;
  AMQP_autodelete := 2;
  AMQP_exclusive := 4;
  connection_new _ u := (Ret (a_next u), [(5, 1)%Z], a_create u);
  connection_delete _ u := ([((-1), 0)%Z], u);
  connection_close _ u := (Ret (), [], u);
  connection_process _ _ _ u :=
    let batch := hd [] (a_script u) in
    (Ret (), if answers (a_asked u) batch then batch else [], Asking (a_next u) (tl (a_script u)) (a_asked u));
  connection_heartbeat _ u := u;
  channel_new _ u := (Ret (a_next u), a_create u);
  channel_delete _ u := u;
  channel_close _ u := (Ret (), [], u);
  declare_exchange ch n t f u := (Ret (), [], a_ask (ReqExchange ch n t f) u);
  declare_queue ch n f u := (Ret (), [], a_ask (ReqQueue ch n f) u);
  bind_queue ch e q k u := (Ret (), a_ask (ReqBind ch e q k) u);
  channel_consume ch q u := (Ret (), a_ask (ReqConsume ch q) u);
  confirm_select _ u := (Ret (), [], u);
  channel_ack _ _ u := (Ret (), u);
  channel_publish _ _ _ m u := (Ret true, [], u);
|}.

#[local] Instance asking_requests : AmqpRequests asking.
Proof.
  refine {| asked := a_asked |}; try done. intros c fd fl u. simpl.
  by destruct (answers (a_asked u) (hd [] (a_script u))) eqn:Ha.
Defined.

#[local] Instance asking_link : BusLink asking AmqpState := {|
  link_target := (λ _, mret ()) : InboundTarget asking AmqpState;
  deref_registry _ := mret new_EventRegistry;
  link_report _ _ := mret ();
|}.

Definition asking_host : host asking AmqpState :=
  scripted (λ _, Ret true) (λ n, Z.of_nat n) (λ _, Remote) (λ _, 0%Z).

(** User code and a bus that leave the adapter alone. *)
Lemma asking_sink_upholds c s v : upholds c (run_sink asking_host s v).
Proof.
  assert (∀ cl, upholds c (call_fn asking_host cl)) as Hcall by (intros cl R w Hw; by right).
  revert s. fix IH 1. intros [|f|p s]; simpl.
  - apply upholds_ret.
  - apply upholds_bind; [apply Hcall|]. intros b. apply upholds_ret.
  - assert (upholds c (match s with Some s => run_sink asking_host s v | None => mret () end)) as Hs
      by (destruct s; [apply IH|apply upholds_ret]).
    destruct p as [p|]; [|exact Hs]. apply upholds_bind.
    + apply upholds_catch_all; [apply Hcall|]. intros e. apply upholds_ret.
    + intros []; [exact Hs|apply upholds_ret].
Qed.

Lemma asking_link_upholds c : link_upholds asking_host c.
Proof.
  intros name fmt i bytes. unfold deliver_payload. destruct (registry i); [|apply upholds_ret].
  destruct (sink i); [|apply upholds_ret]. apply upholds_catch_all.
  - apply upholds_bind; [apply upholds_ret|]. intros reg. apply upholds_bind; [apply upholds_lift|]. intros d.
    apply upholds_bind; [intros R w Hw; right; by eapply honest_same|]. intros t.
    apply upholds_bind; [intros R w Hw; right; by eapply honest_same|]. intros v.
    unfold deliver_inbound. destruct (inbound_sink_ _); [apply asking_sink_upholds|apply upholds_ret].
  - intros e. case_match; apply upholds_ret.
Qed.

(** The queue is declared in one turn, bound in the next, consumed from in the third. *)
Definition asking_world : world asking AmqpState :=
  World ∅ false 0 (Asking 1 [[EvConnected; EvReady; EvQueueDeclared "q1"]; [EvBound]; [EvConsuming]] []) new_adapter.
Abbreviation asking_run :=
  (attach_with_sink asking_host [(false, false); (false, false); (false, false)] idle_schedule 1%positive SinkBus).

Lemma asking_attached : asking_run asking_world =
  (Ret (), world_after asking_run asking_world, trace_of asking_run asking_world).
Proof. apply completed_run. vm_compute. reflexivity. Qed.


(** The broker refuses the queue with an empty message: the attach returns, and nothing
    was bound. *)
#[local] Existing Instances toy_threads toy_amqp quiet_link.
Definition empty_error_world : world broker AmqpState :=
  World ∅ false 0 (MkBroker [] 1 [[EvConnected; EvReady; EvQueueError (Some ""%string)]] false) new_adapter.

Example amqp_empty_error_attaches :
  let r := attach_with_sink quiet_host [(false, false)] idle_schedule 1%positive SinkBus empty_error_world in
  r.1.1 = Ret () ∧ bound_queue (link (st r.1.2)) = "".
Proof. vm_compute. done. Qed.
