(* ===== verification/AmqpTags.v ===== *)
(** * Delivery tags against the broker's numbers ([transports/amqp/src/transport.cpp])

    The broker numbers the messages that it receives on a channel from 1, and an
    acknowledgement carries such a number.  The adapter counts on its own, in
    [next_delivery_tag].  As long as the two counts agree an acknowledgement reaches
    the publisher of its message; once they disagree it never does.  A new channel
    makes them disagree, since attaching does not reset the adapter's count. *)

From Stdlib Require Import Sorting.Sorted.
From S2P Require Import Prelude Exceptions External Flags Instances Envelope EnvelopeWire Serialization SerializationProps.
From S2P Require Import World WorldLogic WorldSafety Hosts Bus Transport Adapter Amqp Resources AdapterProps AmqpLedger AmqpProps.

(** ** The entries that a run of publications adds *)

Definition awaited_by (t : task) : option positive :=
  match t with TaskPublish _ _ p => p | _ => None end.

Fixpoint numbered (n : Z) (ts : list task) : list (Z * positive) :=
  match ts with
  | [] => []
  | t :: ts => ((λ p, (n, p)) <$> option_list (awaited_by t)) ++ numbered (n + 1) ts
  end.

Lemma numbered_from n ts e : e ∈ numbered n ts → (n ≤ e.1 < n + Z.of_nat (length ts))%Z.
Proof.
  revert n. induction ts as [|t ts IH]; intros n; simpl; [by intros ?%not_elem_of_nil|].
  intros [Hin|Hin]%elem_of_app; [|apply IH in Hin; lia].
  destruct (awaited_by t) as [p|]; [|by apply not_elem_of_nil in Hin].
  apply list_elem_of_singleton in Hin as ->. simpl. lia.
Qed.

Lemma numbered_lookup n ts i t p :
  ts !! i = Some t → awaited_by t = Some p → ((n + Z.of_nat i)%Z, p) ∈ numbered n ts.
Proof.
  revert n i. induction ts as [|t' ts IH]; intros n [|i]; simpl; [done|done| |].
  - intros [= ->] ->. apply elem_of_app. left. simpl. rewrite Z.add_0_r. by left.
  - intros Hi Hp. apply elem_of_app. right. replace (n + Z.of_nat (S i))%Z with (n + 1 + Z.of_nat i)%Z by lia.
    by apply IH.
Qed.

(** Every key is below the next tag. *)
Definition keys_below (n : Z) (m : list (Z * positive)) : Prop := ∀ e, e ∈ m → (e.1 < n)%Z.

Lemma emplace_last t p m : keys_below t m → emplace t p m = m ++ [(t, p)].
Proof.
  induction m as [|[k q] m IH]; intros Hm; [done|]. simpl.
  pose proof (Hm (k, q) ltac:(by left)) as Hk. simpl in Hk. rewrite (proj2 (Z.ltb_lt k t)) by done.
  rewrite IH; [done|]. intros e He. apply Hm. by right.
Qed.

(** ** A queue of accepted publications *)

Section accepted.
Context `{Externals} {U : Type} `{AmqpLib U} `{!BusLink U AmqpState} (h : host U AmqpState).
Implicit Types w : world U AmqpState.

(** [sent u]: the messages that the broker has received on the channel. *)
Context (sent : U → list amqp_message).

(** The library accepts what it is given, and calls nothing back meanwhile. *)
Hypothesis Haccepts : ∀ ch ex rk m u,
  (channel_publish ch ex rk m u).1 = (Ret true, []) ∧ sent (channel_publish ch ex rk m u).2 = sent u ++ [m].

Definition after_tags (ts : list task) (s : AmqpState) : AmqpState :=
  on_confirms (λ c, MkConfirms (confirms_enabled c) (next_delivery_tag c + Z.of_nat (length ts))
                 (pending_confirms c ++ numbered (next_delivery_tag c) ts)) s.

Lemma run_publish_accepted b ct p ch w :
  channel (link (st w)) = Some ch →
  ∃ u, run_publish h b ct p w = (Ret (), with_user w u (awaited p (st w)), []) ∧
       sent u = sent (user w) ++ [make_message (config (st w)) b ct].
Proof.
  intros Hc. rewrite (run_publish_unfold h b ct p ch w Hc).
  destruct (Haccepts ch (exchange (config (st w))) (routing_key (config (st w)))
    (make_message (config (st w)) b ct) (user w)) as [Hr Hs].
  unfold with_events. set (msg := make_message _ _ _) in *.
  destruct (channel_publish ch _ _ msg (user w)) as [r u] eqn:Hpub. simpl in Hr, Hs. subst r.
  exists u. split; [|done].
  unfold catch_all. unfold mbind at 1, comp_bind at 1. unfold mbind at 1, comp_bind at 1.
  unfold lib_c at 1, lib at 1. cbn [user with_members]. rewrite Hpub. cbn beta iota zeta. cbn [fst snd for_each].
  unfold after_publish. rewrite run_ret. unfold lift. rewrite run_gets. by destruct p.
Qed.

Lemma awaited_after b ct p s :
  (0 ≤ next_delivery_tag (confirms s))%Z → (next_delivery_tag (confirms s) < u64_max)%Z →
  keys_below (next_delivery_tag (confirms s)) (pending_confirms (confirms s)) →
  awaited p s = after_tags [TaskPublish b ct p] s.
Proof.
  intros Hnn Hmax Hkeys. destruct s as [cfg i o l [en n pend] pr cnt]. simpl in *.
  assert (u64_add n 1 = n + 1)%Z as Hn.
  { unfold u64_add, u64_wrap. apply Z.mod_small. unfold u64_max in Hmax. lia. }
  unfold awaited, tagged, after_tags, on_confirms, set_pending, set_next_tag. simpl. rewrite Hn.
  destruct p as [p|]; simpl; [by rewrite emplace_last|by rewrite app_nil_r].
Qed.

Lemma after_tags_cons t ts s :
  after_tags ts (after_tags [t] s) = after_tags (t :: ts) s.
Proof.
  unfold after_tags, on_confirms. simpl. f_equal. rewrite app_nil_r, <- (assoc_L (++)). f_equal. lia.
Qed.

Lemma keys_below_after ts s :
  keys_below (next_delivery_tag (confirms s)) (pending_confirms (confirms s)) →
  keys_below (next_delivery_tag (confirms (after_tags ts s))) (pending_confirms (confirms (after_tags ts s))).
Proof.
  intros Hk e. simpl. intros [He%Hk|He%numbered_from]%elem_of_app; lia.
Qed.

Lemma run_tasks_accepted ts ch w :
  channel (link (st w)) = Some ch → Forall is_publication ts →
  (0 ≤ next_delivery_tag (confirms (st w)))%Z →
  (next_delivery_tag (confirms (st w)) + Z.of_nat (length ts) ≤ u64_max)%Z →
  keys_below (next_delivery_tag (confirms (st w))) (pending_confirms (confirms (st w))) →
  ∃ u, run_tasks h ts w = (Ret (), with_user w u (after_tags ts (st w)), []) ∧
       sent u = sent (user w) ++ (ts ≫= publication (config (st w))).
Proof.
  intros Hc Hts. revert w Hc. induction Hts as [|t ts Ht _ IH]; intros w Hc Hnn Hmax Hk.
  { exists (user w). rewrite app_nil_r. split; [|done]. destruct w as [hp lk rd us [cfg i o l [en n pend] pr cnt]].
    unfold after_tags, with_user, on_confirms. simpl. by rewrite app_nil_r, Z.add_0_r. }
  destruct t as [|b ct p| |]; try done. simpl length in Hmax.
  destruct (run_publish_accepted b ct p ch w Hc) as (u1 & Hrun1 & Hs1).
  rewrite (awaited_after b ct p (st w)) in Hrun1 by (done || lia).
  destruct (IH (with_user w u1 (after_tags [TaskPublish b ct p] (st w)))) as (u2 & Hrun2 & Hs2);
    [done|simpl; lia|simpl; lia|by apply keys_below_after|].
  exists u2. split.
  - unfold run_tasks in *. simpl for_each. unfold mbind, comp_bind. unfold catch_all at 1. simpl run_task.
    rewrite Hrun1, Hrun2. unfold with_user. simpl. by rewrite after_tags_cons.
  - rewrite Hs2. simpl. by rewrite Hs1, <- (assoc_L (++)).
Qed.
End accepted.

(** ** What an acknowledgement by number answers *)

Section answers.
Context `{Externals} {U : Type} `{AmqpLib U} `{!BusLink U AmqpState} (h : host U AmqpState).
Implicit Types w : world U AmqpState.

Context (sent : U → list amqp_message).

(** The broker's answer to its message number [n]. *)
Definition broker_answer (ok : bool) (n : Z) : amqp_event := if ok then EvAck n false else EvNack n false.

(** The adapter's count is one past the number of the last message. *)
Definition counts_agree w : Prop :=
  next_delivery_tag (confirms (st w)) = (Z.of_nat (length (sent (user w))) + 1)%Z.

Lemma publications_lookup c ts i t :
  Forall is_publication ts → ts !! i = Some t → (ts ≫= publication c) !! i = publication c t !! 0%nat.
Proof.
  intros Hts. revert i. induction Hts as [|t' ts Ht' _ IH]; intros i; [done|].
  destruct t' as [|b ct p| |]; try done. destruct i as [|i]; simpl; [by intros [= <-]|]. apply IH.
Qed.

Lemma publications_length c ts :
  Forall is_publication ts → length (ts ≫= publication c) = length ts.
Proof. induction 1 as [|t ts Ht _ IH]; [done|]. destruct t; try done. exact (f_equal S IH). Qed.

Lemma broker_answer_run err L ok n w :
  ledger err L (st w) →
  handle_event h (broker_answer ok n) w =
  (Ret (), with_members w (settle_all ok
     (List.filter (settles n false) (pending_confirms (confirms (st w)))) (st w)), []).
Proof. intros Hl. destruct ok; by apply (resolve_confirm_run err L). Qed.

Lemma ledger_values_NoDup err L s : ledger err L s → NoDup (pending_confirms (confirms s)).*2.
Proof. intros Hl. pose proof (ledger_distinct err L s Hl) as Hnd. unfold acks in Hnd. by apply NoDup_app in Hnd as [? _]. Qed.

Lemma values_functional (m : list (Z * positive)) k j p : NoDup m.*2 → (k, p) ∈ m → (j, p) ∈ m → k = j.
Proof.
  induction m as [|[i q] m IH]; simpl; [by intros _ ?%not_elem_of_nil|].
  intros [Hq Hnd]%NoDup_cons [[= -> ->]|Hk]%elem_of_cons [[= Hj]|Hj]%elem_of_cons.
  - done.
  - destruct Hq. apply list_elem_of_fmap. by exists (j, q).
  - subst. destruct Hq. apply list_elem_of_fmap. by exists (k, q).
  - by apply IH.
Qed.

(** An answer by number, against a promise that is in the map under [k]. *)
Lemma answer_by_number err L ok n k p w :
  ledger err L (st w) → (k, p) ∈ pending_confirms (confirms (st w)) →
  ∃ s, handle_event h (broker_answer ok n) w = (Ret (), with_members w s, []) ∧
    (n = k → ∀ q, promises s !! q = if bool_decide (q = p) then Some (Some (VBool ok)) else promises (st w) !! q) ∧
    (n ≠ k → promises s !! p = promises (st w) !! p).
Proof.
  intros Hl Hk. eexists. split; [by eapply broker_answer_run|].
  pose proof (ledger_values_NoDup _ _ _ Hl) as Hv. pose proof (ledger_sorted _ _ _ Hl) as Hs.
  assert (∀ q, q ∈ (List.filter (settles n false) (pending_confirms (confirms (st w)))).*2 ↔
               (n, q) ∈ pending_confirms (confirms (st w))) as Hcov.
  { intros q. rewrite list_elem_of_fmap. split.
    - intros ([j q'] & -> & [Hj Hn]%list_elem_of_In%List.filter_In).
      apply Z.eqb_eq in Hn. simpl in *. subst j. by apply list_elem_of_In.
    - intros Hq. exists (n, q). split; [done|]. apply list_elem_of_In, List.filter_In.
      split; [by apply list_elem_of_In|]. apply Z.eqb_refl. }
  split.
  - intros -> q. rewrite settle_all_promises. erewrite bool_decide_ext; [done|]. rewrite Hcov.
    split; [|by intros ->]. intros Hq. by eapply keys_sorted_functional.
  - intros Hne. rewrite settle_all_promises, bool_decide_eq_false_2; [done|]. rewrite Hcov. intros Hn.
    apply Hne. by eapply values_functional.
Qed.

(** A queue of accepted publications, taken; what comes after it is about this state. *)
Hypothesis Haccepts : ∀ ch ex rk m u,
  (channel_publish ch ex rk m u).1 = (Ret true, []) ∧ sent (channel_publish ch ex rk m u).2 = sent u ++ [m].

Lemma drain_accepted ch w :
  channel (link (st w)) = Some ch → Forall is_publication (task_queue (io (st w))) →
  (0 ≤ next_delivery_tag (confirms (st w)))%Z →
  (next_delivery_tag (confirms (st w)) + Z.of_nat (length (task_queue (io (st w)))) ≤ u64_max)%Z →
  keys_below (next_delivery_tag (confirms (st w))) (pending_confirms (confirms (st w))) →
  ledger false [] (st w) →
  ∃ w1, drain_tasks h w = (Ret (), w1, []) ∧ ledger false [] (st w1) ∧
    sent (user w1) = sent (user w) ++ (task_queue (io (st w)) ≫= publication (config (st w))) ∧
    confirms (st w1) = confirms (after_tags (task_queue (io (st w))) (st w)) ∧
    promises (st w1) = promises (st w).
Proof.
  intros Hc Hq Hnn Hmax Hk Hl. unfold drain_tasks. rewrite run_gets, run_modify.
  set (w0 := with_members w (on_io (set_task_queue []) (st w))).
  destruct (run_tasks_accepted h sent Haccepts (task_queue (io (st w))) ch w0) as (u & Hrun & Hs); [done..|].
  destruct (run_tasks_sends h sent) with (err := false) (L := @nil task) (ts := task_queue (io (st w))) (ch := ch) (w := w0)
    as (u' & s' & Hrun' & _ & _ & Hl'); [|done|done|by apply ledger_take|].
  { intros c ex rk m v. destruct (Haccepts c ex rk m v) as [Hr Hsv]. rewrite Hr. split; [done|].
    split; [by intros [x [=]]|by constructor]. }
  rewrite Hrun in Hrun' |- *. injection Hrun' as _ <-. eexists. split; [done|]. split; [exact Hl'|]. by split.
Qed.
End answers.

(** ** The count of the adapter over its connections

    [no_publications n]: the adapter's count is [n], and no publication is queued. *)

Definition no_publications (n : Z) (s : AmqpState) : Prop :=
  next_delivery_tag (confirms s) = n ∧ Forall (λ t, ¬ is_publication t) (task_queue (io s)).

Section count.
Context `{Externals} {U : Type} `{AmqpLib U} `{!BusLink U AmqpState} (h : host U AmqpState) (n : Z).
Implicit Types w : world U AmqpState.
Context (Hlink : link_keeps h (no_publications n)).
Abbreviation stable m := (keeps (no_publications n) m).

(** Updates of other members: none of them touches the count. *)
Ltac count_modify := apply keeps_modify; let s := fresh in let Hn := fresh in let Hq := fresh in intros s [Hn Hq]; split; [exact Hn|exact Hq].
Ltac count := keeps_rules; try solve [count_modify].

Lemma count_set_value p v : stable (set_value (U := U) p v).
Proof. unfold set_value. count. Qed.

Lemma count_wake : stable (wake (U := U)).
Proof. unfold wake. count. Qed.

Lemma count_post t : ¬ is_publication t → stable (Amqp.post (U := U) t).
Proof.
  intros Ht. apply keeps_bind; [|intros _; apply count_wake].
  apply keeps_modify. intros s [Hn Hq]. split; [done|]. apply Forall_app. split; [done|by repeat constructor].
Qed.

Lemma count_new_promise : stable (new_promise (U := U)).
Proof. unfold new_promise. count. Qed.

Lemma count_resolve t m ok : stable (resolve_confirm (U := U) t m ok).
Proof. unfold resolve_confirm. count; apply count_set_value. Qed.

Lemma count_onError m : stable (onError (U := U) m).
Proof. unfold onError. count. apply count_set_value. Qed.

Lemma count_declare_failed m f : stable (declare_failed (U := U) m f).
Proof. unfold declare_failed. count. apply count_set_value. Qed.

Lemma count_handle_event e : stable (handle_event h e).
Proof.
  destruct e; simpl; unfold monitor, the_channel, deliver_message; count;
    try apply count_onError; try apply count_declare_failed; try apply count_resolve.
  - intros w Hw. by right.
  - apply Hlink.
Qed.

Lemma count_with_events {A} (f : U → outcome A * list amqp_event * U) : stable (with_events h f).
Proof. unfold with_events. count. apply count_handle_event. Qed.

Lemma count_reset_connection c : stable (reset_connection (U := U) c).
Proof. unfold reset_connection, monitor. count. Qed.

Lemma count_reset_channel c : stable (reset_channel (U := U) c).
Proof. by apply keeps_reset_member. Qed.

Lemma count_reset_io_thread t : stable (reset_io_thread (U := U) t).
Proof. by apply keeps_reset_member. Qed.

Lemma count_run_task t : ¬ is_publication t → stable (run_task h t).
Proof.
  destruct t as [p|b ct p|p|p]; intros Ht; simpl; [|by destruct Ht|apply count_set_value|].
  - unfold run_connect, make_connection, monitor. count;
      try apply count_set_value; try apply count_with_events; try apply count_reset_connection; apply count_reset_channel.
  - unfold run_close. count; try apply count_with_events. apply count_set_value.
Qed.

Lemma count_drain_tasks : stable (drain_tasks h).
Proof.
  apply keeps_gets. intros w Hw. destruct Hw as [Hn Hq].
  eapply (goes_bind (no_publications n)); [by apply goes_modify|intros _ w1 Hw1|done].
  clear Hn. revert w1 Hw1. unfold run_tasks. change (stable (for_each (task_queue (io (st w))) (λ t, catch_all (run_task h t) (λ _, mret ())))).
  induction Hq as [|t ts Ht _ IH]; simpl; [apply keeps_ret|]. apply keeps_bind; [|done].
  apply keeps_catch_all; [by apply count_run_task|]. intros e. apply keeps_ret.
Qed.

Lemma count_io_turns ts : stable (io_turns h ts).
Proof.
  unfold io_turns, io_turn, exit_loop, drain_wakeup_pipe. count; try apply count_drain_tasks; apply count_with_events.
Qed.

Lemma count_shutdown sc : stable (shutdown h sc).
Proof.
  unfold shutdown, exit_loop, forget. count; try apply count_reset_connection; try apply count_reset_channel;
    try apply count_reset_io_thread; try apply count_new_promise; try apply count_wake; try apply count_io_turns;
    try apply keeps_join. apply count_post. by intros [].
Qed.

Lemma count_attach ts sc reg sink : stable (attach_with_sink h ts sc reg sink).
Proof.
  unfold attach_with_sink, start_io_thread, connect_and_declare. count.
  - apply count_reset_io_thread.
  - apply keeps_on_unwind; [|apply count_shutdown]. count; [apply count_new_promise|apply count_post; by intros []|apply count_io_turns].
Qed.

Lemma count_detach sc : stable (detach h sc).
Proof. unfold detach. count. apply count_shutdown. Qed.
End count.

(** ** Theorems *)

Section theorems.
Context `{Externals} {U : Type} `{AmqpLib U} `{!BusLink U AmqpState} (h : host U AmqpState).
Implicit Types w : world U AmqpState.
Context (sent : U → list amqp_message).

(** The library of the theorems: it accepts every publication and calls nothing back
    meanwhile. *)
Definition accepts_all : Prop := ∀ ch ex rk m u,
  (channel_publish ch ex rk m u).1 = (Ret true, []) ∧ sent (channel_publish ch ex rk m u).2 = sent u ++ [m].

(** C22: acknowledgements find their publishers.  While the adapter's count agrees with
    the broker's, taking a queue of publications that the library accepts keeps the
    counts in agreement, and the broker's answer to any of the messages, by the
    position of that message among all it has received, settles the promise of the
    publisher of that very message, and of nobody else. *)
Theorem amqp_acks_find_publishers ch w i b ct p ok :
  accepts_all → channel (link (st w)) = Some ch →
  Forall is_publication (task_queue (io (st w))) → ledger false [] (st w) →
  counts_agree sent w → keys_below (next_delivery_tag (confirms (st w))) (pending_confirms (confirms (st w))) →
  (next_delivery_tag (confirms (st w)) + Z.of_nat (length (task_queue (io (st w)))) ≤ u64_max)%Z →
  task_queue (io (st w)) !! i = Some (TaskPublish b ct (Some p)) →
  let position := (length (sent (user w)) + i)%nat in
  ∃ w1, drain_tasks h w = (Ret (), w1, []) ∧ counts_agree sent w1 ∧
    sent (user w1) !! position = Some (make_message (config (st w)) b ct) ∧
    ∃ s, handle_event h (broker_answer ok (Z.of_nat position + 1)) w1 = (Ret (), with_members w1 s, []) ∧
      ∀ q, promises s !! q = if bool_decide (q = p) then Some (Some (VBool ok)) else promises (st w) !! q.
Proof.
  intros Hacc Hc Hq Hl Hag Hk Hmax Hi position. unfold counts_agree in *.
  destruct (drain_accepted h sent Hacc ch w) as (w1 & Hrun & Hl1 & Hs1 & Hcf & Hpr); [done|done|lia|done..|].
  exists w1. split; [done|]. split_and!.
  - rewrite Hcf, Hs1, length_app, publications_length by done. simpl. lia.
  - rewrite Hs1, lookup_app_r by (unfold position; lia).
    replace (position - length (sent (user w)))%nat with i by (unfold position; lia).
    by rewrite (publications_lookup _ _ _ _ Hq Hi).
  - destruct (answer_by_number h false [] ok (Z.of_nat position + 1)
      (next_delivery_tag (confirms (st w)) + Z.of_nat i) p w1 Hl1) as (s & Hans & Hhit & _).
    { rewrite Hcf. simpl. apply elem_of_app. right. by eapply numbered_lookup. }
    exists s. split; [done|]. intros q. rewrite Hhit by (unfold position; lia). by rewrite Hpr.
Qed.

(** C29: a publisher on a new channel waits in vain.  Detaching and attaching again
    opens a channel on which the broker counts from 1, while the adapter goes on from
    its old count: the broker's answer to the first message of the new channel does
    not reach its publisher. *)
Theorem amqp_reattach_strands_publisher n ch sc0 ts sc reg sink w0 w1 w2 tr1 tr2 b ct ok :
  accepts_all → link_keeps h (no_publications n) → no_publications n (st w0) → (1 < n < u64_max)%Z →
  detach h sc0 w0 = (Ret (), w1, tr1) →
  attach_with_sink h ts sc reg sink w1 = (Ret (), w2, tr2) →
  channel (link (st w2)) = Some ch → sent (user w2) = [] → task_queue (io (st w2)) = [] →
  ledger false [] (st w2) → keys_below n (pending_confirms (confirms (st w2))) →
  let p := promise_count (st w2) in
  let w3 := with_members w2 (on_io (queued (TaskPublish b ct (Some p))) (promised (st w2))) in
  ∃ w4, drain_tasks h w3 = (Ret (), w4, []) ∧ sent (user w4) = [make_message (config (st w2)) b ct] ∧
    ∃ s, handle_event h (broker_answer ok 1) w4 = (Ret (), with_members w4 s, []) ∧ promises s !! p = Some None.
Proof.
  intros Hacc Hlink Hw0 Hn Hdet Hatt Hc Hs Hq Hl Hk p w3.
  assert (no_publications n (st w1)) as Hw1.
  { eapply keeps_run; [by apply (count_detach h n Hlink)|exact Hw0|exact Hdet|by intros [x [=]]]. }
  assert (no_publications n (st w2)) as [Htag _].
  { eapply keeps_run; [by apply (count_attach h n Hlink)|exact Hw1|exact Hatt|by intros [x [=]]]. }
  assert (ledger false [] (st w3)) as Hl3.
  { unfold w3. apply ledger_queued. by apply ledger_new_ack. }
  assert (task_queue (io (st w3)) = [TaskPublish b ct (Some p)]) as Hq3 by (unfold w3; simpl; by rewrite Hq).
  destruct (drain_accepted h sent Hacc ch w3) as (w4 & Hrun & Hl4 & Hs4 & Hcf & Hpr);
    [done|by rewrite Hq3; repeat constructor|simpl; lia|rewrite Hq3; simpl; lia|simpl; by rewrite Htag|done|].
  exists w4. split; [done|]. split.
  { rewrite Hs4, Hq3. simpl. by rewrite Hs. }
  destruct (answer_by_number h false [] ok 1 n p w4 Hl4) as (s & Hans & _ & Hmiss).
  { rewrite Hcf, Hq3. simpl. apply elem_of_app. right. rewrite Htag. by left. }
  exists s. split; [done|]. rewrite Hmiss by lia. rewrite Hpr. simpl. apply lookup_insert_eq.
Qed.
End theorems.

(** ** Witnesses *)

#[local] Existing Instances toy_threads toy_amqp quiet_link.

(** A broker that accepts everything; [b_sent] is what it has received. *)
#[local] Instance willing_amqp : AmqpLib broker := {|
  amqp_threads := toy_threads;
  sys_pipe := sys_pipe; sys_close := sys_close; sys_write_byte := sys_write_byte; sys_drain := sys_drain;
  sys_poll := sys_poll; POLLIN := POLLIN; POLLOUT := POLLOUT; POLLERR := POLLERR; POLLHUP := POLLHUP;
  AMQP_readable := AMQP_readable; AMQP_writable := AMQP_writable; AMQP_durable := AMQP_durable;
  AMQP_autodelete := AMQP_autodelete; AMQP_exclusive := AMQP_exclusive;
  connection_new := connection_new; connection_delete := connection_delete;
  connection_close := connection_close; connection_process := connection_process;
  connection_heartbeat := connection_heartbeat; channel_new := channel_new; channel_delete := channel_delete;
  channel_close := channel_close; declare_exchange := declare_exchange; declare_queue := declare_queue;
  bind_queue := bind_queue; channel_consume := channel_consume; confirm_select := confirm_select;
  channel_ack := channel_ack;
  channel_publish _ _ _ m u := (Ret true, [], b_publish m u);
|}.

Lemma willing_accepts : accepts_all (U := broker) b_sent.
Proof. intros ch ex rk m u. done. Qed.


(** The broker has three messages, and two more are queued. *)
Definition three_messages : list amqp_message := replicate 3 (MkMessage [0]%Z "a" None).
Definition agreeing_world : world broker AmqpState :=
  World {[1%positive := sample_core]} false 0 (MkBroker three_messages 4 [] false) (busy_adapter two_publications).

Lemma amqp_acks_find_publishers_witness :
  ∃ w1, drain_tasks quiet_host agreeing_world = (Ret (), w1, []) ∧ counts_agree b_sent w1 ∧
    b_sent (user w1) !! 3%nat = Some (MkMessage [1]%Z "a" None) ∧
    ∃ s, handle_event quiet_host (broker_answer false 4) w1 = (Ret (), with_members w1 s, []) ∧
      ∀ q, promises s !! q = if bool_decide (q = 4%positive) then Some (Some (VBool false))
                             else promises (st agreeing_world) !! q.
Proof.
  apply (amqp_acks_find_publishers quiet_host b_sent 3%positive agreeing_world 0%nat [1]%Z "a" 4%positive false).
  - apply willing_accepts.
  - reflexivity.
  - by repeat constructor.
  - apply busy_ledger. left. split; [done|]. by right.
  - reflexivity.
  - intros e He. change (e ∈ [(1%Z, 1%positive); (2%Z, 2%positive); (3%Z, 3%positive)]) in He.
    set_unfold in He. destruct He as [-> | [-> | [-> | []]]]; simpl; lia.
  - vm_compute. by intros [=].
  - reflexivity.
Defined.

(** An adapter that has had four tags, all answered, and a broker that accepts a new
    connection. *)
Definition settled_adapter : AmqpState :=
  MkAmqp toy_config (new_Impl None) (MkIo (3, 4)%Z 5 1 (Some 1%positive) true [])
    (MkLink (Some 2%positive) (Some 3%positive) None "q1" true true false "") (MkConfirms true 5 []) ∅ 5.
Definition settled_world : world broker AmqpState :=
  World {[1%positive := sample_core]} false 0 (MkBroker [] 4 ([] :: greeting) false) settled_adapter.

Abbreviation detached_run := (detach quiet_host idle_schedule).
Abbreviation detached_world := (world_after detached_run settled_world).
Abbreviation reattached_world := (world_after attached_run detached_world).

Lemma detached_world_run : detached_run settled_world = (Ret (), detached_world, trace_of detached_run settled_world).
Proof. apply completed_run. vm_compute. reflexivity. Qed.

Lemma reattached_world_run : attached_run detached_world = (Ret (), reattached_world, trace_of attached_run detached_world).
Proof. apply completed_run. vm_compute. reflexivity. Qed.

Lemma settled_ledger : ledger false [] settled_adapter.
Proof.
  constructor; [constructor|by intros p ?%not_elem_of_nil|by intros p ?%not_elem_of_nil| |constructor|done].
  intros p [?%not_elem_of_nil|[v [=]]]; done.
Qed.

Lemma amqp_reattach_strands_publisher_witness :
  let p := promise_count (st reattached_world) in
  let w3 := with_members reattached_world
              (on_io (queued (TaskPublish [7]%Z "a" (Some p))) (promised (st reattached_world))) in
  ∃ w4, drain_tasks quiet_host w3 = (Ret (), w4, []) ∧
    b_sent (user w4) = [make_message (config (st reattached_world)) [7]%Z "a"] ∧
    ∃ s, handle_event quiet_host (broker_answer true 1) w4 = (Ret (), with_members w4 s, []) ∧
         promises s !! p = Some None.
Proof.
  apply (amqp_reattach_strands_publisher quiet_host b_sent 5 6%positive idle_schedule [(false, false)] idle_schedule
    1%positive SinkBus settled_world detached_world reattached_world
    (trace_of detached_run settled_world) (trace_of attached_run detached_world) [7]%Z "a" true).
  - apply willing_accepts.
  - apply quiet_link_keeps.
  - by split; [|constructor].
  - split; [lia|vm_compute; reflexivity].
  - exact detached_world_run.
  - exact reattached_world_run.
  - vm_compute. reflexivity.
  - vm_compute. reflexivity.
  - vm_compute. reflexivity.
  - eapply keeps_run; [apply (keeps_attach false quiet_host (λ L, quiet_link_keeps _))| |exact reattached_world_run|by intros [x [=]]].
    eapply keeps_run; [apply (keeps_detach false quiet_host (λ L, quiet_link_keeps _))| |exact detached_world_run|by intros [x [=]]].
    exact settled_ledger.
  - intros e. vm_compute (pending_confirms _). by intros ?%not_elem_of_nil.
Defined.
