(* ===== verification/EndToEnd.v ===== *)
(** * From one bus to another ([include/conduit/bus.hpp], [transports/*/src/transport.cpp])

    The composition of the parts: a bus publishes through a broker adapter that is
    mounted on it, the adapter's library carries the bytes, and an adapter of another
    process delivers them to the listeners of its bus.  [WireAdapter] is what the
    composition needs of an adapter's dispatch; all five
    adapters provide it, given libraries that transmit; AMQP's counts a message as sent
    when it is in the queue of the IO thread. *)

From S2P Require Import Prelude Exceptions External Flags Instances Envelope EnvelopeWire Serialization SerializationProps.
From S2P Require Import World WorldLogic WorldSafety Hosts Bus BusSafety Transport LocalTransport Mount Adapter AdapterProps ToyClient Nats Redis Mqtt Zmq Amqp AmqpLedger AmqpProps.

(** ** What the composition needs of an adapter *)

(** [ready]: attached, with a library that transmits; [sent]: what the adapter has
    taken so far, in the order in which it leaves: what its library has transmitted
    and, where another thread transmits, what is queued for that thread.  A dispatch
    adds the encoded envelope, once. *)
Class WireAdapter `{Externals} {V S : Type} (dispatch : EventEnvelope → comp V S ())
    (fmt : S → Format) (ready : S → V → Prop) (sent : S → V → list (list Z)) : Prop :=
  wire_dispatch v (w : world V S) c bytes :
    ready (st w) (user w) → core_of (heap w) v = Ret c →
    encode_payload (fmt (st w)) (heap w) v = Ret bytes →
    ∃ s u, dispatch v w = (Ret (), World (heap w) (locked w) (reads w) u s, []) ∧
           sent s u = sent (st w) (user w) ++ [bytes] ∧ ready s u ∧ fmt s = fmt (st w).

(** ** The adapters *)

Section adapters.
Context `{Externals} {U : Type} (up : U → Prop) (sent : U → list (list Z)).

(** A call that transmits [bytes], and one that transmits nothing. *)
Definition transmits {A} (bytes : list Z) (u : U) (r : outcome A * U) : Prop :=
  up u → (∃ a, r.1 = Ret a) ∧ sent r.2 = sent u ++ [bytes] ∧ up r.2.
Definition keeps_up (u u' : U) : Prop := up u → sent u' = sent u ∧ up u'.

Section nats.
Context `{!NatsLib U}.
Context (Hpublish : ∀ c s b n u, up u →
  sent (natsConnection_Publish c s b n u).2 = sent u ++ [b] ∧ up (natsConnection_Publish c s b n u).2).
Context (Hflush : ∀ c t u, keeps_up u (natsConnection_FlushTimeout c t u).2).

#[export] Instance nats_wire :
  WireAdapter (Nats.dispatch (U := U)) (λ s, Nats.format (Nats.config s)) (λ s u, is_Some (conn s) ∧ up u) (λ _, sent).
Proof.
  intros v w c bytes [[cn Hcn] Hup] Hc Henc. unfold Nats.dispatch, payload_bytes, requires_ack, lib_c, lib.
  unfold mbind, comp_bind, gets, get_world, lift, read_core. cbn -[core_of encode_payload].
  rewrite Hcn. cbn -[core_of encode_payload]. rewrite Henc. cbn -[core_of].
  destruct (Hpublish cn (Nats.subject (Nats.config (st w))) bytes (i32_wrap (Z.of_nat (length bytes))) (user w) Hup) as [Hs Hu].
  destruct (natsConnection_Publish _ _ _ _ _) as [s1 u1]. cbn -[core_of] in *. rewrite Hc. cbn.
  destruct (contains _ c); [|by exists (st w), u1].
  destruct (Hflush cn 5000%Z u1 Hu) as [Hs2 Hu2]. destruct (natsConnection_FlushTimeout _ _ _) as [s2 u2].
  cbn in *. exists (st w), u2. by rewrite Hs2.
Qed.
End nats.

Section redis.
Context `{!RedisLib U} (Hpublish : ∀ p ch b u, transmits b u (redis_publish p ch b u)).

#[export] Instance redis_wire :
  WireAdapter (Redis.dispatch (U := U)) (λ s, Redis.format (Redis.config s)) (λ s u, is_Some (publisher s) ∧ up u) (λ _, sent).
Proof.
  intros v w c bytes [[p Hp] Hup] Hc Henc. unfold Redis.dispatch, payload_bytes, lib, catch_all.
  unfold mbind, comp_bind, gets, get_world, lift. cbn -[encode_payload].
  rewrite Hp. cbn -[encode_payload]. rewrite Henc. cbn.
  destruct (Hpublish p (Redis.channel (Redis.config (st w))) bytes (user w) Hup) as ([a Ha] & Hs & Hu).
  destruct (redis_publish _ _ _ _) as [o u]. cbn in *. subst o. by exists (st w), u.
Qed.
End redis.

Section mqtt.
Context `{!MqttLib U}.
Context (Hmessage : ∀ t b q, ∃ m, Mqtt.make_message t b q false = Ret m ∧
  ∀ c u, transmits b u (client_publish c m u)).
Context (Hwait : ∀ t ms u, up u → (∃ b, (token_wait_for t ms u).1 = Ret b) ∧
  sent (token_wait_for t ms u).2 = sent u ∧ up (token_wait_for t ms u).2).

#[export] Instance mqtt_wire :
  WireAdapter (Mqtt.dispatch (U := U)) (λ s, Mqtt.format (Mqtt.config s)) (λ s u, is_Some (client s) ∧ up u) (λ _, sent).
Proof.
  intros v w c bytes [[cl Hcl] Hup] Hc Henc. unfold Mqtt.dispatch, payload_bytes, requires_ack, lib.
  unfold mbind, comp_bind, gets, get_world, lift, read_core. cbn -[core_of encode_payload].
  rewrite Hcl. cbn -[core_of encode_payload]. rewrite Henc. cbn -[core_of].
  destruct (Hmessage (Mqtt.topic (Mqtt.config (st w))) bytes (qos (Mqtt.config (st w)))) as (m & -> & Hpub). cbn -[core_of].
  destruct (Hpub cl (user w) Hup) as ([tok Htok] & Hs & Hu).
  destruct (client_publish _ _ _) as [o u1]. cbn -[core_of] in *. subst o. rewrite Hc. cbn.
  destruct (contains _ c); [|by exists (st w), u1].
  destruct (Hwait tok 5000%Z u1 Hu) as ([b Hb] & Hs2 & Hu2). destruct (token_wait_for _ _ _) as [o u2].
  cbn in *. subst o. exists (st w), u2. by rewrite Hs2.
Qed.
End mqtt.

Section zmq.
Context `{!ZmqLib U} (Hsend : ∀ s b u, transmits b u (socket_send s b u)).

#[export] Instance zmq_wire :
  WireAdapter (Zmq.dispatch (U := U)) (λ s, Zmq.format (Zmq.config s)) (λ s u, is_Some (outbound s) ∧ up u) (λ _, sent).
Proof.
  intros v w c bytes [[s Hsock] Hup] Hc Henc. unfold Zmq.dispatch, payload_bytes, lib, catch_all.
  unfold mbind, comp_bind, gets, get_world, lift. cbn -[encode_payload].
  rewrite Hsock. cbn -[encode_payload]. rewrite Henc. cbn.
  destruct (Hsend s bytes (user w) Hup) as ([a Ha] & Hs & Hu).
  destruct (socket_send _ _ _) as [o u]. cbn in *. subst o. by exists (st w), u.
Qed.
End zmq.

(** AMQP: the dispatch leaves the payload in the queue of the IO thread ([Streams] has
    what that thread does with it).  Without publisher confirms, nobody waits. *)
Section amqp.
Context `{!AmqpLib U}.
Context (Hwake : ∀ fd u, keeps_up u (sys_write_byte fd u)).

Definition amqp_bodies (ts : list task) : list (list Z) :=
  ts ≫= (λ t, match t with TaskPublish payload _ _ => [payload] | _ => [] end).

Record amqp_ready (s : AmqpState) (u : U) : Prop := {
  ready_connection : is_Some (connection (link s));
  ready_channel : is_Some (Amqp.channel (link s));
  ready_no_confirms : confirms_enabled (confirms s) = false;
  ready_queue : Forall is_publication (task_queue (io s));
  ready_ledger : ledger false [] s;
  ready_up : up u;
}.

Definition amqp_taken (s : AmqpState) (u : U) : list (list Z) := sent u ++ amqp_bodies (task_queue (io s)).

Context `{!BusLink U AmqpState} (h : host U AmqpState).

#[export] Instance amqp_wire waiting :
  WireAdapter (Amqp.dispatch h waiting) (λ s, Amqp.format (Amqp.config s)) amqp_ready amqp_taken.
Proof.
  intros v w c bytes [[cn Hcn] Hch Hen Hq Hl Hup] Hc Henc. unfold Amqp.dispatch.
  rewrite run_gets, Hcn, run_gets, run_payload, Henc, (run_requires_ack v c _ w Hc), run_gets, Hen, andb_false_r.
  unfold Amqp.post. rewrite run_modify. unfold wake. rewrite run_gets. set (t := TaskPublish _ _ _).
  set (s' := on_io (λ i, set_task_queue (task_queue i ++ [t]) i) (st w)).
  assert (amqp_bodies (task_queue (io s')) = amqp_bodies (task_queue (io (st w))) ++ [bytes]) as Hb
    by (unfold amqp_bodies; simpl; by rewrite bind_app).
  assert (∀ u, up u → amqp_ready s' u) as Hready.
  { intros u Hu. constructor; [by eexists|done|done| |by apply ledger_queued, ledger_add|done].
    apply Forall_app. split; [done|]. by repeat constructor. }
  cbn [st with_members]. fold s'. destruct (_ <? 0)%Z.
  - exists s', (user w). split; [done|]. unfold amqp_taken. rewrite Hb, (assoc_L (++)). by split_and!; [|apply Hready|].
  - destruct (Hwake (wakeup_pipe (io s')).2 (user w) Hup) as [Hs Hu].
    exists s', (sys_write_byte (wakeup_pipe (io s')).2 (user w)). split; [done|].
    unfold amqp_taken. rewrite Hb, Hs, (assoc_L (++)). by split_and!; [|apply Hready|].
Qed.
End amqp.
End adapters.

(** ** Publishing through one remote transport *)

Section publishing.
Context `{Externals} {U : Type} (h : host U BusState) (t : obj).
Implicit Types w : world U BusState.

(** [m], run from [w], ends in [w'], whatever it emits. *)
Definition reaches {A} (m : comp U BusState A) w (o : outcome A) w' : Prop := ∃ tr, m w = (o, w', tr).

Lemma reaches_bind {A B} (m : comp U BusState A) (f : A → comp U BusState B) w a w1 o w2 :
  reaches m w (Ret a) w1 → reaches (f a) w1 o w2 → reaches (m ≫= f) w o w2.
Proof.
  intros [tr1 H1] [tr2 H2]. exists (tr1 ++ tr2). unfold mbind, comp_bind. by rewrite H1, H2.
Qed.

Lemma reaches_ret {A} (a : A) w : reaches (mret a) w (Ret a) w.
Proof. by eexists. Qed.

Lemma reaches_lock_gets {A} (f : BusState → A) w :
  locked w = false → reaches (with_lock (gets f)) w (Ret (f (st w))) w.
Proof. exists []. by apply with_lock_gets. Qed.

(** The envelope's core once [publish] has stamped it, and the world in which the
    transport is called. *)
Definition stamped w (c : EnvelopeCore) : EnvelopeCore :=
  set_timestamps (set_published_at (time_at h (reads w)) (timestamps c)) c.
Definition world_stamped w (l : loc) (c : EnvelopeCore) : world U BusState :=
  World (<[l := stamped w c]> (heap w)) (locked w) (S (reads w)) (user w) (st w).

Lemma reaches_call_dispatch v w b v' w' :
  run h (CallDispatch t v) w = Reply (Ret b) v' w' → reaches (call_void h (CallDispatch t v)) w (Ret ()) w'.
Proof.
  intros Hrun. exists [EvCall (CallDispatch t v)].
  unfold call_void, call_fn, call_ref, mbind, comp_bind. rewrite Hrun. done.
Qed.

Lemma publish_through_remote w l d c b v' w2 :
  locked w = false → middleware_ (st w) = [] → transports_ (st w) = [t] → scope_of h t = Remote →
  heap w !! l = Some c → contains flags.LocalOnly c = false →
  (∀ n, 0 ≤ time_at h n ≤ i64_max)%Z →
  run h (CallDispatch t (MkEnvelope (Some l) d)) (world_stamped w l c) = Reply (Ret b) v' w2 →
  heap w2 = heap (world_stamped w l c) →
  reaches (publish_impl h (MkEnvelope (Some l) d)) w (Ret ())
    (World (heap w2) (locked w2) (S (reads w2)) (user w2) (st w2)).
Proof.
  intros Hlk Hmw Htr Hsc Hl Hlo Hclk Hrun Hheap. set (v := MkEnvelope (Some l) d) in *.
  set (w1 := world_stamped w l c) in *.
  assert (core_of (heap w) v = Ret c) as Hc by (unfold core_of; simpl; by rewrite Hl).
  assert (∃ n, env_name (heap w1) v = Ret n) as [n Hn].
  { unfold env_name, core_of. simpl. rewrite lookup_insert_eq. by eexists. }
  assert (contains flags.NoMiddleware (stamped w c) = contains flags.NoMiddleware c) as Hnm by done.
  eapply reaches_bind; [by exists []; unfold read_core; rewrite Hc|]. cbv zeta. rewrite Hlo, andb_false_l.
  eapply reaches_bind; [by exists []|].
  eapply reaches_bind; [exists []; unfold write_core; cbn [heap]; by rewrite Hc|].
  fold (stamped w c). set (w1' := set_heap _ _). assert (w1' = w1) as -> by done.
  eapply reaches_bind; [exists []; unfold name_of; by rewrite Hn|].
  eapply reaches_bind; [by eexists|].
  eapply reaches_bind; [exists []; unfold read_core, core_of; simpl; by rewrite lookup_insert_eq|].
  rewrite Hnm. eapply (reaches_bind _ _ _ [] w1).
  { destruct (negb _); [|by exists []]. pose proof (reaches_lock_gets middleware_ w1 Hlk) as Hr.
    change (st w1) with (st w) in Hr. by rewrite Hmw in Hr. }
  eapply (reaches_bind _ _ _ (true, v) w1); [destruct (negb _); by exists []|].
  eapply reaches_bind; [by apply reaches_lock_gets|]. cbn [st w1 world_stamped]. rewrite Htr.
  eapply reaches_bind; [by apply reaches_ret|]. cbn [fst snd].
  eapply (reaches_bind _ _ _ () w2).
  { unfold route, for_each, dispatch_one. rewrite Hsc.
    assert (admissible false (contains flags.RemoteOnly c) Remote = true) as ->
      by (unfold admissible; by destruct (contains flags.RemoteOnly c)).
    eapply (reaches_bind _ _ _ () w2); [|by eexists].
    eapply (reaches_bind _ _ _ () w2); [|by eexists].
    destruct (reaches_call_dispatch v w1 b v' w2 Hrun) as [tr Hcall]. exists tr. unfold catch_all. by rewrite Hcall. }
  eapply (reaches_bind _ _ _ v w2); [destruct (negb _); by exists []|].
  eapply reaches_bind; [by exists []|]. cbn [time_at].
  assert (in_i64 (time_at h (reads w2) - time_at h (reads w)) = true) as Hel.
  { apply in_i64_spec. pose proof (Hclk (reads w)). pose proof (Hclk (reads w2)).
    unfold is_i64, i64_min, i64_max in *. lia. }
  eapply reaches_bind; [exists []; unfold lift, clock_difference; by rewrite Hel|].
  rewrite <- Hheap in Hn. destruct (0 <=? _)%Z; [|by apply reaches_ret].
  eapply reaches_bind; [exists []; unfold name_of; cbn [heap]; by rewrite Hn|]. by eexists.
Qed.
End publishing.

(** ** From one bus to the listeners of another *)

Section end_to_end.
Context `{ExternalLaws} {V S U : Type}.

(** The publishing process: its adapter, and the rest of its user code. *)
Context (dispatch : EventEnvelope → comp V S ()) (fmt : S → Format) (ready : S → V → Prop) (sent : S → V → list (list Z)).
Context `{Hwire : !WireAdapter dispatch fmt ready sent}.
Context (leaf : host ((S * bool) * V) BusState) (t : obj) (mounted : obj → option (EventEnvelope → comp ((S * bool) * V) BusState ())).

(** The receiving process. *)
Context (hB : host U BusState) (I : BusState → U → Prop) (own : obj) (others : obj → EventRegistry).
#[local] Instance receiving_link : BusLink U BusState := bus_link hB own others.

Lemma stamped_in_range (w : world ((S * bool) * V) BusState) c :
  (∀ n, 0 ≤ time_at leaf n ≤ i64_max)%Z → timestamps_in_range (timestamps c) →
  timestamps_in_range (timestamps (stamped (mount leaf mounted) w c)).
Proof.
  intros Hclk (Hc & Hp & Hr & Hd & Hf). split_and!; [done| |done..]. simpl. intros u [= <-].
  pose proof (Hclk (reads w)). unfold is_i64, i64_min, i64_max in *. lia.
Qed.

Lemma mounted_dispatch_run (w : world ((S * bool) * V) BusState) v c bytes :
  mounted t = Some (λ v, hosted (dispatch v)) →
  ready (user w).1.1 (user w).2 → core_of (heap w) v = Ret c →
  encode_payload (fmt (user w).1.1) (heap w) v = Ret bytes →
  ∃ s u, run (mount leaf mounted) (CallDispatch t v) w =
    Reply (Ret true) v (World (heap w) (locked w) (reads w) ((s, (user w).1.2), u) (st w)) ∧
    sent s u = sent (user w).1.1 (user w).2 ++ [bytes] ∧ ready s u ∧ fmt s = fmt (user w).1.1.
Proof.
  intros Hm Hready Hc Henc. destruct w as [hp lk rd [[s sl] u] bs]. simpl in *. rewrite Hm.
  destruct (Hwire v (World hp sl rd u s) c bytes Hready Hc Henc) as (s' & u' & Hrun & Hs & Hr' & Hf).
  exists s', u'. split; [|done]. unfold reply_by, hosted. simpl. by rewrite Hrun.
Qed.

(** C10: what is published on one bus reaches the listeners of another.  The publishing
    bus has no middleware and a ready broker adapter as its only transport; the event is
    not LocalOnly, its payload encodes and its timestamps are in range.  Then publishing
    returns normally and gives the adapter exactly one message to send, over AMQP as a
    task for its IO thread.  Given to an attached adapter of any other process whose
    registry decodes the payload's type, that message is fanned out to the listeners of
    its bus as a fresh envelope with the same display information, id, metadata, links
    and payload, with the registered ones of the flags (the others are lost), with the
    timestamps cut to milliseconds, published at the time of the first process's clock
    and received at the time of the second's. *)
Theorem published_reaches_listeners (w : world ((S * bool) * V) BusState) (wB : world U BusState) name sup l d c p pj :
  mounted t = Some (λ v, hosted (dispatch v)) → transports_ (st w) = [t] → scope_of leaf t = Remote →
  middleware_ (st w) = [] → locked w = false → ready (user w).1.1 (user w).2 →
  (∀ n, 0 ≤ time_at leaf n ≤ i64_max)%Z →
  heap w !! l = Some c → contains flags.LocalOnly c = false →
  payload_cell c = Some p → cell_to_json p = Ret pj → timestamps_in_range (timestamps c) →
  civil hB I → (∀ s u, I s u → handlers_ok s) → good I wB →
  reg_cell_from_json (snapshot (registry_now own others (default own sup) wB)) pj = Ret p →
  let l' := fresh (dom (heap wB)) in
  ∃ w' tr bytes c',
    publish_impl (mount leaf mounted) (MkEnvelope (Some l) d) w = (Ret (), w', tr) ∧
    sent (user w').1.1 (user w').2 = sent (user w).1.1 (user w).2 ++ [bytes] ∧
    wire_image (set_timestamps (set_published_at (time_at leaf (reads w)) (timestamps c)) c) c' ∧
    deliver_payload hB name (fmt (user w).1.1) (install_sinks own SinkBus (new_Impl sup)) bytes wB =
    deliver_to_listeners hB (MkEnvelope (Some l') d)
      (World (<[l' := set_timestamps (set_received_at (time_at hB (reads wB)) (timestamps c')) c']> (heap wB))
         (locked wB) (Datatypes.S (reads wB)) (user wB) (st wB)).
Proof.
  intros Hm Htr Hsc Hmw Hlk Hready Hclk Hl Hlo Hp Hpj Hts Hciv Hok Hg Hreg l'.
  set (h := mount leaf mounted). set (w1 := world_stamped h w l c).
  assert (heap w1 !! l = Some (stamped h w c)) as Hl1 by apply lookup_insert_eq.
  destruct (remote_roundtrip hB I own others w1 wB (fmt (user w).1.1) name sup l d (stamped h w c) p pj)
    as (bytes & c' & Henc & Himg & _ & Hdel); [done..|by apply stamped_in_range|].
  destruct (mounted_dispatch_run w1 (MkEnvelope (Some l) d) (stamped h w c) bytes) as (s & u & Hrun & Hs & _);
    [done|done|unfold core_of; simpl; by rewrite lookup_insert_eq|done|].
  destruct (publish_through_remote h t w l d c true _ _ Hlk Hmw Htr Hsc Hl Hlo Hclk Hrun) as [tr Hpub]; [done|].
  eexists _, tr, bytes, c'. split; [exact Hpub|]. split; [exact Hs|]. split; [exact Himg|]. exact Hdel.
Qed.
End end_to_end.

(** ** Witness: over the Redis adapter *)

#[local] Existing Instance Redis.toy_redis.

Definition redis_sent (u : toy redis_object) : list (list Z) := (toy_sent u).*2.

#[local] Instance toy_redis_wire :
  WireAdapter (Redis.dispatch (U := toy redis_object)) (λ s, Redis.format (Redis.config s))
    (λ s u, is_Some (publisher s) ∧ True) (λ _, redis_sent).
Proof.
  apply (redis_wire (λ _, True) redis_sent). intros p ch b u _. split; [by eexists|]. split; [|done].
  unfold redis_sent. simpl. by rewrite fmap_app.
Qed.

Definition online_redis : RedisState :=
  MkRedis Redis.toy_config (new_Impl None) (Some 7%positive) None None None true.

Abbreviation sender := ((RedisState * bool) * toy redis_object)%type.
Definition sending_world : world sender BusState :=
  World {[1%positive := sample_core]} false 0 ((online_redis, false), Toy {[ORedis 7%positive]} [] 0 false)
    (set_transports [5%positive] new_Bus).

Definition redis_mounted (t : obj) : option (EventEnvelope → comp sender BusState ()) :=
  if (t =? 5)%positive then Some (λ v, hosted (Redis.dispatch v)) else None.

Definition sending_host : host sender BusState :=
  scripted (λ _, Ret true) (λ _, 1000%Z) (λ _, Remote) (λ _, 0%Z).

Lemma published_reaches_listeners_witness :
  ∃ w' tr bytes c',
    publish_impl (mount sending_host redis_mounted) (MkEnvelope (Some 1%positive) None) sending_world = (Ret (), w', tr) ∧
    redis_sent (user w').2 = [bytes] ∧
    wire_image (set_timestamps (set_published_at 1000%Z (timestamps sample_core)) sample_core) c' ∧
    deliver_payload (BusLink0 := bus_link faulty_host 1 (λ _, new_EventRegistry)) faulty_host "redis" Json
      (install_sinks 1 SinkBus (new_Impl None)) bytes listening_world =
    deliver_to_listeners faulty_host (MkEnvelope (Some 1%positive) None)
      (World {[1%positive := set_timestamps (set_received_at 1000%Z (timestamps c')) c']} false 1 () (st listening_world)).
Proof.
  apply (published_reaches_listeners Redis.dispatch (λ s, Redis.format (Redis.config s))
    (λ s u, is_Some (publisher s) ∧ True) (λ _, redis_sent) sending_host 5%positive redis_mounted
    faulty_host (λ s _, handlers_ok s) 1%positive (λ _, new_EventRegistry) sending_world listening_world
    "redis" None 1%positive None sample_core (CCell "i64" 7) (ccell_to_json (CCell "i64" 7))).
  - reflexivity.
  - reflexivity.
  - reflexivity.
  - reflexivity.
  - reflexivity.
  - split; [by eexists|done].
  - intros n. change i64_max with 9223372036854775807%Z. simpl. lia.
  - reflexivity.
  - reflexivity.
  - reflexivity.
  - reflexivity.
  - split_and!; intros; simplify_eq/=; vm_compute; split; discriminate.
  - apply faulty_civil.
  - done.
  - split; [done|]. by repeat constructor.
  - vm_compute. reflexivity.
Defined.
