(* ===== verification/Streams.v ===== *)
(** * Streams of events ([include/conduit/bus.hpp], [transports/*/src/transport.cpp])

    A sequence of events published on one bus, over any adapter of [WireAdapter], and
    the listeners of another bus: whom they reach, with what, and in which order.  The
    delivery is the part of a bus's trace that user code sees of it ([delivery_of]);
    [deliveries] is what one envelope comes to, given the listeners. *)

From S2P Require Import Prelude Exceptions External Flags Instances Envelope EnvelopeWire Serialization SerializationProps Glob.
From S2P Require Import World WorldLogic WorldSafety Hosts Bus BusTraces BusSafety Transport Mount Adapter AdapterProps ToyClient Redis Amqp AmqpLedger AmqpProps EndToEnd.

(** ** Computations and the heap

    [frames R m]: the heap after [m] is [R]-related to the heap before. *)

Section frames.
Context `{Externals} {U S : Type} (R : gmap loc EnvelopeCore → gmap loc EnvelopeCore → Prop) `{!PreOrder R}.
Abbreviation comp := (comp U S).

Definition frames {A} (m : comp A) : Prop := ∀ w, R (heap w) (heap (world_after m w)).

Lemma frames_same {A} (m : comp A) : (∀ w, heap (world_after m w) = heap w) → frames m.
Proof. intros Hm w. by rewrite Hm. Qed.

Lemma frames_bind {A B} (m : comp A) (f : A → comp B) : frames m → (∀ a, frames (f a)) → frames (m ≫= f).
Proof.
  intros Hm Hf w. specialize (Hm w). unfold world_after, mbind, comp_bind in *.
  destruct (m w) as [[[a|e|u] w1] tr1]; [|done..]. specialize (Hf a w1). unfold world_after in Hf.
  destruct (f a w1) as [[o w2] tr2]. simpl in *. by etrans.
Qed.

Lemma frames_catch {A} (m : comp A) k : frames m → (∀ e, frames (k e)) → frames (catch_all m k).
Proof.
  intros Hm Hk w. specialize (Hm w). unfold world_after, catch_all in *.
  destruct (m w) as [[[a|e|u] w1] tr1]; [done| |done]. specialize (Hk e w1). unfold world_after in Hk.
  destruct (k e w1) as [[o w2] tr2]. simpl in *. by etrans.
Qed.

Lemma frames_noexcept {A} (m : comp A) : frames m → frames (noexcept m).
Proof. intros Hm w. specialize (Hm w). unfold world_after, noexcept in *. by destruct (m w) as [[[a|e|u] w1] tr1]. Qed.

Lemma frames_lock {A} (m : comp A) : frames m → frames (with_lock m).
Proof.
  intros Hm w. specialize (Hm (set_locked true w)). unfold world_after, with_lock in *.
  destruct (locked w); [done|]. by destruct (m (set_locked true w)) as [[? ?] ?].
Qed.

Lemma frames_for_each {A} (l : list A) body : (∀ x, frames (body x)) → frames (for_each l body).
Proof. intros Hb. induction l as [|x l IH]; simpl; [by apply frames_same|]. by apply frames_bind. Qed.

Context (h : host U S) (Hcalls : ∀ c w, R (heap w) (heap (r_world (run h c w)))).

Lemma frames_call_ref c : frames (call_ref h c).
Proof. intros w. apply Hcalls. Qed.

Lemma frames_call_void c : frames (call_void h c).
Proof.
  apply frames_bind; [|by intros ?; apply frames_same]. apply frames_bind; [apply frames_call_ref|].
  intros [[b|e] v]; by apply frames_same.
Qed.
End frames.

(** ** What a listener sees *)

Section deliveries.
Context `{Externals}.

(** A callable or an [EventListener], and the payload it is given; callables that take
    the envelope are given none. *)
Definition delivery : Type := (fn + obj) * option cell.

Definition delivery_of (e : event) : option delivery :=
  match e with
  | EvCall (CallTyped f p) => Some (inl f, Some p)
  | EvCall (CallOnEvent l p) => Some (inr l, Some p)
  | EvCall (CallHandler f _) => Some (inl f, None)
  | _ => None
  end.

Definition handler_delivery (c : EnvelopeCore) (k : handler) : option delivery :=
  match k with
  | HEnvelope f => Some (inl f, None)
  | HPayload T f => (λ p, (inl f, Some p)) <$> core_payload_as T c
  | HListener T l => l ← l; (λ p, (inr l, Some p)) <$> core_payload_as T c
  end.

(** What the fan-out of an envelope comes to: the listeners, in their order, that take
    its name, each with the payload if it is of its type. *)
Definition deliveries (ls : list ListenerEntry) (c : EnvelopeCore) : list delivery :=
  omap (λ e, handler_delivery c (le_handler e)) (List.filter (entry_matches (core_name c)) ls).

(** User code may change everything about an envelope but its payload. *)
Definition payloads_kept (hp hp' : gmap loc EnvelopeCore) : Prop :=
  ∀ l c, hp !! l = Some c → ∃ c', hp' !! l = Some c' ∧ payload_cell c' = payload_cell c.

Lemma error_not_delivery e : error_event e → delivery_of e = None.
Proof. by destruct e as [[]|]; try (intros [? ?]; done). Qed.

Lemma handler_calls_deliveries hp l d c c' k :
  hp !! l = Some c' → payload_cell c' = payload_cell c →
  omap delivery_of (handler_calls hp (MkEnvelope (Some l) d) k) = option_list (handler_delivery c k).
Proof.
  intros Hl Hp. assert (∀ T, core_payload_as T c' = core_payload_as T c) as HT.
  { intros T. unfold core_payload_as. by rewrite Hp. }
  unfold handler_calls, env_payload_as, core_of. simpl. rewrite Hl. simpl.
  destruct k as [T f|f|T [x|]]; simpl; [|done| |]; rewrite ?HT; by destruct (core_payload_as T c).
Qed.
End deliveries.

#[export] Instance payloads_kept_preorder `{Externals} : PreOrder payloads_kept.
Proof.
  split; [by intros hp l c ?; exists c|]. intros hp1 hp2 hp3 H12 H23 l c Hl.
  destruct (H12 l c Hl) as (c2 & Hl2 & Hp2). destruct (H23 l c2 Hl2) as (c3 & Hl3 & Hp3).
  exists c3. split; [done|congruence].
Qed.

(** ** One fan-out *)

Section fanout.
Context `{Externals} {U : Type} (h : host U BusState).
Context (Hkept : ∀ c w, payloads_kept (heap w) (heap (r_world (run h c w)))).
Implicit Types w : world U BusState.
Abbreviation kept := (frames payloads_kept).

Create HintDb kept.
#[local] Hint Resolve frames_catch frames_noexcept frames_lock frames_for_each frames_call_ref frames_call_void payloads_kept_preorder : kept.
#[local] Hint Extern 2 (frames _ (mbind _ _)) => apply frames_bind : kept.
#[local] Hint Extern 3 (frames _ _) => apply frames_same; [apply _|done] : kept.

Lemma run_on_error_kept v ep : kept (run_on_error h v ep).
Proof.
  apply frames_noexcept, frames_bind; [auto with kept..|]. intros snap.
  revert v. induction snap as [|m snap IH]; intros v; simpl; auto with kept.
Qed.

Lemma run_handler_kept k v : kept (run_handler h k v).
Proof.
  destruct k as [T f|f|T l]; simpl; [|by auto with kept|];
    (apply frames_bind; [auto with kept..|]); intros [p|]; try destruct l; auto with kept.
Qed.

Lemma deliver_one_kept v name e : kept (deliver_one h v name e).
Proof.
  unfold deliver_one. destruct (entry_matches name e); [|by auto with kept].
  apply frames_bind; [auto with kept..|]. intros _. apply frames_catch; [apply _|apply run_handler_kept|].
  intros ep. apply frames_bind; [auto with kept..|]. intros _. apply run_on_error_kept.
Qed.

(** The calls of one matching listener. *)
Lemma deliver_one_deliveries l d c c' name e w w' tr :
  heap w !! l = Some c' → payload_cell c' = payload_cell c → entry_matches name e = true →
  deliver_one h (MkEnvelope (Some l) d) name e w = (Ret (), w', tr) →
  omap delivery_of tr = option_list (handler_delivery c (le_handler e)).
Proof.
  intros Hl Hp Hm. unfold deliver_one. rewrite Hm. intros Hrun.
  apply bind_ret_inv in Hrun as (u & w1 & tr1 & tr2 & [= <- <- <-] & H2 & ->). simpl.
  apply catch_all_inv in H2 as [[Hr _]|(ep & w2 & tr3 & tr4 & Hr & He & ->)];
    pose proof (run_handler_trace _ _ _ _ _ _ _ Hr) as ->.
  - by apply handler_calls_deliveries with c'.
  - rewrite omap_app, (handler_calls_deliveries _ l d c c') by done.
    apply bind_ret_inv in He as (u & w3 & tr5 & tr6 & [= <- <- <-] & H6 & ->).
    pose proof (class_skips error_event delivery_of _ _ _ _ _ (run_on_error_emits h _ ep) error_not_delivery H6) as Hs.
    etrans; [|apply app_nil_r]. f_equal. exact Hs.
Qed.

Lemma deliver_loop_deliveries l d c name es w w' tr :
  (∃ c', heap w !! l = Some c' ∧ payload_cell c' = payload_cell c) →
  for_each es (deliver_one h (MkEnvelope (Some l) d) name) w = (Ret (), w', tr) →
  omap delivery_of tr = omap (λ e, handler_delivery c (le_handler e)) (List.filter (entry_matches name) es).
Proof.
  revert w tr. induction es as [|e es IH]; intros w tr (c' & Hl & Hp) Hrun; simpl in Hrun.
  { by injection Hrun as <- <-. }
  apply bind_ret_inv in Hrun as ([] & w1 & tr1 & tr2 & H1 & H2 & ->). rewrite omap_app.
  assert (∃ c1, heap w1 !! l = Some c1 ∧ payload_cell c1 = payload_cell c) as Hc1.
  { pose proof (deliver_one_kept (MkEnvelope (Some l) d) name e w) as Hk.
    unfold world_after in Hk. rewrite H1 in Hk. destruct (Hk l c' Hl) as (c1 & ? & ?).
    exists c1. split; [done|congruence]. }
  rewrite (IH _ _ Hc1 H2). simpl. destruct (entry_matches name e) eqn:Hm.
  - rewrite (deliver_one_deliveries l d c c' name e w w1 tr1) by done. simpl.
    by destruct (handler_delivery c (le_handler e)).
  - unfold deliver_one in H1. rewrite Hm in H1. by injection H1 as <- <-.
Qed.

Lemma deliver_deliveries l d c w w' tr :
  heap w !! l = Some c → deliver_to_listeners h (MkEnvelope (Some l) d) w = (Ret (), w', tr) →
  omap delivery_of tr = deliveries (listeners_ (st w)) c.
Proof.
  intros Hl (es & w1 & tr1 & tr2 & H1 & H2 & ->)%bind_ret_inv.
  apply with_lock_gets_ret in H1 as (-> & -> & ->).
  apply bind_ret_inv in H2 as (name & w2 & tr3 & tr4 & H3 & H4 & ->).
  unfold name_of, env_name, core_of in H3. simpl in H3. rewrite Hl in H3. injection H3 as <- <- <-.
  simpl. eapply deliver_loop_deliveries, H4. by exists c.
Qed.
End fanout.

(** ** Receiving a stream *)

(** A core that has been published at [t]. *)
Definition published_core `{Externals} (t : time_point) (c : EnvelopeCore) : EnvelopeCore :=
  set_timestamps (set_published_at t (timestamps c)) c.

(** [bytes] is what an adapter makes of an envelope with this display information and
    this core, once it has been published at some time. *)
Definition carries `{Externals} (fmt : Format) (d : display_info) (c : EnvelopeCore) (bytes : list Z) : Prop :=
  ∃ t l, (0 ≤ t ≤ i64_max)%Z ∧ encode_payload fmt {[l := published_core t c]} (MkEnvelope (Some l) d) = Ret bytes.

Lemma published_in_range `{Externals} t c :
  (0 ≤ t ≤ i64_max)%Z → timestamps_in_range (timestamps c) → timestamps_in_range (timestamps (published_core t c)).
Proof.
  intros Ht (Hc & Hp & Hr & Hd & Hf). split_and!; [done| |done..]. simpl. intros u [= <-].
  unfold is_i64, i64_min, i64_max in *. lia.
Qed.

Lemma deliveries_payload `{Externals} ls c c' : payload_cell c = payload_cell c' → deliveries ls c = deliveries ls c'.
Proof.
  intros Hp. assert (core_name c = core_name c') as Hn by (unfold core_name; by rewrite Hp).
  assert (∀ k, handler_delivery c k = handler_delivery c' k) as Hk.
  { intros k. unfold handler_delivery, core_payload_as. by rewrite Hp. }
  unfold deliveries. rewrite Hn. apply list_omap_ext. by induction (List.filter _ ls); constructor.
Qed.

Section receiving.
Context `{ExternalLaws} {U : Type} (h : host U BusState) (I : BusState → U → Prop) (es : list ListenerEntry).
Context (own : obj) (others : obj → EventRegistry) (name : string) (fmt : Format) (sup : option obj).
Context (Hciv : civil h I) (Hok : ∀ s u, I s u → handlers_ok s ∧ listeners_ s = es).
Context (Hkept : ∀ c w, payloads_kept (heap w) (heap (r_world (run h c w)))).
#[local] Instance stream_link : BusLink U BusState := bus_link h own others.
Implicit Types w : world U BusState.

(** The registry that the adapter decodes with knows the payload, whenever it is asked. *)
Definition resolves (p : cell) : Prop := ∃ pj, cell_to_json p = Ret pj ∧
  ∀ w, good I w → reg_cell_from_json (snapshot (registry_now own others (default own sup) w)) pj = Ret p.

Definition attached_impl : Impl := install_sinks own SinkBus (new_Impl sup).

Lemma receive_carried c d p bytes w :
  payload_cell c = Some p → resolves p → timestamps_in_range (timestamps c) → carries fmt d c bytes → good I w →
  ∃ w' tr, deliver_payload h name fmt attached_impl bytes w = (Ret (), w', tr) ∧ good I w' ∧
           omap delivery_of tr = deliveries es c.
Proof.
  intros Hp (pj & Hpj & Hreg) Hts (t & l & Ht & Henc) Hg. set (c1 := published_core t c) in *.
  assert (∀ s u, I s u → handlers_ok s) as Hok' by (intros; by eapply Hok).
  destruct (remote_roundtrip h I own others (World (S := ()) {[l := c1]} false 0 () ()) w fmt name sup l d c1 p pj)
    as (bytes' & c' & Henc' & Himg & _ & Hdel);
    [done|done|done|apply lookup_singleton_eq|done|done|by apply Hreg|by apply published_in_range|].
  cbn [heap] in Henc'. rewrite Henc in Henc'. injection Henc' as <-. 
  assert (deliver_payload h name fmt attached_impl bytes w = _) as -> by exact Hdel.
  set (w3 := World _ _ _ _ _). set (l' := fresh _) in *.
  assert (heap w3 !! l' = Some (set_timestamps (set_received_at (time_at h (reads w)) (timestamps c')) c')) as Hl'
    by apply lookup_insert_eq.
  destruct (deliver_wp h I Hciv Hok' (MkEnvelope (Some l') d) w3) as (o & w4 & tr & Hrun & _ & Hg4 & _ & [] & -> & _);
    [exact Hg|by eexists l', _|].
  exists w4, tr. split; [done|]. split; [done|].
  rewrite (deliver_deliveries h Hkept l' d _ w3 w4 tr Hl' Hrun). change (st w3) with (st w).
  destruct Hg as [_ Hi]. destruct (Hok _ _ Hi) as [_ ->]. apply deliveries_payload. simpl. by rewrite (wi_payload _ _ Himg).
Qed.

Lemma receive_stream (cs : list (display_info * EnvelopeCore)) bytess w :
  Forall (λ x, timestamps_in_range (timestamps x.2) ∧ ∃ p, payload_cell x.2 = Some p ∧ resolves p) cs →
  Forall2 (λ x, carries fmt x.1 x.2) cs bytess → good I w →
  ∃ w' tr, for_each bytess (λ b, deliver_payload h name fmt attached_impl b) w = (Ret (), w', tr) ∧ good I w' ∧
           omap delivery_of tr = cs ≫= (λ x, deliveries es x.2).
Proof.
  intros Hcs Hb. revert w Hcs. induction Hb as [|[d c] b cs bs Hx _ IH]; intros w Hcs Hg.
  { by exists w, []. }
  apply Forall_cons in Hcs as [[Hts (p & Hp & Hr)] Hcs']. simpl in *.
  destruct (receive_carried c d p b w) as (w1 & tr1 & Hrun1 & Hg1 & Htr1); [done..|].
  destruct (IH w1 Hcs' Hg1) as (w2 & tr2 & Hrun2 & Hg2 & Htr2).
  exists w2, (tr1 ++ tr2). unfold mbind at 1, comp_bind at 1. rewrite Hrun1. rewrite Hrun2.
  split; [done|]. split; [done|]. by rewrite omap_app, Htr1, Htr2.
Qed.
End receiving.

(** ** Publishing a stream *)

(** Cores that differ by publications only. *)
Definition restamped `{Externals} (c c' : EnvelopeCore) : Prop :=
  c' = c ∨ ∃ t, (0 ≤ t ≤ i64_max)%Z ∧ c' = published_core t c.

#[export] Instance restamped_preorder `{Externals} : PreOrder restamped.
Proof.
  split; [by left|]. intros c1 c2 c3 H12 [->|(t & Ht & ->)]; [done|]. right. exists t. split; [done|].
  destruct H12 as [->|(t' & _ & ->)]; [done|]. by destruct c1.
Qed.

Lemma restamped_published `{Externals} t c c' : restamped c c' → published_core t c' = published_core t c.
Proof. intros [->|(t' & _ & ->)]; [done|]. by destruct c. Qed.

(** An element of a stream: where its core is, its display information, and the core
    before the first publication. *)
Record element `{Externals} := Element { el_loc : loc; el_display : display_info; el_core : EnvelopeCore }.
Arguments Element {_} _ _ _.
Definition el_envelope `{Externals} (x : element) : EventEnvelope := MkEnvelope (Some (el_loc x)) (el_display x).

Definition publishable `{Externals} (c : EnvelopeCore) : Prop :=
  contains flags.LocalOnly c = false ∧ timestamps_in_range (timestamps c) ∧
  ∃ p pj, payload_cell c = Some p ∧ cell_to_json p = Ret pj.

Lemma restamped_publishable `{Externals} c c' : restamped c c' → publishable c → publishable c'.
Proof. intros [->|(t & Ht & ->)] (Hl & Hts & Hp); [done|]. split_and!; [done|by apply published_in_range|done]. Qed.

Lemma publishable_encodes `{Externals} fmt hp l d c :
  hp !! l = Some c → publishable c → ∃ bytes, encode_payload fmt hp (MkEnvelope (Some l) d) = Ret bytes.
Proof.
  intros Hl (_ & _ & p & pj & Hp & Hpj). rewrite (encode_payload_live fmt hp l d c Hl).
  unfold to_json. rewrite Hp. simpl. rewrite Hpj. simpl. by destruct fmt; eexists.
Qed.

Section publishing.
Context `{ExternalLaws} {V S : Type}.
Context (dispatch : EventEnvelope → comp V S ()) (fmt : S → Format) (ready : S → V → Prop) (sent : S → V → list (list Z)).
Context `{Hwire : !WireAdapter dispatch fmt ready sent}.
Context (leaf : host ((S * bool) * V) BusState) (t : obj)
  (mounted : obj → option (EventEnvelope → comp ((S * bool) * V) BusState ())).
Context (Hm : mounted t = Some (λ v, hosted (dispatch v))) (Hsc : scope_of leaf t = Remote).
Context (Hclk : ∀ n, (0 ≤ time_at leaf n ≤ i64_max)%Z).
Abbreviation h := (mount leaf mounted).
Implicit Types w : world ((S * bool) * V) BusState.

(** The publishing process: one transport, which is ready, and no middleware. *)
Definition sending w : Prop :=
  transports_ (st w) = [t] ∧ middleware_ (st w) = [] ∧ locked w = false ∧ ready (user w).1.1 (user w).2.

(** The cores are where the elements say, but for earlier publications. *)
Definition placed (hp : gmap loc EnvelopeCore) (x : element) : Prop :=
  publishable (el_core x) ∧ ∃ c, hp !! el_loc x = Some c ∧ restamped (el_core x) c.

Lemma publish_element x w :
  sending w → placed (heap w) x →
  ∃ w' bytes, reaches (publish_impl h (el_envelope x)) w (Ret ()) w' ∧ sending w' ∧
    sent (user w').1.1 (user w').2 = sent (user w).1.1 (user w).2 ++ [bytes] ∧
    fmt (user w').1.1 = fmt (user w).1.1 ∧ carries (fmt (user w).1.1) (el_display x) (el_core x) bytes ∧
    (∀ y, placed (heap w) y → placed (heap w') y).
Proof.
  destruct x as [l d c0]. intros (Htr & Hmw & Hlk & Hready) [Hpub (c & Hl & Hre)]. simpl in *.
  pose proof (restamped_publishable _ _ Hre Hpub) as Hc. destruct Hc as (Hlo & _).
  set (w1 := world_stamped h w l c).
  assert (heap w1 !! l = Some (published_core (time_at leaf (reads w)) c)) as Hl1 by apply lookup_insert_eq.
  assert (restamped c0 (published_core (time_at leaf (reads w)) c)) as Hre1 by (etrans; [exact Hre|right; by eexists]).
  destruct (publishable_encodes (fmt (user w).1.1) (heap w1) l d _ Hl1) as [bytes Henc];
    [by eapply restamped_publishable|].
  destruct (mounted_dispatch_run dispatch fmt ready sent leaf t mounted w1 (MkEnvelope (Some l) d)
    (published_core (time_at leaf (reads w)) c) bytes) as (s & u & Hrun & Hs & Hready' & Hf);
    [done|done|unfold core_of; simpl; by rewrite lookup_insert_eq|done|].
  eexists _, bytes. split; [by apply (publish_through_remote h t w l d c true _ _ Hlk Hmw Htr Hsc Hl Hlo Hclk Hrun)|].
  split; [by split_and!|]. split; [exact Hs|]. split; [exact Hf|]. split.
  - exists (time_at leaf (reads w)), l. split; [done|]. rewrite <- Henc, <- (restamped_published _ _ _ Hre).
    by rewrite (encode_payload_live _ _ l d _ (lookup_singleton_eq _ _)), (encode_payload_live _ _ l d _ Hl1).
  - intros [l' d' c0'] [Hp' (c' & Hl' & Hre')]. split; [done|]. simpl in *.
    destruct (decide (l = l')) as [<-|Hne]; [|exists c'; by rewrite lookup_insert_ne].
    rewrite Hl in Hl'. injection Hl' as <-. eexists. split; [apply lookup_insert_eq|]. etrans; [exact Hre'|right; by eexists].
Qed.

Lemma publish_stream xs w :
  sending w → Forall (placed (heap w)) xs →
  ∃ w' bytess, reaches (for_each xs (λ x, publish_impl h (el_envelope x))) w (Ret ()) w' ∧ sending w' ∧
    sent (user w').1.1 (user w').2 = sent (user w).1.1 (user w).2 ++ bytess ∧
    Forall2 (λ x, carries (fmt (user w).1.1) (el_display x) (el_core x)) xs bytess.
Proof.
  revert w. induction xs as [|x xs IH]; intros w Hw Hxs; simpl.
  { exists w, []. split; [apply reaches_ret|]. split; [done|]. by rewrite app_nil_r. }
  apply Forall_cons in Hxs as [Hx Hxs].
  destruct (publish_element x w Hw Hx) as (w1 & b & Hr1 & Hw1 & Hs1 & Hf1 & Hc1 & Hpl).
  destruct (IH w1) as (w2 & bs & Hr2 & Hw2 & Hs2 & Hc2); [done|by eapply Forall_impl|].
  rewrite Hf1 in Hc2. exists w2, (b :: bs). split; [by eapply reaches_bind|]. split; [done|].
  split; [|by constructor]. by rewrite Hs2, Hs1, <- (assoc_L (++)).
Qed.
End publishing.

(** ** Receiving what was published

    The receiving process: its user code keeps the listeners [es] and the payloads. *)

Record receiver `{Externals} {U : Type} (h : host U BusState) (I : BusState → U → Prop) (es : list ListenerEntry) : Prop := {
  recv_civil : civil h I;
  recv_listeners : ∀ s u, I s u → handlers_ok s ∧ listeners_ s = es;
  recv_payloads : ∀ c w, payloads_kept (heap w) (heap (r_world (run h c w)));
}.

Section elements.
Context `{ExternalLaws} {U : Type} (h : host U BusState) (I : BusState → U → Prop) (es : list ListenerEntry).
Context (own : obj) (others : obj → EventRegistry) (name : string) (sup : option obj).
#[local] Instance element_link : BusLink U BusState := bus_link h own others.

Lemma receive_elements fmt hp (xs : list element) bytess (w : world U BusState) :
  receiver h I es → Forall (placed hp) xs →
  (∀ x p, x ∈ xs → payload_cell (el_core x) = Some p → resolves I own others sup p) →
  Forall2 (λ x, carries fmt (el_display x) (el_core x)) xs bytess → good I w →
  ∃ w' tr, for_each bytess (deliver_payload h name fmt (attached_impl own sup)) w = (Ret (), w', tr) ∧
           omap delivery_of tr = xs ≫= (λ x, deliveries es (el_core x)).
Proof.
  intros [Hciv Hok Hkept] Hxs Hreg Hc Hw.
  destruct (receive_stream h I es own others name fmt sup Hciv Hok Hkept
    ((λ x, (el_display x, el_core x)) <$> xs) bytess w) as (w' & tr & Hrun & _ & Htr);
    [|by apply Forall2_fmap_l|done|].
  - apply Forall_fmap, Forall_forall. intros x Hx. rewrite Forall_forall in Hxs.
    destruct (Hxs x Hx) as [(_ & Hts & p & pj & Hp & _) _]. split; [done|]. exists p. split; [done|by eapply Hreg].
  - exists w', tr. split; [done|]. rewrite Htr. clear. induction xs as [|x xs IH]; [done|]. simpl. f_equal. exact IH.
Qed.
End elements.

(** ** From bus to bus, in order *)

Section streams.
Context `{ExternalLaws} {V S U : Type}.

(** The publishing process. *)
Context (dispatch : EventEnvelope → comp V S ()) (fmt : S → Format) (ready : S → V → Prop) (sent : S → V → list (list Z)).
Context `{Hwire : !WireAdapter dispatch fmt ready sent}.
Context (leaf : host ((S * bool) * V) BusState) (t : obj)
  (mounted : obj → option (EventEnvelope → comp ((S * bool) * V) BusState ())).

(** The receiving process. *)
Context (hB : host U BusState) (I : BusState → U → Prop) (es : list ListenerEntry).
Context (own : obj) (others : obj → EventRegistry) (name : string) (sup : option obj).
#[local] Instance receiving_side : BusLink U BusState := bus_link hB own others.

(** C11: a stream keeps its order.  The publishing bus has no middleware and a ready
    broker adapter as its only transport; each event is not LocalOnly, has a payload that
    encodes, of a type that the receiver's registry resolves whenever it is asked, and
    timestamps in range; the receiver's callbacks keep its listeners, and the payloads of
    envelopes, as they are.  Then publishing any sequence of such events returns normally
    and gives the adapter one message for each, in order; and when these messages
    arrive in that order at an adapter attached to the other bus, each call returns, and
    the listeners of that bus are called event by event: all that take the event's name,
    in priority order, each once, the typed ones with the payload that was published. *)
Theorem stream_in_order (xs : list element) (w : world ((S * bool) * V) BusState) (wB : world U BusState) :
  mounted t = Some (λ v, hosted (dispatch v)) → scope_of leaf t = Remote →
  (∀ n, 0 ≤ time_at leaf n ≤ i64_max)%Z → sending ready t w → Forall (placed (heap w)) xs →
  receiver hB I es → good I wB →
  (∀ x p, x ∈ xs → payload_cell (el_core x) = Some p → resolves I own others sup p) →
  ∃ w' tr bytess wB' trB,
    for_each xs (λ x, publish_impl (mount leaf mounted) (el_envelope x)) w = (Ret (), w', tr) ∧
    sent (user w').1.1 (user w').2 = sent (user w).1.1 (user w).2 ++ bytess ∧
    for_each bytess (deliver_payload hB name (fmt (user w).1.1) (attached_impl own sup)) wB = (Ret (), wB', trB) ∧
    omap delivery_of trB = xs ≫= (λ x, deliveries es (el_core x)).
Proof.
  intros Hm Hsc Hclk Hw Hxs HB HwB Hreg.
  destruct (publish_stream dispatch fmt ready sent leaf t mounted Hm Hsc Hclk xs w Hw Hxs)
    as (w' & bytess & [tr Hrun] & _ & Hs & Hc).
  destruct (receive_elements hB I es own others name sup _ _ xs bytess wB HB Hxs Hreg Hc HwB) as (wB' & trB & HrunB & HtrB).
  by exists w', tr, bytess, wB', trB.
Qed.
End streams.

(** ** Over AMQP: what the IO thread does with a stream *)

Section amqp_streams.
Context `{ExternalLaws} {V : Type} `{!AmqpLib V} `{!BusLink V AmqpState} (hA : host V AmqpState).
Context (up : V → Prop) (handed : V → list amqp_message) (waiting : list (bool * bool)).

Definition bodies (u : V) : list (list Z) := m_body <$> handed u.

Lemma amqp_bodies_published c ts : m_body <$> (ts ≫= publication c) = amqp_bodies ts.
Proof. induction ts as [|[] ts IH]; simpl; [done|exact IH|f_equal; exact IH|exact IH|exact IH]. Qed.

Context (Hwake : ∀ fd u, keeps_up up bodies u (sys_write_byte fd u)).
Context (Hpublish : ∀ ch ex rk m u, handed (channel_publish ch ex rk m u).2 = handed u ++ [m] ∧
  ¬ is_undef (channel_publish ch ex rk m u).1.1 ∧ Forall confirm_event (channel_publish ch ex rk m u).1.2).

Lemma amqp_drained (w : world V AmqpState) :
  amqp_ready up (st w) (user w) →
  ∃ w', drain_tasks hA w = (Ret (), w', []) ∧ task_queue (io (st w')) = [] ∧
        bodies (user w') = amqp_taken bodies (st w) (user w).
Proof.
  intros [_ [ch Hch] _ Hq Hl _]. unfold drain_tasks. rewrite run_gets, run_modify.
  destruct (run_tasks_sends hA handed Hpublish false [] (task_queue (io (st w))) ch
    (with_members w (on_io (set_task_queue []) (st w)))) as (u & s' & Hrun & Hs & (_ & _ & Hq') & _);
    [done|done|by apply ledger_take|].
  eexists. split; [exact Hrun|]. split; [exact Hq'|]. unfold amqp_taken, bodies. cbn [user with_user with_members] in *.
  by rewrite Hs, fmap_app, amqp_bodies_published.
Qed.

Context (leaf : host ((AmqpState * bool) * V) BusState) (t : obj)
  (mounted : obj → option (EventEnvelope → comp ((AmqpState * bool) * V) BusState ())).

(** The receiving process. *)
Context {U : Type} (hB : host U BusState) (I : BusState → U → Prop) (es : list ListenerEntry).
Context (own : obj) (others : obj → EventRegistry) (sup : option obj).
#[local] Instance amqp_receiving_side : BusLink U BusState := bus_link hB own others.

(** C12: over AMQP a stream leaves through the IO thread.  The conditions on the
    publishing bus, on the events and on the receiver are those of the streams above
    (no middleware, this adapter as the only transport, events that may leave and encode,
    types that the receiver's registry resolves, callbacks that keep the receiver's
    listeners and the payloads); the adapter is connected, only publications are queued
    in it, and publisher confirms are off, so that no dispatch waits for an
    acknowledgement, not even one with RequireAck.  Then publishing a sequence of events
    only queues their payloads; when the thread then takes its queue, the library is
    handed what was queued before and the whole stream behind it, one message for each
    event, in order, whatever the library makes of each of them; and when the bodies of
    the stream arrive in that order at an adapter attached to the other bus, its listeners
    are called event by event, in priority order, with the payloads that were published. *)
Theorem amqp_stream_transmitted (xs : list element) (w : world ((AmqpState * bool) * V) BusState) (wB : world U BusState) :
  mounted t = Some (λ v, hosted (Amqp.dispatch hA waiting v)) → scope_of leaf t = Remote →
  (∀ n, 0 ≤ time_at leaf n ≤ i64_max)%Z → sending (amqp_ready up) t w → Forall (placed (heap w)) xs →
  receiver hB I es → good I wB →
  (∀ x p, x ∈ xs → payload_cell (el_core x) = Some p → resolves I own others sup p) →
  ∃ w' tr bytess wB' trB,
    (for_each xs (λ x, publish_impl (mount leaf mounted) (el_envelope x));; hosted (drain_tasks hA)) w = (Ret (), w', tr) ∧
    task_queue (io (user w').1.1) = [] ∧
    bodies (user w').2 = bodies (user w).2 ++ amqp_bodies (task_queue (io (user w).1.1)) ++ bytess ∧
    for_each bytess (deliver_payload hB "amqp" (Amqp.format (Amqp.config (user w).1.1)) (attached_impl own sup)) wB = (Ret (), wB', trB) ∧
    omap delivery_of trB = xs ≫= (λ x, deliveries es (el_core x)).
Proof.
  intros Hm Hsc Hclk Hw Hxs HB HwB Hreg.
  destruct (publish_stream (Amqp.dispatch hA waiting) (λ s, Amqp.format (Amqp.config s)) (amqp_ready up) (amqp_taken bodies)
    (Hwire := amqp_wire up bodies Hwake hA waiting) leaf t mounted Hm Hsc Hclk xs w Hw Hxs)
    as (w1 & bytess & [tr Hrun] & (_ & _ & _ & Hready) & Hs & Hc).
  destruct (receive_elements hB I es own others "amqp" sup _ _ xs bytess wB HB Hxs Hreg Hc HwB) as (wB' & trB & HrunB & HtrB).
  destruct w1 as [hp lk rd [[s sl] u] bs]. simpl in Hready, Hs.
  destruct (amqp_drained (World hp sl rd u s) Hready) as ([hp' sl' rd' u' s'] & Hd & Hq & Hb).
  eexists _, _, bytess, wB', trB. split; [|split; [|split; [|by split]]].
  - unfold mbind, comp_bind. rewrite Hrun. unfold hosted. simpl. rewrite Hd. done.
  - exact Hq.
  - simpl. simpl in Hb. rewrite Hb, Hs. unfold amqp_taken. by rewrite <- (assoc_L (++)).
Qed.
End amqp_streams.

(** ** Witnesses *)

#[local] Existing Instance Redis.toy_redis.
#[local] Existing Instance toy_redis_wire.

Definition tick_core (z : Z) : @EnvelopeCore concrete_externals :=
  set_payload_cell (Some (sample_cell "conduit:event:tick" z)) empty_core.

(** Two events, the first of them published twice. *)
Definition two_ticks : list element :=
  [Element 1%positive None (tick_core 7); Element 2%positive None (tick_core 8); Element 1%positive None (tick_core 7)].

Definition ticking_heap : gmap loc (@EnvelopeCore concrete_externals) :=
  <[1%positive := tick_core 7]> {[2%positive := tick_core 8]}.

Lemma ticks_placed : Forall (placed ticking_heap) two_ticks.
Proof.
  assert (∀ z, publishable (tick_core z)) as Hp.
  { intros z. split_and!; [done| |by eexists _, _]. split_and!; intros; simplify_eq/=; vm_compute; split; discriminate. }
  repeat (apply Forall_cons_2; [split; [apply Hp|eexists; split; [reflexivity|by left]]|]). apply Forall_nil_2.
Qed.

Definition ticking_world : world sender BusState :=
  World ticking_heap false 0
    ((online_redis, false), Toy {[ORedis 7%positive]} [] 0 false) (set_transports [5%positive] new_Bus).

(** A bus that knows the event's type, with a typed listener and one for every event,
    which throws. *)
Definition tick_listeners : list (@ListenerEntry concrete_externals) :=
  [MkEntry 2 (HPayload "tick" 2%positive) "tick" false 1; MkEntry 1 (HEnvelope 9%positive) "**" true 0].

Definition tick_bus : @BusState concrete_externals :=
  set_listeners tick_listeners (set_registry (add_descriptor (et_descriptor "tick") new_EventRegistry) new_Bus).

Lemma tick_receiver : receiver faulty_host (λ s _, s = tick_bus) tick_listeners.
Proof.
  split; [apply faulty_civil| |].
  - intros s u ->. split; [|done]. by repeat constructor.
  - intros c w l k Hl. exists k. by split.
Qed.

Lemma ticks_resolve x p :
  x ∈ two_ticks → payload_cell (el_core x) = Some p →
  resolves (U := ()) (λ s _, s = tick_bus) 1%positive (λ _, new_EventRegistry) None p.
Proof.
  intros Hx Hp. eexists. split; [done|]. intros w [_ Hst]. unfold registry_now. simpl. rewrite Hst.
  assert (cc_kind p = "conduit:event:tick") as Hk by (repeat (apply elem_of_cons in Hx as [->|Hx]; [by simplify_eq/=|]); by apply elem_of_nil in Hx).
  destruct p as [k z]. simpl in Hk. subst k. reflexivity.
Qed.

(** What the listeners of [tick_bus] see of [two_ticks]. *)
Definition ticks_seen : list (@delivery concrete_externals) :=
  [7; 8; 7]%Z ≫= (λ z, [(inl 2%positive, Some (sample_cell "conduit:event:tick" z)); (inl 9%positive, None)]).

Lemma stream_in_order_witness :
  ∃ w' tr bytess wB' trB,
    for_each two_ticks (λ x, publish_impl (mount sending_host redis_mounted) (el_envelope x)) ticking_world = (Ret (), w', tr) ∧
    redis_sent (user w').2 = bytess ∧
    for_each bytess (deliver_payload (BusLink0 := bus_link faulty_host 1 (λ _, new_EventRegistry)) faulty_host "redis" Json
      (attached_impl 1 None)) (World ∅ false 0 () tick_bus) = (Ret (), wB', trB) ∧
    omap delivery_of trB = ticks_seen.
Proof.
  apply (stream_in_order Redis.dispatch (λ s, Redis.format (Redis.config s)) (λ s u, is_Some (publisher s) ∧ True)
    (λ _, redis_sent) sending_host 5%positive redis_mounted faulty_host (λ s _, s = tick_bus) tick_listeners
    1%positive (λ _, new_EventRegistry) "redis" None two_ticks ticking_world (World ∅ false 0 () tick_bus)).
  - reflexivity.
  - reflexivity.
  - intros n. change i64_max with 9223372036854775807%Z. simpl. lia.
  - split_and!; [done..|by eexists|done].
  - apply ticks_placed.
  - apply tick_receiver.
  - done.
  - apply ticks_resolve.
Defined.

#[local] Existing Instance toy_amqp.
#[local] Existing Instance quiet_link.

(** An adapter without confirms, with a payload in the queue already. *)
Definition plain_adapter : AmqpState :=
  MkAmqp AmqpProps.toy_config (new_Impl None) (MkIo (3, 4)%Z 5 1 (Some 1%positive) true [TaskPublish [1]%Z "a" None])
    (MkLink (Some 2%positive) (Some 3%positive) None "q1" true true false "") (MkConfirms false 1 []) ∅ 1.

Lemma plain_ready : amqp_ready (λ _, True) plain_adapter (MkBroker [] 4 [] false).
Proof.
  constructor; [by eexists|by eexists|done|by repeat constructor| |done].
  assert (acks [] plain_adapter = []) as Ha by reflexivity.
  assert (others [] plain_adapter = []) as Ho by reflexivity.
  constructor; rewrite ?Ha, ?Ho; [constructor| | | |constructor|done].
  - by intros p ?%not_elem_of_nil.
  - by intros p ?%not_elem_of_nil.
  - intros p [?%not_elem_of_nil|[v Hv]]; [done|]. simpl in Hv. by rewrite lookup_empty in Hv.
Qed.

Definition plain_world : world ((AmqpState * bool) * broker) BusState :=
  World ticking_heap false 0
    ((plain_adapter, false), MkBroker [] 4 [] false) (set_transports [5%positive] new_Bus).

Definition amqp_mounted (t : obj) : option (EventEnvelope → comp ((AmqpState * bool) * broker) BusState ()) :=
  if (t =? 5)%positive then Some (λ v, hosted (Amqp.dispatch quiet_host [] v)) else None.

Definition amqp_sending_host : host ((AmqpState * bool) * broker) BusState :=
  scripted (λ _, Ret true) (λ _, 1000%Z) (λ _, Remote) (λ _, 0%Z).

Lemma amqp_stream_transmitted_witness :
  ∃ w' tr bytess wB' trB,
    (for_each two_ticks (λ x, publish_impl (mount amqp_sending_host amqp_mounted) (el_envelope x));;
     hosted (drain_tasks quiet_host)) plain_world = (Ret (), w', tr) ∧
    task_queue (io (user w').1.1) = [] ∧
    bodies b_sent (user w').2 = [[1]%Z] ++ bytess ∧
    for_each bytess (deliver_payload (BusLink0 := bus_link faulty_host 1 (λ _, new_EventRegistry)) faulty_host "amqp" Json
      (attached_impl 1 None)) (World ∅ false 0 () tick_bus) = (Ret (), wB', trB) ∧
    omap delivery_of trB = ticks_seen.
Proof.
  apply (amqp_stream_transmitted quiet_host (λ _, True) b_sent []) with (t := 5%positive) (xs := two_ticks) (w := plain_world)
    (hB := faulty_host) (I := λ s _, s = tick_bus) (es := tick_listeners) (own := 1%positive)
    (others := λ _, new_EventRegistry) (sup := None) (wB := World ∅ false 0 () tick_bus).
  - intros fd u _. by split.
  - intros ch ex rk m u. split; [done|]. split; [by intros [x [=]]|constructor].
  - reflexivity.
  - reflexivity.
  - intros n. change i64_max with 9223372036854775807%Z. simpl. lia.
  - split_and!; [done..|apply plain_ready].
  - apply ticks_placed.
  - apply tick_receiver.
  - done.
  - apply ticks_resolve.
Defined.
