(* ===== verification/Threads.v ===== *)
(** * Code cut into atomic sections, and threads that interleave them

    A [prog] is a computation of [World.v] cut at the points where another thread
    can run: between two critical sections, around an access to an atomic, around a
    call to user code.  [run_prog] runs the pieces without interruption and is a
    homomorphism for sequencing, [catch], [noexcept] and loops, so that a program
    can be shown equal to the definition it cuts.  [thread_step] interleaves the
    pieces of any number of threads. *)

From S2P Require Import Prelude Exceptions External Flags Envelope World.

(** ** Equality of computations *)

Section equality.
Context `{Externals} {U S : Type}.
Abbreviation comp := (comp U S).

#[export] Instance comp_equiv {A} : Equiv (comp A) := λ m m', ∀ w, m w = m' w.

#[export] Instance comp_equivalence {A} : Equivalence (≡@{comp A}).
Proof.
  split; [by intros m w|by intros m m' Hm w|].
  intros m1 m2 m3 H12 H23 w. by rewrite (H12 w).
Qed.

#[export] Instance comp_bind_proper {A B} :
  Proper (pointwise_relation A (≡) ==> (≡@{comp A}) ==> (≡@{comp B})) mbind.
Proof.
  intros f f' Hf m m' Hm w. unfold mbind, comp_bind. rewrite (Hm w).
  destruct (m' w) as [[[a|e|u] w1] tr1]; [|done|done]. by rewrite (Hf a w1).
Qed.

#[export] Instance catch_all_proper {A} :
  Proper ((≡@{comp A}) ==> pointwise_relation exn (≡) ==> (≡@{comp A})) catch_all.
Proof.
  intros m m' Hm k k' Hk w. unfold catch_all. rewrite (Hm w).
  destruct (m' w) as [[[a|e|u] w1] tr1]; [done| |done]. by rewrite (Hk e w1).
Qed.

#[export] Instance noexcept_proper {A} : Proper ((≡@{comp A}) ==> (≡@{comp A})) noexcept.
Proof. intros m m' Hm w. unfold noexcept. by rewrite (Hm w). Qed.

#[export] Instance for_each_proper {A} :
  Proper (eq ==> pointwise_relation A (≡) ==> (≡@{comp ()})) for_each.
Proof.
  intros l ? <- f g Hfg. induction l as [|x l IH]; simpl; [done|].
  apply comp_bind_proper; [by intros ?|apply Hfg].
Qed.

Lemma comp_ret_bind {A B} (a : A) (f : A → comp B) : (mret a ≫= f) ≡ f a.
Proof. intros w. unfold mbind, comp_bind, mret, comp_ret. by destruct (f a w) as [[? ?] ?]. Qed.

Lemma comp_bind_ret {A} (m : comp A) : (m ≫= mret) ≡ m.
Proof.
  intros w. unfold mbind, comp_bind, mret, comp_ret.
  destruct (m w) as [[[a|e|u] w1] tr1]; [|done|done]. by rewrite app_nil_r.
Qed.

Lemma comp_bind_assoc {A B C} (m : comp A) (f : A → comp B) (g : B → comp C) :
  ((m ≫= f) ≫= g) ≡ (m ≫= λ a, f a ≫= g).
Proof.
  intros w. unfold mbind, comp_bind.
  destruct (m w) as [[[a|e|u] w1] tr1]; [|done|done].
  destruct (f a w1) as [[[b|e|u] w2] tr2]; [|done|done].
  destruct (g b w2) as [[o w3] tr3]. by rewrite (assoc_L app).
Qed.
End equality.

(** ** Programs *)

Section prog.
Context {act : Type} {resp : act → Type}.

(** What is left of a thread: a result, or an action (one atomic section) and what
    to do with its answer.  The program raises exceptions, actions do not. *)
Inductive prog (A : Type) :=
  | Leaf (o : outcome A)
  | Act (a : act) (k : resp a → prog A).
#[global] Arguments Leaf {_} _.
#[global] Arguments Act {_} _ _.

#[export] Instance prog_ret : MRet prog := λ A a, Leaf (Ret a).
#[export] Instance prog_bind : MBind prog := λ A B f,
  fix go p :=
    match p with
    | Leaf (Ret a) => f a
    | Leaf (Throw e) => Leaf (Throw e)
    | Leaf (Undef u) => Leaf (Undef u)
    | Act a k => Act a (λ x, go (k x))
    end.

Definition do_act (a : act) : prog (resp a) := Act a (λ x, Leaf (Ret x)).
Definition p_lift {A} (o : outcome A) : prog A := Leaf o.

Fixpoint p_catch {A} (p : prog A) (h : exn → prog A) : prog A :=
  match p with
  | Leaf (Throw e) => h e
  | Leaf o => Leaf o
  | Act a k => Act a (λ x, p_catch (k x) h)
  end.

Fixpoint p_noexcept {A} (p : prog A) : prog A :=
  match p with
  | Leaf (Throw _) => Leaf (Undef Terminate)
  | Leaf o => Leaf o
  | Act a k => Act a (λ x, p_noexcept (k x))
  end.

Fixpoint p_for_each {A} (l : list A) (body : A → prog ()) : prog () :=
  match l with
  | [] => mret ()
  | x :: l => body x ≫= λ _, p_for_each l body
  end.

(** ** The actions a thread performs

    [path p l p']: with the answers recorded in [l], [p] gets to [p'].  Every
    answer is possible, so what holds of all paths holds under any interference. *)
Record done_act := Did { did : act; answer : resp did }.

Fixpoint path {A} (p : prog A) (l : list done_act) (p' : prog A) : Prop :=
  match l, p with
  | [], _ => p = p'
  | d :: l, Act a k => ∃ x, d = Did a x ∧ path (k x) l p'
  | _ :: _, Leaf _ => False
  end.

(** A path that ends. *)
Definition ends {A} (p : prog A) (l : list done_act) (o : outcome A) : Prop := path p l (Leaf o).
End prog.
Arguments prog {_} _ _.
Arguments done_act {_} _.

Section paths.
Context {act : Type} {resp : act → Type}.
Abbreviation prog := (prog resp).

Lemma ends_leaf {A} (o o' : outcome A) l : ends (Leaf o : prog A) l o' ↔ l = [] ∧ o' = o.
Proof.
  unfold ends. destruct l as [|d l]; simpl; [|naive_solver].
  split; [by intros [= ->]|by intros [_ ->]].
Qed.

Lemma ends_ret {A} (a : A) l o : ends (mret a : prog A) l o ↔ l = [] ∧ o = Ret a.
Proof. apply ends_leaf. Qed.

Lemma ends_act {A} a (k : resp a → prog A) l o :
  ends (Act a k) l o ↔ ∃ x l', l = Did a x :: l' ∧ ends (k x) l' o.
Proof. unfold ends. destruct l as [|d l]; simpl; naive_solver. Qed.

Lemma ends_do a l o :
  ends (do_act a : prog _) l o ↔ ∃ x, l = [Did a x] ∧ o = Ret x.
Proof.
  unfold do_act. rewrite ends_act. setoid_rewrite ends_leaf. naive_solver.
Qed.

Lemma ends_bind {A B} (p : prog A) (f : A → prog B) l o :
  ends (p ≫= f) l o ↔
  (∃ a l1 l2, l = l1 ++ l2 ∧ ends p l1 (Ret a) ∧ ends (f a) l2 o) ∨
  (∃ e, ends p l (Throw e) ∧ o = Throw e) ∨ (∃ u, ends p l (Undef u) ∧ o = Undef u).
Proof.
  revert l. induction p as [[a|e|u]|a k IH]; intros l.
  - change (Leaf (Ret a) ≫= f) with (f a). setoid_rewrite ends_leaf. split.
    + intros Hf. left. by exists a, [], l.
    + by intros [(b & l1 & l2 & -> & [-> [= ->]] & Hf)|[(e & [_ [=]] & _)|(u & [_ [=]] & _)]].
  - change (Leaf (Throw e) ≫= f) with (@Leaf _ resp B (Throw e)). setoid_rewrite ends_leaf. split.
    + intros [-> ->]. right. left. by exists e.
    + intros [(b & l1 & l2 & _ & [_ [=]] & _)|[(e' & [-> [= ->]] & ->)|(u & [_ [=]] & _)]]. done.
  - change (Leaf (Undef u) ≫= f) with (@Leaf _ resp B (Undef u)). setoid_rewrite ends_leaf. split.
    + intros [-> ->]. right. right. by exists u.
    + intros [(b & l1 & l2 & _ & [_ [=]] & _)|[(e & [_ [=]] & _)|(u' & [-> [= ->]] & ->)]]. done.
  - change (Act a k ≫= f) with (Act a (λ x, k x ≫= f)). repeat setoid_rewrite ends_act.
  setoid_rewrite IH. split.
  + intros (x & l' & -> & [(b & l1 & l2 & -> & H1 & H2)|[(e & He & ->)|(u & Hu & ->)]]).
    * left. exists b, (Did a x :: l1), l2. naive_solver.
    * right. left. naive_solver.
    * right. right. naive_solver.
  + intros [(b & l1 & l2 & -> & (x & l' & -> & H1) & H2)|[(e & (x & l' & -> & H1) & ->)|(u & (x & l' & -> & H1) & ->)]].
    * exists x, (l' ++ l2). naive_solver.
    * exists x, l'. naive_solver.
    * exists x, l'. naive_solver.
Qed.

Lemma ends_catch {A} (p : prog A) h l o :
  ends (p_catch p h) l o ↔
  (ends p l o ∧ ∀ e, o ≠ Throw e) ∨
  (∃ e l1 l2, l = l1 ++ l2 ∧ ends p l1 (Throw e) ∧ ends (h e) l2 o).
Proof.
  revert l. induction p as [[a|e|u]|a k IH]; intros l; simpl.
  - setoid_rewrite ends_leaf. split; [intros [-> ->]; by left|].
    by intros [[? _]|(e & l1 & l2 & _ & [_ [=]] & _)].
  - setoid_rewrite ends_leaf. split; [intros Hh; right; by exists e, [], l|].
    intros [[[-> ->] Hne]|(e' & l1 & l2 & -> & [-> [= ->]] & Hh)]; [by destruct (Hne e)|done].
  - setoid_rewrite ends_leaf. split; [intros [-> ->]; by left|].
    by intros [[? _]|(e & l1 & l2 & _ & [_ [=]] & _)].
  - repeat setoid_rewrite ends_act. setoid_rewrite IH. split.
    + intros (x & l' & -> & [[H1 H2]|(e & l1 & l2 & -> & H1 & H2)]).
      * left. split; [by exists x, l'|done].
      * right. exists e, (Did a x :: l1), l2. split; [done|]. split; [by exists x, l1|done].
    + intros [[(x & l' & -> & H1) H2]|(e & l1 & l2 & -> & (x & l' & -> & H1) & H2)].
      * exists x, l'. split; [done|]. by left.
      * exists x, (l' ++ l2). split; [done|]. right. by exists e, l', l2.
Qed.

Lemma ends_noexcept {A} (p : prog A) l a :
  ends (p_noexcept p) l (Ret a) → ends p l (Ret a).
Proof.
  revert l. induction p as [[b|e|u]|b k IH]; intros l; simpl.
  1-3: rewrite !ends_leaf; by intros [? ?].
  repeat setoid_rewrite ends_act. intros (x & l' & -> & Hx). exists x, l'. auto.
Qed.
End paths.

(** ** Running a program alone *)

Section run.
Context {act : Type} {resp : act → Type} `{Externals} {U S : Type}.
Abbreviation prog := (prog resp).
Abbreviation world := (world U S).

(** An action's effect; it cannot throw. *)
Definition effect (A : Type) : Type := world → (A + ub) * world * list event.

(** The effect of a section that is written as a computation. *)
Definition section_of {A} (m : comp U S A) : effect A := λ w,
  match m w with
  | (Ret a, w1, tr) => (inl a, w1, tr)
  | (Throw _, w1, tr) => (inr Terminate, w1, tr)
  | (Undef u, w1, tr) => (inr u, w1, tr)
  end.

Context (sem : ∀ a, effect (resp a)).

Fixpoint run_prog {A} (p : prog A) : comp U S A := λ w,
  match p with
  | Leaf o => (o, w, [])
  | Act a k =>
      match sem a w with
      | (inl x, w1, tr1) => let '(o, w2, tr2) := run_prog (k x) w1 in (o, w2, tr1 ++ tr2)
      | (inr u, w1, tr1) => (Undef u, w1, tr1)
      end
  end.

Lemma run_leaf {A} (a : A) : run_prog (mret a) ≡ mret a.
Proof. done. Qed.

Lemma run_lift {A} (o : outcome A) : run_prog (p_lift o) ≡ lift o.
Proof. done. Qed.

Lemma run_bind {A B} (p : prog A) (f : A → prog B) :
  run_prog (p ≫= f) ≡ (run_prog p ≫= λ a, run_prog (f a)).
Proof.
  induction p as [[a|e|u]|a k IH]; intros w; try done.
  - change (Leaf (Ret a) ≫= f) with (f a). by rewrite (comp_ret_bind a _ w).
  - change (Act a k ≫= f) with (Act a (λ x, k x ≫= f)). unfold mbind at 2, comp_bind. simpl.
    destruct (sem a w) as [[[x|u] w1] tr1]; [|done]. rewrite (IH x w1).
    unfold mbind, comp_bind. destruct (run_prog (k x) w1) as [[[b|e|u] w2] tr2]; [|done|done].
    destruct (run_prog (f b) w2) as [[o w3] tr3]. by rewrite (assoc_L app).
Qed.

Lemma run_catch {A} (p : prog A) h :
  run_prog (p_catch p h) ≡ catch_all (run_prog p) (λ e, run_prog (h e)).
Proof.
  induction p as [[a|e|u]|a k IH]; intros w; try done.
  - simpl. unfold catch_all. simpl. by destruct (run_prog (h e) w) as [[? ?] ?].
  - unfold catch_all. simpl.
    destruct (sem a w) as [[[x|u] w1] tr1]; [|done]. rewrite (IH x w1).
    unfold catch_all. destruct (run_prog (k x) w1) as [[[b|e|u] w2] tr2]; [done| |done].
    destruct (run_prog (h e) w2) as [[o w3] tr3]. by rewrite (assoc_L app).
Qed.

Lemma run_noexcept {A} (p : prog A) : run_prog (p_noexcept p) ≡ noexcept (run_prog p).
Proof.
  induction p as [[a|e|u]|a k IH]; intros w; try done.
  unfold noexcept. simpl.
  destruct (sem a w) as [[[x|u] w1] tr1]; [|done]. rewrite (IH x w1).
  unfold noexcept. by destruct (run_prog (k x) w1) as [[[b|e|u] w2] tr2].
Qed.

Lemma run_for_each {A} (l : list A) body :
  run_prog (p_for_each l body) ≡ for_each l (λ x, run_prog (body x)).
Proof.
  induction l as [|x l IH]; simpl; [done|]. rewrite run_bind.
  apply comp_bind_proper; [|done]. by intros ?.
Qed.

(** An action whose effect is a section that does not throw runs like it. *)
Lemma run_do a (m : comp U S (resp a)) :
  (∀ w, sem a w = section_of m w) → (∀ w e w' tr, m w ≠ (Throw e, w', tr)) →
  run_prog (do_act a) ≡ m.
Proof.
  intros Ha Hm w. simpl. rewrite Ha. unfold section_of.
  destruct (m w) as [[[x|e|u] w1] tr1] eqn:Hrun; [by rewrite app_nil_r| |done].
  by destruct (Hm w e w1 tr1).
Qed.
End run.

#[global] Arguments run_prog : simpl never.

Create HintDb thread_hom.

(** One step of a comparison of a program with a computation: the two sides have the
    same construct in front. *)
Ltac hom_step :=
  match goal with
  | |- run_prog _ (mbind _ _) ≡ _ => etrans; [apply run_bind|apply comp_bind_proper; [intros ?|]]
  | |- run_prog _ (p_catch _ _) ≡ _ => etrans; [apply run_catch|apply catch_all_proper; [|intros ?]]
  | |- run_prog _ (p_noexcept _) ≡ _ => etrans; [apply run_noexcept|apply noexcept_proper]
  | |- run_prog _ (p_for_each _ _) ≡ _ =>
      etrans; [apply run_for_each|apply for_each_proper; [done|intros ?]]
  | |- run_prog _ (Leaf _) ≡ _ => done
  | |- run_prog _ (p_lift _) ≡ _ => done
  | |- run_prog _ (mret _) ≡ _ => done
  | |- run_prog _ (match ?x with _ => _ end) ≡ _ => destruct x
  end.
Ltac hom := repeat (cbv beta; first [solve [auto with thread_hom nocore]|hom_step]).

(** ** Interleaving *)

Section interleaving.
Context {act : Type} {resp : act → Type} `{Externals} {U S : Type}.
Abbreviation prog := (prog resp).
Context (sem : ∀ a, @effect _ U S (resp a)).

(** [ops]: the programs a thread may start. *)
Context (ops : prog () → Prop).

Record config := Config {
  c_world : world U S;
  c_threads : gmap nat (prog ());
  c_history : list (nat * done_act resp);    (* oldest first *)
  c_trace : list event;
}.

Inductive thread_step : config → config → Prop :=
  | step_start i p w ts hist tr :
      ts !! i = None → ops p →
      thread_step (Config w ts hist tr) (Config w (<[i := p]> ts) hist tr)
  | step_act i a k x w w' ts hist tr tr' :
      ts !! i = Some (Act a k) → sem a w = (inl x, w', tr') →
      thread_step (Config w ts hist tr)
        (Config w' (<[i := k x]> ts) (hist ++ [(i, Did a x)]) (tr ++ tr'))
  | step_end i o w ts hist tr :
      ts !! i = Some (Leaf o) → ¬ is_undef o →    (* undefined behaviour does not end *)
      thread_step (Config w ts hist tr) (Config w (delete i ts) hist tr).

Definition interleaved : config → config → Prop := rtc thread_step.

(** What one thread did. *)
Definition of_thread (i : nat) (hist : list (nat * done_act resp)) : list (done_act resp) :=
  omap (λ d, if decide (d.1 = i) then Some d.2 else None) hist.

Definition initial (w : world U S) : config := Config w ∅ [] [].

(** A schedule, and the run that it gives. *)
Inductive move :=
  | Start (i : nat) (p : prog ())
  | Advance (i : nat)
  | Finish (i : nat).

Definition make_move (m : move) (c : config) : option config :=
  match m with
  | Start i p =>
      match c_threads c !! i with
      | None => Some (Config (c_world c) (<[i := p]> (c_threads c)) (c_history c) (c_trace c))
      | Some _ => None
      end
  | Advance i =>
      match c_threads c !! i with
      | Some (Act a k) =>
          match sem a (c_world c) with
          | (inl x, w, tr) =>
              Some (Config w (<[i := k x]> (c_threads c)) (c_history c ++ [(i, Did a x)]) (c_trace c ++ tr))
          | _ => None
          end
      | _ => None
      end
  | Finish i =>
      match c_threads c !! i with
      | Some (Leaf (Ret _)) | Some (Leaf (Throw _)) =>
          Some (Config (c_world c) (delete i (c_threads c)) (c_history c) (c_trace c))
      | _ => None
      end
  end.

Fixpoint make_moves (ms : list move) (c : config) : option config :=
  match ms with
  | [] => Some c
  | m :: ms => c' ← make_move m c; make_moves ms c'
  end.

Definition starts_ok (m : move) : Prop := match m with Start _ p => ops p | _ => True end.

Lemma make_moves_interleaved ms c c' :
  Forall starts_ok ms → make_moves ms c = Some c' → interleaved c c'.
Proof.
  intros Hms. revert c. induction Hms as [|m ms Hm _ IH]; intros c; simpl.
  { intros [= ->]. apply rtc_refl. }
  destruct (make_move m c) as [c1|] eqn:Hmove; [|done]. intros Hrest.
  eapply rtc_l; [|by apply IH]. destruct c as [w ts hist tr].
  destruct m as [i p|i|i]; simpl in *.
  - destruct (ts !! i) eqn:Hi; [done|]. simplify_eq. by constructor.
  - destruct (ts !! i) as [[o|a k]|] eqn:Hi; try done.
    destruct (sem a w) as [[[x|u] w1] tr1] eqn:Hsem; [|done]. simplify_eq. by econstructor.
  - destruct (ts !! i) as [[[a|e|u]|a k]|] eqn:Hi; try done; simplify_eq;
      (econstructor; [exact Hi|by intros [? ?]]).
Qed.

(** The end of a schedule that can be followed. *)
Definition end_of (ms : list move) (c : config) : config := default c (make_moves ms c).

Lemma end_of_interleaved ms c :
  Forall starts_ok ms → bool_decide (is_Some (make_moves ms c)) = true → interleaved c (end_of ms c).
Proof.
  intros Hms [c' Hc]%bool_decide_eq_true. unfold end_of. rewrite Hc. by eapply make_moves_interleaved.
Qed.
End interleaving.

Arguments move {_} _.

(** ** Protocols

    What a thread may do next, as an automaton over its actions: [follows q p Q] says
    that [p], started in phase [q], never does what the automaton refuses, whatever
    its actions are answered, and that it ends as [Q] says. *)

Section protocol.
Context {act : Type} {resp : act → Type} {Ph : Type}.
Abbreviation prog := (prog resp).
Context (δ : Ph → done_act resp → option Ph).

Fixpoint follows {A} (q : Ph) (p : prog A) (Q : outcome A → Ph → Prop) : Prop :=
  match p with
  | Leaf o => Q o q
  | Act a k => ∀ x, ∃ q', δ q (Did a x) = Some q' ∧ follows q' (k x) Q
  end.

Lemma follows_mono {A} (Q Q' : outcome A → Ph → Prop) q p :
  (∀ o q', Q o q' → Q' o q') → follows q p Q → follows q p Q'.
Proof.
  intros HQ. revert q. induction p as [o|a k IH]; intros q; simpl; [apply HQ|].
  intros Hp x. destruct (Hp x) as (q' & Hq & Hf). exists q'. auto.
Qed.

Lemma follows_bind {A B} (p : prog A) (f : A → prog B) q Q :
  follows q p (λ o q', match o with
                       | Ret a => follows q' (f a) Q
                       | Throw e => Q (Throw e) q'
                       | Undef u => Q (Undef u) q'
                       end) →
  follows q (p ≫= f) Q.
Proof.
  revert q. induction p as [[a|e|u]|a k IH]; intros q; [done..|].
  simpl. intros Hp x. destruct (Hp x) as (q' & Hq & Hf). exists q'. split; [done|]. by apply IH.
Qed.

Lemma follows_catch {A} (p : prog A) h q Q :
  follows q p (λ o q', match o with Throw e => follows q' (h e) Q | o => Q o q' end) →
  follows q (p_catch p h) Q.
Proof.
  revert q. induction p as [[a|e|u]|a k IH]; intros q; [done..|].
  simpl. intros Hp x. destruct (Hp x) as (q' & Hq & Hf). exists q'. split; [done|]. by apply IH.
Qed.

Lemma follows_noexcept {A} (p : prog A) q Q :
  follows q p (λ o q', match o with Throw _ => Q (Undef Terminate) q' | o => Q o q' end) →
  follows q (p_noexcept p) Q.
Proof.
  revert q. induction p as [[a|e|u]|a k IH]; intros q; [done..|].
  simpl. intros Hp x. destruct (Hp x) as (q' & Hq & Hf). exists q'. split; [done|]. by apply IH.
Qed.

(** A loop whose body keeps to a set of phases. *)
Lemma follows_for_each {A} (l : list A) (body : A → prog ()) (J : Ph → Prop) q :
  J q → (∀ x q', x ∈ l → J q' → follows q' (body x) (λ _, J)) →
  follows q (p_for_each l body) (λ _, J).
Proof.
  revert q. induction l as [|x l IH]; intros q HJ Hbody; simpl; [done|].
  apply follows_bind. eapply follows_mono; [|apply Hbody; [by left|done]].
  intros [u|e|u] q' HJ'; [|done|done]. apply IH; [done|]. intros y q'' Hy. apply Hbody. by right.
Qed.

(** Programs that the protocol does not concern. *)
Definition stays {A} (p : prog A) : Prop := ∀ q, follows q p (λ _ q', q' = q).

Lemma stays_leaf {A} (o : outcome A) : stays (Leaf o).
Proof. by intros q. Qed.

Lemma stays_ret {A} (a : A) : stays (mret a : prog A).
Proof. by intros q. Qed.

Lemma stays_do a : (∀ q x, δ q (Did a x) = Some q) → stays (do_act a).
Proof. intros Ha q x. by exists q. Qed.

Lemma stays_bind {A B} (p : prog A) (f : A → prog B) :
  stays p → (∀ a, stays (f a)) → stays (p ≫= f).
Proof.
  intros Hp Hf q. apply follows_bind. eapply follows_mono; [|apply Hp].
  intros [a|e|u] q' ->; [apply Hf|done|done].
Qed.

Lemma stays_catch {A} (p : prog A) h : stays p → (∀ e, stays (h e)) → stays (p_catch p h).
Proof.
  intros Hp Hh q. apply follows_catch. eapply follows_mono; [|apply Hp].
  intros [a|e|u] q' ->; [done|apply Hh|done].
Qed.

Lemma stays_noexcept {A} (p : prog A) : stays p → stays (p_noexcept p).
Proof.
  intros Hp q. apply follows_noexcept. eapply follows_mono; [|apply Hp]. by intros [a|e|u] q' ->.
Qed.

Lemma stays_for_each {A} (l : list A) body : (∀ x, stays (body x)) → stays (p_for_each l body).
Proof. intros Hb. induction l as [|x l IH]; simpl; [apply stays_ret|by apply stays_bind]. Qed.

Lemma stays_follows {A} (p : prog A) q (Q : outcome A → Ph → Prop) :
  stays p → (∀ o, Q o q) → follows q p Q.
Proof. intros Hp HQ. eapply follows_mono; [|apply Hp]. by intros o q' ->. Qed.

(** Programs that a protocol never refuses, from any phase. *)
Definition accepts {A} (p : prog A) : Prop := ∀ q, follows q p (λ _ _, True).

Lemma accepts_leaf {A} (o : outcome A) : accepts (Leaf o).
Proof. by intros q. Qed.

Lemma accepts_do a : (∀ q x, is_Some (δ q (Did a x))) → accepts (do_act a).
Proof. intros Ha q x. destruct (Ha q x) as [q' Hq]. by exists q'. Qed.

Lemma accepts_bind {A B} (p : prog A) (f : A → prog B) :
  accepts p → (∀ a, accepts (f a)) → accepts (p ≫= f).
Proof.
  intros Hp Hf q. apply follows_bind. eapply follows_mono; [|apply Hp].
  intros [a|e|u] q' _; [apply Hf|done|done].
Qed.

Lemma accepts_catch {A} (p : prog A) h : accepts p → (∀ e, accepts (h e)) → accepts (p_catch p h).
Proof.
  intros Hp Hh q. apply follows_catch. eapply follows_mono; [|apply Hp].
  intros [a|e|u] q' _; [done|apply Hh|done].
Qed.

Lemma accepts_noexcept {A} (p : prog A) : accepts p → accepts (p_noexcept p).
Proof.
  intros Hp q. apply follows_noexcept. eapply follows_mono; [|apply Hp]. by intros [a|e|u] q' _.
Qed.

Lemma accepts_for_each {A} (l : list A) body : (∀ x, accepts (body x)) → accepts (p_for_each l body).
Proof. intros Hb. induction l as [|x l IH]; simpl; [by intros q|by apply accepts_bind]. Qed.

(** *** Many threads that follow a protocol *)

Context `{Externals} {U S : Type} (sem : ∀ a, @effect _ U S (resp a)).
Context (ops : prog () → Prop) (q0 : Ph) (Q : outcome () → Ph → Prop).

(** The phases of the running threads. *)
Definition in_phases (c : @config act resp _ U S) (ph : gmap nat Ph) : Prop :=
  map_Forall2 (λ _ p q, follows q p Q) (c_threads c) ph.

Lemma in_phases_initial w : in_phases (initial w) ∅.
Proof. apply map_Forall2_empty. Qed.

Lemma in_phases_lookup c ph i :
  in_phases c ph →
  match c_threads c !! i, ph !! i with
  | Some p, Some q => follows q p Q
  | None, None => True
  | _, _ => False
  end.
Proof.
  unfold in_phases, map_Forall2, map_relation. intros Hph. specialize (Hph i). revert Hph.
  destruct (c_threads c !! i), (ph !! i); intros Hph; by inversion Hph.
Qed.

(** A step, seen by the protocol: a thread starts in [q0], moves as the automaton
    says, or ends as [Q] says. *)
Lemma protocol_step c c' ph :
  (∀ p, ops p → follows q0 p Q) →
  in_phases c ph → thread_step sem ops c c' →
  (∃ i, ph !! i = None ∧ in_phases c' (<[i := q0]> ph) ∧
        c_world c' = c_world c ∧ c_history c' = c_history c ∧ c_trace c' = c_trace c) ∨
  (∃ i a x q q' tr, ph !! i = Some q ∧ δ q (Did a x) = Some q' ∧
        in_phases c' (<[i := q']> ph) ∧ sem a (c_world c) = (inl x, c_world c', tr) ∧
        c_history c' = c_history c ++ [(i, Did a x)] ∧ c_trace c' = c_trace c ++ tr) ∨
  (∃ i o q, ph !! i = Some q ∧ Q o q ∧ ¬ is_undef o ∧ in_phases c' (delete i ph) ∧
        c_world c' = c_world c ∧ c_history c' = c_history c ∧ c_trace c' = c_trace c).
Proof.
  intros Hops Hph Hstep.
  destruct Hstep as [i p w ts hist tr Hi Hp|i a k x w w' ts hist tr tr' Hi Hsem|i o w ts hist tr Hi Hu];
    pose proof (in_phases_lookup _ _ i Hph) as Hl; simpl in Hl; rewrite Hi in Hl;
    destruct (ph !! i) as [q|] eqn:Hq; try done; unfold in_phases in *; simpl in *.
  - left. exists i. split_and!; try done. apply map_Forall2_insert_2; auto.
  - right. left. destruct (Hl x) as (q' & Hδ & Hf'). exists i, a, x, q, q', tr'.
    split_and!; try done. by apply map_Forall2_insert_2.
  - right. right. exists i, o, q. split_and!; try done. by apply map_Forall2_delete.
Qed.
End protocol.

#[export] Hint Resolve stays_leaf stays_ret stays_noexcept : thread_hom.

Ltac stays_step :=
  match goal with
  | |- stays _ (mbind _ _) => apply stays_bind; [|intros ?]
  | |- stays _ (p_catch _ _) => apply stays_catch; [|intros ?]
  | |- stays _ (p_noexcept _) => apply stays_noexcept
  | |- stays _ (p_for_each _ _) => apply stays_for_each; intros ?
  | |- stays _ (Leaf _) => apply stays_leaf
  | |- stays _ (p_lift _) => apply stays_leaf
  | |- stays _ (mret _) => apply stays_ret
  | |- stays ?δ (do_act ?a) => refine (stays_do δ a _); intros [] ?; reflexivity
  | |- stays _ (match ?x with _ => _ end) => destruct x
  end.
Ltac stays := repeat (cbv beta; first [solve [auto with thread_hom nocore]|stays_step]).

Ltac accepts_step :=
  match goal with
  | |- accepts _ (mbind _ _) => apply accepts_bind; [|intros ?]
  | |- accepts _ (p_catch _ _) => apply accepts_catch; [|intros ?]
  | |- accepts _ (p_noexcept _) => apply accepts_noexcept
  | |- accepts _ (p_for_each _ _) => apply accepts_for_each; intros ?
  | |- accepts _ (Leaf _) => apply accepts_leaf
  | |- accepts _ (p_lift _) => apply accepts_leaf
  | |- accepts _ (mret _) => apply accepts_leaf
  | |- accepts ?δ (do_act ?a) => refine (accepts_do δ a _); intros ? ?; by eexists
  | |- accepts _ (match ?x with _ => _ end) => destruct x
  end.
Ltac accepts := repeat (cbv beta zeta; first [solve [auto with thread_hom nocore]|accepts_step]).
