(* ===== verification/BusThreads.v ===== *)
(** * The bus, cut into the sections between which threads interleave
    ([include/conduit/bus.hpp])

    The actions of a thread that executes a member function of [Bus]: its critical
    sections on [mu_], its accesses to the atomics [next_id_] and [shutdown_] and to
    [self_alias_], its metric updates, and the two ends of each call to user code,
    between which anything can happen.  The member functions of [Bus.v] are written
    again as programs of these actions; run without interruption, each of them is
    the definition of [Bus.v] ([run_op_prog]). *)

From S2P Require Import Prelude Exceptions External Flags Envelope Serialization Glob World WorldLogic Listener Bus BusLifecycle Threads.

(** ** Actions *)

Section actions.
Context `{Externals}.

Inductive bus_act :=
  | ARegister (T : event_type)             (* registry_->add_descriptor(...) *)
  | AFetchId                               (* next_id_.fetch_add(1) + 1 *)
  | AInsert (e : ListenerEntry)            (* lock; listeners_.insert(...) *)
  | ARelease (i : SubscriptionId)          (* lock; find, erase, count down *)
  | AListeners | AMiddleware | ATransports (* lock; copy the set *)
  | ATakeTransports                        (* lock; copy and clear transports_ *)
  | AInsertTransport (t : obj)             (* lock; transports_.insert(...) *)
  | AInsertMiddleware (m : obj)            (* lock; middleware_.insert(...) *)
  | AExchange                              (* shutdown_.exchange(true) *)
  | AGetAlias | ASetAlias                  (* self_alias_, read and written *)
  | AEmit (m : metric)
  | ACall (c : call) | AReply (c : call)   (* user code is entered, and has returned *)
  | AReadCore (v : EventEnvelope)
  | AWriteCore (v : EventEnvelope) (f : EnvelopeCore → EnvelopeCore)
  | AName (v : EventEnvelope)
  | APayload (T : event_type) (v : EventEnvelope)
  | ANow.

Definition bus_resp (a : bus_act) : Type :=
  match a with
  | AFetchId => SubscriptionId
  | AListeners => list ListenerEntry
  | AMiddleware | ATransports | ATakeTransports => list obj
  | AExchange | AGetAlias => bool
  | AReply _ => (bool + exn) * EventEnvelope
  | AReadCore _ => EnvelopeCore
  | AName _ => string
  | APayload _ _ => option cell
  | ANow => time_point
  | _ => ()
  end.

Context {U : Type} (h : host U BusState).
Abbreviation comp := (comp U BusState).

Definition reply_of (c : call) : comp ((bool + exn) * EventEnvelope) := λ w,
  let r := run h c w in
  (match r_out r with
   | Ret b => Ret (inl b, r_env r)
   | Throw e => Ret (inr e, r_env r)
   | Undef u => Undef u
   end, r_world r, []).

(** Each action as a section of the code. *)
Definition act_section (a : bus_act) : comp (bus_resp a) :=
  match a with
  | ARegister T => register_event T
  | AFetchId => fresh_id
  | AInsert e =>
      with_lock (modify (λ s, set_listeners (ps_insert listener_priority entry_eqb e (listeners_ s)) s))
  | ARelease i => release i
  | AListeners => with_lock (gets listeners_)
  | AMiddleware => with_lock (gets middleware_)
  | ATransports => with_lock (gets transports_)
  | ATakeTransports => with_lock (l ← gets transports_; modify (set_transports []);; mret l)
  | AInsertTransport t =>
      with_lock (modify (λ s,
        set_transports (ps_insert (priority_of h) Pos.eqb t (transports_ s)) s))
  | AInsertMiddleware m => use_middleware h m
  | AExchange => was ← gets shutdown_; modify (set_shutdown true);; mret was
  | AGetAlias => gets self_alias_
  | ASetAlias => modify (set_self_alias true)
  | AEmit m => emit m
  | ACall c => λ w, (Ret (), w, [EvCall c])
  | AReply c => reply_of c
  | AReadCore v => read_core v
  | AWriteCore v f => write_core v f
  | AName v => name_of v
  | APayload T v => payload_of T v
  | ANow => now h
  end.

Definition bus_sem (a : bus_act) : @effect _ U BusState (bus_resp a) := section_of (act_section a).
End actions.

(** ** The member functions as programs *)

Section programs.
Context `{Externals} {U : Type} (h : host U BusState).
Abbreviation prog := (prog bus_resp).
Abbreviation act := (do_act (resp:=bus_resp)).

Definition p_call_ref (c : call) : prog ((bool + exn) * EventEnvelope) :=
  act (ACall c);; act (AReply c).

Definition p_call_fn (c : call) : prog bool :=
  r ← p_call_ref c;
  match r.1 with
  | inl b => mret b
  | inr e => p_lift (Throw e)
  end.
Definition p_call_void (c : call) : prog () := _ ← p_call_fn c; mret ().

Definition p_run_handler (k : handler) (v : EventEnvelope) : prog () :=
  match k with
  | HPayload T f =>
      typed ← act (APayload T v);
      match typed with
      | Some p => p_call_void (CallTyped f p)
      | None => mret ()
      end
  | HEnvelope f => p_call_void (CallHandler f v)
  | HListener T l =>
      typed ← act (APayload T v);
      match typed, l with
      | Some p, Some l => p_call_void (CallOnEvent l p)
      | Some p, None => p_lift (Undef NullDeref)
      | None, _ => mret ()
      end
  end.

Fixpoint p_on_error_loop (snap : list obj) (mv : EventEnvelope) (ep : exn) : prog () :=
  match snap with
  | [] => mret ()
  | m :: snap =>
      r ← p_call_ref (CallOnError m mv ep);
      p_on_error_loop snap r.2 ep
  end.

Definition p_run_on_error (v : EventEnvelope) (ep : exn) : prog () :=
  p_noexcept (snap ← act AMiddleware; p_on_error_loop snap v ep).

Definition p_report_transport_error (transport : string) (ep : exn) : prog () :=
  p_noexcept
    (act (AEmit (transport_errors transport));;
     snap ← act AMiddleware;
     p_for_each snap (λ m,
       p_catch (p_call_void (CallOnTransportError m transport ep)) (λ _, mret ()))).

Definition p_deliver_one (v : EventEnvelope) (name : string) (e : ListenerEntry) : prog () :=
  if entry_matches name e then
    act (AEmit (listener_invocations name));;
    p_catch (p_run_handler (le_handler e) v)
      (λ ep, act (AEmit (listener_errors name));; p_run_on_error v ep)
  else mret ().

Definition p_deliver_to_listeners (v : EventEnvelope) : prog () :=
  snapshot ← act AListeners;
  name ← act (AName v);
  p_for_each snapshot (p_deliver_one v name).

Definition p_own_on_error (m : obj) (local : EventEnvelope) (ep : exn) : prog EventEnvelope :=
  r ← p_call_ref (CallOnError m local ep); mret r.2.

Fixpoint p_run_before (mws : list obj) (local : EventEnvelope) : prog (bool * EventEnvelope) :=
  match mws with
  | [] => mret (true, local)
  | m :: mws =>
      r ← p_call_ref (CallBefore m local);
      match r.1 with
      | inl true => p_run_before mws r.2
      | inl false =>
          name ← act (AName r.2);
          act (AEmit (events_dropped name));;
          mret (false, r.2)
      | inr ep => local ← p_own_on_error m r.2 ep; p_run_before mws local
      end
  end.

Fixpoint p_run_after (mws : list obj) (local : EventEnvelope) : prog EventEnvelope :=
  match mws with
  | [] => mret local
  | m :: mws =>
      r ← p_call_ref (CallAfter m local);
      local ← match r.1 with
              | inl _ => mret r.2
              | inr ep => p_own_on_error m r.2 ep
              end;
      p_run_after mws local
  end.

Definition p_dispatch_one (local_only remote_only : bool) (local : EventEnvelope) (t : obj) : prog () :=
  if admissible local_only remote_only (scope_of h t) then
    p_catch (p_call_void (CallDispatch t local)) (p_run_on_error local)
  else mret ().

Definition p_route (local_only remote_only : bool) (transports_snapshot : list obj)
    (local : EventEnvelope) : prog () :=
  p_for_each transports_snapshot (p_dispatch_one local_only remote_only local);;
  if bool_decide (transports_snapshot = []) && negb remote_only
  then p_deliver_to_listeners local
  else mret ().

Definition p_publish_impl (v : EventEnvelope) : prog () :=
  c ← act (AReadCore v);
  let local_only := contains flags.LocalOnly c in
  let remote_only := contains flags.RemoteOnly c in
  publish_started ← act ANow;
  act (AWriteCore v (λ c, set_timestamps (set_published_at publish_started (timestamps c)) c));;
  name ← act (AName v);
  act (AEmit (events_published name));;
  c ← act (AReadCore v);
  let run_mw := negb (contains flags.NoMiddleware c) in
  mw_snapshot ← (if run_mw then act AMiddleware else mret []);
  before ← (if run_mw then p_run_before mw_snapshot v else mret (true, v));
  let local := before.2 in
  transports_snapshot ← act ATransports;
  proceed ← (if local_only && remote_only then
               p_run_on_error local conflict_error;;
               name ← act (AName local);
               act (AEmit (events_dropped name));;
               mret false
             else mret before.1);
  (if proceed : bool then p_route local_only remote_only transports_snapshot local else mret ());;
  local ← (if run_mw then p_run_after (reverse mw_snapshot) local else mret local);
  finished ← act ANow;
  elapsed ← p_lift (clock_difference finished publish_started);
  if (0 <=? elapsed)%Z then
    name ← act (AName local); act (AEmit (dispatch_seconds name elapsed))
  else mret ().

Definition p_publish (T : event_type) (v : EventEnvelope) : prog () :=
  act (ARegister T);; p_publish_impl v.

Definition p_attach_transport (t : obj) : prog () :=
  p_call_void (CallAttach t);; act (AInsertTransport t).

Definition p_shared_from_this_safe : prog () :=
  a ← act AGetAlias;
  if (a : bool) then mret () else act ASetAlias.

Definition p_register_listener_for_name (name : string) (k : handler) (pattern : bool) (prio : Z)
    : prog Subscription :=
  id ← act AFetchId;
  act (AInsert (MkEntry id k name pattern prio));;
  act (AEmit (listeners_inc name));;
  p_shared_from_this_safe;;
  mret (new_Subscription id).

Definition p_listen (T : event_type) (a : handler_arg) (priority : Z) : prog Subscription :=
  act (ARegister T);;
  p_register_listener_for_name (et_name T) (wrap_typed_handler T a) false
    (derive_listener_priority h a priority).

Definition p_listen_listener (T : event_type) (l : option obj) : prog Subscription :=
  act (ARegister T);;
  p_register_listener_for_name (et_name T) (HListener T l) false
    (match l with Some l => priority_of h l | None => DEFAULT_PRIORITY end).

Definition p_listen_pattern (pattern : string) (f : fn) (priority : Z) : prog Subscription :=
  p_register_listener_for_name pattern (HEnvelope f)
    (bool_decide (c_star ∈ to_chars pattern)) priority.

Definition p_drain : prog () :=
  tcopy ← act ATransports;
  p_for_each tcopy (λ t, p_call_void (CallFlush t)).

Definition p_shutdown_one (t : obj) : prog () :=
  p_catch (p_call_void (CallFlush t)) (λ _, mret ());;
  p_catch (p_noexcept (p_call_void (CallDetach t))) (λ _, mret ()).

Definition p_shutdown : prog () :=
  p_noexcept
    (was ← act AExchange;
     if (was : bool) then mret ()
     else
       tcopy ← act ATakeTransports;
       p_for_each tcopy p_shutdown_one).

(** The public operations, with what they return dropped. *)
Definition op_prog (op : bus_op) : prog () :=
  match op with
  | OpPublish T v => p_publish T v
  | OpPublishEnvelope v => p_publish_impl v
  | OpDeliver v => p_deliver_to_listeners v
  | OpReportTransportError tn ep => p_report_transport_error tn ep
  | OpListenTyped T a p => _ ← p_listen T a p; mret ()
  | OpListenListener T l => _ ← p_listen_listener T l; mret ()
  | OpListenPattern pat f p => _ ← p_listen_pattern pat f p; mret ()
  | OpReleaseId i => act (ARelease i)
  | OpRegisterEvent T => act (ARegister T)
  | OpUseTransport t => p_attach_transport t
  | OpUseMiddleware m => act (AInsertMiddleware m)
  | OpDrain => p_drain
  | OpShutdown => p_shutdown
  end.
End programs.

(** ** Alone, a program is the definition it cuts *)

Section sequential.
Context `{Externals} {U : Type} (h : host U BusState).
Abbreviation run := (run_prog (bus_sem h)).

Lemma act_section_no_throw a (w : world U BusState) e w' tr : act_section h a w ≠ (Throw e, w', tr).
Proof.
  destruct a; simpl; unfold register_event, fresh_id, use_middleware, release, noexcept, with_lock,
    reply_of, read_core, write_core, name_of, payload_of, core_of, env_name, env_payload_as,
    mbind, comp_bind, mret, comp_ret, gets, modify, emit, now, core_of, set_locked; simpl;
    repeat case_match; naive_solver.
Qed.

Lemma run_act a : run (do_act a) ≡ act_section h a.
Proof. apply run_do; [done|]. apply act_section_no_throw. Qed.

Lemma run_call_ref c : run (p_call_ref c) ≡ call_ref h c.
Proof.
  intros w. unfold p_call_ref. rewrite (run_bind _ _ _ w). unfold mbind, comp_bind.
  rewrite (run_act (ACall c) w). unfold run_prog. simpl.
  destruct (bus_sem h (AReply c) w) as [[o w1] tr1] eqn:Hr.
  unfold bus_sem, section_of in Hr. simpl in Hr. unfold reply_of in Hr. unfold call_ref.
  destruct (r_out (World.run h c w)); simplify_eq; done.
Qed.

Lemma run_call_fn c : run (p_call_fn c) ≡ call_fn h c.
Proof.
  etrans; [apply run_bind|]. apply comp_bind_proper; [|apply run_call_ref].
  intros [[b|e] v]; done.
Qed.

Lemma run_call_void c : run (p_call_void c) ≡ call_void h c.
Proof. etrans; [apply run_bind|]. apply comp_bind_proper; [by intros ?|apply run_call_fn]. Qed.

#[local] Hint Extern 0 (run_prog _ (do_act ?a) ≡ _) => exact (run_act a) : thread_hom.
#[local] Hint Resolve run_call_ref run_call_fn run_call_void : thread_hom.

Lemma run_run_handler k v : run (p_run_handler k v) ≡ run_handler h k v.
Proof. destruct k as [T f|f|T [l|]]; unfold p_run_handler, run_handler; hom. Qed.

Lemma run_on_error_loop snap v ep : run (p_on_error_loop snap v ep) ≡ on_error_loop h snap v ep.
Proof.
  revert v. induction snap as [|m snap IH]; intros v; cbn [p_on_error_loop on_error_loop]; hom.
 Qed.
#[local] Hint Resolve run_run_handler run_on_error_loop : thread_hom.

Lemma run_run_on_error v ep : run (p_run_on_error v ep) ≡ run_on_error h v ep.
Proof. unfold p_run_on_error, run_on_error. hom. Qed.
#[local] Hint Resolve run_run_on_error : thread_hom.

Lemma run_report tn ep : run (p_report_transport_error tn ep) ≡ report_transport_error h tn ep.
Proof. unfold p_report_transport_error, report_transport_error. hom. Qed.

Lemma run_deliver_one v name e : run (p_deliver_one v name e) ≡ deliver_one h v name e.
Proof. unfold p_deliver_one, deliver_one. hom. Qed.
#[local] Hint Resolve run_report run_deliver_one : thread_hom.

Lemma run_deliver v : run (p_deliver_to_listeners v) ≡ deliver_to_listeners h v.
Proof. unfold p_deliver_to_listeners, deliver_to_listeners. hom. Qed.

Lemma run_own_on_error m v ep : run (p_own_on_error m v ep) ≡ own_on_error h m v ep.
Proof. unfold p_own_on_error, own_on_error. hom. Qed.
#[local] Hint Resolve run_deliver run_own_on_error : thread_hom.

Lemma run_p_run_before mws v : run (p_run_before mws v) ≡ run_before h mws v.
Proof. revert v. induction mws as [|m mws IH]; intros v; cbn [p_run_before run_before p_run_after run_after]; hom. Qed.

Lemma run_p_run_after mws v : run (p_run_after mws v) ≡ run_after h mws v.
Proof. revert v. induction mws as [|m mws IH]; intros v; cbn [p_run_before run_before p_run_after run_after]; hom. Qed.

Lemma run_dispatch_one lo ro v t : run (p_dispatch_one h lo ro v t) ≡ dispatch_one h lo ro v t.
Proof. unfold p_dispatch_one, dispatch_one. hom. Qed.
#[local] Hint Resolve run_p_run_before run_p_run_after run_dispatch_one : thread_hom.

Lemma run_route lo ro ts v : run (p_route h lo ro ts v) ≡ route h lo ro ts v.
Proof. unfold p_route, route. hom. Qed.
#[local] Hint Resolve run_route : thread_hom.

Lemma run_publish_impl v : run (p_publish_impl h v) ≡ publish_impl h v.
Proof. unfold p_publish_impl, publish_impl. cbv zeta. hom. Qed.

Lemma run_register name k pat pr :
  run (p_register_listener_for_name name k pat pr) ≡ register_listener_for_name name k pat pr.
Proof. unfold p_register_listener_for_name, register_listener_for_name, p_shared_from_this_safe. hom. Qed.

Lemma run_shutdown_one t : run (p_shutdown_one t) ≡ shutdown_one h t.
Proof. unfold p_shutdown_one, shutdown_one. hom. Qed.
#[local] Hint Resolve run_publish_impl run_register run_shutdown_one : thread_hom.

Lemma exchange_then {A} (f g : bool → comp U BusState A) :
  (∀ b, f b ≡ g b) →
  (act_section h AExchange ≫= f) ≡ (was ← gets shutdown_; modify (set_shutdown true);; g was).
Proof.
  intros Hfg w. unfold mbind, comp_bind. simpl. unfold mbind, comp_bind, gets, modify. simpl.
  rewrite (Hfg (shutdown_ (st w)) _). by destruct (g _ _) as [[? ?] ?].
Qed.

Lemma run_shutdown : run p_shutdown ≡ shutdown h.
Proof.
  unfold p_shutdown, shutdown. hom_step. etrans; [apply run_bind|].
  etrans; [apply comp_bind_proper; [by intros ?|exact (run_act AExchange)]|].
  apply exchange_then. intros b w. revert w. destruct b; [done|].
  refine (_ : run _ ≡ _). hom.
Qed.
#[local] Hint Resolve run_shutdown : thread_hom.

(** Every public operation, cut into sections and run without interruption, is the
    operation of [Bus.v]. *)
Theorem run_op_prog op : run (op_prog h op) ≡ run_op h op.
Proof.
  destruct op; unfold op_prog, run_op, p_publish, publish, use_transport, p_attach_transport,
    attach_transport, p_drain, drain, p_listen, listen, p_listen_listener, listen_listener,
    p_listen_pattern, listen_pattern; hom.
Qed.
End sequential.

(** ** What publishing, delivering and attaching do not do

    The protocols of registration and of shutdown concern few actions.  The other
    operations perform none of them, so they stay in any phase of any protocol for
    which the ordinary actions are neutral. *)

Definition ordinary `{Externals} (a : bus_act) : bool :=
  match a with
  | AFetchId | AInsert _ | ARelease _ | AExchange | ATakeTransports | AInsertTransport _
  | AGetAlias | ASetAlias | AEmit (listeners_inc _) | AEmit (listeners_dec _)
  | ACall (CallDetach _) => false
  | _ => true
  end.

Section ordinary.
Context `{Externals} {U : Type} (h : host U BusState) {Ph : Type}.
Context (δ : Ph → done_act bus_resp → option Ph).
Context (neutral : ∀ a, ordinary a = true → ∀ q x, δ q (Did a x) = Some q).
Abbreviation stays := (stays δ).

Lemma stays_act a : ordinary a = true → stays (do_act a).
Proof. intros Ha. apply stays_do. by apply neutral. Qed.

Definition is_detach (c : call) : bool := match c with CallDetach _ => true | _ => false end.

Lemma stays_call_ref c : is_detach c = false → stays (p_call_ref c).
Proof.
  intros Hc. apply stays_bind; [|intros _]; apply stays_act; [|done]. by destruct c.
Qed.

Lemma stays_call_fn c : is_detach c = false → stays (p_call_fn c).
Proof.
  intros Hc. apply stays_bind; [by apply stays_call_ref|]. intros [[b|e] v]; stays.
Qed.

Lemma stays_call_void c : is_detach c = false → stays (p_call_void c).
Proof. intros Hc. apply stays_bind; [by apply stays_call_fn|]. stays. Qed.
#[local] Hint Resolve stays_call_ref stays_call_fn stays_call_void : thread_hom.
#[local] Hint Extern 0 (is_detach _ = false) => reflexivity : thread_hom.
#[local] Hint Extern 0 (Threads.stays _ (do_act ?a)) => exact (stays_act a eq_refl) : thread_hom.

Lemma stays_on_error_loop snap v ep : stays (p_on_error_loop snap v ep).
Proof. revert v. induction snap as [|m snap IH]; intros v; cbn [p_on_error_loop]; stays. Qed.
#[local] Hint Resolve stays_on_error_loop : thread_hom.

Lemma stays_run_on_error v ep : stays (p_run_on_error v ep).
Proof. unfold p_run_on_error. stays. Qed.
#[local] Hint Resolve stays_run_on_error : thread_hom.

Lemma stays_run_handler k v : stays (p_run_handler k v).
Proof. destruct k as [T f|f|T [l|]]; unfold p_run_handler; stays. Qed.
#[local] Hint Resolve stays_run_handler : thread_hom.

Lemma stays_deliver v : stays (p_deliver_to_listeners v).
Proof. unfold p_deliver_to_listeners, p_deliver_one. stays. Qed.

Lemma stays_report tn ep : stays (p_report_transport_error tn ep).
Proof. unfold p_report_transport_error. stays. Qed.

Lemma stays_own_on_error m v ep : stays (p_own_on_error m v ep).
Proof. unfold p_own_on_error. stays. Qed.
#[local] Hint Resolve stays_deliver stays_own_on_error : thread_hom.

Lemma stays_run_before mws v : stays (p_run_before mws v).
Proof. revert v. induction mws as [|m mws IH]; intros v; cbn [p_run_before]; stays. Qed.

Lemma stays_run_after mws v : stays (p_run_after mws v).
Proof. revert v. induction mws as [|m mws IH]; intros v; cbn [p_run_after]; stays. Qed.
#[local] Hint Resolve stays_run_before stays_run_after : thread_hom.

Lemma stays_publish_impl v : stays (p_publish_impl h v).
Proof. unfold p_publish_impl, p_route, p_dispatch_one. cbv zeta. stays. Qed.

Lemma stays_drain : stays p_drain.
Proof. unfold p_drain. stays. Qed.

(** The operations that no protocol concerns. *)
Definition ordinary_op (op : bus_op) : bool :=
  match op with
  | OpPublish _ _ | OpPublishEnvelope _ | OpDeliver _ | OpReportTransportError _ _
  | OpRegisterEvent _ | OpUseMiddleware _ | OpDrain => true
  | _ => false
  end.

Lemma stays_ordinary op : ordinary_op op = true → stays (op_prog h op).
Proof.
  destruct op; try done; intros _; simpl.
  - apply stays_bind; [by apply stays_act|intros _; apply stays_publish_impl].
  - apply stays_publish_impl.
  - apply stays_deliver.
  - apply stays_report.
  - by apply stays_act.
  - by apply stays_act.
  - apply stays_drain.
Qed.
End ordinary.
