(* ===== verification/BusInterleaved.v ===== *)
(** * The bus under interleaving threads ([include/conduit/bus.hpp])

    Any number of threads run public operations of one bus, section by section
    ([BusThreads]).  The set of listeners refines a sequential object on which a
    registration and a release are one step each; the gauge lags behind it by the
    registrations that are not yet counted; the transports are taken and detached
    by one [shutdown] only; and [self_alias_] is accessed without synchronisation. *)

From S2P Require Import Prelude Exceptions External Flags Instances Envelope Serialization Glob World WorldLogic WorldSafety Hosts Listener Bus BusTraces BusListeners BusLifecycle Threads BusThreads.

(** ** The abstract listener set *)

Section spec.
Context `{Externals}.

(** The listeners in the order of the fan-out, and all ids ever used. *)
Record listener_set := ListenerSet {
  sp_entries : list ListenerEntry;
  sp_used : gset SubscriptionId;
}.

Inductive spec_op :=
  | SListen (e : ListenerEntry)
  | SRelease (i : SubscriptionId).

(** A registration needs an id that was never used; it goes behind the listeners of
    its priority.  A release removes the listener with that id, if there is one. *)
Definition spec_step (s : listener_set) (o : spec_op) : option listener_set :=
  match o with
  | SListen e =>
      if decide (le_id e ∈ sp_used s) then None
      else Some (ListenerSet (insert_by listener_priority e (sp_entries s))
                   ({[le_id e]} ∪ sp_used s))
  | SRelease i =>
      Some (ListenerSet (List.filter (λ e, negb (le_id e =? i)%Z) (sp_entries s)) (sp_used s))
  end.

Fixpoint spec_run (s : listener_set) (os : list spec_op) : option listener_set :=
  match os with
  | [] => Some s
  | o :: os => s' ← spec_step s o; spec_run s' os
  end.

Definition no_listeners : listener_set := ListenerSet [] ∅.

(** Where the operations of the threads take effect: a registration when its entry
    is inserted, a release in its one critical section. *)
Definition takes_effect (d : nat * done_act bus_resp) : option spec_op :=
  match did d.2 with
  | AInsert e => Some (SListen e)
  | ARelease i => Some (SRelease i)
  | _ => None
  end.
Definition effects (hist : list (nat * done_act bus_resp)) : list spec_op := omap takes_effect hist.

Lemma spec_run_app s os1 os2 :
  spec_run s (os1 ++ os2) = s' ← spec_run s os1; spec_run s' os2.
Proof.
  revert s. induction os1 as [|o os1 IH]; intros s; [done|]. simpl.
  destruct (spec_step s o) as [s'|]; [apply IH|done].
Qed.

Lemma effects_snoc hist d : effects (hist ++ [d]) = effects hist ++ option_list (takes_effect d).
Proof. unfold effects. rewrite omap_app. simpl. by destruct (takes_effect d). Qed.
End spec.

(** ** The protocol of a registration *)

Section registration.
Context `{Externals}.

(** Between operations; an id fetched and not inserted; a listener inserted and not
    counted. *)
Inductive reg_phase :=
  | Ready
  | Fetched (id : SubscriptionId)
  | Inserted (name : string).

Definition reg_delta (q : reg_phase) (d : done_act bus_resp) : option reg_phase :=
  match d with
  | Did a x =>
      match a return bus_resp a → option reg_phase with
      | AFetchId => λ id, match q with Ready => Some (Fetched id) | _ => None end
      | AInsert e => λ _,
          match q with
          | Fetched id => if (le_id e =? id)%Z then Some (Inserted (name_or_pattern e)) else None
          | _ => None
          end
      | AEmit (listeners_inc n) => λ _,
          match q with
          | Inserted m => if String.eqb m n then Some Ready else None
          | _ => None
          end
      | AEmit (listeners_dec _) => λ _, None
      | _ => λ _, Some q
      end x
  end.

(** The id that a thread holds, and the registration it has not counted yet. *)
Definition held (q : reg_phase) : list SubscriptionId :=
  match q with Fetched id => [id] | _ => [] end.
Definition uncounted (n : string) (q : reg_phase) : list () :=
  match q with Inserted m => if String.eqb m n then [()] else [] | _ => [] end.

Context {U : Type} (h : host U BusState).

Lemma reg_neutral a : ordinary a = true → ∀ q x, reg_delta q (Did a x) = Some q.
Proof. destruct a as [| | | | | | | | | | | | |[] |[]| | | | | |]; done. Qed.

(** A registration fetches an id, inserts under it, and counts. *)
Lemma register_follows name k pat pr :
  follows reg_delta Ready (p_register_listener_for_name name k pat pr) (λ _ q, q = Ready).
Proof.
  intros id. exists (Fetched id). split; [done|]. intros []. exists (Inserted name). split.
  { simpl. by rewrite Z.eqb_refl. }
  intros []. exists Ready. split; [simpl; by rewrite String.eqb_refl|].
  intros [|]; exists Ready; (split; [done|]); [done|]. intros []. by exists Ready.
Qed.

Lemma returns_dropped {A} (p : prog bus_resp A) (Q : reg_phase → Prop) q :
  follows reg_delta q p (λ _, Q) → follows reg_delta q (_ ← p; mret ()) (λ _, Q).
Proof. intros Hp. apply follows_bind. eapply follows_mono; [|apply Hp]. by intros []. Qed.

Lemma op_follows_reg op : follows reg_delta Ready (op_prog h op) (λ _ q, q = Ready).
Proof.
  destruct (ordinary_op op) eqn:Hop.
  { apply stays_follows; [|done]. apply stays_ordinary; [apply reg_neutral|done]. }
  destruct op; try done; unfold op_prog.
  - apply returns_dropped. intros []. exists Ready. split; [done|]. apply register_follows.
  - apply returns_dropped. intros []. exists Ready. split; [done|]. apply register_follows.
  - apply returns_dropped. apply register_follows.
  - intros []. by exists Ready.
  - intros []. exists Ready. split; [done|]. intros [r v]. exists Ready. split; [done|].
    destruct r; [|done]. intros []. by exists Ready.
  - apply (follows_noexcept reg_delta). intros [|]; exists Ready; (split; [done|]); [done|].
    intros ts. exists Ready. split; [done|]. apply (follows_mono reg_delta (λ _ q, q = Ready)); [by intros []|].
    apply follows_for_each; [done|]. intros t q _ ->.
    intros []. exists Ready. split; [done|]. intros [[b|e] v]; exists Ready; (split; [done|]);
    intros []; exists Ready; (split; [done|]); intros [[b'|e'] v']; exists Ready; done.
Qed.
End registration.

(** ** The invariant of an interleaved run *)

Section invariant.
Context `{ExternalLaws} {U : Type} (h : host U BusState).

(** User code leaves the bus alone while it is called.  This is no restriction:
    what a callback does to the bus it does through the public operations, which
    here are steps of other threads between the two ends of the call. *)
Definition bystander : Prop :=
  ∀ c w, st (r_world (run h c w)) = st w ∧ locked (r_world (run h c w)) = locked w.

(** The threads run public operations. *)
Definition bus_ops (p : prog bus_resp ()) : Prop := ∃ op, p = op_prog h op.
Abbreviation config := (@config bus_act bus_resp _ U BusState).
Abbreviation step := (thread_step (bus_sem h) bus_ops).
Abbreviation bus_runs := (interleaved (bus_sem h) bus_ops).

(** The shared members against the history, the trace and the phases of the threads. *)
Record reg_data (s : BusState) (hist : list (nat * done_act bus_resp)) (tr : list event)
    (ph : gmap nat reg_phase) (used : gset SubscriptionId) : Prop := {
  rd_spec : spec_run no_listeners (effects hist) = Some (ListenerSet (listeners_ s) used);
  rd_sorted : prio_sorted listener_priority (listeners_ s);
  rd_distinct : NoDup (le_id <$> listeners_ s);
  rd_listed e : e ∈ listeners_ s → le_id e ∈ used;
  rd_used i : i ∈ used → (1 ≤ i ≤ next_id_ s)%Z;
  rd_held : NoDup (map_concat held ph);
  rd_fresh i : i ∈ map_concat held ph → i ∉ used ∧ (1 ≤ i ≤ next_id_ s)%Z;
  rd_next : (0 ≤ next_id_ s ≤ Z.of_nat (length hist))%Z;
  rd_gauge n : listed n (listeners_ s) = (gauge n tr + Z.of_nat (length (map_concat (uncounted n) ph)))%Z;
}.

(** A thread moves from phase [q] to [q']. *)
Lemma move_held (ph : gmap nat reg_phase) i q q' :
  ph !! i = Some q → held q ++ map_concat held (<[i := q']> ph) ≡ₚ held q' ++ map_concat held ph.
Proof. apply map_concat_update. Qed.

Lemma move_uncounted n (ph : gmap nat reg_phase) i q q' :
  ph !! i = Some q →
  length (uncounted n q) + length (map_concat (uncounted n) (<[i := q']> ph)) =
  length (uncounted n q') + length (map_concat (uncounted n) ph).
Proof.
  intros Hi. rewrite <- !length_app. by apply Permutation_length, map_concat_update.
Qed.

(** What an action does to the members that registration is about. *)
Definition registers (a : bus_act) : bool :=
  match a with AFetchId | AInsert _ | ARelease _ => true | _ => false end.

Lemma sem_frame a w x w' tr :
  bystander → locked w = false → registers a = false → bus_sem h a w = (inl x, w', tr) →
  locked w' = false ∧ listeners_ (st w') = listeners_ (st w) ∧ next_id_ (st w') = next_id_ (st w) ∧
  ∀ n, gauge n tr = match a with AEmit m => gauge_delta n (EvMetric m) | _ => 0%Z end.
Proof.
  intros Hby Hl Hr Hsem. destruct w as [hp lk rd us s]. simpl in Hl. subst lk.
  destruct a as [T| |e|i| | | | |t|m| | | |m|c|c|v|v f|v|T v|]; try done;
    unfold bus_sem, section_of in Hsem; simpl in Hsem;
    unfold register_event, with_lock, use_middleware, reply_of, read_core, write_core, name_of,
      payload_of, gets, modify, mbind, comp_bind, mret, comp_ret, emit, now, set_locked in Hsem;
    simpl in Hsem; repeat case_match; simplify_eq/=; split_and!; try done;
    try (intros n; simpl; repeat case_match; lia).
  all: edestruct (Hby c) as [Hst Hlk]; by rewrite ?Hst, ?Hlk.
Qed.

(** *** The steps that registration is about *)

Lemma fetch_data s hist tr ph used i id :
  reg_data s hist tr ph used → ph !! i = Some Ready → id = (next_id_ s + 1)%Z →
  reg_data (set_next_id id s) (hist ++ [(i, Did AFetchId id)]) (tr ++ [])
    (<[i := Fetched id]> ph) used.
Proof.
  intros [] Hi ->. pose proof (move_held ph i _ (Fetched (next_id_ s + 1)) Hi) as Hmove. simpl in Hmove.
  split; simpl; try done.
  - by rewrite effects_snoc, app_nil_r.
  - intros j Hj%rd_used0. lia.
  - rewrite Hmove. apply NoDup_cons. split; [|done]. intros Hin%rd_fresh0. lia.
  - intros j Hj. rewrite Hmove in Hj. apply elem_of_cons in Hj as [->|Hj].
    + split; [intros Hu%rd_used0|]; lia.
    + apply rd_fresh0 in Hj as [? ?]. split; [done|lia].
  - rewrite length_app. simpl. lia.
  - intros n. rewrite app_nil_r, rd_gauge0.
    pose proof (move_uncounted n ph i _ (Fetched (next_id_ s + 1)) Hi) as Hm. simpl in Hm. lia.
Qed.

Lemma insert_data s hist tr ph used i e :
  reg_data s hist tr ph used → ph !! i = Some (Fetched (le_id e)) →
  reg_data (set_listeners (ps_insert listener_priority entry_eqb e (listeners_ s)) s)
    (hist ++ [(i, Did (AInsert e) ())]) (tr ++ []) (<[i := Inserted (name_or_pattern e)]> ph)
    ({[le_id e]} ∪ used).
Proof.
  intros [] Hi. pose proof (move_held ph i _ (Inserted (name_or_pattern e)) Hi) as Hmove. simpl in Hmove.
  assert (le_id e ∈ map_concat held ph) as Hheld by (rewrite <- Hmove; by left).
  assert (∀ y, y ∈ listeners_ s → le_id y ≠ le_id e) as Hne.
  { intros y Hy%rd_listed0 Heq. apply rd_fresh0 in Hheld as [Hu _]. congruence. }
  destruct (rd_fresh0 _ Hheld) as [Hu Hrange].
  rewrite ps_insert_fresh by (try done; intros y Hy; apply Z.eqb_neq; by apply Hne).
  split; simpl; try done.
  - rewrite effects_snoc, spec_run_app, rd_spec0. simpl. by rewrite decide_False.
  - by apply insert_by_sorted.
  - rewrite insert_by_perm, fmap_cons. apply NoDup_cons. split; [|done].
    intros (y & Heq & Hy)%list_elem_of_fmap. by eapply Hne.
  - intros y [->|Hy]%insert_by_elem; [set_solver|]. apply rd_listed0 in Hy. set_solver.
  - intros j [->%elem_of_singleton|Hj]%elem_of_union; [lia|]. apply rd_used0 in Hj. lia.
  - rewrite <- Hmove in rd_held0. by apply NoDup_cons in rd_held0 as [_ ?].
  - intros j Hj. assert (j ∈ map_concat held ph) as Hj' by (rewrite <- Hmove; by right).
    apply rd_fresh0 in Hj' as [Hj' ?]. split; [|done].
    rewrite <- Hmove in rd_held0. apply NoDup_cons in rd_held0 as [Hnot _].
    intros [->%elem_of_singleton|Hin]%elem_of_union; done.
  - rewrite length_app. simpl. lia.
  - intros n. rewrite app_nil_r, listed_insert, rd_gauge0.
    pose proof (move_uncounted n ph i _ (Inserted (name_or_pattern e)) Hi) as Hm. simpl in Hm.
    destruct (String.eqb (name_or_pattern e) n); simpl in Hm; lia.
Qed.

Lemma release_data s hist tr ph used i id q :
  reg_data s hist tr ph used → ph !! i = Some q →
  reg_data (set_listeners (remove_first (λ e, (le_id e =? id)%Z) (listeners_ s)) s)
    (hist ++ [(i, Did (ARelease id) ())])
    (tr ++ match find_entry id (listeners_ s) with
           | Some e => [EvMetric (listeners_dec (name_or_pattern e))]
           | None => []
           end) (<[i := q]> ph) used.
Proof.
  intros [] Hi. rewrite insert_id by done.
  pose proof (remove_first_sublist (λ e, (le_id e =? id)%Z) (listeners_ s)) as Hsub.
  split; simpl; try done.
  - rewrite effects_snoc, spec_run_app, rd_spec0. simpl.
    rewrite (remove_first_unique _ le_id id); [done| |done]. intros x. apply Z.eqb_eq.
  - by eapply prio_sorted_sublist.
  - eapply sublist_NoDup; [exact rd_distinct0|]. by apply fmap_sublist.
  - intros y Hy. apply rd_listed0. by eapply elem_of_sublist.
  - rewrite length_app. simpl. lia.
  - intros n. rewrite listed_remove, gauge_app, rd_gauge0. lia.
Qed.

(** Every other step leaves the members alone. *)
Lemma frame_data s s' hist tr tr' ph used i a x q q' :
  reg_data s hist tr ph used → ph !! i = Some q → reg_delta q (Did a x) = Some q' →
  registers a = false → listeners_ s' = listeners_ s → next_id_ s' = next_id_ s →
  (∀ n, gauge n tr' = match a with AEmit m => gauge_delta n (EvMetric m) | _ => 0%Z end) →
  reg_data s' (hist ++ [(i, Did a x)]) (tr ++ tr') (<[i := q']> ph) used.
Proof.
  intros [] Hi Hδ Ha Hl Hn Hg.
  assert (held q = held q' ∧ ∀ n, Z.of_nat (length (uncounted n q)) =
    (Z.of_nat (length (uncounted n q')) + match a with AEmit m => gauge_delta n (EvMetric m) | _ => 0 end)%Z) as [Hh Hu].
  { destruct a as [T| |e|j| | | | |t|m| | | |m|c|c|v|v f|v|T v|]; try done;
      try (injection Hδ as <-; split; [done|intros n; lia]).
    destruct m; simpl in *; simplify_eq; try (split; [done|intros n; lia]).
    destruct q as [|id|m]; try done. destruct (String.eqb m event) eqn:Hm; [|done].
    apply String.eqb_eq in Hm as ->. simplify_eq. split; [done|]. intros n. simpl.
    destruct (String.eqb event n); simpl; lia. }
  pose proof (move_held ph i q q' Hi) as Hmove. rewrite Hh in Hmove. apply (inj (app _)) in Hmove.
  split; rewrite ?Hl, ?Hn; try done.
  - rewrite effects_snoc. destruct a; try done; by rewrite app_nil_r.
  - by rewrite Hmove.
  - intros j. rewrite Hmove. apply rd_fresh0.
  - rewrite length_app. simpl. lia.
  - intros n. rewrite gauge_app, Hg, rd_gauge0.
    pose proof (move_uncounted n ph i q q' Hi). specialize (Hu n). lia.
Qed.

(** *** The invariant of a run *)

Record reg_inv (c : config) (ph : gmap nat reg_phase) (used : gset SubscriptionId) : Prop := {
  ri_phases : in_phases reg_delta (λ _ q, q = Ready) c ph;
  ri_unlocked : locked (c_world c) = false;
  ri_data : reg_data (st (c_world c)) (c_history c) (c_trace c) ph used;
}.

Lemma reg_act_data (Hby : bystander) w w' hist tr tr' ph used i a x q q' :
  locked w = false → reg_data (st w) hist tr ph used →
  is_u64 (Z.of_nat (length hist) + 1) →
  ph !! i = Some q → reg_delta q (Did a x) = Some q' → bus_sem h a w = (inl x, w', tr') →
  locked w' = false ∧
  ∃ used', reg_data (st w') (hist ++ [(i, Did a x)]) (tr ++ tr') (<[i := q']> ph) used'.
Proof.
  intros Hl Hd Hroom Hi Hδ Hsem. destruct (registers a) eqn:Ha.
  - assert (0 ≤ next_id_ (st w) ≤ Z.of_nat (length hist))%Z as Hn by apply Hd.
    destruct w as [hp lk rd us s]. simpl in *. subst lk.
    destruct a as [T| |e|j| | | | |t|m| | | |m|c|c|v|v f|v|T v|]; try done;
      unfold bus_sem, section_of in Hsem; simpl in Hsem.
    + unfold fresh_id, gets, modify, mbind, comp_bind, mret, comp_ret in Hsem. simpl in Hsem.
      injection Hsem as <- <- <-. split; [done|]. exists used. simpl.
      destruct q; try done. simpl in Hδ. injection Hδ as <-.
      assert (u64_add (next_id_ s) 1 = next_id_ s + 1)%Z as ->.
      { apply u64_add_small. destruct Hroom. split; lia. }
      by apply fetch_data.
    + unfold with_lock, modify, set_locked in Hsem. simpl in Hsem.
      injection Hsem as <- <- <-. split; [done|]. eexists. destruct q; try done. simpl in Hδ.
      destruct (le_id e =? id)%Z eqn:Hid; [|done]. apply Z.eqb_eq in Hid as <-. simplify_eq.
      by apply insert_data.
    + rewrite release_run in Hsem by done. simpl in Hsem. injection Hsem as <- <- <-.
      split; [done|]. exists used. simpl in Hδ. injection Hδ as <-. by apply release_data.
  - destruct (sem_frame a w x w' tr' Hby Hl Ha Hsem) as (Hl' & Hls & Hn & Hg).
    split; [done|]. exists used. by eapply frame_data.
Qed.

Lemma reg_inv_step (Hby : bystander) c c' ph used :
  reg_inv c ph used → step c c' → is_u64 (Z.of_nat (length (c_history c'))) →
  ∃ ph' used', reg_inv c' ph' used'.
Proof.
  intros [Hph Hl Hd] Hstep Hroom.
  assert (∀ p, bus_ops p → follows reg_delta Ready p (λ _ q, q = Ready)) as Hops.
  { intros p [op ->]. apply op_follows_reg. }
  destruct (protocol_step reg_delta _ _ _ _ c c' ph Hops Hph Hstep)
    as [(i & Hi & Hph' & Hw & Hh & Ht)|[(i & a & x & q & q' & tr & Hi & Hδ & Hph' & Hsem & Hh & Ht)
       |(i & o & q & Hi & -> & _ & Hph' & Hw & Hh & Ht)]].
  - exists (<[i := Ready]> ph), used. split; [done|by rewrite Hw|]. rewrite Hw, Hh, Ht.
    destruct Hd. split; try done.
    + by rewrite map_concat_insert.
    + intros j. rewrite map_concat_insert by done. apply rd_fresh0.
    + intros n. by rewrite map_concat_insert.
  - rewrite Hh, length_app in Hroom.
    destruct (reg_act_data Hby (c_world c) (c_world c') (c_history c) (c_trace c) tr ph used i a x q q')
      as (Hl' & used' & Hd'); try done.
    { destruct Hroom. split; simpl in *; lia. }
    exists (<[i := q']> ph), used'. split; [done|done|]. by rewrite Hh, Ht.
  - exists (delete i ph), used. split; [done|by rewrite Hw|]. rewrite Hw, Hh, Ht.
    pose proof (map_concat_delete held ph i Ready Hi) as Hm. simpl in Hm.
    destruct Hd. split; try done.
    + by rewrite <- Hm.
    + intros j. rewrite <- Hm. apply rd_fresh0.
    + intros n. by rewrite <- (map_concat_delete (uncounted n) ph i Ready Hi).
Qed.

(** A bus with no listeners yet, and no thread in it. *)
Definition fresh (w : world U BusState) : Prop :=
  locked w = false ∧ listeners_ (st w) = [] ∧ next_id_ (st w) = 0%Z.

Lemma history_grows c c' : bus_runs c c' → c_history c `prefix_of` c_history c'.
Proof.
  induction 1 as [c|c1 c2 c3 Hstep _ IH]; [done|]. etrans; [|exact IH].
  destruct Hstep; simpl; [done|by apply prefix_app_r|done].
Qed.

Lemma reg_inv_reachable (Hby : bystander) w c :
  fresh w → bus_runs (initial w) c → is_u64 (Z.of_nat (length (c_history c))) →
  ∃ ph used, reg_inv c ph used.
Proof.
  intros (Hl & Hls & Hn) Hrun. revert c Hrun.
  apply (rtc_ind_r (λ c, is_u64 (Z.of_nat (length (c_history c))) → ∃ ph used, reg_inv c ph used)).
  - intros _. exists ∅, ∅. split; [apply in_phases_initial|done|]. simpl.
    split; rewrite ?Hls, ?Hn, ?map_concat_empty; simpl; try done; try (intros; set_solver);
      try (by constructor); intros n; by rewrite map_concat_empty.
  - intros c c' Hrun Hstep IH Hroom.
    assert (length (c_history c) ≤ length (c_history c')) as Hlen.
    { apply prefix_length, history_grows. by apply rtc_once. }
    destruct IH as (ph & used & Hinv); [destruct Hroom; split; lia|]. by eapply reg_inv_step.
Qed.
End invariant.

(** ** The fan-out on any path *)

Section fanout_paths.
Context `{Externals}.
Abbreviation acts := (list (done_act bus_resp)).

(** A call to user code that came back with [r], leaving [v'] in its argument. *)
Definition call_acts (c : call) (r : bool + exn) (v' : EventEnvelope) : acts :=
  [Did (ACall c) (); Did (AReply c) (r, v')].

Definition outcome_of (r : bool + exn) : outcome () :=
  match r with inl _ => Ret () | inr e => Throw e end.

(** The handler of an entry: one call, for a typed handler only when the envelope
    holds a payload of its type. *)
Definition handler_acts (k : handler) (v : EventEnvelope) (l : acts) (o : outcome ()) : Prop :=
  match k with
  | HEnvelope f => ∃ r v', l = call_acts (CallHandler f v) r v' ∧ o = outcome_of r
  | HPayload T f =>
      (l = [Did (APayload T v) None] ∧ o = Ret ()) ∨
      ∃ p r v', l = Did (APayload T v) (Some p) :: call_acts (CallTyped f p) r v' ∧ o = outcome_of r
  | HListener T x =>
      (l = [Did (APayload T v) None] ∧ o = Ret ()) ∨
      (∃ p y r v', x = Some y ∧ o = outcome_of r ∧
         l = Did (APayload T v) (Some p) :: call_acts (CallOnEvent y p) r v') ∨
      (∃ p, x = None ∧ l = [Did (APayload T v) (Some p)] ∧ o = Undef NullDeref)
  end.

(** The error sinks of the middleware, in order. *)
Fixpoint on_error_acts (mws : list obj) (mv : EventEnvelope) (ep : exn) (l : acts) : Prop :=
  match mws with
  | [] => l = []
  | m :: mws => ∃ r v' l', l = call_acts (CallOnError m mv ep) r v' ++ l' ∧ on_error_acts mws v' ep l'
  end.

(** One matching entry: it is counted, its handler is called, and what the handler
    throws is counted and goes to the middleware of that moment. *)
Definition entry_acts (v : EventEnvelope) (name : string) (e : ListenerEntry) (l : acts) : Prop :=
  ∃ lh o, handler_acts (le_handler e) v lh o ∧
    match o with
    | Ret _ => l = Did (AEmit (listener_invocations name)) () :: lh
    | Throw ep => ∃ mws le, on_error_acts mws v ep le ∧
        l = Did (AEmit (listener_invocations name)) () :: lh ++
              Did (AEmit (listener_errors name)) () :: Did AMiddleware mws :: le
    | Undef _ => False
    end.

Lemma ends_call_ref c l o :
  ends (p_call_ref c) l o → ∃ r v', l = call_acts c r v' ∧ o = Ret (r, v').
Proof.
  unfold p_call_ref. rewrite ends_bind.
  intros [([] & l1 & l2 & -> & H1 & H2)|[(e & He & _)|(u & He & _)]];
    try (apply (ends_do (resp:=bus_resp) (ACall c)) in He as (? & _ & [=])).
  apply (ends_do (resp:=bus_resp) (ACall c)) in H1 as ([] & -> & _).
  apply (ends_do (resp:=bus_resp) (AReply c)) in H2 as ([r v'] & -> & ->). by exists r, v'.
Qed.

Lemma ends_call_void c l o :
  ends (p_call_void c) l o → ∃ r v', l = call_acts c r v' ∧ o = outcome_of r.
Proof.
  assert (∀ l o, ends (p_call_fn c) l o → ∃ r v', l = call_acts c r v' ∧
    o = match r with inl b => Ret b | inr e => Throw e end) as Hfn.
  { intros l' o'. unfold p_call_fn. rewrite ends_bind.
    intros [(a & l1 & l2 & -> & H1 & H2)|[(e & He & ->)|(u & He & ->)]];
      try (apply ends_call_ref in He as (? & ? & _ & [=])).
    apply ends_call_ref in H1 as (r & v' & -> & [= ->]). exists r, v'.
    destruct r; simpl in H2; apply ends_leaf in H2 as [-> ->]; by rewrite app_nil_r. }
  unfold p_call_void. rewrite ends_bind.
  intros [(a & l1 & l2 & -> & H1 & H2)|[(e & He & ->)|(u & He & ->)]].
  - apply Hfn in H1 as (r & v' & -> & Hr). apply ends_ret in H2 as [-> ->].
    exists r, v'. destruct r; simplify_eq. by rewrite app_nil_r.
  - apply Hfn in He as (r & v' & -> & Hr). exists r, v'. by destruct r; simplify_eq.
  - apply Hfn in He as (r & v' & -> & Hr). by destruct r.
Qed.

Lemma ends_act_bind {B} a (k : bus_resp a → prog bus_resp B) l o :
  ends (@mbind _ _ (bus_resp a) B k (do_act a)) l o → ∃ x l', l = Did a x :: l' ∧ ends (k x) l' o.
Proof. apply ends_act. Qed.

Lemma ends_run_handler k v l o : ends (p_run_handler k v) l o → handler_acts k v l o.
Proof.
  destruct k as [T f|f|T x]; unfold p_run_handler; simpl.
  - intros ([p|] & l' & -> & He)%ends_act_bind.
    + apply ends_call_void in He as (r & v' & -> & ->). right. by exists p, r, v'.
    + apply ends_ret in He as [-> ->]. by left.
  - apply ends_call_void.
  - intros ([p|] & l' & -> & He)%ends_act_bind; [|apply ends_ret in He as [-> ->]; by left].
    destruct x as [y|].
    + apply ends_call_void in He as (r & v' & -> & ->). right. left. by exists p, y, r, v'.
    + apply ends_leaf in He as [-> ->]. right. right. by exists p.
Qed.

Lemma ends_on_error_loop mws v ep l o :
  ends (p_on_error_loop mws v ep) l o → on_error_acts mws v ep l ∧ o = Ret ().
Proof.
  revert v l. induction mws as [|m mws IH]; intros v l; cbn [p_on_error_loop on_error_acts].
  { by intros [-> ->]%ends_ret. }
  rewrite ends_bind.
  intros [([r v'] & l1 & l2 & -> & H1 & H2)|[(e & He & _)|(u & He & _)]];
    try (apply ends_call_ref in He as (? & ? & _ & [=])).
  apply ends_call_ref in H1 as (r' & v'' & -> & [= <- <-]). apply IH in H2 as [H2 ->].
  split; [|done]. by exists r, v', l2.
Qed.

Lemma ends_deliver_one v name e l :
  entry_matches name e = true → ends (p_deliver_one v name e) l (Ret ()) → entry_acts v name e l.
Proof.
  unfold p_deliver_one. intros -> ([] & l' & -> & He)%ends_act_bind. revert He. rewrite ends_catch.
  intros [[Hh Hne]|(ep & l1 & l2 & -> & Hh & He)].
  - exists l', (Ret ()). split; [by apply ends_run_handler|done].
  - exists l1, (Throw ep). split; [by apply ends_run_handler|].
    apply ends_act_bind in He as ([] & l3 & -> & He). unfold p_run_on_error in He.
    apply ends_noexcept, ends_act_bind in He as (mws & l4 & -> & He).
    apply ends_on_error_loop in He as [He _]. by exists mws, l4.
Qed.

Lemma ends_deliver_loop v name es l :
  ends (p_for_each es (p_deliver_one v name)) l (Ret ()) →
  ∃ segs, Forall2 (entry_acts v name) (List.filter (entry_matches name) es) segs ∧ l = concat segs.
Proof.
  revert l. induction es as [|e es IH]; intros l; simpl.
  { intros [-> _]%ends_ret. by exists []. }
  rewrite ends_bind. intros [([] & l1 & l2 & -> & H1 & H2)|[(?&_&[=])|(?&_&[=])]].
  destruct (IH _ H2) as (segs & Hsegs & ->).
  destruct (entry_matches name e) eqn:Hm.
  - exists (l1 :: segs). split; [|done]. constructor; [|done]. by apply ends_deliver_one.
  - exists segs. split; [done|]. unfold p_deliver_one in H1. rewrite Hm in H1.
    by apply ends_ret in H1 as [-> _].
Qed.

Lemma ends_deliver v l :
  ends (p_deliver_to_listeners v) l (Ret ()) →
  ∃ es name segs, l = Did AListeners es :: Did (AName v) name :: concat segs ∧
    Forall2 (entry_acts v name) (List.filter (entry_matches name) es) segs.
Proof.
  unfold p_deliver_to_listeners. intros (es & l1 & -> & He)%ends_act_bind.
  apply ends_act_bind in He as (name & l2 & -> & He).
  apply ends_deliver_loop in He as (segs & Hs & ->). by exists es, name, segs.
Qed.
End fanout_paths.

(** ** Theorems *)

Section theorems.
Context `{ExternalLaws} {U : Type} (h : host U BusState).
Abbreviation config := (@config bus_act bus_resp _ U BusState).
Abbreviation bus_runs := (interleaved (bus_sem h) (bus_ops h)).

Definition snapshot_of (d : done_act bus_resp) : option (list ListenerEntry) :=
  match d with
  | Did a x => match a return bus_resp a → option (list ListenerEntry) with
      | AListeners => Some
      | _ => λ _, None
      end x
  end.

(** Snapshots are taken of the abstract set. *)
Lemma snapshot_spec w c h1 i es h2 :
  bystander h → fresh w → bus_runs (initial w) c → is_u64 (Z.of_nat (length (c_history c))) →
  c_history c = h1 ++ (i, Did AListeners es) :: h2 →
  ∃ used, spec_run no_listeners (effects h1) = Some (ListenerSet es used).
Proof.
  intros Hby Hw Hrun. revert c Hrun h2.
  apply (rtc_ind_r (λ c, ∀ h2, is_u64 (Z.of_nat (length (c_history c))) →
    c_history c = h1 ++ (i, Did AListeners es) :: h2 →
    ∃ used, spec_run no_listeners (effects h1) = Some (ListenerSet es used))).
  { simpl. intros [|??] _ Heq; by destruct h1. }
  intros c c' Hrun Hstep IH h2 Hroom Hhist.
  assert (Hlen : length (c_history c) ≤ length (c_history c')).
  { apply prefix_length, (history_grows h). by apply rtc_once. }
  assert (is_u64 (Z.of_nat (length (c_history c)))) as Hroom' by (destruct Hroom; split; lia).
  destruct (reg_inv_reachable h Hby w c Hw Hrun Hroom') as (ph & used & Hinv).
  destruct Hstep as [j p w0 ts hist tr Hj Hp|j a k x w0 w1 ts hist tr tr' Hj Hsem|j o w0 ts hist tr Hj Hu];
    simpl in *; try by eapply IH.
  destruct h2 as [|d h2 _] using rev_ind.
  - apply app_inj_tail in Hhist as [-> Hx]. clear IH. exists used.
    pose proof (f_equal (λ y, snapshot_of y.2) Hx) as Hes. simpl in Hes. clear Hx.
    destruct a; try done. injection Hes as <-.
    destruct Hinv as [_ Hl Hd]. simpl in *.
    unfold bus_sem, section_of in Hsem. simpl in Hsem. rewrite with_lock_gets in Hsem by done.
    injection Hsem as <- <- <-. apply Hd.
  - rewrite app_comm_cons, app_assoc in Hhist. apply app_inj_tail in Hhist as [-> _]. by eapply IH.
Qed.

Lemma of_thread_split i (hist : list (nat * done_act bus_resp)) l1 d l2 :
  of_thread i hist = l1 ++ d :: l2 →
  ∃ h1 h2, hist = h1 ++ (i, d) :: h2 ∧ of_thread i h1 = l1.
Proof.
  revert l1. induction hist as [|[j d'] hist IH]; intros l1; simpl.
  { by destruct l1. }
  destruct (decide (j = i)) as [->|Hne]; simpl.
  - destruct l1 as [|d1 l1]; simpl; intros [= -> Hrest].
    + by exists [], hist.
    + destruct (IH _ Hrest) as (h1 & h2 & -> & Hh1). exists ((i, d1) :: h1), h2.
      split; [done|]. simpl. rewrite decide_True by done. by rewrite Hh1.
  - intros Hrest. destruct (IH _ Hrest) as (h1 & h2 & -> & Hh1). exists ((j, d') :: h1), h2.
    split; [done|]. simpl. by rewrite decide_False.
Qed.

(** C5: the listener set is linearizable.  Whatever public operations any number of
    threads run, and however their sections interleave, the sequence of inserted
    registrations and of releases, in the order in which they took the lock, is a
    run of the sequential listener set: every registration got an id that no other
    ever had, the list that the bus iterates is the one of that object, in priority
    order and in order of registration within a priority, with distinct ids. *)
Theorem listeners_linearizable w c :
  bystander h → fresh w → bus_runs (initial w) c → is_u64 (Z.of_nat (length (c_history c))) →
  (∃ used, spec_run no_listeners (effects (c_history c)) =
           Some (ListenerSet (listeners_ (st (c_world c))) used)) ∧
  prio_sorted listener_priority (listeners_ (st (c_world c))) ∧
  NoDup (le_id <$> listeners_ (st (c_world c))) ∧ locked (c_world c) = false.
Proof.
  intros Hby Hw Hrun Hroom.
  destruct (reg_inv_reachable h Hby w c Hw Hrun Hroom) as (ph & used & [_ Hl Hd]).
  split_and!; [|apply Hd..|done]. exists used. apply Hd.
Qed.

(** The gauge under concurrency.  In every interleaving the gauge of a name is
    behind the number of its listeners, by at most the number of threads that are
    in an operation, and equal to it whenever no thread is. *)
Theorem gauge_lags w c n :
  bystander h → fresh w → bus_runs (initial w) c → is_u64 (Z.of_nat (length (c_history c))) →
  (gauge n (c_trace c) ≤ listed n (listeners_ (st (c_world c)))
     ≤ gauge n (c_trace c) + Z.of_nat (base.size (c_threads c)))%Z.
Proof.
  intros Hby Hw Hrun Hroom.
  destruct (reg_inv_reachable h Hby w c Hw Hrun Hroom) as (ph & used & [Hph _ Hd]).
  rewrite (rd_gauge _ _ _ _ _ Hd n).
  assert (base.size ph = base.size (c_threads c)) as <-.
  { rewrite <- !size_dom. f_equal. apply set_eq. intros i. rewrite !elem_of_dom.
    pose proof (in_phases_lookup reg_delta _ c ph i Hph) as Hi.
    by destruct (c_threads c !! i), (ph !! i). }
  enough (length (map_concat (uncounted n) ph) ≤ base.size ph) by lia. clear Hph Hd.
  induction ph as [|i q ph Hi IH] using map_ind; [by rewrite map_concat_empty|].
  rewrite map_concat_insert, map_size_insert_None, length_app by done.
  enough (length (uncounted n q) ≤ 1) by lia. destruct q as [| |m]; simpl; [lia..|].
  destruct (String.eqb m n); simpl; lia.
Qed.

(** C6: a fan-out is atomic in the listener set.  A completed [deliver_to_listeners]
    of a thread, among any operations of the others, calls exactly the matching
    listeners that the sequential listener set holds at the moment of its snapshot,
    each once and in order, whatever is registered or released while it runs; what
    a handler throws goes to the middleware of that later moment. *)
Theorem fanout_of_snapshot w c i l1 l l2 v :
  bystander h → fresh w → bus_runs (initial w) c → is_u64 (Z.of_nat (length (c_history c))) →
  of_thread i (c_history c) = l1 ++ l ++ l2 → ends (p_deliver_to_listeners v) l (Ret ()) →
  ∃ h1 h2 es used name segs,
    c_history c = h1 ++ (i, Did AListeners es) :: h2 ∧ of_thread i h1 = l1 ∧
    spec_run no_listeners (effects h1) = Some (ListenerSet es used) ∧
    Forall2 (entry_acts v name) (List.filter (entry_matches name) es) segs ∧
    l = Did AListeners es :: Did (AName v) name :: concat segs.
Proof.
  intros Hby Hw Hrun Hroom Hthread Hends.
  destruct (ends_deliver v l Hends) as (es & name & segs & -> & Hsegs).
  destruct (of_thread_split i _ l1 _ _ Hthread) as (h1 & h2 & Hhist & Hl1).
  destruct (snapshot_spec w c h1 i es h2 Hby Hw Hrun Hroom Hhist) as [used Hspec].
  by exists h1, h2, es, used, name, segs.
Qed.
End theorems.

(** ** Witnesses *)

(** Two threads register, so that the second to fetch an id is the first to insert;
    a third delivers, and a listener of its snapshot is released before it is called. *)
Abbreviation demo_acts := (@bus_act concrete_externals).
Abbreviation demo_prog := (op_prog (U:=()) faulty_host).

Definition demo_env : EventEnvelope := envelope_at 1%positive.
Definition demo_start : world () BusState := world_with (order_core []) new_Bus.

Definition demo_moves : list (@move demo_acts bus_resp) :=
  [Start 1 (demo_prog (OpListenPattern "order" 3 0)); Start 2 (demo_prog (OpListenPattern "*" 4 0));
   Advance 1; Advance 2; Advance 2; Advance 1; Advance 2; Advance 2; Advance 2; Finish 2;
   Start 3 (demo_prog (OpDeliver demo_env)); Advance 3;
   Start 2 (demo_prog (OpReleaseId 2)); Advance 2; Finish 2;
   Advance 3; Advance 3; Advance 3; Advance 3; Advance 3; Advance 3; Advance 3; Finish 3;
   Advance 1; Advance 1; Finish 1].

Definition demo_end : config :=
  end_of (bus_sem faulty_host) demo_moves (initial demo_start).

Lemma demo_bystander : bystander (U:=()) faulty_host.
Proof. by intros c w. Qed.

Lemma demo_fresh : fresh demo_start.
Proof. done. Qed.

Lemma demo_runs : interleaved (bus_sem faulty_host) (bus_ops faulty_host) (initial demo_start) demo_end.
Proof.
  apply end_of_interleaved.
  - repeat (apply Forall_cons; split; [first [exact I|by eexists]|]). apply Forall_nil_2.
  - exact (@eq_refl _ true : bool_decide (is_Some (make_moves (bus_sem faulty_host) demo_moves (initial demo_start))) = true).
Qed.

Lemma demo_room : is_u64 (Z.of_nat (length (c_history demo_end))).
Proof.
  split; [by apply Nat2Z.is_nonneg|].
  exact (@eq_refl _ Lt : (Z.of_nat (length (c_history demo_end)) ?= u64_modulus)%Z = Lt).
Qed.

(** What the third thread did. *)
Definition demo_delivery : list (done_act bus_resp) :=
  let first := MkEntry 1 (HEnvelope 3) "order" false 0 in
  let second := MkEntry 2 (HEnvelope 4) "*" true 0 in
  [Did AListeners [second; first]; Did (AName demo_env) "order"] ++
  Did (AEmit (listener_invocations "order")) () :: call_acts (CallHandler 4 demo_env) (inl true) demo_env ++
  Did (AEmit (listener_invocations "order")) () :: call_acts (CallHandler 3 demo_env) (inl true) demo_env.

Lemma demo_delivery_done : of_thread 3 (c_history demo_end) = demo_delivery.
Proof. exact (@eq_refl _ demo_delivery : of_thread 3 (c_history demo_end) = demo_delivery). Qed.

Lemma demo_delivery_ends : ends (p_deliver_to_listeners demo_env) demo_delivery (Ret ()).
Proof. unfold ends. repeat (eexists; split; [reflexivity|]). reflexivity. Qed.

Lemma listeners_linearizable_witness :
  (∃ used, spec_run no_listeners (effects (c_history demo_end)) =
           Some (ListenerSet (listeners_ (st (c_world demo_end))) used)) ∧
  prio_sorted listener_priority (listeners_ (st (c_world demo_end))) ∧
  NoDup (le_id <$> listeners_ (st (c_world demo_end))) ∧ locked (c_world demo_end) = false.
Proof.
  exact (listeners_linearizable faulty_host demo_start demo_end demo_bystander demo_fresh demo_runs demo_room).
Defined.

Lemma gauge_lags_witness :
  (gauge "order" (c_trace demo_end) ≤ listed "order" (listeners_ (st (c_world demo_end)))
     ≤ gauge "order" (c_trace demo_end) + Z.of_nat (base.size (c_threads demo_end)))%Z.
Proof.
  exact (gauge_lags faulty_host demo_start demo_end "order" demo_bystander demo_fresh demo_runs demo_room).
Defined.

Lemma fanout_of_snapshot_witness :
  ∃ h1 h2 es used name segs,
    c_history demo_end = h1 ++ (3, Did AListeners es) :: h2 ∧ of_thread 3 h1 = [] ∧
    spec_run no_listeners (effects h1) = Some (ListenerSet es used) ∧
    Forall2 (entry_acts demo_env name) (List.filter (entry_matches name) es) segs ∧
    demo_delivery = Did AListeners es :: Did (AName demo_env) name :: concat segs.
Proof.
  apply (fanout_of_snapshot faulty_host demo_start demo_end 3 [] demo_delivery [] demo_env
    demo_bystander demo_fresh demo_runs demo_room).
  - by rewrite demo_delivery_done, app_nil_r.
  - apply demo_delivery_ends.
Defined.

(** In that run the listener registered second is called first, after its release. *)
Example demo_listeners : le_id <$> listeners_ (st (c_world demo_end)) = [1%Z].
Proof. reflexivity. Qed.
