(* ===== verification/BusRaces.v ===== *)
(** * Shutdown and first registrations under interleaving ([include/conduit/bus.hpp])

    However often and from however many threads [shutdown] is called, one call takes
    the transports, and it detaches each of them once; a transport that is registered
    later, also by an attach that was under way, is never detached.  [self_alias_] is
    read and written outside of every lock: two first registrations race on it. *)

From S2P Require Import Prelude Exceptions External Flags Instances Envelope Serialization Glob World WorldLogic WorldSafety Hosts Listener Bus BusTraces BusListeners BusLifecycle Threads BusThreads BusInterleaved.

(** ** The protocol of a shutdown *)

Section shutdown.
Context `{Externals}.

(** Not in a shutdown; the first to exchange the flag; detaching what it took. *)
Inductive stop_phase :=
  | Running
  | MayTake
  | Stopping (rest : list obj).

Definition stop_delta (q : stop_phase) (d : done_act bus_resp) : option stop_phase :=
  match d with
  | Did a x =>
      match a return bus_resp a → option stop_phase with
      | AExchange => λ was,
          match q with Running => Some (if was then Running else MayTake) | _ => None end
      | ATakeTransports => λ ts, match q with MayTake => Some (Stopping ts) | _ => None end
      | ACall (CallDetach t) => λ _,
          match q with
          | Stopping (t' :: rest) => if decide (t = t') then Some (Stopping rest) else None
          | _ => None
          end
      | _ => λ _, Some q
      end x
  end.

(** A thread that ends has detached all that it took, unless it terminated. *)
Definition stop_end (o : outcome ()) (q : stop_phase) : Prop :=
  is_undef o ∨ q = Running ∨ q = Stopping [].

Definition may_take (q : stop_phase) : list () := match q with MayTake => [()] | _ => [] end.
Definition still_attached (q : stop_phase) : list obj :=
  match q with Stopping rest => rest | _ => [] end.

(** The sets of transports taken, and the transports detached, in a history. *)
Definition taken_by (d : nat * done_act bus_resp) : option (list obj) :=
  match d.2 with
  | Did a x =>
      match a return bus_resp a → option (list obj) with
      | ATakeTransports => Some
      | _ => λ _, None
      end x
  end.
Definition detached_in (d : nat * done_act bus_resp) : option obj :=
  match did d.2 with ACall (CallDetach t) => Some t | _ => None end.
Definition taken (hist : list (nat * done_act bus_resp)) : list (list obj) := omap taken_by hist.
Definition detached (hist : list (nat * done_act bus_resp)) : list obj := omap detached_in hist.

Context {U : Type} (h : host U BusState).

Lemma stop_neutral a : ordinary a = true → ∀ q x, stop_delta q (Did a x) = Some q.
Proof. destruct a as [| | | | | | | | | | | | |[] |[]| | | | | |]; done. Qed.

Lemma stop_stays_register name k pat pr :
  Threads.stays stop_delta (p_register_listener_for_name name k pat pr).
Proof. unfold p_register_listener_for_name, p_shared_from_this_safe. stays. Qed.

Lemma shutdown_one_follows t rest :
  follows stop_delta (Stopping (t :: rest)) (p_shutdown_one t)
    (λ o q, is_undef o ∨ (o = Ret () ∧ q = Stopping rest)).
Proof.
  intros []. exists (Stopping (t :: rest)). split; [done|].
  intros [[b|e] v]; exists (Stopping (t :: rest)); (split; [done|]);
    intros []; exists (Stopping rest); (split; [simpl; by rewrite decide_True|]);
    intros [[b'|e'] v']; exists (Stopping rest); (split; [done|]); first [by right|left; by eexists].
Qed.

Lemma shutdown_loop_follows ts :
  follows stop_delta (Stopping ts) (p_for_each ts p_shutdown_one)
    (λ o q, is_undef o ∨ (o = Ret () ∧ q = Stopping [])).
Proof.
  induction ts as [|t ts IH]; [by right|]. apply follows_bind.
  eapply follows_mono; [|apply shutdown_one_follows].
  intros o q [[u ->]|[-> ->]]; [left; by eexists|exact IH].
Qed.

Lemma op_follows_stop op : follows stop_delta Running (op_prog h op) stop_end.
Proof.
  destruct (ordinary_op op) eqn:Hop.
  { apply stays_follows; [|right; by left]. apply stays_ordinary; [apply stop_neutral|done]. }
  assert (∀ A (p : prog bus_resp A), Threads.stays stop_delta p →
    follows stop_delta Running (_ ← p; mret ()) stop_end) as Hdrop.
  { intros A p Hp. apply stays_follows; [|right; by left].
    apply stays_bind; [done|]. intros _. apply stays_ret. }
  destruct op; try done; unfold op_prog.
  - apply Hdrop. apply stays_bind; [by apply stays_do; intros [] ?|intros _; apply stop_stays_register].
  - apply Hdrop. apply stays_bind; [by apply stays_do; intros [] ?|intros _; apply stop_stays_register].
  - apply Hdrop. apply stop_stays_register.
  - intros []. exists Running. split; [done|]. right. by left.
  - intros []. exists Running. split; [done|]. intros [r v]. exists Running. split; [done|].
    destruct r; [|right; by left]. intros []. exists Running. split; [done|]. right. by left.
  - apply (follows_noexcept stop_delta). intros [|]; [exists Running; split; [done|right; by left]|].
    exists MayTake. split; [done|]. intros ts. exists (Stopping ts). split; [done|].
    eapply follows_mono; [|apply shutdown_loop_follows].
    intros o q [[u ->]|[-> ->]]; [left; by eexists|right; by right].
Qed.

(** ** The invariant *)

Record stop_inv (c : @config bus_act bus_resp _ U BusState) (ph : gmap nat stop_phase) : Prop := {
  si_phases : in_phases stop_delta stop_end c ph;
  si_once : length (taken (c_history c)) + length (map_concat may_take ph) =
            if shutdown_ (st (c_world c)) then 1 else 0;
  si_all : detached (c_history c) ++ map_concat still_attached ph ≡ₚ concat (taken (c_history c));
}.

Lemma taken_snoc hist d : taken (hist ++ [d]) = taken hist ++ option_list (taken_by d).
Proof. unfold taken. rewrite omap_app. simpl. by destruct (taken_by d). Qed.

Lemma detached_snoc hist d : detached (hist ++ [d]) = detached hist ++ option_list (detached_in d).
Proof. unfold detached. rewrite omap_app. simpl. by destruct (detached_in d). Qed.

(** Only [shutdown] sets the flag. *)
Lemma sem_shutdown_frame a w x w' tr :
  bystander h → a ≠ AExchange → bus_sem h a w = (inl x, w', tr) → shutdown_ (st w') = shutdown_ (st w).
Proof.
  intros Hby Ha Hsem. destruct w as [hp lk rd us s].
  destruct a as [T| |e|i| | | | |t|m| | | |m|c|c|v|v f|v|T v|]; try done;
    unfold bus_sem, section_of in Hsem; simpl in Hsem;
    unfold use_middleware, register_event, fresh_id, release, noexcept, with_lock, reply_of, read_core, write_core,
      name_of, payload_of, gets, modify, mbind, comp_bind, mret, comp_ret, emit, now, set_locked in Hsem;
    simpl in Hsem; repeat case_match; simplify_eq/=; try done.
  all: edestruct (Hby c) as [Hst _]; by rewrite ?Hst.
Qed.

(** What a step adds to the history and takes from its phase. *)
Lemma stop_delta_balance q q' i a x :
  stop_delta q (Did a x) = Some q' → a ≠ AExchange →
  length (option_list (taken_by (i, Did a x))) + length (may_take q') = length (may_take q) ∧
  option_list (detached_in (i, Did a x)) ++ still_attached q' =
    still_attached q ++ concat (option_list (taken_by (i, Did a x))).
Proof.
  intros Hδ Ha.
  destruct a as [T| |e|j| | | | |t|m| | | |m|c|cl|v|v f|v|T v|]; simpl in *; try done;
    try (by simplify_eq; rewrite app_nil_r).
  - destruct q; simplify_eq. split; [done|]. simpl. by rewrite app_nil_r.
  - destruct c as [| | | | | | | | | | | |t]; simpl in *; try (by simplify_eq; rewrite app_nil_r).
    destruct q as [| |[|t' rest]]; try done. destruct (decide (t = t')) as [->|]; [|done].
    simplify_eq. simpl. by rewrite app_nil_r.
Qed.

Lemma stop_exchange_balance q q' (was : bool) :
  stop_delta q (Did AExchange was) = Some q' →
  may_take q = [] ∧ length (may_take q') = (if was then 0 else 1) ∧
  still_attached q = [] ∧ still_attached q' = [].
Proof. destruct q; try done. simpl. intros [= <-]. by destruct was. Qed.

Lemma stop_act c c' ph i a x q q' tr :
  bystander h → stop_inv c ph → ph !! i = Some q → stop_delta q (Did a x) = Some q' →
  in_phases stop_delta stop_end c' (<[i := q']> ph) →
  bus_sem h a (c_world c) = (inl x, c_world c', tr) →
  c_history c' = c_history c ++ [(i, Did a x)] → stop_inv c' (<[i := q']> ph).
Proof.
  intros Hby [Hph Honce Hall] Hi Hδ Hph' Hsem Hh.
  pose proof (Permutation_length (map_concat_update may_take ph i q q' Hi)) as Hmay.
  rewrite !length_app in Hmay.
  pose proof (map_concat_update still_attached ph i q q' Hi) as Hrest.
  assert (a = AExchange ∨ a ≠ AExchange) as [->|Ha] by (destruct a; (by left) || by right).
  - destruct (stop_exchange_balance q q' x Hδ) as (Hm & Hm' & Hs & Hs').
    rewrite Hm, Hm' in Hmay. rewrite Hs, Hs' in Hrest. simpl in Hmay, Hrest.
    unfold bus_sem, section_of in Hsem. simpl in Hsem.
    unfold gets, modify, mbind, comp_bind, mret, comp_ret in Hsem. simpl in Hsem.
    injection Hsem as <- Hw _.
    split; [done|..]; rewrite <- ?Hw, ?Hh, ?taken_snoc, ?detached_snoc; simpl; rewrite !app_nil_r.
    + destruct (shutdown_ (st (c_world c))); simpl in *; lia.
    + by rewrite Hrest.
  - destruct (stop_delta_balance q q' i a x Hδ Ha) as [Hb1 Hb2].
    split; [done|..]; rewrite Hh, ?taken_snoc, ?detached_snoc, ?length_app.
    + rewrite (sem_shutdown_frame _ _ _ _ _ Hby Ha Hsem). lia.
    + rewrite concat_app. apply (Permutation_app_inv_l (still_attached q)).
      trans (detached (c_history c) ++ option_list (detached_in (i, Did a x)) ++
             still_attached q ++ map_concat still_attached (<[i:=q']> ph)); [solve_Permutation|].
      rewrite Hrest, (assoc_L app (option_list _)), Hb2, <- Hall. solve_Permutation.
Qed.

Lemma stop_inv_reachable w c :
  bystander h → shutdown_ (st w) = false → interleaved (bus_sem h) (bus_ops h) (initial w) c →
  ∃ ph, stop_inv c ph.
Proof.
  intros Hby Hw. revert c. apply (rtc_ind_r (λ c, ∃ ph, stop_inv c ph)).
  { exists ∅. split; [apply in_phases_initial| |]; simpl; rewrite ?map_concat_empty; [by rewrite Hw|done]. }
  intros c c' _ Hstep [ph Hinv].
  assert (∀ p, bus_ops h p → follows stop_delta Running p stop_end) as Hops.
  { intros p [op ->]. apply op_follows_stop. }
  destruct (protocol_step stop_delta _ _ _ _ c c' ph Hops (si_phases _ _ Hinv) Hstep)
    as [(i & Hi & Hph' & Hw' & Hh & Ht)|[(i & a & x & q & q' & tr & Hi & Hδ & Hph' & Hsem & Hh & Ht)
       |(i & o & q & Hi & Hq & Ho & Hph' & Hw' & Hh & Ht)]].
  - exists (<[i := Running]> ph). destruct Hinv. split; [done|..];
      rewrite ?Hw', Hh, map_concat_insert by done; done.
  - exists (<[i := q']> ph). by eapply stop_act.
  - exists (delete i ph). destruct Hinv as [_ Honce Hall].
    pose proof (map_concat_delete may_take ph i q Hi) as Hm.
    pose proof (map_concat_delete still_attached ph i q Hi) as Hs.
    split; [done|..]; rewrite ?Hw', Hh; destruct Hq as [?|[->| ->]]; try done; by rewrite ?Hm, ?Hs in *.
Qed.
End shutdown.

(** ** The alias of [this] *)

Section alias.
Context `{ExternalLaws} {U : Type} (h : host U BusState).
Abbreviation config := (@config bus_act bus_resp _ U BusState).
Abbreviation bus_runs := (interleaved (bus_sem h) (bus_ops h)).

(** The unsynchronised access to [self_alias_] that a thread is about to make;
    [true] is a write. *)
Definition alias_access (p : prog bus_resp ()) : option bool :=
  match p with
  | Act AGetAlias _ => Some false
  | Act ASetAlias _ => Some true
  | _ => None
  end.

(** A data race: two threads are about to access it, and one of them writes. *)
Definition alias_race (c : config) : Prop :=
  ∃ i j p q b, i ≠ j ∧ c_threads c !! i = Some p ∧ c_threads c !! j = Some q ∧
    alias_access p = Some true ∧ alias_access q = Some b.

(** The operations that register a listener. *)
Definition registers (op : bus_op) : bool :=
  match op with OpListenTyped _ _ _ | OpListenListener _ _ | OpListenPattern _ _ _ => true | _ => false end.

(** From [c] to [c'] only thread [i] ran: it has read null and is about to write, and
    nothing is locked. *)
Definition poised (c c' : config) (i : nat) : Prop :=
  (∃ k, c_threads c' = <[i := Act ASetAlias k]> (c_threads c)) ∧
  (∃ hist, c_history c' = c_history c ++ hist) ∧
  (i, Did AGetAlias false) ∈ c_history c' ∧
  locked (c_world c') = false ∧ self_alias_ (st (c_world c')) = false.

(** A thread writes only after it has read null. *)
Definition alias_delta (q : bool) (d : done_act bus_resp) : option bool :=
  match d with
  | Did a x =>
      match a return bus_resp a → option bool with
      | AGetAlias => λ set, if (set : bool) then Some q else Some true
      | ASetAlias => λ _, if q then Some false else None
      | _ => λ _, Some q
      end x
  end.

Lemma alias_neutral a : ordinary a = true → ∀ q x, alias_delta q (Did a x) = Some q.
Proof. destruct a as [| | | | | | | | | | | | |[] |[]| | | | | |]; done. Qed.

Lemma register_follows_alias name k pat pr (Q : outcome () → bool → Prop) :
  (∀ o, Q o false) →
  follows alias_delta false (_ ← p_register_listener_for_name name k pat pr; mret ()) Q.
Proof.
  intros HQ id. exists false. split; [done|]. intros []. exists false. split; [done|].
  intros []. exists false. split; [done|].
  intros [|]; [exists false; split; [done|apply HQ]|]. exists true. split; [done|].
  intros []. exists false. split; [done|apply HQ].
Qed.

Lemma op_follows_alias op : follows alias_delta false (op_prog h op) (λ _ _, True).
Proof.
  destruct (ordinary_op op) eqn:Hop.
  { apply stays_follows; [|done]. apply stays_ordinary; [apply alias_neutral|done]. }
  destruct op; try done; unfold op_prog.
  - intros []. exists false. split; [done|]. by apply register_follows_alias.
  - intros []. exists false. split; [done|]. by apply register_follows_alias.
  - by apply register_follows_alias.
  - intros []. by exists false.
  - intros []. exists false. split; [done|]. intros [r v]. exists false. split; [done|].
    destruct r; [|done]. intros []. by exists false.
  - apply (follows_noexcept alias_delta). intros [|]; exists false; (split; [done|]); [done|].
    intros ts. exists false. split; [done|].
    apply (follows_mono alias_delta (λ _ q, q = false)); [by intros []|].
    apply follows_for_each; [done|]. intros t q _ ->.
    intros []. exists false. split; [done|]. intros [[b|e] v]; exists false; (split; [done|]);
    intros []; exists false; (split; [done|]); intros [[b'|e'] v']; exists false; done.
Qed.

(** Nothing clears the alias. *)
Lemma sem_alias_frame a w x w' tr :
  bystander h → self_alias_ (st w) = true → bus_sem h a w = (inl x, w', tr) →
  self_alias_ (st w') = true ∧ ∀ q q', alias_delta q (Did a x) = Some q' → q = false → q' = false.
Proof.
  intros Hby Hset Hsem. destruct w as [hp lk rd us s]. simpl in Hset.
  destruct a as [T| |e|i| | | | |t|m| | | |m|c|c|v|v f|v|T v|];
    unfold bus_sem, section_of in Hsem; simpl in Hsem;
    unfold use_middleware, register_event, fresh_id, release, noexcept, with_lock, reply_of,
      read_core, write_core, name_of, payload_of, gets, modify, mbind, comp_bind, mret, comp_ret,
      emit, now, set_locked in Hsem;
    simpl in Hsem; repeat case_match; simplify_eq/=; split; try done; try (intros; by simplify_eq).
  all: try (edestruct (Hby c) as [Hst _]; by rewrite ?Hst).
  intros q q'. rewrite Hset. intros [= ->]. done.
Qed.

Lemma alias_set_reachable w c :
  bystander h → self_alias_ (st w) = true → bus_runs (initial w) c →
  self_alias_ (st (c_world c)) = true ∧
  ∃ ph, in_phases alias_delta (λ _ _, True) c ph ∧ map_Forall (λ _ q, q = false) ph.
Proof.
  intros Hby Hw. revert c.
  apply (rtc_ind_r (λ c, self_alias_ (st (c_world c)) = true ∧
    ∃ ph, in_phases alias_delta (λ _ _, True) c ph ∧ map_Forall (λ _ q, q = false) ph)).
  { split; [done|]. exists ∅. split; [apply in_phases_initial|apply map_Forall_empty]. }
  intros c c' _ Hstep [Hset (ph & Hph & Hall)].
  assert (∀ p, bus_ops h p → follows alias_delta false p (λ _ _, True)) as Hops.
  { intros p [op ->]. apply op_follows_alias. }
  destruct (protocol_step alias_delta _ _ _ _ c c' ph Hops Hph Hstep)
    as [(i & Hi & Hph' & Hw' & _)|[(i & a & x & q & q' & tr & Hi & Hδ & Hph' & Hsem & _)
       |(i & o & q & Hi & _ & _ & Hph' & Hw' & _)]].
  - rewrite Hw'. split; [done|]. eexists. split; [exact Hph'|]. by apply map_Forall_insert_2.
  - destruct (sem_alias_frame a _ x _ tr Hby Hset Hsem) as [Hset' Hq].
    split; [done|]. eexists. split; [exact Hph'|]. apply map_Forall_insert_2; [|done].
    by eapply Hq, (map_Forall_lookup_1 _ _ _ _ Hall Hi).
  - rewrite Hw'. split; [done|]. eexists. split; [exact Hph'|]. by apply map_Forall_delete.
Qed.
End alias.

(** ** Theorems *)

Section theorems.
Context `{ExternalLaws} {U : Type} (h : host U BusState).
Abbreviation config := (@config bus_act bus_resp _ U BusState).
Abbreviation bus_runs := (interleaved (bus_sem h) (bus_ops h)).

(** C13: shutdown happens once.  However many threads call [shutdown], in whatever
    interleaving with other operations, the transports are taken at most once; no
    transport is detached more often than it was taken; and when no thread is in an
    operation any more, exactly the transports that were taken have been detached,
    each once. *)
Theorem shutdown_detaches_once w c :
  bystander h → shutdown_ (st w) = false → bus_runs (initial w) c →
  length (taken (c_history c)) ≤ 1 ∧
  detached (c_history c) ⊆+ concat (taken (c_history c)) ∧
  (c_threads c = ∅ → detached (c_history c) ≡ₚ concat (taken (c_history c))).
Proof.
  intros Hby Hw Hrun. destruct (stop_inv_reachable h w c Hby Hw Hrun) as [ph [Hph Honce Hall]].
  split_and!.
  - destruct (shutdown_ (st (c_world c))); lia.
  - rewrite <- Hall. apply submseteq_inserts_r. done.
  - intros Hnone. assert (ph = ∅) as ->.
    { apply map_empty. intros i. pose proof (in_phases_lookup _ _ c ph i Hph) as Hi.
      rewrite Hnone, lookup_empty in Hi. by destruct (ph !! i). }
    by rewrite map_concat_empty, app_nil_r in Hall.
Qed.

(** The destructor's body on a bus that was shut down makes no call and changes nothing. *)
Lemma destroy_stopped (w : world U BusState) :
  locked w = false → shutdown_ (st w) = true →
  ∃ tr, destroy h w = (Ret (), w, tr) ∧ ∀ c, EvCall c ∉ tr.
Proof.
  intros Hl Hs. destruct w as [hp lk rd us s]. simpl in *. subst lk.
  pose proof (shutdown_again h (World hp false rd us s) Hs) as Hsh.
  set (w1 := World hp true rd us s).
  assert (∀ l, ∃ tr, for_each l (λ e, emit (listeners_dec (name_or_pattern e))) w1 = (Ret (), w1, tr) ∧
    ∀ c, EvCall c ∉ tr) as Hloop.
  { induction l as [|e l (tr & Hrun & Hc)]; [exists []; split; [done|set_solver]|].
    simpl. unfold mbind, comp_bind, emit in *. simpl. unfold w1 in *. rewrite Hrun.
    eexists. split; [done|]. intros c. rewrite elem_of_cons. intros [?|?]; [done|by eapply Hc]. }
  destruct (Hloop (listeners_ s)) as (tr & Hrun & Hc).
  exists tr. split; [|done].
  unfold destroy, noexcept. unfold mbind at 1, comp_bind at 1. rewrite Hsh.
  unfold with_lock. cbn [locked]. change (set_locked true (World hp false rd us s)) with w1.
  rewrite gets_then. change (listeners_ (st w1)) with (listeners_ s). by rewrite Hrun.
Qed.

(** C26: a late transport is never detached by the bus.  Once a shutdown has taken the
    transports, a transport that is not among them, because it is attached later or
    because its attach was under way, is not detached in any interleaving; no later
    shutdown will, as the flag stays set; and when all threads are done the body of the
    bus's destructor neither flushes nor detaches it: it makes no call and leaves
    [transports_] as it is.  All that is left for such a transport is that the
    destruction of the members drops the bus's reference to it. *)
Theorem late_transport_never_detached w c h1 i ts h2 t :
  bystander h → shutdown_ (st w) = false → locked w = false → bus_runs (initial w) c →
  c_history c = h1 ++ (i, Did ATakeTransports ts) :: h2 → t ∉ ts →
  t ∉ detached (c_history c) ∧ shutdown_ (st (c_world c)) = true ∧
  (locked (c_world c) = false →
   ∃ tr, destroy h (c_world c) = (Ret (), c_world c, tr) ∧ ∀ cl, EvCall cl ∉ tr).
Proof.
  intros Hby Hw Hl Hrun Hh Ht.
  destruct (stop_inv_reachable h w c Hby Hw Hrun) as [ph [Hph Honce Hall]].
  assert (ts ∈ taken (c_history c)) as Hin.
  { rewrite Hh. unfold taken. rewrite omap_app. apply elem_of_app. right. simpl. by left. }
  assert (taken (c_history c) = [ts]) as Htaken.
  { destruct (taken (c_history c)) as [|ts' [|? ?]]; [by apply not_elem_of_nil in Hin| |].
    - by apply list_elem_of_singleton in Hin as <-.
    - simpl in Honce. destruct (shutdown_ (st (c_world c))); lia. }
  rewrite Htaken in *. simpl in *. rewrite app_nil_r in Hall.
  assert (shutdown_ (st (c_world c)) = true) as Hs by (by destruct (shutdown_ (st (c_world c))); [|lia]).
  split_and!; [|done|].
  - intros Hd. apply Ht. rewrite <- Hall. apply elem_of_app. by left.
  - intros Hlk. by apply destroy_stopped.
Qed.

(** A thread in the middle of its first registration gets to its write, having found
    the alias null. *)
Lemma register_to_write ops (c : config) i name k pat pr :
  c_threads c !! i = Some (_ ← p_register_listener_for_name name k pat pr; mret ()) →
  locked (c_world c) = false → self_alias_ (st (c_world c)) = false →
  ∃ c', interleaved (bus_sem h) ops c c' ∧ poised c c' i.
Proof.
  intros Hi Hl Ha. destruct c as [[hp lk rd us s] ts hist tr]. simpl in *. subst lk.
  eexists (Config _ (<[i := Act ASetAlias _]> ts) _ _). split.
  - eapply rtc_l; [eapply (step_act _ _ i AFetchId); [exact Hi|reflexivity]|].
    eapply rtc_l; [eapply (step_act _ _ i (AInsert _)); [apply lookup_insert_eq|reflexivity]|]. rewrite insert_insert_eq.
    eapply rtc_l; [eapply (step_act _ _ i (AEmit _)); [apply lookup_insert_eq|reflexivity]|]. rewrite insert_insert_eq.
    eapply rtc_l; [eapply (step_act _ _ i AGetAlias); [apply lookup_insert_eq|reflexivity]|]. rewrite insert_insert_eq.
    simpl. rewrite Ha. apply rtc_refl.
  - split_and!; simpl; [by eexists|..|done|done].
    + eexists. rewrite <- !app_assoc. reflexivity.
    + apply elem_of_app. right. by left.
Qed.

(** A thread that begins a registration gets to the common part of the overloads. *)
Lemma begin_to_register ops (c : config) i op :
  registers op = true → ops (op_prog h op) →
  c_threads c !! i = None → locked (c_world c) = false → self_alias_ (st (c_world c)) = false →
  ∃ c0 name k pat pr hist, interleaved (bus_sem h) ops c c0 ∧
    c_threads c0 = <[i := _ ← p_register_listener_for_name name k pat pr; mret ()]> (c_threads c) ∧
    c_history c0 = c_history c ++ hist ∧
    locked (c_world c0) = false ∧ self_alias_ (st (c_world c0)) = false.
Proof.
  intros Hr Hop Hi Hl Ha. destruct c as [[hp lk rd us s] ts hist tr]. simpl in *. subst lk.
  destruct op as [| | | |T a pr|T l|pat f pr| | | | | |]; try done.
  - eexists (Config (World _ false _ _ _) _ _ _), _, _, _, _, _. split_and!.
    + eapply rtc_l; [eapply (step_start _ _ i); done|]. eapply rtc_once, step_act; [apply lookup_insert_eq|reflexivity].
    + apply insert_insert_eq.
    + reflexivity.
    + done.
    + done.
  - eexists (Config (World _ false _ _ _) _ _ _), _, _, _, _, _. split_and!.
    + eapply rtc_l; [eapply (step_start _ _ i); done|]. eapply rtc_once, step_act; [apply lookup_insert_eq|reflexivity].
    + apply insert_insert_eq.
    + reflexivity.
    + done.
    + done.
  - eexists (Config (World _ false _ _ _) _ _ _), _, _, _, _, []. split_and!.
    + by eapply rtc_once, (step_start _ _ i).
    + reflexivity.
    + by rewrite app_nil_r.
    + done.
    + done.
Qed.

Lemma listen_to_write ops (c : config) i op :
  registers op = true → ops (op_prog h op) →
  c_threads c !! i = None → locked (c_world c) = false → self_alias_ (st (c_world c)) = false →
  ∃ c', interleaved (bus_sem h) ops c c' ∧ poised c c' i.
Proof.
  intros Hr Hop Hi Hl Ha.
  destruct (begin_to_register ops c i op) as (c0 & name & k & pat & pr & hist0 & Hrun & Hts & Hh & Hl0 & Ha0); [done..|].
  destruct (register_to_write ops c0 i name k pat pr) as (c' & Hrun' & [k' Hts'] & [hist Hh'] & Hrd & Hl' & Ha');
    [by rewrite Hts, lookup_insert_eq|done..|].
  exists c'. split; [by etrans|]. split_and!; [exists k'; by rewrite Hts', Hts, insert_insert_eq| |done..].
  exists (hist0 ++ hist). by rewrite Hh', Hh, <- app_assoc.
Qed.

(** C25: the first registrations race.  On a bus on which nothing was registered
    before, any two threads that begin to register listeners, with whichever overload
    of [listen], can get to a point at which both have found [self_alias_] null and both
    are about to write it, which takes neither a lock nor an atomic: a data race. *)
Theorem first_listens_race w i j op1 op2 :
  locked w = false → self_alias_ (st w) = false → i ≠ j →
  registers op1 = true → registers op2 = true →
  ∃ c k1 k2, interleaved (bus_sem h) (λ p, p = op_prog h op1 ∨ p = op_prog h op2) (initial w) c ∧
    c_threads c = {[i := Act ASetAlias k1; j := Act ASetAlias k2]} ∧
    (i, Did AGetAlias false) ∈ c_history c ∧ (j, Did AGetAlias false) ∈ c_history c ∧
    self_alias_ (st (c_world c)) = false.
Proof.
  intros Hl Ha Hij Hr1 Hr2. set (ops := λ p, p = _ ∨ p = _).
  destruct (listen_to_write ops (initial w) i op1) as (c1 & Hrun1 & [k1 Hts1] & _ & Hh1 & Hl1 & Ha1);
    [done|by left|done..|].
  destruct (listen_to_write ops c1 j op2) as (c2 & Hrun2 & [k2 Hts2] & [hist Hh2] & Hh2' & Hl2 & Ha2);
    [done|by right|by rewrite Hts1, lookup_insert_ne|done..|].
  exists c2, k1, k2. split_and!; [by etrans| | |done|done].
  - rewrite Hts2, Hts1. apply insert_insert_ne. congruence.
  - rewrite Hh2. apply elem_of_app. by left.
Qed.

(** Once one registration has finished, no interleaving reaches that race. *)
Theorem no_alias_race_after_listen w c :
  bystander h → self_alias_ (st w) = true → bus_runs (initial w) c → ¬ alias_race c.
Proof.
  intros Hby Hw Hrun (i & j & p & q & b & _ & Hi & _ & Hacc & _).
  destruct (alias_set_reachable h w c Hby Hw Hrun) as [_ (ph & Hph & Hall)].
  pose proof (in_phases_lookup _ _ c ph i Hph) as Hf. rewrite Hi in Hf.
  destruct (ph !! i) as [q'|] eqn:Hq; [|done].
  pose proof (map_Forall_lookup_1 _ _ _ _ Hall Hq) as ->.
  destruct p as [o|a k]; [done|]. destruct a; try done.
  destruct (Hf ()) as (q'' & Hδ & _). done.
Qed.
End theorems.

(** ** Witnesses *)

(** Two threads shut the bus down while a third is attaching a transport. *)
Definition stop_start : world () BusState := World ∅ false 0 () (set_transports [2%positive; 9%positive] new_Bus).

Definition stop_moves : list (@move demo_acts bus_resp) :=
  [Start 1 (demo_prog (OpUseTransport 7)); Advance 1; Advance 1;
   Start 2 (demo_prog OpShutdown); Advance 2; Advance 2;
   Start 3 (demo_prog OpShutdown); Advance 3; Finish 3; Advance 1; Finish 1;
   Advance 2; Advance 2; Advance 2; Advance 2; Advance 2; Advance 2; Advance 2; Advance 2; Finish 2].

Definition stop_config : config :=
  end_of (bus_sem faulty_host) stop_moves (initial stop_start).

Lemma stop_runs : interleaved (bus_sem faulty_host) (bus_ops faulty_host) (initial stop_start) stop_config.
Proof.
  apply end_of_interleaved.
  - repeat (apply Forall_cons; split; [first [exact I|by eexists]|]). apply Forall_nil_2.
  - exact (@eq_refl _ true : bool_decide (is_Some (make_moves (bus_sem faulty_host) stop_moves (initial stop_start))) = true).
Qed.

Lemma shutdown_detaches_once_witness :
  length (taken (c_history stop_config)) ≤ 1 ∧
  detached (c_history stop_config) ⊆+ concat (taken (c_history stop_config)) ∧
  (c_threads stop_config = ∅ →
   detached (c_history stop_config) ≡ₚ concat (taken (c_history stop_config))).
Proof. apply (shutdown_detaches_once faulty_host stop_start stop_config demo_bystander eq_refl stop_runs). Defined.

(** The history up to the moment at which the transports are taken, and from there. *)
Definition before_take : list (nat * done_act bus_resp) := take 3 (c_history stop_config).
Definition after_take : list (nat * done_act bus_resp) := drop 4 (c_history stop_config).

Lemma stop_history :
  c_history stop_config = before_take ++ (2, Did ATakeTransports [2%positive; 9%positive]) :: after_take.
Proof.
  assert ((λ d, (d.1, taken_by d)) <$> c_history stop_config !! 3 = Some (2, Some [2%positive; 9%positive])) as Hc.
  { vm_compute. reflexivity. }
  assert (c_history stop_config !! 3 = Some (2, Did ATakeTransports [2%positive; 9%positive])) as Hl.
  { revert Hc. generalize (c_history stop_config !! 3). intros [[i d]|] [= -> Hd]. f_equal. f_equal.
    destruct d as [[] x]; unfold taken_by in Hd; simpl in Hd; try discriminate. by injection Hd as ->. }
  unfold before_take, after_take. revert Hl. generalize (c_history stop_config). intros l Hl.
  by rewrite take_drop_middle.
Qed.

Lemma late_transport_never_detached_witness :
  7%positive ∈ transports_ (st (c_world stop_config)) ∧
  7%positive ∉ detached (c_history stop_config) ∧ shutdown_ (st (c_world stop_config)) = true ∧
  (locked (c_world stop_config) = false →
   ∃ tr, destroy faulty_host (c_world stop_config) = (Ret (), c_world stop_config, tr) ∧ ∀ cl, EvCall cl ∉ tr).
Proof.
  split; [by left|].
  apply (late_transport_never_detached faulty_host stop_start stop_config before_take 2
    [2%positive; 9%positive] after_take 7 demo_bystander eq_refl eq_refl stop_runs stop_history).
  by intros [?|[?|?%not_elem_of_nil]%elem_of_cons]%elem_of_cons.
Defined.

Lemma first_listens_race_witness :
  ∃ c k1 k2, interleaved (bus_sem faulty_host) (λ p, p = demo_prog (OpListenPattern "order" 3 0) ∨
                                               p = demo_prog (OpListenListener (sample_type "order") (Some 4%positive)))
         (initial demo_start) c ∧
    c_threads c = {[1 := Act ASetAlias k1; 2 := Act ASetAlias k2]} ∧
    (1, Did AGetAlias false) ∈ c_history c ∧ (2, Did AGetAlias false) ∈ c_history c ∧
    self_alias_ (st (c_world c)) = false.
Proof.
  by apply (first_listens_race faulty_host demo_start 1 2 (OpListenPattern "order" 3 0)
    (OpListenListener (sample_type "order") (Some 4%positive))).
Defined.

Definition alias_start : world () BusState := World ∅ false 0 () (set_self_alias true new_Bus).

Lemma no_alias_race_after_listen_witness : ¬ alias_race (initial alias_start).
Proof.
  apply (no_alias_race_after_listen faulty_host alias_start _ demo_bystander eq_refl).
  apply rtc_refl.
Defined.
