(* ===== verification/Metrics.v ===== *)
(** * Metrics ([include/conduit/metrics.hpp])

    The metric families of the scope ["conduit"], the labels that the bus attaches,
    and what an installed prom adapter shows after a trace of updates.  The adapter
    is a parameter; two theorems tie the exported series to the bus: errors never
    outnumber invocations, and the listeners gauge counts the registered listeners
    under any interleaving. *)

From S2P Require Import Prelude Exceptions External Flags Instances Envelope Serialization Glob World WorldLogic WorldSafety Hosts Listener Bus BusTraces BusListeners BusLifecycle Threads BusThreads BusInterleaved.

(** ** Families and series *)

Inductive metric_type := Counter | Gauge | Histogram.

(** A family of the scope: its name behind the prefix, and its type. *)
Record family := MkFamily { fam_name : string; fam_type : metric_type }.

(** A series: a family with one label, [{event=...}] or [{transport=...}]. *)
Record series := MkSeries { series_name : string; series_label : string * string }.

#[export] Instance series_eq_dec : EqDecision series.
Proof. solve_decision. Defined.

(** [scope()]: every name gets this prefix. *)
Definition scope_prefix : string := "conduit_".

(** The accessors, one per family. *)
Definition events_published_family : family := MkFamily "events_published_total" Counter.
Definition events_dropped_family : family := MkFamily "events_dropped_total" Counter.
Definition listener_invocations_family : family := MkFamily "listener_invocations_total" Counter.
Definition listener_errors_family : family := MkFamily "listener_errors_total" Counter.
Definition transport_errors_family : family := MkFamily "transport_errors_total" Counter.
Definition listeners_family : family := MkFamily "listeners" Gauge.
Definition dispatch_seconds_family : family := MkFamily "dispatch_seconds" Histogram.

(** [Bus::event_labels], and the label of [report_transport_error]. *)
Definition event_labels (event : string) : string * string := ("event", event).
Definition transport_labels (transport : string) : string * string := ("transport", transport).

Definition series_in (f : family) (l : string * string) : series := MkSeries (scope_prefix +:+ fam_name f) l.

Definition family_of (m : metric) : family :=
  match m with
  | events_published _ => events_published_family
  | events_dropped _ => events_dropped_family
  | listener_invocations _ => listener_invocations_family
  | listener_errors _ => listener_errors_family
  | transport_errors _ => transport_errors_family
  | listeners_inc _ | listeners_dec _ => listeners_family
  | dispatch_seconds _ _ => dispatch_seconds_family
  end.

Definition label_of (m : metric) : string * string :=
  match m with
  | events_published e | events_dropped e | listener_invocations e | listener_errors e
  | listeners_inc e | listeners_dec e | dispatch_seconds e _ => event_labels e
  | transport_errors t => transport_labels t
  end.

Definition series_of (m : metric) : series := series_in (family_of m) (label_of m).

(** ** The adapter *)

(** What conduit uses of a prom adapter: the three updates, and what a scrape reads. *)
Class PromLib := {
  prom : Type;
  prom_inc : series → prom → prom;
  prom_dec : series → prom → prom;
  prom_observe : series → Z → prom → prom;
  prom_value : prom → series → Z;          (* of a counter or gauge *)
  prom_count : prom → series → Z;          (* observations of a histogram *)
}.

Class PromLaws `{PromLib} := {
  prom_inc_value s b s' : prom_value (prom_inc s b) s' = (prom_value b s' + if decide (s = s') then 1 else 0)%Z;
  prom_dec_value s b s' : prom_value (prom_dec s b) s' = (prom_value b s' - if decide (s = s') then 1 else 0)%Z;
  prom_observe_value s z b s' : prom_value (prom_observe s z b) s' = prom_value b s';
  prom_observe_count s z b s' :
    prom_count (prom_observe s z b) s' = (prom_count b s' + if decide (s = s') then 1 else 0)%Z;
  prom_inc_count s b s' : prom_count (prom_inc s b) s' = prom_count b s';
  prom_dec_count s b s' : prom_count (prom_dec s b) s' = prom_count b s';
}.

Section replay.
Context `{Externals} `{PromLib}.

Definition apply_metric (b : prom) (m : metric) : prom :=
  match m with
  | listeners_dec _ => prom_dec (series_of m) b
  | dispatch_seconds _ elapsed => prom_observe (series_of m) elapsed b
  | _ => prom_inc (series_of m) b
  end.

Definition apply_event (b : prom) (e : event) : prom :=
  match e with EvMetric m => apply_metric b m | EvCall _ => b end.

(** The adapter after a trace. *)
Definition replay (b : prom) (tr : list event) : prom := foldl apply_event b tr.

(** The families that the scope owns after a trace, in the order of their creation:
    an accessor creates its family when it is first called. *)
Definition touch_family (fs : list string) (e : event) : list string :=
  match e with
  | EvMetric m =>
      let f := scope_prefix +:+ fam_name (family_of m) in
      if decide (f ∈ fs) then fs else fs ++ [f]
  | EvCall _ => fs
  end.
Definition scope_families (tr : list event) : list string := foldl touch_family [] tr.
End replay.

(** ** Lemmas *)

Section lemmas.
Context `{Externals} `{PromLaws}.

Definition value_delta (s : series) (e : event) : Z :=
  match e with
  | EvMetric (dispatch_seconds _ _) | EvCall _ => 0
  | EvMetric (listeners_dec n) => if decide (series_of (listeners_dec n) = s) then -1 else 0
  | EvMetric m => if decide (series_of m = s) then 1 else 0
  end.

Fixpoint value_deltas (s : series) (tr : list event) : Z :=
  match tr with
  | [] => 0
  | e :: tr => value_delta s e + value_deltas s tr
  end.

Lemma value_deltas_app s tr1 tr2 :
  value_deltas s (tr1 ++ tr2) = (value_deltas s tr1 + value_deltas s tr2)%Z.
Proof. induction tr1 as [|e tr1 IH]; simpl; lia. Qed.

Lemma replay_value b tr s : prom_value (replay b tr) s = (prom_value b s + value_deltas s tr)%Z.
Proof.
  unfold replay. revert b. induction tr as [|e tr IH]; intros b; simpl; [lia|].
  rewrite IH. destruct e as [c|[]]; simpl; unfold apply_metric;
    rewrite ?prom_inc_value, ?prom_dec_value, ?prom_observe_value; repeat case_decide; lia.
Qed.

(** A series determines its family and label. *)
Lemma series_in_inj f f' l l' :
  series_in f l = series_in f' l' → fam_name f = fam_name f' ∧ l = l'.
Proof.
  intros Heq. split; [|exact (f_equal series_label Heq)].
  pose proof (f_equal (λ s, strip_prefix scope_prefix (series_name s)) Heq) as Hn.
  cbn [series_name series_in] in Hn. rewrite !strip_prefix_app in Hn. exact (f_equal (default "") Hn).
Qed.

Definition exported_listeners (n : string) : series := series_in listeners_family (event_labels n).
Definition exported_invocations (n : string) : series :=
  series_in listener_invocations_family (event_labels n).
Definition exported_errors (n : string) : series := series_in listener_errors_family (event_labels n).

Lemma series_of_listeners m n :
  series_of m = exported_listeners n ↔ m = listeners_inc n ∨ m = listeners_dec n.
Proof.
  split; [|by intros [-> | ->]]. unfold series_of, exported_listeners.
  intros [Hf Hl]%series_in_inj. destruct m; simpl in *; try done; injection Hl as ->; auto.
Qed.

Lemma listeners_deltas n tr : value_deltas (exported_listeners n) tr = gauge n tr.
Proof.
  induction tr as [|e tr IH]; simpl; [done|]. rewrite IH. f_equal.
  destruct e as [c|m]; simpl; [done|].
  pose proof (series_of_listeners m n) as Hm.
  destruct m; simpl in *; try done; try (rewrite decide_False; [done|intros Heq%Hm; naive_solver]);
    destruct (String.eqb_spec event n) as [->|Hne]; repeat case_decide; try done; naive_solver.
Qed.
End lemmas.

(** ** Errors and invocations *)

Section errors.
Context `{Externals} {U : Type} (h : host U BusState).

(** The name of the last invocation a thread counted and has not counted an error of. *)
Definition error_delta (q : option string) (d : done_act bus_resp) : option (option string) :=
  match did d with
  | AEmit (listener_invocations n) => Some (Some n)
  | AEmit (listener_errors n) => if decide (q = Some n) then Some None else None
  | _ => Some q
  end.

Definition countable_error (n : string) (q : option string) : list () :=
  if decide (q = Some n) then [()] else [].

Abbreviation accepts := (Threads.accepts error_delta).

Lemma accepts_call_ref c : accepts (p_call_ref c).
Proof. unfold p_call_ref. accepts. Qed.

Lemma accepts_call_void c : accepts (p_call_void c).
Proof. unfold p_call_void, p_call_fn, p_call_ref. accepts. Qed.
#[local] Hint Resolve accepts_call_ref accepts_call_void : thread_hom.

Lemma accepts_on_error_loop snap v ep : accepts (p_on_error_loop snap v ep).
Proof. revert v. induction snap as [|m snap IH]; intros v; cbn [p_on_error_loop]; accepts. Qed.
#[local] Hint Resolve accepts_on_error_loop : thread_hom.

Lemma accepts_run_on_error v ep : accepts (p_run_on_error v ep).
Proof. unfold p_run_on_error. accepts. Qed.
#[local] Hint Resolve accepts_run_on_error : thread_hom.

(** A handler changes nothing of what its thread has counted. *)
Lemma handler_stays k v : stays error_delta (p_run_handler k v).
Proof. destruct k as [T f|f|T [l|]]; unfold p_run_handler, p_call_void, p_call_fn, p_call_ref; stays. Qed.

Lemma accepts_deliver_one v name e : accepts (p_deliver_one v name e).
Proof.
  intros q. unfold p_deliver_one. case_match; [|done].
  intros []. exists (Some name). split; [done|]. apply follows_catch.
  eapply follows_mono; [|apply handler_stays]. intros [u|ep|u] q' ->; [done| |done].
  intros []. exists None. split; [unfold error_delta; simpl; by rewrite decide_True|].
  apply accepts_run_on_error.
Qed.
#[local] Hint Resolve accepts_deliver_one : thread_hom.

Lemma accepts_deliver v : accepts (p_deliver_to_listeners v).
Proof. unfold p_deliver_to_listeners. accepts. Qed.

Lemma accepts_own_on_error m v ep : accepts (p_own_on_error m v ep).
Proof. unfold p_own_on_error. accepts. Qed.
#[local] Hint Resolve accepts_deliver accepts_own_on_error : thread_hom.

Lemma accepts_run_before mws v : accepts (p_run_before mws v).
Proof. revert v. induction mws as [|m mws IH]; intros v; cbn [p_run_before]; accepts. Qed.

Lemma accepts_run_after mws v : accepts (p_run_after mws v).
Proof. revert v. induction mws as [|m mws IH]; intros v; cbn [p_run_after]; accepts. Qed.
#[local] Hint Resolve accepts_run_before accepts_run_after : thread_hom.

Lemma accepts_publish_impl v : accepts (p_publish_impl h v).
Proof. unfold p_publish_impl, p_route, p_dispatch_one. accepts. Qed.
#[local] Hint Resolve accepts_publish_impl : thread_hom.

Lemma accepts_op op : accepts (op_prog h op).
Proof.
  destruct op; unfold op_prog, p_publish, p_report_transport_error, p_listen, p_listen_listener,
    p_listen_pattern, p_register_listener_for_name, p_shared_from_this_safe, p_attach_transport, p_drain,
    p_shutdown, p_shutdown_one; accepts.
Qed.
End errors.

Section errors_invariant.
Context `{Externals} {U : Type} (h : host U BusState).
Abbreviation config := (@config bus_act bus_resp _ U BusState).
Abbreviation bus_runs := (interleaved (bus_sem h) (bus_ops h)).

(** The counters move only where the code counts. *)
Lemma sem_counts a w x w' tr f l :
  fam_name f ≠ "listeners" → bus_sem h a w = (inl x, w', tr) →
  value_deltas (series_in f l) tr =
    match a with AEmit m => value_delta (series_in f l) (EvMetric m) | _ => 0%Z end.
Proof.
  intros Hf Hsem. destruct w as [hp lk rd us s].
  destruct a as [T| |e|i| | | | |t|m| | | |m|c|c|v|v g|v|T v|];
    unfold bus_sem, section_of in Hsem; simpl in Hsem;
    unfold use_middleware, register_event, fresh_id, release, noexcept, with_lock, reply_of,
      read_core, write_core, name_of, payload_of, gets, modify, mbind, comp_bind, mret, comp_ret,
      emit, now, set_locked in Hsem;
    simpl in Hsem; repeat case_match; simplify_eq/=; try done; try lia.
  all: rewrite decide_False; [lia|]. all: intros [Hn _]%series_in_inj; by rewrite <- Hn in Hf.
Qed.

Record error_inv (c : config) (ph : gmap nat (option string)) (n : string) : Prop := {
  ei_phases : in_phases error_delta (λ _ _, True) c ph;
  ei_bound : (value_deltas (exported_errors n) (c_trace c) +
              Z.of_nat (length (map_concat (countable_error n) ph)) ≤
              value_deltas (exported_invocations n) (c_trace c))%Z;
}.

Lemma countable_move n (ph : gmap nat (option string)) i q q' :
  ph !! i = Some q →
  length (countable_error n q) + length (map_concat (countable_error n) (<[i := q']> ph)) =
  length (countable_error n q') + length (map_concat (countable_error n) ph).
Proof. intros Hi. rewrite <- !length_app. by apply Permutation_length, map_concat_update. Qed.

(** The two counters of a name move with the metrics of that name only. *)
Lemma series_of_other f n m :
  fam_name (family_of m) ≠ fam_name f → series_of m ≠ series_in f (event_labels n).
Proof. intros Hne [? _]%series_in_inj. done. Qed.

Lemma series_of_same m m' e n :
  family_of m = family_of m' → label_of m = event_labels e → label_of m' = event_labels n →
  series_of m = series_of m' ↔ e = n.
Proof.
  intros Hf Hm Hm'. unfold series_of. rewrite Hf, Hm, Hm'. split; [|by intros ->].
  intros [_ Hl]%series_in_inj. exact (f_equal snd Hl).
Qed.

Lemma errors_delta n m :
  value_delta (exported_errors n) (EvMetric m) =
  match m with listener_errors e => if decide (e = n) then 1 else 0 | _ => 0 end%Z.
Proof.
  destruct m as [e|e|e|e|e|e|e|e el]; cbn [value_delta]; try done;
    try (by rewrite decide_False by by apply series_of_other).
  pose proof (series_of_same (listener_errors e) (listener_errors n) e n eq_refl eq_refl eq_refl) as Hs.
  change (series_of (listener_errors n)) with (exported_errors n) in Hs.
  destruct (decide (e = n)) as [He|He]; [rewrite decide_True by by apply Hs|rewrite decide_False by by intros ?%Hs]; done.
Qed.

Lemma invocations_delta n m :
  value_delta (exported_invocations n) (EvMetric m) =
  match m with listener_invocations e => if decide (e = n) then 1 else 0 | _ => 0 end%Z.
Proof.
  destruct m as [e|e|e|e|e|e|e|e el]; cbn [value_delta]; try done;
    try (by rewrite decide_False by by apply series_of_other).
  pose proof (series_of_same (listener_invocations e) (listener_invocations n) e n eq_refl eq_refl eq_refl) as Hs.
  change (series_of (listener_invocations n)) with (exported_invocations n) in Hs.
  destruct (decide (e = n)) as [He|He]; [rewrite decide_True by by apply Hs|rewrite decide_False by by intros ?%Hs]; done.
Qed.

(** What an action adds to the two counters of a name, and to what may be added. *)
Lemma error_delta_bound n q q' (a : bus_act) x :
  error_delta q (Did a x) = Some q' →
  (match a with AEmit m => value_delta (exported_errors n) (EvMetric m) | _ => 0 end +
   Z.of_nat (length (countable_error n q')) ≤
   match a with AEmit m => value_delta (exported_invocations n) (EvMetric m) | _ => 0 end +
   Z.of_nat (length (countable_error n q)))%Z.
Proof.
  intros Hδ. destruct a as [T| |e|j| | | | |t|m| | | |m|c|cl|v|v f|v|T v|];
    try (injection Hδ as <-; lia).
  rewrite errors_delta, invocations_delta. unfold error_delta in Hδ. cbn [did] in Hδ. unfold countable_error.
  destruct m as [e|e|e|e|e|e|e|e el]; try (injection Hδ as <-; lia).
  - injection Hδ as <-. destruct (decide (e = n)) as [->|Hne].
    + rewrite decide_True by done. case_decide; simpl; lia.
    + rewrite decide_False by congruence. case_decide; simpl; lia.
  - destruct (decide (q = Some e)) as [->|]; [|done]. injection Hδ as <-.
    rewrite (decide_False (P := None = Some n)) by done.
    destruct (decide (e = n)) as [->|Hne]; [rewrite decide_True by done|rewrite decide_False by congruence];
      simpl; lia.
Qed.

Lemma error_inv_reachable w c n :
  bus_runs (initial w) c → ∃ ph, error_inv c ph n.
Proof.
  revert c. apply (rtc_ind_r (λ c, ∃ ph, error_inv c ph n)).
  { exists ∅. split; [apply in_phases_initial|]. rewrite map_concat_empty. simpl. lia. }
  intros c c' _ Hstep [ph [Hph Hb]].
  assert (∀ p, bus_ops h p → follows error_delta None p (λ _ _, True)) as Hops.
  { intros p [op ->]. apply accepts_op. }
  destruct (protocol_step error_delta _ _ _ _ c c' ph Hops Hph Hstep)
    as [(i & Hi & Hph' & _ & _ & Ht)|[(i & a & x & q & q' & tr & Hi & Hδ & Hph' & Hsem & _ & Ht)
       |(i & o & q & Hi & _ & _ & Hph' & _ & _ & Ht)]]; eexists; (split; [exact Hph'|]); rewrite Ht.
  - by rewrite map_concat_insert.
  - rewrite !value_deltas_app.
    pose proof (sem_counts a _ x _ tr listener_errors_family (event_labels n) ltac:(discriminate) Hsem) as He.
    pose proof (sem_counts a _ x _ tr listener_invocations_family (event_labels n) ltac:(discriminate) Hsem) as Hn.
    pose proof (error_delta_bound n q q' a x Hδ). pose proof (countable_move n ph i q q' Hi).
    unfold exported_errors, exported_invocations in *. lia.
  - pose proof (Permutation_length (map_concat_delete (countable_error n) ph i q Hi)) as Hd.
    rewrite length_app in Hd. lia.
Qed.
End errors_invariant.

(** ** Theorem *)

Section theorems.
Context `{ExternalLaws} `{PromLaws} {U : Type} (h : host U BusState).
Abbreviation bus_runs := (interleaved (bus_sem h) (bus_ops h)).

(** C20: the exported series tell the truth.  Whatever operations any number of threads
    run on a new bus, and however they interleave, at every moment an adapter shows for
    each event name at most as many listener errors as listener invocations, and
    whenever no thread is in an operation it shows in [conduit_listeners] exactly the
    number of listeners registered under each name or pattern. *)
Theorem exported_series_consistent b w c n :
  bystander h → fresh w → bus_runs (initial w) c → is_u64 (Z.of_nat (length (c_history c))) →
  prom_value b (exported_errors n) = 0%Z → prom_value b (exported_invocations n) = 0%Z →
  prom_value b (exported_listeners n) = 0%Z →
  let shown := replay b (c_trace c) in
  (prom_value shown (exported_errors n) ≤ prom_value shown (exported_invocations n))%Z ∧
  (c_threads c = ∅ →
   prom_value shown (exported_listeners n) = listed n (listeners_ (st (c_world c)))).
Proof.
  intros Hby Hw Hrun Hroom He Hi Hl shown. unfold shown. rewrite !replay_value, He, Hi, Hl. split.
  - destruct (error_inv_reachable h w c n Hrun) as [ph [_ Hb]]. lia.
  - intros Hnone. destruct (reg_inv_reachable h Hby w c Hw Hrun Hroom) as (ph & used & [Hph _ Hd]).
    rewrite listeners_deltas, (rd_gauge _ _ _ _ _ Hd n).
    assert (ph = ∅) as ->; [|rewrite map_concat_empty; simpl; lia].
    apply map_empty. intros i. pose proof (in_phases_lookup _ _ c ph i Hph) as Hlk.
    rewrite Hnone, lookup_empty in Hlk. by destruct (ph !! i).
Qed.
End theorems.

(** ** Witness *)

(** An adapter that keeps a value and a count per series. *)
#[local] Instance function_prom : PromLib := {|
  prom := (series → Z) * (series → Z);
  prom_inc s b := (λ s', b.1 s' + if decide (s = s') then 1 else 0, b.2)%Z;
  prom_dec s b := (λ s', b.1 s' - if decide (s = s') then 1 else 0, b.2)%Z;
  prom_observe s z b := (b.1, λ s', b.2 s' + if decide (s = s') then 1 else 0)%Z;
  prom_value b := b.1;
  prom_count b := b.2;
|}.

#[local] Instance function_prom_laws : PromLaws.
Proof. by split. Qed.

Definition new_prom : prom := (λ _, 0%Z, λ _, 0%Z).

Lemma exported_series_consistent_witness :
  (prom_value (replay new_prom (c_trace demo_end)) (exported_errors "order") ≤
     prom_value (replay new_prom (c_trace demo_end)) (exported_invocations "order"))%Z ∧
  (c_threads demo_end = ∅ →
   prom_value (replay new_prom (c_trace demo_end)) (exported_listeners "order") =
   listed "order" (listeners_ (st (c_world demo_end)))).
Proof.
  apply (exported_series_consistent faulty_host new_prom demo_start demo_end "order"
    demo_bystander demo_fresh demo_runs demo_room); reflexivity.
Defined.

Example demo_exported :
  let shown := replay new_prom (c_trace demo_end) in
  (prom_value shown (exported_listeners "order"), prom_value shown (exported_listeners "*"),
   prom_value shown (exported_invocations "order"), scope_families (c_trace demo_end)) =
  (1, 0, 2, ["conduit_listeners"; "conduit_listener_invocations_total"])%Z.
Proof. vm_compute. reflexivity. Qed.
