(* ===== verification/Examples.v ===== *)
(** * The example programs ([examples/*.cpp])

    Programs that use the library, as computations on the development's own
    definitions: their [main]s construct events with the builder, listen, publish,
    and destroy what they own in the reverse order of its declaration.  The host plays
    their lambdas and classes, and keeps what they print; the transports are mounted
    ([Mount]).  Each program is run and its output compared with what its comments
    announce. *)

From stdpp Require Import pretty.
From S2P Require Import Prelude Exceptions External Flags Instances Envelope Builder World WorldLogic WorldSafety Hosts Glob Serialization EnvelopeWire Listener Bus Subscriber Transport Relay LocalTransport LocalTransportProps Mount Metrics.

(** ** Programs *)

(** What a program has printed, its own variables, and whether a worker thread runs. *)
Record console := Console { lines : list string; counters : list string; on_worker : bool }.
Definition blank : console := Console [] [] false.
Definition print (l : string) (u : console) : console := Console (lines u ++ [l]) (counters u) (on_worker u).
Definition count_up (k : string) (u : console) : console := Console (lines u) (k :: counters u) (on_worker u).
Definition switch_thread (b : bool) (u : console) : console := Console (lines u) (counters u) b.
Definition counted (k : string) (u : console) : nat :=
  length (List.filter (String.eqb k) (counters u)).

Abbreviation heap_of := (gmap loc (@EnvelopeCore concrete_externals)).
Abbreviation comp := (comp console BusState).

(** A program's lambdas and overrides: each call prints or throws; none of them uses
    the bus. *)
Definition script := @call concrete_externals → heap_of → console → outcome bool * console.

Definition played {S} (f : script) (scope : obj → TransportScope) : host console S :=
  Host (λ c w, let '(o, u) := f c (heap w) (user w) in
               Reply o (default null_envelope (call_env c)) (World (heap w) (locked w) (reads w) u (st w)))
    (λ n, 1000 + Z.of_nat n)%Z scope (λ _, 0%Z).

Definition silent : script := λ c hp u, (Ret true, u).
Definition named (hp : heap_of) (v : EventEnvelope) : string :=
  match env_name hp v with Ret n => n | _ => "" end.

(** [ulid::generate()] *)
Definition generated (n : nat) : @ulid ext_ulid := pretty n.

(** [bus.publish(conduit::event(payload).build())] *)
Definition publish_event {U} (h : host U BusState) (d : @default_flags ext_flags) (p : @cell _ ext_parcel) : World.comp U BusState () :=
  v ← build h generated (Builder.event d p); publish_impl h v.

(** [bus.publish(conduit::event(payload).step()....build())] *)
Definition publish_built {U} (h : host U BusState) (d : @default_flags ext_flags) (p : @cell _ ext_parcel)
    (steps : list builder_step) : World.comp U BusState () :=
  v ← build h generated (apply_steps (Builder.event d p) steps); publish_impl h v.

(** A statement of [main] that prints. *)
Definition say {V} (on_console : (console → console) → V → V) (text : console → string) (now : V → console)
    : World.comp V BusState () := λ w,
  (Ret (), World (heap w) (locked w) (reads w) (on_console (print (text (now (user w)))) (user w)) (st w), []).

(** Payloads with fields: their texts, coded as the integer of the cell. *)
Definition payload_with (T : string) (fields : list string) : @cell _ ext_parcel :=
  sample_cell ("conduit:event:" +:+ T) (Z.pos (encode fields)).
Definition fields_of (p : @cell _ ext_parcel) : list string :=
  match cc_value p with Z.pos q => default [] (decode q) | _ => [] end.
Definition field (i : nat) (p : @cell _ ext_parcel) : string := default "" (fields_of p !! i).

Definition no_flags : @default_flags ext_flags := DefaultFlags fs_empty None.
Definition event_of (T : string) (z : Z) : @cell _ ext_parcel := sample_cell ("conduit:event:" +:+ T) z.

(** A program, run from the start: its outcome, the world at its end, its trace. *)
Definition run_main (main : comp ()) : outcome () * world console BusState * list event :=
  main (World ∅ false 0 blank new_Bus).
Definition output (main : comp ()) : outcome () * list string :=
  let r := run_main main in (r.1.1, lines (user r.1.2)).

(** A default-constructed local transport, whose dispatch the bus calls. *)
Definition with_local (leaf : host console BusState) (t : obj) : host console BusState :=
  mount leaf (λ t', if (t' =? t)%positive then
    Some (local_dispatch leaf direct_local (λ _, mret ()) (base_attach detached_base)) else None).

(** ** [examples/hello.cpp] *)

Definition hello_script : script := λ c hp u,
  match c with
  | CallTyped 1 p => (Ret true, print ("hello, " +:+ field 0 p) u)
  | _ => (Ret true, u)
  end.

Definition hello_main : comp () :=
  let h := with_local (played hello_script (λ _, Local)) 2 in
  use_transport h 2;;
  sub ← listen h (sample_type "greeted") (ArgPayload 1) DEFAULT_PRIORITY;
  publish_event h no_flags (payload_with "greeted" ["world"]);;
  Subscription_release sub;;
  destroy h.

Example hello_output : output hello_main = (Ret (), ["hello, world"]).
Proof. vm_compute. reflexivity. Qed.

(** ** [examples/typed_listener.cpp] *)

(** The listener takes the envelope.  The total is the number that is printed. *)
Definition order_script : script := λ c hp u,
  match c with
  | CallHandler 1 v =>
      match core_of hp v, env_payload_as (sample_type "order.created") hp v with
      | Ret c, Ret (Some p) =>
          (Ret true, print ("id=" +:+ ulid_string (Envelope.id c) +:+ " order_id=" +:+ field 0 p +:+
                            " total=" +:+ field 1 p) u)
      | _, _ => (Undef NullDeref, u)
      end
  | _ => (Ret true, u)
  end.

Definition typed_listener_main : comp () :=
  let h := with_local (played order_script (λ _, Local)) 2 in
  use_transport h 2;;
  sub ← listen h (sample_type "order.created") (ArgEnvelope 1) DEFAULT_PRIORITY;
  publish_built h no_flags (payload_with "order.created" ["abc"; "49.99"])
    [BuildMetadataKey "tenant" ("acme" : @md_value _ ext_metadata)];;
  Subscription_release sub;;
  destroy h.

Example typed_listener_output : output typed_listener_main = (Ret (), ["id=01H0 order_id=abc total=49.99"]).
Proof. vm_compute. reflexivity. Qed.

(** ** [examples/subscriber.cpp] *)

Definition projection_script : script := λ c hp u,
  match c with
  | CallTyped 1 p => (Ret true, print ("created " +:+ field 0 p) u)
  | CallTyped 2 p => (Ret true, print ("shipped " +:+ field 0 p) u)
  | _ => (Ret true, u)
  end.

(** [OrderProjection], with the calls of its [register_to]. *)
Definition OrderProjection : @EventSubscriber concrete_externals :=
  MkSubscriber [OnTyped (sample_type "order.created") (ArgPayload 1); OnTyped (sample_type "order.shipped") (ArgPayload 2)] [].

Definition subscriber_main : comp () :=
  let h := with_local (played projection_script (λ _, Local)) 2 in
  use_transport h 2;;
  projection ← register_subscriber h OrderProjection;
  publish_event h no_flags (payload_with "order.created" ["O-1"]);;
  publish_event h no_flags (payload_with "order.shipped" ["O-1"]);;
  destroy_subscriber projection;;
  destroy h.

Example subscriber_output : output subscriber_main = (Ret (), ["created O-1"; "shipped O-1"]).
Proof. vm_compute. reflexivity. Qed.

(** ** [examples/middleware_logging.cpp] *)

(** [LoggingMW] is object 7, the listener's lambda is 1. *)
Definition logging_script : script := λ c hp u,
  match c with
  | CallBefore 7 v =>
      let id := match core_of hp v with Ret c => ulid_string (Envelope.id c) | _ => "" end in
      (Ret true, print (">> " +:+ named hp v +:+ " id=" +:+ id) u)
  | CallAfter 7 v => (Ret true, print ("<< " +:+ named hp v) u)
  | CallTyped 1 p => (Ret true, print ("   n=" +:+ pretty (cc_value p)) u)
  | _ => (Ret true, u)
  end.

Definition logging_host : host console BusState := with_local (played logging_script (λ _, Local)) 2.

Definition logging_main : comp () :=
  let h := logging_host in
  use_transport h 2;;
  use_middleware h 7;;
  sub ← listen h (sample_type "tick") (ArgPayload 1) DEFAULT_PRIORITY;
  publish_event h no_flags (event_of "tick" 7);;
  Subscription_release sub;;
  destroy h.

Example logging_output : output logging_main = (Ret (), [">> tick id=01H0"; "   n=7"; "<< tick"]).
Proof. vm_compute. reflexivity. Qed.

(** ** [examples/pattern_listener.cpp] *)

Definition pattern_script : script := λ c hp u,
  match c with
  | CallHandler 1 v => (Ret true, print ("saw " +:+ named hp v) u)
  | _ => (Ret true, u)
  end.

Definition pattern_main : comp () :=
  let h := with_local (played pattern_script (λ _, Local)) 2 in
  use_transport h 2;;
  sub ← listen_pattern "order.*" 1 DEFAULT_PRIORITY;
  publish_event h no_flags (event_of "order.created" 0);;
  publish_event h no_flags (event_of "order.shipped" 0);;
  Subscription_release sub;;
  destroy h.

Example pattern_output : output pattern_main = (Ret (), ["saw order.created"; "saw order.shipped"]).
Proof. vm_compute. reflexivity. Qed.

(** ** [examples/local_only_event.cpp] *)

(** [FakeRemote] is object 5, and counts its dispatches; the listener's lambda counts
    its hits.  The event type has [DefaultFlags<LocalOnly>]. *)
Definition local_only_script : script := λ c hp u,
  match c with
  | CallDispatch 5 _ => (Ret true, count_up "remote" u)
  | CallTyped 1 _ => (Ret true, count_up "local" u)
  | _ => (Ret true, u)
  end.

Definition local_only_main : comp () :=
  let h := with_local (played local_only_script (λ t, if (t =? 5)%positive then Remote else Local)) 2 in
  use_transport h 2;;
  use_transport h 5;;
  sub ← listen h (sample_type "app.config.reload") (ArgPayload 1) DEFAULT_PRIORITY;
  publish_event h (DefaultFlags fs_empty (Some [flags.LocalOnly])) (event_of "app.config.reload" 0);;
  say (λ f, f) (λ u, "local_hits=" +:+ pretty (counted "local" u) +:+
                " remote_count=" +:+ pretty (counted "remote" u)) (λ u, u);;
  Subscription_release sub;;
  destroy h.

Example local_only_output : output local_only_main = (Ret (), ["local_hits=1 remote_count=0"]).
Proof. vm_compute. reflexivity. Qed.

(** ** [examples/filtered_transport.cpp] *)

(** The relay's callback is 4, the outbound predicate 3. *)
Definition filtered_script : script := λ c hp u,
  match c with
  | CallHandler 4 v => (Ret true, print ("relayed: " +:+ named hp v) u)
  | CallPredicate 3 v => (Ret (Glob_match "order.*" (named hp v)), u)
  | _ => (Ret true, u)
  end.

Definition relay_host : host console RelayState := played filtered_script (λ _, Local).

(** The virtual methods of [relay::Transport]; attaching and flushing are the base
    class's. *)
Definition relay_ops : transport_ops (U := console) (S := RelayState) := {|
  t_scope := relay_scope;
  t_attach := mret ();
  t_attach_with_sink _ := mret ();
  t_detach := mret ();
  t_dispatch := relay_dispatch relay_host;
  t_flush := mret ();
|}.

#[local] Instance relay_target : InboundTarget console RelayState := λ _, mret ().

Definition filtered_host : host ((RelayState * bool) * console) BusState :=
  mount (beside (played filtered_script (λ _, Local))) (λ t, if (t =? 6)%positive then
    Some (λ v, hosted (t_dispatch (filtered_ops relay_host (Some 3%positive) None relay_ops) v)) else None).

Definition filtered_main : World.comp ((RelayState * bool) * console) BusState () :=
  let h := filtered_host in
  _ ← hosted (new_relay 4);
  use_transport h 6;;
  publish_event h no_flags (event_of "order.created" 1);;
  publish_event h no_flags (event_of "audit.log" 0);;
  destroy h.

Example filtered_output :
  let r := filtered_main (World ∅ false 0 ((empty_relay, false), blank) new_Bus) in
  (r.1.1, lines (user r.1.2).2) = (Ret (), ["relayed: order.created"]).
Proof. vm_compute. reflexivity. Qed.

(** ** [examples/metrics.cpp] *)

(** The listener's lambda throws on order 0; [DropAll] is object 7. *)
Definition boom : exn := Exn std_runtime_error "boom".
Definition metrics_script : script := λ c hp u,
  match c with
  | CallTyped 1 p => (if (cc_value p =? 0)%Z then Throw boom else Ret true, u)
  | CallBefore 7 _ => (Ret false, u)
  | _ => (Ret true, u)
  end.

Definition order_event (z : Z) : @cell _ ext_parcel := event_of "order.created" z.

Definition metrics_main : comp () :=
  let h := played metrics_script (λ _, Local) in
  sub ← listen h (sample_type "order.created") (ArgPayload 1) DEFAULT_PRIORITY;
  for_each [0; 1; 2]%Z (λ i, publish_event h no_flags (order_event i));;
  report_transport_error h "demo" (Exn std_runtime_error "decode failed");;
  use_middleware h 7;;
  publish_event h no_flags (order_event 42);;
  drain h;;
  Subscription_release sub;;
  destroy h.

Definition metrics_trace : list event := (run_main metrics_main).2.

(** Every family of the scope is created, and the series move as the comments say. *)
Example metrics_families :
  (run_main metrics_main).1.1 = Ret () ∧
  scope_families metrics_trace =
    ["conduit_listeners"; "conduit_events_published_total"; "conduit_listener_invocations_total";
     "conduit_listener_errors_total"; "conduit_dispatch_seconds"; "conduit_transport_errors_total";
     "conduit_events_dropped_total"].
Proof. vm_compute. by split. Qed.

Example metrics_values `{PromLaws} (b : prom) (f : family) (l : string * string) :
  let moved := (prom_value (replay b metrics_trace) (series_in f l) - prom_value b (series_in f l))%Z in
  ((f, l) = (events_published_family, event_labels "order.created") → moved = 4%Z) ∧
  ((f, l) = (listener_invocations_family, event_labels "order.created") → moved = 3%Z) ∧
  ((f, l) = (listener_errors_family, event_labels "order.created") → moved = 1%Z) ∧
  ((f, l) = (events_dropped_family, event_labels "order.created") → moved = 1%Z) ∧
  ((f, l) = (transport_errors_family, transport_labels "demo") → moved = 1%Z) ∧
  ((f, l) = (listeners_family, event_labels "order.created") → moved = 0%Z).
Proof.
  intros moved. unfold moved. rewrite replay_value.
  split_and!; intros [= -> ->]; rewrite Z.add_simpl_l; vm_compute; reflexivity.
Qed.

(** ** [examples/serialization_roundtrip.cpp] *)

(** JSON as text. *)
Definition quotation_mark : string := String (Ascii.ascii_of_nat 34) EmptyString.
Definition quoted (s : string) : string := quotation_mark +:+ s +:+ quotation_mark.

Fixpoint json_text (j : cjson) : string :=
  match j with
  | CNull => "null"
  | CInt z => pretty z
  | CStr s => quoted s
  | CArr l => "[" +:+ String.concat "," (json_text <$> l) +:+ "]"
  | CObj m => "{" +:+ String.concat "," ((λ kv, quoted kv.1 +:+ ":" +:+ json_text kv.2) <$> m) +:+ "}"
  end.

Definition say_line (l : string) : comp () := say (λ f, f) (λ _, l) (λ u, u).

Definition serialization_main : comp () :=
  let h := played silent (λ _, Local) in
  env ← build h generated (apply_steps (Builder.event no_flags (payload_with "telemetry" ["t-1"; "0.5"]))
                             [BuildMetadataKey "source" ("sensor-3" : @md_value _ ext_metadata)]);
  c ← read_core env;
  j ← lift (encode_json (display env) c);
  bytes ← lift (encode_cbor (display env) c);
  say_line ("json size=" +:+ pretty (String.length (json_text j)) +:+ " cbor size=" +:+ pretty (length bytes));;
  let reg := add (sample_type "telemetry") new_EventRegistry in
  decoded ← lift (decode_json reg j);
  match core_payload_as (sample_type "telemetry") decoded.2 with
  | Some recovered => say_line ("recovered id=" +:+ field 0 recovered +:+ " value=" +:+ field 1 recovered)
  | None => lift (Undef NullDeref)
  end.

(** The sizes are the library's; the second line is conduit's. *)
Example serialization_output :
  let r := output serialization_main in
  (r.1, last r.2, length r.2) = (Ret (), Some "recovered id=t-1 value=0.5", 2).
Proof. vm_compute. reflexivity. Qed.

(** ** [examples/relay_to_callback.cpp] *)

(** The callback is 4. *)
Definition relay_script : script := λ c hp u,
  match c with
  | CallHandler 4 v =>
      match (c ← core_of hp v; encode_json (display v) c) with
      | Ret j => (Ret true, print ("relayed: " +:+ json_text j) u)
      | Throw e => (Throw e, u)
      | Undef x => (Undef x, u)
      end
  | _ => (Ret true, u)
  end.

Definition relay_example_host : host ((RelayState * bool) * console) BusState :=
  let leaf := beside (played relay_script (λ _, Local)) in
  mount leaf (λ t,
    if (t =? 2)%positive then Some (local_dispatch leaf direct_local (λ _, mret ()) (base_attach detached_base))
    else if (t =? 6)%positive then Some (λ v, hosted (relay_dispatch (played relay_script (λ _, Local)) v))
    else None).

Definition relay_main : World.comp ((RelayState * bool) * console) BusState () :=
  let h := relay_example_host in
  use_transport h 2;;
  _ ← hosted (new_relay_pattern "order.*" 4);
  use_transport h 6;;
  publish_event h no_flags (payload_with "order.created" ["O-9"]);;
  publish_event h no_flags (payload_with "audit.recorded" []);;
  destroy h.

(** One line, for the order: the JSON of its envelope, with its id and name. *)
Example relay_output :
  let r := relay_main (World ∅ false 0 ((empty_relay, false), blank) new_Bus) in
  r.1.1 = Ret () ∧
  match lines (user r.1.2).2 with
  | [l] => String.prefix ("relayed: {" +:+ quoted "k" +:+ ":" +:+ quoted "conduit:envelope" +:+ "," +:+ quoted "v" +:+ ":{" +:+
                          quoted "id" +:+ ":" +:+ quoted "01H0" +:+ "," +:+ quoted "name" +:+ ":" +:+ quoted "order.created") l = true
  | _ => False
  end.
Proof. vm_compute. by split. Qed.

(** ** Local transports with workers

    The envelopes that wait for a worker are in a list beside the console.  [eager] is
    the schedule: a worker takes what was queued at once, or only when the publisher
    waits in [flush]; [pick] is which of the waiting envelopes it takes. *)

Section pooled.
Context (f : script) (cfg : LocalConfig) (eager : bool) (pick : nat → nat).
Abbreviation pooled := (list (@EventEnvelope concrete_externals) * console)%type.
Abbreviation pooled_comp := (World.comp pooled BusState).

Definition pool_leaf : host pooled BusState := beside (played f (λ _, Local)).

Definition set_user (g : pooled → pooled) : pooled_comp () := λ w,
  (Ret (), World (heap w) (locked w) (reads w) (g (user w)) (st w), []).

(** A worker's task: [deliver_inbound] on its thread. *)
Definition work : pooled_comp () :=
  w ← get_world;
  let waiting := (user w).1 in
  let i := pick (length waiting) in
  match waiting !! i with
  | Some v =>
      set_user (λ u, (delete i waiting, switch_thread true u.2));;
      catch_all (deliver_inbound (InboundTarget0 := bus_target pool_leaf) pool_leaf (base_attach detached_base) v) (λ _, mret ());;
      set_user (λ u, (u.1, switch_thread false u.2))
  | None => mret ()
  end.

Definition enqueue_task (v : EventEnvelope) : pooled_comp () :=
  set_user (λ u, (u.1 ++ [v], u.2));;
  if eager then work else mret ().

Definition work_all : pooled_comp () :=
  w ← get_world; for_each (user w).1 (λ _, work).

Definition pooled_ops : transport_ops (U := pooled) (S := BusState) := {|
  t_scope := local_scope cfg;
  t_attach := mret ();
  t_attach_with_sink _ := mret ();
  t_detach := work_all;
  t_dispatch := local_dispatch pool_leaf cfg enqueue_task (base_attach detached_base);
  t_flush := work_all;
|}.

Definition pooled_host : host pooled BusState :=
  mount_transport pool_leaf (λ t, if (t =? 2)%positive then Some pooled_ops else None).
End pooled.

Definition pooled_output {A} (main : World.comp (list EventEnvelope * console) BusState A) : outcome A * list string :=
  let r := main (World ∅ false 0 ([], blank) new_Bus) in (r.1.1, lines (user r.1.2).2).

(** ** [examples/flags_direct.cpp] *)

Definition beep_script : script := λ c hp u,
  match c with
  | CallTyped 1 _ => (Ret true, print (if on_worker u then "background" else "inline") u)
  | _ => (Ret true, u)
  end.

(** [ThreadPoolOptions{}]: on demand, as many workers as the hardware has threads. *)
Definition pool_defaults : ThreadPoolConfig := MkPoolConfig 1 8 0 "threadman".

Definition flags_direct_main (eager : bool) : World.comp (list EventEnvelope * console) BusState () :=
  let h := pooled_host beep_script (construct (LocalTransport.name pool_defaults) Queue pool_defaults) eager (λ _, 0) in
  use_transport h 2;;
  sub ← listen h (sample_type "beep") (ArgPayload 1) DEFAULT_PRIORITY;
  publish_event h no_flags (payload_with "beep" []);;
  publish_built h no_flags (payload_with "beep" []) [BuildFlags [flags.Direct]];;
  drain h;;
  Subscription_release sub;;
  destroy h.

(** The first event is handled in the background and the second inline, in the order
    that the schedule makes. *)
Example flags_direct_output :
  pooled_output (flags_direct_main true) = (Ret (), ["background"; "inline"]) ∧
  pooled_output (flags_direct_main false) = (Ret (), ["inline"; "background"]).
Proof. vm_compute. by split. Qed.

(** ** [examples/threadpool_local.cpp] *)

(** [count] is the number that the listener adds up, in unary. *)
Definition job_script : script := λ c hp u,
  match c with
  | CallTyped 1 p => (Ret true, Nat.iter (Z.to_nat (cc_value p)) (count_up "sum") u)
  | _ => (Ret true, u)
  end.

Definition four_workers : LocalConfig :=
  construct (LocalTransport.name pool_defaults) ThreadPool (MkPoolConfig 4 4 0 (LocalTransport.name pool_defaults)).

Definition threadpool_main (jobs : nat) (eager : bool) (pick : nat → nat) :
    World.comp (list EventEnvelope * console) BusState () :=
  let h := pooled_host job_script four_workers eager pick in
  use_transport h 2;;
  sub ← listen h (sample_type "job") (ArgPayload 1) DEFAULT_PRIORITY;
  for_each (seq 1 jobs) (λ i, publish_event h no_flags (event_of "job" (Z.of_nat i)));;
  drain h;;
  say (λ g u, (u.1, g u.2)) (λ u, "sum=" +:+ pretty (counted "sum" u)) snd;;
  Subscription_release sub;;
  destroy h.

Example threadpool_output :
  pooled_output (threadpool_main 100 false (λ n, n / 2)) = (Ret (), ["sum=5050"]) ∧
  pooled_output (threadpool_main 100 true (λ _, 0)) = (Ret (), ["sum=5050"]).
Proof. vm_compute. by split. Qed.

(** Whatever the schedule of the four workers and however the pool chooses among the
    waiting jobs: when a flush returns after the hundred dispatches, the ids of the jobs
    that were delivered sum up to the number that is printed. *)
Lemma threadpool_any_schedule (job : nat → @EventEnvelope concrete_externals) (id : EventEnvelope → nat)
    (s : @LocalState concrete_externals) :
  (∀ i, id (job i) = i) → local_reachable (capacity_ four_workers) 4 s → accepted s = job <$> seq 1 100 →
  is_u64 (in_flight s) → flush_returns s = true →
  list_sum (id <$> delivered s) = 5050.
Proof.
  intros Hid Hr Hacc Hfl Hret. assert (is_u64 (capacity_ four_workers)) as Hcap by (vm_compute; intuition congruence).
  pose proof (local_inv_reachable _ _ s Hcap Hr) as Hinv.
  assert (in_flight s = 0%Z) as H0.
  { unfold flush_returns in Hret. apply Z.eqb_eq in Hret. by rewrite (li_count _ _ Hinv), u64_wrap_small in Hret. }
  pose proof (drained_history _ s Hinv H0) as Hperm. rewrite Hacc in Hperm. 
  rewrite Hperm. rewrite <- list_fmap_compose. rewrite (list_fmap_ext (id ∘ job) (λ i, i)) by (intros; simpl; auto).
  rewrite list_fmap_id. reflexivity.
Qed.
