(* ===== verification/UnitTests.v ===== *)
(** * The library's unit tests ([tests/test_*.cpp])

    The tests of the core library, run on the development's definitions: a check of the
    model against the code that does not go through a theorem.  Each [Example] has the
    name of its [TEST], suite first; its statement is what the test asserts.  The
    callbacks of a test write a log, by which its flags, counters and vectors are
    read.  Tests that assert nothing but facts of third-party libraries (the metadata
    variants, sets, colours and categories of flags) have no counterpart; the race of two
    threads on a registry and the producer that waits for a bounded queue are in
    [SerializationProps] and [LocalTransportProps], for every schedule. *)

From stdpp Require Import pretty.
From S2P Require Import Prelude Exceptions External Flags Instances Envelope EnvelopeWire Serialization Glob EventTypes World WorldLogic Hosts Builder Listener.
From S2P Require Import Bus Subscriber Transport Relay LocalTransport Mount Examples.

(** ** The harness *)

Abbreviation instance_call := (@call concrete_externals).

(** Callbacks that log a line and return [true]. *)
Definition logs (f : heap_of → instance_call → option string) : script := λ c hp u,
  (Ret true, match f hp c with Some l => print l u | None => u end).

(** The same, but the callback [k] throws. *)
Definition logs_but (k : fn) (f : heap_of → instance_call → option string) : script := λ c hp u,
  match c with
  | CallTyped k' _ => if (k' =? k)%positive then (Throw boom, u) else logs f c hp u
  | _ => logs f c hp u
  end.

(** A bus of a test: no transport of its own but a local one, at object 2, if [local]. *)
Definition on_bus (local : bool) (f : script) (scope : obj → TransportScope) (prio : obj → Z)
    (body : host console BusState → comp ()) : outcome () * list string :=
  let leaf := let h := played f scope in Host (run h) (time_at h) scope prio in
  let h := if local then with_local leaf 2 else leaf in
  output ((if local then use_transport h 2 else mret ());; body h;; destroy h).

Definition all_local : obj → TransportScope := λ _, Local.
Definition no_priority : obj → Z := λ _, 0%Z.
Definition in_order (f : script) (body : host console BusState → comp ()) : outcome () * list string :=
  on_bus true f all_local no_priority body.

(** [bus.publish(conduit::event(T{n}).build())] and [bus.listen<T>(...)] *)
Definition publishes (h : host console BusState) (T : string) (n : Z) : comp () :=
  publish_event h no_flags (event_of T n).
Definition listens (h : host console BusState) (T : string) (f : fn) : comp Subscription :=
  listen h (sample_type T) (ArgPayload f) DEFAULT_PRIORITY.

(** A typed callback that logs the number of the event, after its own. *)
Definition numbers (hp : heap_of) (c : instance_call) : option string :=
  match c with CallTyped f p => Some (pretty (Z.pos f) +:+ ":" +:+ pretty (cc_value p)) | _ => None end.

(** ** [test_glob.cpp] *)

Example Glob_ExactMatch :
  Glob_match "order.created" "order.created" = true ∧ Glob_match "order.created" "order.updated" = false.
Proof. vm_compute. by split_and!. Qed.

Example Glob_SingleStarMatchesWithinSegment :
  Glob_match "order.*" "order.created" = true ∧ Glob_match "order.*" "order.updated" = true ∧
  Glob_match "order.*" "order.payment.refunded" = false.
Proof. vm_compute. by split_and!. Qed.

Example Glob_SingleStarMidPattern :
  Glob_match "order.*.status" "order.payment.status" = true ∧ Glob_match "order.*.status" "order.shipping.status" = true ∧
  Glob_match "order.*.status" "order.payment.late.status" = false ∧ Glob_match "order.*.status" "order.status" = false.
Proof. vm_compute. by split_and!. Qed.

Example Glob_DoubleStarCrossesSegments :
  Glob_match "order.**" "order.created" = true ∧ Glob_match "order.**" "order.payment.refunded" = true ∧
  Glob_match "**" "anything.at.all.here" = true.
Proof. vm_compute. by split_and!. Qed.

Example Glob_LeadingStar :
  Glob_match "*.created" "order.created" = true ∧ Glob_match "*.created" "user.created" = true ∧
  Glob_match "*.created" "a.b.created" = false ∧ Glob_match "**.created" "a.b.created" = true.
Proof. vm_compute. by split_and!. Qed.

Example Glob_EmptyName :
  Glob_match "" "" = true ∧ Glob_match "" "x" = false ∧ Glob_match "*" "" = true ∧ Glob_match "**" "" = true.
Proof. vm_compute. by split_and!. Qed.

Example Glob_ConstructAndPattern :
  let g := MkGlob "order.*" in Glob_pattern g = "order.*"%string ∧ Glob_matches g "order.created" = true.
Proof. vm_compute. by split. Qed.

(** ** [test_bus_direct.cpp] *)

Example BusDirect_SyncDispatch :
  in_order (logs numbers) (λ h, sub ← listens h "sig" 1; publishes h "sig" 99;; release_all [sub]) =
  (Ret (), ["1:99"]).
Proof. vm_compute. reflexivity. Qed.

Example BusDirect_ExceptionFromListenerDoesNotPropagate :
  in_order (logs_but 1 numbers) (λ h,
    sub ← listens h "sig" 1; sub2 ← listens h "sig" 2; publishes h "sig" 1;;
    release_all [sub2; sub]) = (Ret (), ["2:1"]).
Proof. vm_compute. reflexivity. Qed.

Example BusDirect_PayloadShortcutForm :
  in_order (logs numbers) (λ h,
    sub ← listens h "sig" 1;
    v ← build h generated (Builder.event no_flags (event_of "sig" 42)); publish h (sample_type "sig") v;;
    release_all [sub]) = (Ret (), ["1:42"]).
Proof. vm_compute. reflexivity. Qed.

(** ** [test_priority.cpp] *)

(** [RecorderMW] *)
Definition recorder (name : obj → string) (hp : heap_of) (c : instance_call) : option string :=
  match c with
  | CallBefore m _ => Some (name m +:+ ".before")
  | CallAfter m _ => Some (name m +:+ ".after")
  | CallOnError m _ _ => Some (name m +:+ ".error")
  | CallOnTransportError m t _ => Some (name m +:+ ".transport_error:" +:+ t)
  | CallDispatch t _ => Some (name t)
  | CallOnEvent l _ => Some (name l)
  | CallTyped f _ => Some (name f)
  | _ => None
  end.

Definition named_objects (names : list string) (o : obj) : string := default "" (names !! pred (Pos.to_nat o)).
Definition with_priorities (ps : list Z) (o : obj) : Z := default 0%Z (ps !! pred (Pos.to_nat o)).

Example Priority_MiddlewareOrderedByPriority :
  on_bus true (logs (recorder (named_objects ["B"; "local"; "A"; "C"]))) all_local (with_priorities [0; 0; -10; 10]%Z)
    (λ h, for_each [1; 3; 4]%positive (use_middleware h);; publishes h "priority.ping" 1) =
  (Ret (), ["A.before"; "B.before"; "C.before"; "C.after"; "B.after"; "A.after"]).
Proof. vm_compute. reflexivity. Qed.

Example Priority_MiddlewareSamePriorityKeepsInsertionOrder :
  let r := on_bus true (logs (recorder (named_objects ["first"; "local"; "second"; "third"]))) all_local no_priority
    (λ h, for_each [1; 3; 4]%positive (use_middleware h);; publishes h "priority.ping" 1) in
  (r.1, take 3 r.2) = (Ret (), ["first.before"; "second.before"; "third.before"]).
Proof. vm_compute. reflexivity. Qed.

Example Priority_ListenerLambdaPriorityFromBusListen :
  on_bus false (logs (recorder (named_objects ["default"; "high"; "low"]))) all_local no_priority (λ h,
    s1 ← listens h "priority.ping" 1;
    s2 ← listen h (sample_type "priority.ping") (ArgPayload 2) (-100)%Z;
    s3 ← listen h (sample_type "priority.ping") (ArgPayload 3) 100%Z;
    publishes h "priority.ping" 1;;
    release_all [s3; s2; s1]) = (Ret (), ["high"; "default"; "low"]).
Proof. vm_compute. reflexivity. Qed.

Example Priority_ClassListenerPriorityFromOverride :
  on_bus false (logs (recorder (named_objects ["A"; "B"; "C"]))) all_local (with_priorities [10; -5; 0]%Z) (λ h,
    s1 ← listen_listener h (sample_type "priority.ping") (Some 1%positive);
    s2 ← listen_listener h (sample_type "priority.ping") (Some 2%positive);
    s3 ← listen_listener h (sample_type "priority.ping") (Some 3%positive);
    publishes h "priority.ping" 1;;
    release_all [s3; s2; s1]) = (Ret (), ["B"; "C"; "A"]).
Proof. vm_compute. reflexivity. Qed.

Example Priority_TransportsDispatchInPriorityOrder :
  on_bus false (logs (recorder (named_objects ["mid"; "high"; "low"]))) all_local (with_priorities [0; -10; 10]%Z) (λ h,
    for_each [1; 2; 3]%positive (use_transport h);; publishes h "priority.ping" 1) = (Ret (), ["high"; "mid"; "low"]).
Proof. vm_compute. reflexivity. Qed.

(** ** [test_middleware.cpp] *)

Definition two_recorders : obj → string := named_objects ["A"; "local"; "B"; "handler"].

Example Middleware_OrderedBeforeReversedAfter :
  in_order (logs (recorder two_recorders)) (λ h,
    for_each [1; 3]%positive (use_middleware h);;
    sub ← listens h "hi" 4; publishes h "hi" 1;; release_all [sub]) =
  (Ret (), ["A.before"; "B.before"; "handler"; "B.after"; "A.after"]).
Proof. vm_compute. reflexivity. Qed.

(** [DropMW] *)
Definition dropping : script := λ c hp u,
  match c with CallBefore _ _ => (Ret false, u) | _ => logs numbers c hp u end.

Example Middleware_DropShortCircuits :
  in_order dropping (λ h,
    use_middleware h 1;; sub ← listens h "hi" 4; publishes h "hi" 1;; release_all [sub]) = (Ret (), []).
Proof. vm_compute. reflexivity. Qed.

Example Middleware_NoMiddlewareFlagSkipsPipeline :
  in_order (logs (recorder two_recorders)) (λ h,
    use_middleware h 1;; sub ← listens h "hi" 4;
    publish_built h no_flags (event_of "hi" 1) [BuildFlags [flags.NoMiddleware]];; release_all [sub]) =
  (Ret (), ["handler"]).
Proof. vm_compute. reflexivity. Qed.

Example Middleware_ListenerExceptionRoutesToOnError :
  in_order (logs_but 4 (recorder two_recorders)) (λ h,
    use_middleware h 1;; sub ← listens h "hi" 4; publishes h "hi" 1;; release_all [sub]) =
  (Ret (), ["A.before"; "A.error"; "A.after"]).
Proof. vm_compute. reflexivity. Qed.

Example Middleware_ReportTransportErrorFansOutToAllMiddleware :
  on_bus false (logs (recorder two_recorders)) all_local no_priority (λ h,
    for_each [1; 3]%positive (use_middleware h);; report_transport_error h "mqtt" boom) =
  (Ret (), ["A.transport_error:mqtt"; "B.transport_error:mqtt"]).
Proof. vm_compute. reflexivity. Qed.

(** ** [test_scope_filtering.cpp] *)

(** [FakeLocalT] is object 1, [FakeRemoteT] object 3, [ErrorCountingMW] object 4. *)
Definition fakes : obj → string := named_objects ["local"; ""; "remote"; "mw"].
Definition one_remote (t : obj) : TransportScope := if (t =? 3)%positive then Remote else Local.
Definition routed (d : @default_flags ext_flags) (fs : list string) : outcome () * list string :=
  on_bus false (logs (recorder fakes)) one_remote no_priority (λ h,
    use_transport h 1;; use_transport h 3;; publish_built h d (event_of "plain" 0) [BuildFlags fs]).

Definition mixin (fs : list string) : @default_flags ext_flags := DefaultFlags fs_empty (Some fs).
Definition traits (fs : list string) : @default_flags ext_flags := DefaultFlags (fs_of fs) None.

Example Scope_LocalOnlySkipsRemoteTransport : routed (mixin [flags.LocalOnly]) [] = (Ret (), ["local"]).
Proof. vm_compute. reflexivity. Qed.

Example Scope_RemoteOnlySkipsLocalTransport : routed (mixin [flags.RemoteOnly]) [] = (Ret (), ["remote"]).
Proof. vm_compute. reflexivity. Qed.

Example Scope_NoFlagsRoutesToAllTransports : routed no_flags [] = (Ret (), ["local"; "remote"]).
Proof. vm_compute. reflexivity. Qed.

Example Scope_EventTraitsSpecializationSkipsRemote : routed (traits [flags.LocalOnly]) [] = (Ret (), ["local"]).
Proof. vm_compute. reflexivity. Qed.

Example Scope_DefaultFlagsMixinAppliedAutomatically :
  fs_contains flags.LocalOnly (collect_default_flags (mixin [flags.LocalOnly])) = true ∧
  fs_contains flags.RemoteOnly (collect_default_flags (mixin [flags.RemoteOnly])) = true.
Proof. vm_compute. by split. Qed.

Example Scope_ConflictRoutesToOnError :
  on_bus false (logs (recorder fakes)) one_remote no_priority (λ h,
    use_transport h 1;; use_transport h 3;; use_middleware h 4;;
    publish_built h no_flags (event_of "plain" 0) [BuildFlags [flags.LocalOnly]; BuildFlags [flags.RemoteOnly]]) =
  (Ret (), ["mw.before"; "mw.error"; "mw.after"]).
Proof. vm_compute. reflexivity. Qed.

(** ** [test_listener.cpp] *)

Example Listener_RAIIUnregistersOnDestruction :
  in_order (logs numbers) (λ h,
    sub ← listens h "e" 1; publishes h "e" 1;; release_all [sub];; publishes h "e" 2) = (Ret (), ["1:1"]).
Proof. vm_compute. reflexivity. Qed.

(** [sub] is moved to [sub_outer] before it is destroyed. *)
Example Listener_MoveTransfersOwnership :
  in_order (logs numbers) (λ h,
    sub ← listens h "e" 1;
    moved ← move_assign empty_Subscription sub;
    release_all [moved.2];; publishes h "e" 1;; release_all [moved.1];; publishes h "e" 2) = (Ret (), ["1:1"]).
Proof. vm_compute. reflexivity. Qed.

Definition envelopes (hp : heap_of) (c : instance_call) : option string :=
  match c with
  | CallHandler _ v =>
      match env_payload_as (sample_type "e") hp v with Ret (Some p) => Some (pretty (cc_value p)) | _ => Some "null" end
  | _ => None
  end.

Example Listener_EnvelopeFormHandler :
  in_order (logs envelopes) (λ h,
    sub ← listen h (sample_type "e") (ArgEnvelope 1) DEFAULT_PRIORITY; publishes h "e" 7;; release_all [sub]) =
  (Ret (), ["7"]).
Proof. vm_compute. reflexivity. Qed.

Example Listener_PatternListenerFiresOnMatch :
  in_order (logs envelopes) (λ h,
    sub ← listen_pattern "e*" 1 DEFAULT_PRIORITY;
    publishes h "e" 1;; publishes h "f" 0;; release_all [sub]) = (Ret (), ["1"]).
Proof. vm_compute. reflexivity. Qed.

Example Listener_ClassBasedEventListenerWorks :
  in_order (logs (recorder (named_objects ["l"]))) (λ h,
    sub ← listen_listener h (sample_type "e") (Some 1%positive);
    publishes h "e" 1;; publishes h "e" 2;; release_all [sub]) = (Ret (), ["l"; "l"]).
Proof. vm_compute. reflexivity. Qed.

(** ** [test_subscriber.cpp] *)

Definition Multi : @EventSubscriber concrete_externals :=
  MkSubscriber [OnTyped (sample_type "a") (ArgPayload 1); OnTyped (sample_type "b") (ArgPayload 2); OnPattern "*" 3] [].

Definition counts (hp : heap_of) (c : instance_call) : option string :=
  match c with
  | CallTyped 1 _ => Some "a" | CallTyped 2 _ => Some "b" | CallHandler 3 _ => Some "*" | CallTyped 4 _ => Some "sub"
  | _ => None
  end.

Example Subscriber_RegistersMultipleListeners :
  in_order (logs counts) (λ h,
    m ← register_subscriber h Multi;
    publishes h "a" 0;; publishes h "b" 0;; publishes h "a" 0;; destroy_subscriber m) =
  (Ret (), ["a"; "*"; "b"; "*"; "a"; "*"]).
Proof. vm_compute. reflexivity. Qed.

Example Subscriber_DestructorUnregisters :
  in_order (logs counts) (λ h,
    sub ← listens h "a" 4; m ← register_subscriber h Multi;
    publishes h "a" 0;; destroy_subscriber m;; publishes h "a" 0;; release_all [sub]) =
  (Ret (), ["sub"; "a"; "*"; "sub"]).
Proof. vm_compute. reflexivity. Qed.

(** ** [test_relay_transport.cpp] *)

(** A local transport at object 2 and a relay at object 6, as in the example program. *)
Abbreviation with_relay := ((RelayState * bool) * console)%type.

Definition hits (hp : heap_of) (c : instance_call) : option string :=
  match c with CallHandler f v => Some (pretty (Z.pos f) +:+ " " +:+ named hp v) | _ => None end.

Definition relaying : host with_relay BusState :=
  let leaf := beside (played (logs hits) all_local) in
  mount leaf (λ t,
    if (t =? 2)%positive then Some (local_dispatch leaf direct_local (λ _, mret ()) (base_attach detached_base))
    else if (t =? 6)%positive then Some (λ v, hosted (relay_dispatch (played (logs hits) all_local) v))
    else None).

Definition on_relay (pattern : string) (body : World.comp with_relay BusState ()) : outcome () * list string :=
  let main := use_transport relaying 2;; _ ← hosted (new_relay_pattern pattern 1); use_transport relaying 6;;
              body;; destroy relaying in
  let r := main (World ∅ false 0 ((empty_relay, false), blank) new_Bus) in (r.1.1, lines (user r.1.2).2).

Definition relays (T : string) : World.comp with_relay BusState () := publish_event relaying no_flags (event_of T 0).

Example Relay_FiresOnPatternMatch :
  on_relay "order.*" (relays "order.created";; relays "audit.something") = (Ret (), ["1 order.created"]).
Proof. vm_compute. reflexivity. Qed.

Example Relay_MultipleRoutesEachFireIndependently :
  on_relay "**" (_ ← hosted (add_route "order.*" 2); relays "order.created";; relays "audit.something") =
  (Ret (), ["1 order.created"; "2 order.created"; "1 audit.something"]).
Proof. vm_compute. reflexivity. Qed.

Example Relay_RuntimeRemoveRoute :
  on_relay "**" (i ← hosted (add_route "order.*" 2); relays "order.created";;
                 hosted (remove_route i);; relays "order.created") =
  (Ret (), ["1 order.created"; "2 order.created"; "1 order.created"]).
Proof. vm_compute. reflexivity. Qed.

(** ** [test_filtered_transport.cpp] *)

(** [Recorder], with its base class's members beside the console. *)
Abbreviation with_recorder := (TransportBase * console)%type.
Abbreviation recorder_comp := (World.comp with_recorder BusState).

Definition set_base (b : TransportBase) : recorder_comp () := λ w,
  (Ret (), World (heap w) (locked w) (reads w) (b, (user w).2) (st w), []).

Section filtered.
Context (f : script) (outbound inbound : option fn).

Definition recorder_leaf : host with_recorder BusState := beside (played f all_local).
#[local] Instance recorder_target : InboundTarget with_recorder BusState := bus_target recorder_leaf.

Definition Recorder (scope : TransportScope) : transport_ops (U := with_recorder) (S := BusState) := {|
  t_scope := scope;
  t_attach := w ← get_world; set_base (base_attach (user w).1);
  t_attach_with_sink s := w ← get_world; set_base (base_attach_with_sink s (user w).1);
  t_detach := mret ();
  t_dispatch v := λ w,
    (Ret (), World (heap w) (locked w) (reads w) ((user w).1, print ("out " +:+ named (heap w) v) (user w).2) (st w), []);
  t_flush := mret ();
|}.

Definition filtering : host with_recorder BusState :=
  mount_transport recorder_leaf (λ t, Some (filtered_ops recorder_leaf outbound inbound (Recorder Local))).

(** [rec->inject(conduit::event(T{...}).build())] *)
Definition inject (T : string) : recorder_comp () :=
  v ← build filtering generated (Builder.event no_flags (event_of T 0));
  w ← get_world;
  deliver_inbound recorder_leaf (user w).1 v.

Definition on_filter (body : recorder_comp ()) : outcome () * list string :=
  let main := use_transport filtering 1;;
              s1 ← listen filtering (sample_type "order.created") (ArgPayload 1) DEFAULT_PRIORITY;
              s2 ← listen filtering (sample_type "audit.log") (ArgPayload 2) DEFAULT_PRIORITY;
              body;; release_all [s2; s1];; destroy filtering in
  let r := main (World ∅ false 0 (detached_base, blank) new_Bus) in (r.1.1, lines (user r.1.2).2).

(** Both events published, and both injected. *)
Definition both_legs : recorder_comp () :=
  publish_event filtering no_flags (event_of "order.created" 0);;
  publish_event filtering no_flags (event_of "audit.log" 0);;
  inject "order.created";; inject "audit.log".
End filtered.

(** The predicates: 3 and 4 by name, 5 is false, 6 throws. *)
Definition predicates : script := λ c hp u,
  match c with
  | CallPredicate 3 v => (Ret (Glob_match "order.*" (named hp v)), u)
  | CallPredicate 4 v => (Ret (negb (String.eqb (named hp v) "audit.log")), u)
  | CallPredicate 5 _ => (Ret false, u)
  | CallPredicate 6 _ => (Throw boom, u)
  | CallTyped 1 _ => (Ret true, print "order" u)
  | CallTyped 2 _ => (Ret true, print "audit" u)
  | _ => (Ret true, u)
  end.

Definition filtered_log (outbound inbound : option fn) : outcome () * list string :=
  on_filter predicates outbound inbound (both_legs predicates outbound inbound).

Example FilteredTransport_OutboundOnlyFilterDropsByName :
  filtered_log (Some 3%positive) None = (Ret (), ["out order.created"; "order"; "audit"]).
Proof. vm_compute. reflexivity. Qed.

Example FilteredTransport_InboundOnlyFilterGatesDelivery :
  filtered_log None (Some 4%positive) = (Ret (), ["out order.created"; "out audit.log"; "order"]).
Proof. vm_compute. reflexivity. Qed.

Example FilteredTransport_BothLegsGated :
  filtered_log (Some 3%positive) (Some 3%positive) = (Ret (), ["out order.created"; "order"]).
Proof. vm_compute. reflexivity. Qed.

Example FilteredTransport_EmptyPredicatesPassThrough :
  filtered_log None None = (Ret (), ["out order.created"; "out audit.log"; "order"; "audit"]).
Proof. vm_compute. reflexivity. Qed.

Example FilteredTransport_DropAllPredicateBlocksEverything : filtered_log (Some 5%positive) (Some 5%positive) = (Ret (), []).
Proof. vm_compute. reflexivity. Qed.

Example FilteredTransport_ThrowingPredicateIsTreatedAsDrop : filtered_log (Some 6%positive) (Some 6%positive) = (Ret (), []).
Proof. vm_compute. reflexivity. Qed.

Example FilteredTransport_ScopeForwardsToInner :
  t_scope (filtered_ops (recorder_leaf predicates) None None (Recorder Remote)) = Remote.
Proof. reflexivity. Qed.

(** ** [test_bus_queue.cpp] and [test_bus_threadpool.cpp] *)

(** A local transport in this mode, with a number of events published through it; the
    console says on which thread each was handled. *)
Definition on_threads (hp : heap_of) (c : instance_call) : option string :=
  match c with CallTyped _ p => Some (pretty (cc_value p)) | _ => None end.
Definition threads_script : script := λ c hp u,
  match c with CallTyped _ _ => (Ret true, print (if on_worker u then "worker" else "publisher") u) | _ => (Ret true, u) end.

Definition pooled_run (f : script) (mode : Execution) (cfg : ThreadPoolConfig) (eager : bool) (pick : nat → nat)
    (body : host (list EventEnvelope * console) BusState → World.comp (list EventEnvelope * console) BusState ()) :
    outcome () * list string :=
  let h := pooled_host f (construct (LocalTransport.name pool_defaults) mode cfg) eager pick in
  pooled_output (use_transport h 2;; sub ← listen h (sample_type "q") (ArgPayload 1) DEFAULT_PRIORITY;
                 body h;; release_all [sub];; destroy h).

Definition publish_range (h : host (list EventEnvelope * console) BusState) (ns : list nat) :
    World.comp (list EventEnvelope * console) BusState () :=
  for_each ns (λ i, publish_event h no_flags (event_of "q" (Z.of_nat i))).

Example BusQueue_AllDeliveredAfterDrain :
  pooled_run (logs on_threads) Queue pool_defaults false (λ _, 0) (λ h, publish_range h (seq 1 10);; drain h) =
  (Ret (), pretty <$> seq 1 10).
Proof. vm_compute. reflexivity. Qed.

Example BusQueue_DirectFlagBypassesQueueAndRunsInline :
  pooled_run threads_script Queue pool_defaults false (λ _, 0)
    (λ h, publish_built h no_flags (event_of "q" 1) [BuildFlags [flags.Direct]]) = (Ret (), ["publisher"]).
Proof. vm_compute. reflexivity. Qed.

Example BusThreadPool_AllPublishedEventsObservedAfterDrain :
  pooled_run threads_script ThreadPool pool_defaults false (λ n, n / 2) (λ h, publish_range h (seq 0 200);; drain h) =
  (Ret (), replicate 200 "worker").
Proof. vm_compute. reflexivity. Qed.

Example BusThreadPool_ShutdownIsSafe :
  (pooled_run threads_script ThreadPool pool_defaults false (λ n, n / 3)
     (λ h, publish_range h (seq 0 50);; Bus.shutdown h)).1 = Ret ().
Proof. vm_compute. reflexivity. Qed.

(** ** [test_builder.cpp] and [test_event.cpp] *)

(** The core that a builder makes. *)
Definition built (d : @default_flags ext_flags) (p : @cell _ ext_parcel) (steps : list builder_step) :
    outcome (@EnvelopeCore concrete_externals) :=
  ((v ← build (played silent all_local) generated (apply_steps (Builder.event d p) steps); read_core v)
     (World ∅ false 0 blank new_Bus)).1.1.

Definition tick (n : Z) : @cell _ ext_parcel := event_of "tick" n.
Definition text (s : string) : @md_value _ ext_metadata := s.
Definition an_id (s : string) : @ulid ext_ulid := s.

(** What is asserted of the built core. *)
Definition asserts {A} (o : outcome A) (P : A → bool) : bool := match o with Ret a => P a | _ => false end.

Example Builder_BuildAppliesDefaultIdAndCreatedAt :
  asserts (built no_flags (tick 5) []) (λ c,
    negb (bool_decide (Envelope.id c = ulid_zero)) && negb (created_at (timestamps c) =? 0)%Z) = true.
Proof. vm_compute. reflexivity. Qed.

Example Builder_MetadataFluent :
  asserts (built no_flags (tick 1) [BuildMetadataKey "tenant" (text "acme"); BuildMetadataKey "region" (text "us-east-1")])
    (λ c, bool_decide (md_find "tenant" (metadata_of c) = Some (text "acme")) &&
          bool_decide (md_find "region" (metadata_of c) = Some (text "us-east-1"))) = true.
Proof. vm_compute. reflexivity. Qed.

Definition has_flags (fs : list string) (c : @EnvelopeCore concrete_externals) : bool := forallb (λ f, contains f c) fs.

Example Builder_FlagFluent :
  asserts (built no_flags (tick 1) [BuildFlags [flags.Direct]; BuildFlags [flags.Durable]])
    (has_flags [flags.Direct; flags.Durable]) = true.
Proof. vm_compute. reflexivity. Qed.

Example Builder_DefaultFlagsMixinApplied :
  asserts (built (mixin [flags.LocalOnly]) (event_of "only.local" 0) []) (has_flags [flags.LocalOnly]) = true.
Proof. vm_compute. reflexivity. Qed.

Example Builder_DefaultFlagsAdditive :
  asserts (built (mixin [flags.LocalOnly]) (event_of "only.local" 0) [BuildFlags [flags.Durable]])
    (has_flags [flags.LocalOnly; flags.Durable]) = true.
Proof. vm_compute. reflexivity. Qed.

Definition carries_number (T : string) (n : Z) (c : @EnvelopeCore concrete_externals) : bool :=
  match core_payload_as (sample_type T) c with Some p => (cc_value p =? n)%Z | None => false end.

Example Builder_ImplicitConversionToEnvelope :
  asserts ((v ← to_envelope (played silent all_local) generated
                  (apply_steps (Builder.event no_flags (tick 3)) [BuildFlags [flags.Direct]]);
            read_core v) (World ∅ false 0 blank new_Bus)).1.1
    (λ c, has_flags [flags.Direct] c && carries_number "tick" 3 c) = true.
Proof. vm_compute. reflexivity. Qed.

Example Builder_MakeEventForwards : asserts (built no_flags (tick 11) []) (carries_number "tick" 11) = true.
Proof. vm_compute. reflexivity. Qed.

Example Builder_IdOverride :
  asserts (built no_flags (tick 1) [BuildId (an_id "mine")]) (λ c, bool_decide (Envelope.id c = an_id "mine")) = true.
Proof. vm_compute. reflexivity. Qed.

Example Builder_CorrelationAndCausation :
  asserts (built no_flags (tick 1) [BuildCorrelation (an_id "cor"); BuildCausation (an_id "cau")])
    (λ c, bool_decide (correlation_id c = Some (an_id "cor")) && bool_decide (causation_id c = Some (an_id "cau"))) = true.
Proof. vm_compute. reflexivity. Qed.

Example Event_KindIdHasConduitPrefix :
  desc_kind (et_descriptor (sample_type "order.created")) = "conduit:event:order.created".
Proof. reflexivity. Qed.

Example Event_DefaultFlagsMixinDetected :
  fs_contains flags.LocalOnly (collect_default_flags (mixin [flags.LocalOnly])) = true ∧
  collect_default_flags no_flags = fs_empty.
Proof. vm_compute. by split. Qed.

Example Event_EventTraitsSpecializationApplies :
  fs_contains flags.LocalOnly (collect_default_flags (traits [flags.LocalOnly])) = true.
Proof. vm_compute. reflexivity. Qed.

(** ** [test_envelope.cpp], [test_serialization_*.cpp] and [test_event_registry.cpp] *)

Abbreviation core := (@EnvelopeCore concrete_externals).
Definition ping (n : Z) : @cell _ ext_parcel := event_of "ping" n.
Definition two_field : @cell _ ext_parcel := payload_with "envelope.test.two_field" ["alpha"; "1.25"].
Definition enveloped (p : @cell _ ext_parcel) : core := set_payload_cell (Some p) empty_core.

Example Envelope_CarriesPayload : carries_number "ping" 42 (enveloped (ping 42)) = true ∧ core_name (enveloped (ping 42)) = "ping".
Proof. vm_compute. by split. Qed.

Example Envelope_ValidWhenPayloadPresent :
  env_valid {[1%positive := enveloped (ping 7)]} (MkEnvelope (Some 1%positive) no_display_info) = Ret true.
Proof. vm_compute. reflexivity. Qed.

Example Envelope_PayloadAsRecoversTypedPayload :
  core_payload_as (sample_type "ping") (enveloped (ping 5)) = Some (ping 5) ∧
  core_payload_as (sample_type "pong") (enveloped (ping 5)) = None.
Proof. vm_compute. by split. Qed.

(** A write through one copy is read through the other. *)
Example Envelope_CopiesShareCore :
  let main : comp (option (@md_value _ ext_metadata)) :=
    env ← new_envelope (enveloped (ping 0));
    let copy := env in
    write_core copy (λ c, set_metadata (md_insert_or_assign "transport" (text "test") (metadata_of c)) c);;
    c ← read_core env; mret (md_find "transport" (metadata_of c)) in
  (main (World ∅ false 0 blank new_Bus)).1.1 = Ret (Some (text "test")).
Proof. vm_compute. reflexivity. Qed.

(** [make_fully_populated_envelope()]; and every time stamped, as the first test does. *)
Definition make_fully_populated_envelope : outcome core :=
  built no_flags two_field
    [BuildMetadataKey "tenant" (text "acme"); BuildMetadataKey "region" (text "eu-west");
     BuildFlags [flags.Durable]; BuildFlags [flags.RequireAck];
     BuildCorrelation (an_id "cor"); BuildCausation (an_id "cau")].

Definition populated : outcome core :=
  c ← make_fully_populated_envelope;
  let now := 1700000000123456789%Z in
  Ret (set_timestamps (MkTimestamps (created_at (timestamps c)) (Some (now + 1000000)) (Some (now + 2000000))
                         (Some (now + 3000000)) (Some (now + 4000000)))%Z c).

Definition knows (Ts : list string) : @EventRegistry concrete_externals :=
  foldl (λ r T, add (sample_type T) r) new_EventRegistry Ts.

(** Everything comes back, the times to the millisecond. *)
Definition members (c : core) : list string * list (string * string) * list (option Z) * option string :=
  let t := timestamps c in
  ((Envelope.id c : string) :: default "" (correlation_id c) :: default "" (causation_id c) :: flags c, metadata_of c,
   [Some (created_at t); published_at t; received_at t; delivered_at t; failed_at t],
   (λ p, cc_kind p +:+ pretty (cc_value p)) <$> payload_cell c).
Definition same_up_to_ms (c d : core) : bool :=
  bool_decide (members d = members (set_timestamps (truncate_timestamps (timestamps c)) c)).
Definition comes_back (through : core → outcome (@display_info _ ext_parcel * core)) : bool :=
  asserts (c ← populated; r ← through c; Ret (same_up_to_ms c r.2)) (λ b, b).

Example EnvelopeWire_JsonRoundTripPreservesEveryField :
  comes_back (λ c, j ← encode_json no_display_info c; decode_json (knows ["envelope.test.two_field"]) j) = true.
Proof. vm_compute. reflexivity. Qed.

Example EnvelopeWire_CborRoundTripPreservesEveryField :
  comes_back (λ c, b ← encode_cbor no_display_info c; decode_cbor (knows ["envelope.test.two_field"]) b) = true.
Proof. vm_compute. reflexivity. Qed.

Example EnvelopeWire_JsonAndCborEncodeToTheSameLogicalDocument :
  (c ← populated; b ← encode_cbor no_display_info c; j_from_cbor b) = (c ← populated; encode_json no_display_info c).
Proof. vm_compute. reflexivity. Qed.

(** The round trips of the two suites of the codecs and of the registry's. *)
Definition round_trips (p : @cell _ ext_parcel) (steps : list builder_step)
    (through : core → outcome (@display_info _ ext_parcel * core)) : bool :=
  asserts (c ← built no_flags p steps; r ← through c; Ret (same_up_to_ms c r.2)) (λ b, b).
Definition json_through (T : string) (c : core) := j ← encode_json no_display_info c; decode_json (knows [T]) j.
Definition cbor_through (T : string) (c : core) := b ← encode_cbor no_display_info c; decode_cbor (knows [T]) b.

Example SerializationJson_RoundTripPreservesPayload : round_trips (ping 17) [] (json_through "ping") = true.
Proof. vm_compute. reflexivity. Qed.

Example SerializationJson_RoundTripPreservesIdAndMetadata :
  round_trips (ping 1) [BuildMetadataKey "a" (text "1"); BuildMetadataKey "b" (text "2")] (json_through "ping") = true.
Proof. vm_compute. reflexivity. Qed.

Example SerializationJson_RoundTripPreservesFlags :
  round_trips (ping 1) [BuildFlags [flags.Direct]; BuildFlags [flags.LocalOnly]] (json_through "ping") = true.
Proof. vm_compute. reflexivity. Qed.

Example SerializationCbor_RoundTrips :
  round_trips (payload_with "pong" ["hi"]) [BuildMetadataKey "k" (text "v"); BuildFlags [flags.Durable]] (cbor_through "pong") = true.
Proof. vm_compute. reflexivity. Qed.

Example EventRegistry_AddThenDecodeRoundtripCbor :
  round_trips (event_of "registry.a" 42) [] (cbor_through "registry.a") = true.
Proof. vm_compute. reflexivity. Qed.

(** What a registry makes of the encoded event. *)
Definition decoded_by (Ts : list string) (p : @cell _ ext_parcel) : outcome (string * option (@cell _ ext_parcel)) :=
  c ← built no_flags p []; j ← encode_json no_display_info c; r ← decode_json (knows Ts) j;
  Ret (core_name r.2, core_payload_as (sample_type "ping") r.2).

Example EnvelopeWire_OneRegistryDispatchesMultipleEventTypes :
  decoded_by ["ping"; "envelope.test.two_field"] (ping 11) = Ret ("ping", Some (ping 11)) ∧
  decoded_by ["ping"; "envelope.test.two_field"] two_field = Ret ("envelope.test.two_field", None).
Proof. vm_compute. by split. Qed.

Definition throws_serialization_error {A} (o : outcome A) : bool :=
  match o with Throw e => catches SerializationError (exn_type e) | _ => false end.

Example EnvelopeWire_MissingPayloadKindThrows : throws_serialization_error (decoded_by [] two_field) = true.
Proof. vm_compute. reflexivity. Qed.

Example EnvelopeWire_EmptyEnvelopeRefusesToEncode :
  env_valid ∅ null_envelope = Ret false ∧
  match to_json no_display_info (empty_core : core) with Throw e => catches std_exception (exn_type e) | _ => false end = true.
Proof. vm_compute. by split. Qed.

Fixpoint member_at (ks : list string) (j : cjson) : option cjson :=
  match ks with
  | [] => Some j
  | k :: ks => match j_find j k with Some j => member_at ks j | None => None end
  end.

Example SerializationJson_EncodeIncludesAllFields :
  match (c ← built no_flags (ping 7) [BuildMetadataKey "k" (text "v"); BuildFlags [flags.Direct]];
         encode_json no_display_info c) with
  | Ret j => member_at ["k"] j = Some (CStr "conduit:envelope") ∧ member_at ["v"; "name"] j = Some (CStr "ping") ∧
             member_at ["v"; "payload"; "k"] j = Some (CStr "conduit:event:ping") ∧
             forallb (λ k, bool_decide (is_Some (member_at ["v"; k] j))) ["id"; "timestamps"; "metadata"] = true
  | _ => False
  end.
Proof. vm_compute. by split_and!. Qed.

Example SerializationJson_UnknownNameThrows : throws_serialization_error (decoded_by [] (ping 1)) = true.
Proof. vm_compute. reflexivity. Qed.

(** [bus.registry()] decodes what [register_event<A>()] has registered. *)
Example EventRegistry_BusOwnsDefaultRegistry :
  let s := st (register_event (sample_type "registry.a") (World ∅ false 0 () new_Bus)).1.2 in
  asserts (c ← built no_flags (event_of "registry.a" 1) []; b ← encode_cbor no_display_info c;
           decode_cbor (bus_registry s) b) (λ d, carries_number "registry.a" 1 d.2) = true.
Proof. vm_compute. reflexivity. Qed.

Example EventRegistry_BusUsesCallerSuppliedRegistry :
  bus_registry (new_Bus_with (Some (knows ["registry.a"]))) = knows ["registry.a"].
Proof. reflexivity. Qed.

(** ** [test_event_type_registry.cpp] *)

Definition catalog : @registry _ ext_parcel := global_event_types [sample_type "catalog.order"].

(** The name and the kind of what is found. *)
Definition found (name_or_kind : string) : outcome (option (string * string)) :=
  r ← EventTypes.find catalog name_or_kind;
  match r with Some i => Ret (Some (ti_name i, ti_kind_id i)) | None => Ret None end.

Example EventTypeRegistry_MacroRegistersIntoGlobalCatalog :
  et_contains catalog "catalog.order" = true ∧ et_contains catalog "conduit:event:catalog.order" = true ∧
  found "catalog.order" = Ret (Some ("catalog.order", "conduit:event:catalog.order")) ∧
  found "conduit:event:catalog.order" = Ret (Some ("catalog.order", "conduit:event:catalog.order")).
Proof. vm_compute. by split_and!. Qed.

Example EventTypeRegistry_SchemaExposesStructFields :
  (r ← EventTypes.find catalog "catalog.order"; match r with Some i => Ret (info_schema i) | None => Undef NullDeref end) =
  schema catalog "catalog.order".
Proof. reflexivity. Qed.

Example EventTypeRegistry_SchemaThrowsForUnknownType :
  match schema catalog "does.not.exist" with Throw e => exn_type e = UnknownEventTypeError | _ => False end.
Proof. vm_compute. reflexivity. Qed.

(** The builtin kinds of the registry are not listed. *)
Example EventTypeRegistry_RegisteredTypesListsEventAndExcludesBuiltins :
  asserts (registered_event_types [sample_type "catalog.order"]) (λ l,
    bool_decide ((ti_name <$> l) = ["catalog.order"])) = true.
Proof. vm_compute. reflexivity. Qed.

Example EventTypeRegistry_StandaloneInstanceIsIndependentOfGlobal :
  let standalone := et_add (sample_type "catalog.standalone") new_event_types in
  et_contains new_event_types "catalog.standalone" = false ∧ et_contains standalone "catalog.standalone" = true ∧
  asserts (types standalone) (λ l, bool_decide ((ti_name <$> l) = ["catalog.standalone"])) = true ∧
  et_contains catalog "catalog.standalone" = false ∧ et_contains standalone "catalog.order" = false.
Proof. vm_compute. by split_and!. Qed.
